(* ===== verification/_CoqProject ===== *)
-Q . S2P
Prelude.v
OpCoder.v
Persister.v
RaftTypes.v
RaftLog.v
RaftElection.v
RaftReplication.v
RaftReference.v
RaftPipeline.v
RaftSteps.v
Cluster.v
ClusterLog.v
ClusterRun.v
RaftBounds.v
ClusterSafe.v
ClusterLive.v
ClusterElect.v
RaftTidy.v
RaftCommit.v
ClusterClean.v
ClusterTerms.v
ClusterApply.v
ClusterCommit.v
Channels.v
Hnsw.v
RecallEngine.v
RecallPersist.v
KvTypes.v
KvServer.v
KvSpec.v
ServerMain.v
KvCluster.v
KvAgree.v
Clerk.v
KvClients.v
KvDurable.v
ClientMain.v
