(* ===== verification/Prelude.v ===== *)
(** * A replicated key-value store over Raft

    This library models the C++ program under [src/]: a key-value server replicated with
    Raft, with a durable store per node, a vector index beside the key-value map, a client
    library and a benchmark client.

    ** The program and the files that model it

    A client ([src/ClientMain.cpp]) calls a server through [Clerk] ([src/Clerk]).
    [KvServer] ([src/KvServer/KvServer.cpp]) hands a write to its Raft node with [Start],
    waits on a channel, and answers when its [Apply] callback has executed the entry.  The
    node ([src/Raft/Raft.cpp], [raft.h]) elects a leader, replicates the log, persists its
    state through [Persister] and puts committed entries in a [LockQueue], from which a
    thread of [src/ServerMain.cpp] feeds [Apply].  A feature write also updates
    [RecallEngine], a nearest-neighbour index on top of the vendored hnswlib.

    - [Prelude]: outcomes of C++ code ([Ok], [Terminate] for a failed [myAssert] or an
      uncaught exception, [Undefined]), vectors, record update, sequences of steps, the
      tactics and hints.
    - [OpCoder]: [op_coder.h].  [Persister]: class [Persister] of [raft.h], its files as
      system calls with crashes, its thread as a step relation.
    - [RaftTypes], [RaftLog], [RaftElection], [RaftReplication], [RaftPipeline]: the data and
      the handlers of class [Raft], one definition per function (the map from definitions
      to functions follows the C++ names; a loop body, or the part of a function after a
      lock, has a name of its own).  [RaftReference]: the follower of the Raft paper.
      [RaftSteps]: what every handler preserves; [RaftCommit]: what each does to the
      commit index.
    - [Cluster]: [N] servers as a step relation [cstep], one step per critical section: the
      threads of [electionTimeoutTicker], [sendRequestVote], [leaderHearBeatTicker],
      [sendAppendEntries], [batchSenderLoop] and [applierTicker], the RPC handlers,
      commands, and crashes with restart; messages may be lost, delayed, reordered and
      repeated.  [ClusterLog], [RaftBounds], [ClusterSafe], [ClusterLive], [ClusterElect],
      [ClusterClean] (with [RaftTidy]), [ClusterTerms], [ClusterApply], [ClusterCommit]: its
      theorems.
      [ClusterRun]: executable schedules.
    - [Channels]: [LockQueue] and the RPC glue.  [Hnsw]: the label layer of [hnswalg.h].
      [RecallEngine], [RecallPersist]: [RecallEngine.cpp].
    - [KvTypes], [KvServer], [KvSpec]: the messages, the handlers and the contract of the
      key-value server.  [ServerMain]: the process.  [KvCluster]: the whole service, [Cluster]
      with the [KvServer] of every process, the handlers that wait, and restarts of
      processes; [KvAgree]: when its replicas agree.  [Clerk], [ClientMain]: the client
      side.  [KvClients]: the service together with clerks that send it requests and hear
      its answers; [KvDurable]: what an acknowledgement is worth.

    ** What the theorems show

    - Elections and logs (all interleavings, losses and crashes): one leader per term; an
      index and a term name one entry; every entry was submitted to the leader of its term;
      terms grow, votes are given once, leaders only append; reachable clusters are well
      formed; no handler has undefined behaviour, and only the assertions of
      [AppendEntries1] and [sendAppendEntries] can stop a server, and in a {e clean} run, one
      in which each new leader has empty buffers, not even these; in a clean run logs are
      numbered by position and an index and a term name one entry on all servers; numbers
      fit in 32 bits for [2 ^ 30 - 2] steps; from any state a server whose log is as up to
      date as all others can be elected in a new term; a leader and a follower in step can
      always commit and apply one more command.
    - Handlers: each branch of [RequestVote1], [AppendEntries1], [doElection],
      [sendAppendEntries], the commit rule, heartbeats, the pipeline and the applier;
      [AppendEntries1] equals the follower of the paper exactly when there is nothing to cut.
      State machine safety does {e not} hold: [ClusterRun] has a reachable run in which two
      servers apply different commands at one index, because the code does not cut, and
      another in which a stale entry of a leader's buffer replaces a committed one.
    - Commits ([ClusterCommit]): in a clean run a committed index has an entry in the logs of a
      majority, whatever is lost and whoever is elected.  While in addition no index is
      {e disputed}, that is no two leaders have created entries for one index, it is the same
      entry, what two state machines got is a prefix one of the other, and a server that
      wins a later election has every committed entry, through any number of changes of
      leader; terms grow along the logs of clean runs ([ClusterTerms]).  With at most one won
      election both conditions follow.  They are needed: the diverging run is clean but an
      index is disputed, and the run with the stale entry is not clean.
    - Durability: the thread of [Persister] refines an assignment to an abstract store that
      the other files use; a file write is atomic under crashes; what was waited for is on
      disk; waiting ends; a restart recovers what was persisted.
    - The server: applying any log executes each request once; the process serves the
      committed prefix; when each RPC answers what; the reads that break exactly-once.
    - The whole service (all interleavings of clients, threads, messages and restarts): the
      map of each server is the replay of its history, the commands of the log at indices
      1, 2, 3 and so on, all of them requests that a leader accepted, mixed with the reads
      it answered; an acknowledged write is in that history; reads return what it has.
      Three processes that [main] starts make an initial state of it.  In clean runs without
      a disputed index two replicas that have taken as much of the log have equal maps, as
      far as no writer has read from them.
    - Clerks and service together ([KvClients]): an [OK] means that the write of the call itself
      took effect at a server; at every server the calls of a clerk take effect at most
      once and in the order in which they were made.  In clean runs without a disputed index
      ([KvDurable]) an acknowledged write stays in the logs of a majority and of the leaders
      elected later, and every server that applies the log that far takes it in.
    - The index: it refines a map from items to vectors, searches return live items, its
      files round-trip, and an upsert that duplicates an item.
    - The clients: when a call returns, how requests are numbered, and when the benchmark
      computes its figures in bounds.

    ** Bounds and fuel

    A C++ integer is a [Z]; [RaftBounds] shows that the [int]s of a node stay in range.
    Comparisons of a negative [int] with a [size_t] convert first ([to_size_t]).  Loops over
    indices carry fuel equal to the length of the interval they walk ([commit_loop],
    [conflict_index], [applier_loop]), and the lemmas that evaluate them show it suffices;
    the retry loop of the clerk consumes a script and may end without an answer, which is
    what an unbounded retry does; other loops are structural.

    ** Idealisations

    A critical section under a mutex is one step.  Code that reads node state without the
    lock ([batchSenderLoop], building a request) reads one state, a step apart from the
    collection; a data race proper is not modelled.  A [rename] that returned is durable.
    Where a handler waits, what others did meanwhile is an argument; in [KvCluster] it is
    other steps.  The queue of a node in [Cluster] keeps the messages that the apply thread
    took; [KvCluster] counts those.  A handler that ends its process through an assertion has no
    step; the runs in which that process goes on all the same are extra ones, and a restart
    is possible at any time.  Clock values and
    random numbers are arguments.

    ** Parameters

    Boost text archives ([BoostArchive]), the skip list ([SkipList]), protobuf encoding
    ([FeatureCodec]), [std::hash], the RPC framework and the graph search of hnswlib are
    type classes or arguments, with the laws the code relies on; each has a concrete
    instance, on which the witnesses run.

    ** Not modelled

    Generated protobuf code; the graph of hnswlib; the submodules Skiplist-CPP and myRPC,
    which are not in the repository; logging and printing; shell scripts and the compiler
    probe under [src/build]; the commented-out first version of [sendAppendEntries]; the
    methods that [raft.h] declares and nothing defines ([CondInstallSnapshot],
    [getApplyLogs], [getnewCommandIndex]).  In [KvClients] an answer is matched to its
    request, not to the attempt that sent it: a late answer may end a later attempt of the
    same call. *)
From Stdlib Require Export Ascii String.
From stdpp Require Export prelude list gmap strings pretty.
From Stdlib Require Export Lia.

Global Open Scope Z_scope.
Declare Scope kv_scope.
Delimit Scope kv_scope with kv.
Open Scope kv_scope.

(** ** Outcomes of C++ code

    A function of the program either returns, or ends the process through
    [myAssert] ([std::terminate]), or has undefined behaviour (a vector read or
    written outside its bounds). *)

Inductive outcome (A : Type) : Type :=
  | Ok (a : A)
  | Terminate (msg : string)
  | Undefined (what : string).
Arguments Ok {_} _.
Arguments Terminate {_} _.
Arguments Undefined {_} _.

#[export] Instance outcome_ret : MRet outcome := @Ok.
#[export] Instance outcome_bind : MBind outcome := λ A B f o,
  match o with
  | Ok a => f a
  | Terminate m => Terminate m
  | Undefined w => Undefined w
  end.

Definition is_ok {A} (o : outcome A) : bool :=
  match o with Ok _ => true | _ => false end.

(** The value of an outcome that returned, for witnesses that evaluate. *)
Definition ok_value {A} (o : outcome A) : option A :=
  match o with Ok a => Some a | _ => None end.

(** No undefined behaviour: the code returns or stops the process. *)
Definition defined {A} (o : outcome A) : Prop :=
  match o with Undefined _ => False | _ => True end.

(** [std::vector::operator[]]: undefined outside [0, size). *)
Definition vec_at {A} (what : string) (l : list A) (i : Z) : outcome A :=
  if decide (0 ≤ i) then
    match l !! Z.to_nat i with Some a => Ok a | None => Undefined what end
  else Undefined what.

Definition vec_set {A} (what : string) (l : list A) (i : Z) (a : A) : outcome (list A) :=
  if decide (0 ≤ i < Z.of_nat (length l)) then Ok (<[Z.to_nat i := a]> l)
  else Undefined what.

(** [vector.size()] as the [int] the code casts it to. *)
Definition vsize {A} (l : list A) : Z := Z.of_nat (length l).

(** A negative [int] compared with a [size_t] is first converted to 64 bits. *)
Definition to_size_t (z : Z) : Z := z mod 2 ^ 64.

(** [myAssert] of [Raft.cpp]. *)
Definition myAssert (cond : bool) (msg : string) : outcome unit :=
  if cond then Ok tt else Terminate msg.

(** A [for] loop over the elements of [l] that threads a state. *)
Fixpoint for_each {A S} (f : A → S → outcome S) (l : list A) (s : S) : outcome S :=
  match l with [] => Ok s | a :: l' => s' ← f a s; for_each f l' s' end.

(** [for (int i = 0; i < n; ++i)] *)
Definition indices (n : nat) : list Z := Z.of_nat <$> seq 0 n.

Definition int32_min : Z := - 2 ^ 31.
Definition int32_max : Z := 2 ^ 31 - 1.
Definition int32 (z : Z) : Prop := int32_min ≤ z ≤ int32_max.
#[export] Instance int32_dec z : Decision (int32 z).
Proof. unfold int32. apply _. Defined.

(** ** Record update

    [r <| f := v |>] is the record [r] with field [f] replaced.  The class holds
    the setter of one projection; [solve_setter] derives it from the constructor
    expansion registered for the record. *)

Class Expand (R : Type) := expand : R → R.
Class Setter {R T : Type} (proj : R → T) := upd : (T → T) → R → R.
Arguments upd {R T} proj {_} _ _ /.

Ltac solve_setter :=
  match goal with
  | |- @Setter ?R ?T ?proj =>
      let e := constr:(_ : Expand R) in
      let e := eval cbv [expand] in e in
      let e := eval hnf in e in
      exact (fun (f : T -> T) (r : R) =>
        ltac:(let body := eval cbv beta in (e r) in
              let body := eval pattern (proj r) in body in
              match body with
              | ?g _ => let t := eval cbv beta in (g (f (proj r))) in exact t
              end))
  end.
#[export] Hint Extern 1 (Setter _) => solve_setter : typeclass_instances.

Notation "r '<|' p ':=' v '|>'" := (upd p (λ _, v) r)
  (at level 1, left associativity, p at level 99, v at level 200) : kv_scope.

(** ** Sequences of steps *)

Section steps.
Context {A : Type} (R : A → A → Prop).

(** [steps] is the reflexive transitive closure that grows at its end, so that
    an invariant is proved by induction on the last step. *)
Inductive steps (a : A) : A → Prop :=
  | steps_refl : steps a a
  | steps_snoc b c : steps a b → R b c → steps a c.

Lemma steps_one a b : R a b → steps a b.
Proof. intros; eapply steps_snoc; [apply steps_refl|done]. Qed.

Lemma steps_trans a b c : steps a b → steps b c → steps a c.
Proof. intros Hab Hbc; induction Hbc; eauto using steps_snoc. Qed.

Lemma steps_invariant (I : A → Prop) a b :
  I a → (∀ x y, I x → R x y → I y) → steps a b → I b.
Proof. intros Ha Hstep Hs; induction Hs; eauto. Qed.

Lemma steps_invariant_rel (I : A → Prop) (J : A → A → Prop) a b :
  I a → (∀ x y, I x → R x y → I y) →
  (∀ x, J x x) → (∀ x y z, J x y → J y z → J x z) →
  (∀ x y, I x → R x y → J x y) → steps a b → J a b.
Proof.
  intros Ha HI Hr Ht HJ Hs. assert (I b ∧ J a b) as [_ ?]; [|done].
  induction Hs as [|b c _ [IHi IHj] Hbc]; eauto.
Qed.
End steps.
Arguments steps_refl {A R a}.

(** ** Automation *)

Create HintDb kvdb.
Create Rewrite HintDb kvdb.

(** Inversion of the monad: [Hb : m ≫= f = Ok b] gives the intermediate value. *)
Lemma outcome_bind_Ok {A B} (m : outcome A) (f : A → outcome B) b :
  (m ≫= f) = Ok b ↔ ∃ a, m = Ok a ∧ f a = Ok b.
Proof. destruct m; cbn; split; intros; naive_solver. Qed.

Lemma myOk_inj {A} (a b : A) : @mret outcome _ A a = Ok b ↔ a = b.
Proof. unfold mret, outcome_ret. naive_solver. Qed.

Lemma Ok_inj2 {A B} (a a' : A) (b b' : B) : Ok (a, b) = Ok (a', b') → a = a' ∧ b = b'.
Proof. by intros [= -> ->]. Qed.

Ltac inv_ok :=
  repeat match goal with
  | H : (_ ≫= _) = Ok _ |- _ =>
      apply outcome_bind_Ok in H;
      let x := fresh "x" in let Hx := fresh "Hx" in destruct H as (x & Hx & H)
  | H : mret _ = Ok _ |- _ => apply myOk_inj in H
  | H : Ok _ = Ok _ |- _ => injection H as H
  | H : Terminate _ = Ok _ |- _ => discriminate H
  | H : Undefined _ = Ok _ |- _ => discriminate H
  | H : (_, _) = (_, _) |- _ => injection H as ? ?
  end.

(** Case analysis on the tests of a handler, in a hypothesis or in the goal. *)
Ltac case_test :=
  match goal with
  | |- context [decide ?P] => destruct (decide P)
  | |- context [if ?b then _ else _] => destruct b eqn:?
  | H : context [decide ?P] |- _ => destruct (decide P)
  | H : context [if ?b then _ else _] |- _ => destruct b eqn:?
  end.

Ltac b2p :=
  repeat match goal with
  | H : (_ <? _) = true |- _ => apply Z.ltb_lt in H
  | H : (_ <? _) = false |- _ => apply Z.ltb_ge in H
  | H : (_ <=? _) = true |- _ => apply Z.leb_le in H
  | H : (_ <=? _) = false |- _ => apply Z.leb_gt in H
  | H : (_ =? _) = true |- _ => apply Z.eqb_eq in H
  | H : (_ =? _) = false |- _ => apply Z.eqb_neq in H
  | H : negb _ = true |- _ => apply negb_true_iff in H
  | H : negb _ = false |- _ => apply negb_false_iff in H
  | H : _ && _ = true |- _ => apply andb_true_iff in H as [? ?]
  | H : _ || _ = false |- _ => apply orb_false_iff in H as [? ?]
  | H : bool_decide _ = true |- _ => apply bool_decide_eq_true in H
  | H : bool_decide _ = false |- _ => apply bool_decide_eq_false in H
  end.

(** Evaluates the comparisons of the goal that arithmetic decides. *)
Ltac zbool :=
  repeat match goal with
  | |- context [?a <=? ?b] =>
      first [ replace (a <=? b) with true by (symmetry; apply Z.leb_le; lia)
            | replace (a <=? b) with false by (symmetry; apply Z.leb_gt; lia) ]
  | |- context [?a <? ?b] =>
      first [ replace (a <? b) with true by (symmetry; apply Z.ltb_lt; lia)
            | replace (a <? b) with false by (symmetry; apply Z.ltb_ge; lia) ]
  | |- context [?a =? ?b] =>
      first [ replace (a =? b) with true by (symmetry; apply Z.eqb_eq; lia)
            | replace (a =? b) with false by (symmetry; apply Z.eqb_neq; lia) ]
  end; cbn [andb orb negb].

(** Reads through record updates: [f (r <| g := v |>)] is [v] when [f] is [g] and
    [f r] otherwise.  Used where a file makes [upd] opaque to [cbn] because its
    records are wide. *)
Ltac upd_simpl :=
  repeat match goal with
  | |- context [?p (@upd ?R ?T ?q ?St ?f ?r)] =>
      first [ change (p (@upd R T q St f r)) with (p r)
            | change (p (@upd R T q St f r)) with (f (p r)); cbn beta ]
  end.
Ltac upd_simpl_in H :=
  repeat match type of H with
  | context [?p (@upd ?R ?T ?q ?St ?f ?r)] =>
      first [ change (p (@upd R T q St f r)) with (p r) in H
            | change (p (@upd R T q St f r)) with (f (p r)) in H; cbn beta in H ]
  end.

(** ** Vectors *)

Lemma vec_at_Ok {A} w (l : list A) i a :
  vec_at w l i = Ok a ↔ 0 ≤ i ∧ l !! Z.to_nat i = Some a.
Proof.
  unfold vec_at. case_decide; [|naive_solver].
  destruct (l !! Z.to_nat i); naive_solver.
Qed.

Lemma vec_at_in_range {A} w (l : list A) i :
  0 ≤ i < vsize l → ∃ a, l !! Z.to_nat i = Some a ∧ vec_at w l i = Ok a.
Proof.
  intros Hi. destruct (lookup_lt_is_Some_2 l (Z.to_nat i)) as [a Ha];
    [unfold vsize in *; lia|].
  exists a. split; [done|]. apply vec_at_Ok. split; [lia|done].
Qed.

Lemma vec_set_Ok {A} w (l l' : list A) i a :
  vec_set w l i a = Ok l' ↔ 0 ≤ i < vsize l ∧ l' = <[Z.to_nat i := a]> l.
Proof. unfold vec_set, vsize. case_decide; naive_solver. Qed.

Lemma vsize_app {A} (l k : list A) : vsize (l ++ k) = vsize l + vsize k.
Proof. unfold vsize. rewrite length_app. lia. Qed.
Lemma vsize_nonneg {A} (l : list A) : 0 ≤ vsize l.
Proof. unfold vsize. lia. Qed.
Lemma vsize_insert {A} (l : list A) i a : vsize (<[i := a]> l) = vsize l.
Proof. unfold vsize. by rewrite length_insert. Qed.
#[export] Hint Rewrite @vsize_app @vsize_insert : kvdb.
#[export] Hint Resolve vsize_nonneg : kvdb.

Lemma for_each_app {A S} (f : A → S → outcome S) l1 l2 s :
  for_each f (l1 ++ l2) s = (s' ← for_each f l1 s; for_each f l2 s').
Proof.
  revert s. induction l1 as [|a l1 IH]; intros s; [done|]. cbn [app for_each].
  destruct (f a s); cbn; auto.
Qed.

Lemma indices_S k : indices (S k) = indices k ++ [Z.of_nat k].
Proof. unfold indices. by rewrite seq_S, fmap_app. Qed.

Lemma indices_in k i : i ∈ indices k ↔ 0 ≤ i < Z.of_nat k.
Proof.
  unfold indices. rewrite list_elem_of_fmap. setoid_rewrite elem_of_seq.
  split; [intros (j & -> & ?); lia|]. intros Hi. exists (Z.to_nat i). lia.
Qed.

Lemma indices_NoDup k : NoDup (indices k).
Proof. apply NoDup_fmap_2; [intros ?? ?; lia|apply NoDup_seq]. Qed.

Lemma length_indices k : length (indices k) = k.
Proof. unfold indices. by rewrite length_fmap, length_seq. Qed.

(** An invariant of a loop, relative to the elements already processed. *)
Lemma for_each_invariant {A S} (f : A → S → outcome S) (I : list A → S → Prop) l s :
  I [] s →
  (∀ l1 a l2 s, l = l1 ++ a :: l2 → I l1 s → ∃ s', f a s = Ok s' ∧ I (l1 ++ [a]) s') →
  ∃ s', for_each f l s = Ok s' ∧ I l s'.
Proof.
  intros H0 Hstep.
  assert (∀ l2 l1 s, l = l1 ++ l2 → I l1 s → ∃ s', for_each f l2 s = Ok s' ∧ I l s') as Hgen.
  { induction l2 as [|a l2 IH]; intros l1 s1 Hl Hs.
    - rewrite app_nil_r in Hl. subst. by exists s1.
    - destruct (Hstep l1 a l2 s1 Hl Hs) as (s2 & Hf & Hs2). cbn [for_each]. rewrite Hf.
      cbn [mbind outcome_bind]. apply (IH (l1 ++ [a])); [|done].
      by rewrite <- app_assoc. }
  by apply (Hgen l [] s).
Qed.

(** The same for a loop known to have returned. *)
Lemma for_each_Ok {A S} (f : A → S → outcome S) (I : S → Prop) l s s' :
  (∀ a s s', a ∈ l → I s → f a s = Ok s' → I s') → I s → for_each f l s = Ok s' → I s'.
Proof.
  revert s. induction l as [|a l IH]; intros s Hf Hs Hl; cbn in Hl; [by injection Hl as <-|].
  apply outcome_bind_Ok in Hl as (s1 & Hs1 & Hl).
  eapply IH; [|eapply Hf; [|exact Hs|exact Hs1]|exact Hl]; [|set_solver].
  intros b t t' Hb. apply Hf. set_solver.
Qed.

(** Definedness of a bind, of an assertion, of vector accesses and of a loop. *)
Lemma defined_bind {A B} (m : outcome A) (f : A → outcome B) :
  defined m → (∀ a, m = Ok a → defined (f a)) → defined (m ≫= f).
Proof. destruct m; cbn; auto. Qed.
Lemma defined_assert b w : defined (myAssert b w).
Proof. by destruct b. Qed.
Lemma defined_at {A} w (l : list A) i : 0 ≤ i < vsize l → defined (vec_at w l i).
Proof. intros Hi. by destruct (vec_at_in_range w l i Hi) as (a & _ & ->). Qed.
Lemma defined_set {A} w (l : list A) i a : 0 ≤ i < vsize l → defined (vec_set w l i a).
Proof. unfold vec_set, vsize. intros. by rewrite decide_True. Qed.
#[export] Hint Resolve defined_assert : kvdb.

Lemma for_each_defined {A S} (f : A → S → outcome S) (I : S → Prop) l s :
  (∀ a s, a ∈ l → I s → defined (f a s) ∧ ∀ s', f a s = Ok s' → I s') →
  I s → defined (for_each f l s).
Proof.
  revert s. induction l as [|a l IH]; intros s Hf Hs; [done|]. cbn [for_each].
  destruct (Hf a s) as [Hd HI]; [set_solver|done|]. apply defined_bind; [done|].
  intros s' Hs'. apply IH; [|by apply HI]. intros b t Hb. apply Hf. set_solver.
Qed.

(** Filling a vector from the left. *)
Lemma vec_set_fill {A} w (l : list A) k a :
  (k < length l)%nat →
  vec_set w (replicate k a ++ drop k l) (Z.of_nat k) a = Ok (replicate (S k) a ++ drop (S k) l).
Proof.
  intros Hk. unfold vec_set. rewrite length_app, length_replicate, length_drop.
  rewrite decide_True by lia. f_equal. rewrite Nat2Z.id.
  rewrite insert_app_r_alt by (rewrite length_replicate; lia).
  rewrite length_replicate, Nat.sub_diag. destruct (drop k l) as [|b l'] eqn:E.
  { apply (f_equal length) in E. rewrite length_drop in E. cbn in E. lia. }
  change (<[0%nat := a]> (b :: l')) with (a :: l').
  rewrite replicate_S_end, <- app_assoc. cbn [app]. do 2 f_equal.
  replace (S k) with (k + 1)%nat by lia. by rewrite <- drop_drop, E.
Qed.
