(* ===== verification/OpCoder.v ===== *)
(** The binary codec of log commands ([src/KvServer/op_coder.h]): [encodeOp] and
    [decodeOp], with [std::to_string] and [std::stoi] as the code uses them. *)
From Stdlib Require Import Ascii String.
From S2P Require Import Prelude.
Open Scope Z_scope.

(** [struct Op] of [kvServer.h].  A [std::string] is a string of bytes. *)
Record Op := mkOp {
  Operation : string;
  Key : string;
  Value : string;
  ClientId : string;
  RequestId : Z
}.
#[export] Instance Op_expand : Expand Op := λ o,
  mkOp (Operation o) (Key o) (Value o) (ClientId o) (RequestId o).
#[export] Instance Op_eq_dec : EqDecision Op.
Proof. solve_decision. Defined.

Abbreviation bytes := (list ascii).

(** A [uint32_t] as the four bytes [oss.write] copies, on a little-endian host. *)
Definition u32_bytes (n : N) : bytes :=
  [ascii_of_N (n mod 256); ascii_of_N (n / 256 mod 256);
   ascii_of_N (n / 65536 mod 256); ascii_of_N (n / 16777216 mod 256)]%N.

Definition u32_of_bytes (a b c d : ascii) : N :=
  (N_of_ascii a + 256 * N_of_ascii b + 65536 * N_of_ascii c
   + 16777216 * N_of_ascii d)%N.

Definition to_string (z : Z) : string := pretty z.

Definition is_space (c : ascii) : bool :=
  let n := N_of_ascii c in ((n =? 32) || ((9 <=? n) && (n <=? 13)))%N.

Definition digit_of (c : ascii) : option Z :=
  let n := Z.of_N (N_of_ascii c) in
  if (48 <=? n) && (n <=? 57) then Some (n - 48) else None.

(** The digits of [strtol], base 10: the value read so far and whether at least
    one digit was read; reading stops at the first other character. *)
Fixpoint strtol_digits (acc : Z) (seen : bool) (s : string) : option Z :=
  match s with
  | EmptyString => if seen then Some acc else None
  | String c s' =>
      match digit_of c with
      | Some d => strtol_digits (acc * 10 + d) true s'
      | None => if seen then Some acc else None
      end
  end.

Fixpoint skip_space (s : string) : string :=
  match s with
  | String c s' => if is_space c then skip_space s' else s
  | EmptyString => EmptyString
  end.

Definition strtol (s : string) : option Z :=
  match skip_space s with
  | EmptyString => None
  | String c s' =>
      if (c =? "-")%char then Z.opp <$> strtol_digits 0 false s'
      else if (c =? "+")%char then strtol_digits 0 false s'
      else strtol_digits 0 false (String c s')
  end.

(** [std::atoi]: 0 without digits, undefined outside [int]. *)
Definition atoi (s : string) : outcome Z :=
  match strtol s with
  | None => Ok 0
  | Some z => if decide (int32 z) then Ok z else Undefined "atoi"
  end.

(** [std::stoi]: [None] stands for the exceptions [invalid_argument] and
    [out_of_range]. *)
Definition stoi (s : string) : option Z :=
  z ← strtol s; if decide (int32 z) then Some z else None.

(** [write_field]: the size as a [uint32_t], then that many bytes. *)
Definition write_field (s : string) : bytes :=
  let data := list_ascii_of_string s in
  let len := (N.of_nat (length data) mod 2 ^ 32)%N in
  u32_bytes len ++ take (N.to_nat len) data.

Definition encodeOp (op : Op) : string :=
  string_of_list_ascii
    (write_field (Operation op) ++ write_field (Key op) ++ write_field (Value op) ++
     write_field (ClientId op) ++ write_field (to_string (RequestId op))).

Definition max_field : N := (1024 * 1024 * 1024)%N.

(** [read_field]: whether it succeeded, the new contents of [*out] and what is
    left of the stream.  A short read leaves the bytes it got followed by the
    zeros of [resize]. *)
Definition read_field (out : string) (iss : bytes) : bool * string * bytes :=
  match iss with
  | a :: b :: c :: d :: rest =>
      let len := u32_of_bytes a b c d in
      if (max_field <? len)%N then (false, out, rest)
      else if (len <=? N.of_nat (length rest))%N then
        (true, string_of_list_ascii (take (N.to_nat len) rest),
         drop (N.to_nat len) rest)
      else
        (false, string_of_list_ascii
                  (rest ++ replicate (N.to_nat len - length rest) Ascii.zero), [])
  | _ => (false, out, [])
  end.

(** [decodeOp]; [uninit] is the indeterminate value of [op.RequestId] when the
    field is never assigned. *)
Definition decodeOp (uninit : Z) (data : string) : Op :=
  let op := mkOp "" "" "" "" uninit in
  let '(ok, s, iss) := read_field "" (list_ascii_of_string data) in
  let op := op <| Operation := s |> in
  if negb ok then op else
  let '(ok, s, iss) := read_field "" iss in
  let op := op <| Key := s |> in
  if negb ok then op else
  let '(ok, s, iss) := read_field "" iss in
  let op := op <| Value := s |> in
  if negb ok then op else
  let '(ok, s, iss) := read_field "" iss in
  let op := op <| ClientId := s |> in
  if negb ok then op else
  let '(ok, token, iss) := read_field "" iss in
  if negb ok then op else
  op <| RequestId := match stoi token with Some z => z | None => -1 end |>.

(** ** Integers and their decimal form *)

Lemma digit_of_pretty (n : N) :
  (n < 10)%N → digit_of (pretty_N_char n) = Some (Z.of_N n).
Proof.
  intros Hn. assert (n = 0 ∨ n = 1 ∨ n = 2 ∨ n = 3 ∨ n = 4 ∨ n = 5 ∨ n = 6 ∨
    n = 7 ∨ n = 8 ∨ n = 9)%N as Hcases by lia.
  repeat (destruct Hcases as [->|Hcases]; [reflexivity|]). by subst.
Qed.

(** The digit reader inverts the digit writer of [pretty]. *)
Lemma strtol_digits_pretty (n : N) (s : string) (seen : bool) :
  (0 < n)%N →
  strtol_digits 0 seen (pretty_N_go n s) = strtol_digits (Z.of_N n) true s.
Proof.
  revert s seen. induction (N.lt_wf_0 n) as [n _ IH]; intros s seen Hn.
  assert (n mod 10 < 10)%N as Hm by (apply N.mod_lt; lia).
  pose proof (N.div_mod n 10 ltac:(lia)) as Hdm.
  rewrite pretty_N_go_step by done. destruct (decide (n / 10 = 0)%N) as [Hz|Hz].
  - rewrite Hz, pretty_N_go_0. cbn [strtol_digits].
    rewrite digit_of_pretty by done. f_equal. lia.
  - rewrite IH by (try apply N.div_lt; lia). cbn [strtol_digits].
    rewrite digit_of_pretty by done. f_equal. lia.
Qed.

Lemma skip_space_digit c d s :
  digit_of c = Some d → skip_space (String c s) = String c s.
Proof.
  cbn. unfold digit_of, is_space. intros H. case_match eqn:E; [|done]. b2p.
  replace (N_of_ascii c =? 32)%N with false by (symmetry; apply N.eqb_neq; lia).
  replace (N_of_ascii c <=? 13)%N with false by (symmetry; apply N.leb_gt; lia).
  by rewrite andb_false_r.
Qed.

Lemma pretty_N_go_head (n : N) (s : string) :
  (0 < n)%N → ∃ c d r, pretty_N_go n s = String c r ∧ digit_of c = Some d.
Proof.
  revert s. induction (N.lt_wf_0 n) as [n _ IH]; intros s Hn.
  assert (n mod 10 < 10)%N as Hm by (apply N.mod_lt; lia).
  pose proof (N.div_mod n 10 ltac:(lia)).
  rewrite pretty_N_go_step by done. destruct (decide (n / 10 = 0)%N) as [Hz|Hz].
  - rewrite Hz, pretty_N_go_0. eexists _, _, _. split; [done|]. by apply digit_of_pretty.
  - apply IH; [apply N.div_lt|]; lia.
Qed.

Lemma digit_not_sign c d :
  digit_of c = Some d → (c =? "-")%char = false ∧ (c =? "+")%char = false.
Proof.
  intros H. split; apply Ascii.eqb_neq; intros ->; discriminate H.
Qed.

Lemma strtol_pretty_pos (n : N) :
  (0 < n)%N → strtol (pretty_N_go n "") = Some (Z.of_N n).
Proof.
  intros Hn. destruct (pretty_N_go_head n "" Hn) as (c & d & r & Heq & Hd).
  destruct (digit_not_sign c d Hd) as [Hm Hp]. unfold strtol.
  rewrite Heq, (skip_space_digit c d) by done. rewrite Hm, Hp, <- Heq.
  rewrite strtol_digits_pretty by done. done.
Qed.

Lemma pretty_pos (p : positive) : pretty (Z.pos p) = pretty_N_go (N.pos p) "".
Proof. done. Qed.

Lemma strtol_to_string (z : Z) : strtol (to_string z) = Some z.
Proof.
  destruct z as [|p|p]; unfold to_string; [done| |].
  - rewrite pretty_pos, strtol_pretty_pos by lia. done.
  - change (pretty (Z.neg p)) with (String "-" (pretty_N_go (N.pos p) "")).
    unfold strtol. cbn [skip_space]. change (is_space "-") with false. cbn iota.
    rewrite Ascii.eqb_refl, strtol_digits_pretty by lia. done.
Qed.

Lemma stoi_to_string z : int32 z → stoi (to_string z) = Some z.
Proof. intros Hz. unfold stoi. rewrite strtol_to_string. cbn. by case_decide. Qed.

Lemma stoi_int32 s z : stoi s = Some z → int32 z.
Proof.
  unfold stoi. destruct (strtol s); cbn; [|done]. case_decide; naive_solver.
Qed.

(** ** One field *)

Lemma ascii_byte (n : N) : (n < 256)%N → N_of_ascii (ascii_of_N n) = n.
Proof. apply N_ascii_embedding. Qed.

Lemma u32_round n : (n < 2 ^ 32)%N →
  match u32_bytes n with
  | [a; b; c; d] => u32_of_bytes a b c d = n
  | _ => False
  end.
Proof.
  intros Hn. unfold u32_bytes, u32_of_bytes.
  rewrite !ascii_byte by (apply N.mod_lt; lia).
  change (2 ^ 32)%N with 4294967296%N in Hn.
  pose proof (N.div_mod n 256 ltac:(lia)). pose proof (N.div_mod n 65536 ltac:(lia)).
  pose proof (N.div_mod n 16777216 ltac:(lia)).
  pose proof (N.mod_lt n 256 ltac:(lia)).
  pose proof (N.div_mod (n / 256) 256 ltac:(lia)).
  pose proof (N.div_mod (n / 65536) 256 ltac:(lia)).
  pose proof (N.Div0.div_div n 256 256). pose proof (N.Div0.div_div n 65536 256).
  assert (n / 16777216 < 256)%N by (apply N.Div0.div_lt_upper_bound; lia).
  rewrite (N.mod_small (n / 16777216)) by done.
  change (256 * 256)%N with 65536%N in *. change (65536 * 256)%N with 16777216%N in *.
  lia.
Qed.

Definition field_ok (s : string) : Prop :=
  (N.of_nat (String.length s) ≤ max_field)%N.
#[export] Instance field_ok_dec s : Decision (field_ok s).
Proof. unfold field_ok. apply _. Defined.

Lemma length_list_ascii s : length (list_ascii_of_string s) = String.length s.
Proof. induction s; cbn; congruence. Qed.

Lemma read_write_field out s rest :
  field_ok s → read_field out (write_field s ++ rest) = (true, s, rest).
Proof.
  unfold field_ok, max_field. intros Hs. unfold write_field. rewrite length_list_ascii.
  set (data := list_ascii_of_string s).
  assert (length data = String.length s) as Hlen by apply length_list_ascii.
  rewrite N.mod_small by (change (2 ^ 32)%N with 4294967296%N; lia).
  rewrite Nat2N.id, (firstn_all2 data) by lia.
  assert (Hr := u32_round (N.of_nat (String.length s))).
  destruct (u32_bytes _) as [|a [|b [|c [|d [|]]]]]; try (exfalso; apply Hr;
    change (2 ^ 32)%N with 4294967296%N; lia).
  cbn [app read_field]. rewrite Hr by (change (2 ^ 32)%N with 4294967296%N; lia).
  unfold max_field. replace (_ <? _)%N with false by (symmetry; apply N.ltb_ge; lia).
  rewrite length_app. replace (_ <=? _)%N with true by (symmetry; apply N.leb_le; lia).
  rewrite Nat2N.id, <- Hlen, take_app_length, drop_app_length.
  unfold data. by rewrite string_of_list_ascii_of_string.
Qed.

Lemma read_field_nil out : read_field out [] = (false, out, []).
Proof. done. Qed.

Lemma length_pretty_N_go (k : nat) (n : N) (s : string) :
  (n < 10 ^ N.of_nat k)%N →
  (String.length (pretty_N_go n s) ≤ k + String.length s)%nat.
Proof.
  revert n s. induction k as [|k IH]; intros n s Hn.
  - replace n with 0%N by (cbn in Hn; lia). by rewrite pretty_N_go_0.
  - destruct (decide (n = 0)%N) as [->|Hn0].
    + rewrite pretty_N_go_0. lia.
    + rewrite pretty_N_go_step by lia.
      etransitivity; [apply IH|cbn; lia].
      rewrite Nat2N.inj_succ, N.pow_succ_r' in Hn.
      apply N.Div0.div_lt_upper_bound. lia.
Qed.

Lemma field_ok_to_string z : int32 z → field_ok (to_string z).
Proof.
  intros Hz. unfold field_ok, to_string, int32, int32_min, int32_max in *.
  assert (∀ p, (N.pos p < 10 ^ N.of_nat 10)%N →
    (String.length (pretty_N_go (N.pos p) "") ≤ 10)%nat) as Hp.
  { intros p Hlt. apply (length_pretty_N_go 10) with (s := ""%string) in Hlt.
    change (String.length "") with 0%nat in Hlt. lia. }
  change (10 ^ N.of_nat 10)%N with 10000000000%N in Hp. unfold max_field.
  destruct z as [|p|p]; [cbn; lia| |].
  - rewrite pretty_pos. specialize (Hp p). lia.
  - change (pretty (Z.neg p)) with (String "-" (pretty_N_go (N.pos p) "")).
    cbn [String.length]. specialize (Hp p). lia.
Qed.

(** ** Whole commands *)

Definition op_ok (op : Op) : Prop :=
  field_ok (Operation op) ∧ field_ok (Key op) ∧ field_ok (Value op) ∧
  field_ok (ClientId op) ∧ int32 (RequestId op).
#[export] Instance op_ok_dec op : Decision (op_ok op).
Proof. unfold op_ok. apply _. Defined.

Lemma decode_encode uninit op : op_ok op → decodeOp uninit (encodeOp op) = op.
Proof.
  intros (Ho & Hk & Hv & Hc & Hi).
  pose proof (field_ok_to_string _ Hi) as Hr. unfold decodeOp, encodeOp.
  rewrite list_ascii_of_string_of_list_ascii.
  rewrite <- (app_nil_r (write_field (to_string _))).
  repeat (rewrite read_write_field by done; cbn beta iota delta [negb]).
  rewrite stoi_to_string by done. by destruct op.
Qed.

(** C33: a command that the leader appended with [encodeOp] is read back by
    [decodeOp] as the same operation, every field and the request number included,
    when no field is longer than the reader's limit of 1 GiB. *)
Theorem op_codec_roundtrip (uninit : Z) (op : Op) :
  op_ok op → decodeOp uninit (encodeOp op) = op.
Proof. apply decode_encode. Qed.

Lemma op_codec_roundtrip_witness :
  op_ok (mkOp "Append" "key" "" "client" (-7)) ∧
  decodeOp 99 (encodeOp (mkOp "Append" "key" "" "client" (-7))) =
  mkOp "Append" "key" "" "client" (-7).
Proof.
  split; [by apply (bool_decide_unpack _); vm_compute|].
  apply (op_codec_roundtrip 99). by apply (bool_decide_unpack _); vm_compute.
Defined.

(** Distinct operations have distinct commands, so comparing commands (as the
    follower does) compares operations. *)
Lemma encodeOp_inj op1 op2 :
  op_ok op1 → op_ok op2 → encodeOp op1 = encodeOp op2 → op1 = op2.
Proof.
  intros H1 H2 Heq. rewrite <- (decode_encode 0 op1), <- (decode_encode 0 op2) by done.
  by rewrite Heq.
Qed.

(** Whether [n] further fields can be read. *)
Fixpoint fields_ok (n : nat) (iss : bytes) : bool :=
  match n with
  | O => true
  | S n' => let '(ok, _, iss') := read_field "" iss in ok && fields_ok n' iss'
  end.

(** [decodeOp] of any byte string: the request number is taken from the command
    (with -1 for text that [std::stoi] refuses) exactly when all five fields can be
    read; otherwise it is left indeterminate. *)
Theorem decodeOp_request_id (uninit : Z) (data : string) :
  if fields_ok 5 (list_ascii_of_string data)
  then int32 (RequestId (decodeOp uninit data))
  else RequestId (decodeOp uninit data) = uninit.
Proof.
  unfold decodeOp. cbn [fields_ok].
  do 5 (match goal with |- context [read_field ?o ?i] =>
    destruct (read_field o i) as [[[] ?] ?] end; cbn [andb negb]; try done).
  cbn. destruct (stoi _) eqn:E; [by eapply stoi_int32|]. by compute.
Qed.
