(* ===== verification/Persister.v ===== *)
(** The durable store of a node: class [Persister] of [src/Raft/raft.h].  Its file
    primitives run as sequences of system calls on a small model of a file system
    with crashes; its background thread [WorkLoop] is a step relation that
    interleaves with [Save], [SaveRaftState] and [WaitFlushed]. *)
From S2P Require Import Prelude.
Open Scope Z_scope.

(** ** Files *)

(** What a file holds now, and what the last [fsync] made durable. *)
Record file := mkFile { f_data : string; f_synced : option string }.
Abbreviation filesystem := (gmap string file).

(** A system call of the code that changes the file system. *)
Inductive syscall :=
  | SOpenTrunc (path : string)
  | SWrite (path : string) (chunk : string)
  | SFsync (path : string)
  | SClose (path : string)
  | SRename (from to : string).

Definition exec_syscall (fs : filesystem) (c : syscall) : filesystem :=
  match c with
  | SOpenTrunc p => <[p := mkFile "" None]> fs
  | SWrite p chunk => alter (λ f, mkFile (f_data f +:+ chunk) None) p fs
  | SFsync p => alter (λ f, mkFile (f_data f) (Some (f_data f))) p fs
  | SClose _ => fs
  | SRename a b =>
      match fs !! a with Some f => <[b := f]> (delete a fs) | None => fs end
  end.
Definition exec_syscalls (cs : list syscall) (fs : filesystem) : filesystem :=
  foldl exec_syscall fs cs.

(** What the environment answers: whether [open] and [rename] succeed, and how
    many bytes the k-th [write] or [read] returns. *)
Record io_env := mkIoEnv { open_ok : bool; io_count : nat → Z; rename_ok : bool }.

Fixpoint stake (n : nat) (s : string) : string :=
  match n, s with S n', String c s' => String c (stake n' s') | _, _ => "" end.
Fixpoint sdrop (n : nat) (s : string) : string :=
  match n, s with S n', String _ s' => sdrop n' s' | _, _ => s end.

(** The [write] loop: [rest] is [data] from offset [off] on, [k] counts the calls. *)
Fixpoint write_loop (fuel k : nat) (env : io_env) (p rest : string)
    : option (bool * list syscall) :=
  match fuel with
  | O => None
  | S fuel' =>
      if (String.length rest =? 0)%nat then Some (true, []) else
      let n := io_count env k in
      if decide (n ≤ 0) then Some (false, [SClose p]) else
      '(ok, cs) ← write_loop fuel' (S k) env p (sdrop (Z.to_nat n) rest);
      Some (ok, SWrite p (stake (Z.to_nat n) rest) :: cs)
  end.

Definition tmp_path (path : string) : string := path +:+ ".tmp".

Definition WriteFileAtomic_fuel (fuel : nat) (env : io_env) (path data : string)
    : option (bool * list syscall) :=
  let tmp := tmp_path path in
  if negb (open_ok env) then Some (false, []) else
  '(ok, cs) ← write_loop fuel 0 env tmp data;
  if negb ok then Some (false, SOpenTrunc tmp :: cs) else
  Some (rename_ok env,
        SOpenTrunc tmp :: cs ++ [SFsync tmp; SClose tmp] ++
        (if rename_ok env then [SRename tmp path] else [])).

(** [WriteFileAtomic]: the result and the system calls made, with fuel for one
    [write] per byte and the last test of the loop. *)
Definition WriteFileAtomic (env : io_env) (path data : string) : bool * list syscall :=
  default (false, []) (WriteFileAtomic_fuel (S (String.length data)) env path data).

(** The [read] loop: the bytes obtained until the file is exhausted or [read]
    returns nothing. *)
Fixpoint read_loop (fuel k : nat) (env : io_env) (rest : string) : string :=
  match fuel with
  | O => ""
  | S fuel' =>
      if (String.length rest =? 0)%nat then "" else
      let n := io_count env k in
      if decide (n ≤ 0) then "" else
      stake (Z.to_nat n) rest +:+ read_loop fuel' (S k) env (sdrop (Z.to_nat n) rest)
  end.

Fixpoint zeros (n : nat) : string :=
  match n with O => "" | S n' => String Ascii.zero (zeros n') end.

(** [ReadFile]: the flag and [*out]; the part not read stays zero. *)
Definition ReadFile (env : io_env) (fs : filesystem) (path out : string)
    : bool * string :=
  match fs !! path with
  | Some f =>
      if open_ok env then
        let got := read_loop (S (String.length (f_data f))) 0 env (f_data f) in
        (true, got +:+ zeros (String.length (f_data f) - String.length got))
      else (false, out)
  | None => (false, out)
  end.

(** A crash keeps of each file what was synced; a file with unsynced data may hold
    anything afterwards. *)
Definition crash (fs fs' : filesystem) : Prop :=
  ∀ p d, f_data <$> fs !! p = Some d → f_synced <$> fs !! p = Some (Some d) →
  fs' !! p = Some (mkFile d (Some d)).

(** The contents of a file that is fully synced. *)
Definition durable (fs : filesystem) (p d : string) : Prop :=
  fs !! p = Some (mkFile d (Some d)).

(** *** Facts about the file primitives *)

Lemma sapp_cons c (a b : string) : String c a +:+ b = String c (a +:+ b).
Proof. done. Qed.
Lemma stake_sdrop n s : stake n s +:+ sdrop n s = s.
Proof.
  revert s. induction n as [|n IH]; intros [|c s]; try done.
  cbn [stake sdrop]. by rewrite sapp_cons, IH.
Qed.
Lemma length_sdrop n s : String.length (sdrop n s) = (String.length s - n)%nat.
Proof. revert s. induction n as [|n IH]; intros [|c s]; cbn; done. Qed.
Lemma sapp_assoc (a b c : string) : (a +:+ b) +:+ c = a +:+ (b +:+ c).
Proof. induction a as [|? a IH]; [done|]. by rewrite !sapp_cons, IH. Qed.
Lemma sapp_nil_r (a : string) : a +:+ "" = a.
Proof. induction a as [|? a IH]; [done|]. by rewrite !sapp_cons, IH. Qed.
Lemma slength_app (a b : string) :
  String.length (a +:+ b) = (String.length a + String.length b)%nat.
Proof. induction a as [|? a IH]; [done|]. rewrite sapp_cons. cbn. by rewrite IH. Qed.
Lemma slength_0 (s : string) : String.length s = 0%nat → s = "".
Proof. by destruct s. Qed.

Lemma tmp_ne (path : string) : tmp_path path ≠ path.
Proof. unfold tmp_path. intros H%(f_equal String.length). rewrite slength_app in H. cbn in H. lia. Qed.

(** The loop terminates with the fuel the code is given. *)
Lemma write_loop_total fuel k env p rest :
  (String.length rest < fuel)%nat → is_Some (write_loop fuel k env p rest).
Proof.
  revert k rest. induction fuel as [|fuel IH]; intros k rest Hf; [lia|]. cbn.
  destruct (Nat.eqb_spec (String.length rest) 0); [eauto|].
  case_decide; [eauto|].
  destruct (IH (S k) (sdrop (Z.to_nat (io_count env k)) rest)) as [[ok cs] ->];
    [rewrite length_sdrop; lia|]. cbn. eauto.
Qed.

(** Every call of the loop writes to [p] or closes it, and a loop that succeeded
    appended exactly the data. *)
Lemma write_loop_spec fuel k env p rest ok cs (fs : filesystem) d s :
  write_loop fuel k env p rest = Some (ok, cs) →
  fs !! p = Some (mkFile d s) →
  (∀ cs1 cs2 q, cs = cs1 ++ cs2 → q ≠ p → exec_syscalls cs1 fs !! q = fs !! q) ∧
  (ok = true → f_data <$> exec_syscalls cs fs !! p = Some (d +:+ rest)).
Proof.
  revert k rest ok cs fs d s. induction fuel as [|fuel IH];
    intros k rest ok cs fs d s Hw Hp; [done|]. cbn in Hw.
  destruct (Nat.eqb_spec (String.length rest) 0) as [Hr|Hr].
  { injection Hw as <- <-. split.
    - intros [|c cs1] cs2 q Heq Hq; [done|discriminate].
    - intros _. cbn. rewrite Hp, (slength_0 rest Hr). cbn. by rewrite sapp_nil_r. }
  case_decide.
  { injection Hw as <- <-. split; [|done].
    intros [|c [|c' cs1]] cs2 q Heq Hq; simplify_eq/=; done. }
  set (n := Z.to_nat _) in *.
  destruct (write_loop fuel (S k) env p (sdrop n rest)) as [[ok' cs']|] eqn:Hl; [|done].
  injection Hw as <- <-.
  destruct (IH _ _ _ _ (exec_syscall fs (SWrite p (stake n rest)))
    (d +:+ stake n rest) None Hl) as [IH1 IH2].
  { cbn. by rewrite lookup_alter_eq, Hp. }
  split.
  - intros [|c cs1] cs2 q Heq Hq; [done|]. injection Heq as <- Heq.
    change (exec_syscalls cs1 (exec_syscall fs (SWrite p (stake n rest))) !! q = fs !! q).
    rewrite (IH1 cs1 cs2 q Heq Hq). cbn. by rewrite lookup_alter_ne.
  - intros Hok. specialize (IH2 Hok). cbn. unfold exec_syscalls in IH2. cbn in IH2.
    by rewrite IH2, sapp_assoc, stake_sdrop.
Qed.

Lemma exec_syscalls_app cs1 cs2 fs :
  exec_syscalls (cs1 ++ cs2) fs = exec_syscalls cs2 (exec_syscalls cs1 fs).
Proof. apply foldl_app. Qed.

Lemma exec_syscalls_cons c cs fs :
  exec_syscalls (c :: cs) fs = exec_syscalls cs (exec_syscall fs c).
Proof. done. Qed.
Lemma exec_syscalls_nil fs : exec_syscalls [] fs = fs.
Proof. done. Qed.
#[local] Arguments exec_syscalls : simpl never.

(** The shape of a call: nothing, an interrupted temporary file, or a temporary
    file written, synced and possibly renamed. *)
Inductive write_shape (env : io_env) (path data : string) : bool → list syscall → Prop :=
  | ws_noopen : write_shape env path data false []
  | ws_short cs :
      write_loop (S (String.length data)) 0 env (tmp_path path) data = Some (false, cs) →
      write_shape env path data false (SOpenTrunc (tmp_path path) :: cs)
  | ws_full cs :
      write_loop (S (String.length data)) 0 env (tmp_path path) data = Some (true, cs) →
      write_shape env path data (rename_ok env)
        ((SOpenTrunc (tmp_path path) :: cs) ++
         [SFsync (tmp_path path); SClose (tmp_path path)] ++
         (if rename_ok env then [SRename (tmp_path path) path] else [])).

Lemma WriteFileAtomic_shape env path data :
  write_shape env path data (fst (WriteFileAtomic env path data))
    (snd (WriteFileAtomic env path data)).
Proof.
  unfold WriteFileAtomic, WriteFileAtomic_fuel.
  destruct (open_ok env); cbn [negb]; [|apply ws_noopen].
  destruct (write_loop_total (S (String.length data)) 0 env (tmp_path path) data)
    as [[ok cs] Hl]; [lia|].
  rewrite Hl. cbn. destruct ok; cbn; [by apply ws_full|by apply ws_short].
Qed.

(** After any prefix of the calls before the final [rename], only the temporary
    file has changed. *)
Lemma loop_prefix_frame env p data ok cs fs cs1 cs2 q :
  write_loop (S (String.length data)) 0 env p data = Some (ok, cs) →
  SOpenTrunc p :: cs = cs1 ++ cs2 → q ≠ p → exec_syscalls cs1 fs !! q = fs !! q.
Proof.
  intros Hl Heq Hq. destruct cs1 as [|c cs1]; [done|]. injection Heq as <- Heq.
  change (exec_syscalls cs1 (<[p := mkFile "" None]> fs) !! q = fs !! q).
  destruct (write_loop_spec _ _ _ _ _ _ _ (<[p := mkFile "" None]> fs) "" None Hl)
    as [Hf _]; [by apply lookup_insert_eq|].
  rewrite (Hf _ _ _ Heq Hq). by apply lookup_insert_ne.
Qed.

(** The same for the calls up to the final [fsync] and [close]. *)
Lemma prefix_frame p cs cs1 k fs q :
  cs1 ++ k = (SOpenTrunc p :: cs) ++ [SFsync p; SClose p] →
  (∀ a b, SOpenTrunc p :: cs = a ++ b → exec_syscalls a fs !! q = fs !! q) →
  q ≠ p → exec_syscalls cs1 fs !! q = fs !! q.
Proof.
  intros Heq Hf Hq. apply app_eq_inv in Heq as [(l & -> & Hl)|(l & Hl & _)];
    [|by eapply Hf].
  rewrite exec_syscalls_app.
  assert (∀ fs0, exec_syscalls l fs0 !! q = fs0 !! q) as ->.
  { intros fs0. destruct l as [|c1 [|c2 [|]]]; simplify_eq/=; try done;
      rewrite ?exec_syscalls_cons, exec_syscalls_nil; cbn [exec_syscall];
      by rewrite lookup_alter_ne. }
  apply (Hf _ []). by rewrite app_nil_r.
Qed.

Lemma full_prefix_tmp env p data cs fs :
  write_loop (S (String.length data)) 0 env p data = Some (true, cs) →
  ∃ s, exec_syscalls (SOpenTrunc p :: cs) fs !! p = Some (mkFile data s).
Proof.
  intros Hl.
  destruct (write_loop_spec _ _ _ _ _ _ _ (<[p := mkFile "" None]> fs) "" None Hl)
    as [_ Hd]; [by apply lookup_insert_eq|].
  specialize (Hd eq_refl). change (exec_syscalls (SOpenTrunc p :: cs) fs)
    with (exec_syscalls cs (<[p := mkFile "" None]> fs)).
  destruct (exec_syscalls cs _ !! p) as [[d s]|]; [|done].
  injection Hd as ->. by exists s.
Qed.

Lemma synced_after_full env p data cs fs :
  write_loop (S (String.length data)) 0 env p data = Some (true, cs) →
  durable (exec_syscalls ((SOpenTrunc p :: cs) ++ [SFsync p; SClose p]) fs) p data ∧
  ∀ q, q ≠ p →
    exec_syscalls ((SOpenTrunc p :: cs) ++ [SFsync p; SClose p]) fs !! q = fs !! q.
Proof.
  intros Hl. set (pre := SOpenTrunc p :: cs). rewrite exec_syscalls_app.
  rewrite !exec_syscalls_cons, exec_syscalls_nil. cbn [exec_syscall]. split.
  - destruct (full_prefix_tmp _ _ _ _ fs Hl) as [s Hs]. fold pre in Hs.
    unfold durable. by rewrite lookup_alter_eq, Hs.
  - intros q Hq. rewrite lookup_alter_ne by done.
    eapply (loop_prefix_frame _ _ _ _ _ _ _ []); [done|by rewrite app_nil_r|done].
Qed.

(** The outcome of a whole call: the file holds the new data durably, or it and
    every other file (but the temporary one) are as before. *)
Lemma WriteFileAtomic_result env path data fs :
  let r := WriteFileAtomic env path data in
  let fs' := exec_syscalls (snd r) fs in
  (if fst r then durable fs' path data else fs' !! path = fs !! path) ∧
  (∀ q, q ≠ path → q ≠ tmp_path path → fs' !! q = fs !! q).
Proof.
  cbn zeta. pose proof (tmp_ne path) as Hne.
  destruct (WriteFileAtomic_shape env path data) as [|cs Hl|cs Hl].
  - done.
  - assert (∀ q, q ≠ (tmp_path path) → exec_syscalls (SOpenTrunc (tmp_path path) :: cs) fs !! q = fs !! q).
    { intros q Hq. eapply (loop_prefix_frame _ _ _ _ _ _ _ []); [done| |done].
      by rewrite app_nil_r. }
    split; auto.
  - destruct (synced_after_full _ _ _ _ fs Hl) as [Hs Hf].
    rewrite app_assoc, exec_syscalls_app. destruct (rename_ok env).
    + unfold durable in *. rewrite exec_syscalls_cons, exec_syscalls_nil.
      cbn [exec_syscall fst snd]. rewrite Hs. split; [by apply lookup_insert_eq|]. intros q Hq Hqt.
      rewrite lookup_insert_ne, lookup_delete_ne by done. auto.
    + rewrite exec_syscalls_nil. split; auto.
Qed.

(** [WriteFileAtomic] is atomic under crashes: whatever the system calls return
    and after whichever of them the machine stops, a file that was durable with the
    old contents is found afterwards with the old contents or with the complete new
    ones, never with a part of them. *)
Theorem write_file_crash_atomic (env : io_env) (path data old : string)
    (fs fs' : filesystem) (cs1 cs2 : list syscall) :
  durable fs path old →
  snd (WriteFileAtomic env path data) = cs1 ++ cs2 →
  crash (exec_syscalls cs1 fs) fs' →
  durable fs' path old ∨ durable fs' path data.
Proof.
  intros Hold Hcs Hcrash. pose proof (tmp_ne path) as Hne.
  assert (Hkeep : ∀ d, exec_syscalls cs1 fs !! path = Some (mkFile d (Some d)) →
    durable fs' path d).
  { intros d Hd. apply Hcrash; by rewrite Hd. }
 
  destruct (WriteFileAtomic_shape env path data) as [|cs Hl|cs Hl].
  - destruct cs1; [|done]. left. by apply Hkeep.
  - left. apply Hkeep. by rewrite (loop_prefix_frame _ _ _ _ _ _ _ _ _ Hl Hcs).
  - set (pre := (SOpenTrunc (tmp_path path) :: cs) ++ [SFsync (tmp_path path); SClose (tmp_path path)]).
    destruct (decide (length cs1 ≤ length pre)%nat) as [Hlen|Hlen].
    + left. apply Hkeep. rewrite <- Hold.
      assert (∃ k, cs1 ++ k = pre) as [k Hk].
      { rewrite app_assoc in Hcs. fold pre in Hcs.
        symmetry in Hcs.
        apply app_eq_inv in Hcs as [(k & -> & _)|(k & -> & _)]; [|by exists k].
        rewrite length_app in Hlen. exists [].
        destruct k; [by rewrite !app_nil_r|cbn in Hlen; lia]. }
      apply (prefix_frame (tmp_path path) cs cs1 k fs path Hk); [|done].
      intros a b Hab. by apply (loop_prefix_frame _ _ _ _ _ fs a b path Hl Hab).
    + right. apply Hkeep. rewrite app_assoc in Hcs. fold pre in Hcs.
      destruct (synced_after_full _ _ _ _ fs Hl) as [Hs _]. fold pre in Hs.
      clearbody pre. apply (f_equal length) in Hcs as Hlens.
      rewrite (length_app cs1 cs2), length_app in Hlens.
      destruct (rename_ok env); cbn in Hlens; [|lia].
      assert (cs1 = pre ++ [SRename (tmp_path path) path]) as ->.
      { destruct cs2 as [|c cs2]; [by rewrite app_nil_r in Hcs|cbn in Hlens; lia]. }
      rewrite exec_syscalls_app, exec_syscalls_cons, exec_syscalls_nil.
      cbn [exec_syscall]. rewrite Hs. apply lookup_insert_eq.
Qed.

Lemma crash_keeps (fs : filesystem) : crash fs fs.
Proof. intros p d. destruct (fs !! p) as [[d' o]|]; cbn; [|done]. by intros [= ->] [= ->]. Defined.

(** A crash after the first of two [write] calls. *)
Lemma write_file_crash_atomic_witness :
  let fs : filesystem := {["p" := mkFile "old" (Some "old")]} in
  let env := mkIoEnv true (λ _, 3) true in
  let cs1 := [SOpenTrunc "p.tmp"; SWrite "p.tmp" "abc"] in
  durable (exec_syscalls cs1 fs) "p" "old" ∨ durable (exec_syscalls cs1 fs) "p" "abcd".
Proof.
  intros fs env cs1. apply (write_file_crash_atomic env "p" "abcd" "old" fs _ cs1
    [SWrite "p.tmp" "d"; SFsync "p.tmp"; SClose "p.tmp"; SRename "p.tmp" "p"]).
  - by vm_compute.
  - by vm_compute.
  - apply crash_keeps.
Defined.

(** ** The store and its background thread *)

(** Where the background thread is in [WorkLoop], with its local variables
    [snapshotToWrite], [stateToWrite] ([None]: the flag is false) and [seqToWrite]. *)
Inductive worker :=
  | WWait
  | WWriteSnap (snap state : option string) (seq : Z)
  | WWriteState (state : option string) (seq : Z)
  | WFlush (seq : Z)
  | WReturned.

Record PersisterState := mkPersister {
  m_raftState : string;
  m_snapshot : string;
  m_pendingRaftState : string;
  m_pendingSnapshot : string;
  m_hasPendingRaft : bool;
  m_hasPendingSnapshot : bool;
  m_stop : bool;
  m_nextSeq : Z;
  m_flushedSeq : Z;
  m_pendingSeq : Z;
  m_raftPath : string;
  m_snapshotPath : string;
  io_thread : worker;
  disk : filesystem
}.
#[export] Instance PersisterState_expand : Expand PersisterState := λ s,
  mkPersister (m_raftState s) (m_snapshot s) (m_pendingRaftState s)
    (m_pendingSnapshot s) (m_hasPendingRaft s) (m_hasPendingSnapshot s) (m_stop s)
    (m_nextSeq s) (m_flushedSeq s) (m_pendingSeq s) (m_raftPath s) (m_snapshotPath s)
    (io_thread s) (disk s).

Definition m_dir : string := "./raft_persist".

(** The constructor: load both files and start the thread. *)
Definition Persister_init (me : Z) (env : io_env) (fs : filesystem) : PersisterState :=
  let raftPath := m_dir +:+ "/raft_state_" +:+ pretty me in
  let snapshotPath := m_dir +:+ "/snapshot_" +:+ pretty me in
  mkPersister (snd (ReadFile env fs raftPath "")) (snd (ReadFile env fs snapshotPath ""))
    "" "" false false false 0 0 0 raftPath snapshotPath WWait fs.

(** The destructor up to the join: it asks the thread to stop. *)
Definition Persister_stop (s : PersisterState) : PersisterState :=
  s <| m_stop := true |>.

Definition Save (raftstate snapshot : string) (s : PersisterState)
    : PersisterState * Z :=
  let s := s <| m_raftState := raftstate |> <| m_snapshot := snapshot |> in
  let s := s <| m_pendingRaftState := raftstate |> <| m_pendingSnapshot := snapshot |>
             <| m_hasPendingRaft := true |> <| m_hasPendingSnapshot := true |>
             <| m_nextSeq := m_nextSeq s + 1 |> in
  (s <| m_pendingSeq := m_nextSeq s |>, m_nextSeq s).

Definition SaveRaftState (data : string) (s : PersisterState) : PersisterState * Z :=
  let s := s <| m_raftState := data |> in
  let s := s <| m_pendingRaftState := data |> <| m_hasPendingRaft := true |>
             <| m_nextSeq := m_nextSeq s + 1 |> in
  (s <| m_pendingSeq := m_nextSeq s |>, m_nextSeq s).

(** [WaitFlushed] returns in the states where its predicate holds. *)
Definition WaitFlushed (seq : Z) (s : PersisterState) : bool := seq <=? m_flushedSeq s.

Definition ReadSnapshot (s : PersisterState) : string := m_snapshot s.
Definition ReadRaftState (s : PersisterState) : string := m_raftState s.
Definition RaftStateSize (s : PersisterState) : Z := Z.of_nat (String.length (m_raftState s)).

Definition write_disk (env : io_env) (path : string) (data : option string)
    (fs : filesystem) : filesystem :=
  match data with
  | Some d => exec_syscalls (snd (WriteFileAtomic env path d)) fs
  | None => fs
  end.

(** [WorkLoop], from one release of the lock (or file write) to the next. *)
Definition work_step (env : io_env) (s : PersisterState) : PersisterState :=
  match io_thread s with
  | WWait =>
      if negb (m_stop s || m_hasPendingRaft s || m_hasPendingSnapshot s) then s else
      if m_stop s && negb (m_hasPendingRaft s) && negb (m_hasPendingSnapshot s)
      then s <| io_thread := WReturned |> else
      let snap := if m_hasPendingSnapshot s then Some (m_pendingSnapshot s) else None in
      let state := if m_hasPendingRaft s then Some (m_pendingRaftState s) else None in
      let seq := if m_hasPendingSnapshot s || m_hasPendingRaft s
                 then m_pendingSeq s else 0 in
      s <| m_pendingSnapshot := if m_hasPendingSnapshot s then "" else m_pendingSnapshot s |>
        <| m_hasPendingSnapshot := false |>
        <| m_pendingRaftState := if m_hasPendingRaft s then "" else m_pendingRaftState s |>
        <| m_hasPendingRaft := false |>
        <| io_thread := WWriteSnap snap state seq |>
  | WWriteSnap snap state seq =>
      s <| disk := write_disk env (m_snapshotPath s) snap (disk s) |>
        <| io_thread := WWriteState state seq |>
  | WWriteState state seq =>
      s <| disk := write_disk env (m_raftPath s) state (disk s) |>
        <| io_thread := WFlush seq |>
  | WFlush seq =>
      (if (0 <? seq) && (m_flushedSeq s <? seq) then s <| m_flushedSeq := seq |> else s)
        <| io_thread := WWait |>
  | WReturned => s
  end.

(** ** Executions *)

(** A store together with the requests made so far, oldest first: the raft state
    given, and the snapshot when the request was a [Save]. *)
Definition pworld : Type := PersisterState * list (string * option string).

Inductive pstep (env_ok : io_env → Prop) : pworld → pworld → Prop :=
  | p_save s l r sn : pstep env_ok (s, l) (fst (Save r sn s), l ++ [(r, Some sn)])
  | p_save_raft s l r : pstep env_ok (s, l) (fst (SaveRaftState r s), l ++ [(r, None)])
  | p_work s l env : env_ok env → pstep env_ok (s, l) (work_step env s, l)
  | p_stop s l : pstep env_ok (s, l) (Persister_stop s, l).

(** Every system call succeeds and every [write] makes progress. *)
Definition io_good (env : io_env) : Prop :=
  open_ok env = true ∧ rename_ok env = true ∧ ∀ k, 0 < io_count env k.

(** What the requests up to number [k] leave as raft state and as snapshot. *)
Definition raft_as_of (init : option string) (l : list (string * option string))
    (k : Z) : option string :=
  match last (take (Z.to_nat k) l) with Some (r, _) => Some r | None => init end.
Definition snap_as_of (init : option string) (l : list (string * option string))
    (k : Z) : option string :=
  match last (omap snd (take (Z.to_nat k) l)) with Some sn => Some sn | None => init end.

Definition holds (fs : filesystem) (p : string) (o : option string) : Prop :=
  match o with Some d => durable fs p d | None => fs !! p = None end.

(** The sequence number whose data the thread has taken from the queue. *)
Definition taken_seq (s : PersisterState) : Z :=
  match io_thread s with
  | WWait | WReturned => m_flushedSeq s
  | WWriteSnap _ _ q | WWriteState _ q | WFlush q => q
  end.

(** How far the two files have got. *)
Definition snap_seq (s : PersisterState) : Z :=
  match io_thread s with
  | WWait | WReturned | WWriteSnap _ _ _ => m_flushedSeq s
  | WWriteState _ q | WFlush q => q
  end.
Definition raft_seq (s : PersisterState) : Z :=
  match io_thread s with WFlush q => q | _ => m_flushedSeq s end.

(** ** The invariant *)

Section as_of.
Context (init : option string) (l : list (string * option string)).

Lemma raft_as_of_snoc x k : k ≤ vsize l → raft_as_of init (l ++ [x]) k = raft_as_of init l k.
Proof. intros Hk. unfold raft_as_of, vsize in *. by rewrite take_app_le by lia. Qed.
Lemma snap_as_of_snoc x k : k ≤ vsize l → snap_as_of init (l ++ [x]) k = snap_as_of init l k.
Proof. intros Hk. unfold snap_as_of, vsize in *. by rewrite take_app_le by lia. Qed.
Lemma raft_as_of_new r o : raft_as_of init (l ++ [(r, o)]) (vsize l + 1) = Some r.
Proof.
  unfold raft_as_of, vsize. rewrite take_ge by (rewrite length_app; cbn; lia).
  by rewrite last_snoc.
Qed.
Lemma snap_as_of_new r o : snap_as_of init (l ++ [(r, o)]) (vsize l + 1) =
  match o with Some sn => Some sn | None => snap_as_of init l (vsize l) end.
Proof.
  unfold snap_as_of, vsize. rewrite take_ge by (rewrite length_app; cbn; lia).
  rewrite omap_app. destruct o as [sn|]; cbn; [by rewrite last_snoc|].
  rewrite app_nil_r, take_ge by lia. done.
Qed.
End as_of.

(** The two files and their temporary files are four different files. *)
Definition paths_apart (s : PersisterState) : Prop :=
  m_raftPath s ≠ m_snapshotPath s ∧ m_raftPath s ≠ tmp_path (m_snapshotPath s) ∧
  m_snapshotPath s ≠ tmp_path (m_raftPath s).

Definition thread_ok r0 s0 (s : PersisterState) (l : list (string * option string)) : Prop :=
  match io_thread s with
  | WWriteSnap os or q =>
      0 < q ∧ or = raft_as_of r0 l q ∧ is_Some or ∧
      snap_as_of s0 l q = match os with Some d => Some d
                          | None => snap_as_of s0 l (m_flushedSeq s) end
  | WWriteState or q => 0 < q ∧ or = raft_as_of r0 l q ∧ is_Some or
  | WFlush q => 0 < q
  | WWait | WReturned => True
  end.

Record pinv (r0 s0 : option string) (w : pworld) : Prop := {
  pinv_paths : paths_apart (fst w);
  pinv_next : m_nextSeq (fst w) = vsize (snd w);
  pinv_pending : m_pendingSeq (fst w) = m_nextSeq (fst w);
  pinv_order : 0 ≤ m_flushedSeq (fst w) ≤ taken_seq (fst w) ∧
               taken_seq (fst w) ≤ m_nextSeq (fst w);
  pinv_flags : m_hasPendingSnapshot (fst w) = true → m_hasPendingRaft (fst w) = true;
  pinv_idle : m_hasPendingRaft (fst w) = false → taken_seq (fst w) = m_nextSeq (fst w);
  pinv_raft_queue : m_hasPendingRaft (fst w) = true →
    raft_as_of r0 (snd w) (m_nextSeq (fst w)) = Some (m_pendingRaftState (fst w)) ∧
    0 < m_nextSeq (fst w);
  pinv_snap_queue : snap_as_of s0 (snd w) (m_nextSeq (fst w)) =
    if m_hasPendingSnapshot (fst w) then Some (m_pendingSnapshot (fst w))
    else snap_as_of s0 (snd w) (taken_seq (fst w));
  pinv_raft_file : holds (disk (fst w)) (m_raftPath (fst w))
    (raft_as_of r0 (snd w) (raft_seq (fst w)));
  pinv_snap_file : holds (disk (fst w)) (m_snapshotPath (fst w))
    (snap_as_of s0 (snd w) (snap_seq (fst w)));
  pinv_thread : thread_ok r0 s0 (fst w) (snd w)
}.

Lemma raft_seq_le s : m_flushedSeq s ≤ taken_seq s →
  m_flushedSeq s ≤ raft_seq s ≤ snap_seq s ∧ snap_seq s ≤ taken_seq s.
Proof. unfold raft_seq, snap_seq, taken_seq. destruct (io_thread s); lia. Qed.

Lemma write_loop_good fuel k env p rest ok cs :
  io_good env → write_loop fuel k env p rest = Some (ok, cs) → ok = true.
Proof.
  intros (_ & _ & Hn). revert k rest ok cs.
  induction fuel as [|fuel IH]; intros k rest ok cs; cbn; [done|].
  case_match; [naive_solver|]. case_decide; [specialize (Hn k); lia|].
  destruct (write_loop fuel _ _ _ _) as [[ok' cs']|] eqn:E; cbn; [|done].
  intros [= <- <-]. eauto.
Qed.

Lemma WriteFileAtomic_good env path data :
  io_good env → fst (WriteFileAtomic env path data) = true.
Proof.
  intros Hg. pose proof Hg as (Ho & Hr & _).
  unfold WriteFileAtomic, WriteFileAtomic_fuel. rewrite Ho. cbn [negb].
  destruct (write_loop_total (S (String.length data)) 0 env (tmp_path path) data)
    as [[ok cs] Hl]; [lia|].
  rewrite Hl. cbn. rewrite (write_loop_good _ _ _ _ _ _ _ Hg Hl). done.
Qed.

(** What one file write leaves on the disk. *)
Lemma write_disk_holds env path o old fs :
  io_good env → holds fs path old →
  holds (write_disk env path o fs) path (match o with Some d => Some d | None => old end).
Proof.
  intros Hg Hold. destruct o as [d|]; [|done]. cbn.
  pose proof (WriteFileAtomic_result env path d fs) as [Hw _].
  rewrite WriteFileAtomic_good in Hw by done. done.
Qed.

Lemma write_disk_frame env path o q old fs :
  q ≠ path → q ≠ tmp_path path → holds fs q old → holds (write_disk env path o fs) q old.
Proof.
  intros Hq Hqt Hold. destruct o as [d|]; [|done]. cbn.
  pose proof (WriteFileAtomic_result env path d fs) as [_ Hw].
  unfold holds, durable in *. destruct old; by rewrite Hw.
Qed.

(** *** Preservation *)

Section preservation.
Context (r0 s0 : option string).

Ltac unpack H :=
  destruct H as [Hpaths Hnext Hpend [Hord1 Hord2] Hflags Hidle Hrq Hsq Hrf Hsf Hth];
  cbn [fst snd] in *.

Lemma thread_ok_snoc s l x s' :
  io_thread s' = io_thread s → m_flushedSeq s' = m_flushedSeq s →
  m_flushedSeq s ≤ taken_seq s ≤ vsize l →
  thread_ok r0 s0 s l → thread_ok r0 s0 s' (l ++ [x]).
Proof.
  unfold thread_ok, taken_seq. intros -> -> Hle.
  destruct (io_thread s) as [|os or q|or q|q|]; try done.
  - intros (? & -> & ? & Hs). rewrite raft_as_of_snoc, snap_as_of_snoc by lia.
    repeat split; try done. destruct os; [done|]. by rewrite snap_as_of_snoc by lia.
  - intros (? & -> & ?). by rewrite raft_as_of_snoc by lia.
Qed.

Lemma pinv_save s l r sn :
  pinv r0 s0 (s, l) → pinv r0 s0 (fst (Save r sn s), l ++ [(r, Some sn)]).
Proof.
  intros H. unpack H. destruct (raft_seq_le s (proj2 Hord1)) as [Hr Hs]. rewrite Hnext in *.
  constructor; cbn [fst snd]; try done.
  - cbn. rewrite vsize_app, Hnext. done.
  - unfold taken_seq in *. cbn. rewrite Hnext. lia.
  - intros _. cbn. rewrite Hnext, raft_as_of_new. pose proof (vsize_nonneg l). split; [done|lia].
  - cbn. by rewrite Hnext, snap_as_of_new.
  - cbn. unfold raft_seq. cbn. rewrite raft_as_of_snoc; [done|].
    unfold raft_seq in Hr. lia.
  - cbn. unfold snap_seq. cbn. rewrite snap_as_of_snoc; [done|].
    unfold snap_seq in Hs. lia.
  - eapply thread_ok_snoc; [..|exact Hth]; cbn; done || lia.
Qed.

Lemma pinv_save_raft s l r :
  pinv r0 s0 (s, l) → pinv r0 s0 (fst (SaveRaftState r s), l ++ [(r, None)]).
Proof.
  intros H. unpack H. destruct (raft_seq_le s (proj2 Hord1)) as [Hr Hs]. rewrite Hnext in *.
  constructor; cbn [fst snd]; try done.
  - cbn. rewrite vsize_app, Hnext. done.
  - unfold taken_seq in *. cbn. rewrite Hnext. lia.
  - intros _. cbn. rewrite Hnext, raft_as_of_new. pose proof (vsize_nonneg l). split; [done|lia].
  - cbn. rewrite Hnext, snap_as_of_new, Hsq.
    case_match; [done|]. rewrite snap_as_of_snoc; [done|]. unfold taken_seq in *. cbn. lia.
  - cbn. unfold raft_seq. cbn. rewrite raft_as_of_snoc; [done|].
    unfold raft_seq in Hr. lia.
  - cbn. unfold snap_seq. cbn. rewrite snap_as_of_snoc; [done|].
    unfold snap_seq in Hs. lia.
  - eapply thread_ok_snoc; [..|exact Hth]; cbn; done || lia.
Qed.

Lemma pinv_stop s l : pinv r0 s0 (s, l) → pinv r0 s0 (Persister_stop s, l).
Proof. intros H. unpack H. constructor; done. Qed.

(** Taking the pending data out of the queue. *)
Lemma pinv_take env s l :
  io_thread s = WWait → pinv r0 s0 (s, l) → pinv r0 s0 (work_step env s, l).
Proof.
  intros Hw H. unfold work_step. rewrite Hw.
  destruct (m_stop s || m_hasPendingRaft s || m_hasPendingSnapshot s) eqn:E1; cbn [negb]; [|done].
  destruct (m_hasPendingRaft s) eqn:ER.
  2:{ destruct (m_hasPendingSnapshot s) eqn:ES.
      { pose proof (pinv_flags _ _ _ H) as Hf. cbn in Hf. rewrite ER in Hf. naive_solver. }
      destruct (m_stop s); [|done]. cbn. unpack H.
      unfold taken_seq, raft_seq, snap_seq in *; rewrite Hw in *.
      constructor; cbn; try done; unfold taken_seq, raft_seq, snap_seq; cbn;
        by rewrite ?ER, ?ES in *. }
  unpack H. rewrite ER in *. destruct (Hrq eq_refl) as [Hrq1 Hrq2].
  unfold taken_seq, raft_seq, snap_seq, thread_ok in *; rewrite Hw in *.
  rewrite andb_false_r, orb_true_r. cbn [andb negb].
  constructor; cbn [fst snd]; try done; unfold taken_seq, raft_seq, snap_seq, thread_ok;
    cbn; rewrite ?Hpend; try done; try lia.
  split; [done|]. split; [done|]. split; [eauto|]. rewrite Hsq.
  by case_match.
Qed.

(** Writing the snapshot file, then the raft state file. *)
Lemma pinv_write_snap env s l os or q :
  io_good env → io_thread s = WWriteSnap os or q →
  pinv r0 s0 (s, l) → pinv r0 s0 (work_step env s, l).
Proof.
  intros Hg Hw H. unfold work_step. rewrite Hw. unpack H.
  unfold taken_seq, raft_seq, snap_seq, thread_ok in *; rewrite Hw in *.
  destruct Hth as (Hq & Hor & Hio & Hos). destruct Hpaths as (? & ? & ?).
  constructor; cbn [fst snd]; try done; unfold taken_seq, raft_seq, snap_seq, thread_ok;
    cbn; try done.
  - by apply write_disk_frame.
  - rewrite Hos. by apply write_disk_holds.
Qed.

Lemma pinv_write_state env s l or q :
  io_good env → io_thread s = WWriteState or q →
  pinv r0 s0 (s, l) → pinv r0 s0 (work_step env s, l).
Proof.
  intros Hg Hw H. unfold work_step. rewrite Hw. unpack H.
  unfold taken_seq, raft_seq, snap_seq, thread_ok in *; rewrite Hw in *.
  destruct Hth as (Hq & Hor & Hio). destruct Hpaths as (? & ? & ?).
  constructor; cbn [fst snd]; try done; unfold taken_seq, raft_seq, snap_seq, thread_ok;
    cbn; try done.
  - rewrite <- Hor. destruct Hio as [d ->].
    exact (write_disk_holds env _ (Some d) _ _ Hg Hrf).
  - apply write_disk_frame; congruence || done.
Qed.

Lemma pinv_flush env s l q :
  io_thread s = WFlush q → pinv r0 s0 (s, l) → pinv r0 s0 (work_step env s, l).
Proof.
  intros Hw H. unfold work_step. rewrite Hw. unpack H.
  unfold taken_seq, raft_seq, snap_seq, thread_ok in *; rewrite Hw in *.
  destruct (Z.ltb_spec (m_flushedSeq s) q).
  - replace (0 <? q) with true by (symmetry; apply Z.ltb_lt; lia). cbn [andb].
    constructor; cbn [fst snd]; try done; unfold taken_seq, raft_seq, snap_seq, thread_ok;
      cbn; try done; lia.
  - rewrite andb_false_r. assert (q = m_flushedSeq s) as -> by lia.
    constructor; cbn [fst snd]; done.
Qed.

Lemma pinv_work env s l : io_good env → pinv r0 s0 (s, l) → pinv r0 s0 (work_step env s, l).
Proof.
  intros Hg H. destruct (io_thread s) as [|os or q|or q|q|] eqn:Hw;
    eauto using pinv_take, pinv_write_snap, pinv_write_state, pinv_flush.
  unfold work_step. by rewrite Hw.
Qed.

Lemma pinv_step w w' : pinv r0 s0 w → pstep io_good w w' → pinv r0 s0 w'.
Proof.
  intros H Hs. destruct Hs; eauto using pinv_save, pinv_save_raft, pinv_work, pinv_stop.
Qed.
End preservation.

(** ** What the store promises *)

Lemma pinv_init me env fs r0 s0 :
  let s := Persister_init me env fs in
  holds fs (m_raftPath s) r0 → holds fs (m_snapshotPath s) s0 → pinv r0 s0 (s, []).
Proof.
  intros s Hr Hs. by constructor.
Qed.

Lemma pinv_reachable r0 s0 w w' :
  pinv r0 s0 w → steps (pstep io_good) w w' → pinv r0 s0 w'.
Proof. intros H Hs. eapply steps_invariant; [exact H|apply pinv_step|exact Hs]. Qed.


Definition good_env : io_env := mkIoEnv true (λ _, 3) true.
Definition demo_store : pworld :=
  (Nat.iter 4 (work_step good_env)
     (fst (SaveRaftState "state" (Persister_init 0 good_env ∅))), [("state"%string, None)]).

Lemma good_env_good : io_good good_env.
Proof. by repeat split. Defined.

Lemma work_iter_steps n env s l :
  io_good env → steps (pstep io_good) (s, l) (Nat.iter n (work_step env) s, l).
Proof.
  intros Hg. induction n as [|n IH]; [apply steps_refl|].
  eapply steps_snoc; [exact IH|]. by apply p_work.
Defined.

Lemma demo_store_reachable :
  steps (pstep io_good) (Persister_init 0 good_env ∅, []) demo_store.
Proof.
  eapply steps_trans; [apply steps_one, (p_save_raft _ _ [] "state")|].
  apply (work_iter_steps 4 good_env), good_env_good.
Defined.


(** The steps of the background thread alone. *)
Definition thread_step (s s' : PersisterState) : Prop :=
  ∃ env, io_good env ∧ s' = work_step env s.

Lemma work_step_frame env s :
  m_nextSeq (work_step env s) = m_nextSeq s ∧
  m_raftPath (work_step env s) = m_raftPath s ∧
  m_snapshotPath (work_step env s) = m_snapshotPath s ∧
  m_raftState (work_step env s) = m_raftState s ∧
  m_snapshot (work_step env s) = m_snapshot s.
Proof. unfold work_step. repeat (case_match; try done). Qed.

Lemma thread_steps_frame s s' :
  steps thread_step s s' →
  m_nextSeq s' = m_nextSeq s ∧ m_raftPath s' = m_raftPath s ∧
  m_snapshotPath s' = m_snapshotPath s ∧ m_raftState s' = m_raftState s ∧
  m_snapshot s' = m_snapshot s.
Proof.
  induction 1 as [|s1 s2 _ (? & ? & ? & ? & ?) [env [_ ->]]]; [done|].
  destruct (work_step_frame env s1) as (? & ? & ? & ? & ?). repeat split; congruence.
Qed.

Lemma thread_steps_pinv r0 s0 l s s' :
  pinv r0 s0 (s, l) → steps thread_step s s' → pinv r0 s0 (s', l).
Proof.
  intros H Hs. induction Hs as [|s1 s2 _ IH [env [Hg ->]]]; [done|]. by apply pinv_work.
Qed.

(** The abstract store that the Raft code is written against: two durable strings,
    replaced at once. *)
Record store := mkStore { st_raftState : string; st_snapshot : string }.
#[export] Instance store_expand : Expand store := λ s,
  mkStore (st_raftState s) (st_snapshot s).
Definition store_save_raft (data : string) (st : store) : store :=
  st <| st_raftState := data |>.
Definition store_save (raftstate snapshot : string) (st : store) : store :=
  st <| st_raftState := raftstate |> <| st_snapshot := snapshot |>.

(** A quiescent [Persister], whose last caller has waited, represents a store. *)
Definition repr (s : PersisterState) (st : store) : Prop :=
  m_flushedSeq s = m_nextSeq s ∧
  m_raftState s = st_raftState st ∧ m_snapshot s = st_snapshot st ∧
  durable (disk s) (m_raftPath s) (st_raftState st) ∧
  durable (disk s) (m_snapshotPath s) (st_snapshot st).

Lemma quiescent_files r0 s0 s l :
  pinv r0 s0 (s, l) → m_nextSeq s ≤ m_flushedSeq s →
  m_flushedSeq s = m_nextSeq s ∧
  holds (disk s) (m_raftPath s) (raft_as_of r0 l (m_nextSeq s)) ∧
  holds (disk s) (m_snapshotPath s) (snap_as_of s0 l (m_nextSeq s)).
Proof.
  intros H Hq. destruct H as [_ _ _ [Ho1 Ho2] _ _ _ _ Hrf Hsf _]; cbn [fst snd] in *.
  destruct (raft_seq_le s) as [? ?]; [lia|].
  assert (raft_seq s = m_nextSeq s) as Hr by lia.
  assert (snap_seq s = m_nextSeq s) as Hs by lia.
  rewrite Hr in Hrf. rewrite Hs in Hsf. split; [lia|done].
Qed.

Lemma durable_fun fs p a b : durable fs p a → durable fs p b → a = b.
Proof. unfold durable. congruence. Qed.

(** The two requests of the Raft code, on the class and on the abstract store. *)
Definition request (data : string) (snapshot : option string) (s : PersisterState)
    : PersisterState * Z :=
  match snapshot with Some sn => Save data sn s | None => SaveRaftState data s end.
Definition store_request (data : string) (snapshot : option string) (st : store) : store :=
  match snapshot with
  | Some sn => store_save data sn st
  | None => store_save_raft data st
  end.

Lemma request_refines r0 s0 l s s' st data snapshot :
  pinv r0 s0 (s, l) → repr s st →
  steps thread_step (fst (request data snapshot s)) s' →
  WaitFlushed (snd (request data snapshot s)) s' = true →
  repr s' (store_request data snapshot st).
Proof.
  destruct snapshot as [sn|].
  - unfold request, Save. cbn. intros Hinv (Hq & Hmr & Hms & Hdr & Hds) Hsteps Hw.
    apply Z.leb_le in Hw. pose proof (pinv_save r0 s0 s l data sn Hinv) as Hinv1.
    pose proof (thread_steps_pinv r0 s0 _ _ _ Hinv1 Hsteps) as Hinv'.
    destruct (thread_steps_frame _ _ Hsteps) as (Hn & Hp1 & Hp2 & Hm1 & Hm2); cbn in *.
    destruct (quiescent_files _ _ _ _ Hinv') as (Hq' & Hrf & Hsf); [lia|].
    pose proof (pinv_next _ _ _ Hinv) as Hnx. cbn in Hnx. rewrite Hn, Hnx in Hrf, Hsf.
    rewrite raft_as_of_new in Hrf. rewrite snap_as_of_new in Hsf. by repeat split.
  - unfold request, SaveRaftState. cbn. intros Hinv (Hq & Hmr & Hms & Hdr & Hds) Hsteps Hw.
    apply Z.leb_le in Hw. pose proof (pinv_save_raft r0 s0 s l data Hinv) as Hinv1.
    pose proof (thread_steps_pinv r0 s0 _ _ _ Hinv1 Hsteps) as Hinv'.
    destruct (thread_steps_frame _ _ Hsteps) as (Hn & Hp1 & Hp2 & Hm1 & Hm2); cbn in *.
    destruct (quiescent_files _ _ _ _ Hinv') as (Hq' & Hrf & Hsf); [lia|].
    destruct (quiescent_files _ _ _ _ Hinv) as (_ & _ & Hsf0); [lia|].
    pose proof (pinv_next _ _ _ Hinv) as Hnx. cbn in Hnx. rewrite Hn, Hnx in Hrf, Hsf.
    rewrite raft_as_of_new in Hrf. rewrite snap_as_of_new in Hsf.
    rewrite Hnx in Hsf0.
    assert (snap_as_of s0 l (vsize l) = Some (st_snapshot st)) as Hsn.
    { destruct (snap_as_of s0 l (vsize l)) as [d|]; cbn in Hsf0.
      - f_equal. by apply (durable_fun _ _ _ _ Hsf0).
      - unfold durable in Hds. congruence. }
    rewrite Hsn in Hsf. repeat split; try done; cbn; congruence.
Qed.


Lemma thread_iter n env s : io_good env → steps thread_step s (Nat.iter n (work_step env) s).
Proof.
  intros Hg. induction n as [|n IH]; [apply steps_refl|].
  eapply steps_snoc; [exact IH|]. by exists env.
Defined.

Definition demo_saved : PersisterState :=
  Nat.iter 4 (work_step good_env)
    (fst (Save "s0" "snap0" (Persister_init 0 good_env ∅))).



(** ** Progress of the background thread *)

Definition work_run (envs : list io_env) (s : PersisterState) : PersisterState :=
  foldl (λ s e, work_step e s) s envs.

(** The part of the invariant that does not depend on the file writes. *)
Record queue_ok (s : PersisterState) : Prop := {
  q_pending : m_pendingSeq s = m_nextSeq s;
  q_order : 0 ≤ m_flushedSeq s ≤ taken_seq s ∧ taken_seq s ≤ m_nextSeq s;
  q_flags : m_hasPendingSnapshot s = true → m_hasPendingRaft s = true;
  q_idle : m_hasPendingRaft s = false → taken_seq s = m_nextSeq s;
  q_pos : m_hasPendingRaft s = true → 0 < m_nextSeq s;
  q_taken : io_thread s ≠ WWait → io_thread s ≠ WReturned → 0 < taken_seq s
}.

Lemma queue_ok_work env s : queue_ok s → queue_ok (work_step env s).
Proof.
  intros [Hp [Ho1 Ho2] Hf Hi Hpos Ht].
  unfold work_step, taken_seq in *. destruct (io_thread s) as [|os or q|or q|q|] eqn:Hw.
  - assert (m_hasPendingRaft s = true → 0 < m_nextSeq s) as Hpos' by done.
    destruct (m_hasPendingRaft s) eqn:ER.
    + specialize (Hpos' eq_refl). rewrite orb_true_r, andb_false_r, orb_true_r. cbn.
      constructor; unfold taken_seq; cbn; intros; try done; lia.
    + destruct (m_hasPendingSnapshot s) eqn:ES; [by specialize (Hf eq_refl)|].
      destruct (m_stop s); cbn; constructor; unfold taken_seq; cbn; rewrite ?Hw;
        congruence || auto.
  - constructor; unfold taken_seq; cbn; auto.
  - constructor; unfold taken_seq; cbn; auto.
  - assert (0 < q) as Hq by by apply Ht.
    destruct (Z.ltb_spec 0 q), (Z.ltb_spec (m_flushedSeq s) q); cbn [andb]; try lia;
      constructor; unfold taken_seq; cbn; try done; try lia.
    intros HR. rewrite <- (Hi HR). lia.
  - constructor; unfold taken_seq; rewrite ?Hw; auto.
Qed.

Lemma queue_ok_step env_ok w w' :
  queue_ok (fst w) → pstep env_ok w w' → queue_ok (fst w').
Proof.
  intros H Hs. revert H.
  destruct Hs as [s l r sn|s l r|s l env _|s l]; cbn [fst snd]; intros H;
    [| |by apply queue_ok_work|].
  all: destruct H as [Hp [Ho1 Ho2] Hf Hi Hpos Ht]; unfold taken_seq in *.
  all: constructor; unfold taken_seq; cbn; try done; auto.
  all: destruct (io_thread s); try done; lia.
Qed.

(** From the wait, one round of four steps flushes everything. *)
Lemma wait_round s e1 e2 e3 e4 :
  queue_ok s → io_thread s = WWait → m_hasPendingRaft s = true →
  WaitFlushed (m_nextSeq s) (work_run [e1; e2; e3; e4] s) = true.
Proof.
  intros [Hp [Ho1 Ho2] Hf Hi Hpos Ht] Hw HR. specialize (Hpos HR).
  unfold work_run; cbn [foldl]. unfold work_step at 4. rewrite Hw, HR.
  rewrite orb_true_r, andb_false_r. cbn. rewrite orb_true_r. rewrite Hp.
  apply Z.leb_le. replace (0 <? m_nextSeq s) with true by (symmetry; apply Z.ltb_lt; lia).
  destruct (Z.ltb_spec (m_flushedSeq s) (m_nextSeq s)); cbn; lia.
Qed.

(** The rest of a round brings the thread back to its wait. *)
Lemma finish_round s :
  queue_ok s → io_thread s ≠ WReturned → ∃ k, (k ≤ 3)%nat ∧ ∀ envs, length envs = k →
    io_thread (work_run envs s) = WWait ∧ m_nextSeq (work_run envs s) = m_nextSeq s.
Proof.
  intros _ Hr. unfold work_run. destruct (io_thread s) as [|os or q|or q|q|] eqn:Hw; [..|done].
  - exists 0%nat. split; [lia|]. by intros [|??].
  - exists 3%nat. split; [lia|]. intros [|e1 [|e2 [|e3 [|??]]]]; try done. intros _.
    cbn [foldl]. unfold work_step at 2 3 6; rewrite Hw. cbn. by destruct (_ && _).
  - exists 2%nat. split; [lia|]. intros [|e1 [|e2 [|??]]]; try done. intros _.
    cbn [foldl]. unfold work_step at 2 4; rewrite Hw. cbn. by destruct (_ && _).
  - exists 1%nat. split; [lia|]. intros [|e1 [|??]]; try done. intros _.
    cbn [foldl]. unfold work_step; rewrite Hw. by destruct (_ && _).
Qed.

Lemma queue_ok_run envs s : queue_ok s → queue_ok (work_run envs s).
Proof.
  unfold work_run. revert s. induction envs as [|e envs IH]; intros s H; [done|].
  cbn. by apply IH, queue_ok_work.
Qed.

Lemma work_run_app a b s : work_run (a ++ b) s = work_run b (work_run a s).
Proof. apply foldl_app. Qed.

(** C35: [WaitFlushed] always returns.  In any state of any execution, file writes
    failing or not, in which the background thread has not exited, at most seven of
    its steps bring the flushed number up to every number handed out so far. *)
Theorem wait_flushed_terminates (me : Z) (env : io_env) (fs : filesystem)
    (w : pworld) (envs : list io_env) :
  steps (pstep (λ _, True)) (Persister_init me env fs, []) w →
  io_thread (fst w) ≠ WReturned → length envs = 7%nat →
  ∃ n, WaitFlushed (m_nextSeq (fst w)) (work_run (take n envs) (fst w)) = true.
Proof.
  intros Hsteps Hr Hlen.
  assert (queue_ok (fst w)) as Hq.
  { eapply (steps_invariant _ (λ w, queue_ok (fst w))); [|apply queue_ok_step|exact Hsteps].
    by constructor. }
  destruct (finish_round _ Hq Hr) as (k & Hk & Hfin).
  destruct (Hfin (take k envs)) as [Hw Hn]; [rewrite length_take; lia|].
  set (s1 := work_run (take k envs) (fst w)) in *.
  assert (queue_ok s1) as Hq1 by by apply queue_ok_run.
  destruct (m_hasPendingRaft s1) eqn:HR.
  - exists (k + 4)%nat. rewrite <- Hn.
    assert (∃ e1 e2 e3 e4, take (k + 4) envs = take k envs ++ [e1; e2; e3; e4])
      as (e1 & e2 & e3 & e4 & ->).
    { do 8 (destruct envs as [|? envs]; try done).
      destruct k as [|[|[|[|k]]]]; [..|lia]; by eexists _, _, _, _. }
    rewrite work_run_app. by apply wait_round.
  - exists k. fold s1. apply Z.leb_le. rewrite <- Hn, <- (q_idle s1 Hq1 HR).
    unfold taken_seq. rewrite Hw. lia.
Qed.

Lemma wait_flushed_terminates_witness :
  let w := (fst (SaveRaftState "a" (Persister_init 0 good_env ∅)), [("a"%string, @None string)]) in
  ∃ n, WaitFlushed 1 (work_run (take n (replicate 7 good_env)) (fst w)) = true.
Proof.
  intros w.
  apply (wait_flushed_terminates 0 good_env ∅ w (replicate 7 good_env));
    [|discriminate|reflexivity].
  apply steps_one, (p_save_raft _ _ [] "a").
Defined.

(** An orderly shutdown loses nothing: when the thread leaves its loop every
    number handed out has been flushed. *)
Theorem shutdown_flushes_all (me : Z) (env : io_env) (fs : filesystem)
    (w : pworld) (e : io_env) :
  steps (pstep (λ _, True)) (Persister_init me env fs, []) w →
  io_thread (fst w) ≠ WReturned → io_thread (work_step e (fst w)) = WReturned →
  m_stop (fst w) = true ∧ WaitFlushed (m_nextSeq (fst w)) (fst w) = true.
Proof.
  intros Hsteps Hr Hr'.
  assert (queue_ok (fst w)) as Hq.
  { eapply (steps_invariant _ (λ w, queue_ok (fst w))); [|apply queue_ok_step|exact Hsteps].
    by constructor. }
  unfold work_step in Hr'. destruct (io_thread (fst w)) eqn:Hw; try done.
  destruct (m_stop (fst w)) eqn:ES, (m_hasPendingRaft (fst w)) eqn:ER,
    (m_hasPendingSnapshot (fst w)) eqn:EP; cbn in Hr'; try congruence.
  split; [done|]. apply Z.leb_le. rewrite <- (q_idle _ Hq ER). unfold taken_seq.
  rewrite Hw. lia.
Qed.

Lemma shutdown_flushes_all_witness :
  let w := (Persister_stop (Persister_init 0 good_env ∅), @nil (string * option string)) in
  m_stop (fst w) = true ∧ WaitFlushed 0 (fst w) = true.
Proof.
  intros w. apply (shutdown_flushes_all 0 good_env ∅ w good_env);
    [|discriminate|reflexivity].
  apply steps_one, p_stop.
Defined.

(** A failed write is not noticed: [WaitFlushed] returns although nothing reached the
    disk, because [WorkLoop] ignores the result of [WriteFileAtomic]. *)
Example flushed_without_write :
  let bad := mkIoEnv false (λ _, 0) false in
  let s := Nat.iter 4 (work_step bad)
             (fst (SaveRaftState "vote" (Persister_init 0 bad ∅))) in
  WaitFlushed 1 s = true ∧ disk s = ∅.
Proof. vm_compute. done. Qed.
