(* ===== verification/RaftTypes.v ===== *)
(** The data of a Raft node: the messages of [src/Proto/raftRPC.proto], the members
    of class [Raft] and [ApplyMsg], and the record written to disk.  A C++ [int] is a
    [Z]; [RaftBounds] states when it stays within 32 bits. *)
From S2P Require Import Prelude Persister.
Open Scope Z_scope.

(** ** Constants of [raft.h] *)
Definition Disconnected : Z := 0.
Definition AppNormal : Z := 1.
Definition Killed : Z := 0.
Definition Vted : Z := 1.
Definition Expire : Z := 2.
Definition Normal : Z := 3.

Definition PIPELINE_BATCH_SIZE : Z := 8.
Definition PIPELINE_MAX_INFLIGHT : Z := 16.
Definition PIPELINE_MAX_DELAY_MS : Z := 5.

(** ** Messages *)

Record LogEntry := mkLogEntry { command : string; logterm : Z; logindex : Z }.
#[export] Instance LogEntry_eq_dec : EqDecision LogEntry.
Proof. solve_decision. Defined.

Record AppendEntriesArgs := mkAppendEntriesArgs {
  ae_term : Z; ae_leaderid : Z; ae_prevlogindex : Z; ae_prevlogterm : Z;
  ae_entries : list LogEntry; ae_leadercommit : Z; ae_batchid : Z
}.
Record AppendEntriesReply := mkAppendEntriesReply {
  aer_term : Z; aer_success : bool; aer_updatenextindex : Z; aer_appstate : Z;
  aer_batchid : Z; aer_matchindex : Z
}.
Record RequestVoteArgs := mkRequestVoteArgs {
  rv_term : Z; rv_candidateid : Z; rv_lastlogindex : Z; rv_lastlogterm : Z
}.
Record RequestVoteReply := mkRequestVoteReply {
  rvr_term : Z; rvr_votegranted : bool; rvr_votestate : Z
}.
Record PreRequestVoteArgs := mkPreRequestVoteArgs {
  prv_term : Z; prv_candidateid : Z; prv_lastlogindex : Z; prv_lastlogterm : Z
}.
Record PreRequestVoteReply := mkPreRequestVoteReply {
  prvr_term : Z; prvr_votegranted : bool
}.
Record InstallSnapshotRequest := mkInstallSnapshotRequest {
  is_leaderid : Z; is_term : Z; is_lastsnapshotincludeindex : Z;
  is_lastsnapshotincludeterm : Z; is_snapshotdata : string
}.
Record InstallSnapshotResponse := mkInstallSnapshotResponse { isr_term : Z }.
Record ReadIndexRequest := mkReadIndexRequest { ri_serverid : Z }.
Record ReadIndexResponse := mkReadIndexResponse {
  rir_term : Z; rir_commitindex : Z; rir_isleader : bool
}.
#[export] Instance AppendEntriesArgs_eq_dec : EqDecision AppendEntriesArgs.
Proof. solve_decision. Defined.
#[export] Instance AppendEntriesReply_eq_dec : EqDecision AppendEntriesReply.
Proof. solve_decision. Defined.
#[export] Instance RequestVoteArgs_eq_dec : EqDecision RequestVoteArgs.
Proof. solve_decision. Defined.
#[export] Instance RequestVoteReply_eq_dec : EqDecision RequestVoteReply.
Proof. solve_decision. Defined.

#[export] Instance AppendEntriesReply_expand : Expand AppendEntriesReply := λ r,
  mkAppendEntriesReply (aer_term r) (aer_success r) (aer_updatenextindex r)
    (aer_appstate r) (aer_batchid r) (aer_matchindex r).
(** A reply object as the RPC framework hands it over: every field at its default. *)
Definition fresh_AppendEntriesReply : AppendEntriesReply :=
  mkAppendEntriesReply 0 false 0 0 0 0.

Record ApplyMsg := mkApplyMsg {
  CommandValid : bool; am_index : Z; am_command : string;
  SnapshotValid : bool; lastIncludedIndex : Z; lastIncludedTerm : Z; am_snapshot : string
}.

(** ** Leader-side buffers *)

Record PendingEntries := mkPendingEntries {
  entries : list LogEntry; batch_id : Z; first_entry_time_ms : Z
}.
#[export] Instance PendingEntries_expand : Expand PendingEntries := λ p,
  mkPendingEntries (entries p) (batch_id p) (first_entry_time_ms p).

Record PipelineBatch := mkPipelineBatch {
  pb_batch_id : Z; pb_first_index : Z; pb_last_index : Z; pb_send_time_ms : Z;
  pb_entry_count : Z; pb_matched : bool
}.
Record PeerPipelineState := mkPeerPipelineState {
  pending_batches : list PipelineBatch;
  in_flight : gmap Z PipelineBatch;
  next_batch_id : Z
}.
#[export] Instance PeerPipelineState_expand : Expand PeerPipelineState := λ p,
  mkPeerPipelineState (pending_batches p) (in_flight p) (next_batch_id p).

(** ** The node *)

Inductive Status := Follower | Candidate | Leader.
#[export] Instance Status_eq_dec : EqDecision Status.
Proof. solve_decision. Defined.

(** [m_peers] is represented by its size; the RPC objects in it are the network.
    [m_persister] is the abstract store that [Persister.persister_refines_store]
    implements.  [applyChan] is the queue towards [KvServer], oldest first.
    [m_batchSenderThread] tells whether the thread of [batchSenderLoop] is running. *)
Record node := mkNode {
  m_peers_size : nat;
  m_me : Z;
  m_persister : store;
  m_currentTerm : Z;
  m_votedFor : Z;
  m_logs : list LogEntry;
  m_commitIndex : Z;
  m_lastApplied : Z;
  m_nextIndex : list Z;
  m_matchIndex : list Z;
  m_status : Status;
  applyChan : list ApplyMsg;
  m_lastResetElectionTime : Z;
  m_lastResetHearBeatTime : Z;
  m_lastSnapshotIncludeIndex : Z;
  m_lastSnapshotIncludeTerm : Z;
  m_inflightCount : list Z;
  m_inSnapshot : list bool;
  m_pendingEntries : list PendingEntries;
  m_batchRunning : bool;
  m_batchSenderThread : bool;
  m_peerPipeline : list PeerPipelineState;
  m_total_batches_sent : Z;
  m_total_batches_acked : Z
}.
#[export] Instance node_expand : Expand node := λ n,
  mkNode (m_peers_size n) (m_me n) (m_persister n) (m_currentTerm n) (m_votedFor n)
    (m_logs n) (m_commitIndex n) (m_lastApplied n) (m_nextIndex n) (m_matchIndex n)
    (m_status n) (applyChan n) (m_lastResetElectionTime n) (m_lastResetHearBeatTime n)
    (m_lastSnapshotIncludeIndex n) (m_lastSnapshotIncludeTerm n) (m_inflightCount n)
    (m_inSnapshot n) (m_pendingEntries n) (m_batchRunning n) (m_batchSenderThread n)
    (m_peerPipeline n) (m_total_batches_sent n) (m_total_batches_acked n).

(** [static_cast<int>(m_peers.size()) / 2 + 1] *)
Definition majority (n : node) : Z := Z.of_nat (m_peers_size n) / 2 + 1.

(** ** The record on disk *)

Record BoostPersistLogEntry := mkBoostPersistLogEntry {
  bp_term : Z; bp_command : string
}.
Record BoostPersistRaftNode := mkBoostPersistRaftNode {
  bp_currentTerm : Z; bp_votedFor : Z;
  bp_lastSnapshotIncludeIndex : Z; bp_lastSnapshotIncludeTerm : Z;
  bp_logs : list BoostPersistLogEntry
}.

(** The text archives of Boost.Serialization.  [text_iarchive] is [None] where the
    library throws. *)
Class BoostArchive := {
  text_oarchive : BoostPersistRaftNode → string;
  text_iarchive : string → option BoostPersistRaftNode
}.
(** What the library documents: reading back what was written gives an equal object,
    and an archive is never empty (it starts with its signature). *)
Class BoostArchiveLaws (A : BoostArchive) := {
  iarchive_oarchive d : text_iarchive (text_oarchive d) = Some d;
  oarchive_nonempty d : text_oarchive d ≠ ""
}.

(** An archive for the concrete executions of the development: the fields in a
    countable encoding, written as a string of bits after a signature. *)
Definition bp_tuple (d : BoostPersistRaftNode) : Z * Z * Z * Z * list (Z * string) :=
  (bp_currentTerm d, bp_votedFor d, bp_lastSnapshotIncludeIndex d,
   bp_lastSnapshotIncludeTerm d, (λ e, (bp_term e, bp_command e)) <$> bp_logs d).
Definition bp_untuple (t : Z * Z * Z * Z * list (Z * string)) : BoostPersistRaftNode :=
  let '(a, b, c, d, l) := t in
  mkBoostPersistRaftNode a b c d ((λ e, mkBoostPersistLogEntry e.1 e.2) <$> l).
Fixpoint bits_of (p : positive) : string :=
  match p with
  | xH => ""
  | xO p => String "0" (bits_of p)
  | xI p => String "1" (bits_of p)
  end.
Fixpoint of_bits (s : string) : positive :=
  match s with
  | EmptyString => xH
  | String c s => if (c =? "0")%char then xO (of_bits s) else xI (of_bits s)
  end.
Lemma of_bits_of p : of_bits (bits_of p) = p.
Proof. induction p as [p IH|p IH|]; cbn; by rewrite ?IH. Qed.

Definition bit_archive : BoostArchive := {|
  text_oarchive d := String "a" (bits_of (encode (bp_tuple d)));
  text_iarchive s := match s with
                     | String _ s => bp_untuple <$> decode (of_bits s)
                     | EmptyString => None
                     end
|}.
#[export] Instance bit_archive_laws : BoostArchiveLaws bit_archive.
Proof.
  split; [|done]. intros d. cbn [text_oarchive text_iarchive bit_archive].
  rewrite of_bits_of, decode_encode. destruct d as [a b c e l]. cbn. do 2 f_equal.
  rewrite <- list_fmap_compose. rewrite (list_fmap_ext _ id); [by rewrite list_fmap_id|].
  by intros ? [].
Qed.
