(* ===== verification/RaftLog.v ===== *)
(** The log of a node, its indices and its persistence: the index functions of
    [src/Raft/Raft.cpp], [persistDate], [readPersist], [persist], [init], [Start] and
    the functions that only read the state. *)
From S2P Require Import Prelude OpCoder Persister RaftTypes.
Open Scope Z_scope.

(** ** Indices *)

Definition getSlicesIndexFromLogIndex (logIndex : Z) (n : node) : Z :=
  if logIndex <=? m_lastSnapshotIncludeIndex n then -1
  else logIndex - m_lastSnapshotIncludeIndex n - 1.

Definition getLogTermFromLogIndex (logIndex : Z) (n : node) : outcome Z :=
  if logIndex =? m_lastSnapshotIncludeIndex n then Ok (m_lastSnapshotIncludeTerm n)
  else if logIndex <? m_lastSnapshotIncludeIndex n then Ok (-1)
  else
    let sliceIdx := getSlicesIndexFromLogIndex logIndex n in
    if (sliceIdx <? 0) || (vsize (m_logs n) <=? sliceIdx) then Ok (-1)
    else e ← vec_at "m_logs" (m_logs n) sliceIdx; Ok (logterm e).

Definition GetState (n : node) : Z * bool :=
  (m_currentTerm n, bool_decide (m_status n = Leader)).

Definition getLastLogIndex (n : node) : Z :=
  m_lastSnapshotIncludeIndex n + vsize (m_logs n).

Definition getLastLogTerm (n : node) : Z :=
  match last (m_logs n) with
  | None => m_lastSnapshotIncludeTerm n
  | Some e => logterm e
  end.

Definition getLastLogIndexAndTerm (n : node) : Z * Z :=
  (getLastLogIndex n, getLastLogTerm n).

Definition UPtodata (index term : Z) (n : node) : bool :=
  let selfLastIndex := getLastLogIndex n in
  let selfLastTerm := getLastLogTerm n in
  if negb (term =? selfLastTerm) then selfLastTerm <? term
  else selfLastIndex <=? index.

Definition getPrevLogInfo (server : Z) (n : node) : outcome (Z * Z) :=
  nextIdx ← vec_at "m_nextIndex" (m_nextIndex n) server;
  let prevIdx := nextIdx - 1 in
  preterm ← getLogTermFromLogIndex prevIdx n;
  Ok (prevIdx, preterm).

Definition matchLog (logIndex logTerm : Z) (n : node) : outcome bool :=
  if logIndex =? m_lastSnapshotIncludeIndex n
  then Ok (logTerm =? m_lastSnapshotIncludeTerm n)
  else if (logIndex <? m_lastSnapshotIncludeIndex n) || (getLastLogIndex n <? logIndex)
  then Ok false
  else
    let sliceIdx := getSlicesIndexFromLogIndex logIndex n in
    if (sliceIdx <? 0) || (vsize (m_logs n) <=? sliceIdx) then Ok false
    else e ← vec_at "m_logs" (m_logs n) sliceIdx; Ok (logterm e =? logTerm).

(** ** Commit by majority *)

(** The peers other than [m_me] whose [m_matchIndex] is at least [N], counted after
    the leader itself. *)
Definition count_step (N : Z) (n : node) (i count : Z) : outcome Z :=
  if i =? m_me n then Ok count else
  m ← vec_at "m_matchIndex" (m_matchIndex n) i;
  Ok (if N <=? m then count + 1 else count).
Definition count_matching (N : Z) (n : node) : outcome Z :=
  for_each (count_step N n) (indices (m_peers_size n)) 1.

(** The loop from [N] down to [m_commitIndex + 1]; [fuel] is the number of values. *)
Fixpoint commit_loop (fuel : nat) (N : Z) (n : node) : outcome node :=
  match fuel with
  | O => Ok n
  | S fuel' =>
      if N <=? m_commitIndex n then Ok n else
      count ← count_matching N n;
      if majority n <=? count then
        t ← getLogTermFromLogIndex N n;
        Ok (if t =? m_currentTerm n then n <| m_commitIndex := N |> else n)
      else commit_loop fuel' (N - 1) n
  end.

Definition leaderUpdateCommitIndex (n : node) : outcome node :=
  let lastIndex := getLastLogIndex n in
  commit_loop (Z.to_nat (lastIndex - m_commitIndex n)) lastIndex n.

(** ** Persistence *)

Section persistence.
Context `{Ar : BoostArchive}.

Definition persistDate (n : node) : string :=
  text_oarchive (mkBoostPersistRaftNode (m_currentTerm n) (m_votedFor n)
    (m_lastSnapshotIncludeIndex n) (m_lastSnapshotIncludeTerm n)
    ((λ log, mkBoostPersistLogEntry (logterm log) (command log)) <$> m_logs n)).

(** [SaveRaftState] followed by [WaitFlushed]. *)
Definition persist (n : node) : node :=
  n <| m_persister := store_save_raft (persistDate n) (m_persister n) |>.

(** [Save] followed by [WaitFlushed], as [InstallSnapshot1] does. *)
Definition persist_with_snapshot (snapshot : string) (n : node) : node :=
  n <| m_persister := store_save (persistDate n) snapshot (m_persister n) |>.

Definition GetRaftStateSize (n : node) : Z :=
  Z.of_nat (String.length (st_raftState (m_persister n))).

(** The loop that rebuilds [m_logs], numbering the entries again. *)
Fixpoint rebuild_logs (index : Z) (plogs : list BoostPersistLogEntry) : list LogEntry :=
  match plogs with
  | [] => []
  | p :: plogs' =>
      mkLogEntry (bp_command p) (bp_term p) (index + 1) :: rebuild_logs (index + 1) plogs'
  end.

Definition readPersist (data : string) (n : node) : outcome node :=
  if bool_decide (data = "") then Ok n else
  match text_iarchive data with
  | None => Terminate "archive_exception"
  | Some d =>
      Ok (n <| m_currentTerm := bp_currentTerm d |>
            <| m_votedFor := bp_votedFor d |>
            <| m_lastSnapshotIncludeIndex := bp_lastSnapshotIncludeIndex d |>
            <| m_lastSnapshotIncludeTerm := bp_lastSnapshotIncludeTerm d |>
            <| m_logs := rebuild_logs (bp_lastSnapshotIncludeIndex d) (bp_logs d) |>)
  end.

(** [init] on an object of [m_peers_size = peers] members whose [m_persister] is
    [st]; the vectors start empty, [now] is the clock. *)
Definition init (peers : nat) (me : Z) (st : store) (now : Z) : outcome node :=
  let n := mkNode peers me st 0 (-1) [] 0 0 (replicate peers 0) (replicate peers 0)
    Follower [] now now 0 0 (replicate peers 0) (replicate peers false)
    (replicate peers (mkPendingEntries [] 0 0)) false false
    (replicate peers (mkPeerPipelineState [] ∅ 0)) 0 0 in
  n ← readPersist (st_raftState st) n;
  Ok (if 0 <? m_lastSnapshotIncludeIndex n
      then n <| m_lastApplied := m_lastSnapshotIncludeIndex n |> else n).

(** ** New commands *)

Definition addToPendingBatch (now : Z) (entry : LogEntry) (n : node) : node :=
  n <| m_pendingEntries := imap (λ i pending,
      if Z.of_nat i =? m_me n then pending else
      let pending := match entries pending with
                     | [] => pending <| first_entry_time_ms := now |>
                     | _ => pending
                     end in
      pending <| entries := entries pending ++ [entry] |>) (m_pendingEntries n) |>.

(** [Start]: the new state, [*newLogIndex] and [*isLeader]. *)
Definition Start (now : Z) (op : Op) (n : node) : node * Z * bool :=
  if negb (bool_decide (m_status n = Leader)) then (n, -1, false) else
  let index := getLastLogIndex n + 1 in
  let entry := mkLogEntry (encodeOp op) (m_currentTerm n) index in
  let n := n <| m_logs := m_logs n ++ [entry] |> in
  let n := persist n in
  (addToPendingBatch now entry n, index, true).
End persistence.

(** ** Applying committed entries *)

(** The loop of [applierTicker] under the lock; [fuel] bounds its iterations. *)
Fixpoint applier_loop (fuel : nat) (msgs : list ApplyMsg) (n : node)
    : outcome (list ApplyMsg * node) :=
  match fuel with
  | O => Ok (msgs, n)
  | S fuel' =>
      if m_lastApplied n <? m_commitIndex n then
        let n := n <| m_lastApplied := m_lastApplied n + 1 |> in
        let index := m_lastApplied n in
        let sliceIdx := getSlicesIndexFromLogIndex index n in
        entry ← vec_at "m_logs" (m_logs n) sliceIdx;
        applier_loop fuel'
          (msgs ++ [mkApplyMsg true index (command entry) false 0 0 ""]) n
      else Ok (msgs, n)
  end.

Definition pushMsgToKVserver (msg : ApplyMsg) (n : node) : node :=
  n <| applyChan := applyChan n ++ [msg] |>.

(** One round of [applierTicker]: collect under the lock, then push. *)
Definition applierTicker_round (n : node) : outcome node :=
  '(msgs, n) ← applier_loop (Z.to_nat (m_commitIndex n - m_lastApplied n)) [] n;
  Ok (foldl (λ n msg, pushMsgToKVserver msg n) n msgs).

(** ** Reads *)

Definition GetCommitIndex (n : node) : Z := m_commitIndex n.

Definition GetLeaderInfo (n : node) : Z * string * Z :=
  (if bool_decide (m_status n = Leader) then m_me n else -1, ""%string, 0).

(** One test of the loop of [WaitApplyDone]. *)
Definition WaitApplyDone_test (n : node) : bool := getLastLogIndex n <=? m_lastApplied n.

Definition ReadIndex1 (request : ReadIndexRequest) (n : node) : ReadIndexResponse :=
  mkReadIndexResponse (m_currentTerm n) (m_commitIndex n)
    (bool_decide (m_status n = Leader)).

(** The polling loop of [WaitApplyDone]: each round observes the node and whether the
    deadline has passed; [None] when the observations end before the loop does. *)
Fixpoint WaitApplyDone (rounds : list (node * bool)) : option bool :=
  match rounds with
  | [] => None
  | (n, expired) :: rounds' =>
      if WaitApplyDone_test n then Some true
      else if expired then Some false else WaitApplyDone rounds'
  end.

(** ** Well-formed logs *)

(** Entry [k] of [m_logs] carries the index that its position stands for. *)
Definition log_ok (n : node) : Prop :=
  ∀ k e, m_logs n !! k = Some e →
    logindex e = m_lastSnapshotIncludeIndex n + 1 + Z.of_nat k.

(** The entry at a log index, if it is in memory. *)
Definition log_entry (n : node) (i : Z) : option LogEntry :=
  if decide (m_lastSnapshotIncludeIndex n < i)
  then m_logs n !! Z.to_nat (i - m_lastSnapshotIncludeIndex n - 1) else None.

Lemma log_entry_Some n i e :
  log_entry n i = Some e → m_lastSnapshotIncludeIndex n < i ≤ getLastLogIndex n.
Proof.
  unfold log_entry, getLastLogIndex, vsize. case_decide; [|done].
  intros Hl%lookup_lt_Some. lia.
Qed.

Lemma log_entry_in n i :
  m_lastSnapshotIncludeIndex n < i ≤ getLastLogIndex n → is_Some (log_entry n i).
Proof.
  unfold log_entry, getLastLogIndex, vsize. intros Hi. rewrite decide_True by lia.
  apply lookup_lt_is_Some. lia.
Qed.

Lemma log_ok_entry n i e : log_ok n → log_entry n i = Some e → logindex e = i.
Proof.
  unfold log_entry. intros Hok. case_decide; [|done]. intros He.
  rewrite (Hok _ _ He). lia.
Qed.

(** Reads of the log are inside the vector. *)
Lemma vec_at_log n i e :
  log_entry n i = Some e →
  vec_at "m_logs" (m_logs n) (getSlicesIndexFromLogIndex i n) = Ok e.
Proof.
  intros He. destruct (log_entry_Some _ _ _ He). unfold log_entry in He.
  rewrite decide_True in He by done. unfold getSlicesIndexFromLogIndex.
  replace (i <=? _) with false by (symmetry; apply Z.leb_gt; lia).
  apply vec_at_Ok. split; [lia|]. rewrite <- He. f_equal.
Qed.

Lemma getLogTerm_spec n i :
  getLogTermFromLogIndex i n = Ok (
    if i =? m_lastSnapshotIncludeIndex n then m_lastSnapshotIncludeTerm n
    else match log_entry n i with Some e => logterm e | None => -1 end).
Proof.
  unfold getLogTermFromLogIndex.
  destruct (Z.eqb_spec i (m_lastSnapshotIncludeIndex n)) as [|Hne]; [done|].
  destruct (Z.ltb_spec i (m_lastSnapshotIncludeIndex n)).
  { unfold log_entry. by rewrite decide_False by lia. }
  destruct (log_entry n i) as [e|] eqn:He.
  - rewrite (vec_at_log _ _ _ He). destruct (log_entry_Some _ _ _ He).
    unfold getSlicesIndexFromLogIndex, getLastLogIndex in *. zbool. done.
  - unfold log_entry in He. rewrite decide_True in He by lia.
    apply lookup_ge_None in He. unfold getSlicesIndexFromLogIndex, vsize. zbool. done.
Qed.

Lemma matchLog_spec n i t :
  matchLog i t n = Ok (
    if i =? m_lastSnapshotIncludeIndex n then t =? m_lastSnapshotIncludeTerm n
    else match log_entry n i with Some e => logterm e =? t | None => false end).
Proof.
  unfold matchLog. destruct (Z.eqb_spec i (m_lastSnapshotIncludeIndex n)) as [|Hne]; [done|].
  destruct (log_entry n i) as [e|] eqn:He.
  - rewrite (vec_at_log _ _ _ He). destruct (log_entry_Some _ _ _ He).
    unfold getSlicesIndexFromLogIndex, getLastLogIndex in *. zbool. done.
  - destruct ((i <? _) || _) eqn:E; [done|]. b2p.
    destruct (log_entry_in n i); [lia|congruence].
Qed.

Lemma getLogTerm_total n i : ∃ t, getLogTermFromLogIndex i n = Ok t.
Proof. rewrite getLogTerm_spec. eauto. Qed.
Lemma matchLog_total n i t : ∃ b, matchLog i t n = Ok b.
Proof. rewrite matchLog_spec. eauto. Qed.

(** The log-matching test of a follower never reads outside its log, and answers
    whether the entry at that index has that term, counting the snapshot point as an
    entry. *)
Theorem matchLog_correct (n : node) (i t : Z) :
  ∃ b, matchLog i t n = Ok b ∧
    (b = true ↔ (i = m_lastSnapshotIncludeIndex n ∧ t = m_lastSnapshotIncludeTerm n) ∨
                (∃ e, log_entry n i = Some e ∧ logterm e = t)).
Proof.
  rewrite matchLog_spec. eexists. split; [done|].
  destruct (Z.eqb_spec i (m_lastSnapshotIncludeIndex n)) as [->|Hne].
  - rewrite Z.eqb_eq. split; [naive_solver|]. intros [[_ ?]|(e & He & _)]; [done|].
    apply log_entry_Some in He. lia.
  - destruct (log_entry n i) as [e|]; [rewrite Z.eqb_eq|]; naive_solver.
Qed.

(** The vote rule compares logs lexicographically, by last term and then by last
    index, which is a total preorder. *)
Lemma UPtodata_lexicographic (n : node) (index term : Z) :
  UPtodata index term n = true ↔
  getLastLogTerm n < term ∨ (getLastLogTerm n = term ∧ getLastLogIndex n ≤ index).
Proof.
  unfold UPtodata. destruct (Z.eqb_spec term (getLastLogTerm n)); cbn [negb];
    rewrite ?Z.leb_le, ?Z.ltb_lt; lia.
Qed.

(** ** The record on disk *)

(** What the disk holds is what the node would write now. *)
Definition durable_ok `{Ar : BoostArchive} (n : node) : Prop :=
  st_raftState (m_persister n) = persistDate n.

Lemma durable_persist `{Ar : BoostArchive} n : durable_ok (persist n).
Proof. done. Qed.
Lemma durable_persist_snapshot `{Ar : BoostArchive} sn n :
  durable_ok (persist_with_snapshot sn n).
Proof. done. Qed.
#[export] Hint Resolve durable_persist durable_persist_snapshot : kvdb.

(** [rebuild_logs] numbers its entries consecutively and keeps terms and commands. *)
Lemma rebuild_logs_spec i l k :
  rebuild_logs i l !! k =
  (λ p, mkLogEntry (bp_command p) (bp_term p) (i + 1 + Z.of_nat k)) <$> l !! k.
Proof.
  revert i k. induction l as [|p l IH]; intros i [|k]; cbn; try done.
  - do 2 f_equal. lia.
  - rewrite IH. destruct (l !! k); [|done]. cbn. do 2 f_equal. lia.
Qed.

Lemma rebuild_logs_id n :
  log_ok n →
  rebuild_logs (m_lastSnapshotIncludeIndex n)
    ((λ log, mkBoostPersistLogEntry (logterm log) (command log)) <$> m_logs n) = m_logs n.
Proof.
  intros Hok. apply list_eq. intros k. rewrite rebuild_logs_spec, list_lookup_fmap.
  destruct (m_logs n !! k) as [e|] eqn:He; cbn; [|done]. f_equal.
  rewrite <- (Hok k e He). by destruct e.
Qed.

(** C31: a node that restarts from what it last persisted has the same term, vote,
    snapshot point and log, index by index; it starts as a follower that has applied
    nothing beyond its snapshot point. *)
Theorem restart_recovers `{!BoostArchiveLaws Ar} (n : node) (now : Z) :
  durable_ok n → log_ok n → 0 ≤ m_lastSnapshotIncludeIndex n →
  ∃ n', init (m_peers_size n) (m_me n) (m_persister n) now = Ok n' ∧
    m_currentTerm n' = m_currentTerm n ∧ m_votedFor n' = m_votedFor n ∧
    m_lastSnapshotIncludeIndex n' = m_lastSnapshotIncludeIndex n ∧
    m_lastSnapshotIncludeTerm n' = m_lastSnapshotIncludeTerm n ∧
    m_logs n' = m_logs n ∧ m_status n' = Follower ∧ m_commitIndex n' = 0 ∧
    m_lastApplied n' = m_lastSnapshotIncludeIndex n ∧ durable_ok n' ∧ log_ok n'.
Proof.
  unfold durable_ok. intros Hd Hok Hsnap. unfold init, readPersist. rewrite Hd.
  unfold persistDate. rewrite bool_decide_eq_false_2 by apply oarchive_nonempty.
  rewrite iarchive_oarchive. cbn [mbind outcome_bind]. cbn -[rebuild_logs].
  rewrite rebuild_logs_id by done.
  destruct (Z.ltb_spec 0 (m_lastSnapshotIncludeIndex n)); eexists;
    (split; [done|]); cbn; (repeat split; try done; try lia).
  all: unfold persistDate; cbn; by rewrite Hd.
Qed.

Definition log_demo : node :=
  mkNode 3 0 (mkStore "" "") 2 0
    [mkLogEntry "a" 1 1; mkLogEntry "b" 2 2; mkLogEntry "c" 2 3]
    1 0 [4; 3; 1] [0; 2; 0] Leader [] 0 0 0 0 [0; 0; 0] [false; false; false]
    (replicate 3 (mkPendingEntries [] 0 0)) true true
    (replicate 3 (mkPeerPipelineState [] ∅ 0)) 0 0.

Lemma log_demo_ok n : m_lastSnapshotIncludeIndex n = 0 → m_logs n = m_logs log_demo → log_ok n.
Proof.
  intros Hs Hl k e He. rewrite Hs. rewrite Hl in He.
  destruct k as [|[|[|k]]]; cbn in He; try discriminate He; injection He as <-; reflexivity.
Defined.

Lemma restart_recovers_witness :
  let n := persist (Ar := bit_archive) log_demo in
  ∃ n', init (Ar := bit_archive) 3 0 (m_persister n) 7 = Ok n' ∧ m_logs n' = m_logs log_demo.
Proof.
  intros n.
  destruct (restart_recovers (Ar := bit_archive) n 7) as (n' & Hi & _ & _ & _ & _ & Hl & _);
    [reflexivity|by apply log_demo_ok|by vm_compute|].
  exists n'. split; [exact Hi|exact Hl].
Defined.

(** ** The applier *)

(** The message of a log entry. *)
Definition apply_msg (i : Z) (e : LogEntry) : ApplyMsg :=
  mkApplyMsg true i (command e) false 0 0 "".

Lemma applier_loop_spec fuel msgs n :
  fuel = Z.to_nat (m_commitIndex n - m_lastApplied n) →
  m_lastSnapshotIncludeIndex n ≤ m_lastApplied n → m_commitIndex n ≤ getLastLogIndex n →
  ∃ ms, applier_loop fuel msgs n =
      Ok (msgs ++ ms, n <| m_lastApplied := Z.max (m_lastApplied n) (m_commitIndex n) |>) ∧
    length ms = fuel ∧
    (∀ k m, ms !! k = Some m → ∃ e,
       log_entry n (m_lastApplied n + 1 + Z.of_nat k) = Some e ∧
       m = apply_msg (m_lastApplied n + 1 + Z.of_nat k) e).
Proof.
  revert msgs n. induction fuel as [|fuel IH]; intros msgs n Hfuel Hsnap Hlast.
  { exists []. cbn. rewrite app_nil_r, Z.max_l by lia. split; [by destruct n|done]. }
  cbn [applier_loop]. zbool. cbn beta zeta.
  set (n1 := n <| m_lastApplied := m_lastApplied n + 1 |>).
  destruct (log_entry_in n (m_lastApplied n + 1)) as [e He]; [lia|].
  change (getSlicesIndexFromLogIndex (m_lastApplied n1) n1)
    with (getSlicesIndexFromLogIndex (m_lastApplied n + 1) n).
  change (m_logs n1) with (m_logs n). rewrite (vec_at_log _ _ _ He). cbn [mbind outcome_bind].
  destruct (IH (msgs ++ [apply_msg (m_lastApplied n + 1) e]) n1) as (ms & Hms & Hlen & Hspec);
    [cbn; lia|cbn; lia|done|].
  exists (apply_msg (m_lastApplied n + 1) e :: ms). split; [|split].
  - change (m_lastApplied n1) with (m_lastApplied n + 1) in *. unfold apply_msg in Hms at 1.
    rewrite Hms, <- app_assoc. cbn. by rewrite !Z.max_r by lia.
  - cbn. by rewrite Hlen.
  - intros [|k] m Hm; cbn in Hm.
    + injection Hm as <-. exists e. by rewrite Z.add_0_r.
    + destruct (Hspec _ _ Hm) as (e' & He' & ->). exists e'.
      replace (m_lastApplied n + 1 + Z.of_nat (S k))
        with (m_lastApplied n1 + 1 + Z.of_nat k) by (cbn; lia). done.
Qed.

Lemma push_all msgs n :
  foldl (λ n msg, pushMsgToKVserver msg n) n msgs = n <| applyChan := applyChan n ++ msgs |>.
Proof.
  revert n. induction msgs as [|m msgs IH]; intros n; cbn.
  - rewrite app_nil_r. by destruct n.
  - rewrite IH. cbn. by rewrite <- app_assoc.
Qed.

Lemma applier_round_spec n :
  m_lastSnapshotIncludeIndex n ≤ m_lastApplied n → m_commitIndex n ≤ getLastLogIndex n →
  ∃ ms, applierTicker_round n =
      Ok (n <| m_lastApplied := Z.max (m_lastApplied n) (m_commitIndex n) |>
            <| applyChan := applyChan n ++ ms |>) ∧
    length ms = Z.to_nat (m_commitIndex n - m_lastApplied n) ∧
    (∀ k m, ms !! k = Some m → ∃ e,
       log_entry n (m_lastApplied n + 1 + Z.of_nat k) = Some e ∧
       m = apply_msg (m_lastApplied n + 1 + Z.of_nat k) e).
Proof.
  intros Hs Hl. unfold applierTicker_round.
  destruct (applier_loop_spec _ [] n eq_refl Hs Hl) as (ms & Hms & Hlen & Hspec).
  exists ms. rewrite Hms. cbn. rewrite push_all. by repeat split.
Qed.

(** One round of the applier reads only entries that exist, sends exactly the
    committed entries not applied yet, in index order and without gap or repetition,
    and leaves [m_lastApplied] at the commit index. *)
Theorem applier_delivers (n : node) :
  m_lastSnapshotIncludeIndex n ≤ m_lastApplied n → m_commitIndex n ≤ getLastLogIndex n →
  ∃ ms n', applierTicker_round n = Ok n' ∧ applyChan n' = applyChan n ++ ms ∧
    m_lastApplied n' = Z.max (m_lastApplied n) (m_commitIndex n) ∧
    m_logs n' = m_logs n ∧
    length ms = Z.to_nat (m_commitIndex n - m_lastApplied n) ∧
    (∀ k m, ms !! k = Some m → ∃ e,
       log_entry n (m_lastApplied n + 1 + Z.of_nat k) = Some e ∧
       m = apply_msg (m_lastApplied n + 1 + Z.of_nat k) e).
Proof.
  intros Hs Hl. destruct (applier_round_spec n Hs Hl) as (ms & -> & Hlen & Hspec).
  eexists ms, _. by repeat split.
Qed.

Lemma applier_delivers_witness :
  ∃ ms n', applierTicker_round log_demo = Ok n' ∧ applyChan n' = ms ∧
    length ms = 1%nat.
Proof.
  destruct (applier_delivers log_demo) as (ms & n' & Hr & Hc & _ & _ & Hlen & _);
    [by vm_compute|by vm_compute|].
  exists ms, n'. split; [exact Hr|]. split; [exact Hc|exact Hlen].
Defined.

(** ** The commit rule of [leaderUpdateCommitIndex] *)

Definition vectors_ok (n : node) : Prop :=
  length (m_nextIndex n) = m_peers_size n ∧ length (m_matchIndex n) = m_peers_size n ∧
  length (m_inflightCount n) = m_peers_size n ∧ length (m_inSnapshot n) = m_peers_size n ∧
  length (m_peerPipeline n) = m_peers_size n ∧
  length (m_pendingEntries n) = m_peers_size n.

(** The peers other than the leader that hold everything up to [N]. *)
Definition replicated_on (N : Z) (n : node) : list Z :=
  filter (λ i, i ≠ m_me n ∧ N ≤ default (N - 1) (m_matchIndex n !! Z.to_nat i))
    (indices (m_peers_size n)).

Lemma count_step_spec N n i c :
  0 ≤ i < vsize (m_matchIndex n) →
  count_step N n i c =
    Ok (if decide (i ≠ m_me n ∧ N ≤ default (N - 1) (m_matchIndex n !! Z.to_nat i))
        then c + 1 else c).
Proof.
  intros Hi. unfold count_step.
  destruct (vec_at_in_range "m_matchIndex" _ _ Hi) as (m & Hm & ->). rewrite Hm. cbn.
  destruct (Z.eqb_spec i (m_me n)); [by rewrite decide_False by naive_solver|].
  destruct (Z.leb_spec N m).
  - by rewrite decide_True.
  - rewrite decide_False; [done|]. intros [_ ?]. lia.
Qed.

Lemma count_matching_spec N n :
  vectors_ok n → count_matching N n = Ok (1 + vsize (replicated_on N n)).
Proof.
  intros (_ & Hlen & _). unfold count_matching, replicated_on.
  assert (∀ l c, (∀ i, i ∈ l → 0 ≤ i < vsize (m_matchIndex n)) →
    for_each (count_step N n) l c = Ok (c + vsize (filter (λ i, i ≠ m_me n ∧
      N ≤ default (N - 1) (m_matchIndex n !! Z.to_nat i)) l))) as Hgen.
  { induction l as [|i l IH]; intros c Hin; [cbn; by rewrite Z.add_0_r|].
    cbn [for_each]. rewrite count_step_spec by (apply Hin; set_solver).
    cbn [mbind outcome_bind]. rewrite filter_cons, IH by set_solver.
    case_decide; [|done]. f_equal. unfold vsize. cbn [length]. lia. }
  apply Hgen. intros i Hi%indices_in. unfold vsize. lia.
Qed.

(** Whether the entries up to [N] are held by a majority. *)
Definition has_quorum (N : Z) (n : node) : Prop := majority n ≤ 1 + vsize (replicated_on N n).

Lemma commit_loop_spec fuel N n :
  vectors_ok n → m_commitIndex n ≤ N → fuel = Z.to_nat (N - m_commitIndex n) →
  ∃ c, commit_loop fuel N n = Ok (n <| m_commitIndex := c |>) ∧
    (c = m_commitIndex n ∧
       (∀ M t, m_commitIndex n < M ≤ N → has_quorum M n →
          (∀ M', M < M' ≤ N → ¬ has_quorum M' n) →
          getLogTermFromLogIndex M n = Ok t → t ≠ m_currentTerm n) ∨
     m_commitIndex n < c ≤ N ∧ has_quorum c n ∧
       getLogTermFromLogIndex c n = Ok (m_currentTerm n) ∧
       ∀ M', c < M' ≤ N → ¬ has_quorum M' n).
Proof.
  intros Hv. revert N. induction fuel as [|fuel IH]; intros N HN Hfuel.
  { exists (m_commitIndex n). cbn. split; [by destruct n|]. left. split; [done|]. lia. }
  cbn [commit_loop]. zbool. rewrite count_matching_spec by done. cbn [mbind outcome_bind].
  destruct (Z.leb_spec (majority n) (1 + vsize (replicated_on N n))) as [Hq|Hq].
  - destruct (getLogTerm_total n N) as [t Ht]. rewrite Ht. cbn [mbind outcome_bind].
    destruct (Z.eqb_spec t (m_currentTerm n)) as [->|Hne].
    + exists N. split; [done|]. right. repeat split; try done; lia.
    + exists (m_commitIndex n). split; [by destruct n|]. left. split; [done|].
      intros M u HM HqM Hmax Hu. destruct (decide (M = N)) as [->|]; [congruence|].
      exfalso. apply (Hmax N); [lia|done].
  - assert (¬ has_quorum N n) as Hnq by (unfold has_quorum; lia).
    destruct (IH (N - 1)) as (c & Hc & Hcases); [lia|lia|]. exists c. split; [done|].
    destruct Hcases as [[-> Hnone]|(Hr & Hqc & Ht & Hmax)].
    + left. split; [done|]. intros M t HM HqM Hmax Ht.
      destruct (decide (M = N)) as [->|]; [done|].
      apply (Hnone M t); [lia|done|intros; apply Hmax; lia|done].
    + right. split; [lia|]. split; [done|]. split; [done|]. intros M' HM'.
      destruct (decide (M' = N)) as [->|]; [done|]. apply Hmax. lia.
Qed.

(** The leader's commit rule.  [leaderUpdateCommitIndex] never fails and never
    lowers the commit index; it moves it only to an index held by a majority whose
    entry is of the current term (the Raft restriction on older terms), and to the
    largest index a majority holds. *)
Theorem leader_commit_rule (n : node) :
  vectors_ok n → m_commitIndex n ≤ getLastLogIndex n →
  ∃ c, leaderUpdateCommitIndex n = Ok (n <| m_commitIndex := c |>) ∧
    m_commitIndex n ≤ c ≤ getLastLogIndex n ∧
    (m_commitIndex n < c →
       has_quorum c n ∧ getLogTermFromLogIndex c n = Ok (m_currentTerm n) ∧
       ∀ M', c < M' ≤ getLastLogIndex n → ¬ has_quorum M' n).
Proof.
  intros Hv Hc. unfold leaderUpdateCommitIndex.
  destruct (commit_loop_spec _ _ n Hv Hc eq_refl) as (c & -> & Hcases).
  exists c. split; [done|].
  destruct Hcases as [[-> _]|(Hr & Hq & Ht & Hmax)]; split; try lia. done.
Qed.

Lemma leader_commit_rule_witness :
  vectors_ok log_demo ∧
  leaderUpdateCommitIndex log_demo = Ok (log_demo <| m_commitIndex := 2 |>) ∧
  has_quorum 2 log_demo.
Proof.
  assert (vectors_ok log_demo) as Hv by (repeat split).
  split; [exact Hv|]. assert (leaderUpdateCommitIndex log_demo =
    Ok (log_demo <| m_commitIndex := 2 |>)) as Heq by (vm_compute; reflexivity).
  split; [exact Heq|].
  destruct (leader_commit_rule log_demo Hv) as (c & Hc & _ & Hr); [by vm_compute|].
  rewrite Heq in Hc. injection Hc as Hc. subst c. apply Hr. by vm_compute.
Defined.
