(* ===== verification/RaftElection.v ===== *)
(** Leader election in [src/Raft/Raft.cpp]: the timers, [doElection] and
    [sendRequestVote] on the candidate's side, [RequestVote1] on the voter's side, and
    the pre-vote ([preElection], [PreRequestVote1]). *)
From S2P Require Import Prelude OpCoder Persister RaftTypes RaftLog.
Open Scope Z_scope.

(** ** Timers; times are in nanoseconds *)

Definition ms : Z := 1000000.
Definition HeartBeatTimeout : Z := 25.
Definition minRandomizedElectionTime : Z := 300.
Definition maxRandomizedElectionTime : Z := 500.

(** The number that [uniform_int_distribution] draws, as a duration. *)
Definition drawable (draw : Z) : Prop :=
  minRandomizedElectionTime ≤ draw ≤ maxRandomizedElectionTime.
Definition getRandomizedElectionTimeout (draw : Z) : Z := draw * ms.

(** How long [electionTimeoutTicker] sleeps: [timeout] is the random draw, [weakTime]
    the time of the observation of the node. *)
Definition electionTimeoutTicker_sleep (timeout weakTime : Z) (n : node) : Z :=
  let suitableSleepTime := timeout + m_lastResetElectionTime n - weakTime in
  if ms <? suitableSleepTime then suitableSleepTime else 0.

(** After the sleep: whether it calls [doElection] (otherwise it continues). *)
Definition electionTimeoutTicker_due (weakTime : Z) (n : node) : bool :=
  negb (0 <? m_lastResetElectionTime n - weakTime).

Definition leaderHearBeatTicker_sleep (weakTime : Z) (n : node) : Z :=
  let suitableSleepTime := HeartBeatTimeout * ms + m_lastResetHearBeatTime n - weakTime in
  if ms <? suitableSleepTime then suitableSleepTime else 0.

Definition leaderHearBeatTicker_due (weakTime : Z) (n : node) : bool :=
  negb (0 <? m_lastResetHearBeatTime n - weakTime).

(** One round of the ticker of a server that does not lead never begins an election earlier
    than 299 ms after the last time the timer was reset, whatever was drawn: here the node
    is [n] when it is observed at [weakTime] and [n'] when the thread wakes at [wake], and
    the clock shows that what was reset meanwhile was reset after the observation. *)
Theorem election_waits (draw weakTime wake : Z) (n n' : node) :
  drawable draw →
  weakTime + electionTimeoutTicker_sleep (getRandomizedElectionTimeout draw) weakTime n ≤ wake →
  m_lastResetElectionTime n' = m_lastResetElectionTime n ∨
    weakTime < m_lastResetElectionTime n' →
  electionTimeoutTicker_due weakTime n' = true →
  m_lastResetElectionTime n' + (minRandomizedElectionTime - 1) * ms ≤ wake.
Proof.
  unfold drawable, electionTimeoutTicker_sleep, electionTimeoutTicker_due,
    getRandomizedElectionTimeout, minRandomizedElectionTime, maxRandomizedElectionTime, ms.
  intros Hd Hw Hr Hdue. b2p. destruct Hr as [Hr|Hr]; [|lia]. rewrite Hr.
  destruct (Z.ltb_spec 1000000 (draw * 1000000 + m_lastResetElectionTime n - weakTime)); lia.
Qed.

(** ** The voter *)

Section election.
Context `{Ar : BoostArchive}.

Definition RequestVote1 (now : Z) (args : RequestVoteArgs) (n : node)
    : outcome (node * RequestVoteReply) :=
  if rv_term args <? m_currentTerm n then
    Ok (persist n, mkRequestVoteReply (m_currentTerm n) false Expire)
  else
  let n := if m_currentTerm n <? rv_term args
           then n <| m_status := Follower |> <| m_currentTerm := rv_term args |>
                  <| m_votedFor := -1 |>
           else n in
  _ ← myAssert (rv_term args =? m_currentTerm n) "args.Term != rf.currentTerm";
  let candidateLogUpToDate := UPtodata (rv_lastlogindex args) (rv_lastlogterm args) n in
  if negb candidateLogUpToDate then
    Ok (persist n, mkRequestVoteReply (m_currentTerm n) false Vted)
  else
  if negb (m_votedFor n =? -1) && negb (m_votedFor n =? rv_candidateid args) then
    Ok (persist n, mkRequestVoteReply (m_currentTerm n) false Vted)
  else
  let n := n <| m_votedFor := rv_candidateid args |> <| m_lastResetElectionTime := now |> in
  Ok (persist n, mkRequestVoteReply (m_currentTerm n) true Normal).

(** ** The candidate *)

(** [startBatchSenderThread]: a second thread is not started while the flag is set. *)
Definition startBatchSenderThread (n : node) : node :=
  if negb (m_batchRunning n)
  then n <| m_batchRunning := true |> <| m_batchSenderThread := true |> else n.

Definition stopBatchSenderThread (n : node) : node := n <| m_batchRunning := false |>.

(** The reset of peer [i] by a new leader. *)
Definition reset_peer (lastLogIndex : Z) (i : Z) (n : node) : outcome node :=
  next ← vec_set "m_nextIndex" (m_nextIndex n) i (lastLogIndex + 1);
  match_ ← vec_set "m_matchIndex" (m_matchIndex n) i 0;
  infl ← vec_set "m_inflightCount" (m_inflightCount n) i 0;
  snap ← vec_set "m_inSnapshot" (m_inSnapshot n) i false;
  pipe ← vec_set "m_peerPipeline" (m_peerPipeline n) i (mkPeerPipelineState [] ∅ 0);
  Ok (n <| m_nextIndex := next |> <| m_matchIndex := match_ |>
        <| m_inflightCount := infl |> <| m_inSnapshot := snap |>
        <| m_peerPipeline := pipe |>).

Definition become_leader (n : node) : outcome node :=
  let n := n <| m_status := Leader |> in
  n ← for_each (reset_peer (getLastLogIndex n)) (indices (m_peers_size n)) n;
  Ok (startBatchSenderThread (persist n)).

(** [sendRequestVote] once the RPC has returned [reply] ([None]: it failed): the new
    state, the new [*voteNum] and the result. *)
Definition sendRequestVote (reply : option RequestVoteReply) (voteNum : Z) (n : node)
    : outcome (node * Z * bool) :=
  match reply with
  | None => Ok (n, voteNum, false)
  | Some reply =>
      if m_currentTerm n <? rvr_term reply then
        let n := n <| m_status := Follower |> <| m_currentTerm := rvr_term reply |>
                   <| m_votedFor := -1 |> in
        Ok (persist n, voteNum, true)
      else if rvr_term reply <? m_currentTerm n then Ok (n, voteNum, true)
      else
      _ ← myAssert (rvr_term reply =? m_currentTerm n) "rply.Term==rf.currentTerm";
      if negb (rvr_votegranted reply) then Ok (n, voteNum, true)
      else
      let voteNum := voteNum + 1 in
      if Z.of_nat (m_peers_size n) / 2 + 1 <=? to_size_t voteNum then
        _ ← myAssert (negb (bool_decide (m_status n = Leader))) "elected twice in a term";
        n ← become_leader n;
        Ok (n, 0, true)
      else Ok (n, voteNum, true)
  end.

(** The critical section of [doElection]; [None] when the node is the leader. *)
Definition doElection_begin (now : Z) (n : node) : option (node * RequestVoteArgs) :=
  if bool_decide (m_status n = Leader) then None else
  let n := n <| m_status := Candidate |> <| m_currentTerm := m_currentTerm n + 1 |>
             <| m_votedFor := m_me n |> in
  let n := persist n in
  let n := n <| m_lastResetElectionTime := now |> in
  let '(lastLogIndex, lastLogTerm) := getLastLogIndexAndTerm n in
  Some (n, mkRequestVoteArgs (m_currentTerm n) (m_me n) lastLogIndex lastLogTerm).

Definition election_peer (rpc : Z → option RequestVoteReply) (i : Z) (s : node * Z)
    : outcome (node * Z) :=
  let '(n, votedNum) := s in
  if i =? m_me n then Ok (n, votedNum) else
  '(n, votedNum, _) ← sendRequestVote (rpc i) votedNum n;
  Ok (n, votedNum).

(** [doElection] when nothing else runs meanwhile; [rpc] gives the replies. *)
Definition doElection (now : Z) (rpc : RequestVoteArgs → Z → option RequestVoteReply)
    (n : node) : outcome node :=
  match doElection_begin now n with
  | None => Ok n
  | Some (n, args) =>
      '(n, _) ← for_each (election_peer (rpc args)) (indices (m_peers_size n)) (n, 1);
      Ok n
  end.

(** ** The pre-vote *)

Definition PreRequestVote1 (args : PreRequestVoteArgs) (n : node) : PreRequestVoteReply :=
  if prv_term args <? m_currentTerm n then mkPreRequestVoteReply (m_currentTerm n) false
  else if negb (UPtodata (prv_lastlogindex args) (prv_lastlogterm args) n)
  then mkPreRequestVoteReply (m_currentTerm n) false
  else if bool_decide (m_status n = Leader)
  then mkPreRequestVoteReply (m_currentTerm n) false
  else mkPreRequestVoteReply (m_currentTerm n) true.

Definition preElection_peer (rpc : Z → option PreRequestVoteReply) (i : Z)
    (s : node * Z) : node * Z :=
  let '(n, votes) := s in
  if i =? m_me n then (n, votes) else
  match rpc i with
  | None => (n, votes)
  | Some reply =>
      let n := if m_currentTerm n <? prvr_term reply
               then persist (n <| m_status := Follower |>
                               <| m_currentTerm := prvr_term reply |> <| m_votedFor := -1 |>)
               else n in
      (n, if prvr_votegranted reply then votes + 1 else votes)
  end.

Definition preElection (now : Z) (rpc : PreRequestVoteArgs → Z → option PreRequestVoteReply)
    (n : node) : node * bool :=
  if bool_decide (m_status n = Leader) then (n, false) else
  let '(lastLogIndex, lastLogTerm) := getLastLogIndexAndTerm n in
  let args := mkPreRequestVoteArgs (m_currentTerm n + 1) (m_me n) lastLogIndex lastLogTerm in
  let '(n, votes) := foldl (λ s i, preElection_peer (rpc args) i s) (n, 1)
                       (indices (m_peers_size n)) in
  let n := n <| m_lastResetElectionTime := now |> in
  if bool_decide (m_status n = Leader) then (n, false) else
  (n, majority n <=? votes).
End election.

(** ** The voter's rule *)

(** Adopting a larger term. *)
Definition step_down (t : Z) (n : node) : node :=
  n <| m_status := Follower |> <| m_currentTerm := t |> <| m_votedFor := -1 |>.
Definition adopt_term (t : Z) (n : node) : node :=
  if m_currentTerm n <? t then step_down t n else n.

(** A node of a cluster: its vectors have one slot per peer and it is one of them. *)
Definition node_ok (n : node) : Prop :=
  vectors_ok n ∧ 0 ≤ m_me n < Z.of_nat (m_peers_size n).

Definition grants (args : RequestVoteArgs) (n : node) : bool :=
  negb (rv_term args <? m_currentTerm n) &&
  UPtodata (rv_lastlogindex args) (rv_lastlogterm args) n &&
  ((m_currentTerm n <? rv_term args) || (m_votedFor n =? -1) ||
   (m_votedFor n =? rv_candidateid args)).

Lemma adopt_term_old t n : t ≤ m_currentTerm n → adopt_term t n = n.
Proof. intros. unfold adopt_term. by zbool. Qed.
Lemma adopt_term_term t n :
  m_currentTerm n ≤ t → m_currentTerm (adopt_term t n) = t.
Proof.
  intros. unfold adopt_term, step_down.
  destruct (Z.ltb_spec (m_currentTerm n) t); cbn; lia.
Qed.
Lemma adopt_term_max t n : m_currentTerm (adopt_term t n) = Z.max (m_currentTerm n) t.
Proof.
  unfold adopt_term, step_down. destruct (Z.ltb_spec (m_currentTerm n) t); cbn; lia.
Qed.
Lemma adopt_term_UPtodata i t t' n : UPtodata i t (adopt_term t' n) = UPtodata i t n.
Proof. unfold adopt_term. by case_match. Qed.
Lemma adopt_term_vote t c n :
  (m_votedFor (adopt_term t n) =? -1) || (m_votedFor (adopt_term t n) =? c) =
  (m_currentTerm n <? t) || (m_votedFor n =? -1) || (m_votedFor n =? c).
Proof. unfold adopt_term. by case_match. Qed.

Section election_facts.
Context `{Ar : BoostArchive}.

(** The handler in one equation. *)
Lemma RequestVote1_eq now args n :
  ∃ vs, RequestVote1 now args n =
    Ok (persist (if grants args n
                 then (adopt_term (rv_term args) n)
                        <| m_votedFor := rv_candidateid args |>
                        <| m_lastResetElectionTime := now |>
                 else adopt_term (rv_term args) n),
        mkRequestVoteReply (m_currentTerm (adopt_term (rv_term args) n)) (grants args n) vs).
Proof.
  unfold RequestVote1, grants.
  destruct (Z.ltb_spec (rv_term args) (m_currentTerm n)) as [Hlt|Hle].
  { exists Expire. cbn [negb andb]. by rewrite adopt_term_old by lia. }
  cbn [negb andb].
  change (if m_currentTerm n <? rv_term args then _ else n) with (adopt_term (rv_term args) n).
  replace (rv_term args =? m_currentTerm (adopt_term (rv_term args) n)) with true
    by (rewrite adopt_term_term by done; by rewrite Z.eqb_refl).
  cbn [myAssert mbind outcome_bind]. rewrite adopt_term_UPtodata.
  destruct (UPtodata _ _ _); cbn [negb andb]; [|by exists Vted].
  rewrite <- (adopt_term_vote (rv_term args) (rv_candidateid args) n).
  destruct (m_votedFor _ =? -1); cbn [negb andb orb]; [by exists Normal|].
  destruct (m_votedFor _ =? _); cbn [negb andb orb]; [by exists Normal|by exists Vted].
Qed.

(** C13: the voter's rule.  [RequestVote1] always answers; it grants exactly when the
    candidate's term is not older, its log is at least as up to date, and the node
    has no other vote in that term; the reply carries the node's new term, which is
    the larger of the two; a granted vote is recorded for the candidate; and the new
    term and vote are on disk before the reply is returned. *)
Theorem RequestVote1_correct (now : Z) (args : RequestVoteArgs) (n : node) :
  ∃ n' r, RequestVote1 now args n = Ok (n', r) ∧
    (rvr_votegranted r = true ↔
       m_currentTerm n ≤ rv_term args ∧
       (getLastLogTerm n < rv_lastlogterm args ∨
        getLastLogTerm n = rv_lastlogterm args ∧ getLastLogIndex n ≤ rv_lastlogindex args) ∧
       (m_currentTerm n < rv_term args ∨ m_votedFor n = -1 ∨
        m_votedFor n = rv_candidateid args)) ∧
    rvr_term r = Z.max (m_currentTerm n) (rv_term args) ∧ m_currentTerm n' = rvr_term r ∧
    m_votedFor n' = (if rvr_votegranted r then rv_candidateid args
                     else if m_currentTerm n <? rv_term args then -1 else m_votedFor n) ∧
    durable_ok n' ∧ m_logs n' = m_logs n ∧ m_commitIndex n' = m_commitIndex n.
Proof.
  destruct (RequestVote1_eq now args n) as [vs ->]. eexists _, _. split; [done|].
  cbn [rvr_votegranted rvr_term].
  assert (grants args n = true ↔
       m_currentTerm n ≤ rv_term args ∧
       (getLastLogTerm n < rv_lastlogterm args ∨
        getLastLogTerm n = rv_lastlogterm args ∧ getLastLogIndex n ≤ rv_lastlogindex args) ∧
       (m_currentTerm n < rv_term args ∨ m_votedFor n = -1 ∨
        m_votedFor n = rv_candidateid args)) as Hg.
  { unfold grants, UPtodata.
    destruct (Z.ltb_spec (rv_term args) (m_currentTerm n)),
      (Z.eqb_spec (rv_lastlogterm args) (getLastLogTerm n)); cbn [negb andb];
      rewrite ?andb_true_iff, ?orb_true_iff, ?Z.ltb_lt, ?Z.leb_le, ?Z.eqb_eq; lia. }
  split; [exact Hg|]. rewrite adopt_term_max. split; [done|].
  assert (m_votedFor (adopt_term (rv_term args) n) =
    if m_currentTerm n <? rv_term args then -1 else m_votedFor n) as Hv
    by (unfold adopt_term; by case_match).
  assert (m_logs (adopt_term (rv_term args) n) = m_logs n ∧
    m_commitIndex (adopt_term (rv_term args) n) = m_commitIndex n) as [Hl Hc]
    by (unfold adopt_term; by case_match).
  pose proof (adopt_term_max (rv_term args) n) as Hm.
  destruct (grants args n); by repeat split.
Qed.

(** ** What a step may do to a node's term and vote *)

(** Terms grow, and within a term a vote is given at most once. *)
Definition vote_le (n n' : node) : Prop :=
  m_currentTerm n < m_currentTerm n' ∨
  m_currentTerm n = m_currentTerm n' ∧
    (m_votedFor n = m_votedFor n' ∨ m_votedFor n = -1).

#[export] Instance vote_le_preorder : PreOrder vote_le.
Proof.
  split; [by intros n; right; auto|]. unfold vote_le. intros a b c. lia.
Qed.

Lemma vote_le_adopt t n : vote_le n (adopt_term t n).
Proof.
  unfold vote_le, adopt_term, step_down. destruct (Z.ltb_spec (m_currentTerm n) t);
    cbn; lia.
Qed.

Lemma RequestVote1_vote_le now args n n' r :
  RequestVote1 now args n = Ok (n', r) → vote_le n n'.
Proof.
  destruct (RequestVote1_eq now args n) as [vs ->]. intros [= <- _].
  destruct (grants args n) eqn:E; [|apply (vote_le_adopt (rv_term args) n)].
  unfold grants in E. rewrite !andb_true_iff, !orb_true_iff in E.
  unfold vote_le, adopt_term, step_down.
  destruct (Z.ltb_spec (m_currentTerm n) (rv_term args)); cbn; [lia|].
  right. split; [done|]. destruct E as [_ [[?|?]|?]]; b2p; auto. done.
Qed.

(** A granted reply names the term it was asked for, and the voter then holds that
    vote in that term. *)
Lemma RequestVote1_granted now args n n' r :
  RequestVote1 now args n = Ok (n', r) → rvr_votegranted r = true →
  rvr_term r = rv_term args ∧ m_currentTerm n' = rv_term args ∧
  m_votedFor n' = rv_candidateid args.
Proof.
  destruct (RequestVote1_eq now args n) as [vs ->]. intros [= <- <-]. cbn.
  intros E. rewrite E. unfold grants in E. b2p.
  unfold adopt_term, step_down. destruct (Z.ltb_spec (m_currentTerm n) (rv_term args));
    cbn; lia.
Qed.
End election_facts.
#[export] Hint Resolve RequestVote1_vote_le vote_le_adopt : kvdb.

(** ** Becoming the leader *)

#[local] Arguments upd : simpl never.

Section leadership.
Context `{Ar : BoostArchive}.

Definition reset_upto (L : Z) (k : nat) (n : node) : node :=
  n <| m_nextIndex := replicate k (L + 1) ++ drop k (m_nextIndex n) |>
    <| m_matchIndex := replicate k 0 ++ drop k (m_matchIndex n) |>
    <| m_inflightCount := replicate k 0 ++ drop k (m_inflightCount n) |>
    <| m_inSnapshot := replicate k false ++ drop k (m_inSnapshot n) |>
    <| m_peerPipeline := replicate k (mkPeerPipelineState [] ∅ 0) ++
                         drop k (m_peerPipeline n) |>.

Lemma reset_loop L k n :
  vectors_ok n → (k ≤ m_peers_size n)%nat →
  for_each (reset_peer L) (indices k) n = Ok (reset_upto L k n).
Proof.
  intros (? & ? & ? & ? & ? & ?). induction k as [|k IH]; intros Hk.
  { cbn. by destruct n. }
  rewrite indices_S, for_each_app, IH by lia. cbn [mbind outcome_bind for_each].
  unfold reset_peer.
  change (m_nextIndex (reset_upto L k n)) with (replicate k (L + 1) ++ drop k (m_nextIndex n)).
  change (m_matchIndex (reset_upto L k n)) with (replicate k 0 ++ drop k (m_matchIndex n)).
  change (m_inflightCount (reset_upto L k n))
    with (replicate k 0 ++ drop k (m_inflightCount n)).
  change (m_inSnapshot (reset_upto L k n)) with (replicate k false ++ drop k (m_inSnapshot n)).
  change (m_peerPipeline (reset_upto L k n)) with
    (replicate k (mkPeerPipelineState [] ∅ 0) ++ drop k (m_peerPipeline n)).
  rewrite !vec_set_fill by lia. reflexivity.
Qed.

(** The state in which a leader starts. *)
Definition leader_state (n : node) : node :=
  startBatchSenderThread (persist (reset_upto (getLastLogIndex n) (m_peers_size n)
    (n <| m_status := Leader |>))).

Lemma become_leader_eq n : vectors_ok n → become_leader n = Ok (leader_state n).
Proof.
  intros Hv. unfold become_leader. cbn zeta.
  change (getLastLogIndex (n <| m_status := Leader |>)) with (getLastLogIndex n).
  change (m_peers_size (n <| m_status := Leader |>)) with (m_peers_size n).
  rewrite (reset_loop (getLastLogIndex n) (m_peers_size n) (n <| m_status := Leader |>)).
  - cbn [mbind outcome_bind]. unfold leader_state. reflexivity.
  - exact Hv.
  - upd_simpl. lia.
Qed.

Lemma reset_upto_full {A} (l : list A) k a : length l = k → replicate k a ++ drop k l = replicate k a.
Proof. intros <-. by rewrite drop_all, app_nil_r. Qed.

Lemma leader_state_fields n :
  m_status (leader_state n) = Leader ∧
  m_nextIndex (leader_state n) = replicate (m_peers_size n) (getLastLogIndex n + 1) ++
    drop (m_peers_size n) (m_nextIndex n) ∧
  m_matchIndex (leader_state n) = replicate (m_peers_size n) 0 ++
    drop (m_peers_size n) (m_matchIndex n) ∧
  m_currentTerm (leader_state n) = m_currentTerm n ∧
  m_votedFor (leader_state n) = m_votedFor n ∧
  m_logs (leader_state n) = m_logs n ∧
  m_commitIndex (leader_state n) = m_commitIndex n ∧
  m_batchRunning (leader_state n) = true ∧ durable_ok (leader_state n) ∧
  m_me (leader_state n) = m_me n ∧ m_peers_size (leader_state n) = m_peers_size n ∧
  m_pendingEntries (leader_state n) = m_pendingEntries n ∧
  m_lastSnapshotIncludeIndex (leader_state n) = m_lastSnapshotIncludeIndex n ∧
  m_lastSnapshotIncludeTerm (leader_state n) = m_lastSnapshotIncludeTerm n ∧
  m_lastApplied (leader_state n) = m_lastApplied n ∧
  applyChan (leader_state n) = applyChan n ∧
  m_batchSenderThread (leader_state n) =
    if m_batchRunning n then m_batchSenderThread n else true.
Proof.
  unfold leader_state, startBatchSenderThread.
  change (m_batchRunning (persist _)) with (m_batchRunning n).
  destruct (m_batchRunning n) eqn:E; cbn [negb]; repeat split; try reflexivity.
  exact E.
Qed.

Lemma leader_state_vectors n : vectors_ok n → vectors_ok (leader_state n).
Proof.
  intros (H1 & H2 & H3 & H4 & H5 & H6).
  assert (∀ {A} (l : list A) a, length l = m_peers_size n →
    length (replicate (m_peers_size n) a ++ drop (m_peers_size n) l) = m_peers_size n) as Hlen.
  { intros A l a Hl. rewrite reset_upto_full by done. apply length_replicate. }
  unfold leader_state, startBatchSenderThread.
  change (m_batchRunning (persist _)) with (m_batchRunning n).
  destruct (m_batchRunning n); cbn [negb]; repeat split;
    first [exact (Hlen _ _ _ H1)|exact (Hlen _ _ _ H2)|exact (Hlen _ _ _ H3)
          |exact (Hlen _ _ _ H4)|exact (Hlen _ _ _ H5)|exact H6].
Qed.

(** A new leader starts with [nextIndex] just after its own log and nothing
    matched for every peer, keeps its term, vote, log and commit index, and has
    persisted its state. *)
Theorem become_leader_correct (n : node) :
  vectors_ok n →
  ∃ n', become_leader n = Ok n' ∧ m_status n' = Leader ∧
    m_nextIndex n' = replicate (m_peers_size n) (getLastLogIndex n + 1) ∧
    m_matchIndex n' = replicate (m_peers_size n) 0 ∧
    m_currentTerm n' = m_currentTerm n ∧ m_votedFor n' = m_votedFor n ∧
    m_logs n' = m_logs n ∧ m_commitIndex n' = m_commitIndex n ∧
    m_batchRunning n' = true ∧ durable_ok n' ∧ vectors_ok n'.
Proof.
  intros Hv. exists (leader_state n). split; [by apply become_leader_eq|].
  pose proof Hv as (? & ? & ? & ? & ? & ?).
  destruct (leader_state_fields n) as (-> & -> & -> & Hrest).
  rewrite !reset_upto_full by done. repeat split; try apply Hrest.
  all: try (by apply leader_state_vectors).
Qed.
End leadership.

Lemma become_leader_correct_witness :
  let cand := log_demo <| m_status := Candidate |> in
  ∃ n', become_leader (Ar := bit_archive) cand = Ok n' ∧ m_nextIndex n' = [4; 4; 4].
Proof.
  intros cand.
  destruct (become_leader_correct (Ar := bit_archive) cand) as (n' & H & _ & Hn & _);
    [by repeat split|].
  exists n'. split; [exact H|exact Hn].
Defined.

(** ** A whole election *)

Section whole_election.
Context `{Ar : BoostArchive}.

Lemma to_size_t_small z : 0 ≤ z < 2 ^ 64 → to_size_t z = z.
Proof. intros. unfold to_size_t. by apply Z.mod_small. Qed.

(** What one reply does, in one equation. *)
Lemma sendRequestVote_eq reply v n :
  vectors_ok n → 0 ≤ v + 1 < 2 ^ 64 →
  sendRequestVote reply v n =
  match reply with
  | None => Ok (n, v, false)
  | Some r =>
      if m_currentTerm n <? rvr_term r then Ok (persist (step_down (rvr_term r) n), v, true)
      else if (rvr_term r =? m_currentTerm n) && rvr_votegranted r then
        if majority n <=? v + 1 then
          if bool_decide (m_status n = Leader) then Terminate "elected twice in a term"
          else Ok (leader_state n, 0, true)
        else Ok (n, v + 1, true)
      else Ok (n, v, true)
  end.
Proof.
  intros Hv Hsmall. unfold sendRequestVote. destruct reply as [r|]; [|done].
  destruct (Z.ltb_spec (m_currentTerm n) (rvr_term r)); [done|].
  destruct (Z.ltb_spec (rvr_term r) (m_currentTerm n)).
  { replace (rvr_term r =? _) with false by (symmetry; apply Z.eqb_neq; lia). done. }
  replace (rvr_term r =? _) with true by (symmetry; apply Z.eqb_eq; lia).
  cbn [myAssert mbind outcome_bind andb]. destruct (rvr_votegranted r); cbn [negb]; [|done].
  rewrite to_size_t_small by done. fold (majority n).
  destruct (majority n <=? v + 1); [|done].
  destruct (bool_decide (m_status n = Leader)); [done|].
  cbn [negb myAssert mbind outcome_bind]. by rewrite become_leader_eq.
Qed.

Definition vote_for (rpc : Z → option RequestVoteReply) (T i : Z) : bool :=
  match rpc i with Some r => rvr_votegranted r && (rvr_term r =? T) | None => false end.
Definition newer (rpc : Z → option RequestVoteReply) (T i : Z) : bool :=
  match rpc i with Some r => T <? rvr_term r | None => false end.

(** The other peers that grant their vote, and whether one of them is ahead. *)
Definition voters (rpc : Z → option RequestVoteReply) (me T : Z) (l : list Z) : list Z :=
  filter (λ i, i ≠ me ∧ vote_for rpc T i = true) l.
Definition outdated (rpc : Z → option RequestVoteReply) (me T : Z) (l : list Z) : Prop :=
  Exists (λ i, i ≠ me ∧ newer rpc T i = true) l.
#[export] Instance outdated_dec rpc me T l : Decision (outdated rpc me T l).
Proof. unfold outdated. apply _. Defined.

(** The state of an election of term [T] begun from [n0], after the peers in [l]. *)
Record election_inv rpc (T : Z) (n0 : node) (l : list Z) (s : node * Z) : Prop := {
  ei_vectors : vectors_ok (fst s);
  ei_me : m_me (fst s) = m_me n0;
  ei_size : m_peers_size (fst s) = m_peers_size n0;
  ei_logs : m_logs (fst s) = m_logs n0;
  ei_votes : 0 ≤ snd s ≤ 1 + vsize (voters rpc (m_me n0) T l);
  ei_state : if decide (outdated rpc (m_me n0) T l)
    then m_status (fst s) = Follower ∧ T < m_currentTerm (fst s)
    else m_currentTerm (fst s) = T ∧ m_votedFor (fst s) = m_me n0 ∧
      if majority n0 <=? 1 + vsize (voters rpc (m_me n0) T l)
      then m_status (fst s) = Leader ∧
           snd s = 1 + vsize (voters rpc (m_me n0) T l) - majority n0
      else m_status (fst s) = Candidate ∧ snd s = 1 + vsize (voters rpc (m_me n0) T l)
}.

Lemma voters_snoc rpc me T l i :
  vsize (voters rpc me T (l ++ [i])) = vsize (voters rpc me T l) +
    (if bool_decide (i ≠ me) && vote_for rpc T i then 1 else 0).
Proof.
  unfold voters. rewrite filter_app, vsize_app, filter_cons, filter_nil.
  destruct (decide (i = me)) as [->|Hne].
  - rewrite decide_False by naive_solver. rewrite bool_decide_eq_false_2 by auto. done.
  - rewrite bool_decide_eq_true_2 by done. destruct (vote_for rpc T i).
    + by rewrite decide_True.
    + by rewrite decide_False by naive_solver.
Qed.

Lemma outdated_snoc rpc me T l i :
  outdated rpc me T (l ++ [i]) ↔ outdated rpc me T l ∨ (i ≠ me ∧ newer rpc T i = true).
Proof.
  unfold outdated. rewrite Exists_app, Exists_cons, Exists_nil. tauto.
Qed.

(** The votes received never exceed the other peers. *)
Lemma voters_bound rpc me T l1 l2 size :
  indices size = l1 ++ l2 → 0 ≤ me < Z.of_nat size →
  vsize (voters rpc me T l1) ≤ Z.of_nat size - 1.
Proof.
  intros Hl Hme.
  assert (length (voters rpc me T (l1 ++ l2)) + 1 ≤ size)%nat as Hb.
  { rewrite <- Hl. transitivity (length (indices size)); [|by rewrite length_indices].
    assert (NoDup (me :: voters rpc me T (indices size))) as Hnd.
    { constructor; [|apply NoDup_filter, indices_NoDup].
      unfold voters. rewrite list_elem_of_filter. naive_solver. }
    rewrite Nat.add_comm. apply (submseteq_length (me :: voters rpc me T (indices size))).
    apply NoDup_submseteq; [done|]. intros x [->|Hx]%elem_of_cons.
    - by apply indices_in.
    - unfold voters in Hx. rewrite list_elem_of_filter in Hx. naive_solver. }
  unfold voters in *. rewrite filter_app, length_app in Hb. unfold vsize. lia.
Qed.

Lemma majority_gt n : Z.of_nat (m_peers_size n) < 2 * majority n.
Proof. unfold majority. pose proof (Z.mod_pos_bound (Z.of_nat (m_peers_size n)) 2).
  pose proof (Z.div_mod (Z.of_nat (m_peers_size n)) 2). lia. Qed.
Lemma majority_pos n : 1 ≤ majority n.
Proof. pose proof (majority_gt n). lia. Qed.

(** A peer that neither votes nor is ahead changes nothing. *)
Lemma election_inv_same rpc T n0 l i s :
  election_inv rpc T n0 l s → bool_decide (i ≠ m_me n0) && vote_for rpc T i = false →
  ¬ (i ≠ m_me n0 ∧ newer rpc T i = true) → election_inv rpc T n0 (l ++ [i]) s.
Proof.
  intros [Hvec Hme Hsize Hlogs Hvotes Hstate] Hnv Hno.
  pose proof (voters_snoc rpc (m_me n0) T l i) as Hsnoc. rewrite Hnv, Z.add_0_r in Hsnoc.
  constructor; try done; [lia|]. rewrite Hsnoc.
  destruct (decide (outdated rpc (m_me n0) T (l ++ [i]))) as [Ho|Ho];
    destruct (decide (outdated rpc (m_me n0) T l)) as [Ho'|Ho']; try done;
    rewrite outdated_snoc in Ho; tauto.
Qed.

Lemma voters_snoc_le rpc me T l i :
  vsize (voters rpc me T l) ≤ vsize (voters rpc me T (l ++ [i])).
Proof. rewrite voters_snoc. case_match; lia. Qed.

(** A peer that is ahead makes the candidate step down. *)
Lemma election_inv_ahead rpc T n0 l i n v r :
  election_inv rpc T n0 l (n, v) → i ≠ m_me n0 → rpc i = Some r →
  m_currentTerm n < rvr_term r →
  election_inv rpc T n0 (l ++ [i]) (persist (step_down (rvr_term r) n), v).
Proof.
  intros [Hvec Hme Hsize Hlogs Hvotes Hstate] Hi Hrpc Hgt; cbn [fst snd] in *.
  pose proof (voters_snoc_le rpc (m_me n0) T l i).
  assert (T < rvr_term r) as HT by (case_decide; lia).
  constructor; cbn [fst snd]; try done; [lia|]. rewrite decide_True; [split; [done|exact HT]|].
  apply outdated_snoc. right. unfold newer. rewrite Hrpc. split; [done|]. by apply Z.ltb_lt.
Qed.

(** A reply that is not a vote of the present term. *)
Lemma election_inv_uncounted rpc T n0 l i n v r :
  election_inv rpc T n0 l (n, v) → i ≠ m_me n0 → rpc i = Some r →
  rvr_term r ≤ m_currentTerm n → (rvr_term r =? m_currentTerm n) && rvr_votegranted r = false →
  election_inv rpc T n0 (l ++ [i]) (n, v).
Proof.
  intros Hinv Hi Hrpc Hle Ecount. apply andb_false_iff in Ecount.
  pose proof (ei_state _ _ _ _ _ Hinv) as Hstate. cbn [fst snd] in Hstate.
  destruct (decide (outdated rpc (m_me n0) T l)) as [Ho|Ho].
  - destruct Hinv as [Hvec Hme Hsize Hlogs Hvotes _]. cbn [fst snd] in *.
    pose proof (voters_snoc_le rpc (m_me n0) T l i).
    constructor; cbn [fst snd]; try done; [lia|]. rewrite decide_True; [done|].
    apply outdated_snoc. by left.
  - destruct Hstate as [Hcur _]. apply election_inv_same; [done| |].
    + rewrite bool_decide_eq_true_2 by done. unfold vote_for. rewrite Hrpc. cbn [andb].
      destruct Ecount as [E| ->]; [|done]. rewrite Hcur in E. by rewrite E, andb_false_r.
    + unfold newer. rewrite Hrpc. intros [_ Hn]. b2p. lia.
Qed.

(** An honest vote of the present term is counted, and may win the election. *)
Lemma election_inv_counted rpc T n0 l i n v r :
  election_inv rpc T n0 l (n, v) → i ≠ m_me n0 → rpc i = Some r →
  rvr_term r = m_currentTerm n → rvr_votegranted r = true → rvr_term r = T →
  vsize (voters rpc (m_me n0) T (l ++ [i])) ≤ Z.of_nat (m_peers_size n0) - 1 →
  ∃ s', (if majority n <=? v + 1 then
           if bool_decide (m_status n = Leader) then Terminate "elected twice in a term"
           else Ok (leader_state n, 0)
         else Ok (n, v + 1)) = Ok s' ∧ election_inv rpc T n0 (l ++ [i]) s'.
Proof.
  intros [Hvec Hme Hsize Hlogs Hvotes Hstate] Hi Hrpc Eterm Egrant HrT Hbound; cbn [fst snd] in *.
  pose proof (majority_gt n0) as Hmaj.
  destruct (decide (outdated rpc (m_me n0) T l)) as [Ho|Ho]; [lia|].
  destruct Hstate as (Hcur & Hvf0 & Hst).
  pose proof (voters_snoc rpc (m_me n0) T l i) as Hsnoc.
  rewrite bool_decide_eq_true_2 in Hsnoc by done. unfold vote_for in Hsnoc.
  rewrite Hrpc, Egrant, HrT, Z.eqb_refl in Hsnoc. cbn [andb] in Hsnoc.
  assert (majority n = majority n0) as -> by (unfold majority; by rewrite Hsize).
  assert (¬ outdated rpc (m_me n0) T (l ++ [i])) as Ho'.
  { rewrite outdated_snoc. intros [?|[_ Hn]]; [done|]. unfold newer in Hn. rewrite Hrpc in Hn.
    b2p. lia. }
  destruct (Z.leb_spec (majority n0) (1 + vsize (voters rpc (m_me n0) T l))) as [Hwon|Hnot].
  - destruct Hst as [Hlead ->]. zbool. eexists. split; [done|].
    constructor; cbn [fst snd]; try done; [lia|]. rewrite decide_False by done.
    rewrite Hsnoc. zbool. repeat split; try done. lia.
  - destruct Hst as [Hcand ->].
    destruct (Z.leb_spec (majority n0) (1 + vsize (voters rpc (m_me n0) T l) + 1)) as [Hwin|Hmore].
    + rewrite bool_decide_eq_false_2 by congruence. eexists. split; [done|].
      destruct (leader_state_fields n) as
        (Hs & _ & _ & Hct & Hvd & Hlg & _ & _ & _ & Hm & Hsz & _).
      constructor; cbn [fst snd]; try congruence; [by apply leader_state_vectors| |].
      * pose proof (vsize_nonneg (voters rpc (m_me n0) T (l ++ [i]))). lia.
      * rewrite decide_False, Hsnoc by done. zbool. repeat split; try congruence; lia.
    + eexists. split; [done|]. constructor; cbn [fst snd]; try done; [lia|].
      rewrite decide_False by done. rewrite Hsnoc. zbool. repeat split; try done; lia.
Qed.

Lemma election_inv_step rpc T n0 l i s :
  (∀ j r, rpc j = Some r → rvr_votegranted r = true → rvr_term r = T) →
  vsize (voters rpc (m_me n0) T (l ++ [i])) ≤ Z.of_nat (m_peers_size n0) - 1 →
  Z.of_nat (m_peers_size n0) < 2 ^ 62 →
  election_inv rpc T n0 l s →
  ∃ s', election_peer rpc i s = Ok s' ∧ election_inv rpc T n0 (l ++ [i]) s'.
Proof.
  intros Hhon Hbound Hsmall Hinv. destruct s as [n v].
  pose proof (voters_snoc_le rpc (m_me n0) T l i).
  pose proof (ei_votes _ _ _ _ _ Hinv) as Hvotes. cbn [snd] in Hvotes.
  unfold election_peer. rewrite (ei_me _ _ _ _ _ Hinv : m_me n = m_me n0).
  destruct (Z.eqb_spec i (m_me n0)) as [Hi|Hi].
  { eexists. split; [done|]. apply election_inv_same; [done| |tauto].
    by rewrite bool_decide_eq_false_2 by auto. }
  rewrite sendRequestVote_eq; [|apply (ei_vectors _ _ _ _ _ Hinv)|lia].
  destruct (rpc i) as [r|] eqn:Hrpc.
  2:{ eexists. split; [done|]. apply election_inv_same; [done| |]; unfold vote_for, newer;
        rewrite Hrpc, ?andb_false_r; naive_solver. }
  destruct (Z.ltb_spec (m_currentTerm n) (rvr_term r)).
  { eexists. split; [done|]. by apply election_inv_ahead. }
  destruct ((rvr_term r =? m_currentTerm n) && rvr_votegranted r) eqn:Ecount.
  2:{ eexists. split; [done|]. by eapply election_inv_uncounted. }
  apply andb_true_iff in Ecount as [Eterm Egrant]. apply Z.eqb_eq in Eterm.
  destruct (election_inv_counted rpc T n0 l i n v r) as (s' & Hs' & Hinv'); try done.
  { by eapply Hhon. }
  exists s'. split; [|done]. rewrite <- Hs'. by repeat case_match.
Qed.

(** The outcome of an election.  When replies are honest (a granted vote names the
    candidate's term, which [RequestVote1] guarantees), an undisturbed [doElection]
    never reaches its assertion that a node is elected twice in a term nor leaves a
    vector, and ends in exactly one of three ways: as a follower of a newer term when
    some peer answered with one; otherwise as leader of the new term exactly when the
    votes received, with its own, are a majority; otherwise as a candidate that has
    voted for itself. *)
Theorem doElection_outcome (now : Z) (rpc : RequestVoteArgs → Z → option RequestVoteReply)
    (n : node) :
  node_ok n → m_status n ≠ Leader → 2 ≤ Z.of_nat (m_peers_size n) < 2 ^ 62 →
  (∀ args j r, rpc args j = Some r → rvr_votegranted r = true → rvr_term r = rv_term args) →
  let T := m_currentTerm n + 1 in
  let args := mkRequestVoteArgs T (m_me n) (getLastLogIndex n) (getLastLogTerm n) in
  let peers := indices (m_peers_size n) in
  ∃ n', doElection now rpc n = Ok n' ∧ vectors_ok n' ∧ m_logs n' = m_logs n ∧
    if decide (outdated (rpc args) (m_me n) T peers)
    then m_status n' = Follower ∧ T < m_currentTerm n'
    else m_currentTerm n' = T ∧ m_votedFor n' = m_me n ∧
         (m_status n' = Leader ↔
            majority n ≤ 1 + vsize (voters (rpc args) (m_me n) T peers)) ∧
         (m_status n' = Leader ∨ m_status n' = Candidate).
Proof.
  intros [Hvec Hme] Hst [Htwo Hsmall] Hhon. cbn zeta. unfold doElection, doElection_begin.
  rewrite bool_decide_eq_false_2 by done. cbn zeta.
  set (n1 := (persist _) <| m_lastResetElectionTime := now |>).
  change (getLastLogIndexAndTerm n1) with (getLastLogIndex n, getLastLogTerm n). cbn iota beta.
  change (m_currentTerm n1) with (m_currentTerm n + 1). change (m_me n1) with (m_me n).
  set (T := m_currentTerm n + 1).
  set (args := mkRequestVoteArgs T (m_me n) (getLastLogIndex n) (getLastLogTerm n)).
  change (m_peers_size n1) with (m_peers_size n).
  destruct (for_each_invariant (election_peer (rpc args)) (election_inv (rpc args) T n)
    (indices (m_peers_size n)) (n1, 1)) as ([n' v] & Hrun & Hinv).
  - constructor; cbn [fst snd]; try done. rewrite decide_False by (unfold outdated; rewrite Exists_nil; tauto).
    split; [done|]. split; [done|]. change (vsize (voters (rpc args) (m_me n) T [])) with 0.
    pose proof (majority_gt n). by destruct (Z.leb_spec (majority n) (1 + 0)); [lia|].
  - intros l1 i l2 s Hl Hinv. apply election_inv_step; try done.
    + intros j r Hj Hg. exact (Hhon args j r Hj Hg).
    + apply (voters_bound _ _ _ (l1 ++ [i]) l2); [by rewrite <- app_assoc|done].
  - rewrite Hrun. eexists. split; [done|].
    destruct Hinv as [Hv1 Hm1 Hs1 Hl1 _ Hstate]; cbn [fst snd] in *.
    split; [done|]. split; [done|].
    case_decide; [done|]. destruct Hstate as (? & ? & Hstate).
    split; [done|]. split; [done|].
    destruct (Z.leb_spec (majority n) (1 + vsize (voters (rpc args) (m_me n) T
      (indices (m_peers_size n))))); destruct Hstate as [-> _]; (split; [|auto]);
      split; done || lia.
Qed.
End whole_election.

(** A three-node election: peer 1 grants, peer 2 is unreachable. *)
Definition demo_follower : node :=
  mkNode 3 0 (mkStore "" "") 4 (-1) [mkLogEntry "a" 1 1] 0 0 [0; 0; 0] [0; 0; 0] Follower []
    0 0 0 0 [0; 0; 0] [false; false; false] (replicate 3 (mkPendingEntries [] 0 0)) false false
    (replicate 3 (mkPeerPipelineState [] ∅ 0)) 0 0.
Definition demo_votes (args : RequestVoteArgs) (i : Z) : option RequestVoteReply :=
  if i =? 1 then Some (mkRequestVoteReply (rv_term args) true Normal) else None.

Lemma doElection_outcome_witness :
  ∃ n', doElection (Ar := bit_archive) 9 demo_votes demo_follower = Ok n' ∧
    m_status n' = Leader ∧ m_currentTerm n' = 5.
Proof.
  destruct (doElection_outcome (Ar := bit_archive) 9 demo_votes demo_follower)
    as (n' & Hrun & _ & _ & Hres).
  - split; [by repeat split|split; [discriminate|reflexivity]].
  - discriminate.
  - split; [discriminate|reflexivity].
  - intros args j r. unfold demo_votes. case_match; intros [= <-] _. done.
  - exists n'. split; [exact Hrun|]. rewrite decide_False in Hres.
    + destruct Hres as (Ht & _ & Hl & _). split; [|exact Ht]. apply Hl.
      vm_compute. discriminate.
    + apply (bool_decide_unpack _). vm_compute. exact I.
Defined.

(** ** The pre-vote *)

(** The pre-vote predicts the vote.  [PreRequestVote1] changes nothing (it returns
    only a reply), reports the node's term, and when it grants, the same node in the
    same state grants a real request with the same arguments for a newer term. *)
Theorem prevote_predicts_vote `{Ar : BoostArchive} (now : Z) (args : PreRequestVoteArgs)
    (n : node) :
  prvr_term (PreRequestVote1 args n) = m_currentTerm n ∧
  (prvr_votegranted (PreRequestVote1 args n) = true → m_currentTerm n < prv_term args →
   m_status n ≠ Leader ∧
   ∃ n' r, RequestVote1 now (mkRequestVoteArgs (prv_term args) (prv_candidateid args)
               (prv_lastlogindex args) (prv_lastlogterm args)) n = Ok (n', r) ∧
     rvr_votegranted r = true).
Proof.
  unfold PreRequestVote1.
  destruct (Z.ltb_spec (prv_term args) (m_currentTerm n)); [split; [done|]; cbn; lia|].
  destruct (UPtodata _ _ n) eqn:EU; cbn [negb]; [|done].
  destruct (bool_decide (m_status n = Leader)) eqn:ES; [done|]. split; [done|].
  intros _ Hlt. apply bool_decide_eq_false in ES. split; [done|].
  set (rv := mkRequestVoteArgs _ _ _ _).
  destruct (RequestVote1_eq now rv n) as [vs ->]. eexists _, _. split; [done|].
  cbn [rvr_votegranted]. unfold grants. cbn [rv rv_term rv_lastlogindex rv_lastlogterm].
  rewrite EU. by zbool.
Qed.

Lemma prevote_predicts_vote_witness :
  ∃ n' r, RequestVote1 (Ar := bit_archive) 9 (mkRequestVoteArgs 5 1 1 1) demo_follower = Ok (n', r) ∧
    rvr_votegranted r = true.
Proof.
  destruct (prevote_predicts_vote (Ar := bit_archive) 9 (mkPreRequestVoteArgs 5 1 1 1)
    demo_follower) as [_ H].
  apply H; [by vm_compute|by vm_compute].
Defined.
