(* ===== verification/RaftReplication.v ===== *)
(** Log replication in [src/Raft/Raft.cpp]: the follower's [AppendEntries1] and
    [InstallSnapshot1], and the leader's [doHeartBeat], [sendAppendEntries] (with the
    functions it is split into) and [leaderSendSnapShot]. *)
From S2P Require Import Prelude OpCoder Persister RaftTypes RaftLog RaftElection.
Open Scope Z_scope.

Section replication.
Context `{Ar : BoostArchive}.

(** ** The follower *)

(** The body of the loop over [args->entries]. *)
Definition append_entry (log : LogEntry) (n : node) : outcome node :=
  if getLastLogIndex n <? logindex log then Ok (n <| m_logs := m_logs n ++ [log] |>)
  else
    let sliceIdx := getSlicesIndexFromLogIndex (logindex log) n in
    local ← vec_at "m_logs" (m_logs n) sliceIdx;
    _ ← myAssert (negb ((logterm local =? logterm log) &&
                        negb (bool_decide (command local = command log))))
          "same index and term, different command";
    if negb (logterm local =? logterm log) then
      logs ← vec_set "m_logs" (m_logs n) sliceIdx log;
      Ok (n <| m_logs := logs |>)
    else Ok n.

(** The backward search for the first index of another term; [fuel] counts down to
    the snapshot point. *)
Fixpoint conflict_index (fuel : nat) (index prev : Z) (n : node) : outcome (option Z) :=
  match fuel with
  | O => Ok None
  | S fuel' =>
      if index <? m_lastSnapshotIncludeIndex n then Ok None else
      t ← getLogTermFromLogIndex index n;
      tp ← getLogTermFromLogIndex prev n;
      if negb (t =? tp) then Ok (Some (index + 1))
      else conflict_index fuel' (index - 1) prev n
  end.

(** The part of [AppendEntries1] after the term checks. *)
Definition append_checked (args : AppendEntriesArgs) (reply : AppendEntriesReply) (n : node)
    : outcome (node * AppendEntriesReply) :=
  if getLastLogIndex n <? ae_prevlogindex args then
    Ok (persist n, reply <| aer_success := false |> <| aer_term := m_currentTerm n |>
                         <| aer_updatenextindex := getLastLogIndex n + 1 |>)
  else if ae_prevlogindex args <? m_lastSnapshotIncludeIndex n then
    Ok (persist n, reply <| aer_success := false |> <| aer_term := m_currentTerm n |>
                         <| aer_updatenextindex := m_lastSnapshotIncludeIndex n + 1 |>)
  else
  matched ← matchLog (ae_prevlogindex args) (ae_prevlogterm args) n;
  if (matched : bool) then
    n ← for_each append_entry (ae_entries args) n;
    _ ← myAssert (ae_prevlogindex args + vsize (ae_entries args) <=? getLastLogIndex n)
          "rf.getLastLogIndex() != args.PrevLogIndex+len(args.Entries)";
    let n := if m_commitIndex n <? ae_leadercommit args
             then n <| m_commitIndex := Z.min (ae_leadercommit args) (getLastLogIndex n) |>
             else n in
    _ ← myAssert (m_commitIndex n <=? getLastLogIndex n) "rf.getLastLogIndex < rf.commitIndex";
    Ok (persist n, reply <| aer_success := true |> <| aer_term := m_currentTerm n |>)
  else
    found ← conflict_index
              (Z.to_nat (ae_prevlogindex args - m_lastSnapshotIncludeIndex n + 1))
              (ae_prevlogindex args) (ae_prevlogindex args) n;
    Ok (persist n,
        reply <| aer_updatenextindex := default (ae_prevlogindex args) found |>
              <| aer_success := false |> <| aer_term := m_currentTerm n |>).

Definition AppendEntries1 (now : Z) (args : AppendEntriesArgs) (n : node)
    : outcome (node * AppendEntriesReply) :=
  let reply := fresh_AppendEntriesReply <| aer_appstate := AppNormal |> in
  if ae_term args <? m_currentTerm n then
    Ok (n, reply <| aer_success := false |> <| aer_term := m_currentTerm n |>
                 <| aer_updatenextindex := -100 |>)
  else
  let n := if m_currentTerm n <? ae_term args
           then n <| m_status := Follower |> <| m_currentTerm := ae_term args |>
                  <| m_votedFor := -1 |>
           else n in
  _ ← myAssert (ae_term args =? m_currentTerm n) "args.Term == rf.currentTerm";
  let n := n <| m_status := Follower |> <| m_lastResetElectionTime := now |> in
  append_checked args reply n.

Definition InstallSnapshot1 (request : InstallSnapshotRequest) (n : node)
    : node * InstallSnapshotResponse :=
  if is_term request <? m_currentTerm n then (n, mkInstallSnapshotResponse (m_currentTerm n))
  else
  let n := if m_currentTerm n <? is_term request
           then persist (n <| m_status := Follower |> <| m_currentTerm := is_term request |>
                           <| m_votedFor := -1 |>)
           else n in
  let snapIndex := is_lastsnapshotincludeindex request in
  let snapTerm := is_lastsnapshotincludeterm request in
  let n := if m_lastSnapshotIncludeIndex n <? snapIndex then
             let n := n <| m_lastSnapshotIncludeIndex := snapIndex |>
                        <| m_lastSnapshotIncludeTerm := snapTerm |> in
             let n := if m_commitIndex n <? m_lastSnapshotIncludeIndex n
                      then n <| m_commitIndex := m_lastSnapshotIncludeIndex n |> else n in
             if m_lastApplied n <? m_lastSnapshotIncludeIndex n
             then n <| m_lastApplied := m_lastSnapshotIncludeIndex n |> else n
           else n in
  let n := persist_with_snapshot (is_snapshotdata request) n in
  (n, mkInstallSnapshotResponse (m_currentTerm n)).

(** ** The leader: what it sends *)

(** The empty heartbeat of [startLogEntriesSendThread]. *)
Definition startLogEntriesSendThread (peerId : Z) (n : node) : outcome AppendEntriesArgs :=
  next ← vec_at "m_nextIndex" (m_nextIndex n) peerId;
  prevterm ← getLogTermFromLogIndex (next - 1) n;
  Ok (mkAppendEntriesArgs (m_currentTerm n) (m_me n) (next - 1) prevterm []
        (m_commitIndex n) 0).

(** [startSnapshotSendThread] captures these arguments for the thread. *)
Definition startSnapshotSendThread (n : node) : Z * Z * string :=
  (m_lastSnapshotIncludeIndex n, m_lastSnapshotIncludeTerm n, st_snapshot (m_persister n)).

(** What a heartbeat round hands to a thread. *)
Inductive outgoing :=
  | OutAppend (peerId : Z) (args : AppendEntriesArgs)
  | OutSnapshot (peerId snapshotIndex snapshotTerm : Z) (snapshotData : string).

Definition heartbeat_peer (peerId : Z) (s : node * list outgoing)
    : outcome (node * list outgoing) :=
  let '(n, out) := s in
  if peerId =? m_me n then Ok (n, out) else
  next ← vec_at "m_nextIndex" (m_nextIndex n) peerId;
  n ← (if next <? 1 then
         v ← vec_set "m_nextIndex" (m_nextIndex n) peerId 1; Ok (n <| m_nextIndex := v |>)
       else Ok n);
  next ← vec_at "m_nextIndex" (m_nextIndex n) peerId;
  if next <=? m_lastSnapshotIncludeIndex n then
    let '(i, t, d) := startSnapshotSendThread n in Ok (n, out ++ [OutSnapshot peerId i t d])
  else
    args ← startLogEntriesSendThread peerId n;
    Ok (n, out ++ [OutAppend peerId args]).

Definition doHeartBeat (now : Z) (n : node) : outcome (node * list outgoing) :=
  if negb (bool_decide (m_status n = Leader)) then Ok (n, []) else
  '(n, out) ← for_each heartbeat_peer (indices (m_peers_size n)) (n, []);
  Ok (n <| m_lastResetHearBeatTime := now |>, out).

(** The request of [leaderSendSnapShot]; the term is read when the thread runs. *)
Definition leaderSendSnapShot_request (snapshotIndex snapshotTerm : Z)
    (snapshotData : string) (n : node) : InstallSnapshotRequest :=
  mkInstallSnapshotRequest (m_me n) (m_currentTerm n) snapshotIndex snapshotTerm snapshotData.

(** ** The leader: what it does with replies *)

Definition leaderSendSnapShot (peerId snapshotIndex : Z)
    (resp : option InstallSnapshotResponse) (successCount : Z) (n : node)
    : outcome (node * Z) :=
  match resp with
  | None => Ok (n, successCount)
  | Some resp =>
      if m_currentTerm n <? isr_term resp then
        Ok (persist (n <| m_status := Follower |> <| m_currentTerm := isr_term resp |>
                       <| m_votedFor := -1 |>), successCount)
      else
      next ← vec_set "m_nextIndex" (m_nextIndex n) peerId (snapshotIndex + 1);
      match_ ← vec_set "m_matchIndex" (m_matchIndex n) peerId snapshotIndex;
      let n := n <| m_nextIndex := next |> <| m_matchIndex := match_ |> in
      n ← leaderUpdateCommitIndex n;
      Ok (n, successCount + 1)
  end.

(** [callAppendEntriesRpc]: the reply, unless the RPC failed or the peer is
    disconnected. *)
Definition callAppendEntriesRpc (rpc : option AppendEntriesReply)
    : option AppendEntriesReply :=
  match rpc with
  | None => None
  | Some reply => if aer_appstate reply =? Disconnected then None else Some reply
  end.

Definition handleTermMismatch (replyTerm : Z) (n : node) : node * bool :=
  if m_currentTerm n <? replyTerm then
    (persist (n <| m_status := Follower |> <| m_currentTerm := replyTerm |>
                <| m_votedFor := -1 |>), true)
  else if replyTerm <? m_currentTerm n then (n, true)
  else (n, false).

Definition isStillLeader (n : node) : bool := bool_decide (m_status n = Leader).

Definition handleLogMismatch (peerId : Z) (reply : AppendEntriesReply) (n : node)
    : outcome node :=
  if negb (aer_updatenextindex reply =? -100) then
    let nextIdx := aer_updatenextindex reply in
    let nextIdx := if nextIdx <? 1 then 1 else nextIdx in
    let nextIdx := if nextIdx <=? m_lastSnapshotIncludeIndex n
                   then m_lastSnapshotIncludeIndex n + 1 else nextIdx in
    v ← vec_set "m_nextIndex" (m_nextIndex n) peerId nextIdx;
    Ok (n <| m_nextIndex := v |>)
  else Ok n.

(** [slidePipelineWindow]: batches wholly acknowledged leave the window. *)
Definition slidePipelineWindow (peerId up_to_index : Z) (n : node) : outcome node :=
  p ← vec_at "m_peerPipeline" (m_peerPipeline n) peerId;
  let to_remove := filter (λ ib, pb_last_index ib.2 ≤ up_to_index) (in_flight p) in
  let p := p <| in_flight := in_flight p ∖ to_remove |> in
  v ← vec_set "m_peerPipeline" (m_peerPipeline n) peerId p;
  Ok (n <| m_peerPipeline := v |>
        <| m_total_batches_acked := m_total_batches_acked n + Z.of_nat (size to_remove) |>).

Definition handlePipelineResponse (peerId matched_index : Z) (n : node) : outcome node :=
  slidePipelineWindow peerId matched_index n.

Definition updatePeerSyncState (peerId : Z) (args : AppendEntriesArgs) (appendNums : Z)
    (n : node) : outcome (node * Z) :=
  let appendNums := appendNums + 1 in
  let newMatchIndex := ae_prevlogindex args + vsize (ae_entries args) in
  old ← vec_at "m_matchIndex" (m_matchIndex n) peerId;
  mi ← vec_set "m_matchIndex" (m_matchIndex n) peerId (Z.max old newMatchIndex);
  let n := n <| m_matchIndex := mi |> in
  ni ← vec_set "m_nextIndex" (m_nextIndex n) peerId (Z.max old newMatchIndex + 1);
  let n := n <| m_nextIndex := ni |> in
  n ← (if 0 <? vsize (ae_entries args)
       then handlePipelineResponse peerId (Z.max old newMatchIndex) n else Ok n);
  let lastLogIndex := getLastLogIndex n in
  _ ← myAssert (Z.max old newMatchIndex <=? lastLogIndex + 1) "m_matchIndex > lastLogIndex";
  Ok (n, appendNums).

Definition tryUpdateCommitIndex (args : AppendEntriesArgs) (appendNums : Z) (n : node)
    : outcome (node * Z) :=
  if to_size_t appendNums <? Z.of_nat (m_peers_size n) / 2 + 1 then Ok (n, appendNums)
  else
  let n := match last (ae_entries args) with
           | Some e => if logterm e =? m_currentTerm n
                       then n <| m_commitIndex := Z.max (m_commitIndex n)
                                   (ae_prevlogindex args + vsize (ae_entries args)) |>
                       else n
           | None => n
           end in
  let lastLogIndex := getLastLogIndex n in
  _ ← myAssert (m_commitIndex n <=? lastLogIndex) "m_commitIndex > lastLogIndex";
  Ok (n, 0).

(** [sendAppendEntries] once the RPC returned: new state, new [*appendNums] and the
    result. *)
Definition sendAppendEntries (peerId : Z) (args : AppendEntriesArgs)
    (rpc : option AppendEntriesReply) (appendNums : Z) (n : node)
    : outcome (node * Z * bool) :=
  match callAppendEntriesRpc rpc with
  | None => Ok (n, appendNums, false)
  | Some reply =>
      let '(n, stop) := handleTermMismatch (aer_term reply) n in
      if stop then Ok (n, appendNums, true)
      else if negb (isStillLeader n) then Ok (n, appendNums, true)
      else
      _ ← myAssert (aer_term reply =? m_currentTerm n) "reply.Term != rf.currentTerm";
      if negb (aer_success reply) then
        n ← handleLogMismatch peerId reply n;
        Ok (n, appendNums, true)
      else
      '(n, appendNums) ← updatePeerSyncState peerId args appendNums n;
      '(n, appendNums) ← tryUpdateCommitIndex args appendNums n;
      Ok (n, appendNums, true)
  end.
End replication.

#[local] Arguments upd : simpl never.

(** ** The follower's log *)

(** What the accepted entries make of a log: they replace what was at their positions
    and, if they reach past the end, extend it.  Nothing after them is cut. *)
Definition overlay (p : nat) (es l : list LogEntry) : list LogEntry :=
  take p l ++ es ++ drop (p + length es) l.

Lemma overlay_length p es l :
  (p ≤ length l)%nat → length (overlay p es l) = Nat.max (length l) (p + length es).
Proof.
  intros. unfold overlay. rewrite !length_app, length_take, length_drop. lia.
Qed.

Lemma overlay_lookup p es l k :
  (p ≤ length l)%nat →
  overlay p es l !! k =
    if decide (p ≤ k < p + length es)%nat then es !! (k - p)%nat else l !! k.
Proof.
  intros Hp. unfold overlay. case_decide as Hk.
  - rewrite lookup_app_r by (rewrite length_take; lia). rewrite length_take, Nat.min_l by lia.
    rewrite lookup_app_l by lia. done.
  - destruct (decide (k < p)%nat).
    + rewrite lookup_app_l by (rewrite length_take; lia). by rewrite lookup_take_lt by lia.
    + rewrite lookup_app_r by (rewrite length_take; lia). rewrite length_take, Nat.min_l by lia.
      rewrite lookup_app_r by lia. rewrite lookup_drop. f_equal. lia.
Qed.

(** Entry [e] at position [p]: replaced, or appended at the end. *)
Definition put_entry (p : nat) (e : LogEntry) (l : list LogEntry) : list LogEntry :=
  if decide (p < length l)%nat then <[p := e]> l else l ++ [e].

Lemma put_entry_length p e l :
  (p ≤ length l)%nat → length (put_entry p e l) = Nat.max (length l) (S p).
Proof.
  intros. unfold put_entry. case_decide; [rewrite length_insert|rewrite length_app; cbn]; lia.
Qed.

Lemma put_entry_lookup p e l k :
  (p ≤ length l)%nat →
  put_entry p e l !! k = if decide (k = p) then Some e else l !! k.
Proof.
  intros Hp. unfold put_entry. case_decide as Hl; case_decide as Hk; subst.
  - by rewrite list_lookup_insert_eq.
  - by rewrite list_lookup_insert_ne.
  - rewrite lookup_app_r by lia. by replace (p - length l)%nat with 0%nat by lia.
  - destruct (decide (k < length l)%nat); [by rewrite lookup_app_l by lia|].
    rewrite lookup_app_r by lia. rewrite (lookup_ge_None_2 l k) by lia.
    apply lookup_ge_None_2. cbn. lia.
Qed.

Lemma overlay_cons p e es l :
  (p ≤ length l)%nat → overlay p (e :: es) l = overlay (S p) es (put_entry p e l).
Proof.
  intros Hp. apply list_eq. intros k. pose proof (put_entry_length p e l Hp).
  rewrite !overlay_lookup, put_entry_lookup by lia. cbn [length].
  destruct (decide (k = p)) as [->|].
  { rewrite decide_True, decide_False, Nat.sub_diag by lia. done. }
  repeat case_decide; try lia; try done.
  replace (k - p)%nat with (S (k - S p)) by lia. done.
Qed.

Lemma overlay_nil p l : overlay p [] l = l.
Proof. unfold overlay. cbn. rewrite Nat.add_0_r. apply take_drop. Qed.

(** The entries agree with the local log wherever index and term coincide. *)
Definition entries_agree (p : nat) (es l : list LogEntry) : Prop :=
  ∀ k e local, es !! k = Some e → l !! (p + k)%nat = Some local →
    logterm local = logterm e → command local = command e.

(** The entries carry consecutive indices from [i] on. *)
Definition entries_from (i : Z) (es : list LogEntry) : Prop :=
  ∀ k e, es !! k = Some e → logindex e = i + Z.of_nat k.

Section append.
Context `{Ar : BoostArchive}.

Lemma append_entry_eq e n (p : nat) :
  log_ok n → logindex e = m_lastSnapshotIncludeIndex n + 1 + Z.of_nat p →
  (p ≤ length (m_logs n))%nat → entries_agree p [e] (m_logs n) →
  append_entry e n = Ok (n <| m_logs := put_entry p e (m_logs n) |>).
Proof.
  intros Hok Hidx Hp Hagree. unfold append_entry, getLastLogIndex, vsize.
  destruct (Z.ltb_spec (m_lastSnapshotIncludeIndex n + Z.of_nat (length (m_logs n))) (logindex e)).
  { unfold put_entry. rewrite decide_False by lia. done. }
  destruct (lookup_lt_is_Some_2 (m_logs n) p) as [local Hlocal]; [lia|].
  assert (getSlicesIndexFromLogIndex (logindex e) n = Z.of_nat p) as ->.
  { unfold getSlicesIndexFromLogIndex. zbool. lia. }
  assert (vec_at "m_logs" (m_logs n) (Z.of_nat p) = Ok local) as ->.
  { apply vec_at_Ok. rewrite Nat2Z.id. split; [lia|done]. }
  cbn [mbind outcome_bind]. unfold put_entry. rewrite decide_True by lia.
  destruct (Z.eqb_spec (logterm local) (logterm e)) as [Ht|Ht]; cbn [negb andb].
  - assert (command local = command e) as Hc.
    { apply (Hagree 0%nat e local); [done|by rewrite Nat.add_0_r|done]. }
    rewrite bool_decide_eq_true_2 by done. cbn [negb myAssert mbind outcome_bind].
    assert (local = e) as ->.
    { pose proof (Hok _ _ Hlocal). destruct local, e; cbn in *. f_equal; done || lia. }
    rewrite list_insert_id by done. by destruct n.
  - cbn [myAssert mbind outcome_bind]. unfold vec_set. rewrite decide_True by lia.
    by rewrite Nat2Z.id.
Qed.

Lemma log_ok_put e n (p : nat) :
  log_ok n → logindex e = m_lastSnapshotIncludeIndex n + 1 + Z.of_nat p →
  (p ≤ length (m_logs n))%nat → log_ok (n <| m_logs := put_entry p e (m_logs n) |>).
Proof.
  unfold log_ok. upd_simpl. intros Hok Hidx Hp k e'. rewrite put_entry_lookup by done.
  case_decide; [intros [= <-]; subst; done|]. apply Hok.
Qed.

Lemma append_loop es n (p : nat) :
  log_ok n → entries_from (m_lastSnapshotIncludeIndex n + 1 + Z.of_nat p) es →
  (p ≤ length (m_logs n))%nat → entries_agree p es (m_logs n) →
  for_each append_entry es n = Ok (n <| m_logs := overlay p es (m_logs n) |>) ∧
  log_ok (n <| m_logs := overlay p es (m_logs n) |>).
Proof.
  revert n p. induction es as [|e es IH]; intros n p Hok Hfrom Hp Hagree.
  { rewrite overlay_nil. by destruct n. }
  assert (logindex e = m_lastSnapshotIncludeIndex n + 1 + Z.of_nat p) as Hidx.
  { rewrite (Hfrom 0%nat e) by done. lia. }
  cbn [for_each]. rewrite (append_entry_eq e n p Hok Hidx Hp).
  2:{ intros k e' local He' Hl Ht. destruct k; [|done]. apply (Hagree 0%nat e'); done. }
  cbn [mbind outcome_bind]. rewrite overlay_cons by done.
  destruct (IH (n <| m_logs := put_entry p e (m_logs n) |>) (S p)) as [-> Hok'].
  - by apply log_ok_put.
  - upd_simpl. intros k e' He'. rewrite (Hfrom (S k) e') by done. lia.
  - upd_simpl. rewrite put_entry_length by done. lia.
  - upd_simpl. intros k e' local He' Hl Ht. rewrite put_entry_lookup in Hl by done.
    rewrite decide_False in Hl by lia. apply (Hagree (S k) e'); [done| |done].
    by replace (p + S k)%nat with (S p + k)%nat by lia.
  - split; [done|exact Hok'].
Qed.
End append.

(** ** [AppendEntries1], branch by branch *)

Section append_entries.
Context `{Ar : BoostArchive}.

(** The state in which the log is examined. *)
Definition ae_state (now : Z) (args : AppendEntriesArgs) (n : node) : node :=
  (adopt_term (ae_term args) n) <| m_status := Follower |> <| m_lastResetElectionTime := now |>.

Definition ae_reply : AppendEntriesReply :=
  fresh_AppendEntriesReply <| aer_appstate := AppNormal |>.

Lemma AppendEntries1_checked now args n :
  m_currentTerm n ≤ ae_term args →
  AppendEntries1 now args n = append_checked args ae_reply (ae_state now args n).
Proof.
  intros Ht. unfold AppendEntries1. zbool.
  change (if m_currentTerm n <? ae_term args then _ else n) with (adopt_term (ae_term args) n).
  replace (ae_term args =? m_currentTerm (adopt_term (ae_term args) n)) with true
    by (rewrite adopt_term_term by done; by rewrite Z.eqb_refl).
  reflexivity.
Qed.

Lemma AppendEntries1_stale now args n :
  ae_term args < m_currentTerm n →
  AppendEntries1 now args n =
    Ok (n, ae_reply <| aer_success := false |> <| aer_term := m_currentTerm n |>
                    <| aer_updatenextindex := -100 |>).
Proof. intros Ht. unfold AppendEntries1. by zbool. Qed.

(** Adopting a term and resetting the timer leave the log and indices alone. *)
Lemma ae_state_fields now args n :
  m_logs (ae_state now args n) = m_logs n ∧
  m_commitIndex (ae_state now args n) = m_commitIndex n ∧
  m_lastSnapshotIncludeIndex (ae_state now args n) = m_lastSnapshotIncludeIndex n ∧
  m_lastSnapshotIncludeTerm (ae_state now args n) = m_lastSnapshotIncludeTerm n ∧
  m_lastApplied (ae_state now args n) = m_lastApplied n ∧
  m_status (ae_state now args n) = Follower ∧
  m_currentTerm (ae_state now args n) = Z.max (m_currentTerm n) (ae_term args) ∧
  m_votedFor (ae_state now args n) =
    (if m_currentTerm n <? ae_term args then -1 else m_votedFor n) ∧
  m_persister (ae_state now args n) = m_persister n.
Proof.
  unfold ae_state. upd_simpl. rewrite adopt_term_max. unfold adopt_term, step_down.
  destruct (m_currentTerm n <? ae_term args); by repeat split.
Qed.

(** Same log and snapshot point. *)
Definition same_log (n n' : node) : Prop :=
  m_logs n' = m_logs n ∧ m_lastSnapshotIncludeIndex n' = m_lastSnapshotIncludeIndex n ∧
  m_lastSnapshotIncludeTerm n' = m_lastSnapshotIncludeTerm n.

Lemma same_log_last n n' : same_log n n' → getLastLogIndex n' = getLastLogIndex n.
Proof. unfold same_log, getLastLogIndex. by intros (-> & -> & _). Qed.
Lemma same_log_entry n n' i : same_log n n' → log_entry n' i = log_entry n i.
Proof. unfold same_log, log_entry. by intros (-> & -> & _). Qed.
Lemma same_log_match n n' i t : same_log n n' → matchLog i t n' = matchLog i t n.
Proof.
  intros H. rewrite !matchLog_spec, (same_log_entry n n' i H). by destruct H as (_ & -> & ->).
Qed.
Lemma same_log_term n n' i :
  same_log n n' → getLogTermFromLogIndex i n' = getLogTermFromLogIndex i n.
Proof.
  intros H. rewrite !getLogTerm_spec, (same_log_entry n n' i H). by destruct H as (_ & -> & ->).
Qed.
Lemma same_log_ok n n' : same_log n n' → log_ok n → log_ok n'.
Proof. unfold same_log, log_ok. by intros (-> & -> & _). Qed.
Lemma ae_state_same_log now args n : same_log n (ae_state now args n).
Proof. unfold same_log. destruct (ae_state_fields now args n) as (-> & _ & -> & -> & _). done. Qed.

Lemma overlay_entry n p es i :
  (p ≤ length (m_logs n))%nat →
  log_entry (n <| m_logs := overlay p es (m_logs n) |>) i =
    let prev := m_lastSnapshotIncludeIndex n + Z.of_nat p in
    if decide (prev < i ≤ prev + vsize es) then es !! Z.to_nat (i - prev - 1)
    else log_entry n i.
Proof.
  intros Hp. unfold log_entry. upd_simpl. cbn zeta.
  destruct (decide (m_lastSnapshotIncludeIndex n < i)) as [Hi|Hi].
  - rewrite overlay_lookup by done. unfold vsize.
    repeat case_decide; try lia; f_equal; lia.
  - rewrite decide_False by lia. done.
Qed.

(** The commit index after an accepted request. *)
Definition commit_after (args : AppendEntriesArgs) (last commit : Z) : Z :=
  if commit <? ae_leadercommit args then Z.min (ae_leadercommit args) last else commit.

Lemma append_checked_accept args reply n (p : nat) :
  log_ok n → m_commitIndex n ≤ getLastLogIndex n →
  ae_prevlogindex args = m_lastSnapshotIncludeIndex n + Z.of_nat p →
  (p ≤ length (m_logs n))%nat →
  matchLog (ae_prevlogindex args) (ae_prevlogterm args) n = Ok true →
  entries_from (ae_prevlogindex args + 1) (ae_entries args) →
  entries_agree p (ae_entries args) (m_logs n) →
  let n1 := n <| m_logs := overlay p (ae_entries args) (m_logs n) |> in
  append_checked args reply n =
    Ok (persist (n1 <| m_commitIndex :=
                      commit_after args (getLastLogIndex n1) (m_commitIndex n) |>),
        reply <| aer_success := true |> <| aer_term := m_currentTerm n |>) ∧
  log_ok n1 ∧
  getLastLogIndex n1 = Z.max (getLastLogIndex n) (ae_prevlogindex args + vsize (ae_entries args)).
Proof.
  intros Hok Hc Hprev Hp Hmatch Hfrom Hagree. cbn zeta.
  destruct (append_loop (ae_entries args) n p) as [Hrun Hok1]; [done| |done|done|].
  { replace (m_lastSnapshotIncludeIndex n + 1 + Z.of_nat p) with (ae_prevlogindex args + 1)
      by lia. done. }
  set (n1 := n <| m_logs := overlay p (ae_entries args) (m_logs n) |>) in *.
  assert (getLastLogIndex n1 =
    Z.max (getLastLogIndex n) (ae_prevlogindex args + vsize (ae_entries args))) as Hlast.
  { unfold getLastLogIndex, n1. upd_simpl. unfold vsize. rewrite overlay_length by done. lia. }
  split; [|done]. unfold append_checked.
  assert (ae_prevlogindex args ≤ getLastLogIndex n) by (unfold getLastLogIndex, vsize; lia).
  zbool. rewrite Hmatch. cbn [mbind outcome_bind]. rewrite Hrun. cbn [mbind outcome_bind].
  zbool. cbn [myAssert mbind outcome_bind].
  change (m_commitIndex n1) with (m_commitIndex n). unfold commit_after.
  destruct (Z.ltb_spec (m_commitIndex n) (ae_leadercommit args)).
  - change (getLastLogIndex (n1 <| m_commitIndex := _ |>)) with (getLastLogIndex n1).
    change (m_commitIndex (n1 <| m_commitIndex := ?c |>)) with c.
    zbool. cbn [myAssert mbind outcome_bind]. reflexivity.
  - change (m_commitIndex n1) with (m_commitIndex n). zbool.
    cbn [myAssert mbind outcome_bind].
    replace (n1 <| m_commitIndex := m_commitIndex n |>) with n1 by (by destruct n).
    reflexivity.
Qed.

(** What makes an [AppendEntries] request acceptable: its previous entry is in the
    log (or is the snapshot point), it is numbered consecutively, and it agrees with
    the log wherever index and term coincide. *)
Record acceptable (args : AppendEntriesArgs) (n : node) : Prop := {
  ac_term : m_currentTerm n ≤ ae_term args;
  ac_prev : m_lastSnapshotIncludeIndex n ≤ ae_prevlogindex args ≤ getLastLogIndex n;
  ac_match : matchLog (ae_prevlogindex args) (ae_prevlogterm args) n = Ok true;
  ac_from : entries_from (ae_prevlogindex args + 1) (ae_entries args);
  ac_agree : ∀ e local, e ∈ ae_entries args → log_entry n (logindex e) = Some local →
    logterm local = logterm e → command local = command e
}.

Lemma acceptable_agree args n :
  acceptable args n →
  entries_agree (Z.to_nat (ae_prevlogindex args - m_lastSnapshotIncludeIndex n))
    (ae_entries args) (m_logs n).
Proof.
  intros [_ Hprev _ Hfrom Hagree] k e local He Hl. apply (Hagree e local).
  - by eapply list_elem_of_lookup_2.
  - rewrite (Hfrom k e He). unfold log_entry. rewrite decide_True by lia.
    rewrite <- Hl. f_equal. lia.
Qed.

Lemma AppendEntries1_accept_eq now args n :
  log_ok n → m_commitIndex n ≤ getLastLogIndex n → acceptable args n →
  let n0 := ae_state now args n in
  let p := Z.to_nat (ae_prevlogindex args - m_lastSnapshotIncludeIndex n) in
  let n1 := n0 <| m_logs := overlay p (ae_entries args) (m_logs n) |> in
  AppendEntries1 now args n =
    Ok (persist (n1 <| m_commitIndex :=
                      commit_after args (getLastLogIndex n1) (m_commitIndex n) |>),
        ae_reply <| aer_success := true |> <| aer_term := ae_term args |>) ∧
  log_ok n1 ∧
  getLastLogIndex n1 = Z.max (getLastLogIndex n) (ae_prevlogindex args + vsize (ae_entries args)).
Proof.
  intros Hok Hc Hacc. pose proof Hacc as [Ht Hprev Hmatch Hfrom _]. cbn zeta.
  pose proof (ae_state_same_log now args n) as Hsame.
  pose proof (same_log_last _ _ Hsame) as Hlast.
  destruct (ae_state_fields now args n) as (Hl & Hcm & Hs & _ & _ & _ & Hterm & _).
  rewrite AppendEntries1_checked by done.
  destruct (append_checked_accept args ae_reply (ae_state now args n)
    (Z.to_nat (ae_prevlogindex args - m_lastSnapshotIncludeIndex n))) as (-> & Hok1 & Hlast1).
  - by eapply same_log_ok.
  - by rewrite Hcm, Hlast.
  - rewrite Hs. lia.
  - rewrite Hl. unfold getLastLogIndex, vsize in Hprev. lia.
  - by rewrite (same_log_match _ _ _ _ Hsame).
  - done.
  - rewrite Hl. by apply acceptable_agree.
  - rewrite Hl in Hok1, Hlast1 |- *. rewrite Hlast in Hlast1.
    rewrite Hcm, Hterm, Z.max_r by done. done.
Qed.

(** C12: the accepting branch of [AppendEntries1].  An acceptable request is answered
    with success and the leader's term; every entry sent is then at its index, the
    entries before and {e after} them are the ones that were there, the log stays
    well formed and never shrinks, the commit index becomes the leader's as far as the
    log reaches and never decreases, and all of it is on disk before the reply. *)
Theorem AppendEntries1_accepts (now : Z) (args : AppendEntriesArgs) (n : node) :
  log_ok n → m_commitIndex n ≤ getLastLogIndex n → acceptable args n →
  ∃ n' r, AppendEntries1 now args n = Ok (n', r) ∧
    aer_success r = true ∧ aer_term r = ae_term args ∧ aer_appstate r = AppNormal ∧
    m_currentTerm n' = ae_term args ∧ m_status n' = Follower ∧
    (∀ i, log_entry n' i =
       let prev := ae_prevlogindex args in
       if decide (prev < i ≤ prev + vsize (ae_entries args))
       then ae_entries args !! Z.to_nat (i - prev - 1) else log_entry n i) ∧
    getLastLogIndex n' =
      Z.max (getLastLogIndex n) (ae_prevlogindex args + vsize (ae_entries args)) ∧
    m_commitIndex n' =
      Z.max (m_commitIndex n) (Z.min (ae_leadercommit args) (getLastLogIndex n')) ∧
    log_ok n' ∧ durable_ok n'.
Proof.
  intros Hok Hc Hacc.
  destruct (AppendEntries1_accept_eq now args n Hok Hc Hacc) as (-> & Hok1 & Hlast).
  pose proof Hacc as [Ht [Hp1 Hp2] _ _ _].
  destruct (ae_state_fields now args n) as (Hl & _ & Hs & _ & _ & Hst & Hterm & _).
  eexists _, _. split; [reflexivity|]. do 3 (split; [reflexivity|]).
  split; [|split; [exact Hst|split; [|split; [exact Hlast|split; [|split]]]]].
  - etransitivity; [exact Hterm|lia].
  - intros i. pose proof (overlay_entry (ae_state now args n)
      (Z.to_nat (ae_prevlogindex args - m_lastSnapshotIncludeIndex n)) (ae_entries args) i) as Ho.
    rewrite Hl, Hs, (same_log_entry _ _ i (ae_state_same_log now args n)) in Ho.
    cbn zeta in Ho. replace (m_lastSnapshotIncludeIndex n + _) with (ae_prevlogindex args)
      in Ho by lia.
    apply Ho. unfold getLastLogIndex, vsize in Hp2. lia.
  - change (getLastLogIndex (persist ?x)) with (getLastLogIndex x).
    change (getLastLogIndex (?x <| m_commitIndex := _ |>)) with (getLastLogIndex x).
    change (m_commitIndex (persist (?x <| m_commitIndex := ?c |>))) with c.
    rewrite Hlast. unfold commit_after.
    destruct (Z.ltb_spec (m_commitIndex n) (ae_leadercommit args)); lia.
  - exact Hok1.
  - done.
Qed.
End append_entries.

(** A follower with a stale suffix, and a leader that overwrites its first entry. *)
Definition stale_follower : node :=
  demo_follower <| m_logs := [mkLogEntry "a" 1 1; mkLogEntry "b" 1 2; mkLogEntry "c" 1 3] |>.
Definition overwrite_args : AppendEntriesArgs :=
  mkAppendEntriesArgs 5 1 0 0 [mkLogEntry "x" 5 1] 0 1.

Lemma stale_follower_ok : log_ok stale_follower.
Proof.
  intros k e He. destruct k as [|[|[|k]]]; cbn in He; try discriminate He;
    injection He as <-; reflexivity.
Defined.

Lemma AppendEntries1_accepts_witness :
  ∃ n' r, AppendEntries1 (Ar := bit_archive) 9 overwrite_args stale_follower = Ok (n', r) ∧
    log_entry n' 1 = Some (mkLogEntry "x" 5 1) ∧ log_entry n' 2 = Some (mkLogEntry "b" 1 2).
Proof.
  destruct (AppendEntries1_accepts (Ar := bit_archive) 9 overwrite_args stale_follower)
    as (n' & r & Hrun & _ & _ & _ & _ & _ & Hlog & _).
  - exact stale_follower_ok.
  - by vm_compute.
  - split; [by vm_compute|by vm_compute|by vm_compute| |].
    + intros k e. destruct k as [|k]; [|done]. intros [= <-]. reflexivity.
    + intros e local He. apply list_elem_of_singleton in He as ->. intros [= <-]. discriminate.
  - exists n', r. split; [exact Hrun|]. rewrite !Hlog. by vm_compute.
Defined.

(** ** The hint of a rejected request *)

(** The term at an index: [getLogTermFromLogIndex], which always returns. *)
Definition term_at (n : node) (i : Z) : Z :=
  if i =? m_lastSnapshotIncludeIndex n then m_lastSnapshotIncludeTerm n
  else match log_entry n i with Some e => logterm e | None => -1 end.

Lemma getLogTerm_term_at n i : getLogTermFromLogIndex i n = Ok (term_at n i).
Proof. apply getLogTerm_spec. Qed.

Section rejection.
Context `{Ar : BoostArchive}.

(** The hint found by the backward search: the first index of the run of entries
    that have the term of the entry at [prev]. *)
Definition run_start (n : node) (prev h : Z) : Prop :=
  m_lastSnapshotIncludeIndex n < h ≤ prev ∧ term_at n (h - 1) ≠ term_at n prev ∧
  ∀ j, h ≤ j ≤ prev → term_at n j = term_at n prev.

Lemma conflict_index_spec fuel index prev n :
  fuel = Z.to_nat (index - m_lastSnapshotIncludeIndex n + 1) → index ≤ prev →
  (∀ j, index < j ≤ prev → term_at n j = term_at n prev) →
  ∃ o, conflict_index fuel index prev n = Ok o ∧
    match o with
    | Some h => run_start n prev h
    | None => ∀ j, m_lastSnapshotIncludeIndex n ≤ j ≤ prev → term_at n j = term_at n prev
    end.
Proof.
  revert index. induction fuel as [|fuel IH]; intros index Hfuel Hle Hrun.
  { exists None. split; [done|]. intros j Hj. apply Hrun. lia. }
  cbn [conflict_index]. zbool. rewrite !getLogTerm_term_at. cbn [mbind outcome_bind].
  destruct (Z.eqb_spec (term_at n index) (term_at n prev)) as [He|Hne]; cbn [negb].
  - apply IH; [lia|lia|]. intros j Hj.
    destruct (decide (j = index)) as [->|]; [done|apply Hrun; lia].
  - exists (Some (index + 1)). split; [done|].
    assert (index ≠ prev) by congruence. split; [lia|].
    split; [by replace (index + 1 - 1) with index by lia|]. intros j Hj. apply Hrun. lia.
Qed.

End rejection.


(** ** A successful reply at the leader *)

Section success.
Context `{Ar : BoostArchive}.

(** The slots of one peer after its reply. *)
Definition acknowledged (peerId m : Z) (n : node) : node :=
  n <| m_matchIndex := <[Z.to_nat peerId := m]> (m_matchIndex n) |>
    <| m_nextIndex := <[Z.to_nat peerId := m + 1]> (m_nextIndex n) |>.

Lemma handlePipelineResponse_frame peerId m n :
  vectors_ok n → 0 ≤ peerId < Z.of_nat (m_peers_size n) →
  ∃ pipe acked, length pipe = m_peers_size n ∧
    handlePipelineResponse peerId m n =
    Ok (n <| m_peerPipeline := pipe |> <| m_total_batches_acked := acked |>).
Proof.
  intros (_ & _ & _ & _ & Hlen & _) Hp. unfold handlePipelineResponse, slidePipelineWindow.
  destruct (vec_at_in_range "m_peerPipeline" (m_peerPipeline n) peerId) as (p & _ & ->);
    [unfold vsize; lia|]. cbn [mbind outcome_bind]. unfold vec_set.
  rewrite decide_True by lia. cbn [mbind outcome_bind]. eexists _, _.
  split; [|reflexivity]. by rewrite length_insert.
Qed.

Lemma updatePeerSyncState_spec peerId args a n :
  vectors_ok n → 0 ≤ peerId < Z.of_nat (m_peers_size n) →
  ae_prevlogindex args + vsize (ae_entries args) ≤ getLastLogIndex n →
  ∃ old pipe acked, m_matchIndex n !! Z.to_nat peerId = Some old ∧
    length pipe = m_peers_size n ∧
    let m := Z.max old (ae_prevlogindex args + vsize (ae_entries args)) in
    (old ≤ getLastLogIndex n + 1 →
     updatePeerSyncState peerId args a n =
      Ok ((acknowledged peerId m n) <| m_peerPipeline := pipe |>
            <| m_total_batches_acked := acked |>, a + 1)).
Proof.
  intros Hv Hp Hlast. pose proof Hv as (Hni & Hmi & _ & _ & Hpl & _).
  destruct (vec_at_in_range "m_matchIndex" (m_matchIndex n) peerId) as (old & Hold & Hat);
    [unfold vsize; lia|].
  set (m := Z.max old (ae_prevlogindex args + vsize (ae_entries args))).
  destruct (handlePipelineResponse_frame peerId m (acknowledged peerId m n))
    as (pipe & acked & Hlen & Hpipe).
  { unfold vectors_ok, acknowledged. upd_simpl. rewrite !length_insert. exact Hv. }
  { exact Hp. }
  exists old, (if 0 <? vsize (ae_entries args) then pipe else m_peerPipeline n),
    (if 0 <? vsize (ae_entries args) then acked else m_total_batches_acked n).
  split; [done|]. split; [by destruct (0 <? _)|]. cbn zeta. intros Hbound.
  unfold updatePeerSyncState. rewrite Hat. cbn [mbind outcome_bind]. fold m.
  unfold vec_set. rewrite decide_True by lia. cbn [mbind outcome_bind]. upd_simpl.
  rewrite decide_True by lia. cbn [mbind outcome_bind].
  change (n <| m_matchIndex := _ |> <| m_nextIndex := _ |>) with (acknowledged peerId m n).
  destruct (0 <? vsize (ae_entries args)).
  - rewrite Hpipe. cbn [mbind outcome_bind].
    change (getLastLogIndex (_ <| m_total_batches_acked := _ |>)) with (getLastLogIndex n).
    zbool. reflexivity.
  - cbn [mbind outcome_bind].
    change (getLastLogIndex (acknowledged peerId m n)) with (getLastLogIndex n).
    zbool. cbn [myAssert mbind outcome_bind]. by destruct n.
Qed.

(** The commit index after a counted reply. *)
Definition commit_by_count (args : AppendEntriesArgs) (a : Z) (n : node) : Z :=
  match last (ae_entries args) with
  | Some e => if (majority n <=? a) && (logterm e =? m_currentTerm n)
              then Z.max (m_commitIndex n) (ae_prevlogindex args + vsize (ae_entries args))
              else m_commitIndex n
  | None => m_commitIndex n
  end.

Lemma tryUpdateCommitIndex_spec args a n :
  0 ≤ a < 2 ^ 64 → m_commitIndex n ≤ getLastLogIndex n →
  ae_prevlogindex args + vsize (ae_entries args) ≤ getLastLogIndex n →
  ∃ a', tryUpdateCommitIndex args a n =
    Ok (n <| m_commitIndex := commit_by_count args a n |>, a').
Proof.
  intros Ha Hc Hlast. unfold tryUpdateCommitIndex, commit_by_count.
  rewrite to_size_t_small by done. fold (majority n).
  destruct (Z.leb_spec (majority n) a); zbool.
  - destruct (last (ae_entries args)) as [e|]; [destruct (logterm e =? m_currentTerm n)|];
      upd_simpl; cbn [andb].
    + change (getLastLogIndex (n <| m_commitIndex := _ |>)) with (getLastLogIndex n).
      zbool. by eexists.
    + zbool. exists 0. by destruct n.
    + zbool. exists 0. by destruct n.
  - exists a. cbn [andb]. destruct (last (ae_entries args)); by destruct n.
Qed.

Lemma handleTermMismatch_same n :
  handleTermMismatch (m_currentTerm n) n = (n, false).
Proof. unfold handleTermMismatch. by zbool. Qed.

Lemma sendAppendEntries_success_eq peerId args reply a n :
  vectors_ok n → 0 ≤ peerId < Z.of_nat (m_peers_size n) → m_status n = Leader →
  aer_success reply = true → aer_term reply = m_currentTerm n →
  aer_appstate reply ≠ Disconnected → 0 ≤ a < 2 ^ 63 →
  m_commitIndex n ≤ getLastLogIndex n →
  Forall (λ m, m ≤ getLastLogIndex n) (m_matchIndex n) →
  ae_prevlogindex args + vsize (ae_entries args) ≤ getLastLogIndex n →
  ∃ old pipe acked a', m_matchIndex n !! Z.to_nat peerId = Some old ∧
    length pipe = m_peers_size n ∧
    let m := Z.max old (ae_prevlogindex args + vsize (ae_entries args)) in
    sendAppendEntries peerId args (Some reply) a n =
      Ok ((acknowledged peerId m n) <| m_peerPipeline := pipe |>
            <| m_total_batches_acked := acked |>
            <| m_commitIndex := commit_by_count args (a + 1) n |>, a', true).
Proof.
  intros Hv Hp Hst Hsucc Hterm Happ Ha Hc Hall Hlast.
  destruct (updatePeerSyncState_spec peerId args a n Hv Hp Hlast)
    as (old & pipe & acked & Hold & Hlen & Hrun).
  cbn zeta in Hrun. rewrite Forall_lookup in Hall. specialize (Hall _ _ Hold) as Hle.
  specialize (Hrun ltac:(lia)). set (m := Z.max old _) in *.
  set (n1 := (acknowledged peerId m n) <| m_peerPipeline := pipe |>
            <| m_total_batches_acked := acked |>) in *.
  destruct (tryUpdateCommitIndex_spec args (a + 1) n1) as [a' Htry]; [lia|exact Hc|exact Hlast|].
  exists old, pipe, acked, a'. split; [done|]. split; [done|]. cbn zeta. fold m n1.
  unfold sendAppendEntries, callAppendEntriesRpc.
  destruct (Z.eqb_spec (aer_appstate reply) Disconnected); [done|].
  rewrite Hterm, handleTermMismatch_same. unfold isStillLeader.
  rewrite Hst, bool_decide_eq_true_2, Z.eqb_refl, Hsucc by done.
  cbn [negb myAssert mbind outcome_bind]. rewrite Hrun. cbn [mbind outcome_bind].
  rewrite Htry. reflexivity.
Qed.

Lemma quorum_of_one N peerId n :
  majority n ≤ 2 → 0 ≤ peerId < Z.of_nat (m_peers_size n) → peerId ≠ m_me n →
  (∃ m, m_matchIndex n !! Z.to_nat peerId = Some m ∧ N ≤ m) → has_quorum N n.
Proof.
  intros Hmaj Hp Hne (m & Hm & HN). unfold has_quorum, vsize.
  assert (peerId ∈ replicated_on N n) as Hin.
  { unfold replicated_on. rewrite list_elem_of_filter, indices_in, Hm. done. }
  destruct (replicated_on N n); [by apply not_elem_of_nil in Hin|]. cbn [length]. lia.
Qed.

(** A successful reply at the leader.  When [sendAppendEntries] of one batch (its
    counter starts at 1, the leader itself) gets a success in the current term, no
    assertion fails; [matchIndex] of that peer becomes the largest index it
    acknowledged and [nextIndex] the one after, the other peers' slots and the log
    are untouched; and the commit index moves, if at all, up to the end of this batch,
    whose last entry is of the current term and which a majority then holds. *)
Theorem sendAppendEntries_success (peerId : Z) (args : AppendEntriesArgs)
    (reply : AppendEntriesReply) (n : node) :
  vectors_ok n → 0 ≤ peerId < Z.of_nat (m_peers_size n) → peerId ≠ m_me n →
  m_status n = Leader →
  aer_success reply = true → aer_term reply = m_currentTerm n →
  aer_appstate reply ≠ Disconnected → m_commitIndex n ≤ getLastLogIndex n →
  Forall (λ m, m ≤ getLastLogIndex n) (m_matchIndex n) →
  ae_prevlogindex args + vsize (ae_entries args) ≤ getLastLogIndex n →
  ∃ n' a' old, sendAppendEntries peerId args (Some reply) 1 n = Ok (n', a', true) ∧
    m_matchIndex n !! Z.to_nat peerId = Some old ∧
    let m := Z.max old (ae_prevlogindex args + vsize (ae_entries args)) in
    m_matchIndex n' = <[Z.to_nat peerId := m]> (m_matchIndex n) ∧
    m_nextIndex n' = <[Z.to_nat peerId := m + 1]> (m_nextIndex n) ∧
    same_log n n' ∧ vectors_ok n' ∧
    m_commitIndex n ≤ m_commitIndex n' ≤ getLastLogIndex n' ∧
    (m_commitIndex n < m_commitIndex n' →
       m_commitIndex n' = ae_prevlogindex args + vsize (ae_entries args) ∧
       has_quorum (m_commitIndex n') n' ∧
       ∃ e, last (ae_entries args) = Some e ∧ logterm e = m_currentTerm n).
Proof.
  intros Hv Hp Hne Hst Hsucc Hterm Happ Hc Hall Hlast.
  destruct (sendAppendEntries_success_eq peerId args reply 1 n)
    as (old & pipe & acked & a' & Hold & Hlen & Hrun); try done.
  cbn zeta in Hrun. set (m := Z.max old _) in *.
  set (n' := (acknowledged peerId m n) <| m_peerPipeline := pipe |>
            <| m_total_batches_acked := acked |>
            <| m_commitIndex := commit_by_count args (1 + 1) n |>) in *.
  exists n', a', old. split; [exact Hrun|]. split; [exact Hold|]. cbn zeta. fold m.
  split; [done|]. split; [done|]. split; [by repeat split|].
  assert (vectors_ok n') as Hv'.
  { pose proof Hv as (? & ? & ? & ? & ? & ?). unfold vectors_ok, n', acknowledged. upd_simpl.
    rewrite !length_insert. done. }
  split; [exact Hv'|].
  change (m_commitIndex n') with (commit_by_count args (1 + 1) n).
  change (getLastLogIndex n') with (getLastLogIndex n). unfold commit_by_count.
  destruct (last (ae_entries args)) as [e|]; [|lia].
  destruct (Z.leb_spec (majority n) (1 + 1)); cbn [andb]; [|lia].
  destruct (Z.eqb_spec (logterm e) (m_currentTerm n)); [|lia].
  split; [lia|]. intros Hlt. rewrite Z.max_r by lia. split; [done|]. split; [|eauto].
  apply (quorum_of_one _ peerId); [done|done|done|]. exists m. split; [|lia].
  unfold n', acknowledged. upd_simpl. apply list_lookup_insert_eq.
  by eapply lookup_lt_Some.
Qed.
End success.

Lemma sendAppendEntries_success_witness :
  ∃ n' a' old, sendAppendEntries (Ar := bit_archive) 1 (mkAppendEntriesArgs 2 0 1 1
      [mkLogEntry "b" 2 2; mkLogEntry "c" 2 3] 1 2)
      (Some (mkAppendEntriesReply 2 true 0 AppNormal 0 0)) 1 log_demo = Ok (n', a', true) ∧
    old = 2 ∧ m_commitIndex n' = 3.
Proof.
  destruct (sendAppendEntries_success (Ar := bit_archive) 1 (mkAppendEntriesArgs 2 0 1 1
      [mkLogEntry "b" 2 2; mkLogEntry "c" 2 3] 1 2)
      (mkAppendEntriesReply 2 true 0 AppNormal 0 0) log_demo)
    as (n' & a' & old & Hrun & Hold & _); try done.
  - apply (bool_decide_unpack _). vm_compute. exact I.
  - exists n', a', old. split; [exact Hrun|]. split; [by vm_compute in Hold; injection Hold|].
    vm_compute in Hrun. injection Hrun as <- _. reflexivity.
Defined.

(** ** A heartbeat round *)

Section heartbeat.
Context `{Ar : BoostArchive}.

(** The message of one round to one peer. *)
Definition heartbeat_message (n : node) (i : Z) : outgoing :=
  let next := Z.max 1 (default 0 (m_nextIndex n !! Z.to_nat i)) in
  if next <=? m_lastSnapshotIncludeIndex n
  then OutSnapshot i (m_lastSnapshotIncludeIndex n) (m_lastSnapshotIncludeTerm n)
         (st_snapshot (m_persister n))
  else OutAppend i (mkAppendEntriesArgs (m_currentTerm n) (m_me n) (next - 1)
         (term_at n (next - 1)) [] (m_commitIndex n) 0).

Definition other_peers (n : node) (l : list Z) : list Z := filter (λ i, i ≠ m_me n) l.

Definition heartbeat_inv (n : node) (l : list Z) (s : node * list outgoing) : Prop :=
  ∃ v, fst s = n <| m_nextIndex := v |> ∧ length v = length (m_nextIndex n) ∧
    (∀ i, 0 ≤ i → v !! Z.to_nat i =
       if decide (i ∈ other_peers n l) then Z.max 1 <$> m_nextIndex n !! Z.to_nat i
       else m_nextIndex n !! Z.to_nat i) ∧
    snd s = heartbeat_message n <$> other_peers n l.

Lemma heartbeat_inv_step n l i s :
  vectors_ok n → 0 ≤ i < Z.of_nat (m_peers_size n) → i ∉ l →
  heartbeat_inv n l s →
  ∃ s', heartbeat_peer i s = Ok s' ∧ heartbeat_inv n (l ++ [i]) s'.
Proof.
  intros (Hlen & _) Hi Hnew (v & Hn & Hv & Hspec & Hout). destruct s as [m out].
  cbn [fst snd] in *. subst m out. unfold heartbeat_peer. upd_simpl.
  destruct (Z.eqb_spec i (m_me n)) as [He|Hne].
  { eexists. split; [done|]. exists v. cbn [fst snd]. unfold other_peers in *.
    rewrite filter_app, filter_cons_False, filter_nil, app_nil_r by tauto. done. }
  assert (other_peers n (l ++ [i]) = other_peers n l ++ [i]) as Hsnoc.
  { unfold other_peers. by rewrite filter_app, filter_cons_True, filter_nil by done. }
  assert (i ∉ other_peers n l) as Hnew'.
  { unfold other_peers. rewrite list_elem_of_filter. tauto. }
  destruct (lookup_lt_is_Some_2 (m_nextIndex n) (Z.to_nat i)) as [x Hx]; [lia|].
  pose proof (Hspec i ltac:(lia)) as Hvi. rewrite decide_False, Hx in Hvi by done.
  assert (vec_at "m_nextIndex" v i = Ok x) as -> by (apply vec_at_Ok; split; [lia|done]).
  cbn [mbind outcome_bind].
  set (v' := <[Z.to_nat i := Z.max 1 x]> v).
  assert ((if x <? 1 then v0 ← vec_set "m_nextIndex" v i 1;
                          Ok (n <| m_nextIndex := v |> <| m_nextIndex := v0 |>)
           else Ok (n <| m_nextIndex := v |>)) = Ok (n <| m_nextIndex := v' |>)) as ->.
  { unfold v'. destruct (Z.ltb_spec x 1).
    - unfold vec_set. rewrite decide_True, Z.max_l by lia. done.
    - rewrite Z.max_r, list_insert_id by first [lia|done]. done. }
  cbn [mbind outcome_bind]. upd_simpl.
  assert (vec_at "m_nextIndex" v' i = Ok (Z.max 1 x)) as Hat.
  { apply vec_at_Ok. split; [lia|]. apply list_lookup_insert_eq. lia. }
  rewrite Hat. cbn [mbind outcome_bind].
  assert (Hres : heartbeat_inv n (l ++ [i])
    (n <| m_nextIndex := v' |>, (heartbeat_message n <$> other_peers n l) ++ [heartbeat_message n i])).
  { exists v'. split; [done|]. split; [unfold v'; by rewrite length_insert|]. split.
    - intros j Hj. rewrite Hsnoc. unfold v'. destruct (decide (j = i)) as [->|].
      + rewrite list_lookup_insert_eq by lia. rewrite decide_True by set_solver. by rewrite Hx.
      + rewrite list_lookup_insert_ne by lia. rewrite Hspec by done.
        repeat case_decide; set_solver.
    - cbn [snd]. by rewrite Hsnoc, fmap_app. }
  unfold heartbeat_message in Hres at 2. rewrite Hx in Hres. cbn [default] in Hres.
  change (id x) with x in Hres.
  destruct (Z.max 1 x <=? m_lastSnapshotIncludeIndex n).
  - eexists. split; [reflexivity|]. exact Hres.
  - unfold startLogEntriesSendThread. upd_simpl. rewrite Hat. cbn [mbind outcome_bind].
    rewrite getLogTerm_term_at. cbn [mbind outcome_bind].
    eexists. split; [reflexivity|]. exact Hres.
Qed.

Lemma doHeartBeat_eq now n :
  vectors_ok n → m_status n = Leader →
  ∃ v, doHeartBeat now n =
    Ok (n <| m_nextIndex := v |> <| m_lastResetHearBeatTime := now |>,
        heartbeat_message n <$> other_peers n (indices (m_peers_size n))) ∧
    length v = length (m_nextIndex n) ∧
    (∀ i, 0 ≤ i → v !! Z.to_nat i =
       if decide (i ∈ other_peers n (indices (m_peers_size n)))
       then Z.max 1 <$> m_nextIndex n !! Z.to_nat i
       else m_nextIndex n !! Z.to_nat i).
Proof.
  intros Hv Hst. unfold doHeartBeat. rewrite bool_decide_eq_true_2 by done. cbn [negb].
  destruct (for_each_invariant heartbeat_peer (heartbeat_inv n) (indices (m_peers_size n))
    (n, [])) as ([m out] & -> & v & Hn & Hlen & Hspec & Hout).
  - exists (m_nextIndex n). split; [by destruct n|]. split; [done|]. split; [|done].
    intros i _. by rewrite decide_False by (unfold other_peers; set_solver).
  - intros l1 i l2 s Hl Hinv. apply heartbeat_inv_step; [done| | |done].
    + apply indices_in. rewrite Hl. set_solver.
    + pose proof (indices_NoDup (m_peers_size n)) as Hnd. rewrite Hl in Hnd.
      apply NoDup_app in Hnd as (_ & Hnd & _). intros Hin. by apply (Hnd i Hin), list_elem_of_here.
  - cbn [fst snd] in *. subst m out. exists v. by repeat split.
Qed.

(** A heartbeat round.  A leader sends one message to every other peer, in order,
    and none to itself: the snapshot when the peer's [nextIndex] is not above the
    snapshot point, otherwise an [AppendEntries] of its own term and commit index whose
    previous entry is the one before [nextIndex] (raised to 1 if it was lower), and
    which carries no entries; term, vote and log are untouched and every read of a
    vector or of the log is in range.  Other nodes send nothing. *)
Theorem doHeartBeat_correct (now : Z) (n : node) :
  vectors_ok n →
  ∃ n' out, doHeartBeat now n = Ok (n', out) ∧ same_log n n' ∧
    m_currentTerm n' = m_currentTerm n ∧ m_votedFor n' = m_votedFor n ∧
    m_status n' = m_status n ∧ m_persister n' = m_persister n ∧ vectors_ok n' ∧
    out = (if bool_decide (m_status n = Leader)
           then heartbeat_message n <$> other_peers n (indices (m_peers_size n)) else []) ∧
    (∀ i args, OutAppend i args ∈ out →
       ae_entries args = [] ∧ i ≠ m_me n ∧ ae_term args = m_currentTerm n ∧
       m_lastSnapshotIncludeIndex n ≤ ae_prevlogindex args ∧
       ae_prevlogterm args = term_at n (ae_prevlogindex args)).
Proof.
  intros Hv. destruct (decide (m_status n = Leader)) as [Hst|Hst].
  - destruct (doHeartBeat_eq now n Hv Hst) as (v & -> & Hlen & _).
    eexists _, _. split; [reflexivity|]. split; [done|]. do 4 (split; [done|]).
    split; [destruct Hv as [Hl Hv]; split; [exact (eq_trans Hlen Hl)|exact Hv]|].
    rewrite bool_decide_eq_true_2 by done. split; [done|].
    intros i args Hin. apply list_elem_of_fmap in Hin as (j & Heq & Hj).
    unfold other_peers in Hj. apply list_elem_of_filter in Hj as [Hj _].
    unfold heartbeat_message in Heq. case_match eqn:E; [discriminate Heq|].
    injection Heq as -> ->. b2p. cbn. repeat split; [done|lia].
  - unfold doHeartBeat. rewrite bool_decide_eq_false_2 by done.
    exists n, []. repeat split; try apply Hv; set_solver.
Qed.
End heartbeat.

Lemma doHeartBeat_correct_witness :
  ∃ n' out, doHeartBeat 9 log_demo = Ok (n', out) ∧
    out = [OutAppend 1 (mkAppendEntriesArgs 2 0 2 2 [] 1 0);
           OutAppend 2 (mkAppendEntriesArgs 2 0 0 0 [] 1 0)].
Proof.
  destruct (doHeartBeat_correct 9 log_demo) as (n' & out & Hrun & _ & _ & _ & _ & _ & _ & Ho & _);
    [by repeat split|].
  exists n', out. split; [exact Hrun|]. rewrite Ho. vm_compute. reflexivity.
Defined.

(** ** What the code does not rule out *)

(** A follower that holds a stale suffix commits it: after the leader of term 5 has
    replaced its first entry, a heartbeat with commit index 2 makes it commit (and then
    apply) its own second entry, of term 1, because nothing cuts the log after an
    overwritten entry and the commit index is bounded by the whole log. *)
Definition stale_commit_run : outcome (list ApplyMsg) :=
  '(n, _) ← AppendEntries1 (Ar := bit_archive) 9 overwrite_args stale_follower;
  '(n, r) ← AppendEntries1 (Ar := bit_archive) 10 (mkAppendEntriesArgs 5 1 1 5 [] 2 0) n;
  n ← applierTicker_round n;
  Ok (applyChan n).

Example stale_suffix_committed :
  stale_commit_run =
    Ok [mkApplyMsg true 1 "x" false 0 0 ""; mkApplyMsg true 2 "b" false 0 0 ""].
Proof. vm_compute. reflexivity. Qed.

(** Installing a snapshot moves the snapshot point but keeps [m_logs], so the entry
    numbered 1 is afterwards found at index 3. *)
Example snapshot_shifts_log :
  let '(n, _) := InstallSnapshot1 (Ar := bit_archive) (mkInstallSnapshotRequest 1 5 2 1 "s")
                   stale_follower in
  log_entry n 3 = Some (mkLogEntry "a" 1 1) ∧ ¬ log_ok n.
Proof.
  split; [vm_compute; reflexivity|]. intros Hok.
  specialize (Hok 0%nat (mkLogEntry "a" 1 1)). vm_compute in Hok.
  specialize (Hok eq_refl). discriminate Hok.
Qed.

Section large_cluster.
Context `{Ar : BoostArchive}.

Lemma updatePeerSyncState_commit peerId args a n n' a' :
  updatePeerSyncState peerId args a n = Ok (n', a') →
  a' = a + 1 ∧ m_commitIndex n' = m_commitIndex n ∧ m_peers_size n' = m_peers_size n.
Proof.
  unfold updatePeerSyncState. intros H. inv_ok. subst. split; [done|].
  destruct (0 <? _); [|injection Hx2 as <-; done].
  unfold handlePipelineResponse, slidePipelineWindow in Hx2. inv_ok. by subst.
Qed.

(** With four servers or more the counter of a batch, which starts at 1 and sees one
    reply, never reaches a majority: no reply to a batch moves the commit index. *)
Lemma batch_never_commits (peerId : Z) (args : AppendEntriesArgs)
    (rpc : option AppendEntriesReply) (n n' : node) (a' : Z) (b : bool) :
  4 ≤ Z.of_nat (m_peers_size n) →
  sendAppendEntries peerId args rpc 1 n = Ok (n', a', b) →
  m_commitIndex n' = m_commitIndex n.
Proof.
  intros Hsize. unfold sendAppendEntries.
  destruct (callAppendEntriesRpc rpc) as [reply|]; [|by intros [= <- _ _]].
  destruct (handleTermMismatch _ n) as [m stop] eqn:Hm.
  assert (m_commitIndex m = m_commitIndex n ∧ m_peers_size m = m_peers_size n) as [Hc Hs].
  { unfold handleTermMismatch in Hm. repeat case_match; injection Hm as <- <-; done. }
  destruct stop; [by intros [= <- _ _]|]. destruct (negb _); [by intros [= <- _ _]|].
  intros H. inv_ok. destruct (negb _).
  - inv_ok. subst. rewrite <- Hc. unfold handleLogMismatch in Hx0.
    destruct (negb _); inv_ok; by subst.
  - inv_ok. destruct x0 as [n1 a1]. destruct (updatePeerSyncState_commit _ _ _ _ _ _ Hx0)
      as (-> & Hc1 & Hs1). inv_ok. destruct x0 as [n2 a2]. inv_ok. subst.
    unfold tryUpdateCommitIndex in Hx1. rewrite to_size_t_small in Hx1 by lia.
    rewrite Hs1, Hs in Hx1. assert (2 ≤ Z.of_nat (m_peers_size n) / 2)
      by (apply Z.div_le_lower_bound; lia).
    replace (1 + 1 <? _) with true in Hx1 by (symmetry; apply Z.ltb_lt; lia).
    injection Hx1 as <- _. congruence.
Qed.
End large_cluster.
