(* ===== verification/RaftReference.v ===== *)
(** [AppendEntries1] against the rule of the Raft paper: the reference follower cuts its
    log at the first conflicting entry and bounds its commit index by the last entry of
    the request.  The code's follower is that follower exactly where the theorem of this
    file says. *)
From S2P Require Import Prelude OpCoder Persister RaftTypes RaftLog RaftElection RaftReplication.
Open Scope Z_scope.

#[local] Arguments upd : simpl never.

(** ** The reference rule *)

(** What the entries [es] make of the local entries [l] that follow the previous one:
    local entries of the same term stay, the first one of another term is removed with
    all that follow it, and what is not in the log yet is appended. *)
Fixpoint ref_entries (es l : list LogEntry) : list LogEntry :=
  match es, l with
  | [], _ => l
  | _, [] => es
  | e :: es', x :: l' => if logterm x =? logterm e then x :: ref_entries es' l' else es
  end.

(** Whether some local entry is in conflict with the one sent for its index. *)
Fixpoint conflicts (es l : list LogEntry) : bool :=
  match es, l with
  | e :: es', x :: l' => negb (logterm x =? logterm e) || conflicts es' l'
  | _, _ => false
  end.

Lemma ref_entries_no_conflict es l :
  (∀ k e x, es !! k = Some e → l !! k = Some x → logterm x = logterm e → x = e) →
  conflicts es l = false → ref_entries es l = es ++ drop (length es) l.
Proof.
  revert l. induction es as [|e es IH]; intros [|x l] Hsame Hc; cbn in *; try done;
    [by rewrite app_nil_r|].
  apply orb_false_iff in Hc as [Ht Hc]. apply negb_false_iff in Ht. rewrite Ht.
  apply Z.eqb_eq in Ht. rewrite (Hsame 0%nat e x) by done. f_equal.
  apply IH; [|done]. intros k. apply (Hsame (S k)).
Qed.

Lemma ref_entries_conflict es l :
  (∀ k e x, es !! k = Some e → l !! k = Some x → logterm x = logterm e → x = e) →
  conflicts es l = true → ref_entries es l = es.
Proof.
  revert l. induction es as [|e es IH]; intros [|x l] Hsame Hc; cbn in *; try done.
  destruct (Z.eqb_spec (logterm x) (logterm e)) as [Ht|Ht]; cbn in Hc; [|done].
  rewrite (Hsame 0%nat e x) by done. f_equal. apply IH; [|done]. intros k. apply (Hsame (S k)).
Qed.

(** Where replacing in place and cutting agree. *)
Lemma overlay_is_reference p es l :
  (p ≤ length l)%nat →
  (∀ k e x, es !! k = Some e → drop p l !! k = Some x → logterm x = logterm e → x = e) →
  overlay p es l = take p l ++ ref_entries es (drop p l) ↔
  conflicts es (drop p l) = false ∨ (length l ≤ p + length es)%nat.
Proof.
  intros Hp Hsame. unfold overlay. rewrite <- drop_drop.
  destruct (conflicts es (drop p l)) eqn:E.
  - rewrite ref_entries_conflict by done. split.
    + intros Heq%(app_inv_head (take p l)). right.
      apply (f_equal length) in Heq. rewrite length_app, !length_drop in Heq. lia.
    + intros [?|Hl]; [done|]. by rewrite (drop_ge (drop p l)), app_nil_r by (rewrite length_drop; lia).
  - rewrite ref_entries_no_conflict by done. split; [by left|done].
Qed.

Section reference.
Context `{Ar : BoostArchive}.

(** The position of the previous entry of a request. *)
Definition prev_position (args : AppendEntriesArgs) (n : node) : nat :=
  Z.to_nat (ae_prevlogindex args - m_lastSnapshotIncludeIndex n).

(** The state in which the reference follower answers an acceptable request. *)
Definition reference_follower (now : Z) (args : AppendEntriesArgs) (n : node) : node :=
  let p := prev_position args n in
  persist ((ae_state now args n)
    <| m_logs := take p (m_logs n) ++ ref_entries (ae_entries args) (drop p (m_logs n)) |>
    <| m_commitIndex := commit_after args (ae_prevlogindex args + vsize (ae_entries args))
                          (m_commitIndex n) |>).

(** The request conflicts with no local entry, or reaches the end of the local log. *)
Definition nothing_to_cut (args : AppendEntriesArgs) (n : node) : Prop :=
  conflicts (ae_entries args) (drop (prev_position args n) (m_logs n)) = false ∨
  getLastLogIndex n ≤ ae_prevlogindex args + vsize (ae_entries args).

(** The leader's commit index does not ask for more than the request covers. *)
Definition commit_covered (args : AppendEntriesArgs) (n : node) : Prop :=
  ae_leadercommit args ≤ Z.max (m_commitIndex n) (ae_prevlogindex args + vsize (ae_entries args)) ∨
  getLastLogIndex n ≤ ae_prevlogindex args + vsize (ae_entries args).

Lemma acceptable_same args n :
  log_ok n → acceptable args n →
  ∀ k e x, ae_entries args !! k = Some e → drop (prev_position args n) (m_logs n) !! k = Some x →
    logterm x = logterm e → x = e.
Proof.
  intros Hok Hacc k e x He Hx Ht. rewrite lookup_drop in Hx.
  pose proof (acceptable_agree _ _ Hacc k e x He Hx Ht) as Hc.
  pose proof (Hok _ _ Hx) as Hxi. destruct Hacc as [_ Hp _ Hfrom _].
  pose proof (Hfrom k e He) as Hei. unfold prev_position in Hxi.
  destruct x, e; cbn in *. f_equal; [done..|lia].
Qed.

(** C20: [AppendEntries1] is the follower of the Raft paper exactly when there is nothing to
    cut and the commit index is covered.  For an acceptable request the code and the
    reference both succeed; they reach the same state (log, commit index and disk
    included) if and only if no local entry conflicts or the request reaches the end of
    the local log, and the leader's commit index is not beyond the request unless the
    request reaches that end. *)
Theorem AppendEntries1_reference (now : Z) (args : AppendEntriesArgs) (n : node) :
  log_ok n → m_commitIndex n ≤ getLastLogIndex n → acceptable args n →
  ∃ n' r, AppendEntries1 now args n = Ok (n', r) ∧ aer_success r = true ∧
    (n' = reference_follower now args n ↔ nothing_to_cut args n ∧ commit_covered args n).
Proof.
  intros Hok Hc Hacc.
  destruct (AppendEntries1_accept_eq now args n Hok Hc Hacc) as (-> & _ & ->).
  eexists _, _. split; [reflexivity|]. split; [done|].
  pose proof Hacc as [_ Hprev _ _ _].
  assert (prev_position args n ≤ length (m_logs n))%nat as Hp
    by (unfold prev_position, getLastLogIndex, vsize in *; lia).
  pose proof (overlay_is_reference _ _ _ Hp (acceptable_same args n Hok Hacc)) as Hlog.
  assert ((length (m_logs n) ≤ prev_position args n + length (ae_entries args))%nat ↔
    getLastLogIndex n ≤ ae_prevlogindex args + vsize (ae_entries args)) as Hend
    by (unfold prev_position, getLastLogIndex, vsize in *; lia).
  rewrite Hend in Hlog. fold (nothing_to_cut args n) in Hlog. fold (prev_position args n).
  set (last := Z.max (getLastLogIndex n) _).
  assert (commit_after args last (m_commitIndex n) = commit_after args
    (ae_prevlogindex args + vsize (ae_entries args)) (m_commitIndex n) ↔
    commit_covered args n) as Hcommit.
  { unfold commit_after, commit_covered, last.
    destruct (Z.ltb_spec (m_commitIndex n) (ae_leadercommit args)); lia. }
  rewrite <- Hlog, <- Hcommit. unfold reference_follower. cbn zeta. split.
  - intros Heq. split; [exact (f_equal m_logs Heq)|exact (f_equal m_commitIndex Heq)].
  - intros [-> ->]. done.
Qed.
End reference.

(** A follower that receives the next entry of its leader is the reference follower; one
    whose stale suffix is in conflict is not. *)
Lemma AppendEntries1_reference_witness :
  (∃ n' r, AppendEntries1 (Ar := bit_archive) 9 overwrite_args stale_follower = Ok (n', r) ∧
    n' ≠ reference_follower (Ar := bit_archive) 9 overwrite_args stale_follower) ∧
  nothing_to_cut (mkAppendEntriesArgs 5 1 3 1 [mkLogEntry "x" 5 4] 2 1) stale_follower ∧
  ¬ nothing_to_cut overwrite_args stale_follower.
Proof.
  assert (¬ nothing_to_cut overwrite_args stale_follower) as Hcut.
  { intros [H|H]; vm_compute in H; [discriminate H|by apply H]. }
  split; [|split; [left; by vm_compute|exact Hcut]].
  destruct (AppendEntries1_reference (Ar := bit_archive) 9 overwrite_args stale_follower)
    as (n' & r & Hrun & _ & Hiff).
  - exact stale_follower_ok.
  - by vm_compute.
  - split; [by vm_compute|by vm_compute|by vm_compute| |].
    + intros k e. destruct k as [|k]; [|done]. intros [= <-]. reflexivity.
    + intros e local He. apply list_elem_of_singleton in He as ->. intros [= <-]. discriminate.
  - exists n', r. split; [exact Hrun|]. intros Heq. apply Hcut. by apply Hiff.
Defined.
