(* ===== verification/RaftPipeline.v ===== *)
(** How a leader ships entries in [src/Raft/Raft.cpp]: the batching of [Start] requests
    ([batchSenderLoop], [flushPendingEntries]) and the per-peer pipeline window
    ([peerPipelineSender] and the functions it uses).  Times are in milliseconds. *)
From S2P Require Import Prelude OpCoder Persister RaftTypes RaftLog RaftElection.
From S2P Require Import RaftReplication.
Open Scope Z_scope.

Section pipeline.
Context `{Ar : BoostArchive}.

(** ** Batched appends *)

(** The flush test; the clock is read once for each of the two delays. *)
Definition should_flush (now1 now2 : Z) (pending : PendingEntries) : bool :=
  if PIPELINE_BATCH_SIZE <=? vsize (entries pending) then true
  else if PIPELINE_MAX_DELAY_MS <=? now1 - first_entry_time_ms pending then true
  else (1 <=? vsize (entries pending)) && (2 <=? now2 - first_entry_time_ms pending).

(** The collection under [m_batchMtx]: what is moved out of each buffer. *)
Fixpoint batch_collect_from (i : Z) (me now1 now2 : Z) (ps : list PendingEntries)
    : list PendingEntries * list (Z * list LogEntry) :=
  match ps with
  | [] => ([], [])
  | p :: ps' =>
      let '(ps'', toSend) := batch_collect_from (i + 1) me now1 now2 ps' in
      if (i =? me) || bool_decide (entries p = []) || negb (should_flush now1 now2 p)
      then (p :: ps'', toSend)
      else (p <| entries := [] |> :: ps'', (i, entries p) :: toSend)
  end.
Definition batch_collect (now1 now2 : Z) (n : node) : node * list (Z * list LogEntry) :=
  let '(ps, toSend) := batch_collect_from 0 (m_me n) now1 now2 (m_pendingEntries n) in
  (n <| m_pendingEntries := ps |>, toSend).

(** The request for one collected batch.  The code reads [m_currentTerm], the log and
    [m_commitIndex] without the lock: [n] is the node at that moment. *)
Definition batch_request (es : list LogEntry) (n : node) : outcome (option AppendEntriesArgs) :=
  match es with
  | [] => Ok None
  | e :: _ =>
      let prevLogIndex := logindex e - 1 in
      prevterm ← getLogTermFromLogIndex prevLogIndex n;
      Ok (Some (mkAppendEntriesArgs (m_currentTerm n) (m_me n) prevLogIndex prevterm es
                  (m_commitIndex n) (logindex e)))
  end.

Fixpoint batch_send_all (toSend : list (Z * list LogEntry)) (n : node)
    : outcome (list outgoing) :=
  match toSend with
  | [] => Ok []
  | (peerId, es) :: rest =>
      if bool_decide (es = []) then batch_send_all rest n
      else if negb (bool_decide (m_status n = Leader)) then batch_send_all rest n
      else
      args ← batch_request es n;
      out ← batch_send_all rest n;
      Ok (match args with Some a => OutAppend peerId a :: out | None => out end)
  end.

(** One round of [batchSenderLoop] when nothing else runs meanwhile.  Leaving the loop
    ends the thread but does not reset [m_batchRunning]. *)
Definition batchSenderLoop_round (now1 now2 : Z) (n : node) : outcome (node * list outgoing) :=
  if negb (m_batchSenderThread n) then Ok (n, [])
  else if negb (m_batchRunning n) then Ok (n <| m_batchSenderThread := false |>, [])
  else if negb (bool_decide (m_status n = Leader))
  then Ok (n <| m_batchSenderThread := false |>, [])
  else
  let '(n, toSend) := batch_collect now1 now2 n in
  out ← batch_send_all toSend n;
  Ok (n, out).

Definition flushPendingEntries (peerId : Z) (n : node) : outcome (node * option outgoing) :=
  '(n, es) ← (if peerId <? vsize (m_pendingEntries n) then
                p ← vec_at "m_pendingEntries" (m_pendingEntries n) peerId;
                v ← vec_set "m_pendingEntries" (m_pendingEntries n) peerId
                      (p <| entries := [] |>);
                Ok (n <| m_pendingEntries := v |>, entries p)
              else Ok (n, []));
  args ← batch_request es n;
  Ok (n, match args with Some a => Some (OutAppend peerId a) | None => None end).

(** ** The pipeline window *)

Definition window_size (p : PeerPipelineState) : Z := Z.of_nat (size (in_flight p)).

Definition canSendPipelineBatch (peerId : Z) (n : node) : outcome bool :=
  p ← vec_at "m_peerPipeline" (m_peerPipeline n) peerId;
  Ok (window_size p <? PIPELINE_MAX_INFLIGHT).

Definition shouldForceFlushPipeline (peerId : Z) (n : node) : outcome bool :=
  p ← vec_at "m_peerPipeline" (m_peerPipeline n) peerId;
  Ok (PIPELINE_MAX_INFLIGHT * 8 / 10 <=? window_size p).

Definition createPipelineBatch (now peerId startIndex endIndex : Z) (n : node)
    : outcome (node * PipelineBatch) :=
  p ← vec_at "m_peerPipeline" (m_peerPipeline n) peerId;
  v ← vec_set "m_peerPipeline" (m_peerPipeline n) peerId
        (p <| next_batch_id := next_batch_id p + 1 |>);
  Ok (n <| m_peerPipeline := v |>,
      mkPipelineBatch (next_batch_id p) startIndex endIndex now
        (endIndex - startIndex + 1) false).

(** The copy loop of [sendPipelineBatch]: up to the first entry at [last] or beyond. *)
Fixpoint batch_entries (last : Z) (l : list LogEntry) : list LogEntry :=
  match l with
  | [] => []
  | e :: l' => if last <=? logindex e then [e] else e :: batch_entries last l'
  end.

Definition sendPipelineBatch (peerId : Z) (batch : PipelineBatch) (n : node)
    : outcome (node * outgoing) :=
  let prevLogIndex := pb_first_index batch - 1 in
  prevLogTerm ← getLogTermFromLogIndex prevLogIndex n;
  let startSliceIdx := to_size_t (getSlicesIndexFromLogIndex (pb_first_index batch) n) in
  let es := if startSliceIdx <? vsize (m_logs n)
            then batch_entries (pb_last_index batch)
                   (drop (Z.to_nat startSliceIdx) (m_logs n))
            else [] in
  Ok (n <| m_total_batches_sent := m_total_batches_sent n + 1 |>,
      OutAppend peerId
        (mkAppendEntriesArgs (m_currentTerm n) (m_me n) prevLogIndex prevLogTerm es
           (m_commitIndex n) (pb_batch_id batch))).

Definition retryPipelineBatch (peerId batch_id : Z) (n : node)
    : outcome (node * option outgoing) :=
  p ← vec_at "m_peerPipeline" (m_peerPipeline n) peerId;
  match in_flight p !! batch_id with
  | None => Ok (n, None)
  | Some batch => '(n, o) ← sendPipelineBatch peerId batch n; Ok (n, Some o)
  end.

Definition cleanupOldPipelineBatches (now_ms peerId : Z) (n : node) : outcome node :=
  p ← vec_at "m_peerPipeline" (m_peerPipeline n) peerId;
  let to_remove := filter (λ ib, 5000 < now_ms - pb_send_time_ms ib.2) (in_flight p) in
  v ← vec_set "m_peerPipeline" (m_peerPipeline n) peerId
        (p <| in_flight := in_flight p ∖ to_remove |>);
  Ok (n <| m_peerPipeline := v |>).

Definition stopPeerPipeline (peerId : Z) (n : node) : outcome node :=
  p ← vec_at "m_peerPipeline" (m_peerPipeline n) peerId;
  v ← vec_set "m_peerPipeline" (m_peerPipeline n) peerId
        (p <| pending_batches := [] |> <| in_flight := ∅ |>);
  Ok (n <| m_peerPipeline := v |>).

(** [startPeerPipelineThread] on the vector of threads, each given by whether it is
    [joinable]: assigning to one that is would end the process. *)
Definition assign_thread (peerId : Z) (threads : list bool) : outcome (list bool) :=
  j ← vec_at "m_peerSendThreads" threads peerId;
  if (j : bool) then Terminate "std::thread" else vec_set "m_peerSendThreads" threads peerId true.
Definition startPeerPipelineThread (peerId : Z) (threads : list bool) : outcome (list bool) :=
  threads ← (if peerId <? vsize threads then
               j ← vec_at "m_peerSendThreads" threads peerId;
               if (j : bool) then vec_set "m_peerSendThreads" threads peerId false else Ok threads
             else Ok threads);
  threads ← assign_thread peerId threads;
  vec_set "m_peerSendThreads" threads peerId false.

(** The batch size chosen from the window. *)
Definition pipeline_batch_size (inflight : Z) : Z :=
  if PIPELINE_MAX_INFLIGHT * 8 / 10 <=? inflight then 1
  else if PIPELINE_MAX_INFLIGHT * 5 / 10 <=? inflight then 4
  else PIPELINE_BATCH_SIZE.

(** The back-off of an idle sender, in microseconds. *)
Definition pipeline_wait_us (consecutive_empty : Z) : Z :=
  if consecutive_empty <=? 3 then 500
  else if consecutive_empty <=? 10 then 1000
  else if consecutive_empty <=? 30 then 2000 else 5000.

(** One turn of [peerPipelineSender] when nothing else runs meanwhile: the node, the
    counter [consecutive_empty] ([None]: the thread returned) and what was sent. *)
Definition peerPipelineSender_round (now peerId consecutive_empty : Z) (n : node)
    : outcome (node * option Z * list outgoing) :=
  if negb (bool_decide (m_status n = Leader)) then
    n ← stopPeerPipeline peerId n; Ok (n, None, [])
  else
  nextIdx ← vec_at "m_nextIndex" (m_nextIndex n) peerId;
  let lastLogIdx := getLastLogIndex n in
  if nextIdx <=? lastLogIdx then
    p ← vec_at "m_peerPipeline" (m_peerPipeline n) peerId;
    let batchSize := pipeline_batch_size (window_size p) in
    let endIdx := Z.min (nextIdx + batchSize - 1) lastLogIdx in
    can ← canSendPipelineBatch peerId n;
    if (can : bool) then
      '(n, batch) ← createPipelineBatch now peerId nextIdx endIdx n;
      p ← vec_at "m_peerPipeline" (m_peerPipeline n) peerId;
      v ← vec_set "m_peerPipeline" (m_peerPipeline n) peerId
            (p <| in_flight := <[pb_batch_id batch := batch]> (in_flight p) |>);
      let n := n <| m_peerPipeline := v |> in
      '(n, out) ← sendPipelineBatch peerId batch n;
      ni ← vec_set "m_nextIndex" (m_nextIndex n) peerId (endIdx + 1);
      Ok (n <| m_nextIndex := ni |>, Some 0, [out])
    else Ok (n, Some 0, [])
  else
    let consecutive_empty := consecutive_empty + 1 in
    n ← (if consecutive_empty mod 50 =? 0
         then cleanupOldPipelineBatches now peerId n else Ok n);
    Ok (n, Some consecutive_empty, []).
End pipeline.

#[local] Arguments upd : simpl never.

(** ** Batching loses nothing *)

(** What one buffer becomes and what is sent of it. *)
Definition collected (me now1 now2 i : Z) (p : PendingEntries) : bool :=
  negb ((i =? me) || bool_decide (entries p = []) || negb (should_flush now1 now2 p)).

Lemma batch_collect_from_spec i me now1 now2 ps :
  let '(ps', out) := batch_collect_from i me now1 now2 ps in
  length ps' = length ps ∧
  (∀ k p, ps !! k = Some p → ps' !! k =
     Some (if collected me now1 now2 (i + Z.of_nat k) p then p <| entries := [] |> else p)) ∧
  (∀ j es, (j, es) ∈ out ↔ ∃ k p, ps !! k = Some p ∧ j = i + Z.of_nat k ∧ es = entries p ∧
     collected me now1 now2 j p = true).
Proof.
  revert i. induction ps as [|p ps IH]; intros i.
  { cbn. split; [done|]. split; [done|]. intros j es. rewrite elem_of_nil.
    split; [done|]. intros (k & p & Hk & _). done. }
  cbn [batch_collect_from]. specialize (IH (i + 1)).
  destruct (batch_collect_from _ _ _ _ _) as [ps' out]. destruct IH as (Hlen & Hget & Hout).
  assert (∀ b : bool, collected me now1 now2 i p = b →
    (∀ k q, (p :: ps) !! k = Some q →
       ((if b then p <| entries := [] |> else p) :: ps') !! k =
       Some (if collected me now1 now2 (i + Z.of_nat k) q then q <| entries := [] |> else q)))
    as Hhead.
  { intros b Hb [|k] q Hq; simpl in Hq |- *.
    - injection Hq as <-. rewrite Z.add_0_r, Hb. by destruct b.
    - rewrite (Hget k q Hq). by replace (i + 1 + Z.of_nat k) with (i + Z.of_nat (S k)) by lia. }
  assert (∀ j es, (∃ k q, ps !! k = Some q ∧ j = i + 1 + Z.of_nat k ∧ es = entries q ∧
     collected me now1 now2 j q = true) ∨ (j = i ∧ es = entries p ∧ collected me now1 now2 i p = true) ↔
     ∃ k q, (p :: ps) !! k = Some q ∧ j = i + Z.of_nat k ∧ es = entries q ∧
     collected me now1 now2 j q = true) as Htail.
  { intros j es. split.
    - intros [(k & q & Hq & -> & -> & Hc)|(-> & -> & Hc)].
      + exists (S k), q. repeat split; [done|lia|done].
      + exists 0%nat, p. rewrite Z.add_0_r. done.
    - intros ([|k] & q & Hq & -> & -> & Hc); simpl in Hq.
      + injection Hq as <-. right. rewrite Z.add_0_r in *. done.
      + left. exists k, q. repeat split; [done|lia|done]. }
  assert (collected me now1 now2 i p =
    negb ((i =? me) || bool_decide (entries p = []) || negb (should_flush now1 now2 p))) as Hc
    by done.
  destruct (_ || _ || _); cbn [negb] in Hc.
  - split; [cbn; by rewrite Hlen|]. split; [exact (Hhead false Hc)|]. intros j es.
    rewrite <- Htail, Hout, Hc. split; [by left|]. by intros [?|(_ & _ & ?)].
  - split; [cbn; by rewrite Hlen|]. split; [exact (Hhead true Hc)|]. intros j es.
    rewrite <- Htail, elem_of_cons, Hout, Hc. split.
    + intros [Heq|?]; [|by left]. injection Heq as -> ->. by right.
    + intros [?|(-> & -> & _)]; [by right|by left].
Qed.

(** Batching loses and duplicates nothing.  When [batchSenderLoop] collects, the
    buffer of each other peer is either left alone or, when it is non-empty and due,
    emptied with all of its entries put in one batch for that peer; the leader's own slot
    is never sent; no batch is empty or addressed to anyone else. *)
Theorem batch_collect_conserves (now1 now2 : Z) (n : node) :
  let '(n', toSend) := batch_collect now1 now2 n in
  length (m_pendingEntries n') = length (m_pendingEntries n) ∧
  (∀ k p, m_pendingEntries n !! k = Some p → ∃ p', m_pendingEntries n' !! k = Some p' ∧
     let i := Z.of_nat k in
     if bool_decide (i ≠ m_me n ∧ entries p ≠ []) && should_flush now1 now2 p
     then entries p' = [] ∧ (i, entries p) ∈ toSend
     else p' = p ∧ ∀ es, (i, es) ∉ toSend) ∧
  (∀ i es, (i, es) ∈ toSend → es ≠ [] ∧ i ≠ m_me n ∧ ∃ p, m_pendingEntries n !! Z.to_nat i = Some p ∧ es = entries p).
Proof.
  unfold batch_collect.
  pose proof (batch_collect_from_spec 0 (m_me n) now1 now2 (m_pendingEntries n)) as Hspec.
  destruct (batch_collect_from _ _ _ _ _) as [ps out]. destruct Hspec as (Hlen & Hget & Hout).
  upd_simpl. assert (∀ i p, collected (m_me n) now1 now2 i p =
    bool_decide (i ≠ m_me n ∧ entries p ≠ []) && should_flush now1 now2 p) as Hc.
  { intros i p. unfold collected.
    destruct (Z.eqb_spec i (m_me n)), (should_flush now1 now2 p);
      repeat case_bool_decide; cbn; done || tauto. }
  split; [done|]. split.
  - intros k p Hk. exists (if collected (m_me n) now1 now2 (0 + Z.of_nat k) p
      then p <| entries := [] |> else p). split; [by apply Hget|]. cbn zeta.
    rewrite Z.add_0_l, Hc. destruct (bool_decide _ && _) eqn:E.
    + split; [done|]. apply Hout. exists k, p. rewrite Z.add_0_l, Hc. done.
    + split; [done|]. intros es Hin. apply Hout in Hin as (k' & q & Hq & Hkk & _ & Hcol).
      assert (k' = k) as -> by lia. simplify_eq. rewrite Hc in Hcol. congruence.
  - intros i es Hin. apply Hout in Hin as (k & p & Hp & -> & -> & Hcol).
    rewrite Hc in Hcol. b2p. destruct H as [Hne Hnil]. rewrite Z.add_0_l, Nat2Z.id in *.
    split; [done|]. split; [done|]. eauto.
Qed.

Definition batching_leader : node :=
  log_demo <| m_pendingEntries :=
    [mkPendingEntries [] 0 0; mkPendingEntries [mkLogEntry "c" 2 3] 0 4;
     mkPendingEntries [mkLogEntry "c" 2 3] 0 9] |>.

Lemma batch_collect_conserves_witness :
  (batch_collect 10 10 batching_leader).2 = [(1, [mkLogEntry "c" 2 3])] ∧
  ∃ p', m_pendingEntries (batch_collect 10 10 batching_leader).1 !! 1%nat = Some p' ∧
    entries p' = [].
Proof.
  split; [by vm_compute|].
  pose proof (batch_collect_conserves 10 10 batching_leader) as H.
  destruct (batch_collect 10 10 batching_leader) as [n' out]. destruct H as (_ & H & _).
  destruct (H 1%nat (mkPendingEntries [mkLogEntry "c" 2 3] 0 4)) as (p' & Hp & Hres);
    [by vm_compute|].
  exists p'. split; [exact Hp|]. exact (proj1 Hres).
Defined.

(** ** The pipeline window *)

(** At most [PIPELINE_MAX_INFLIGHT] batches in flight, under distinct identifiers that
    have been handed out. *)
Definition window_ok (p : PeerPipelineState) : Prop :=
  window_size p ≤ PIPELINE_MAX_INFLIGHT ∧
  ∀ k b, in_flight p !! k = Some b → k < next_batch_id p ∧ pb_batch_id b = k.

Lemma window_ok_remove p m :
  window_ok p → window_ok (p <| in_flight := in_flight p ∖ m |>).
Proof.
  intros [Hs Hk]. split.
  - unfold window_size in *. upd_simpl. etransitivity; [|exact Hs].
    apply inj_le, map_subseteq_size. apply map_subseteq_spec.
    by intros k b [Hb _]%lookup_difference_Some.
  - upd_simpl. intros k b [Hb _]%lookup_difference_Some. by apply Hk.
Qed.

Lemma window_ok_add p b :
  window_ok p → window_size p < PIPELINE_MAX_INFLIGHT → pb_batch_id b = next_batch_id p →
  window_ok (p <| next_batch_id := next_batch_id p + 1 |>
               <| in_flight := <[pb_batch_id b := b]> (in_flight p) |>).
Proof.
  intros [Hs Hk] Hsize Hid. split.
  - unfold window_size in *. upd_simpl. rewrite map_size_insert_None; [lia|].
    destruct (in_flight p !! pb_batch_id b) as [b'|] eqn:E; [|done].
    destruct (Hk _ _ E). lia.
  - upd_simpl. intros k b' [[<- <-]|[_ Hb]]%lookup_insert_Some; [lia|].
    destruct (Hk _ _ Hb). lia.
Qed.

(** For a peer there is, a sender is started whether or not its slot holds a thread, and is
    left detached. *)
Lemma startPeerPipelineThread_ok peerId threads :
  0 ≤ peerId < vsize threads →
  startPeerPipelineThread peerId threads = Ok (<[Z.to_nat peerId := false]> threads).
Proof.
  intros Hp. pose proof Hp as Hlen. unfold vsize in Hlen. unfold startPeerPipelineThread, assign_thread. zbool.
  assert (∀ (l : list bool) b, length l = length threads →
    vec_set "m_peerSendThreads" l peerId b = Ok (<[Z.to_nat peerId := b]> l)) as Hset.
  { intros l b Hl. unfold vec_set. by rewrite decide_True by (rewrite Hl; lia). }
  assert (∀ l : list bool, length l = length threads → l !! Z.to_nat peerId = Some false →
    (threads0 ← (j ← vec_at "m_peerSendThreads" l peerId;
       if (j : bool) then Terminate "std::thread" else vec_set "m_peerSendThreads" l peerId true);
     vec_set "m_peerSendThreads" threads0 peerId false) = Ok (<[Z.to_nat peerId := false]> l)) as Hgo.
  { intros l Hl Hf. assert (vec_at "m_peerSendThreads" l peerId = Ok false) as ->
      by (apply vec_at_Ok; split; [lia|done]).
    cbn [mbind outcome_bind]. rewrite Hset by done. cbn [mbind outcome_bind].
    rewrite Hset by by rewrite length_insert. by rewrite list_insert_insert_eq. }
  destruct (vec_at_in_range "m_peerSendThreads" threads peerId) as (j & Hj & ->); [done|].
  cbn [mbind outcome_bind]. destruct j.
  - rewrite Hset by done. cbn [mbind outcome_bind]. rewrite Hgo.
    + by rewrite list_insert_insert_eq.
    + by rewrite length_insert.
    + apply list_lookup_insert_eq. lia.
  - cbn [mbind outcome_bind]. by apply Hgo.
Qed.

(** The copy loop stops at the last index of the batch. *)
Lemma batch_entries_take i last l :
  entries_from i l → i ≤ last → last < i + vsize l →
  batch_entries last l = take (Z.to_nat (last - i + 1)) l.
Proof.
  revert i. induction l as [|e l IH]; intros i Hfrom Hi Hlast; [unfold vsize in Hlast; cbn in Hlast; lia|].
  cbn [batch_entries]. assert (logindex e = i) as He by (rewrite (Hfrom 0%nat e) by done; lia).
  rewrite He. destruct (Z.leb_spec last i).
  - assert (last = i) as -> by lia. by replace (Z.to_nat (i - i + 1)) with 1%nat by lia.
  - replace (Z.to_nat (last - i + 1)) with (S (Z.to_nat (last - (i + 1) + 1))) by lia.
    cbn [take]. f_equal. apply IH.
    + intros k e' He'. rewrite (Hfrom (S k) e') by done. lia.
    + lia.
    + unfold vsize in *. cbn [length] in Hlast. lia.
Qed.

Section pipeline_facts.
Context `{Ar : BoostArchive}.

Lemma sendPipelineBatch_eq peerId b n :
  log_ok n → m_lastSnapshotIncludeIndex n < pb_first_index b ≤ pb_last_index b →
  pb_last_index b ≤ getLastLogIndex n → vsize (m_logs n) < 2 ^ 63 →
  ∃ es, sendPipelineBatch peerId b n =
    Ok (n <| m_total_batches_sent := m_total_batches_sent n + 1 |>,
        OutAppend peerId (mkAppendEntriesArgs (m_currentTerm n) (m_me n)
          (pb_first_index b - 1) (term_at n (pb_first_index b - 1)) es
          (m_commitIndex n) (pb_batch_id b))) ∧
    vsize es = pb_last_index b - pb_first_index b + 1 ∧
    ∀ k, (k < length es)%nat → es !! k = log_entry n (pb_first_index b + Z.of_nat k).
Proof.
  intros Hok Hb Hlast Hsmall. unfold sendPipelineBatch. rewrite getLogTerm_term_at.
  cbn [mbind outcome_bind]. unfold getSlicesIndexFromLogIndex. zbool.
  set (start := pb_first_index b - m_lastSnapshotIncludeIndex n - 1).
  unfold getLastLogIndex in Hlast.
  assert (to_size_t start = start) as -> by (apply to_size_t_small; lia).
  zbool.
  set (l := drop (Z.to_nat start) (m_logs n)).
  assert (vsize l = vsize (m_logs n) - start) as Hl.
  { unfold l, vsize in *. rewrite length_drop. lia. }
  assert (entries_from (pb_first_index b) l) as Hfrom.
  { intros k e He. unfold l in He. rewrite lookup_drop in He. rewrite (Hok _ _ He). lia. }
  rewrite (batch_entries_take (pb_first_index b)) by (done || lia).
  eexists. split; [reflexivity|].
  assert (length (take (Z.to_nat (pb_last_index b - pb_first_index b + 1)) l) =
    Z.to_nat (pb_last_index b - pb_first_index b + 1)) as Hlen.
  { rewrite length_take. unfold vsize in *. lia. }
  split; [unfold vsize; rewrite Hlen; lia|]. intros k Hk. rewrite Hlen in Hk.
  rewrite lookup_take_lt by done. unfold l. rewrite lookup_drop. unfold log_entry.
  rewrite decide_True by lia. f_equal. lia.
Qed.

Lemma pipeline_batch_size_pos w : 1 ≤ pipeline_batch_size w.
Proof. unfold pipeline_batch_size, PIPELINE_BATCH_SIZE. repeat case_match; lia. Qed.

Lemma cleanup_window now peerId n p :
  m_peerPipeline n !! Z.to_nat peerId = Some p → 0 ≤ peerId → window_ok p →
  ∃ p', cleanupOldPipelineBatches now peerId n =
    Ok (n <| m_peerPipeline := <[Z.to_nat peerId := p']> (m_peerPipeline n) |>) ∧ window_ok p'.
Proof.
  intros Hp H0 Hw. unfold cleanupOldPipelineBatches.
  assert (vec_at "m_peerPipeline" (m_peerPipeline n) peerId = Ok p) as ->
    by (apply vec_at_Ok; split; [lia|done]).
  apply lookup_lt_Some in Hp as Hlt. cbn [mbind outcome_bind]. unfold vec_set.
  rewrite decide_True by lia. cbn [mbind outcome_bind]. eexists. split; [reflexivity|].
  by apply window_ok_remove.
Qed.

Section turn.
Context (now peerId next : Z) (p : PeerPipelineState) (n : node).
Hypothesis (Hst : m_status n = Leader) (Hp : 0 ≤ peerId).
Hypothesis (Hnext : m_nextIndex n !! Z.to_nat peerId = Some next).
Hypothesis (Hpipe : m_peerPipeline n !! Z.to_nat peerId = Some p) (Hw : window_ok p).

Lemma pipeline_turn_at :
  vec_at "m_nextIndex" (m_nextIndex n) peerId = Ok next ∧
  vec_at "m_peerPipeline" (m_peerPipeline n) peerId = Ok p.
Proof. by split; apply vec_at_Ok. Qed.

(** The turn that sends. *)
Lemma pipeline_turn_sends idle :
  log_ok n → m_lastSnapshotIncludeIndex n < next → vsize (m_logs n) < 2 ^ 63 →
  next ≤ getLastLogIndex n → window_size p < PIPELINE_MAX_INFLIGHT →
  let endIdx := Z.min (next + pipeline_batch_size (window_size p) - 1) (getLastLogIndex n) in
  ∃ n' p' es, peerPipelineSender_round now peerId idle n =
      Ok (n', Some 0, [OutAppend peerId (mkAppendEntriesArgs (m_currentTerm n) (m_me n) (next - 1)
                     (term_at n (next - 1)) es (m_commitIndex n) (next_batch_id p))]) ∧
    same_log n n' ∧ m_peerPipeline n' = <[Z.to_nat peerId := p']> (m_peerPipeline n) ∧
    window_ok p' ∧ m_nextIndex n' = <[Z.to_nat peerId := endIdx + 1]> (m_nextIndex n) ∧
    vsize es = endIdx - next + 1 ∧
    ∀ k, (k < length es)%nat → es !! k = log_entry n (next + Z.of_nat k).
Proof.
  intros Hok Hsnap Hsmall Hle Hroom endIdx. unfold peerPipelineSender_round.
  rewrite bool_decide_eq_true_2 by done. cbn [negb].
  apply lookup_lt_Some in Hnext as Hlt1. apply lookup_lt_Some in Hpipe as Hlt2.
  destruct pipeline_turn_at as [-> Hat]. cbn [mbind outcome_bind].
  destruct (Z.leb_spec next (getLastLogIndex n)) as [_|]; [|lia].
  rewrite Hat. cbn [mbind outcome_bind]. unfold canSendPipelineBatch. rewrite Hat.
  cbn [mbind outcome_bind].
  destruct (Z.ltb_spec (window_size p) PIPELINE_MAX_INFLIGHT) as [_|]; [|lia].
  assert (∀ (l : list PeerPipelineState) q, length l = length (m_peerPipeline n) →
    vec_set "m_peerPipeline" l peerId q = Ok (<[Z.to_nat peerId := q]> l)) as Hset.
  { intros l q Hl. unfold vec_set. by rewrite decide_True by lia. }
  unfold createPipelineBatch. rewrite Hat. cbn [mbind outcome_bind].
  rewrite Hset by done. cbn [mbind outcome_bind]. upd_simpl.
  fold endIdx. set (b := mkPipelineBatch _ _ _ _ _ _).
  assert (∀ q, vec_at "m_peerPipeline" (<[Z.to_nat peerId := q]> (m_peerPipeline n)) peerId = Ok q)
    as Hat'.
  { intros q. apply vec_at_Ok. split; [lia|]. by apply list_lookup_insert_eq. }
  rewrite Hat'. cbn [mbind outcome_bind].
  rewrite Hset by apply length_insert. cbn [mbind outcome_bind].
  rewrite list_insert_insert_eq. upd_simpl.
  match goal with |- context [sendPipelineBatch peerId b ?m] => set (n2 := m) end.
  pose proof (pipeline_batch_size_pos (window_size p)) as Hbs.
  destruct (sendPipelineBatch_eq peerId b n2) as (es & -> & Hsize & Hes);
    [exact Hok| | |exact Hsmall|].
  { change (m_lastSnapshotIncludeIndex n < next ≤ endIdx). unfold endIdx. lia. }
  { change (endIdx ≤ getLastLogIndex n). unfold endIdx. lia. }
  cbn [mbind outcome_bind]. upd_simpl. change (m_nextIndex n2) with (m_nextIndex n).
  unfold vec_set. rewrite decide_True by lia.
  cbn [mbind outcome_bind]. eexists _, _, es. split; [reflexivity|].
  split; [done|]. split; [reflexivity|]. split; [by apply window_ok_add|].
  split; [reflexivity|].
  split; [exact Hsize|exact Hes].
Qed.

(** The turn that does not. *)
Lemma pipeline_turn_waits idle :
  ¬ (next ≤ getLastLogIndex n ∧ window_size p < PIPELINE_MAX_INFLIGHT) →
  ∃ n' idle' p', peerPipelineSender_round now peerId idle n = Ok (n', Some idle', []) ∧
    same_log n n' ∧ m_peerPipeline n' = <[Z.to_nat peerId := p']> (m_peerPipeline n) ∧
    window_ok p' ∧ m_nextIndex n' = m_nextIndex n.
Proof.
  intros Hno. unfold peerPipelineSender_round. rewrite bool_decide_eq_true_2 by done. cbn [negb].
  destruct pipeline_turn_at as [-> Hat]. cbn [mbind outcome_bind].
  assert (m_peerPipeline n = <[Z.to_nat peerId := p]> (m_peerPipeline n)) as Hid
    by by rewrite list_insert_id.
  destruct (Z.leb_spec next (getLastLogIndex n)) as [Hle|Hgt].
  - rewrite Hat. cbn [mbind outcome_bind]. unfold canSendPipelineBatch. rewrite Hat.
    cbn [mbind outcome_bind].
    destruct (Z.ltb_spec (window_size p) PIPELINE_MAX_INFLIGHT) as [Hroom|Hfull]; [tauto|].
    by exists n, 0, p.
  - destruct ((idle + 1) mod 50 =? 0); [|by exists n, (idle + 1), p].
    destruct (cleanup_window now peerId n p Hpipe Hp Hw) as (p' & -> & Hw').
    cbn [mbind outcome_bind]. by eexists _, _, p'.
Qed.
End turn.

(** One turn of [peerPipelineSender] at a leader.  It always returns, keeps the
    window of the peer within [PIPELINE_MAX_INFLIGHT] and its batch identifiers
    distinct; while the peer lacks entries and the window has room it sends exactly the
    log entries from [nextIndex] to the end of a batch whose size the window decides,
    after the term of the entry before them, and moves [nextIndex] just past what it
    sent; otherwise it sends nothing and leaves [nextIndex] alone. *)
Theorem pipeline_round_correct (now peerId idle next : Z) (p : PeerPipelineState) (n : node) :
  log_ok n → m_status n = Leader → 0 ≤ peerId →
  m_nextIndex n !! Z.to_nat peerId = Some next → m_lastSnapshotIncludeIndex n < next →
  m_peerPipeline n !! Z.to_nat peerId = Some p → window_ok p → vsize (m_logs n) < 2 ^ 63 →
  ∃ n' idle' out p', peerPipelineSender_round now peerId idle n = Ok (n', Some idle', out) ∧
    same_log n n' ∧ m_peerPipeline n' = <[Z.to_nat peerId := p']> (m_peerPipeline n) ∧
    window_ok p' ∧
    if bool_decide (next ≤ getLastLogIndex n ∧ window_size p < PIPELINE_MAX_INFLIGHT) then
      let endIdx := Z.min (next + pipeline_batch_size (window_size p) - 1) (getLastLogIndex n) in
      m_nextIndex n' = <[Z.to_nat peerId := endIdx + 1]> (m_nextIndex n) ∧
      ∃ es, out = [OutAppend peerId (mkAppendEntriesArgs (m_currentTerm n) (m_me n) (next - 1)
                     (term_at n (next - 1)) es (m_commitIndex n) (next_batch_id p))] ∧
        vsize es = endIdx - next + 1 ∧
        ∀ k, (k < length es)%nat → es !! k = log_entry n (next + Z.of_nat k)
    else out = [] ∧ m_nextIndex n' = m_nextIndex n.
Proof.
  intros Hok Hst Hp Hnext Hsnap Hpipe Hw Hsmall. case_bool_decide as Hd.
  - destruct Hd as [Hle Hroom].
    destruct (pipeline_turn_sends now peerId next p n Hst Hp Hnext Hpipe Hw idle)
      as (n' & p' & es & E & Hl & Hpp & Hw' & Hn & Hes); [done..|].
    exists n', 0. eexists _, p'. split; [exact E|]. do 3 (split; [done|]).
    split; [exact Hn|]. by exists es.
  - destruct (pipeline_turn_waits now peerId next p n Hst Hp Hnext Hpipe Hw idle Hd)
      as (n' & idle' & p' & E & Hl & Hpp & Hw' & Hn).
    by exists n', idle', [], p'.
Qed.
End pipeline_facts.

(** The leader of [log_demo] sends its last entry to peer 1. *)
Lemma pipeline_round_correct_witness :
  ∃ n' idle' es, peerPipelineSender_round 5 1 0 log_demo =
    Ok (n', Some idle', [OutAppend 1 (mkAppendEntriesArgs 2 0 2 2 es 1 0)]) ∧
    es !! 0%nat = Some (mkLogEntry "c" 2 3).
Proof.
  destruct (pipeline_round_correct 5 1 0 3 (mkPeerPipelineState [] ∅ 0) log_demo)
    as (n' & idle' & out & p' & Hrun & _ & _ & _ & Hres).
  - by apply log_demo_ok.
  - reflexivity.
  - lia.
  - reflexivity.
  - reflexivity.
  - reflexivity.
  - split; [by vm_compute|]. intros k b Hb.
    change ((∅ : gmap Z PipelineBatch) !! k = Some b) in Hb. by rewrite lookup_empty in Hb.
  - reflexivity.
  - rewrite bool_decide_eq_true_2 in Hres by (split; by vm_compute).
    destruct Hres as (_ & es & Hout & Hsize & Hes). exists n', idle', es.
    rewrite Hrun, Hout. split; [reflexivity|].
    rewrite Hes; [reflexivity|]. unfold vsize in Hsize. vm_compute in Hsize.
    destruct es; [discriminate Hsize|cbn; lia].
Defined.
