(* ===== verification/RaftSteps.v ===== *)
(** What every handler of a Raft node preserves.  A handler that does not win or begin
    an election is {e quiet}: its effect on term, vote, leadership, log length and disk
    is bounded by one relation, proved here once per handler and used by [Cluster]. *)
From S2P Require Import Prelude OpCoder Persister RaftTypes RaftLog RaftElection.
From S2P Require Import RaftReplication RaftPipeline.
Open Scope Z_scope.

#[local] Arguments upd : simpl never.

Section quiet.
Context `{Ar : BoostArchive}.

(** The state the constructor leaves, before anything was written. *)
Definition blank (n : node) : Prop :=
  m_currentTerm n = 0 ∧ m_votedFor n = -1 ∧ m_logs n = [] ∧
  m_lastSnapshotIncludeIndex n = 0 ∧ m_lastSnapshotIncludeTerm n = 0.

(** What is on disk makes a restart come back to the present term, vote and log. *)
Definition disk_ok (n : node) : Prop :=
  durable_ok n ∨ (st_raftState (m_persister n) = "" ∧ blank n).

Definition persisted_same (n n' : node) : Prop :=
  m_persister n' = m_persister n ∧ m_currentTerm n' = m_currentTerm n ∧
  m_votedFor n' = m_votedFor n ∧ same_log n n'.

Lemma disk_ok_same n n' : persisted_same n n' → disk_ok n → disk_ok n'.
Proof.
  intros (Hp & Ht & Hv & Hl & Hs & Hst). unfold disk_ok, durable_ok, blank, persistDate.
  by rewrite Hp, Ht, Hv, Hl, Hs, Hst.
Qed.

(** The term and command of an entry in the node's log or waiting in a buffer. *)
Definition entry_key (e : LogEntry) : Z * string := (logterm e, command e).
Definition has_entry (n : node) (k : Z * string) : Prop :=
  (∃ e, e ∈ m_logs n ∧ entry_key e = k) ∨
  ∃ p e, p ∈ m_pendingEntries n ∧ e ∈ entries p ∧ entry_key e = k.

(** [es] are the entries the step brings in. *)
Record quiet (es : list LogEntry) (n n' : node) : Prop := {
  q_vote : vote_le n n';
  q_me : m_me n' = m_me n;
  q_size : m_peers_size n' = m_peers_size n;
  q_vectors : vectors_ok n → vectors_ok n';
  q_disk : disk_ok n → disk_ok n';
  q_snap : m_lastSnapshotIncludeIndex n' = m_lastSnapshotIncludeIndex n;
  q_leader : m_status n' = Leader →
    m_status n = Leader ∧ m_currentTerm n' = m_currentTerm n;
  q_log : (length (m_logs n) ≤ length (m_logs n'))%nat;
  q_append : m_status n' = Leader → m_logs n `prefix_of` m_logs n';
  q_entries : ∀ k, has_entry n' k → has_entry n k ∨ k ∈ entry_key <$> es;
  q_chan : ∀ m, m ∈ applyChan n' → m ∈ applyChan n ∨
    ∃ t, has_entry n (t, am_command m) ∨ (t, am_command m) ∈ entry_key <$> es
}.

#[export] Instance quiet_preorder es : PreOrder (quiet es).
Proof.
  split.
  - intros n. constructor; try done; try reflexivity; auto.
  - intros a b c [V1 M1 S1 W1 D1 N1 L1 G1 A1 E1 C1] [V2 M2 S2 W2 D2 N2 L2 G2 A2 E2 C2].
    constructor; [by transitivity b|congruence|congruence|auto|auto|congruence| |lia| | |].
    + intros Hc. destruct (L2 Hc) as [Hb ->]. exact (L1 Hb).
    + intros Hc. destruct (L2 Hc) as [Hb _]. transitivity (m_logs b); auto.
    + intros k Hk. destruct (E2 k Hk) as [Hb|]; [by apply E1|by right].
    + intros m Hm. destruct (C2 m Hm) as [Hb|(t & [Hb|Hb])]; [by apply C1| |].
      * right. exists t. by apply E1.
      * right. exists t. by right.
Qed.

(** A step that keeps what is persisted, the shape and the role. *)
Lemma quiet_same es n n' :
  persisted_same n n' → m_me n' = m_me n → m_peers_size n' = m_peers_size n →
  m_status n' = m_status n → m_pendingEntries n' = m_pendingEntries n →
  applyChan n' = applyChan n → (vectors_ok n → vectors_ok n') → quiet es n n'.
Proof.
  intros Hps Hme Hsz Hst Hpend Hch Hv. pose proof Hps as (_ & Ht & Hvf & Hl & Hs & _).
  constructor; try done.
  - right. rewrite Ht, Hvf. auto.
  - by apply disk_ok_same.
  - by rewrite Hst.
  - by rewrite Hl.
  - by rewrite Hl.
  - intros k. unfold has_entry. rewrite Hl, Hpend. auto.
  - intros m. rewrite Hch. auto.
Qed.

(** A step that writes the state, keeping log, buffers and queue. *)
Lemma quiet_written es n n' :
  vote_le n n' → durable_ok n' → m_me n' = m_me n → m_peers_size n' = m_peers_size n →
  m_logs n' = m_logs n → m_lastSnapshotIncludeIndex n' = m_lastSnapshotIncludeIndex n →
  m_pendingEntries n' = m_pendingEntries n → applyChan n' = applyChan n →
  (vectors_ok n → vectors_ok n') →
  (m_status n' = Leader → m_status n = Leader ∧ m_currentTerm n' = m_currentTerm n) →
  quiet es n n'.
Proof.
  intros Hle Hd Hme Hsz Hl Hs Hpend Hch Hv Hlead. constructor; try done.
  - by left.
  - by rewrite Hl.
  - by rewrite Hl.
  - intros k. unfold has_entry. rewrite Hl, Hpend. auto.
  - intros m. rewrite Hch. auto.
Qed.

(** Stepping down for a larger term, with the state written. *)
Lemma quiet_step_down es t n : m_currentTerm n < t → quiet es n (persist (step_down t n)).
Proof. intros Ht. apply quiet_written; try done. by left. Qed.
End quiet.
#[export] Hint Resolve quiet_step_down : kvdb.
#[export] Hint Extern 1 (quiet _ ?n ?n) => reflexivity : kvdb.

(** ** The handlers *)

Section handlers.
Context `{Ar : BoostArchive}.

(** Fields an assignment to the others keeps: decided by reading them. *)
Ltac quiet_update :=
  apply quiet_same; [by repeat split|done|done|done|done|done|
    first [done | intros (? & ? & ? & ? & ? & ?); unfold vectors_ok; upd_simpl;
                  rewrite ?length_insert; by repeat split]].

Lemma quiet_adopt t n : quiet [] n (persist (adopt_term t n)).
Proof.
  apply quiet_written; try done; try (unfold adopt_term; by case_match). apply vote_le_adopt.
Qed.

Lemma RequestVote1_quiet now args n n' r :
  RequestVote1 now args n = Ok (n', r) → quiet [] n n'.
Proof.
  intros H. pose proof (RequestVote1_vote_le _ _ _ _ _ H) as Hle.
  destruct (RequestVote1_eq now args n) as [vs Heq]. rewrite Heq in H. injection H as <- _.
  destruct (grants args n); [|apply quiet_adopt].
  apply quiet_written; try done; try (unfold adopt_term; by case_match).
Qed.

(** *** Appending *)

Definition log_update (es : list LogEntry) (n n' : node) : Prop :=
  ∃ l, n' = n <| m_logs := l |> ∧ (length (m_logs n) ≤ length l)%nat ∧
    ∀ e, e ∈ l → e ∈ m_logs n ∨ e ∈ es.

Lemma append_loop_update es n n' : for_each append_entry es n = Ok n' → log_update es n n'.
Proof.
  intros H. apply (for_each_Ok append_entry (log_update es n) es n n'); [| |done].
  - intros e s s' Hin (l & -> & Hl & Hes) Hs. unfold append_entry in Hs. upd_simpl_in Hs.
    destruct (_ <? _).
    { injection Hs as <-. exists (l ++ [e]). rewrite length_app. split; [done|]. split; [lia|].
      intros e' [?|He]%elem_of_app; [auto|]. apply list_elem_of_singleton in He as ->. auto. }
    inv_ok. destruct (negb (_ =? _)).
    + inv_ok. apply vec_set_Ok in Hx1 as [_ ->]. subst s'.
      eexists. split; [reflexivity|]. split; [by rewrite length_insert|].
      intros e' [k Hk]%list_elem_of_lookup. apply list_lookup_insert_Some in Hk
        as [(_ & <- & _)|[_ Hk]]; [by right|]. apply Hes. by eapply list_elem_of_lookup_2.
    + injection Hs as <-. by exists l.
  - exists (m_logs n). split; [by destruct n|]. auto.
Qed.

(** What an accepted or rejected request leaves. *)
Lemma append_checked_result args reply n n' r :
  append_checked args reply n = Ok (n', r) →
  ∃ l c, n' = persist (n <| m_logs := l |> <| m_commitIndex := c |>) ∧
    log_update (ae_entries args) n (n <| m_logs := l |>) ∧
    (aer_success r = false → l = m_logs n ∧ c = m_commitIndex n) ∧
    (aer_success r = true →
       for_each append_entry (ae_entries args) n = Ok (n <| m_logs := l |>) ∧
       c ≤ getLastLogIndex n').
Proof.
  assert (n = n <| m_logs := m_logs n |> <| m_commitIndex := m_commitIndex n |>) as Hid
    by (by destruct n).
  assert (log_update (ae_entries args) n (n <| m_logs := m_logs n |>)) as Hsame.
  { exists (m_logs n). auto. }
  unfold append_checked. destruct (_ <? _).
  { intros [= <- <-]. exists (m_logs n), (m_commitIndex n). by rewrite <- Hid. }
  destruct (_ <? _).
  { intros [= <- <-]. exists (m_logs n), (m_commitIndex n). by rewrite <- Hid. }
  intros H. inv_ok. destruct x.
  - inv_ok. pose proof (append_loop_update _ _ _ Hx0) as Hup.
    destruct Hup as (l & -> & Hl & Hes).
    assert (log_update (ae_entries args) n (n <| m_logs := l |>)) as Hup by (by exists l).
    destruct (m_commitIndex (n <| m_logs := l |>) <? ae_leadercommit args).
    + subst. eexists l, _. split; [reflexivity|].
      split; [done|]. split; [done|]. intros _. split; [done|].
      destruct (_ <=? _) eqn:E in Hx2; [|discriminate Hx2]. b2p. exact E.
    + subst. exists l, (m_commitIndex n). split; [by destruct n|].
      split; [done|]. split; [done|]. intros _. split; [done|].
      destruct (_ <=? _) eqn:E in Hx2; [|discriminate Hx2]. b2p. exact E.
  - inv_ok. subst. exists (m_logs n), (m_commitIndex n). by rewrite <- Hid.
Qed.

Lemma quiet_ae_state now args n l c :
  m_currentTerm n ≤ ae_term args →
  log_update (ae_entries args) n (n <| m_logs := l |>) →
  quiet (ae_entries args) n
    (persist ((ae_state now args n) <| m_logs := l |> <| m_commitIndex := c |>)).
Proof.
  intros Ht (l' & Heq & Hl & Hes). apply (f_equal m_logs) in Heq. upd_simpl_in Heq. subst l'.
  assert (∀ k, has_entry (persist ((ae_state now args n) <| m_logs := l |>
    <| m_commitIndex := c |>)) k → has_entry n k ∨ k ∈ entry_key <$> ae_entries args) as Hent.
  { intros k [(e & He & <-)|(p & e & Hp & He)].
    - destruct (Hes e He); [left; left; eauto|right; by apply list_elem_of_fmap_2].
    - left. right. exists p, e. split; [|done]. revert Hp. unfold ae_state, adopt_term.
      by case_match. }
  constructor; try (unfold ae_state, adopt_term; by case_match); try done.
  - apply (vote_le_adopt (ae_term args) n).
  - by left.
  - intros m Hm. left. revert Hm. unfold ae_state, adopt_term. by case_match.
Qed.

Lemma AppendEntries1_quiet now args n n' r :
  AppendEntries1 now args n = Ok (n', r) → quiet (ae_entries args) n n'.
Proof.
  intros H. destruct (decide (ae_term args < m_currentTerm n)).
  - rewrite AppendEntries1_stale in H by done. injection H as <- _. reflexivity.
  - rewrite AppendEntries1_checked in H by lia.
    apply append_checked_result in H as (l & c & -> & Hup & _).
    apply quiet_ae_state; [lia|]. destruct Hup as (l' & Heq & Hl & Hes).
    apply (f_equal m_logs) in Heq. upd_simpl_in Heq. subst l'.
    destruct (ae_state_fields now args n) as (Hlog & _). rewrite Hlog in Hl, Hes. by exists l.
Qed.

(** *** The leader's own steps *)

Lemma addToPendingBatch_quiet now e n : quiet [e] n (addToPendingBatch now e n).
Proof.
  constructor; try done; auto.
  - right. auto.
  - unfold vectors_ok, addToPendingBatch. upd_simpl. by rewrite length_imap.
  - intros k [?|(p & e' & Hp & He & <-)]; [left; by left|]. unfold addToPendingBatch in Hp.
    upd_simpl_in Hp. apply list_elem_of_lookup in Hp as [i Hi].
    rewrite list_lookup_imap in Hi. destruct (m_pendingEntries n !! i) as [q|] eqn:Hq; [|done].
    apply list_elem_of_lookup_2 in Hq. cbn in Hi. injection Hi as <-.
    destruct (Z.of_nat i =? m_me n); [left; right; eauto|]. upd_simpl_in He.
    assert (e' ∈ entries q ++ [e]) as He'.
    { destruct (entries q) eqn:E; [|by rewrite E in He].
      change (e' ∈ entries q ++ [e]) in He. by rewrite E in He. }
    apply elem_of_app in He' as [?|?]; [left; right; eauto|].
    right. by apply list_elem_of_fmap_2.
Qed.

Lemma Start_refused now op n n' i : Start now op n = (n', i, false) → n' = n.
Proof. unfold Start. case_match; [by intros [= <- _]|]. discriminate. Qed.

Lemma Start_accepted now op n n' i :
  Start now op n = (n', i, true) →
  let e := mkLogEntry (encodeOp op) (m_currentTerm n) i in
  quiet [e] n n' ∧ m_status n = Leader ∧ i = getLastLogIndex n + 1 ∧ m_logs n' = m_logs n ++ [e].
Proof.
  unfold Start. destruct (bool_decide (m_status n = Leader)) eqn:Hst; [|discriminate].
  cbn [negb]. cbn zeta. intros H. injection H as <- <-. b2p.
  set (e := mkLogEntry (encodeOp op) (m_currentTerm n) (getLastLogIndex n + 1)).
  split; [|done]. transitivity (persist (n <| m_logs := m_logs n ++ [e] |>));
    [|apply addToPendingBatch_quiet].
  constructor; try done; auto.
  - right. auto.
  - by left.
  - change (m_logs (persist ?x)) with (m_logs x). upd_simpl. rewrite length_app. lia.
  - intros _. by exists [e].
  - intros k [(e' & He & <-)|?]; [|left; by right].
    change (e' ∈ m_logs n ++ [e]) in He. apply elem_of_app in He as [?|?].
    + left. left. eauto.
    + right. by apply list_elem_of_fmap_2.
Qed.

Lemma doHeartBeat_quiet now n n' out :
  vectors_ok n → doHeartBeat now n = Ok (n', out) → quiet [] n n'.
Proof.
  intros Hv. destruct (decide (m_status n = Leader)) as [Hst|Hst].
  - destruct (doHeartBeat_eq now n Hv Hst) as (v & -> & Hlen & _). intros [= <- _].
    apply quiet_same; try done. intros [Hl Hv']. split; [exact (eq_trans Hlen Hl)|exact Hv'].
  - unfold doHeartBeat. rewrite bool_decide_eq_false_2 by done. by intros [= <- _].
Qed.

Lemma handleTermMismatch_quiet t n : quiet [] n (handleTermMismatch t n).1.
Proof.
  unfold handleTermMismatch. destruct (Z.ltb_spec (m_currentTerm n) t);
    [by apply quiet_step_down|by case_match].
Qed.

Lemma handleLogMismatch_quiet peerId reply n n' :
  handleLogMismatch peerId reply n = Ok n' → quiet [] n n'.
Proof.
  unfold handleLogMismatch. destruct (negb _); intros H; inv_ok; [|by subst].
  apply vec_set_Ok in Hx as [_ ->]. subst n'. quiet_update.
Qed.

Lemma handlePipelineResponse_quiet peerId m n n' :
  handlePipelineResponse peerId m n = Ok n' → quiet [] n n'.
Proof.
  unfold handlePipelineResponse, slidePipelineWindow. intros H. inv_ok.
  apply vec_set_Ok in Hx0 as [_ ->]. subst. quiet_update.
Qed.

Lemma updatePeerSyncState_quiet peerId args a n n' a' :
  updatePeerSyncState peerId args a n = Ok (n', a') → quiet [] n n'.
Proof.
  unfold updatePeerSyncState. intros H. inv_ok. subst.
  apply vec_set_Ok in Hx0 as [_ ->]. apply vec_set_Ok in Hx1 as [_ ->].
  transitivity (acknowledged peerId (Z.max x (ae_prevlogindex args + vsize (ae_entries args))) n);
    [unfold acknowledged; quiet_update|].
  destruct (0 <? _); [by eapply handlePipelineResponse_quiet|by injection Hx2 as <-].
Qed.

Lemma tryUpdateCommitIndex_quiet args a n n' a' :
  tryUpdateCommitIndex args a n = Ok (n', a') → quiet [] n n'.
Proof.
  unfold tryUpdateCommitIndex. case_match; [by intros [= <- _]|]. intros H'. inv_ok. subst.
  destruct (last _); [case_match|]; [quiet_update|reflexivity..].
Qed.

Lemma sendAppendEntries_quiet peerId args rpc a n n' a' b :
  sendAppendEntries peerId args rpc a n = Ok (n', a', b) → quiet [] n n'.
Proof.
  unfold sendAppendEntries. destruct (callAppendEntriesRpc rpc) as [reply|];
    [|by intros [= <- _ _]].
  pose proof (handleTermMismatch_quiet (aer_term reply) n) as Hq.
  destruct (handleTermMismatch _ n) as [m stop]. cbn [fst] in Hq.
  destruct stop; [by intros [= <- _ _]|]. destruct (negb _); [by intros [= <- _ _]|].
  intros H. transitivity m; [done|]. inv_ok. destruct (negb _).
  - inv_ok. subst. by eapply handleLogMismatch_quiet.
  - inv_ok. destruct x0 as [n1 a1]. inv_ok. destruct x0 as [n2 a2]. inv_ok. subst.
    transitivity n1; [by eapply updatePeerSyncState_quiet|by eapply tryUpdateCommitIndex_quiet].
Qed.

Lemma applier_loop_quiet fuel msgs n msgs' n' :
  applier_loop fuel msgs n = Ok (msgs', n') → quiet [] n n'.
Proof.
  revert msgs n. induction fuel as [|fuel IH]; intros msgs n; cbn [applier_loop];
    [by intros [= _ <-]|].
  destruct (_ <? _); [|by intros [= _ <-]]. intros H. inv_ok. apply IH in H.
  etransitivity; [|exact H]. quiet_update.
Qed.

Lemma applier_loop_msgs fuel msgs n msgs' n' :
  applier_loop fuel msgs n = Ok (msgs', n') →
  m_logs n' = m_logs n ∧ m_pendingEntries n' = m_pendingEntries n ∧ applyChan n' = applyChan n ∧
  ∀ m, m ∈ msgs' → m ∈ msgs ∨ ∃ e, e ∈ m_logs n ∧ command e = am_command m.
Proof.
  revert msgs n. induction fuel as [|fuel IH]; intros msgs n; cbn [applier_loop];
    [intros [= <- <-]; auto|].
  destruct (_ <? _); [|intros [= <- <-]; auto]. intros H. inv_ok.
  apply IH in H as (H1 & H2 & H3 & H4). split; [done|]. split; [done|]. split; [done|].
  intros m Hm. destruct (H4 m Hm) as [[?|Hx']%elem_of_app|?]; [by left| |by right].
  apply list_elem_of_singleton in Hx' as ->. right. exists x. split; [|done].
  apply vec_at_Ok in Hx as [_ Hx]. by eapply list_elem_of_lookup_2.
Qed.

Lemma applierTicker_round_quiet n n' : applierTicker_round n = Ok n' → quiet [] n n'.
Proof.
  unfold applierTicker_round. intros H. inv_ok. destruct x as [msgs m]. inv_ok. subst.
  pose proof (applier_loop_msgs _ _ _ _ _ Hx) as (Hl & Hp & Hc & Hm).
  apply applier_loop_quiet in Hx. rewrite push_all.
  constructor; try (destruct Hx; assumption).
  intros m' Hm'. change (m' ∈ applyChan m ++ msgs) in Hm'. rewrite Hc in Hm'.
  apply elem_of_app in Hm' as [?|Hin]; [by left|]. right.
  destruct (Hm m' Hin) as [?%not_elem_of_nil|(e & He & Heq)]; [done|].
  exists (logterm e). left. left. exists e. split; [done|]. unfold entry_key. by rewrite Heq.
Qed.

Lemma batch_collect_length i me now1 now2 ps :
  length (batch_collect_from i me now1 now2 ps).1 = length ps.
Proof.
  revert i. induction ps as [|p ps IH]; intros i; [done|]. cbn [batch_collect_from].
  specialize (IH (i + 1)). destruct (batch_collect_from _ _ _ _ _) as [ps' out].
  case_match; cbn in *; by rewrite IH.
Qed.

(** What is kept in the buffers and what is moved out was in the buffers. *)
Lemma batch_collect_entries i me now1 now2 ps :
  (∀ p e, p ∈ (batch_collect_from i me now1 now2 ps).1 → e ∈ entries p →
     ∃ q, q ∈ ps ∧ e ∈ entries q) ∧
  (∀ j es e, (j, es) ∈ (batch_collect_from i me now1 now2 ps).2 → e ∈ es →
     ∃ q, q ∈ ps ∧ e ∈ entries q).
Proof.
  revert i. induction ps as [|p ps IH]; intros i; [split; cbn; set_solver|].
  cbn [batch_collect_from]. specialize (IH (i + 1)).
  destruct (batch_collect_from _ _ _ _ _) as [ps' out]. cbn [fst snd] in IH.
  destruct IH as [IH1 IH2].
  assert (∀ p' e, p' ∈ ps' → e ∈ entries p' → ∃ q, q ∈ p :: ps ∧ e ∈ entries q) as H1.
  { intros p' e Hp He. destruct (IH1 p' e Hp He) as (q & Hq & Hin). exists q. set_solver. }
  assert (∀ j es e, (j, es) ∈ out → e ∈ es → ∃ q, q ∈ p :: ps ∧ e ∈ entries q) as H2.
  { intros j es e Hj He. destruct (IH2 j es e Hj He) as (q & Hq & Hin). exists q. set_solver. }
  case_match; cbn [fst snd]; split; try exact H2.
  - intros p' e [->|Hp]%elem_of_cons He; [exists p; set_solver|by eapply H1].
  - intros p' e [->|Hp]%elem_of_cons He; [|by eapply H1].
    change (e ∈ []) in He. by apply not_elem_of_nil in He.
  - intros j es e [Heq|Hj]%elem_of_cons He; [|by eapply H2].
    injection Heq as -> ->. exists p. set_solver.
Qed.

Lemma batch_collect_has now1 now2 n j es e :
  (j, es) ∈ (batch_collect now1 now2 n).2 → e ∈ es → has_entry n (entry_key e).
Proof.
  unfold batch_collect. pose proof (proj2 (batch_collect_entries 0 (m_me n) now1 now2
    (m_pendingEntries n)) j es e) as Hent.
  destruct (batch_collect_from _ _ _ _ _) as [ps out]. cbn [snd] in *.
  intros Hj He. destruct (Hent Hj He) as (q & Hq & Hin). right. eauto.
Qed.

Lemma batch_collect_quiet now1 now2 n : quiet [] n (batch_collect now1 now2 n).1.
Proof.
  unfold batch_collect. pose proof (batch_collect_length 0 (m_me n) now1 now2
    (m_pendingEntries n)) as Hlen. pose proof (proj1 (batch_collect_entries 0 (m_me n) now1 now2
    (m_pendingEntries n))) as Hent.
  destruct (batch_collect_from _ _ _ _ _) as [ps out]. cbn [fst] in *.
  constructor; try done; auto.
  - right. auto.
  - intros (? & ? & ? & ? & ? & Hp). repeat split; try done. exact (eq_trans Hlen Hp).
  - intros k [?|(p & e & Hp & He & <-)]; left; [by left|]. right.
    destruct (Hent p e Hp He) as (q & Hq & Hin). eauto.
Qed.

Lemma batch_thread_quiet b n : quiet [] n (n <| m_batchSenderThread := b |>).
Proof. quiet_update. Qed.

(** *** Elections *)

Lemma doElection_begin_result now n n' args :
  doElection_begin now n = Some (n', args) →
  quiet [] n n' ∧ m_currentTerm n' = m_currentTerm n + 1 ∧ m_votedFor n' = m_me n ∧
  rv_term args = m_currentTerm n + 1 ∧ rv_candidateid args = m_me n.
Proof.
  unfold doElection_begin. destruct (bool_decide _); [done|]. cbn zeta.
  intros H. injection H as <- <-. split; [|done]. apply quiet_written; try done.
  left. change (m_currentTerm n < m_currentTerm n + 1). lia.
Qed.

(** A reply either leaves the candidate quiet, counting at most one granted vote of its
    own term, or makes it the leader of its present term. *)
Lemma election_peer_result reply i n v n' v' :
  vectors_ok n → 0 ≤ v + 1 < 2 ^ 64 →
  election_peer (λ _, reply) i (n, v) = Ok (n', v') →
  (quiet [] n n' ∧ v' = v) ∨
  (∃ r, i ≠ m_me n ∧ reply = Some r ∧ rvr_votegranted r = true ∧
     rvr_term r = m_currentTerm n ∧
     ((n' = n ∧ v' = v + 1) ∨
      (majority n ≤ v + 1 ∧ m_status n ≠ Leader ∧ n' = leader_state n ∧ v' = 0))).
Proof.
  intros Hv Hsmall. unfold election_peer.
  destruct (Z.eqb_spec i (m_me n)); [intros [= <- <-]; by left|].
  rewrite sendRequestVote_eq by done. destruct reply as [r|]; [|intros [= <- <-]; by left].
  destruct (Z.ltb_spec (m_currentTerm n) (rvr_term r)).
  { intros [= <- <-]. left. split; [by apply quiet_step_down|done]. }
  destruct (Z.eqb_spec (rvr_term r) (m_currentTerm n)); cbn [andb];
    [|intros [= <- <-]; by left].
  destruct (rvr_votegranted r) eqn:Hg; [|intros [= <- <-]; by left].
  destruct (Z.leb_spec (majority n) (v + 1)).
  - case_match; [done|]. b2p. cbn [mbind outcome_bind]. intros [<- <-]%Ok_inj2. right. exists r. do 4 (split; [done|]). by right.
  - intros [= <- <-]. right. exists r. do 4 (split; [done|]). by left.
Qed.

Lemma disk_ok_leader n : disk_ok (leader_state n).
Proof. left. by destruct (leader_state_fields n) as (_ & _ & _ & _ & _ & _ & _ & _ & ? & _). Qed.
End handlers.

(** ** Restarting *)

Section restart.
Context `{Ar : BoostArchive} `{!BoostArchiveLaws Ar}.

(** What a restart keeps, whatever the log looks like. *)
Record restarted (n n' : node) : Prop := {
  rs_me : m_me n' = m_me n;
  rs_size : m_peers_size n' = m_peers_size n;
  rs_term : m_currentTerm n' = m_currentTerm n;
  rs_vote : m_votedFor n' = m_votedFor n;
  rs_snap : m_lastSnapshotIncludeIndex n' = m_lastSnapshotIncludeIndex n;
  rs_status : m_status n' = Follower;
  rs_vectors : vectors_ok n';
  rs_disk : disk_ok n';
  rs_snapterm : m_lastSnapshotIncludeTerm n' = m_lastSnapshotIncludeTerm n;
  rs_commit : m_commitIndex n' = 0;
  rs_applied : m_lastApplied n' = 0;
  rs_next : m_nextIndex n' = replicate (m_peers_size n) 0;
  rs_match : m_matchIndex n' = replicate (m_peers_size n) 0;
  rs_numbered : log_ok n';
  rs_pending : ∀ p, p ∈ m_pendingEntries n' → entries p = [];
  rs_chan : applyChan n' = [];
  rs_log : (λ e, (logterm e, command e)) <$> m_logs n' =
           (λ e, (logterm e, command e)) <$> m_logs n
}.

Lemma rebuild_logs_persist i l :
  (λ log, mkBoostPersistLogEntry (logterm log) (command log)) <$> rebuild_logs i l = l.
Proof.
  apply list_eq. intros k. rewrite list_lookup_fmap, rebuild_logs_spec.
  destruct (l !! k) as [[t c]|]; done.
Qed.

Lemma rebuild_logs_content i l :
  (λ e, (logterm e, command e)) <$> rebuild_logs i l = (λ p, (bp_term p, bp_command p)) <$> l.
Proof.
  apply list_eq. intros k. rewrite !list_lookup_fmap, rebuild_logs_spec. by destruct (l !! k).
Qed.

Lemma rebuild_logs_numbered i l k e :
  rebuild_logs i l !! k = Some e → logindex e = i + 1 + Z.of_nat k.
Proof. rewrite rebuild_logs_spec. destruct (l !! k); [|done]. by intros [= <-]. Qed.

Lemma restarted_quiet n n' : restarted n n' → quiet [] n n'.
Proof.
  intros []. constructor; try done.
  - right. rewrite rs_term0, rs_vote0. auto.
  - by rewrite rs_status0.
  - apply (f_equal length) in rs_log0. rewrite !length_fmap in rs_log0. lia.
  - by rewrite rs_status0.
  - intros k [(e & He & <-)|(p & e & Hp & He & _)].
    + left. left. apply (list_elem_of_fmap_2 (λ e, (logterm e, command e))) in He.
      rewrite rs_log0 in He. apply list_elem_of_fmap in He as (e0 & He0 & Hin).
      exists e0. split; [done|]. exact (eq_sym He0).
    + rewrite (rs_pending0 p Hp) in He. by apply not_elem_of_nil in He.
  - rewrite rs_chan0. intros m Hm. by apply not_elem_of_nil in Hm.
Qed.

Lemma init_restarted n now :
  disk_ok n → m_lastSnapshotIncludeIndex n = 0 →
  ∃ n', init (m_peers_size n) (m_me n) (m_persister n) now = Ok n' ∧ restarted n n'.
Proof.
  intros [Hd|[He (Ht & Hv & Hl & Hs & Hst)]] Hsnap; unfold init, readPersist.
  - unfold durable_ok in Hd. rewrite Hd. unfold persistDate.
    rewrite bool_decide_eq_false_2 by apply oarchive_nonempty.
    rewrite iarchive_oarchive. cbn [mbind outcome_bind].
    upd_simpl. cbn [bp_lastSnapshotIncludeIndex]. rewrite Hsnap. zbool.
    eexists. split; [reflexivity|]. constructor; upd_simpl; try done.
    + unfold vectors_ok. upd_simpl. cbn. by rewrite !length_replicate.
    + left. unfold durable_ok. upd_simpl. cbn [m_persister]. rewrite Hd. unfold persistDate.
      upd_simpl. cbn [bp_logs bp_currentTerm bp_votedFor bp_lastSnapshotIncludeIndex
        bp_lastSnapshotIncludeTerm]. rewrite Hsnap. do 2 f_equal. by rewrite rebuild_logs_persist.
    + intros k e. upd_simpl. cbn [bp_logs bp_lastSnapshotIncludeIndex m_lastSnapshotIncludeIndex].
      apply rebuild_logs_numbered.
    + cbn. by intros p [-> _]%elem_of_replicate.
    + cbn [bp_logs]. by rewrite rebuild_logs_content, <- list_fmap_compose.
  - rewrite He. rewrite bool_decide_eq_true_2 by done. cbn [mbind outcome_bind].
    eexists. split; [reflexivity|]. constructor; cbn; try congruence; try done.
    + unfold vectors_ok. cbn. by rewrite !length_replicate.
    + right. by repeat split.
    + by intros p [-> _]%elem_of_replicate.
    + by rewrite Hl.
Qed.
End restart.
