(* ===== verification/Cluster.v ===== *)
(** A cluster of servers: the handlers of the [Raft*] files composed as the threads of
    the program compose them, over a network that may lose, delay, reorder and repeat
    requests, with crashes and restarts at any moment. *)
From S2P Require Import Prelude OpCoder Persister RaftTypes RaftLog RaftElection.
From S2P Require Import RaftReplication RaftPipeline RaftSteps.
Open Scope Z_scope.

#[local] Arguments upd : simpl never.

(** ** Threads *)

(** A [doElection] in progress: the request it sends, the peers not asked yet and the
    shared counter [votedNum]. *)
Record round := mkRound { rd_args : RequestVoteArgs; rd_left : list Z; rd_votes : Z }.

(** A detached [sendAppendEntries] thread; [th_counter] is its shared [appendNums]. *)
Record thread := mkThread {
  th_from : Z; th_to : Z; th_args : AppendEntriesArgs; th_counter : nat
}.

(** A detached [leaderSendSnapShot] thread and what it captured. *)
Record snap_thread := mkSnapThread {
  st_from : Z; st_to : Z; st_index : Z; st_term : Z; st_data : string; st_counter : nat
}.

(** Where the thread of [batchSenderLoop] stands; a thread at the top of its loop has no
    entry in [c_batch]. *)
Inductive batch_pc :=
  | Checked
  | Sending (toSend : list (Z * list LogEntry))
  | Building (peerId : Z) (es : list LogEntry) (toSend : list (Z * list LogEntry)).

(** The servers, their threads, the messages sent so far, and three histories: the votes
    given (term, voter, candidate), the elections won (term, leader) and the entries
    that leaders created. *)
Record cluster := mkCluster {
  c_servers : gmap Z node;
  c_rounds : gmap Z round;
  c_batch : gmap Z batch_pc;
  c_threads : list thread;
  c_snap_threads : list snap_thread;
  c_counters : list Z;
  c_vote_requests : list (Z * RequestVoteArgs);
  c_vote_replies : list (Z * RequestVoteArgs * RequestVoteReply);
  c_appends : list (Z * AppendEntriesArgs);
  c_append_replies : list (Z * AppendEntriesArgs * AppendEntriesReply);
  c_installs : list (Z * InstallSnapshotRequest);
  c_install_replies : list (Z * InstallSnapshotResponse);
  h_ballots : list (Z * Z * Z);
  h_elected : list (Z * Z);
  h_started : list LogEntry
}.
#[export] Instance cluster_expand : Expand cluster := λ c,
  mkCluster (c_servers c) (c_rounds c) (c_batch c) (c_threads c) (c_snap_threads c)
    (c_counters c) (c_vote_requests c) (c_vote_replies c) (c_appends c)
    (c_append_replies c) (c_installs c) (c_install_replies c) (h_ballots c) (h_elected c)
    (h_started c).

Definition set_server (i : Z) (n : node) (c : cluster) : cluster :=
  c <| c_servers := <[i := n]> (c_servers c) |>.

(** The threads a heartbeat round starts; they share one counter. *)
Definition spawn (from : Z) (k : nat) (out : list outgoing) : list thread :=
  omap (λ o, match o with
             | OutAppend p args => Some (mkThread from p args k)
             | OutSnapshot _ _ _ _ => None
             end) out.
Definition spawn_snapshots (from : Z) (k : nat) (out : list outgoing) : list snap_thread :=
  omap (λ o, match o with
             | OutAppend _ _ => None
             | OutSnapshot p i t d => Some (mkSnapThread from p i t d k)
             end) out.
Definition sent (ts : list thread) : list (Z * AppendEntriesArgs) :=
  (λ t, (th_to t, th_args t)) <$> ts.

(** Whether a reply to the request [args] sent to [j] has been received, or the RPC
    failed. *)
Definition received {A B} (replies : list (Z * A * B)) (j : Z) (args : A) (o : option B) : Prop :=
  match o with Some r => (j, args, r) ∈ replies | None => True end.

Definition won (n n' : node) : bool :=
  bool_decide (m_status n' = Leader) && negb (bool_decide (m_status n = Leader)).

(** What of a step the rest of the process of server [i] sees: the outcome of a [Start],
    or that the process is a new one. *)
Inductive event :=
  | Internal
  | Command (i : Z) (op : Op) (index : Z) (isLeader : bool)
  | Restarted (i : Z).

Section cluster.
Context `{Ar : BoostArchive}.
(** The number of servers. *)
Variable N : nat.

Inductive lstep (c : cluster) : event → cluster → Prop :=
  (** [electionTimeoutTicker] calls [doElection]. *)
  | cs_begin_election i n n' args now :
      c_servers c !! i = Some n → c_rounds c !! i = None →
      doElection_begin now n = Some (n', args) →
      lstep c Internal ((set_server i n' c)
        <| c_rounds := <[i := mkRound args (indices (m_peers_size n)) 1]> (c_rounds c) |>
        <| h_ballots := (m_currentTerm n', i, m_me n) :: h_ballots c |>)
  (** [sendRequestVote] sends its request. *)
  | cs_request_vote i j l rd :
      c_rounds c !! i = Some rd → rd_left rd = j :: l → j ≠ i →
      lstep c Internal (c <| c_vote_requests := (j, rd_args rd) :: c_vote_requests c |>)
  (** The RPC [RequestVote] runs at its destination. *)
  | cs_vote j n args now n' r :
      (j, args) ∈ c_vote_requests c → c_servers c !! j = Some n →
      RequestVote1 now args n = Ok (n', r) →
      lstep c Internal ((set_server j n' c)
        <| c_vote_replies := (j, args, r) :: c_vote_replies c |>
        <| h_ballots := (if rvr_votegranted r
                         then (rv_term args, j, rv_candidateid args) :: h_ballots c
                         else h_ballots c) |>)
  (** [sendRequestVote] goes on with the reply, or with the failure of the RPC. *)
  | cs_vote_reply i n rd j l o n' v' :
      c_servers c !! i = Some n → c_rounds c !! i = Some rd → rd_left rd = j :: l →
      received (c_vote_replies c) j (rd_args rd) o →
      election_peer (λ _, o) j (n, rd_votes rd) = Ok (n', v') →
      lstep c Internal ((set_server i n' c)
        <| c_rounds := <[i := mkRound (rd_args rd) l v']> (c_rounds c) |>
        <| h_elected := (if won n n' then (m_currentTerm n', i) :: h_elected c
                         else h_elected c) |>)
  | cs_end_round i rd :
      c_rounds c !! i = Some rd → rd_left rd = [] →
      lstep c Internal (c <| c_rounds := delete i (c_rounds c) |>)
  (** [KvServer] submits a command. *)
  | cs_start i n now op n' index isLeader :
      c_servers c !! i = Some n → Start now op n = (n', index, isLeader) →
      lstep c (Command i op index isLeader) ((set_server i n' c)
        <| h_started := (if isLeader
                         then mkLogEntry (encodeOp op) (m_currentTerm n) index :: h_started c
                         else h_started c) |>)
  (** [leaderHearBeatTicker] calls [doHeartBeat]. *)
  | cs_heartbeat i n now n' out :
      c_servers c !! i = Some n → doHeartBeat now n = Ok (n', out) →
      let ts := spawn i (length (c_counters c)) out in
      lstep c Internal ((set_server i n' c)
        <| c_counters := c_counters c ++ [1] |>
        <| c_threads := c_threads c ++ ts |>
        <| c_appends := c_appends c ++ sent ts |>
        <| c_snap_threads := c_snap_threads c ++
                             spawn_snapshots i (length (c_counters c)) out |>)
  (** The RPC [AppendEntries] runs at its destination. *)
  | cs_append j n args now n' r :
      (j, args) ∈ c_appends c → c_servers c !! j = Some n →
      AppendEntries1 now args n = Ok (n', r) →
      lstep c Internal ((set_server j n' c)
        <| c_append_replies := (j, args, r) :: c_append_replies c |>)
  (** [sendAppendEntries] goes on and its thread ends. *)
  | cs_append_reply n l1 t l2 o a n' a' b :
      c_threads c = l1 ++ t :: l2 → c_servers c !! th_from t = Some n →
      received (c_append_replies c) (th_to t) (th_args t) o →
      c_counters c !! th_counter t = Some a →
      sendAppendEntries (th_to t) (th_args t) o a n = Ok (n', a', b) →
      lstep c Internal ((set_server (th_from t) n' c)
        <| c_threads := l1 ++ l2 |>
        <| c_counters := <[th_counter t := a']> (c_counters c) |>)
  (** [batchSenderLoop], between two acquisitions of a lock at a time. *)
  | cs_batch_top i n :
      c_servers c !! i = Some n → c_batch c !! i = None → m_batchSenderThread n = true →
      m_batchRunning n = true → m_status n = Leader →
      lstep c Internal (c <| c_batch := <[i := Checked]> (c_batch c) |>)
  | cs_batch_exit i n :
      c_servers c !! i = Some n → c_batch c !! i = None → m_batchSenderThread n = true →
      m_batchRunning n = false ∨ m_status n ≠ Leader →
      lstep c Internal (set_server i (n <| m_batchSenderThread := false |>) c)
  | cs_batch_collect i n now1 now2 :
      c_servers c !! i = Some n → c_batch c !! i = Some Checked →
      lstep c Internal ((set_server i (batch_collect now1 now2 n).1 c)
        <| c_batch := <[i := Sending (batch_collect now1 now2 n).2]> (c_batch c) |>)
  | cs_batch_check i n p es l :
      c_servers c !! i = Some n → c_batch c !! i = Some (Sending ((p, es) :: l)) →
      lstep c Internal (c <| c_batch :=
        <[i := if bool_decide (es = []) || negb (bool_decide (m_status n = Leader))
               then Sending l else Building p es l]> (c_batch c) |>)
  | cs_batch_build i n p es l args :
      c_servers c !! i = Some n → c_batch c !! i = Some (Building p es l) →
      batch_request es n = Ok (Some args) →
      let t := mkThread i p args (length (c_counters c)) in
      lstep c Internal (c <| c_batch := <[i := Sending l]> (c_batch c) |>
                 <| c_counters := c_counters c ++ [1] |>
                 <| c_threads := c_threads c ++ [t] |>
                 <| c_appends := c_appends c ++ sent [t] |>)
  | cs_batch_done i :
      c_batch c !! i = Some (Sending []) →
      lstep c Internal (c <| c_batch := delete i (c_batch c) |>)
  (** [applierTicker]. *)
  | cs_apply i n n' :
      c_servers c !! i = Some n → applierTicker_round n = Ok n' →
      lstep c Internal (set_server i n' c)
  (** [leaderSendSnapShot], [InstallSnapshot] and its reply. *)
  | cs_install_send t n :
      t ∈ c_snap_threads c → c_servers c !! st_from t = Some n →
      lstep c Internal (c <| c_installs :=
        (st_to t, leaderSendSnapShot_request (st_index t) (st_term t) (st_data t) n)
          :: c_installs c |>)
  | cs_install j n req n' r :
      (j, req) ∈ c_installs c → c_servers c !! j = Some n →
      InstallSnapshot1 req n = (n', r) →
      lstep c Internal ((set_server j n' c) <| c_install_replies := (j, r) :: c_install_replies c |>)
  | cs_install_reply n l1 t l2 o a n' a' :
      c_snap_threads c = l1 ++ t :: l2 → c_servers c !! st_from t = Some n →
      match o with Some r => (st_to t, r) ∈ c_install_replies c | None => True end →
      c_counters c !! st_counter t = Some a →
      leaderSendSnapShot (st_to t) (st_index t) o a n = Ok (n', a') →
      lstep c Internal ((set_server (st_from t) n' c)
        <| c_snap_threads := l1 ++ l2 |>
        <| c_counters := <[st_counter t := a']> (c_counters c) |>)
  (** The process is killed and started again on the same disk. *)
  | cs_restart i n now n' :
      c_servers c !! i = Some n →
      init (m_peers_size n) (m_me n) (m_persister n) now = Ok n' →
      lstep c (Restarted i) ((set_server i n' c)
        <| c_rounds := delete i (c_rounds c) |>
        <| c_batch := delete i (c_batch c) |>
        <| c_threads := filter (λ t, th_from t ≠ i) (c_threads c) |>
        <| c_snap_threads := filter (λ t, st_from t ≠ i) (c_snap_threads c) |>).
Definition cstep (c c' : cluster) : Prop := ∃ e, lstep c e c'.
Lemma lstep_cstep c e c' : lstep c e c' → cstep c c'.
Proof. by exists e. Qed.

(** [N] servers with empty disks and no thread or message. *)
Definition initial (c : cluster) : Prop :=
  (∀ i, is_Some (c_servers c !! i) ↔ 0 ≤ i < Z.of_nat N) ∧
  (∀ i n, c_servers c !! i = Some n → ∃ now, init N i (mkStore "" "") now = Ok n) ∧
  ∃ servers, c = mkCluster servers ∅ ∅ [] [] [] [] [] [] [] [] [] [] [] [].

Definition reachable (c : cluster) : Prop := ∃ c0, initial c0 ∧ steps cstep c0 c.
End cluster.

(** ** The invariant of elections *)

Section safety.
Context `{Ar : BoostArchive}.
Variable N : nat.

Definition quorum : Z := Z.of_nat N / 2 + 1.

Record node_inv (i : Z) (n : node) : Prop := {
  ni_id : 0 ≤ i < Z.of_nat N;
  ni_me : m_me n = i;
  ni_size : m_peers_size n = N;
  ni_vectors : vectors_ok n;
  ni_disk : disk_ok n;
  ni_snap : m_lastSnapshotIncludeIndex n = 0
}.

(** The voters that back candidate [i] in term [T]. *)
Definition backers (c : cluster) (T i : Z) (V : list Z) : Prop :=
  NoDup V ∧ ∀ v, v ∈ V → (T, v, i) ∈ h_ballots c.

(** A vote of term [T] for [i] binds its voter. *)
Definition bound (T i : Z) (n : node) : Prop :=
  T < m_currentTerm n ∨ T = m_currentTerm n ∧ m_votedFor n = i.

Definition elected_votes (c : cluster) (T i : Z) : Z :=
  if bool_decide ((T, i) ∈ h_elected c) then quorum else 0.

Record round_inv (c : cluster) (i : Z) (rd : round) : Prop := {
  ri_candidate : rv_candidateid (rd_args rd) = i;
  ri_left : NoDup (rd_left rd);
  ri_term : ∃ n, c_servers c !! i = Some n ∧ rv_term (rd_args rd) ≤ m_currentTerm n;
  ri_votes : ∃ V, backers c (rv_term (rd_args rd)) i V ∧
    (∀ v, v ∈ V → v ∈ rd_left rd → v = i) ∧ 0 ≤ rd_votes rd ∧
    rd_votes rd + elected_votes c (rv_term (rd_args rd)) i ≤ vsize V
}.

Record cinv (c : cluster) : Prop := {
  ci_nodes : ∀ i n, c_servers c !! i = Some n → node_inv i n;
  ci_requests : ∀ j args, (j, args) ∈ c_vote_requests c → 0 ≤ rv_candidateid args;
  ci_ballots : ∀ T j i, (T, j, i) ∈ h_ballots c →
    0 ≤ i ∧ ∃ n, c_servers c !! j = Some n ∧ bound T i n;
  ci_once : ∀ T j i i', (T, j, i) ∈ h_ballots c → (T, j, i') ∈ h_ballots c → i = i';
  ci_replies : ∀ j args r, (j, args, r) ∈ c_vote_replies c → rvr_votegranted r = true →
    rvr_term r = rv_term args ∧ (rv_term args, j, rv_candidateid args) ∈ h_ballots c;
  ci_rounds : ∀ i rd, c_rounds c !! i = Some rd → round_inv c i rd;
  ci_elected : ∀ T i, (T, i) ∈ h_elected c →
    (∃ V, backers c T i V ∧ quorum ≤ vsize V) ∧
    ∃ n, c_servers c !! i = Some n ∧ T ≤ m_currentTerm n;
  ci_leader : ∀ i n, c_servers c !! i = Some n → m_status n = Leader →
    (m_currentTerm n, i) ∈ h_elected c;
  ci_snaps : c_snap_threads c = [] ∧ c_installs c = []
}.

Lemma bound_vote_le T i n n' : 0 ≤ i → vote_le n n' → bound T i n → bound T i n'.
Proof. unfold vote_le, bound. lia. Qed.
Lemma vote_le_term n n' : vote_le n n' → m_currentTerm n ≤ m_currentTerm n'.
Proof. unfold vote_le. lia. Qed.

Lemma node_inv_quiet es i n n' : quiet es n n' → node_inv i n → node_inv i n'.
Proof. intros [] []. constructor; try congruence; auto. Qed.

Lemma lookup_set_server i j n c :
  c_servers (set_server i n c) !! j = if decide (i = j) then Some n else c_servers c !! j.
Proof. unfold set_server. upd_simpl. case_decide; simplify_map_eq; done. Qed.

(** Everything said of servers survives when one server moves on with its term and
    vote growing. *)
Lemma server_mono (P : node → Prop) i n n' c j :
  (P n → P n') → c_servers c !! i = Some n →
  (∃ m, c_servers c !! j = Some m ∧ P m) →
  ∃ m, c_servers (set_server i n' c) !! j = Some m ∧ P m.
Proof.
  intros HP Hi (m & Hm & HPm). rewrite lookup_set_server. case_decide; [|eauto].
  subst. exists n'. split; [done|]. rewrite Hi in Hm. injection Hm as ->. auto.
Qed.

Lemma round_inv_server i n n' c j rd :
  c_servers c !! i = Some n → vote_le n n' →
  round_inv c j rd → round_inv (set_server i n' c) j rd.
Proof.
  intros Hi Hle [H1 H2 H3 H4]. constructor; try done.
  eapply (server_mono (λ m, _ ≤ m_currentTerm m)); [|done|done].
  pose proof (vote_le_term _ _ Hle). lia.
Qed.

(** The common case: one server takes a quiet step. *)
Lemma cinv_quiet es i n n' c :
  cinv c → c_servers c !! i = Some n → quiet es n n' → cinv (set_server i n' c).
Proof.
  intros [I1 I2 I3 I4 I5 I6 I7 I8 I9] Hi Hq. pose proof (q_vote _ _ _ Hq) as Hle.
  pose proof (vote_le_term _ _ Hle) as Ht. constructor; try assumption.
  - intros j m. rewrite lookup_set_server. case_decide; [|apply I1].
    intros [= <-]. subst. by eapply node_inv_quiet, I1.
  - intros T j k Hb. destruct (I3 T j k Hb) as [Hk Hn]. split; [done|].
    eapply (server_mono (bound T k)); [|done|done]. by apply bound_vote_le.
  - intros j rd Hr. apply (round_inv_server _ n); [done|done|]. by apply I6.
  - intros T j He. destruct (I7 T j He) as [HV Hn]. split; [exact HV|].
    eapply (server_mono (λ m, T ≤ m_currentTerm m)); [|done|done]. lia.
  - intros j m. rewrite lookup_set_server. case_decide; [|apply I8].
    intros [= <-] Hl. subst. destruct (q_leader _ _ _ Hq Hl) as [Hl' ->]. by apply I8.
Qed.

(** The election invariant reads only some of the cluster. *)
Lemma cinv_frame c c' :
  c_servers c' = c_servers c → c_rounds c' = c_rounds c →
  c_vote_requests c' = c_vote_requests c → c_vote_replies c' = c_vote_replies c →
  c_snap_threads c' = c_snap_threads c → c_installs c' = c_installs c →
  h_ballots c' = h_ballots c → h_elected c' = h_elected c → cinv c → cinv c'.
Proof.
  destruct c, c'; cbn; intros -> -> -> -> -> -> -> ->. intros [].
  constructor; try assumption.
  - intros i rd Hr. by destruct (ci_rounds0 i rd Hr).
Qed.

Lemma cinv_delete_round i c : cinv c → cinv (c <| c_rounds := delete i (c_rounds c) |>).
Proof.
  intros []. constructor; try assumption.
  intros j rd. upd_simpl. intros [_ Hr]%lookup_delete_Some. by destruct (ci_rounds0 j rd Hr).
Qed.

Lemma cinv_insert_round i rd c :
  cinv c → round_inv c i rd → cinv (c <| c_rounds := <[i := rd]> (c_rounds c) |>).
Proof.
  intros [] Hrd. constructor; try assumption.
  intros j rd'. upd_simpl. intros [[<- <-]|[_ Hr]]%lookup_insert_Some; [by destruct Hrd|].
  by destruct (ci_rounds0 j rd' Hr).
Qed.

Lemma backers_mono c c' T i V :
  (∀ b, b ∈ h_ballots c → b ∈ h_ballots c') → backers c T i V → backers c' T i V.
Proof. intros Hsub [? Hb]. split; [done|]. intros v Hv. by apply Hsub, Hb. Qed.

Lemma cinv_add_ballot j n T k c :
  cinv c → c_servers c !! j = Some n → T = m_currentTerm n → m_votedFor n = k → 0 ≤ k →
  cinv (c <| h_ballots := (T, j, k) :: h_ballots c |>).
Proof.
  intros [I1 I2 I3 I4 I5 I6 I7 I8 I9] Hj -> Hv Hk.
  assert (∀ b, b ∈ h_ballots c → b ∈ (m_currentTerm n, j, k) :: h_ballots c) as Hsub
    by (intros; by apply list_elem_of_further).
  assert (∀ k', (m_currentTerm n, j, k') ∈ h_ballots c → k' = k) as Hsame.
  { intros k' Hb. destruct (I3 _ _ _ Hb) as (_ & m & Hm & Hbound).
    rewrite Hj in Hm. injection Hm as <-. unfold bound in Hbound. lia. }
  constructor; try assumption; upd_simpl.
  - intros T j' k' [Heq|Hb]%elem_of_cons; [|by apply I3].
    injection Heq as -> -> ->. split; [done|]. exists n. split; [done|]. by right.
  - intros T j' k1 k2 [E1|H1]%elem_of_cons [E2|H2]%elem_of_cons; simplify_eq; eauto.
    by rewrite (Hsame _ H2).
  - intros j' args r Hr Hg. destruct (I5 _ _ _ Hr Hg). split; [done|]. by apply Hsub.
  - intros i rd Hr. destruct (I6 _ _ Hr) as [? ? ? (V & HV & ?)]. constructor; try done.
    exists V. split; [by eapply backers_mono|done].
  - intros T i He. destruct (I7 _ _ He) as [(V & HV & ?) ?]. split; [|done].
    exists V. split; [by eapply backers_mono|done].
Qed.

Lemma leader_state_vote_le n : vote_le n (leader_state n).
Proof. right. destruct (leader_state_fields n) as (_ & _ & _ & -> & -> & _). auto. Qed.

Lemma leader_state_inv i n : node_inv i n → node_inv i (leader_state n).
Proof.
  intros [? ? ? ? ? ?].
  destruct (leader_state_fields n) as (_ & _ & _ & _ & _ & _ & _ & _ & _ & Hme & Hsz & _ & Hs & _).
  constructor; [done|by rewrite Hme|by rewrite Hsz|by apply leader_state_vectors|
    apply disk_ok_leader|by rewrite Hs].
Qed.

Lemma cinv_win i n V c :
  cinv c → c_servers c !! i = Some n → c_rounds c !! i = None →
  backers c (m_currentTerm n) i V → quorum ≤ vsize V →
  cinv ((set_server i (leader_state n) c)
          <| h_elected := (m_currentTerm n, i) :: h_elected c |>).
Proof.
  intros [I1 I2 I3 I4 I5 I6 I7 I8 I9] Hi Hnone HV Hq.
  pose proof (leader_state_vote_le n) as Hle.
  destruct (leader_state_fields n) as (_ & _ & _ & Hterm & _).
  constructor; try assumption; upd_simpl.
  - intros j m. rewrite lookup_set_server. case_decide; [|apply I1].
    intros [= <-]. subst. by apply leader_state_inv, I1.
  - intros T j k Hb. destruct (I3 T j k Hb) as [Hk Hn]. split; [done|].
    eapply (server_mono (bound T k)); [|done|done]. by apply bound_vote_le.
  - intros j rd Hr.
    destruct (round_inv_server i n _ c j rd Hi Hle (I6 j rd Hr)) as [H1 H2 H3 (U & H4 & H5 & H6 & H7)].
    constructor; [done|done|exact H3|]. exists U. split; [done|]. split; [done|]. split; [done|].
    etransitivity; [|exact H7]. apply Z.add_le_mono_l. unfold elected_votes. upd_simpl.
    rewrite (bool_decide_ext _ ((rv_term (rd_args rd), j) ∈ h_elected c)); [done|].
    rewrite elem_of_cons. split; [intros [Heq|?]; [|done]|by right].
    injection Heq as _ ->. change (c_rounds c !! i = Some rd) in Hr. congruence.
  - intros T j [Heq|He]%elem_of_cons.
    + injection Heq as -> ->. split; [by exists V|]. rewrite lookup_set_server, decide_True by done.
      eexists. split; [done|]. lia.
    + destruct (I7 T j He) as [HU Hn]. split; [exact HU|].
      eapply (server_mono (λ m, T ≤ m_currentTerm m)); [|done|done]. lia.
  - intros j m. rewrite lookup_set_server. case_decide as Hij.
    + intros [= <-] _. rewrite Hterm, Hij. by left.
    + intros Hm Hl. right. by apply I8.
Qed.

(** Backers are servers, so there are at most [N] of them. *)
Lemma backers_bound c T i V : cinv c → backers c T i V → vsize V ≤ Z.of_nat N.
Proof.
  intros Hc [Hnd HV]. unfold vsize. rewrite <- (length_indices N).
  apply inj_le, submseteq_length, NoDup_submseteq; [done|]. intros v Hv.
  destruct (ci_ballots _ Hc _ _ _ (HV v Hv)) as (_ & n & Hn & _).
  apply indices_in. by destruct (ci_nodes _ Hc _ _ Hn).
Qed.

(** A vote received is one more backer. *)
Lemma backers_cons c T i j V l :
  backers c T i V → (∀ v, v ∈ V → v ∈ j :: l → v = i) → j ≠ i → (T, j, i) ∈ h_ballots c →
  backers c T i (j :: V) ∧ vsize (j :: V) = vsize V + 1 ∧
  ∀ v, v ∈ j :: V → v ∈ l → j ∉ l → v = i.
Proof.
  intros [HndV HbV] Hlv Hne Hb. split; [split|split].
  - constructor; [|done]. intros Hin. by apply Hne, Hlv; [|left].
  - by intros v [->|Hv]%elem_of_cons; [|apply HbV].
  - unfold vsize. cbn [length]. lia.
  - intros v [->|Hv]%elem_of_cons Hin Hj; [done|]. apply Hlv; [done|by right].
Qed.

Lemma elected_votes_pos c T i : 0 ≤ elected_votes c T i.
Proof.
  unfold elected_votes, quorum. case_match; [|done]. pose proof (Z.div_pos (Z.of_nat N) 2). lia.
Qed.

(** A reply that leaves the candidate quiet. *)
Lemma cinv_round_quiet i n n' rd j l V v' c :
  cinv c → c_servers c !! i = Some n → c_rounds c !! i = Some rd → rd_left rd = j :: l →
  backers c (rv_term (rd_args rd)) i V → (∀ v, v ∈ V → v ∈ l → v = i) → quiet [] n n' →
  0 ≤ v' → v' + elected_votes c (rv_term (rd_args rd)) i ≤ vsize V →
  cinv ((set_server i n' c) <| c_rounds := <[i := mkRound (rd_args rd) l v']> (c_rounds c) |>).
Proof.
  intros Hc Hi Hr Hleft HV Hlv Hq Hpos Hvotes.
  pose proof (ci_rounds _ Hc _ _ Hr) as [Hcand Hnd Hterm _].
  rewrite Hleft in Hnd. apply NoDup_cons in Hnd as [_ Hnd].
  apply (cinv_insert_round i _ (set_server i n' c)); [by eapply cinv_quiet|].
  apply (round_inv_server _ n); [done|by eapply q_vote|]. constructor; try done. by exists V.
Qed.

(** A reply that completes a majority. *)
Lemma cinv_round_won i n rd j l V c :
  cinv c → c_servers c !! i = Some n → c_rounds c !! i = Some rd → rd_left rd = j :: l →
  backers c (rv_term (rd_args rd)) i V → (∀ v, v ∈ V → v ∈ l → v = i) →
  rv_term (rd_args rd) = m_currentTerm n → quorum ≤ vsize V →
  cinv ((set_server i (leader_state n) c)
        <| c_rounds := <[i := mkRound (rd_args rd) l 0]> (c_rounds c) |>
        <| h_elected := (m_currentTerm n, i) :: h_elected c |>).
Proof.
  intros Hc Hi Hr Hleft HV Hlv Heq Hq.
  pose proof (ci_rounds _ Hc _ _ Hr) as [Hcand Hnd _ _].
  rewrite Hleft in Hnd. apply NoDup_cons in Hnd as [_ Hnd].
  destruct (leader_state_fields n) as (_ & _ & _ & Hlt & _).
  set (c1 := c <| c_rounds := delete i (c_rounds c) |>).
  set (c2 := (set_server i (leader_state n) c1)
               <| h_elected := (m_currentTerm n, i) :: h_elected c1 |>).
  assert (cinv c2) as Hc2.
  { apply (cinv_win i n V c1); [by apply cinv_delete_round|done| |by rewrite <- Heq|done].
    unfold c1. upd_simpl. apply lookup_delete_eq. }
  apply (cinv_frame (c2 <| c_rounds :=
    <[i := mkRound (rd_args rd) l 0]> (c_rounds c2) |>)); try done.
  { unfold c2, c1, set_server. upd_simpl. by rewrite insert_delete_eq. }
  apply cinv_insert_round; [done|]. constructor; try done.
  - exists (leader_state n). unfold c2. upd_simpl.
    rewrite lookup_set_server, decide_True by done. split; [done|]. cbn [rd_args]. lia.
  - exists V. split; [done|]. split; [done|]. split; [done|]. cbn [rd_votes rd_args].
    unfold elected_votes. rewrite bool_decide_eq_true_2; [lia|].
    unfold c2. upd_simpl. rewrite Heq. by left.
Qed.

Lemma cinv_round_reply i n rd j l o n' v' c :
  Z.of_nat N < 2 ^ 62 → cinv c → c_servers c !! i = Some n → c_rounds c !! i = Some rd →
  rd_left rd = j :: l → received (c_vote_replies c) j (rd_args rd) o →
  election_peer (λ _, o) j (n, rd_votes rd) = Ok (n', v') →
  cinv ((set_server i n' c)
        <| c_rounds := <[i := mkRound (rd_args rd) l v']> (c_rounds c) |>
        <| h_elected := (if won n n' then (m_currentTerm n', i) :: h_elected c
                         else h_elected c) |>).
Proof.
  intros HN Hc Hi Hr Hleft Hrec Hrun.
  pose proof (ci_rounds _ Hc _ _ Hr) as [Hcand Hnd _ (V & HV & Hlv & Hpos & Hvotes)].
  pose proof (ci_nodes _ Hc _ _ Hi) as [Hid Hme Hsize Hvec _ _].
  pose proof (backers_bound _ _ _ _ Hc HV) as Hbound.
  pose proof (elected_votes_pos c (rv_term (rd_args rd)) i) as Hev.
  rewrite Hleft in Hnd, Hlv. apply NoDup_cons in Hnd as [Hj _].
  assert (∀ m, m_status m = m_status n → won n m = false) as Hnotwon.
  { intros m Hm. unfold won. rewrite Hm. by destruct (bool_decide _). }
  apply election_peer_result in Hrun; [|done|lia].
  destruct Hrun as [[Hq ->]|(r & Hne & -> & Hg & Hrt & Hcase)].
  { assert (won n n' = false) as ->.
    { unfold won. destruct (bool_decide (m_status n' = Leader)) eqn:E; [|done].
      b2p. destruct (q_leader _ _ _ Hq E) as [-> _]. done. }
    eapply cinv_frame; [..|apply (cinv_round_quiet i n n' rd j l V (rd_votes rd) c)];
      try done. intros v Hv Hin. apply Hlv; [done|by right]. }
  cbn [received] in Hrec. destruct (ci_replies _ Hc _ _ _ Hrec Hg) as [Hrt' Hb].
  rewrite Hcand in Hb. rewrite Hme in Hne.
  destruct (backers_cons _ _ _ _ _ _ HV Hlv Hne Hb) as (HV' & Hsz & Hlv').
  destruct Hcase as [[-> ->]|(Hmaj & Hst & -> & ->)].
  - rewrite Hnotwon by done.
    eapply cinv_frame; [..|apply (cinv_round_quiet i n n rd j l (j :: V) (rd_votes rd + 1) c)];
      try done; [by intros; apply Hlv'|lia|lia].
  - destruct (leader_state_fields n) as (Hlead & _ & _ & Hlt & _).
    assert (won n (leader_state n) = true) as ->.
    { unfold won. by rewrite Hlead, bool_decide_eq_true_2, bool_decide_eq_false_2. }
    rewrite Hlt. apply (cinv_round_won i n rd j l (j :: V)); try done.
    + by intros; apply Hlv'.
    + congruence.
    + assert (majority n = quorum) as Hmq by (unfold majority, quorum; by rewrite Hsize). lia.
Qed.

Lemma elected_term c T i n :
  cinv c → (T, i) ∈ h_elected c → c_servers c !! i = Some n → T ≤ m_currentTerm n.
Proof. intros Hc He Hn. destruct (ci_elected _ Hc _ _ He) as [_ (m & Hm & ?)]. congruence. Qed.

Lemma cinv_begin i n n' args now c :
  cinv c → c_servers c !! i = Some n → c_rounds c !! i = None →
  doElection_begin now n = Some (n', args) →
  cinv ((set_server i n' c)
        <| c_rounds := <[i := mkRound args (indices (m_peers_size n)) 1]> (c_rounds c) |>
        <| h_ballots := (m_currentTerm n', i, m_me n) :: h_ballots c |>).
Proof.
  intros Hc Hi Hnone Hrun. destruct (ci_nodes _ Hc _ _ Hi) as [Hid Hme Hsize _ _ _].
  destruct (doElection_begin_result _ _ _ _ Hrun) as (Hq & Ht & Hv & Hat & Hac).
  set (c1 := set_server i n' c).
  set (c2 := c1 <| h_ballots := (m_currentTerm n', i, m_me n) :: h_ballots c1 |>).
  assert (c_servers c1 !! i = Some n') as Hi'
    by (unfold c1; by rewrite lookup_set_server, decide_True).
  assert (cinv c2) as Hc2.
  { apply (cinv_add_ballot i n'); [by eapply cinv_quiet|done|done|done|lia]. }
  apply (cinv_frame (c2 <| c_rounds :=
    <[i := mkRound args (indices (m_peers_size n)) 1]> (c_rounds c2) |>)); try done.
  apply cinv_insert_round; [done|]. constructor; cbn [rd_args rd_left rd_votes].
  - by rewrite Hac.
  - apply indices_NoDup.
  - exists n'. split; [done|]. lia.
  - exists [i]. split; [|split; [|split; [done|]]].
    + split; [apply NoDup_singleton|]. intros v Hin. apply list_elem_of_singleton in Hin as ->.
      unfold c2. upd_simpl. rewrite Hat, <- Ht, Hme. by left.
    + intros v Hin _. by apply list_elem_of_singleton in Hin.
    + unfold elected_votes. rewrite bool_decide_eq_false_2; [done|]. intros He.
      pose proof (elected_term c _ _ n Hc He Hi). lia.
Qed.

Lemma cinv_vote j n args now n' r c :
  cinv c → (j, args) ∈ c_vote_requests c → c_servers c !! j = Some n →
  RequestVote1 now args n = Ok (n', r) →
  cinv ((set_server j n' c)
        <| c_vote_replies := (j, args, r) :: c_vote_replies c |>
        <| h_ballots := (if rvr_votegranted r
                         then (rv_term args, j, rv_candidateid args) :: h_ballots c
                         else h_ballots c) |>).
Proof.
  intros Hc Hreq Hj Hrun. pose proof (ci_requests _ Hc _ _ Hreq) as Hcand.
  set (c1 := set_server j n' c).
  assert (c_servers c1 !! j = Some n') as Hj'
    by (unfold c1; by rewrite lookup_set_server, decide_True).
  assert (cinv c1) as Hc1 by (eapply cinv_quiet; [done|done|by eapply RequestVote1_quiet]).
  assert (∀ c2, cinv c2 → (rvr_votegranted r = true → rvr_term r = rv_term args ∧
    (rv_term args, j, rv_candidateid args) ∈ h_ballots c2) →
    cinv (c2 <| c_vote_replies := (j, args, r) :: c_vote_replies c2 |>)) as Hadd.
  { intros c2 [] Hnew. constructor; try assumption.
    - intros j' args' r'. upd_simpl. intros [Heq|Hin]%elem_of_cons; [|by apply ci_replies0].
      injection Heq as -> -> ->. exact Hnew.
    - intros i rd Hr. by destruct (ci_rounds0 i rd Hr). }
  destruct (rvr_votegranted r) eqn:Hg.
  - destruct (RequestVote1_granted _ _ _ _ _ Hrun Hg) as (Hrt & Ht & Hv).
    set (c2 := c1 <| h_ballots := (rv_term args, j, rv_candidateid args) :: h_ballots c1 |>).
    apply (cinv_frame (c2 <| c_vote_replies := (j, args, r) :: c_vote_replies c2 |>)); try done.
    apply Hadd.
    + by apply (cinv_add_ballot j n').
    + intros _. split; [done|]. unfold c2. upd_simpl. by left.
  - apply (Hadd c1); [done|discriminate].
Qed.

Lemma cinv_request i j rd l c :
  cinv c → c_rounds c !! i = Some rd → rd_left rd = j :: l →
  cinv (c <| c_vote_requests := (j, rd_args rd) :: c_vote_requests c |>).
Proof.
  intros Hc Hr _. destruct (ci_rounds _ Hc _ _ Hr) as [Hcand _ (n & Hn & _) _].
  destruct (ci_nodes _ Hc _ _ Hn) as [Hid _ _ _ _ _]. destruct Hc.
  constructor; try assumption.
  - intros j' args. upd_simpl. intros [Heq|Hin]%elem_of_cons; [|by eapply ci_requests0].
    injection Heq as -> ->. lia.
  - intros i' rd' Hr'. by destruct (ci_rounds0 i' rd' Hr').
Qed.

Lemma heartbeat_no_snapshot now i n n' out k c :
  cinv c → c_servers c !! i = Some n → doHeartBeat now n = Ok (n', out) →
  spawn_snapshots i k out = [].
Proof.
  intros Hc Hi Hrun. destruct (ci_nodes _ Hc _ _ Hi) as [_ _ _ Hv _ Hs].
  destruct (decide (m_status n = Leader)) as [Hst|Hst].
  - destruct (doHeartBeat_eq now n Hv Hst) as (v & Heq & _). rewrite Heq in Hrun.
    injection Hrun as _ <-. unfold spawn_snapshots.
    assert (∀ p, ∃ args, heartbeat_message n p = OutAppend p args) as Hm.
    { intros p. unfold heartbeat_message. rewrite Hs. zbool. eauto. }
    generalize (other_peers n (indices (m_peers_size n))) as l. intros l.
    induction l as [|p l IH]; [done|]. destruct (Hm p) as [args Ha].
    rewrite fmap_cons, Ha. exact IH.
  - unfold doHeartBeat in Hrun. rewrite bool_decide_eq_false_2 in Hrun by done.
    by injection Hrun as _ <-.
Qed.

Context `{!BoostArchiveLaws Ar}.

(** A quiet step of one server that changes nothing else of elections. *)
Ltac quiet_step Hc Hi Hq :=
  eapply cinv_frame; [..|eapply (cinv_quiet _ _ _ _ _ Hc Hi Hq)]; try reflexivity.

Lemma cinv_step c c' : Z.of_nat N < 2 ^ 62 → cinv c → cstep c c' → cinv c'.
Proof.
  intros HN Hc Hstep. destruct (ci_snaps _ Hc) as [Hsnap Hinst]. destruct Hstep as [ev Hstep]; destruct Hstep.
  - by eapply cinv_begin.
  - by eapply cinv_request.
  - by eapply cinv_vote.
  - by eapply cinv_round_reply.
  - by apply cinv_delete_round.
  - destruct isLeader.
    + destruct (Start_accepted _ _ _ _ _ H0) as [Hq _]. quiet_step Hc H Hq.
    + apply Start_refused in H0 as ->. quiet_step Hc H (reflexivity (R := quiet []) n).
  - destruct (ci_nodes _ Hc _ _ H) as [_ _ _ Hv _ _].
    quiet_step Hc H (doHeartBeat_quiet _ _ _ _ Hv H0).
    upd_simpl. by rewrite (heartbeat_no_snapshot _ _ _ _ _ _ _ Hc H H0), app_nil_r.
  - quiet_step Hc H0 (AppendEntries1_quiet _ _ _ _ _ H1).
  - quiet_step Hc H0 (sendAppendEntries_quiet _ _ _ _ _ _ _ _ H3).
  - by apply (cinv_frame c).
  - quiet_step Hc H (batch_thread_quiet false n).
  - quiet_step Hc H (batch_collect_quiet now1 now2 n).
  - by apply (cinv_frame c).
  - by apply (cinv_frame c).
  - by apply (cinv_frame c).
  - quiet_step Hc H (applierTicker_round_quiet _ _ H0).
  - rewrite Hsnap in H. by apply not_elem_of_nil in H.
  - rewrite Hinst in H. by apply not_elem_of_nil in H.
  - rewrite Hsnap in H. by destruct l1.
  - destruct (ci_nodes _ Hc _ _ H) as [_ _ _ _ Hd Hs].
    destruct (init_restarted n now Hd Hs) as (m & Hm & Hrs).
    rewrite H0 in Hm. injection Hm as <-.
    apply (cinv_frame ((set_server i n' c) <| c_rounds := delete i (c_rounds c) |>));
      try reflexivity.
    + upd_simpl. by rewrite Hsnap.
    + apply (cinv_delete_round i (set_server i n' c)).
      by eapply cinv_quiet, restarted_quiet.
Qed.

Lemma init_blank i now n :
  init N i (mkStore "" "") now = Ok n →
  m_me n = i ∧ m_peers_size n = N ∧ vectors_ok n ∧ disk_ok n ∧
  m_lastSnapshotIncludeIndex n = 0 ∧ m_status n = Follower ∧ m_logs n = [] ∧
  m_commitIndex n = 0 ∧ m_lastApplied n = 0.
Proof.
  unfold init. cbn. intros H. injection H as <-. cbn. unfold vectors_ok. cbn.
  rewrite !length_replicate. repeat split. by right.
Qed.

Lemma initial_cinv c : initial N c → cinv c.
Proof.
  intros (Hdom & Hinit & servers & ->). cbn in Hdom, Hinit.
  constructor; cbn; try (intros; set_solver); try done.
  - intros i n Hi. destruct (Hinit i n Hi) as [now Hn].
    destruct (init_blank _ _ _ Hn) as (? & ? & ? & ? & ? & _). constructor; try done.
    apply Hdom. eauto.
  - intros i n Hi Hl. destruct (Hinit i n Hi) as [now Hn].
    destruct (init_blank _ _ _ Hn) as (_ & _ & _ & _ & _ & Hst & _). congruence.
Qed.

Lemma reachable_cinv c : Z.of_nat N < 2 ^ 62 → reachable N c → cinv c.
Proof.
  intros HN (c0 & H0 & Hs). eapply (steps_invariant cstep cinv); [| |exact Hs].
  - by apply initial_cinv.
  - intros x y Hx Hxy. by eapply cinv_step.
Qed.

(** Two majorities of the servers have a member in common. *)
Lemma majorities_meet V W :
  NoDup V → NoDup W → (∀ v, v ∈ V ∨ v ∈ W → 0 ≤ v < Z.of_nat N) →
  quorum ≤ vsize V → quorum ≤ vsize W → ∃ v, v ∈ V ∧ v ∈ W.
Proof.
  intros HndV HndW Hin HqV HqW.
  destruct (decide (Exists (λ v, v ∈ W) V)) as [Hex|Hno]; [by apply Exists_exists in Hex|].
  exfalso. assert (NoDup (V ++ W)) as Hnd.
  { apply NoDup_app. split; [done|]. split; [|done]. intros v Hv Hw. apply Hno, Exists_exists.
    eauto. }
  assert (length (V ++ W) ≤ length (indices N))%nat as Hlen.
  { apply submseteq_length, NoDup_submseteq; [done|]. intros v Hv.
    apply indices_in, Hin. by apply elem_of_app. }
  rewrite length_app, length_indices in Hlen. unfold vsize, quorum in *.
  pose proof (Z.mod_pos_bound (Z.of_nat N) 2). pose proof (Z.div_mod (Z.of_nat N) 2). lia.
Qed.

(** A voter is a server, whose term is no smaller than that of its vote. *)
Lemma ballot_voter c T v i :
  cinv c → (T, v, i) ∈ h_ballots c →
  0 ≤ v < Z.of_nat N ∧ ∃ n, c_servers c !! v = Some n ∧ T ≤ m_currentTerm n.
Proof.
  intros Hc Hb. destruct (ci_ballots _ Hc _ _ _ Hb) as (_ & n & Hn & Hbound).
  split; [by destruct (ci_nodes _ Hc _ _ Hn)|]. exists n. split; [done|]. destruct Hbound; lia.
Qed.

Lemma elected_unique c T i j :
  cinv c → (T, i) ∈ h_elected c → (T, j) ∈ h_elected c → i = j.
Proof.
  intros Hc Hi Hj. destruct (ci_elected _ Hc _ _ Hi) as [(V & HV & HqV) _].
  destruct (ci_elected _ Hc _ _ Hj) as [(W & HW & HqW) _].
  destruct HV as [HndV HV], HW as [HndW HW].
  destruct (majorities_meet V W) as (v & Hv & Hw); try done.
  { intros v [Hv|Hv]; eapply ballot_voter; [done|by apply HV|done|by apply HW]. }
  eapply (ci_once _ Hc T v); [by apply HV|by apply HW].
Qed.

(** C1: election safety.  However the servers' threads interleave and whatever the
    network loses, delays, reorders or repeats, and through crashes and restarts, at
    most one server is ever elected in a term; so two servers that are leader in the
    same term are the same server. *)
Theorem election_safety (c : cluster) :
  Z.of_nat N < 2 ^ 62 → reachable N c →
  (∀ T i j, (T, i) ∈ h_elected c → (T, j) ∈ h_elected c → i = j) ∧
  (∀ i j n m, c_servers c !! i = Some n → c_servers c !! j = Some m →
     m_status n = Leader → m_status m = Leader → m_currentTerm n = m_currentTerm m →
     i = j).
Proof.
  intros HN Hr. apply reachable_cinv in Hr; [|done]. split.
  - intros T i j. by apply elected_unique.
  - intros i j n m Hi Hj Hn Hm Ht. eapply (elected_unique c (m_currentTerm n)); [done| |].
    + by apply ci_leader.
    + rewrite Ht. by apply ci_leader.
Qed.

(** Snapshots are never sent.  No server of a reachable cluster has a snapshot
    point, none sends or receives [InstallSnapshot], and every server's vectors have
    one slot per peer and its disk holds what a restart needs. *)
Theorem snapshots_never_sent (c : cluster) :
  Z.of_nat N < 2 ^ 62 → reachable N c →
  c_snap_threads c = [] ∧ c_installs c = [] ∧
  ∀ i n, c_servers c !! i = Some n →
    m_lastSnapshotIncludeIndex n = 0 ∧ vectors_ok n ∧ m_me n = i ∧ disk_ok n ∧
    ∀ now, ∃ n', init N i (m_persister n) now = Ok n' ∧ m_currentTerm n' = m_currentTerm n ∧
      m_votedFor n' = m_votedFor n ∧ length (m_logs n') = length (m_logs n).
Proof.
  intros HN Hr. apply reachable_cinv in Hr; [|done].
  destruct (ci_snaps _ Hr) as [H1 H2]. split; [done|]. split; [done|].
  intros i n Hi. destruct (ci_nodes _ Hr _ _ Hi) as [Hid Hme Hsize Hv Hd Hs].
  repeat split; try done; try apply Hv. intros now.
  destruct (init_restarted n now Hd Hs) as (n' & Hrun & Hrs). rewrite Hme, Hsize in Hrun.
  exists n'. split; [done|]. split; [by apply rs_term|]. split; [by apply rs_vote|].
  pose proof (f_equal length (rs_log _ _ Hrs)) as Hl. by rewrite !length_fmap in Hl.
Qed.
End safety.
