(* ===== verification/ClusterLog.v ===== *)
(** The commands of a cluster: where the entries of its logs come from, and that an
    index and a term name one command. *)
From S2P Require Import Prelude OpCoder Persister RaftTypes RaftLog RaftElection.
From S2P Require Import RaftReplication RaftPipeline RaftSteps Cluster.
Open Scope Z_scope.

#[local] Arguments upd : simpl never.

Section commands.
Context `{Ar : BoostArchive}.
Variable N : nat.

(** The entries a batch sender holds. *)
Definition pc_entries (pc : batch_pc) : list LogEntry :=
  match pc with
  | Checked => []
  | Sending l => l ≫= snd
  | Building _ es l => es ++ (l ≫= snd)
  end.

Definition known (c : cluster) (k : Z * string) : Prop := k ∈ entry_key <$> h_started c.

(** A leader that started entry [e] has, while it leads that term, a log that reaches
    at least [e]. *)
Definition overtaken (e : LogEntry) (n : node) : Prop :=
  logterm e < m_currentTerm n ∨
  logterm e = m_currentTerm n ∧ (m_status n = Leader → logindex e ≤ getLastLogIndex n).

Record linv (c : cluster) : Prop := {
  li_started : ∀ e, e ∈ h_started c → ∃ i n, (logterm e, i) ∈ h_elected c ∧
    c_servers c !! i = Some n ∧ overtaken e n;
  li_once : ∀ e e', e ∈ h_started c → e' ∈ h_started c → logterm e = logterm e' →
    logindex e = logindex e' → e = e';
  li_nodes : ∀ i n k, c_servers c !! i = Some n → has_entry n k → known c k;
  li_chan : ∀ i n m, c_servers c !! i = Some n → m ∈ applyChan n →
    ∃ t, known c (t, am_command m);
  li_appends : ∀ j args e, (j, args) ∈ c_appends c → e ∈ ae_entries args →
    known c (entry_key e);
  li_batch : ∀ i pc e, c_batch c !! i = Some pc → e ∈ pc_entries pc → known c (entry_key e)
}.

Lemma quiet_last es n n' :
  quiet es n n' → getLastLogIndex n ≤ getLastLogIndex n'.
Proof.
  intros [_ _ _ _ _ Hs _ Hl _ _ _]. unfold getLastLogIndex, vsize. rewrite Hs. lia.
Qed.

Lemma overtaken_quiet es e n n' : quiet es n n' → overtaken e n → overtaken e n'.
Proof.
  intros Hq. pose proof (vote_le_term _ _ (q_vote _ _ _ Hq)). pose proof (quiet_last _ _ _ Hq).
  intros [?|[? Hlead]]; [left; lia|].
  destruct (decide (m_currentTerm n = m_currentTerm n')) as [Heq|]; [|left; lia].
  right. split; [congruence|]. intros Hst. destruct (q_leader _ _ _ Hq Hst) as [Hst' _].
  specialize (Hlead Hst'). lia.
Qed.

(** One server takes a quiet step that starts the entries [new]. *)
Lemma linv_quiet es new i n n' c :
  linv c → c_servers c !! i = Some n → quiet es n n' →
  (∀ e, e ∈ es → entry_key e ∈ entry_key <$> (new ++ h_started c)) →
  (∀ e, e ∈ new → (logterm e, i) ∈ h_elected c ∧ overtaken e n') →
  (∀ e e', e ∈ new → e' ∈ new ++ h_started c → logterm e = logterm e' →
     logindex e = logindex e' → e = e') →
  linv ((set_server i n' c) <| h_started := new ++ h_started c |>).
Proof.
  intros [L1 L2 L3 L4 L5 L6] Hi Hq Hes Hnew Honce.
  assert (∀ k, known c k → k ∈ entry_key <$> (new ++ h_started c)) as Hk.
  { intros k. unfold known. rewrite fmap_app, elem_of_app. by right. }
  assert (∀ k, k ∈ entry_key <$> es → k ∈ entry_key <$> (new ++ h_started c)) as Hes'.
  { intros k (e & -> & He)%list_elem_of_fmap. by apply Hes. }
  constructor; unfold known; upd_simpl.
  - intros e [He|He]%elem_of_app.
    + destruct (Hnew e He). exists i, n'. by rewrite lookup_set_server, decide_True.
    + destruct (L1 e He) as (j & m & Hel & Hm & Hov). exists j.
      destruct (server_mono (overtaken e) i n n' c j) as (m' & ? & ?); [|done|eauto|eauto].
      by eapply overtaken_quiet.
  - intros e e' [He|He]%elem_of_app He' Ht Hx; [by apply Honce|].
    apply elem_of_app in He' as [He'|He']; [|by apply L2]. symmetry.
    apply Honce; try done. apply elem_of_app. by right.
  - intros j m k. rewrite lookup_set_server. case_decide; [|intros; by eapply Hk, L3].
    intros [= <-] Hm. destruct (q_entries _ _ _ Hq k Hm); [|by apply Hes']. by eapply Hk, L3.
  - intros j m msg. rewrite lookup_set_server. case_decide.
    + intros [= <-] Hm. destruct (q_chan _ _ _ Hq msg Hm) as [Hin|(t & [Hin|Hin])].
      * destruct (L4 i n msg) as [t Ht]; try done. exists t. by apply Hk.
      * exists t. by eapply Hk, L3.
      * exists t. by apply Hes'.
    + intros Hm Hin. destruct (L4 j m msg Hm Hin) as [t Ht]. exists t. by apply Hk.
  - intros j args e Hin He. by eapply Hk, L5.
  - intros j pc e Hin He. by eapply Hk, L6.
Qed.

Lemma linv_frame c c' :
  c_servers c' = c_servers c → h_started c' = h_started c → h_elected c' = h_elected c →
  (∀ j args e, (j, args) ∈ c_appends c' → e ∈ ae_entries args →
     (j, args) ∈ c_appends c ∨ known c (entry_key e)) →
  (∀ i pc e, c_batch c' !! i = Some pc → e ∈ pc_entries pc → known c (entry_key e)) →
  linv c → linv c'.
Proof.
  destruct c, c'; cbn. intros -> -> -> Ha Hb [L1 L2 L3 L4 L5 L6].
  constructor; try assumption. intros j args e Hin He.
  destruct (Ha j args e Hin He); [by eapply L5|done].
Qed.

(** The usual quiet step: nothing is started. *)
Lemma linv_step es i n n' c :
  linv c → c_servers c !! i = Some n → quiet es n n' →
  (∀ e, e ∈ es → known c (entry_key e)) → linv (set_server i n' c).
Proof.
  intros Hl Hi Hq Hes.
  apply (linv_frame ((set_server i n' c) <| h_started := [] ++ h_started c |>)); try done.
  - auto.
  - intros j pc e Hb He. by eapply (li_batch _ Hl).
  - eapply linv_quiet; try done; intros ? ?%not_elem_of_nil || (intros ? ? ?%not_elem_of_nil); done.
Qed.

Lemma won_quiet es n n' : quiet es n n' → won n n' = false.
Proof.
  intros Hq. unfold won. destruct (bool_decide (m_status n' = Leader)) eqn:E; [|done].
  b2p. by destruct (q_leader _ _ _ Hq E) as [-> _].
Qed.

(** A reply that wins an election wins a term not won before. *)
Lemma vote_reply_cases i n rd j l o n' v' c :
  Z.of_nat N < 2 ^ 62 → cinv N c → c_servers c !! i = Some n → c_rounds c !! i = Some rd →
  rd_left rd = j :: l → received (c_vote_replies c) j (rd_args rd) o →
  election_peer (λ _, o) j (n, rd_votes rd) = Ok (n', v') →
  quiet [] n n' ∨ (n' = leader_state n ∧ won n n' = true ∧ (m_currentTerm n, i) ∉ h_elected c).
Proof.
  intros HN Hc Hi Hr Hleft Hrec Hrun.
  destruct (ci_rounds _ _ Hc _ _ Hr) as [Hcand Hnd _ (V & HV & Hlv & Hpos & Hvotes)].
  destruct (ci_nodes _ _ Hc _ _ Hi) as [_ Hme Hsize Hvec _ _].
  pose proof (backers_bound _ _ _ _ _ Hc HV) as Hbound. rewrite Hleft in Hlv.
  assert (majority n = quorum N) as Hmq by (unfold majority, quorum; by rewrite Hsize).
  pose proof (majority_gt n) as Hgt. rewrite Hsize in Hgt.
  pose proof (elected_votes_pos N c (rv_term (rd_args rd)) i).
  apply election_peer_result in Hrun; [|done|lia].
  destruct Hrun as [[Hq _]|(r & Hne & -> & Hg & Hrt & [[-> _]|(Hmaj & Hst & -> & _)])];
    [by left|by left|]. right. split; [done|]. split.
  { unfold won. destruct (leader_state_fields n) as (-> & _).
    by rewrite bool_decide_eq_true_2, bool_decide_eq_false_2. }
  cbn [received] in Hrec. destruct (ci_replies _ _ Hc _ _ _ Hrec Hg) as [Hrt' Hb].
  rewrite Hcand in Hb. rewrite Hme in Hne.
  assert (backers c (rv_term (rd_args rd)) i (j :: V)) as HV'.
  { destruct HV as [HndV HbV]. split.
    - constructor; [|done]. intros Hin. apply Hne, Hlv; [done|by left].
    - intros v [->|Hv]%elem_of_cons; [done|by apply HbV]. }
  pose proof (backers_bound _ _ _ _ _ Hc HV') as Hbound'.
  unfold vsize in *. cbn [length] in Hbound'. intros Hel.
  unfold elected_votes in Hvotes. rewrite bool_decide_eq_true_2 in Hvotes by congruence. lia.
Qed.

Lemma linv_win i n c :
  linv c → c_servers c !! i = Some n → (m_currentTerm n, i) ∉ h_elected c →
  linv ((set_server i (leader_state n) c)
          <| h_elected := (m_currentTerm n, i) :: h_elected c |>).
Proof.
  intros [L1 L2 L3 L4 L5 L6] Hi Hnew.
  destruct (leader_state_fields n) as
    (_ & _ & _ & Ht & _ & Hl & _ & _ & _ & _ & _ & Hp & _ & _ & _ & Hch & _).
  constructor; upd_simpl; try assumption.
  - intros e He. destruct (L1 e He) as (j & m & Hel & Hm & Hov). exists j.
    rewrite lookup_set_server. destruct (decide (i = j)) as [<-|]; [|exists m; set_solver].
    rewrite Hi in Hm. injection Hm as <-. eexists. split; [by right|]. split; [done|].
    left. rewrite Ht. destruct Hov as [?|[Heq _]]; [done|]. by rewrite Heq in Hel.
  - intros j m k. rewrite lookup_set_server. case_decide; [|apply L3]. intros [= <-] Hk.
    apply (L3 i n); [done|]. unfold has_entry in Hk. by rewrite Hl, Hp in Hk.
  - intros j m msg. rewrite lookup_set_server. case_decide; [|apply L4]. intros [= <-] Hk.
    rewrite Hch in Hk. by apply (L4 i n).
Qed.

Lemma heartbeat_entries now n n' out p args :
  vectors_ok n → doHeartBeat now n = Ok (n', out) → OutAppend p args ∈ out →
  ae_entries args = [].
Proof.
  intros Hv Hrun Hin. destruct (decide (m_status n = Leader)) as [Hst|Hst].
  - destruct (doHeartBeat_eq now n Hv Hst) as (v & Heq & _). rewrite Heq in Hrun.
    injection Hrun as _ <-. apply list_elem_of_fmap in Hin as (j & Hj & _).
    unfold heartbeat_message in Hj. case_match; [discriminate Hj|]. by injection Hj as _ ->.
  - unfold doHeartBeat in Hrun. rewrite bool_decide_eq_false_2 in Hrun by done.
    injection Hrun as _ <-. by apply not_elem_of_nil in Hin.
Qed.

Lemma sent_spawn i k out j args : (j, args) ∈ sent (spawn i k out) → OutAppend j args ∈ out.
Proof.
  unfold sent, spawn. intros (t & Heq & Ht)%list_elem_of_fmap.
  apply list_elem_of_omap in Ht as (o & Ho & Hm). destruct o; [|discriminate Hm].
  injection Hm as <-. by injection Heq as -> ->.
Qed.

Lemma batch_request_entries es n args :
  batch_request es n = Ok (Some args) → ae_entries args = es.
Proof. unfold batch_request. destruct es; [done|]. intros H. inv_ok. by subst. Qed.

(** A leader starts a command: its term and index are new. *)
Lemma linv_start i n now op n' index c :
  cinv N c → linv c → c_servers c !! i = Some n → Start now op n = (n', index, true) →
  linv ((set_server i n' c)
          <| h_started := mkLogEntry (encodeOp op) (m_currentTerm n) index :: h_started c |>).
Proof.
  intros Hc L Hi Hrun. destruct (Start_accepted _ _ _ _ _ Hrun) as (Hq & Hst & Hidx & Hlogs).
  set (e := mkLogEntry (encodeOp op) (m_currentTerm n) index) in *.
  pose proof (ci_leader _ _ Hc _ _ Hi Hst) as Hel.
  apply (linv_quiet [e] [e] i n n' c); try done.
  - intros e' He'. rewrite fmap_app, elem_of_app. left. by apply list_elem_of_fmap_2.
  - intros e' He'. apply list_elem_of_singleton in He' as ->. split; [exact Hel|].
    pose proof (vote_le_term _ _ (q_vote _ _ _ Hq)).
    destruct (decide (m_currentTerm n = m_currentTerm n')); [|left; cbn; lia].
    right. split; [done|]. intros _. cbn. unfold getLastLogIndex in *.
    rewrite (q_snap _ _ _ Hq), Hlogs, vsize_app. change (vsize [e]) with 1. lia.
  - intros e1 e2 He1 [He2|He2]%elem_of_app Ht Hx; apply list_elem_of_singleton in He1 as ->;
      [by apply list_elem_of_singleton in He2 as ->|].
    destruct (li_started _ L _ He2) as (j & m & Hel2 & Hm & Hov). rewrite <- Ht in Hel2.
    assert (i = j) as <- by (by eapply elected_unique). rewrite Hi in Hm. injection Hm as <-.
    cbn in Ht, Hx. destruct Hov as [?|[_ Hlast]]; [lia|]. specialize (Hlast Hst). lia.
Qed.

(** A batch sender moves on with known entries, or ends its round. *)
Lemma linv_set_batch i pc c :
  linv c → (∀ e, e ∈ pc_entries pc → known c (entry_key e)) →
  linv (c <| c_batch := <[i := pc]> (c_batch c) |>).
Proof.
  intros L Hpc. apply (linv_frame c); try done; [by intros; left|].
  intros j pc' e. upd_simpl. intros [[<- <-]|[_ Hb]]%lookup_insert_Some He; [by apply Hpc|].
  by eapply (li_batch _ L).
Qed.
Lemma linv_end_batch i c : linv c → linv (c <| c_batch := delete i (c_batch c) |>).
Proof.
  intros L. apply (linv_frame c); try done; [by intros; left|].
  intros j pc e. upd_simpl. intros [_ Hb]%lookup_delete_Some He. by eapply (li_batch _ L).
Qed.

(** The batch of [p] is sent. *)
Lemma linv_build i n p es l args k c :
  linv c → c_batch c !! i = Some (Building p es l) → batch_request es n = Ok (Some args) →
  let t := mkThread i p args k in
  linv (c <| c_batch := <[i := Sending l]> (c_batch c) |>
            <| c_counters := c_counters c ++ [1] |> <| c_threads := c_threads c ++ [t] |>
            <| c_appends := c_appends c ++ sent [t] |>).
Proof.
  intros L Hb Hreq t.
  assert (∀ e, e ∈ es ++ (l ≫= snd) → known c (entry_key e)) as Hk
    by (intros e; apply (li_batch _ L _ _ _ Hb)).
  assert (linv (c <| c_batch := <[i := Sending l]> (c_batch c) |>)) as L'.
  { apply linv_set_batch; [done|]. intros e He. apply Hk, elem_of_app. by right. }
  eapply linv_frame; [..|exact L']; try done; [|by intros; eapply (li_batch _ L')].
  intros j args' e. upd_simpl. intros [?|Hin]%elem_of_app He; [by left|]. right.
  apply list_elem_of_singleton in Hin. injection Hin as -> ->.
  rewrite (batch_request_entries _ _ _ Hreq) in He. apply Hk, elem_of_app. by left.
Qed.

Context `{!BoostArchiveLaws Ar}.

(** A quiet step of one server, the messages and batches being as before. *)
Ltac calm_step L Hi Hq :=
  eapply linv_frame;
    [..|eapply (linv_step _ _ _ _ _ L Hi Hq); by intros ? ?%not_elem_of_nil];
    [done|done|done|by intros; left|by intros; eapply (li_batch _ L)].

Lemma linv_vote_reply i n rd j l o n' v' c :
  Z.of_nat N < 2 ^ 62 → cinv N c → linv c → c_servers c !! i = Some n →
  c_rounds c !! i = Some rd → rd_left rd = j :: l →
  received (c_vote_replies c) j (rd_args rd) o →
  election_peer (λ _, o) j (n, rd_votes rd) = Ok (n', v') →
  linv ((set_server i n' c)
    <| c_rounds := <[i := mkRound (rd_args rd) l v']> (c_rounds c) |>
    <| h_elected := (if won n n' then (m_currentTerm n', i) :: h_elected c else h_elected c) |>).
Proof.
  intros HN Hc L H H0 H1 H2 H3.
  destruct (vote_reply_cases _ _ _ _ _ _ _ _ _ HN Hc H H0 H1 H2 H3) as [Hq|(-> & Hw & Hnew)].
  - rewrite (won_quiet _ _ _ Hq). calm_step L H Hq.
  - rewrite Hw. destruct (leader_state_fields n) as (_ & _ & _ & -> & _).
    pose proof (linv_win i n c L H Hnew) as L'.
    eapply linv_frame; [..|exact L']; try done;
      [by intros; left|by intros; eapply (li_batch _ L')].
Qed.

Lemma linv_heartbeat i now n n' out c sn :
  cinv N c → linv c → c_servers c !! i = Some n → doHeartBeat now n = Ok (n', out) →
  let ts := spawn i (length (c_counters c)) out in
  linv ((set_server i n' c) <| c_counters := c_counters c ++ [1] |>
    <| c_threads := c_threads c ++ ts |> <| c_appends := c_appends c ++ sent ts |>
    <| c_snap_threads := sn |>).
Proof.
  intros Hc L H H0 ts. destruct (ci_nodes _ _ Hc _ _ H) as [_ _ _ Hv _ _].
  pose proof (linv_step _ _ _ _ _ L H (doHeartBeat_quiet _ _ _ _ Hv H0)) as L'.
  eapply linv_frame; [..|apply L'; by intros ? ?%not_elem_of_nil]; try done.
  - intros j args e [?|Hs]%elem_of_app He; [by left|]. exfalso.
    apply sent_spawn in Hs. rewrite (heartbeat_entries _ _ _ _ _ _ Hv H0 Hs) in He.
    by apply not_elem_of_nil in He.
  - by intros; eapply (li_batch _ L).
Qed.

Lemma linv_cstep c c' :
  Z.of_nat N < 2 ^ 62 → cinv N c → linv c → cstep c c' → linv c'.
Proof.
  intros HN Hc L Hstep. destruct (ci_snaps _ _ Hc) as [Hsnap Hinst]. destruct Hstep as [ev Hstep]; destruct Hstep.
  - destruct (doElection_begin_result _ _ _ _ H1) as [Hq _]. calm_step L H Hq.
  - apply (linv_frame c); try done; [by intros; left|by intros; eapply (li_batch _ L)].
  - calm_step L H0 (RequestVote1_quiet _ _ _ _ _ H1).
  - by eapply linv_vote_reply.
  - apply (linv_frame c); try done; [by intros; left|by intros; eapply (li_batch _ L)].
  - destruct isLeader; [|apply Start_refused in H0 as ->; calm_step L H (reflexivity (R := quiet []) n)].
    by eapply linv_start.
  - by eapply linv_heartbeat.
  - eapply linv_frame; [..|eapply (linv_step _ _ _ _ _ L H0 (AppendEntries1_quiet _ _ _ _ _ H1))];
      try done; [by intros; left|by intros; eapply (li_batch _ L)|].
    intros e He. by eapply (li_appends _ L).
  - calm_step L H0 (sendAppendEntries_quiet _ _ _ _ _ _ _ _ H3).
  - apply linv_set_batch; [done|]. by intros e ?%not_elem_of_nil.
  - calm_step L H (batch_thread_quiet false n).
  - apply (linv_set_batch i _ (set_server i _ c)).
    + eapply linv_step; [done|done|apply batch_collect_quiet|by intros ? ?%not_elem_of_nil].
    + intros e ([p es] & He & Hin)%list_elem_of_bind.
      by eapply (li_nodes _ L), batch_collect_has.
  - apply linv_set_batch; [done|]. intros e He. apply (li_batch _ L _ _ e H0).
    cbn [pc_entries]. rewrite bind_cons. cbn [snd]. destruct (_ || _); [|done].
    cbn [pc_entries] in He. apply elem_of_app. by right.
  - by eapply linv_build.
  - by apply linv_end_batch.
  - calm_step L H (applierTicker_round_quiet _ _ H0).
  - rewrite Hsnap in H. by apply not_elem_of_nil in H.
  - rewrite Hinst in H. by apply not_elem_of_nil in H.
  - rewrite Hsnap in H. by destruct l1.
  - destruct (ci_nodes _ _ Hc _ _ H) as [_ _ _ _ Hd Hs].
    destruct (init_restarted n now Hd Hs) as (m & Hm & Hrs).
    rewrite H0 in Hm. injection Hm as <-. pose proof (restarted_quiet _ _ Hrs) as Hq.
    eapply linv_frame;
    [..|eapply (linv_step _ _ _ _ _ L H Hq); by intros ? ?%not_elem_of_nil];
    [done|done|done|by intros; left|].
    intros j pc e. upd_simpl. intros [_ Hb]%lookup_delete_Some He. by eapply (li_batch _ L).
Qed.

Lemma initial_linv c : initial N c → linv c.
Proof.
  intros (_ & Hinit & servers & ->). cbn in Hinit. constructor; cbn; try set_solver.
  - intros i n k Hi. destruct (Hinit i n Hi) as [now Hn].
    unfold init in Hn. cbn in Hn. injection Hn as <-.
    intros [(e & He & _)|(p & e & Hp & He & _)]; cbn in *; [by apply not_elem_of_nil in He|].
    apply elem_of_replicate in Hp as [-> _]. by apply not_elem_of_nil in He.
  - intros i n m Hi. destruct (Hinit i n Hi) as [now Hn].
    unfold init in Hn. cbn in Hn. injection Hn as <-. cbn. by intros ?%not_elem_of_nil.
Qed.

Lemma reachable_inv c : Z.of_nat N < 2 ^ 62 → reachable N c → cinv N c ∧ linv c.
Proof.
  intros HN (c0 & H0 & Hs).
  apply (steps_invariant cstep (λ c, cinv N c ∧ linv c) c0 c); [| |exact Hs].
  - split; [by apply initial_cinv|by apply initial_linv].
  - intros x y [Hx Lx] Hxy. split; [by eapply cinv_step|by eapply linv_cstep].
Qed.

(** No two entries that were ever created share index and term. *)
Definition one_command_per_slot (c : cluster) : Prop :=
  ∀ e e', e ∈ h_started c → e' ∈ h_started c →
    logindex e = logindex e' → logterm e = logterm e' → e = e'.

(** C15: an index and a term name one command.  Whatever happens in the cluster, of all
    the entries that its leaders ever create with [Start], no two different ones carry
    the same index and the same term. *)
Theorem index_and_term_identify_command (c : cluster) :
  Z.of_nat N < 2 ^ 62 → reachable N c → one_command_per_slot c.
Proof.
  intros HN Hr e e' He He' Hx Ht. destruct (reachable_inv c HN Hr) as [_ L].
  by apply (li_once _ L).
Qed.

(** A command was submitted in term [t] to the server elected in that term. *)
Definition submitted (c : cluster) (t : Z) (cmd : string) : Prop :=
  ∃ e i, e ∈ h_started c ∧ logterm e = t ∧ command e = cmd ∧ (t, i) ∈ h_elected c.

Lemma known_submitted c t cmd : linv c → known c (t, cmd) → submitted c t cmd.
Proof.
  intros L (e & Heq & He)%list_elem_of_fmap. injection Heq as -> ->.
  destruct (li_started _ L e He) as (i & n & Hel & _). by exists e, i.
Qed.

(** C16: validity.  Every entry of a server's log, of a batch or of an [AppendEntries]
    request, and every command handed to a state machine, comes from a [Start] at a
    leader: its command was submitted, in the term it carries, to a server elected in
    that term. *)
Theorem commands_were_submitted (c : cluster) :
  Z.of_nat N < 2 ^ 62 → reachable N c →
  (∀ i n e, c_servers c !! i = Some n → e ∈ m_logs n → submitted c (logterm e) (command e)) ∧
  (∀ j args e, (j, args) ∈ c_appends c → e ∈ ae_entries args →
     submitted c (logterm e) (command e)) ∧
  (∀ i n m, c_servers c !! i = Some n → m ∈ applyChan n → ∃ t, submitted c t (am_command m)).
Proof.
  intros HN Hr. destruct (reachable_inv c HN Hr) as [_ L].
  assert (∀ t cmd, known c (t, cmd) → submitted c t cmd) as Hk by (intros; by apply known_submitted).
  split; [|split].
  - intros i n e Hi He. apply Hk, (li_nodes _ L i n); [done|]. left. by exists e.
  - intros j args e Hj He. by eapply Hk, (li_appends _ L).
  - intros i n m Hi Hm. destruct (li_chan _ L i n m Hi Hm) as [t Ht]. exists t. by apply Hk.
Qed.

(** Entries are created by commands only. *)
Lemma lstep_started c e c' :
  lstep c e c' →
  match e with
  | Command i op index true =>
      ∃ t, h_started c' = mkLogEntry (encodeOp op) t index :: h_started c
  | _ => h_started c' = h_started c
  end.
Proof. destruct 1; try done. destruct isLeader; [by eexists|done]. Qed.

(** What one step of the cluster does to one server. *)
Lemma cstep_server c c' j m m' :
  Z.of_nat N < 2 ^ 62 → cinv N c → cstep c c' →
  c_servers c !! j = Some m → c_servers c' !! j = Some m' →
  (∃ es, quiet es m m') ∨ (m' = leader_state m ∧ (m_currentTerm m, j) ∉ h_elected c).
Proof.
  intros HN Hc Hstep. destruct (ci_snaps _ _ Hc) as [Hsnap Hinst].
  set (P := λ k x y, (∃ es, quiet es x y) ∨
    (y = leader_state x ∧ (m_currentTerm x, k) ∉ h_elected c)).
  assert (∀ i n n', c_servers c !! i = Some n → P i n n' → c_servers c !! j = Some m →
    c_servers (set_server i n' c) !! j = Some m' → P j m m') as Hset.
  { intros i n n' Hi Hq Hm. rewrite lookup_set_server. case_decide; intros Hm'; simplify_eq;
      [done|]. left. exists []. reflexivity. }
  assert (c_servers c !! j = Some m → c_servers c !! j = Some m' → P j m m') as Hsame.
  { intros Hm Hm'. simplify_eq. left. exists []. reflexivity. }
  change (c_servers c !! j = Some m → c_servers c' !! j = Some m' → P j m m').
  destruct Hstep as [ev Hstep]; destruct Hstep; try exact Hsame.
  - refine (Hset _ _ _ H _). left. destruct (doElection_begin_result _ _ _ _ H1). by exists [].
  - refine (Hset _ _ _ H0 _). left. exists []. by eapply RequestVote1_quiet.
  - refine (Hset _ _ _ H _).
    destruct (vote_reply_cases _ _ _ _ _ _ _ _ _ HN Hc H H0 H1 H2 H3) as [Hq|(-> & _ & Hnew)];
      [left; by exists []|by right].
  - refine (Hset _ _ _ H _). left. destruct isLeader.
    + destruct (Start_accepted _ _ _ _ _ H0) as [Hq _]. by eexists.
    + apply Start_refused in H0 as ->. exists []. reflexivity.
  - refine (Hset _ _ _ H _). left. exists []. eapply doHeartBeat_quiet; [|done].
    by destruct (ci_nodes _ _ Hc _ _ H).
  - refine (Hset _ _ _ H0 _). left. eexists. by eapply AppendEntries1_quiet.
  - refine (Hset _ _ _ H0 _). left. exists []. by eapply sendAppendEntries_quiet.
  - refine (Hset _ _ _ H _). left. exists []. apply batch_thread_quiet.
  - refine (Hset _ _ _ H _). left. exists []. apply batch_collect_quiet.
  - refine (Hset _ _ _ H _). left. exists []. by apply applierTicker_round_quiet.
  - rewrite Hinst in H. by apply not_elem_of_nil in H.
  - rewrite Hsnap in H. by destruct l1.
  - refine (Hset _ _ _ H _). left. exists [].
    destruct (ci_nodes _ _ Hc _ _ H) as [_ _ _ _ Hd Hs].
    destruct (init_restarted n now Hd Hs) as (x & Hx & Hrs).
    rewrite H0 in Hx. injection Hx as <-. by apply restarted_quiet.
Qed.

Lemma leader_state_prefix n : m_logs n `prefix_of` m_logs (leader_state n).
Proof. by destruct (leader_state_fields n) as (_ & _ & _ & _ & _ & -> & _). Qed.

(** What time does to a server: its term grows, a vote given in a term stays, its log
    gets no shorter, and a leader keeps its log as a prefix. *)
Definition server_grows (n n' : node) : Prop :=
  m_currentTerm n ≤ m_currentTerm n' ∧
  (m_currentTerm n' = m_currentTerm n → m_votedFor n ≠ -1 → m_votedFor n' = m_votedFor n) ∧
  (length (m_logs n) ≤ length (m_logs n'))%nat ∧
  (m_status n' = Leader → m_logs n `prefix_of` m_logs n').

(** C17: leaders only append, terms only grow and a vote is given once.  In a step of a
    reachable cluster (a restart is one), no server's term decreases, none changes a
    vote within its term, no log gets shorter, and a server that is leader afterwards
    has kept its log as a prefix. *)
Theorem step_monotone (c c' : cluster) (i : Z) (n n' : node) :
  Z.of_nat N < 2 ^ 62 → reachable N c → cstep c c' →
  c_servers c !! i = Some n → c_servers c' !! i = Some n' → server_grows n n'.
Proof.
  intros HN Hr Hstep Hi Hi'. destruct (reachable_inv c HN Hr) as [Hc _].
  assert (vote_le n n' ∧ (length (m_logs n) ≤ length (m_logs n'))%nat ∧
    (m_status n' = Leader → m_logs n `prefix_of` m_logs n')) as (Hle & Hlen & Hpre).
  { destruct (cstep_server c c' i n n' HN Hc Hstep Hi Hi') as [[es [Hv _ _ _ _ _ _ Hl Ha _ _]]|[-> _]];
      [done|]. split; [apply leader_state_vote_le|].
    split; [by apply prefix_length, leader_state_prefix|intros _; apply leader_state_prefix]. }
  unfold vote_le in Hle. unfold server_grows. split; [lia|]. split; [lia|]. done.
Qed.
End commands.
