(* ===== verification/ClusterRun.v ===== *)
(** Executable schedules of a cluster, and the concrete runs of the development. *)
From S2P Require Import Prelude OpCoder Persister RaftTypes RaftLog RaftElection.
From S2P Require Import RaftReplication RaftPipeline RaftSteps Cluster ClusterLog.
Open Scope Z_scope.

#[local] Arguments upd : simpl never.

(** ** Running a cluster

    A schedule names which thread moves next and which message it gets; [exec] runs it
    and every move it makes is a step of the relation. *)

Inductive action :=
  | ABegin (i now : Z)
  | ARequest (i : Z)
  | AVote (k : nat) (now : Z)
  | AVoteReply (i : Z) (k : option nat)
  | AEndRound (i : Z)
  | AStart (i now : Z) (op : Op)
  | AHeartbeat (i now : Z)
  | AAppend (k : nat) (now : Z)
  | AAppendReply (t : nat) (k : option nat)
  | ABatch (i now1 now2 : Z)
  | AApply (i : Z)
  | ARestart (i now : Z).

Definition guard_opt {A} (b : bool) (a : A) : option A := if b then Some a else None.

(** The reply number [k] of a list, if it answers the request [args] sent to [j]. *)
Definition pick {A B} `{EqDecision A} (replies : list (Z * A * B)) (j : Z) (args : A)
    (k : option nat) : option (option B) :=
  match k with
  | None => Some None
  | Some k => '(j', args', r) ← replies !! k;
              guard_opt (bool_decide (j' = j) && bool_decide (args' = args)) (Some r)
  end.

Lemma pick_received {A B} `{EqDecision A} (replies : list (Z * A * B)) j args k o :
  pick replies j args k = Some o → received replies j args o.
Proof.
  unfold pick, received, guard_opt. destruct k as [k|]; [|by intros [= <-]].
  destruct (replies !! k) as [[[j' args'] r]|] eqn:E; [|done]. cbn. case_match; [|done].
  intros [= <-]. b2p. subst. by eapply list_elem_of_lookup_2.
Qed.

Section exec.
Context `{Ar : BoostArchive}.

Definition exec_batch (i now1 now2 : Z) (c : cluster) : option cluster :=
  n ← c_servers c !! i;
  match c_batch c !! i with
  | None =>
      guard_opt (m_batchSenderThread n)
        (if m_batchRunning n && bool_decide (m_status n = Leader)
         then c <| c_batch := <[i := Checked]> (c_batch c) |>
         else set_server i (n <| m_batchSenderThread := false |>) c)
  | Some Checked =>
      Some ((set_server i (batch_collect now1 now2 n).1 c)
        <| c_batch := <[i := Sending (batch_collect now1 now2 n).2]> (c_batch c) |>)
  | Some (Sending ((p, es) :: l)) =>
      Some (c <| c_batch :=
        <[i := if bool_decide (es = []) || negb (bool_decide (m_status n = Leader))
               then Sending l else Building p es l]> (c_batch c) |>)
  | Some (Sending []) => Some (c <| c_batch := delete i (c_batch c) |>)
  | Some (Building p es l) =>
      match batch_request es n with
      | Ok (Some args) =>
          let t := mkThread i p args (length (c_counters c)) in
          Some (c <| c_batch := <[i := Sending l]> (c_batch c) |>
                 <| c_counters := c_counters c ++ [1] |>
                 <| c_threads := c_threads c ++ [t] |>
                 <| c_appends := c_appends c ++ sent [t] |>)
      | _ => None
      end
  end.

Definition exec (a : action) (c : cluster) : option cluster :=
  match a with
  | ABegin i now =>
      n ← c_servers c !! i;
      match c_rounds c !! i with
      | Some _ => None
      | None =>
          '(n', args) ← doElection_begin now n;
          Some ((set_server i n' c)
            <| c_rounds := <[i := mkRound args (indices (m_peers_size n)) 1]> (c_rounds c) |>
            <| h_ballots := (m_currentTerm n', i, m_me n) :: h_ballots c |>)
      end
  | ARequest i =>
      rd ← c_rounds c !! i;
      match rd_left rd with
      | [] => None
      | j :: l => guard_opt (negb (j =? i))
          (c <| c_vote_requests := (j, rd_args rd) :: c_vote_requests c |>)
      end
  | AVote k now =>
      '(j, args) ← c_vote_requests c !! k;
      n ← c_servers c !! j;
      '(n', r) ← ok_value (RequestVote1 now args n);
      Some ((set_server j n' c)
        <| c_vote_replies := (j, args, r) :: c_vote_replies c |>
        <| h_ballots := (if rvr_votegranted r
                         then (rv_term args, j, rv_candidateid args) :: h_ballots c
                         else h_ballots c) |>)
  | AVoteReply i k =>
      n ← c_servers c !! i;
      rd ← c_rounds c !! i;
      match rd_left rd with
      | [] => None
      | j :: l =>
          o ← pick (c_vote_replies c) j (rd_args rd) k;
          '(n', v') ← ok_value (election_peer (λ _, o) j (n, rd_votes rd));
          Some ((set_server i n' c)
            <| c_rounds := <[i := mkRound (rd_args rd) l v']> (c_rounds c) |>
            <| h_elected := (if won n n' then (m_currentTerm n', i) :: h_elected c
                             else h_elected c) |>)
      end
  | AEndRound i =>
      rd ← c_rounds c !! i;
      match rd_left rd with
      | [] => Some (c <| c_rounds := delete i (c_rounds c) |>)
      | _ => None
      end
  | AStart i now op =>
      n ← c_servers c !! i;
      let '(n', index, isLeader) := Start now op n in
      Some ((set_server i n' c)
        <| h_started := (if (isLeader : bool)
                         then mkLogEntry (encodeOp op) (m_currentTerm n) index :: h_started c
                         else h_started c) |>)
  | AHeartbeat i now =>
      n ← c_servers c !! i;
      '(n', out) ← ok_value (doHeartBeat now n);
      let ts := spawn i (length (c_counters c)) out in
      Some ((set_server i n' c)
        <| c_counters := c_counters c ++ [1] |>
        <| c_threads := c_threads c ++ ts |>
        <| c_appends := c_appends c ++ sent ts |>
        <| c_snap_threads := c_snap_threads c ++
                             spawn_snapshots i (length (c_counters c)) out |>)
  | AAppend k now =>
      '(j, args) ← c_appends c !! k;
      n ← c_servers c !! j;
      '(n', r) ← ok_value (AppendEntries1 now args n);
      Some ((set_server j n' c) <| c_append_replies := (j, args, r) :: c_append_replies c |>)
  | AAppendReply t k =>
      th ← c_threads c !! t;
      n ← c_servers c !! th_from th;
      o ← pick (c_append_replies c) (th_to th) (th_args th) k;
      a ← c_counters c !! th_counter th;
      '(n', a', _) ← ok_value (sendAppendEntries (th_to th) (th_args th) o a n);
      Some ((set_server (th_from th) n' c)
        <| c_threads := take t (c_threads c) ++ drop (S t) (c_threads c) |>
        <| c_counters := <[th_counter th := a']> (c_counters c) |>)
  | ABatch i now1 now2 => exec_batch i now1 now2 c
  | AApply i =>
      n ← c_servers c !! i;
      n' ← ok_value (applierTicker_round n);
      Some (set_server i n' c)
  | ARestart i now =>
      n ← c_servers c !! i;
      n' ← ok_value (init (m_peers_size n) (m_me n) (m_persister n) now);
      Some ((set_server i n' c)
        <| c_rounds := delete i (c_rounds c) |>
        <| c_batch := delete i (c_batch c) |>
        <| c_threads := filter (λ t, th_from t ≠ i) (c_threads c) |>
        <| c_snap_threads := filter (λ t, st_from t ≠ i) (c_snap_threads c) |>)
  end.

Fixpoint run (l : list action) (c : cluster) : option cluster :=
  match l with [] => Some c | a :: l' => c' ← exec a c; run l' c' end.

Lemma ok_value_Some {A} (o : outcome A) a : ok_value o = Some a ↔ o = Ok a.
Proof. destruct o; cbn; naive_solver. Qed.

Lemma exec_batch_step i now1 now2 c c' : exec_batch i now1 now2 c = Some c' → lstep c Internal c'.
Proof.
  unfold exec_batch. intros (n & Hi & H)%bind_Some.
  destruct (c_batch c !! i) as [[|[|[p es] l]|p es l]|] eqn:Hb.
  - injection H as <-. by eapply cs_batch_collect.
  - injection H as <-. by eapply cs_batch_done.
  - injection H as <-. by eapply cs_batch_check.
  - destruct (batch_request es n) as [[args|]| |] eqn:Ha; try discriminate H.
    injection H as <-. by eapply cs_batch_build.
  - unfold guard_opt in H. destruct (m_batchSenderThread n) eqn:Ht; [|discriminate H].
    injection H as <-. destruct (m_batchRunning n) eqn:Hr; cbn [andb];
      [destruct (bool_decide (m_status n = Leader)) eqn:Hs|]; b2p.
    + by eapply cs_batch_top.
    + eapply cs_batch_exit; auto.
    + eapply cs_batch_exit; auto.
Qed.

(** The moves that the rest of a process does not see. *)
Definition internal (a : action) : bool :=
  match a with AStart _ _ _ | ARestart _ _ => false | _ => true end.

Lemma exec_internal a c c' : internal a = true → exec a c = Some c' → lstep c Internal c'.
Proof.
  destruct a; cbn [exec internal]; intros Hint H; try discriminate Hint;
    repeat match goal with
    | H : (_ ≫= _) = Some _ |- _ =>
        apply bind_Some in H; let x := fresh "x" in let Hx := fresh "Hx" in
        destruct H as (x & Hx & H)
    | H : ok_value _ = Some _ |- _ => apply ok_value_Some in H
    end.
  - destruct (c_rounds c !! i) eqn:Hr; [discriminate H|].
    apply bind_Some in H as ([n' args] & Hb & H). injection H as <-.
    by eapply cs_begin_election.
  - destruct (rd_left x) as [|j l] eqn:Hl; [discriminate H|]. unfold guard_opt in H.
    destruct (Z.eqb_spec j i); [discriminate H|]. injection H as <-.
    by eapply cs_request_vote.
  - destruct x as [j args]. apply bind_Some in H as (n & Hn & H).
    apply bind_Some in H as ([n' r] & Hr & H). apply ok_value_Some in Hr. injection H as <-.
    eapply cs_vote; [by eapply list_elem_of_lookup_2|done|done].
  - destruct (rd_left x0) as [|j l] eqn:Hl; [discriminate H|].
    apply bind_Some in H as (o & Ho & H). apply bind_Some in H as ([n' v'] & Hv & H).
    apply ok_value_Some in Hv. injection H as <-.
    eapply cs_vote_reply; try done. by eapply pick_received.
  - destruct (rd_left x) eqn:Hl; [|discriminate H]. injection H as <-. by eapply cs_end_round.
  - destruct x0 as [n' out]. injection H as <-. by eapply cs_heartbeat.
  - destruct x as [j args]. apply bind_Some in H as (n & Hn & H).
    apply bind_Some in H as ([n' r] & Hr & H). apply ok_value_Some in Hr. injection H as <-.
    eapply cs_append; [by eapply list_elem_of_lookup_2|done|done].
  - destruct x3 as [[n' a'] b]. injection H as <-.
    eapply cs_append_reply; [|done| |done|done]; [|by eapply pick_received].
    symmetry. by apply take_drop_middle.
  - by eapply exec_batch_step.
  - injection H as <-. by eapply cs_apply.
Qed.

Lemma exec_start i now op c c' :
  exec (AStart i now op) c = Some c' →
  ∃ n n' index b, c_servers c !! i = Some n ∧ Start now op n = (n', index, b) ∧
    c_servers c' !! i = Some n' ∧ lstep c (Command i op index b) c'.
Proof.
  cbn [exec]. intros (n & Hn & H)%bind_Some.
  destruct (Start now op n) as [[n' index] b] eqn:Hs. injection H as <-.
  exists n, n', index, b. split; [done|]. split; [done|]. split; [|by eapply cs_start].
  change (c_servers (set_server i n' c) !! i = Some n').
  by rewrite lookup_set_server, decide_True.
Qed.

Lemma exec_restart i now c c' : exec (ARestart i now) c = Some c' → lstep c (Restarted i) c'.
Proof.
  cbn [exec]. intros (n & Hn & (n' & Hi & H)%bind_Some)%bind_Some.
  apply ok_value_Some in Hi. injection H as <-. by eapply cs_restart.
Qed.

(** Every move of [exec] is a step. *)
Lemma exec_step a c c' : exec a c = Some c' → cstep c c'.
Proof.
  intros H. destruct (internal a) eqn:Hi; [by eapply lstep_cstep, exec_internal|].
  destruct a; try discriminate Hi.
  - destruct (exec_start _ _ _ _ _ H) as (n & n' & index & b & _ & _ & _ & Hs).
    by eapply lstep_cstep.
  - by eapply lstep_cstep, exec_restart.
Qed.

Lemma run_steps l c c' : run l c = Some c' → steps cstep c c'.
Proof.
  revert c. induction l as [|a l IH]; intros c; cbn [run]; [intros [= ->]; constructor|].
  intros (c1 & H1 & H2)%bind_Some. eapply steps_trans; [|by apply IH].
  by apply steps_one, (exec_step a).
Qed.

(** [N] servers on empty disks, at time 0. *)
Definition boot_servers (N : nat) : option (list (Z * node)) :=
  mapM (λ i, n ← ok_value (init N i (mkStore "" "") 0); Some (i, n)) (indices N).
Definition boot (N : nat) : option cluster :=
  servers ← boot_servers N;
  Some (mkCluster (list_to_map servers) ∅ ∅ [] [] [] [] [] [] [] [] [] [] [] []).

Lemma boot_initial N c : boot N = Some c → initial N c.
Proof.
  unfold boot, boot_servers. intros (l & Hl & Hc)%bind_Some.
  injection Hc as <-. apply mapM_Some in Hl.
  assert (l.*1 = indices N) as Hkeys.
  { clear -Hl. induction Hl as [|i [j n] ks l H _ IH]; [done|]. cbn [fmap list_fmap fst].
    apply bind_Some in H as (m & _ & H). injection H as <- <-. f_equal. exact IH. }
  assert (∀ i n, (i, n) ∈ l → init N i (mkStore "" "") 0 = Ok n) as Hinit.
  { intros i n Hin. apply list_elem_of_lookup in Hin as [k Hk].
    destruct (Forall2_lookup_r _ _ _ _ _ Hl Hk) as (j & _ & H).
    apply bind_Some in H as (m & Hm & H). injection H as -> ->. by apply ok_value_Some. }
  split; [|split].
  - intros i. cbn. rewrite <- indices_in, <- Hkeys. split.
    + intros [n Hn%elem_of_list_to_map_2]. by apply (list_elem_of_fmap_2 fst) in Hn.
    + intros ([j n] & -> & Hin)%list_elem_of_fmap. exists n. cbn.
      apply elem_of_list_to_map_1; [|done]. rewrite Hkeys. apply indices_NoDup.
  - cbn. intros i n Hn%elem_of_list_to_map_2. exists 0. by apply Hinit.
  - by eexists.
Qed.

Definition run_from_boot (N : nat) (l : list action) : option cluster :=
  c ← boot N; run l c.

Lemma run_reachable N l c : run_from_boot N l = Some c → reachable N c.
Proof.
  intros (c0 & H0 & Hr)%bind_Some. exists c0. split; [by apply boot_initial|].
  by eapply run_steps.
Qed.
End exec.

(** ** Concrete runs *)

Definition demo_op (key value : string) (id : Z) : Op := mkOp "Put" key value "client" id.

(** Server 0 is elected in term 1 with the vote of server 1. *)
Definition elect_first : list action :=
  [ABegin 0 1; AVoteReply 0 None; ARequest 0; AVote 0 1; AVoteReply 0 (Some 0%nat)].
Definition elected_cluster : option cluster := run_from_boot (Ar := bit_archive) 3 elect_first.

Lemma election_safety_witness :
  match elected_cluster with
  | Some c => h_elected c = [(1, 0)] ∧
              ∀ T i j, (T, i) ∈ h_elected c → (T, j) ∈ h_elected c → i = j
  | None => False
  end.
Proof.
  destruct elected_cluster as [c|] eqn:Hc; [|vm_compute in Hc; discriminate Hc].
  split; [vm_compute in Hc; injection Hc as <-; reflexivity|].
  apply (election_safety (Ar := bit_archive) 3 c); [reflexivity|].
  by apply (run_reachable 3 elect_first).
Defined.

Lemma snapshots_never_sent_witness :
  match elected_cluster with
  | Some c => c_snap_threads c = [] ∧ c_installs c = []
  | None => False
  end.
Proof.
  destruct elected_cluster as [c|] eqn:Hc; [|vm_compute in Hc; discriminate Hc].
  destruct (snapshots_never_sent (Ar := bit_archive) 3 c) as (H1 & H2 & _); [reflexivity| |].
  - by apply (run_reachable 3 elect_first).
  - split; [exact H1|exact H2].
Defined.

(** Server 0 leads term 1 and takes two commands that it never sends; server 1 leads
    term 2, replaces server 0's first entry, and commits two commands with server 2;
    its heartbeat then makes server 0 commit its own second entry. *)
Definition batch_round (i now : Z) : list action := replicate 7 (ABatch i now now).
Definition diverging_schedule : list action :=
  elect_first ++
  [AStart 0 2 (demo_op "k" "a" 1); AStart 0 2 (demo_op "k" "b" 2);
   ABegin 1 3; AVoteReply 1 None; AVoteReply 1 None; ARequest 1; AVote 0 3;
   AVoteReply 1 (Some 0%nat); AStart 1 4 (demo_op "k" "x" 3)] ++
  batch_round 1 10 ++
  [AAppend 0 11; AAppend 1 11; AAppendReply 0 (Some 1%nat); AAppendReply 0 (Some 0%nat);
   AStart 1 12 (demo_op "k" "y" 4)] ++
  batch_round 1 20 ++
  [AAppend 3 21; AAppendReply 1 (Some 0%nat); AHeartbeat 1 22; AAppend 4 23; AApply 0; AApply 1].

(** What two servers have handed to their state machines. *)
Definition applied (i : Z) (c : cluster) : list (Z * string) :=
  match c_servers c !! i with
  | Some n => (λ m, (am_index m, am_command m)) <$> applyChan n
  | None => []
  end.

(** C39: state machine safety fails.  In this run of three servers, which loses two
    messages and crashes nobody, two servers hand different commands to their state
    machines at index 2: the entries after a replaced one are not cut, and the commit
    index a follower takes over is bounded by its whole log. *)
Example state_machines_diverge :
  match run_from_boot (Ar := bit_archive) 3 diverging_schedule with
  | Some c => reachable (Ar := bit_archive) 3 c ∧
      applied 0 c = [(1, encodeOp (demo_op "k" "x" 3)); (2, encodeOp (demo_op "k" "b" 2))] ∧
      applied 1 c = [(1, encodeOp (demo_op "k" "x" 3)); (2, encodeOp (demo_op "k" "y" 4))]
  | None => False
  end.
Proof.
  destruct (run_from_boot 3 diverging_schedule) as [c|] eqn:Hc;
    [|vm_compute in Hc; discriminate Hc].
  split; [by apply (run_reachable 3 diverging_schedule)|].
  vm_compute in Hc. injection Hc as <-. vm_compute. done.
Qed.

(** A leader that takes two commands. *)
Definition two_commands : list action :=
  elect_first ++ [AStart 0 2 (demo_op "k" "a" 1); AStart 0 2 (demo_op "k" "b" 2)].

Lemma index_and_term_identify_command_witness :
  match run_from_boot (Ar := bit_archive) 3 two_commands with
  | Some c => (length (h_started c) = 2)%nat ∧
      ∀ e e', e ∈ h_started c → e' ∈ h_started c →
        logindex e = logindex e' → logterm e = logterm e' → e = e'
  | None => False
  end.
Proof.
  destruct (run_from_boot 3 two_commands) as [c|] eqn:Hc; [|vm_compute in Hc; discriminate Hc].
  split; [vm_compute in Hc; injection Hc as <-; reflexivity|].
  apply (index_and_term_identify_command (Ar := bit_archive) 3 c); [reflexivity|].
  by apply (run_reachable 3 two_commands).
Defined.

Lemma commands_were_submitted_witness :
  match run_from_boot (Ar := bit_archive) 3 two_commands with
  | Some c => ∀ i n e, c_servers c !! i = Some n → e ∈ m_logs n →
      ∃ e' i, e' ∈ h_started c ∧ logterm e' = logterm e ∧ command e' = command e ∧
              (logterm e, i) ∈ h_elected c
  | None => False
  end.
Proof.
  destruct (run_from_boot 3 two_commands) as [c|] eqn:Hc; [|vm_compute in Hc; discriminate Hc].
  apply (commands_were_submitted (Ar := bit_archive) 3 c); [reflexivity|].
  by apply (run_reachable 3 two_commands).
Defined.

Lemma step_monotone_witness :
  match elected_cluster with
  | Some c => match exec (Ar := bit_archive) (AStart 0 2 (demo_op "k" "a" 1)) c with
              | Some c' => match c_servers c !! 0, c_servers c' !! 0 with
                           | Some n, Some n' => m_status n' = Leader ∧
                               m_logs n `prefix_of` m_logs n'
                           | _, _ => False
                           end
              | None => False
              end
  | None => False
  end.
Proof.
  destruct elected_cluster as [c|] eqn:Hc; [|vm_compute in Hc; discriminate Hc].
  assert (reachable (Ar := bit_archive) 3 c) as Hr by (by apply (run_reachable 3 elect_first)).
  destruct (exec _ c) as [c'|] eqn:Hs.
  2:{ vm_compute in Hc. injection Hc as <-. vm_compute in Hs. discriminate Hs. }
  destruct (c_servers c !! 0) as [n|] eqn:Hn.
  2:{ vm_compute in Hc. injection Hc as <-. vm_compute in Hn. discriminate Hn. }
  destruct (c_servers c' !! 0) as [n'|] eqn:Hn'.
  2:{ vm_compute in Hc. injection Hc as <-. vm_compute in Hs. injection Hs as <-.
      vm_compute in Hn'. discriminate Hn'. }
  assert (m_status n' = Leader) as Hst.
  { vm_compute in Hc. injection Hc as <-. vm_compute in Hs. injection Hs as <-.
    vm_compute in Hn'. by injection Hn' as <-. }
  split; [exact Hst|].
  apply (step_monotone (Ar := bit_archive) 3 c c' 0 n n'); [reflexivity|exact Hr| |exact Hn|exact Hn'|exact Hst].
  exact (exec_step _ _ _ Hs).
Defined.

(** Server 0 leads term 1, its batch sender notices that server 1 leads term 2 and
    returns, and server 0 is elected again in term 3: the flag of its batch sender is
    still set, so no sender runs, and the command it then takes is never sent. *)
Definition reelection_schedule : list action :=
  elect_first ++
  [ABegin 1 3; AVoteReply 1 None; AVoteReply 1 None; ARequest 1; AVote 0 3;
   AVoteReply 1 (Some 0%nat); AHeartbeat 1 4; AAppend 0 5; ABatch 0 6 6;
   AVoteReply 0 None; AEndRound 0; ABegin 0 7; AVoteReply 0 None; ARequest 0; AVote 0 8; AVoteReply 0 (Some 0%nat);
   AStart 0 9 (demo_op "k" "a" 1)].

Example batch_sender_not_restarted :
  match run_from_boot (Ar := bit_archive) 3 reelection_schedule with
  | Some c => match c_servers c !! 0 with
              | Some n => m_status n = Leader ∧ m_currentTerm n = 3 ∧ m_batchRunning n = true ∧
                          m_batchSenderThread n = false ∧ exec (Ar := bit_archive) (ABatch 0 20 20) c = None
              | None => False
              end
  | None => False
  end.
Proof. vm_compute. done. Qed.

(** Server 0 takes a command in term 1 and does not send it; server 1 leads term 2,
    replaces that command at index 1 by its own, commits it and applies it.  Server 0 is
    elected in term 3 with its buffers as they were, takes a second command, and sends both. *)
Definition stale_batch_schedule : list action :=
  elect_first ++
  [AStart 0 2 (demo_op "k" "a" 1);
   ABegin 1 3; AVoteReply 1 None; AVoteReply 1 None; ARequest 1; AVote 0 3;
   AVoteReply 1 (Some 0%nat); AStart 1 4 (demo_op "k" "x" 2)] ++
  batch_round 1 10 ++
  [AAppend 0 11; AAppend 1 11; AAppendReply 0 (Some 1%nat); AAppendReply 0 (Some 0%nat);
   AApply 1; AVoteReply 0 None; AEndRound 0; ABegin 0 12; AVoteReply 0 None; ARequest 0;
   AVote 0 13; AVoteReply 0 (Some 0%nat); AStart 0 14 (demo_op "k" "y" 3)] ++
  batch_round 0 20 ++
  [AAppend 2 21; AAppendReply 0 (Some 0%nat); AApply 0].

(** The log of a server, by index, term and command. *)
Definition log_of (i : Z) (c : cluster) : list LogEntry :=
  match c_servers c !! i with Some n => m_logs n | None => [] end.

(** C40: a committed entry is lost.  In this run of three servers, which loses one vote
    request, a new leader still has an entry of an earlier leadership in its buffers and
    sends it; on a server that has committed and applied another entry at that index it
    replaces the committed one.  When that server restarts, it applies the stale command at
    an index where the leader has applied the committed one. *)
Example stale_batch_overwrites_committed :
  match run_from_boot (Ar := bit_archive) 3 stale_batch_schedule with
  | Some c =>
      applied 1 c = [(1, encodeOp (demo_op "k" "x" 2))] ∧
      log_of 0 c = [mkLogEntry (encodeOp (demo_op "k" "x" 2)) 2 1;
                    mkLogEntry (encodeOp (demo_op "k" "y" 3)) 3 2] ∧
      log_of 1 c = [mkLogEntry (encodeOp (demo_op "k" "a" 1)) 1 1;
                    mkLogEntry (encodeOp (demo_op "k" "y" 3)) 3 2] ∧
      match run (Ar := bit_archive) [ARestart 1 30; AHeartbeat 0 31; AAppend 4 32; AApply 1] c with
      | Some c' => reachable (Ar := bit_archive) 3 c' ∧
          applied 0 c' = [(1, encodeOp (demo_op "k" "x" 2)); (2, encodeOp (demo_op "k" "y" 3))] ∧
          applied 1 c' = [(1, encodeOp (demo_op "k" "a" 1)); (2, encodeOp (demo_op "k" "y" 3))]
      | None => False
      end
  | None => False
  end.
Proof.
  destruct (run_from_boot 3 stale_batch_schedule) as [c|] eqn:Hc;
    [|vm_compute in Hc; discriminate Hc].
  destruct (run _ c) as [c'|] eqn:Hc'.
  - assert (reachable (Ar := bit_archive) 3 c') as Hr.
    { apply run_reachable in Hc as (c0 & H0 & Hs). exists c0. split; [done|].
      by eapply steps_trans, run_steps. }
    vm_compute in Hc. injection Hc as <-. vm_compute in Hc'. injection Hc' as <-.
    split_and!; [reflexivity..|exact Hr|reflexivity|reflexivity].
  - vm_compute in Hc. injection Hc as <-. vm_compute in Hc'. discriminate Hc'.
Qed.
