(* ===== verification/RaftBounds.v ===== *)
(** How large the numbers of a cluster get: every C++ [int] of the servers, their threads
    and their messages stays within 32 bits for the first [2 ^ 30 - 2] steps, so the unbounded
    integers of the model agree with the machine's. *)
From S2P Require Import Prelude OpCoder Persister RaftTypes RaftLog RaftElection.
From S2P Require Import RaftReplication RaftPipeline RaftSteps Cluster ClusterLog ClusterRun.
Open Scope Z_scope.

#[local] Arguments upd : simpl never.

(** ** Bounded messages and nodes

    [k] bounds the terms and the indices. *)

Definition entry_le (k : Z) (e : LogEntry) : Prop :=
  0 < logindex e ≤ k ∧ 0 ≤ logterm e ≤ k.
Definition batch_le (k : Z) (es : list LogEntry) : Prop :=
  vsize es ≤ k ∧ Forall (entry_le k) es.

Definition append_reply_le (k : Z) (r : AppendEntriesReply) : Prop :=
  0 ≤ aer_term r ≤ k ∧ -100 ≤ aer_updatenextindex r ≤ k + 1.

Section bounds.
Context `{Ar : BoostArchive}.
Variable N : nat.

Record append_le (k : Z) (args : AppendEntriesArgs) : Prop := {
  al_term : 0 ≤ ae_term args ≤ k;
  al_leader : 0 ≤ ae_leaderid args < Z.of_nat N;
  al_prev : 0 ≤ ae_prevlogindex args ≤ k + 1;
  al_prevterm : -1 ≤ ae_prevlogterm args ≤ k;
  al_commit : 0 ≤ ae_leadercommit args ≤ k;
  al_batchid : 0 ≤ ae_batchid args ≤ k;
  al_entries : batch_le k (ae_entries args)
}.

Definition vote_request_le (k : Z) (args : RequestVoteArgs) : Prop :=
  0 ≤ rv_term args ≤ k ∧ 0 ≤ rv_candidateid args < Z.of_nat N ∧
  0 ≤ rv_lastlogindex args ≤ k ∧ 0 ≤ rv_lastlogterm args ≤ k.

Record node_le (k : Z) (n : node) : Prop := {
  nl_me : 0 ≤ m_me n < Z.of_nat N;
  nl_term : 0 ≤ m_currentTerm n ≤ k;
  nl_vote : -1 ≤ m_votedFor n < Z.of_nat N;
  nl_snap : m_lastSnapshotIncludeIndex n = 0;
  nl_snapterm : m_lastSnapshotIncludeTerm n = 0;
  nl_last : getLastLogIndex n ≤ k;
  nl_logs : Forall (entry_le k) (m_logs n);
  nl_pending : Forall (λ p, batch_le k (entries p)) (m_pendingEntries n);
  nl_commit : 0 ≤ m_commitIndex n ≤ k;
  nl_committed : m_commitIndex n ≤ getLastLogIndex n;
  nl_applied : 0 ≤ m_lastApplied n ≤ m_commitIndex n;
  nl_match : Forall (λ m, 0 ≤ m ≤ k + 1) (m_matchIndex n);
  nl_next : Forall (λ m, 0 ≤ m ≤ k + 2) (m_nextIndex n);
  nl_chan : Forall (λ m, 0 < am_index m ≤ k) (applyChan n)
}.

(** ** Monotonicity *)

Lemma entry_le_mono k k' e : k ≤ k' → entry_le k e → entry_le k' e.
Proof. unfold entry_le. lia. Qed.
Lemma batch_le_mono k k' es : k ≤ k' → batch_le k es → batch_le k' es.
Proof.
  intros Hk [Hs He]. split; [lia|]. eapply Forall_impl; [exact He|].
  intros e. by apply entry_le_mono.
Qed.
Lemma append_le_mono k k' args : k ≤ k' → append_le k args → append_le k' args.
Proof. intros Hk []. constructor; try lia. by eapply batch_le_mono. Qed.
Lemma append_reply_le_mono k k' r : k ≤ k' → append_reply_le k r → append_reply_le k' r.
Proof. unfold append_reply_le. lia. Qed.
Lemma vote_request_le_mono k k' args : k ≤ k' → vote_request_le k args → vote_request_le k' args.
Proof. unfold vote_request_le. lia. Qed.
Lemma node_le_mono k k' n : k ≤ k' → node_le k n → node_le k' n.
Proof.
  intros Hk []. constructor; try lia.
  all: eapply Forall_impl; [eassumption|]; cbn; intros.
  all: first [lia | by eapply entry_le_mono | by eapply batch_le_mono].
Qed.

Lemma last_nonneg n : m_lastSnapshotIncludeIndex n = 0 → 0 ≤ getLastLogIndex n.
Proof. unfold getLastLogIndex, vsize. lia. Qed.

Lemma node_le_last_term k n : node_le k n → 0 ≤ getLastLogTerm n ≤ k.
Proof.
  intros Hn. unfold getLastLogTerm. destruct (last (m_logs n)) as [e|] eqn:He.
  2:{ rewrite (nl_snapterm _ _ Hn). pose proof (nl_term _ _ Hn). lia. }
  apply last_Some_elem_of in He. pose proof (nl_logs _ _ Hn) as Hl.
  rewrite Forall_forall in Hl. by apply Hl in He as [_ ?].
Qed.

Lemma node_le_term_at k n i t :
  node_le k n → getLogTermFromLogIndex i n = Ok t → -1 ≤ t ≤ k.
Proof.
  intros Hn. rewrite getLogTerm_spec. intros [= <-]. pose proof (nl_snapterm _ _ Hn).
  pose proof (nl_term _ _ Hn).
  destruct (_ =? _); [lia|]. destruct (log_entry n i) as [e|] eqn:He; [|lia].
  unfold log_entry in He. case_decide; [|done]. pose proof (nl_logs _ _ Hn) as Hl.
  rewrite Forall_lookup in Hl. apply Hl in He as [_ ?]. lia.
Qed.

(** ** The handlers *)

Lemma le_persist k n : node_le k n → node_le k (persist n).
Proof. intros []. by constructor. Qed.
Lemma le_step_down k t n : 0 ≤ t ≤ k → node_le k n → node_le k (step_down t n).
Proof. intros Ht []. constructor; try done. change (-1 ≤ -1 < Z.of_nat N). lia. Qed.
Lemma le_adopt k t n : t ≤ k → node_le k n → node_le k (adopt_term t n).
Proof.
  intros Ht Hn. unfold adopt_term. destruct (Z.ltb_spec (m_currentTerm n) t); [|done].
  apply le_step_down; [|done]. pose proof (nl_term _ _ Hn). lia.
Qed.

Lemma RequestVote1_le k now args n n' r :
  node_le k n → vote_request_le k args → RequestVote1 now args n = Ok (n', r) →
  node_le k n' ∧ 0 ≤ rvr_term r ≤ k.
Proof.
  intros Hn (Ht & Hc & _) H. destruct (RequestVote1_eq now args n) as [vs Heq].
  rewrite Heq in H. injection H as <- <-.
  assert (node_le k (adopt_term (rv_term args) n)) as Ha by (apply le_adopt; [lia|done]).
  pose proof (nl_term _ _ Ha). destruct (grants args n).
  - split; [|done]. apply le_persist. destruct Ha. constructor; try done.
    change (-1 ≤ rv_candidateid args < Z.of_nat N). lia.
  - split; [by apply le_persist|done].
Qed.
(** *** The follower *)

Lemma append_entry_le k e n n' :
  entry_le k e → node_le k n → append_entry e n = Ok n' → node_le k n'.
Proof.
  intros He Hn. unfold append_entry. destruct (Z.ltb_spec (getLastLogIndex n) (logindex e)).
  - intros [= <-]. destruct Hn. constructor; try done; upd_simpl.
    + unfold getLastLogIndex in *. upd_simpl. rewrite vsize_app.
      change (vsize [e]) with 1. destruct He. lia.
    + apply Forall_app. split; [done|]. by constructor.
    + unfold getLastLogIndex in *. upd_simpl. rewrite vsize_app.
      pose proof (vsize_nonneg [e]). lia.
  - intros Hr. inv_ok. destruct (negb (_ =? _)); inv_ok; [|by subst].
    apply vec_set_Ok in Hx1 as [_ ->]. subst n'. destruct Hn. constructor; try done; upd_simpl.
    + unfold getLastLogIndex in *. upd_simpl. by rewrite vsize_insert.
    + by apply Forall_insert.
    + unfold getLastLogIndex in *. upd_simpl. by rewrite vsize_insert.
Qed.

Lemma append_loop_le k es n n' :
  Forall (entry_le k) es → node_le k n → for_each append_entry es n = Ok n' → node_le k n'.
Proof.
  intros Hes Hn. apply (for_each_Ok append_entry (node_le k)); [|done].
  intros e s s' Hin Hs. apply append_entry_le; [|done]. by eapply Forall_forall.
Qed.

Lemma conflict_hint_le args n o :
  ae_prevlogindex args ≤ getLastLogIndex n → 0 ≤ ae_prevlogindex args →
  m_lastSnapshotIncludeIndex n = 0 →
  conflict_index (Z.to_nat (ae_prevlogindex args - m_lastSnapshotIncludeIndex n + 1))
    (ae_prevlogindex args) (ae_prevlogindex args) n = Ok o →
  0 ≤ default (ae_prevlogindex args) o ≤ getLastLogIndex n.
Proof.
  intros Hlast Hpos Hs Hrun.
  destruct (conflict_index_spec (Z.to_nat (ae_prevlogindex args - m_lastSnapshotIncludeIndex n + 1))
    (ae_prevlogindex args) (ae_prevlogindex args) n) as (o' & Hrun' & Ho); [done|done|lia|].
  rewrite Hrun in Hrun'. injection Hrun' as <-. destruct o as [h|]; cbn; [|lia].
  destruct Ho as [Ho _]. lia.
Qed.

Lemma le_commit k c n :
  m_commitIndex n ≤ c ≤ getLastLogIndex n → node_le k n → node_le k (n <| m_commitIndex := c |>).
Proof.
  intros Hc []. constructor; try done; [change (0 ≤ c ≤ k); lia|exact (proj2 Hc)|].
  change (0 ≤ m_lastApplied n ≤ c). lia.
Qed.

Lemma append_checked_le k args reply n n' r :
  node_le k n → append_le k args → -100 ≤ aer_updatenextindex reply ≤ k + 1 →
  append_checked args reply n = Ok (n', r) → node_le k n' ∧ append_reply_le k r.
Proof.
  intros Hn Ha Hreply. pose proof (nl_term _ _ Hn) as Ht. pose proof (nl_last _ _ Hn) as Hl.
  pose proof (last_nonneg _ (nl_snap _ _ Hn)) as Hpos. pose proof (nl_snap _ _ Hn) as Hs.
  destruct Ha as [_ _ Hprev _ Hcommit _ [_ Hes]]. unfold append_checked.
  destruct (Z.ltb_spec (getLastLogIndex n) (ae_prevlogindex args)).
  { intros [= <- <-]. split; [by apply le_persist|]. split; [exact Ht|]. upd_simpl. lia. }
  destruct (_ <? _).
  { intros [= <- <-]. split; [by apply le_persist|]. split; [exact Ht|]. upd_simpl. lia. }
  intros H'. inv_ok. destruct x; inv_ok.
  - pose proof (append_loop_le k _ _ _ Hes Hn Hx0) as Hm. subst n' r.
    destruct (append_loop_update _ _ _ Hx0) as (l & -> & _).
    pose proof (nl_last _ _ Hm). pose proof (last_nonneg _ (nl_snap _ _ Hm)).
    destruct (_ <? ae_leadercommit args) eqn:E;
      (split; [apply le_persist|split; [exact Ht|exact Hreply]]); [|done].
    b2p. apply le_commit; [|done]. pose proof (nl_committed _ _ Hm). lia.
  - subst n' r. split; [by apply le_persist|]. split; [done|]. upd_simpl.
    apply conflict_hint_le in Hx0; [lia|done|lia|done].
Qed.

Lemma le_ae_state k now args n :
  ae_term args ≤ k → node_le k n → node_le k (ae_state now args n).
Proof. intros Ht Hn. destruct (le_adopt k _ _ Ht Hn). by constructor. Qed.

Lemma AppendEntries1_le k now args n n' r :
  node_le k n → append_le k args → AppendEntries1 now args n = Ok (n', r) →
  node_le k n' ∧ append_reply_le k r.
Proof.
  intros Hn Ha. pose proof (al_term _ _ Ha). pose proof (nl_term _ _ Hn).
  destruct (decide (ae_term args < m_currentTerm n)).
  - rewrite AppendEntries1_stale by done. intros [= <- <-]. split; [done|].
    split; [done|]. change (-100 ≤ -100 ≤ k + 1). lia.
  - rewrite AppendEntries1_checked by lia.
    apply append_checked_le; [apply le_ae_state; [lia|done]|done|].
    change (-100 ≤ 0 ≤ k + 1). lia.
Qed.

(** *** The candidate *)

Lemma doElection_begin_le k now n n' args :
  node_le k n → doElection_begin now n = Some (n', args) →
  node_le (k + 1) n' ∧ vote_request_le (k + 1) args.
Proof.
  intros Hn. pose proof (nl_me _ _ Hn) as Hme. unfold doElection_begin. destruct (bool_decide _); [done|]. cbn zeta.
  intros H. injection H as <- <-. pose proof (node_le_last_term _ _ Hn).
  pose proof (last_nonneg _ (nl_snap _ _ Hn)). pose proof (nl_last _ _ Hn).
  pose proof (nl_term _ _ Hn). pose proof (node_le_mono k (k + 1) n ltac:(lia) Hn) as Hn'. split.
  - destruct Hn'. constructor; try done; [change (0 ≤ m_currentTerm n + 1 ≤ k + 1); lia|].
    change (-1 ≤ m_me n < Z.of_nat N). lia.
  - unfold vote_request_le. cbn [rv_term rv_candidateid rv_lastlogindex rv_lastlogterm].
    change (0 ≤ m_currentTerm n + 1 ≤ k + 1 ∧ 0 ≤ m_me n < Z.of_nat N ∧
      0 ≤ getLastLogIndex n ≤ k + 1 ∧ 0 ≤ getLastLogTerm n ≤ k + 1). lia.
Qed.

Lemma leader_state_le k n : vectors_ok n → node_le k n → node_le k (leader_state n).
Proof.
  intros (Hni & Hmi & _) Hn. pose proof (last_nonneg _ (nl_snap _ _ Hn)).
  pose proof (nl_last _ _ Hn).
  destruct (leader_state_fields n) as (_ & Hnext & Hmatch & Ht & Hv & Hl & Hc & _ & _ & Hme & _ &
    Hp & Hs & Hst & Ha & Hch & _).
  rewrite reset_upto_full in Hnext, Hmatch by done.
  destruct Hn. constructor; rewrite ?Hme, ?Ht, ?Hv, ?Hs, ?Hst, ?Hl, ?Hp, ?Hc, ?Ha, ?Hch, ?Hnext, ?Hmatch;
    try done.
  - unfold getLastLogIndex in *. by rewrite Hs, Hl.
  - unfold getLastLogIndex in *. by rewrite Hs, Hl.
  - apply Forall_replicate. lia.
  - apply Forall_replicate. lia.
Qed.

Lemma election_peer_le k i n v n' v' o :
  vectors_ok n → 0 ≤ v + 1 < 2 ^ 64 → node_le k n →
  (∀ r, o = Some r → 0 ≤ rvr_term r ≤ k) →
  election_peer (λ _, o) i (n, v) = Ok (n', v') → node_le k n'.
Proof.
  intros Hvec Hv Hn Ho. unfold election_peer. destruct (_ =? _); [by intros [= <- _]|].
  rewrite sendRequestVote_eq by done. destruct o as [r|]; [|by intros [= <- _]].
  destruct (m_currentTerm n <? rvr_term r).
  { intros H. apply Ok_inj2 in H as [<- _]. apply le_persist, le_step_down; [by apply Ho|done]. }
  destruct (_ && _); [|by intros [<- _]%Ok_inj2].
  destruct (_ <=? _); [|by intros [<- _]%Ok_inj2].
  destruct (bool_decide _); [done|]. intros [<- _]%Ok_inj2. by apply leader_state_le.
Qed.

(** *** The leader *)

Lemma doHeartBeat_le k now n n' out :
  vectors_ok n → node_le k n → doHeartBeat now n = Ok (n', out) →
  node_le k n' ∧
  ∀ p args, OutAppend p args ∈ out → append_le k args ∧ 0 ≤ p < Z.of_nat (m_peers_size n).
Proof.
  intros Hvec Hn. pose proof (nl_next _ _ Hn) as Hnext. rewrite Forall_lookup in Hnext.
  pose proof (nl_term _ _ Hn). destruct (decide (m_status n = Leader)) as [Hst|Hst].
  2:{ unfold doHeartBeat. rewrite bool_decide_eq_false_2 by done. intros [= <- <-].
      split; [done|]. by intros ? ? ?%not_elem_of_nil. }
  destruct (doHeartBeat_eq now n Hvec Hst) as (v & -> & Hlen & Hv). intros [<- <-]%Ok_inj2.
  split.
  - destruct Hn. constructor; try done. apply Forall_lookup. intros i x Hx. upd_simpl_in Hx.
    specialize (Hv (Z.of_nat i) ltac:(lia)). rewrite Nat2Z.id, Hx in Hv.
    destruct (m_nextIndex n !! i) as [y|] eqn:Hy; [|by case_decide].
    specialize (Hnext _ _ Hy). case_decide; injection Hv as ->; lia.
  - intros p args Hin. apply list_elem_of_fmap in Hin as (j & Heq & Hj).
    unfold heartbeat_message in Heq. case_match; [discriminate Heq|]. injection Heq as -> ->.
    apply list_elem_of_filter in Hj as [_ Hj%indices_in]. split; [|done].
    set (x := default 0 (m_nextIndex n !! Z.to_nat j)).
    assert (0 ≤ x ≤ k + 2) as Hx.
    { unfold x. destruct (m_nextIndex n !! Z.to_nat j) as [y|] eqn:Hy; cbn; [|lia].
      by apply Hnext in Hy. }
    constructor; cbn; try apply Hn; try lia.
    + by eapply node_le_term_at, getLogTerm_term_at.
    + split; [change (0 ≤ k); lia|constructor].
Qed.

Lemma handlePipelineResponse_slots peerId m n n' :
  handlePipelineResponse peerId m n = Ok n' →
  ∃ pipe acked, n' = n <| m_peerPipeline := pipe |> <| m_total_batches_acked := acked |>.
Proof.
  unfold handlePipelineResponse, slidePipelineWindow. intros H. inv_ok. subst. eauto.
Qed.

Lemma handleLogMismatch_le k peerId reply n n' :
  node_le k n → append_reply_le k reply → handleLogMismatch peerId reply n = Ok n' →
  node_le k n'.
Proof.
  intros Hn [_ Hr]. unfold handleLogMismatch. pose proof (nl_snap _ _ Hn) as Hs.
  pose proof (nl_term _ _ Hn).
  destruct (negb _); [|by intros [= <-]]. rewrite Hs. cbn zeta. intros H'. inv_ok.
  apply vec_set_Ok in Hx as [_ ->]. subst n'. destruct Hn. constructor; try done. upd_simpl.
  apply Forall_insert; [done|].
  destruct (Z.ltb_spec (aer_updatenextindex reply) 1);
    match goal with |- context [?a <=? 0] => destruct (Z.leb_spec a 0) end; lia.
Qed.

Lemma updatePeerSyncState_le k peerId args a n n' a' :
  node_le k n → updatePeerSyncState peerId args a n = Ok (n', a') →
  node_le k n' ∧ a' = a + 1.
Proof.
  intros Hn. unfold updatePeerSyncState. intros H. inv_ok. subst. split; [|done].
  apply vec_set_Ok in Hx0 as [_ ->]. apply vec_set_Ok in Hx1 as [_ ->].
  apply vec_at_Ok in Hx as [_ Hold]. pose proof (nl_match _ _ Hn) as Hm.
  rewrite Forall_lookup in Hm. apply Hm in Hold.
  set (m := Z.max x (ae_prevlogindex args + vsize (ae_entries args))) in *.
  change (n <| m_matchIndex := _ |> <| m_nextIndex := _ |>) with (acknowledged peerId m n) in Hx2.
  assert (∃ pipe acked, n' = (acknowledged peerId m n) <| m_peerPipeline := pipe |>
    <| m_total_batches_acked := acked |>) as (pipe & acked & ->).
  { destruct (0 <? _); [by eapply handlePipelineResponse_slots|]. injection Hx2 as <-.
    exists (m_peerPipeline n), (m_total_batches_acked n). by destruct n. }
  change (getLastLogIndex (_ <| m_total_batches_acked := _ |>)) with (getLastLogIndex n) in Hx3.
  unfold myAssert in Hx3. case_match eqn:E; [|discriminate Hx3]. b2p.
  pose proof (nl_last _ _ Hn). assert (0 ≤ m ≤ k + 1) by lia.
  destruct Hn. constructor; try done; unfold acknowledged; upd_simpl.
  - by apply Forall_insert.
  - apply Forall_insert; [done|lia].
Qed.

Lemma tryUpdateCommitIndex_le k args a n n' a' :
  node_le k n → 0 ≤ a → tryUpdateCommitIndex args a n = Ok (n', a') →
  node_le k n' ∧ 0 ≤ a' ≤ a.
Proof.
  intros Hn Ha. unfold tryUpdateCommitIndex. case_match; [intros [= <- <-]; split; [done|lia]|].
  intros H'. inv_ok. subst. split; [|lia]. unfold myAssert in Hx.
  destruct (_ <=? _) eqn:E in Hx; [|discriminate Hx]. b2p. clear Hx.
  destruct (last (ae_entries args)) as [e|]; [|done]. destruct (_ =? _); [|done].
  apply le_commit; [|done]. upd_simpl_in E. pose proof (nl_last _ _ Hn).
  change (getLastLogIndex _) with (getLastLogIndex n) in E. pose proof (nl_commit _ _ Hn). lia.
Qed.

Lemma sendAppendEntries_le k peerId args rpc a n n' a' b :
  node_le k n → 0 ≤ a → (∀ r, rpc = Some r → append_reply_le k r) →
  sendAppendEntries peerId args rpc a n = Ok (n', a', b) → node_le k n' ∧ 0 ≤ a' ≤ a + 1.
Proof.
  intros Hn Ha Hr. unfold sendAppendEntries.
  destruct (callAppendEntriesRpc rpc) as [reply|] eqn:Hc;
    [|intros [= <- <- _]; split; [done|lia]].
  assert (append_reply_le k reply) as Hreply.
  { apply Hr. unfold callAppendEntriesRpc in Hc. destruct rpc; [|done]. by case_match. }
  destruct (handleTermMismatch _ n) as [m stop] eqn:Hm.
  assert (node_le k m) as Hle.
  { unfold handleTermMismatch in Hm. repeat case_match; injection Hm as <- _; try done.
    apply le_persist, le_step_down; [apply Hreply|done]. }
  destruct stop; [intros [= <- <- _]; split; [done|lia]|].
  destruct (negb _); [intros [= <- <- _]; split; [done|lia]|]. intros H. inv_ok.
  destruct (negb _); inv_ok.
  - subst. split; [by eapply handleLogMismatch_le|lia].
  - destruct x0 as [n1 a1]. inv_ok. destruct x0 as [n2 a2]. inv_ok. subst.
    apply updatePeerSyncState_le with (k := k) in Hx0 as [Hn1 ->]; [|done].
    by apply tryUpdateCommitIndex_le with (k := k) in Hx1; [|done|lia].
Qed.

(** *** Commands, batches, the applier and restarts *)

Lemma addToPendingBatch_le k now e n :
  entry_le (k + 1) e → Forall (λ p, batch_le k (entries p)) (m_pendingEntries n) →
  node_le (k + 1) n → node_le (k + 1) (addToPendingBatch now e n).
Proof.
  intros He Hp Hn. unfold addToPendingBatch. destruct Hn. constructor; try done. upd_simpl.
  apply Forall_lookup. intros i q Hq. rewrite list_lookup_imap in Hq.
  destruct (m_pendingEntries n !! i) as [p|] eqn:Hi; [|done]. cbn in Hq. injection Hq as <-.
  rewrite Forall_lookup in Hp. destruct (Hp _ _ Hi) as [Hs Hes].
  destruct (_ =? _); [apply (batch_le_mono k); [lia|done]|].
  assert (batch_le (k + 1) (entries p ++ [e])) as Hb.
  { split; [rewrite vsize_app; change (vsize [e]) with 1; lia|].
    apply Forall_app. split; [|by constructor]. by destruct (batch_le_mono k (k + 1) (entries p)); [lia| |]. }
  destruct (entries p) eqn:E; upd_simpl; rewrite E; exact Hb.
Qed.

Lemma Start_le k now op n n' i b :
  node_le k n → Start now op n = (n', i, b) → node_le (k + 1) n'.
Proof.
  intros Hn. pose proof (node_le_mono k (k + 1) n ltac:(lia) Hn) as Hn'.
  pose proof (last_nonneg _ (nl_snap _ _ Hn)). pose proof (nl_last _ _ Hn).
  pose proof (nl_term _ _ Hn). unfold Start. destruct (negb _); [by intros [= <- _ _]|].
  intros H'. injection H' as <- _ _. set (e := mkLogEntry _ _ _).
  assert (entry_le (k + 1) e) as He by (unfold entry_le, e; cbn; lia).
  apply addToPendingBatch_le; [done|exact (nl_pending _ _ Hn)|]. apply le_persist.
  destruct Hn'. constructor; try done; upd_simpl.
  - unfold getLastLogIndex in *. upd_simpl. rewrite vsize_app. change (vsize [e]) with 1. lia.
  - apply Forall_app. split; [done|by constructor].
  - unfold getLastLogIndex in *. upd_simpl. rewrite vsize_app. change (vsize [e]) with 1. lia.
Qed.

Lemma batch_collect_le k now1 now2 n :
  node_le k n →
  node_le k (batch_collect now1 now2 n).1 ∧
  Forall (λ b, 0 ≤ b.1 < vsize (m_pendingEntries n) ∧ batch_le k b.2)
    (batch_collect now1 now2 n).2.
Proof.
  intros Hn. pose proof (nl_pending _ _ Hn) as Hp. rewrite Forall_lookup in Hp.
  pose proof (nl_term _ _ Hn). unfold batch_collect.
  pose proof (batch_collect_from_spec 0 (m_me n) now1 now2 (m_pendingEntries n)) as Hspec.
  destruct (batch_collect_from _ _ _ _ _) as [ps out]. destruct Hspec as (Hlen & Hget & Hout).
  cbn [fst snd]. split.
  - destruct Hn. constructor; try done. upd_simpl. apply Forall_lookup. intros i q Hq.
    destruct (lookup_lt_is_Some_2 (m_pendingEntries n) i) as [p Hi].
    { apply lookup_lt_Some in Hq. lia. }
    rewrite (Hget i p Hi) in Hq. injection Hq as <-. case_match; [|by eapply Hp].
    split; [change (0 ≤ k); lia|constructor].
  - apply Forall_forall. intros [j es] Hin. apply Hout in Hin as (i & p & Hi & -> & -> & _).
    cbn [fst snd]. split; [|by eapply Hp]. apply lookup_lt_Some in Hi. unfold vsize. lia.
Qed.

Lemma batch_request_le k es n args :
  node_le k n → batch_le k es → batch_request es n = Ok (Some args) → append_le k args.
Proof.
  intros Hn [Hs Hes]. unfold batch_request. destruct es as [|e es]; [done|]. intros H. inv_ok.
  subst args. apply node_le_term_at with (k := k) in Hx; [|done].
  pose proof (Forall_inv Hes) as He. destruct He as [? ?].
  constructor; cbn; try apply Hn; try lia. by split.
Qed.

Lemma applier_loop_le k fuel msgs n msgs' n' :
  node_le k n → Forall (λ m, 0 < am_index m ≤ k) msgs →
  applier_loop fuel msgs n = Ok (msgs', n') →
  node_le k n' ∧ Forall (λ m, 0 < am_index m ≤ k) msgs'.
Proof.
  revert msgs n. induction fuel as [|fuel IH]; intros msgs n Hn Hm; cbn [applier_loop];
    [by intros [= <- <-]|].
  destruct (Z.ltb_spec (m_lastApplied n) (m_commitIndex n)); [|by intros [= <- <-]].
  intros H'. inv_ok. pose proof (nl_applied _ _ Hn). pose proof (nl_commit _ _ Hn).
  apply IH in H'; [done| |].
  - destruct Hn. constructor; try done. upd_simpl. lia.
  - apply Forall_app. split; [done|]. constructor; [|done]. cbn [am_index]. upd_simpl. lia.
Qed.

Lemma applierTicker_round_le k n n' : node_le k n → applierTicker_round n = Ok n' → node_le k n'.
Proof.
  intros Hn. unfold applierTicker_round. intros H. inv_ok. destruct x as [msgs m]. inv_ok.
  subst n'. destruct (applier_loop_le k _ _ _ _ _ Hn (Forall_nil_2 _) Hx) as [Hm Hms].
  rewrite push_all. destruct Hm. constructor; try done. upd_simpl. by apply Forall_app.
Qed.

Lemma restarted_le k n n' : node_le k n → restarted n n' → node_le k n'.
Proof.
  intros Hn R. pose proof (nl_term _ _ Hn). pose proof (nl_last _ _ Hn) as Hlast.
  pose proof (f_equal length (rs_log _ _ R)) as Hlen. rewrite !length_fmap in Hlen.
  assert (getLastLogIndex n' = getLastLogIndex n) as Hl
    by (unfold getLastLogIndex, vsize; by rewrite (rs_snap _ _ R), Hlen).
  constructor; rewrite ?(rs_me _ _ R), ?(rs_term _ _ R), ?(rs_vote _ _ R), ?(rs_snap _ _ R),
    ?(rs_snapterm _ _ R), ?(rs_commit _ _ R), ?(rs_applied _ _ R), ?(rs_next _ _ R),
    ?(rs_match _ _ R), ?(rs_chan _ _ R), ?Hl; try apply Hn; try lia.
  - apply Forall_lookup. intros j e He. split.
    + rewrite (rs_numbered _ _ R j e He), (rs_snap _ _ R), (nl_snap _ _ Hn).
      apply lookup_lt_Some in He. unfold getLastLogIndex, vsize in Hlast.
      rewrite (nl_snap _ _ Hn) in Hlast. lia.
    + pose proof (f_equal (lookup j) (rs_log _ _ R)) as Hj.
      rewrite !list_lookup_fmap, He in Hj. pose proof (nl_logs _ _ Hn) as Hlogs.
      rewrite Forall_lookup in Hlogs. destruct (m_logs n !! j) as [e0|] eqn:He0; [|done].
      injection Hj as -> _. by apply Hlogs in He0 as [_ ?].
  - apply Forall_forall. intros p Hp. rewrite (rs_pending _ _ R p Hp).
    split; [change (0 ≤ k); lia|constructor].
  - apply last_nonneg, Hn.
  - apply Forall_replicate. lia.
  - apply Forall_replicate. lia.
  - constructor.
Qed.

(** ** Bounded clusters *)

(** The batches a sender holds, with the peers they are for. *)
Definition pc_batches (pc : batch_pc) : list (Z * list LogEntry) :=
  match pc with
  | Checked => []
  | Sending l => l
  | Building p es l => (p, es) :: l
  end.

Definition peer (p : Z) : Prop := 0 ≤ p < Z.of_nat N.

Record binv (k : Z) (c : cluster) : Prop := {
  bi_nodes : ∀ i n, c_servers c !! i = Some n → node_le k n;
  bi_rounds : ∀ i rd, c_rounds c !! i = Some rd → vote_request_le k (rd_args rd);
  bi_batch : ∀ i pc, c_batch c !! i = Some pc →
    Forall (λ b, peer b.1 ∧ batch_le k b.2) (pc_batches pc);
  bi_threads : Forall (λ t, peer (th_to t) ∧ append_le k (th_args t)) (c_threads c);
  bi_counters : Forall (λ a, 0 ≤ a ≤ k + 1) (c_counters c);
  bi_vote_requests : Forall (λ m, vote_request_le k m.2) (c_vote_requests c);
  bi_vote_replies : Forall (λ m, 0 ≤ rvr_term m.2 ≤ k) (c_vote_replies c);
  bi_appends : Forall (λ m, append_le k m.2) (c_appends c);
  bi_append_replies : Forall (λ m, append_reply_le k m.2) (c_append_replies c)
}.

Lemma binv_mono k k' c : k ≤ k' → binv k c → binv k' c.
Proof.
  intros Hk []. constructor; intros.
  - by eapply node_le_mono, bi_nodes0.
  - by eapply vote_request_le_mono, bi_rounds0.
  - eapply Forall_impl; [by eapply bi_batch0|]. cbn. intros b []. split; [done|].
    by eapply batch_le_mono.
  - eapply Forall_impl; [done|]. cbn. intros t []. split; [done|]. by eapply append_le_mono.
  - eapply Forall_impl; [done|]. cbn. lia.
  - eapply Forall_impl; [done|]. cbn. intros m. by apply vote_request_le_mono.
  - eapply Forall_impl; [done|]. cbn. lia.
  - eapply Forall_impl; [done|]. cbn. intros m. by apply append_le_mono.
  - eapply Forall_impl; [done|]. cbn. intros m. by apply append_reply_le_mono.
Qed.

Lemma binv_server k i n' c : binv k c → node_le k n' → binv k (set_server i n' c).
Proof.
  intros [] Hn. constructor; try done. intros j m. rewrite lookup_set_server.
  case_decide; [by intros [= <-]|apply bi_nodes0].
Qed.

Lemma binv_round k i rd c :
  binv k c → vote_request_le k (rd_args rd) →
  binv k (c <| c_rounds := <[i := rd]> (c_rounds c) |>).
Proof.
  intros [] Hr. constructor; try done. upd_simpl.
  by intros j rd' [[<- <-]|[_ ?]]%lookup_insert_Some; [|eapply bi_rounds0].
Qed.

Lemma binv_batch k i pc c :
  binv k c → Forall (λ b, peer b.1 ∧ batch_le k b.2) (pc_batches pc) →
  binv k (c <| c_batch := <[i := pc]> (c_batch c) |>).
Proof.
  intros [] Hr. constructor; try done. upd_simpl.
  by intros j rd' [[<- <-]|[_ ?]]%lookup_insert_Some; [|eapply bi_batch0].
Qed.

(** New threads, their requests and their counter. *)
Lemma binv_threads k ts c :
  0 ≤ k → binv k c → Forall (λ t, peer (th_to t) ∧ append_le k (th_args t)) ts →
  binv k (c <| c_counters := c_counters c ++ [1] |> <| c_threads := c_threads c ++ ts |>
            <| c_appends := c_appends c ++ sent ts |>).
Proof.
  intros Hk [] Hts. constructor; try done; upd_simpl.
  - by apply Forall_app.
  - apply Forall_app. split; [done|]. constructor; [lia|done].
  - apply Forall_app. split; [done|]. apply Forall_fmap. eapply Forall_impl; [done|].
    by intros t [].
Qed.

Lemma received_le {A B} (P : B → Prop) (replies : list (Z * A * B)) j a o r :
  Forall (λ m, P m.2) replies → received replies j a o → o = Some r → P r.
Proof. intros Hall Hrec ->. cbn in Hrec. rewrite Forall_forall in Hall. by apply (Hall _ Hrec). Qed.

Lemma spawn_le k i j out :
  (∀ p args, OutAppend p args ∈ out → append_le k args ∧ peer p) →
  Forall (λ t, peer (th_to t) ∧ append_le k (th_args t)) (spawn i j out).
Proof.
  intros Hout. apply Forall_forall. intros t Ht. unfold spawn in Ht.
  apply list_elem_of_omap in Ht as (o & Ho & Hm). destruct o; [|discriminate Hm].
  injection Hm as <-. apply Hout in Ho. naive_solver.
Qed.

Context `{!BoostArchiveLaws Ar}.

(** A step of an election. *)
Lemma binv_begin k i n n' args now c l h :
  0 ≤ k → binv k c → c_servers c !! i = Some n → doElection_begin now n = Some (n', args) →
  binv (k + 1) ((set_server i n' c) <| c_rounds := <[i := mkRound args l 1]> (c_rounds c) |>
                                    <| h_ballots := h |>).
Proof.
  intros Hk B Hi Hrun.
  destruct (doElection_begin_le k _ _ _ _ (bi_nodes _ _ B _ _ Hi) Hrun) as [Hn Ha].
  apply (binv_mono k (k + 1)) in B; [|lia].
  by destruct (binv_round _ i (mkRound args l 1) _ (binv_server _ i n' _ B Hn) Ha).
Qed.

Lemma binv_vote k j args n now n' r c h :
  0 ≤ k → binv k c → (j, args) ∈ c_vote_requests c → c_servers c !! j = Some n →
  RequestVote1 now args n = Ok (n', r) →
  binv k ((set_server j n' c) <| c_vote_replies := (j, args, r) :: c_vote_replies c |>
                              <| h_ballots := h |>).
Proof.
  intros Hk B Hreq Hj Hrun. pose proof (bi_vote_requests _ _ B) as Hall.
  rewrite Forall_forall in Hall. apply Hall in Hreq.
  destruct (RequestVote1_le k _ _ _ _ _ (bi_nodes _ _ B _ _ Hj) Hreq Hrun) as [Hn Hr].
  destruct (binv_server _ j n' _ B Hn). constructor; try done. upd_simpl. by constructor.
Qed.

Lemma binv_vote_reply k i n rd j l o n' v' c h :
  Z.of_nat N < 2 ^ 62 → cinv N c → binv k c → c_servers c !! i = Some n →
  c_rounds c !! i = Some rd → rd_left rd = j :: l →
  received (c_vote_replies c) j (rd_args rd) o →
  election_peer (λ _, o) j (n, rd_votes rd) = Ok (n', v') →
  binv k ((set_server i n' c) <| c_rounds := <[i := mkRound (rd_args rd) l v']> (c_rounds c) |>
                              <| h_elected := h |>).
Proof.
  intros HN Hc B Hi Hr Hleft Hrec Hrun.
  destruct (ci_rounds _ _ Hc _ _ Hr) as [_ _ _ (V & HV & _ & Hpos & Hvotes)].
  destruct (ci_nodes _ _ Hc _ _ Hi) as [_ _ Hsize Hvec _ _].
  pose proof (backers_bound _ _ _ _ _ Hc HV).
  pose proof (elected_votes_pos N c (rv_term (rd_args rd)) i).
  apply (election_peer_le k) in Hrun; [|done|lia|by eapply bi_nodes|].
  - pose proof (bi_rounds _ _ B _ _ Hr) as Hargs.
    by destruct (binv_round _ i (mkRound (rd_args rd) l v') _ (binv_server _ i n' _ B Hrun) Hargs).
  - intros r. eapply (received_le (λ r, 0 ≤ rvr_term r ≤ k)); [apply (bi_vote_replies _ _ B)|done].
Qed.

(** A step of replication. *)
Lemma binv_append k j args n now n' r c :
  binv k c → (j, args) ∈ c_appends c → c_servers c !! j = Some n →
  AppendEntries1 now args n = Ok (n', r) →
  binv k ((set_server j n' c) <| c_append_replies := (j, args, r) :: c_append_replies c |>).
Proof.
  intros B Hreq Hj Hrun. pose proof (bi_appends _ _ B) as Hall.
  rewrite Forall_forall in Hall. apply Hall in Hreq.
  destruct (AppendEntries1_le k _ _ _ _ _ (bi_nodes _ _ B _ _ Hj) Hreq Hrun) as [Hn Hr].
  destruct (binv_server _ j n' _ B Hn). constructor; try done. upd_simpl. by constructor.
Qed.

Lemma binv_append_reply k n l1 t l2 o a n' a' b c :
  0 ≤ k → binv k c → c_threads c = l1 ++ t :: l2 → c_servers c !! th_from t = Some n →
  received (c_append_replies c) (th_to t) (th_args t) o →
  c_counters c !! th_counter t = Some a →
  sendAppendEntries (th_to t) (th_args t) o a n = Ok (n', a', b) →
  binv (k + 1) ((set_server (th_from t) n' c) <| c_threads := l1 ++ l2 |>
                  <| c_counters := <[th_counter t := a']> (c_counters c) |>).
Proof.
  intros Hk B Ht Hn Hrec Ha Hrun. pose proof (bi_counters _ _ B) as Hall.
  rewrite Forall_lookup in Hall. apply Hall in Ha. clear Hall.
  apply (sendAppendEntries_le k) in Hrun as [Hn' Ha']; [|by eapply bi_nodes|lia|].
  2:{ intros r. eapply (received_le (append_reply_le k)); [apply (bi_append_replies _ _ B)|done]. }
  apply (binv_mono k (k + 1)) in B; [|lia]. apply (node_le_mono k (k + 1)) in Hn'; [|lia].
  destruct (binv_server _ (th_from t) n' _ B Hn').
  change (c_threads (set_server _ _ c)) with (c_threads c) in bi_threads0.
  rewrite Ht in bi_threads0.
  constructor; try done; upd_simpl.
  - apply Forall_app in bi_threads0 as [? ?%Forall_cons_1]. apply Forall_app. naive_solver.
  - apply Forall_insert; [done|lia].
Qed.

Lemma binv_restart k i n n' c :
  binv k c → c_servers c !! i = Some n → restarted n n' →
  binv k ((set_server i n' c)
        <| c_rounds := delete i (c_rounds c) |>
        <| c_batch := delete i (c_batch c) |>
        <| c_threads := filter (λ t, th_from t ≠ i) (c_threads c) |>
        <| c_snap_threads := filter (λ t, st_from t ≠ i) (c_snap_threads c) |>).
Proof.
  intros B Hi Hrs. pose proof (restarted_le _ _ _ (bi_nodes _ _ B _ _ Hi) Hrs) as Hn.
  destruct (binv_server _ i n' _ B Hn). constructor; try done; upd_simpl.
  - intros j rd [_ ?]%lookup_delete_Some. by eapply bi_rounds0.
  - intros j pc [_ ?]%lookup_delete_Some. by eapply bi_batch0.
  - rewrite Forall_forall in *. intros t [_ Ht]%list_elem_of_filter. by apply bi_threads0.
Qed.

(** A step that moves one server and keeps its numbers. *)
Lemma binv_calm k i n' c : 0 ≤ k → binv k c → node_le k n' → binv (k + 1) (set_server i n' c).
Proof. intros Hk B Hn. apply (binv_mono k); [lia|]. by apply binv_server. Qed.

Lemma binv_heartbeat k i now n n' out sn c :
  0 ≤ k → cinv N c → binv k c → c_servers c !! i = Some n → doHeartBeat now n = Ok (n', out) →
  let ts := spawn i (length (c_counters c)) out in
  binv k ((set_server i n' c) <| c_counters := c_counters c ++ [1] |>
            <| c_threads := c_threads c ++ ts |> <| c_appends := c_appends c ++ sent ts |>
            <| c_snap_threads := sn |>).
Proof.
  intros Hk Hc B Hi Hrun. destruct (ci_nodes _ _ Hc _ _ Hi) as [_ _ Hsize Hv _ _].
  destruct (doHeartBeat_le k _ _ _ _ Hv (bi_nodes _ _ B _ _ Hi) Hrun) as [Hn Hout].
  rewrite Hsize in Hout.
  by destruct (binv_threads _ _ _ Hk (binv_server _ i n' _ B Hn)
    (spawn_le _ i (length (c_counters c)) _ Hout)).
Qed.

Lemma binv_build k i n p es l args c :
  0 ≤ k → binv k c → c_servers c !! i = Some n → c_batch c !! i = Some (Building p es l) →
  batch_request es n = Ok (Some args) →
  let t := mkThread i p args (length (c_counters c)) in
  binv k (c <| c_batch := <[i := Sending l]> (c_batch c) |>
            <| c_counters := c_counters c ++ [1] |> <| c_threads := c_threads c ++ [t] |>
            <| c_appends := c_appends c ++ sent [t] |>).
Proof.
  intros Hk B Hi Hb Hrun.
  pose proof (bi_batch _ _ B _ _ Hb) as [[Hp Hes] Hl]%Forall_cons_1. cbn [fst snd] in Hp, Hes.
  pose proof (batch_request_le k _ _ _ (bi_nodes _ _ B _ _ Hi) Hes Hrun) as Ha.
  assert (Forall (λ t, peer (th_to t) ∧ append_le k (th_args t))
    [mkThread i p args (length (c_counters c))]) as Ht by (by constructor).
  by destruct (binv_threads _ _ _ Hk (binv_batch _ i (Sending l) _ B Hl) Ht).
Qed.

Lemma binv_step k c c' :
  Z.of_nat N < 2 ^ 62 → 0 ≤ k → cinv N c → binv k c → cstep c c' → binv (k + 1) c'.
Proof.
  intros HN Hk Hc B Hstep. destruct (ci_snaps _ _ Hc) as [Hsnap Hinst].
  assert (∀ c1, binv k c1 → binv (k + 1) c1) as Hmono by (intros; eapply binv_mono; [|done]; lia).
  pose proof (bi_nodes _ _ B) as Bn. destruct Hstep as [ev Hstep]; destruct Hstep.
  - by eapply binv_begin.
  - apply Hmono. pose proof (bi_rounds _ _ B _ _ H). destruct B. constructor; try done.
    upd_simpl. by constructor.
  - by eapply Hmono, binv_vote.
  - by eapply Hmono, binv_vote_reply.
  - apply Hmono. destruct B. constructor; try done. upd_simpl.
    intros j rd' [_ ?]%lookup_delete_Some. by eapply bi_rounds0.
  - pose proof (Start_le k _ _ _ _ _ _ (Bn _ _ H) H0) as Hn.
    by destruct (binv_server _ i n' _ (Hmono _ B) Hn).
  - by eapply Hmono, binv_heartbeat.
  - by eapply Hmono, binv_append.
  - by eapply binv_append_reply.
  - apply Hmono, binv_batch; [done|constructor].
  - apply binv_calm; [done|done|]. destruct (Bn _ _ H). by constructor.
  - destruct (batch_collect_le k now1 now2 _ (Bn _ _ H)) as [Hn Hb].
    destruct (ci_nodes _ _ Hc _ _ H) as [_ _ Hsize (_ & _ & _ & _ & _ & Hp) _ _].
    apply Hmono, (binv_batch k i _ (set_server i _ c)); [by apply binv_server|].
    unfold vsize in Hb. rewrite Hp, Hsize in Hb. exact Hb.
  - apply Hmono, binv_batch; [done|].
    pose proof (bi_batch _ _ B _ _ H0) as [? ?]%Forall_cons_1.
    destruct (_ || _); [done|by constructor].
  - by eapply Hmono, binv_build.
  - apply Hmono. destruct B. constructor; try done. upd_simpl.
    intros j pc [_ ?]%lookup_delete_Some. by eapply bi_batch0.
  - apply binv_calm; [done|done|]. by eapply applierTicker_round_le; [eapply Bn|].
  - rewrite Hsnap in H. by apply not_elem_of_nil in H.
  - rewrite Hinst in H. by apply not_elem_of_nil in H.
  - rewrite Hsnap in H. by destruct l1.
  - destruct (ci_nodes _ _ Hc _ _ H) as [_ _ _ _ Hd Hs].
    destruct (init_restarted n now Hd Hs) as (m & Hm & Hrs).
    rewrite H0 in Hm. injection Hm as <-. by eapply Hmono, binv_restart.
Qed.

Lemma initial_binv c : initial N c → binv 0 c.
Proof.
  intros (Hdom & Hinit & servers & ->). cbn in Hdom, Hinit. constructor; cbn; try done.
  intros i n Hi. destruct (Hinit i n Hi) as [now Hn]. pose proof (proj1 (Hdom i) (ex_intro _ n Hi)).
  unfold init in Hn. cbn in Hn. injection Hn as <-.
  constructor; cbn; try apply Forall_replicate; try done; try lia.
Qed.

(** Reachable in at most [k] steps. *)
Inductive reachable_in : nat → cluster → Prop :=
  | ri_start c : initial N c → reachable_in 0 c
  | ri_next k c c' : reachable_in k c → cstep c c' → reachable_in (S k) c'.

Lemma reachable_in_binv k c :
  Z.of_nat N < 2 ^ 62 → reachable_in k c → reachable N c ∧ binv (Z.of_nat k) c.
Proof.
  intros HN. induction 1 as [c H|k c c' _ [(c0 & H0 & Hs) B] Hstep].
  - split; [|by apply initial_binv]. exists c. split; [done|constructor].
  - assert (reachable N c) as Hr by (by exists c0). split.
    + exists c0. split; [done|]. by eapply steps_snoc.
    + rewrite Nat2Z.inj_succ. eapply binv_step; try done; [lia|by apply reachable_cinv].
Qed.

Lemma reachable_steps c : reachable N c → ∃ k, reachable_in k c.
Proof.
  intros (c0 & H0 & Hs). induction Hs as [|c1 c2 _ [k Hk] Hstep].
  - exists 0%nat. by constructor.
  - exists (S k). by econstructor.
Qed.
End bounds.

(** ** The C++ integers of a cluster *)

Definition entry_ints (e : LogEntry) : list Z := [logindex e; logterm e].

(** The [int]s a node keeps and the ones its handlers compute from them. *)
Definition node_ints (n : node) : list Z :=
  [m_me n; m_currentTerm n; m_currentTerm n + 1; m_votedFor n; m_commitIndex n;
   m_lastApplied n; m_lastApplied n + 1; m_lastSnapshotIncludeIndex n;
   m_lastSnapshotIncludeTerm n; getLastLogIndex n; getLastLogIndex n + 1] ++
  (m_logs n ≫= entry_ints) ++ (m_pendingEntries n ≫= λ p, entries p ≫= entry_ints) ++
  (m_matchIndex n ≫= λ m, [m; m + 1]) ++ (m_nextIndex n ≫= λ m, [m; m - 1]) ++
  (am_index <$> applyChan n).

Definition append_ints (args : AppendEntriesArgs) : list Z :=
  [ae_term args; ae_leaderid args; ae_prevlogindex args; ae_prevlogterm args;
   ae_leadercommit args; ae_batchid args; vsize (ae_entries args);
   ae_prevlogindex args + vsize (ae_entries args)] ++ (ae_entries args ≫= entry_ints).
Definition append_reply_ints (r : AppendEntriesReply) : list Z :=
  [aer_term r; aer_updatenextindex r].
Definition vote_ints (args : RequestVoteArgs) : list Z :=
  [rv_term args; rv_candidateid args; rv_lastlogindex args; rv_lastlogterm args].

Definition cluster_ints (c : cluster) : list Z :=
  (map_to_list (c_servers c) ≫= λ s, node_ints s.2) ++ c_counters c ++
  (map_to_list (c_rounds c) ≫= λ r, rd_votes r.2 :: vote_ints (rd_args r.2)) ++
  (c_vote_requests c ≫= λ m, vote_ints m.2) ++
  (c_vote_replies c ≫= λ m, [rvr_term m.2]) ++
  (c_appends c ≫= λ m, append_ints m.2) ++
  (c_append_replies c ≫= λ m, append_reply_ints m.2).

Lemma Forall_bind_2 {A B} (P : B → Prop) (f : A → list B) (Q : A → Prop) l :
  (∀ a, Q a → Forall P (f a)) → Forall Q l → Forall P (l ≫= f).
Proof.
  intros Hf. induction 1; [constructor|]. rewrite bind_cons. apply Forall_app. auto.
Qed.

Lemma round_votes_bound `{!BoostArchiveLaws Ar} N c i rd :
  Z.of_nat N < 2 ^ 62 → reachable N c → c_rounds c !! i = Some rd →
  0 ≤ rd_votes rd ≤ Z.of_nat N.
Proof.
  intros HN Hr Hrd. pose proof (reachable_cinv _ _ HN Hr) as Hc.
  destruct (ci_rounds _ _ Hc _ _ Hrd) as [_ _ _ (V & HV & _ & Hpos & Hvotes)].
  pose proof (backers_bound _ _ _ _ _ Hc HV). split; [done|].
  pose proof (elected_votes_pos N c (rv_term (rd_args rd)) i). lia.
Qed.

Ltac each_int := repeat (apply Forall_cons; split); [..|constructor]; unfold int32, int32_min, int32_max in *; try lia.

Lemma entry_int32 k e : k < 2 ^ 30 → entry_le k e → Forall int32 (entry_ints e).
Proof. intros Hk [? ?]. each_int. Qed.

Lemma batch_int32 k es : k < 2 ^ 30 → batch_le k es → Forall int32 (es ≫= entry_ints).
Proof. intros Hk [_ He]. eapply Forall_bind_2; [|exact He]. intros e. by apply entry_int32. Qed.

Lemma vote_int32 N k args :
  Z.of_nat N < 2 ^ 30 → k < 2 ^ 30 - 1 → vote_request_le N k args →
  Forall int32 (vote_ints args).
Proof. intros HN Hk (? & ? & ? & ?). each_int. Qed.

Lemma node_int32 N k n :
  Z.of_nat N < 2 ^ 30 → k < 2 ^ 30 - 1 → node_le N k n → Forall int32 (node_ints n).
Proof.
  intros HN Hk Hn. pose proof (last_nonneg _ (nl_snap _ _ _ Hn)). destruct Hn.
  unfold node_ints. rewrite !Forall_app. repeat split.
  - each_int.
  - eapply Forall_bind_2; [|done]. intros e. apply entry_int32. lia.
  - eapply Forall_bind_2; [|done]. intros b. apply batch_int32. lia.
  - eapply Forall_bind_2; [|done]. cbn. intros m Hm. each_int.
  - eapply Forall_bind_2; [|done]. cbn. intros m Hm. each_int.
  - apply Forall_fmap. eapply Forall_impl; [done|]. cbn. intros m Hm.
    unfold int32, int32_min, int32_max. lia.
Qed.

Lemma append_int32 N k args :
  Z.of_nat N < 2 ^ 30 → k < 2 ^ 30 - 1 → append_le N k args → Forall int32 (append_ints args).
Proof.
  intros HN Hk []. apply Forall_app. split; [|apply (batch_int32 k); [lia|done]].
  destruct al_entries0 as [Hs _]. pose proof (vsize_nonneg (ae_entries args)). each_int.
Qed.

(** C26: no 32-bit overflow.  In a cluster of fewer than [2 ^ 30] servers that has made
    fewer than [2 ^ 30 - 1] steps, every [int] of the servers (terms, votes, indices, log
    entries, [nextIndex] and [matchIndex]), of the requests and replies on the network
    and of the counters shared by the sending threads, and every sum the handlers build
    from them, is a 32-bit number: the mathematical integers of this development are the
    ones the program computes. *)
Theorem ints_do_not_overflow `{!BoostArchiveLaws Ar} (N k : nat) (c : cluster) :
  Z.of_nat N < 2 ^ 30 → Z.of_nat k < 2 ^ 30 - 1 → reachable_in N k c →
  Forall int32 (cluster_ints c).
Proof.
  intros HN Hk Hr. apply (reachable_in_binv N) in Hr as [Hr []]; [|lia].
  unfold cluster_ints. rewrite !Forall_app. repeat split.
  - eapply (Forall_bind_2 _ _ (λ s, node_le N (Z.of_nat k) s.2)).
    + intros s. by apply node_int32.
    + apply Forall_forall. intros [i n] Hin%elem_of_map_to_list. by eapply bi_nodes0.
  - eapply Forall_impl; [done|]. cbn. unfold int32, int32_min, int32_max. lia.
  - apply Forall_forall. intros z ([i rd] & Hz & Hin)%list_elem_of_bind.
    apply elem_of_map_to_list in Hin. cbn [snd] in Hz. apply elem_of_cons in Hz as [->|Hz].
    + destruct (round_votes_bound N c i rd) as [? ?]; [lia|done|done|].
      unfold int32, int32_min, int32_max. lia.
    + eapply Forall_forall; [|exact Hz]. by eapply (vote_int32 N), bi_rounds0.
  - eapply Forall_bind_2; [|done]. intros [j args]. by apply vote_int32.
  - eapply Forall_bind_2; [|done]. cbn. intros m Hm. each_int.
  - eapply Forall_bind_2; [|done]. intros m. by apply append_int32.
  - eapply Forall_bind_2; [|done]. intros m [? ?]. unfold append_reply_ints. each_int.
Qed.

Lemma run_reachable_in `{Ar : BoostArchive} N l c :
  run_from_boot N l = Some c → reachable_in N (length l) c.
Proof.
  intros (c0 & H0%boot_initial & Hr)%bind_Some.
  assert (∀ k c1, reachable_in N k c1 → run l c1 = Some c → reachable_in N (k + length l) c)
    as Hgen; [|by apply (Hgen 0%nat c0); [constructor|]].
  clear. induction l as [|a l IH]; intros k c1 H1 Hr; cbn [run length] in *.
  - injection Hr as ->. by rewrite Nat.add_0_r.
  - apply bind_Some in Hr as (c2 & H2%exec_step & Hr). replace (k + S (length l))%nat
      with (S k + length l)%nat by lia. apply (IH _ c2); [|done]. by econstructor.
Qed.

Lemma ints_do_not_overflow_witness :
  match elected_cluster with
  | Some c => Forall int32 (cluster_ints c) ∧ c_counters c = []
  | None => False
  end.
Proof.
  destruct elected_cluster as [c|] eqn:Hc; [|vm_compute in Hc; discriminate Hc].
  split; [|vm_compute in Hc; injection Hc as <-; reflexivity].
  apply (ints_do_not_overflow (Ar := bit_archive) 3 5); [reflexivity|reflexivity|].
  by apply (run_reachable_in 3 elect_first).
Defined.
