(* ===== verification/ClusterSafe.v ===== *)
(** What holds of every reachable cluster: its servers are well formed, and no handler that
    can run has undefined behaviour; only the assertions of [AppendEntries1] and of
    [sendAppendEntries] can stop a server. *)
From S2P Require Import Prelude OpCoder Persister RaftTypes RaftLog RaftElection.
From S2P Require Import RaftReplication RaftPipeline RaftSteps Cluster ClusterLog ClusterRun RaftBounds.
Open Scope Z_scope.

#[local] Arguments upd : simpl never.

(** ** The handlers are defined on bounded states *)

Section handlers.
Context `{Ar : BoostArchive}.
Variable N : nat.

Lemma append_entry_defined k e n :
  node_le N k n → entry_le k e → defined (append_entry e n).
Proof.
  intros Hn [He _]. unfold append_entry. destruct (Z.ltb_spec (getLastLogIndex n) (logindex e));
    [done|]. cbn zeta.
  assert (0 ≤ getSlicesIndexFromLogIndex (logindex e) n < vsize (m_logs n)) as Hi.
  { unfold getSlicesIndexFromLogIndex, getLastLogIndex in *. rewrite (nl_snap _ _ _ Hn) in *.
    zbool. lia. }
  apply defined_bind; [by apply defined_at|]. intros local _.
  apply defined_bind; [apply defined_assert|]. intros _ _.
  destruct (negb (_ =? _)); [|done]. apply defined_bind; [by apply defined_set|done].
Qed.

Lemma append_checked_defined k args reply n :
  node_le N k n → append_le N k args → defined (append_checked args reply n).
Proof.
  intros Hn Ha. unfold append_checked. destruct (_ <? _); [done|]. destruct (_ <? _) eqn:E; [done|].
  destruct (matchLog_total n (ae_prevlogindex args) (ae_prevlogterm args)) as [b ->].
  cbn [mbind outcome_bind]. destruct b.
  - apply defined_bind.
    + apply (for_each_defined append_entry (node_le N k)); [|done]. intros e s Hin Hs.
      destruct (al_entries _ _ _ Ha) as [_ Hes]. rewrite Forall_forall in Hes.
      pose proof (Hes e Hin) as He. split; [by eapply append_entry_defined|].
      intros s'. by apply append_entry_le.
    + intros m _. apply defined_bind; [apply defined_assert|]. intros _ _.
      apply defined_bind; [apply defined_assert|]. done.
  - b2p. destruct (conflict_index_spec (Z.to_nat (ae_prevlogindex args -
      m_lastSnapshotIncludeIndex n + 1)) (ae_prevlogindex args) (ae_prevlogindex args) n)
      as (o & -> & _); [done|done|lia|]. done.
Qed.

Lemma AppendEntries1_defined k now args n :
  node_le N k n → append_le N k args → defined (AppendEntries1 now args n).
Proof.
  intros Hn Ha. destruct (decide (ae_term args < m_currentTerm n)).
  - by rewrite AppendEntries1_stale.
  - rewrite AppendEntries1_checked by lia. eapply append_checked_defined; [|done].
    apply le_ae_state; [|done]. by apply (al_term _ _ _ Ha).
Qed.

Lemma handlePipelineResponse_defined p m n :
  vectors_ok n → 0 ≤ p < Z.of_nat (m_peers_size n) → defined (handlePipelineResponse p m n).
Proof. intros Hv Hp. by destruct (handlePipelineResponse_frame p m n Hv Hp) as (? & ? & _ & ->). Qed.

Lemma updatePeerSyncState_defined p args a n :
  vectors_ok n → 0 ≤ p < Z.of_nat (m_peers_size n) → defined (updatePeerSyncState p args a n).
Proof.
  intros Hv Hp. pose proof Hv as (Hni & Hmi & _). unfold updatePeerSyncState. cbn zeta.
  apply defined_bind; [apply defined_at; unfold vsize; lia|]. intros old _.
  apply defined_bind; [apply defined_set; unfold vsize; lia|]. intros mi Hmi'.
  apply defined_bind; [apply defined_set; unfold vsize; upd_simpl; lia|]. intros ni Hni'.
  apply vec_set_Ok in Hmi' as [_ ->]. apply vec_set_Ok in Hni' as [_ ->]. apply defined_bind.
  - destruct (0 <? _); [|done]. apply handlePipelineResponse_defined; [|done].
    unfold vectors_ok. upd_simpl. rewrite !length_insert. exact Hv.
  - intros m _. apply defined_bind; [apply defined_assert|]. done.
Qed.

Lemma sendAppendEntries_defined p args rpc a n :
  vectors_ok n → 0 ≤ p < Z.of_nat (m_peers_size n) → defined (sendAppendEntries p args rpc a n).
Proof.
  intros Hv Hp. unfold sendAppendEntries. destruct (callAppendEntriesRpc rpc) as [r|]; [|done].
  pose proof (handleTermMismatch_quiet (aer_term r) n) as Hq.
  destruct (handleTermMismatch _ n) as [m stop]. cbn [fst] in Hq.
  pose proof (q_vectors _ _ _ Hq Hv) as Hvm. rewrite <- (q_size _ _ _ Hq) in Hp.
  destruct stop; [done|]. destruct (negb _); [done|].
  apply defined_bind; [apply defined_assert|]. intros _ _. destruct (negb _).
  - apply defined_bind; [|done]. unfold handleLogMismatch. destruct (negb _); [|done]. cbn zeta.
    apply defined_bind; [|done]. apply defined_set. destruct Hvm as [Hl _]. unfold vsize. lia.
  - apply defined_bind; [by apply updatePeerSyncState_defined|]. intros [n1 a1] _.
    apply defined_bind; [|by intros []]. unfold tryUpdateCommitIndex.
    destruct (_ <? _); [done|]. cbn zeta. apply defined_bind; [apply defined_assert|done].
Qed.

Lemma doHeartBeat_total now n : vectors_ok n → is_ok (doHeartBeat now n) = true.
Proof.
  intros Hv. destruct (decide (m_status n = Leader)) as [Hst|Hst].
  - by destruct (doHeartBeat_eq now n Hv Hst) as (v & -> & _).
  - unfold doHeartBeat. by rewrite bool_decide_eq_false_2.
Qed.

Lemma batch_request_total es n : is_ok (batch_request es n) = true.
Proof. destruct es as [|e es]; [done|]. cbn. by rewrite getLogTerm_term_at. Qed.
End handlers.

(** ** Every handler of a reachable cluster *)

Section safe.
Context `{Ar : BoostArchive}.
Variable N : nat.

(** The assertion that a node is not elected twice in a term cannot fail: the votes still
    counted after a victory are too few for another majority. *)
Lemma vote_reply_total c i n rd j l o :
  Z.of_nat N < 2 ^ 62 → cinv N c → c_servers c !! i = Some n → c_rounds c !! i = Some rd →
  rd_left rd = j :: l → received (c_vote_replies c) j (rd_args rd) o →
  is_ok (election_peer (λ _, o) j (n, rd_votes rd)) = true.
Proof.
  intros HN Hc Hi Hr Hleft Hrec.
  destruct (ci_rounds _ _ Hc _ _ Hr) as [Hcand _ _ (V & [HndV HbV] & Hlv & Hpos & Hvotes)].
  destruct (ci_nodes _ _ Hc _ _ Hi) as [_ Hme Hsize Hvec _ _]. rewrite Hleft in Hlv.
  pose proof (backers_bound _ _ _ _ _ Hc (conj HndV HbV)) as Hbound.
  assert (majority n = quorum N) as Hmq by (unfold majority, quorum; by rewrite Hsize).
  pose proof (majority_gt n) as Hgt. rewrite Hsize in Hgt.
  pose proof (elected_votes_pos N c (rv_term (rd_args rd)) i).
  unfold election_peer. destruct (Z.eqb_spec j (m_me n)) as [|Hne]; [done|].
  rewrite sendRequestVote_eq by (done || lia). destruct o as [r|]; [|done].
  destruct (_ <? _); [done|]. destruct (Z.eqb_spec (rvr_term r) (m_currentTerm n)) as [Ht|];
    [|done]. destruct (rvr_votegranted r) eqn:Hg; [|done]. cbn [andb].
  destruct (Z.leb_spec (majority n) (rd_votes rd + 1)) as [Hmaj|]; [|done].
  destruct (bool_decide (m_status n = Leader)) eqn:Hst; [|done]. b2p. exfalso.
  destruct (ci_replies _ _ Hc _ _ _ Hrec Hg) as [Hrt Hb]. rewrite Hcand in Hb.
  assert (backers c (rv_term (rd_args rd)) i (j :: V)) as HV'.
  { split; [constructor; [|done]|].
    - intros Hin. apply Hne. rewrite Hme. by apply Hlv; [|left].
    - by intros v [->|Hv]%elem_of_cons; [|apply HbV]. }
  pose proof (backers_bound _ _ _ _ _ Hc HV') as Hbound'. unfold vsize in *.
  cbn [length] in Hbound'. pose proof (ci_leader _ _ Hc _ _ Hi Hst) as Hel.
  unfold elected_votes in Hvotes. rewrite bool_decide_eq_true_2 in Hvotes by congruence. lia.
Qed.

Lemma applier_total k n : node_le N k n → is_ok (applierTicker_round n) = true.
Proof.
  intros Hn. destruct (applier_round_spec n) as (ms & -> & _); [|apply Hn|done].
  rewrite (nl_snap _ _ _ Hn). apply Hn.
Qed.

(** The calls of handlers that the threads of cluster [c] can make next; [asserts] marks
    the two handlers that contain assertions about the log. *)
Inductive handler_run (c : cluster) : ∀ {A : Type}, bool → outcome A → Prop :=
  | hr_vote j n args now :
      (j, args) ∈ c_vote_requests c → c_servers c !! j = Some n →
      handler_run c false (RequestVote1 now args n)
  | hr_vote_reply i n rd j l o :
      c_servers c !! i = Some n → c_rounds c !! i = Some rd → rd_left rd = j :: l →
      received (c_vote_replies c) j (rd_args rd) o →
      handler_run c false (election_peer (λ _, o) j (n, rd_votes rd))
  | hr_heartbeat i n now :
      c_servers c !! i = Some n → handler_run c false (doHeartBeat now n)
  | hr_append j n args now :
      (j, args) ∈ c_appends c → c_servers c !! j = Some n →
      handler_run c true (AppendEntries1 now args n)
  | hr_append_reply t n o a :
      t ∈ c_threads c → c_servers c !! th_from t = Some n →
      received (c_append_replies c) (th_to t) (th_args t) o →
      handler_run c true (sendAppendEntries (th_to t) (th_args t) o a n)
  | hr_batch i n p es l :
      c_servers c !! i = Some n → c_batch c !! i = Some (Building p es l) →
      handler_run c false (batch_request es n)
  | hr_apply i n :
      c_servers c !! i = Some n → handler_run c false (applierTicker_round n)
  | hr_install_reply t n o a :
      t ∈ c_snap_threads c → c_servers c !! st_from t = Some n →
      handler_run c false (leaderSendSnapShot (st_to t) (st_index t) o a n)
  | hr_restart i n now :
      c_servers c !! i = Some n →
      handler_run c false (init (m_peers_size n) (m_me n) (m_persister n) now).

Context `{!BoostArchiveLaws Ar}.

Lemma total_defined {A} (b : bool) (o : outcome A) :
  is_ok o = true → defined o ∧ (b = false → is_ok o = true).
Proof. by destruct o. Qed.

Lemma reachable_binv c : Z.of_nat N < 2 ^ 62 → reachable N c → cinv N c ∧ ∃ k, binv N k c.
Proof.
  intros HN Hr. split; [by apply reachable_cinv|]. destruct (reachable_steps N c Hr) as [k Hk].
  exists (Z.of_nat k). by apply reachable_in_binv.
Qed.

(** C18: no undefined behaviour.  In every reachable cluster, no handler that one of the
    threads can call next reads or writes a vector outside its bounds (the log, the slots
    of the peers, the batches) or meets an unreadable disk: every one of them returns,
    except that [AppendEntries1] and [sendAppendEntries] may instead stop the process
    through an assertion.  The assertion that a node is elected once per term never
    fails. *)
Theorem no_undefined_behaviour (c : cluster) (A : Type) (asserts : bool) (o : outcome A) :
  Z.of_nat N < 2 ^ 62 → reachable N c → handler_run c asserts o →
  defined o ∧ (asserts = false → is_ok o = true).
Proof.
  intros HN Hr Hrun. destruct (reachable_binv c HN Hr) as [Hc [k B]].
  pose proof (bi_nodes _ _ _ B) as Bn. pose proof (ci_nodes _ _ Hc) as Cn.
  destruct Hrun.
  - apply total_defined. by destruct (RequestVote1_eq now args n) as [vs ->].
  - apply total_defined. by eapply vote_reply_total.
  - apply total_defined, doHeartBeat_total. by apply (ni_vectors _ _ _ (Cn _ _ H)).
  - split; [|done]. eapply AppendEntries1_defined; [by eapply Bn|].
    pose proof (bi_appends _ _ _ B) as Ha. rewrite Forall_forall in Ha. by apply Ha in H.
  - split; [|done]. destruct (Cn _ _ H0) as [_ _ Hsize Hv _ _].
    apply sendAppendEntries_defined; [done|]. rewrite Hsize.
    pose proof (bi_threads _ _ _ B) as Ht. rewrite Forall_forall in Ht. by apply Ht in H as [? _].
  - apply total_defined, batch_request_total.
  - apply total_defined. by eapply applier_total, Bn.
  - destruct (ci_snaps _ _ Hc) as [Hs _]. rewrite Hs in H. by apply not_elem_of_nil in H.
  - apply total_defined. destruct (Cn _ _ H) as [_ _ _ _ Hd Hs].
    by destruct (init_restarted n now Hd Hs) as (m & -> & _).
Qed.

(** A well-formed server [i]: its identity, the sizes of its vectors, its vote and the
    order of its indices. *)
Record server_wf (i : Z) (n : node) : Prop := {
  wf_me : m_me n = i;
  wf_size : m_peers_size n = N;
  wf_vectors : vectors_ok n;
  wf_disk : disk_ok n;
  wf_term : 0 ≤ m_currentTerm n;
  wf_vote : m_votedFor n = -1 ∨ 0 ≤ m_votedFor n < Z.of_nat N;
  wf_entries : Forall (λ e, 0 < logindex e ∧ 0 ≤ logterm e) (m_logs n);
  wf_indices : 0 ≤ m_lastApplied n ≤ m_commitIndex n ∧ m_commitIndex n ≤ getLastLogIndex n;
  wf_slots : Forall (λ m, 0 ≤ m) (m_matchIndex n) ∧ Forall (λ m, 0 ≤ m) (m_nextIndex n)
}.

Record cluster_wf (c : cluster) : Prop := {
  cw_servers : ∀ i, is_Some (c_servers c !! i) ↔ 0 ≤ i < Z.of_nat N;
  cw_wf : ∀ i n, c_servers c !! i = Some n → server_wf i n;
  cw_threads : ∀ t, t ∈ c_threads c → 0 ≤ th_to t < Z.of_nat N ∧
    0 ≤ ae_prevlogindex (th_args t) ∧ 0 ≤ ae_leaderid (th_args t) < Z.of_nat N;
  cw_batches : ∀ i pc p es, c_batch c !! i = Some pc → (p, es) ∈ pc_batches pc →
    0 ≤ p < Z.of_nat N;
  cw_snapshots : c_snap_threads c = [] ∧ c_installs c = []
}.

Lemma set_server_dom i n n' c j :
  c_servers c !! i = Some n →
  is_Some (c_servers (set_server i n' c) !! j) ↔ is_Some (c_servers c !! j).
Proof.
  intros Hi. rewrite lookup_set_server. case_decide as E; [|done]. subst. rewrite Hi.
  split; eauto.
Qed.

Lemma cstep_dom c c' j :
  cstep c c' → is_Some (c_servers c' !! j) ↔ is_Some (c_servers c !! j).
Proof. intros [e Hstep]. by destruct Hstep; first [eapply set_server_dom|done]. Qed.

Lemma reachable_dom c i : reachable N c → is_Some (c_servers c !! i) ↔ 0 ≤ i < Z.of_nat N.
Proof.
  intros (c0 & (Hdom & _) & Hs). induction Hs as [|c1 c2 _ IH Hstep]; [done|].
  by rewrite (cstep_dom _ _ _ Hstep).
Qed.

(** C25: well-formedness.  Every reachable cluster consists of its [N] servers, each under
    its own number, with one slot per peer in every vector, a vote that is absent or for
    an existing server, positive log indices, no negative [matchIndex] or [nextIndex],
    [lastApplied <= commitIndex <= last log index], and a disk that a restart can read;
    every request being sent and every batch is addressed to an existing server; there is
    no snapshot. *)
Theorem cluster_well_formed (c : cluster) :
  Z.of_nat N < 2 ^ 62 → reachable N c → cluster_wf c.
Proof.
  intros HN Hr. destruct (reachable_binv c HN Hr) as [Hc [k B]]. constructor.
  - intros i. by apply reachable_dom.
  - intros i n Hi. destruct (ci_nodes _ _ Hc _ _ Hi). destruct (bi_nodes _ _ _ B _ _ Hi).
    constructor; try done; [lia|lia| |].
    + eapply Forall_impl; [done|]. intros e [? ?]. lia.
    + split; (eapply Forall_impl; [done|]); cbn; lia.
  - intros t Ht. pose proof (bi_threads _ _ _ B) as Hall. rewrite Forall_forall in Hall.
    destruct (Hall t Ht) as [? []]. unfold peer in *. lia.
  - intros i pc p es Hb Hin. pose proof (bi_batch _ _ _ B _ _ Hb) as Hall.
    rewrite Forall_forall in Hall. by destruct (Hall _ Hin).
  - apply (ci_snaps _ _ Hc).
Qed.
End safe.

Lemma cluster_well_formed_witness :
  match elected_cluster with
  | Some c => cluster_wf (Ar := bit_archive) 3 c ∧ is_Some (c_servers c !! 2)
  | None => False
  end.
Proof.
  destruct elected_cluster as [c|] eqn:Hc; [|vm_compute in Hc; discriminate Hc].
  assert (cluster_wf (Ar := bit_archive) 3 c) as Hw.
  { apply (cluster_well_formed (Ar := bit_archive) 3 c); [reflexivity|].
    by apply (run_reachable 3 elect_first). }
  split; [exact Hw|]. apply (cw_servers _ _ Hw). lia.
Defined.

Lemma no_undefined_behaviour_witness :
  match elected_cluster with
  | Some c => ∃ n, c_servers c !! 0 = Some n ∧ m_status n = Leader ∧
      is_ok (doHeartBeat 5 n) = true
  | None => False
  end.
Proof.
  destruct elected_cluster as [c|] eqn:Hc; [|vm_compute in Hc; discriminate Hc].
  destruct (c_servers c !! 0) as [n|] eqn:Hn;
    [|vm_compute in Hc; injection Hc as <-; vm_compute in Hn; discriminate Hn].
  exists n. split; [reflexivity|]. split.
  - vm_compute in Hc. injection Hc as <-. vm_compute in Hn. injection Hn as <-. reflexivity.
  - apply (no_undefined_behaviour (Ar := bit_archive) 3 c _ false); [reflexivity| | |reflexivity].
    + by apply (run_reachable 3 elect_first).
    + by apply (hr_heartbeat (Ar := bit_archive) c 0).
Defined.
