(* ===== verification/ClusterLive.v ===== *)
(** Progress of a cluster: a leader whose batch sender runs and a follower that has the
    leader's log can always bring a new command to the leader's state machine. *)
From S2P Require Import Prelude OpCoder Persister RaftTypes RaftLog RaftElection.
From S2P Require Import RaftReplication RaftPipeline RaftSteps Cluster ClusterLog ClusterRun.
From S2P Require Import RaftBounds ClusterSafe.
Open Scope Z_scope.

#[local] Arguments upd : simpl never.

Section live.
Context `{Ar : BoostArchive}.
Variable N : nat.

(** ** The batch sender empties what it collected *)

(** Threads and messages are only added, counters keep their value. *)
Record extends (c c' : cluster) : Prop := {
  ex_servers : c_servers c' = c_servers c;
  ex_threads : ∀ t, t ∈ c_threads c → t ∈ c_threads c';
  ex_appends : ∀ m, m ∈ c_appends c → m ∈ c_appends c';
  ex_counters : c_counters c `prefix_of` c_counters c'
}.
#[local] Instance extends_preorder : PreOrder extends.
Proof.
  split; [by constructor|]. intros a b c [S1 T1 A1 C1] [S2 T2 A2 C2].
  constructor; [congruence|auto|auto|by transitivity (c_counters b)].
Qed.

(** A batch for [j] is on its way, with a counter of its own. *)
Definition on_its_way (i j : Z) (es : list LogEntry) (n : node) (c : cluster) : Prop :=
  ∃ args k, batch_request es n = Ok (Some args) ∧ mkThread i j args k ∈ c_threads c ∧
    (j, args) ∈ c_appends c ∧ c_counters c !! k = Some 1.

Lemma on_its_way_mono i j es n c c' :
  extends c c' → on_its_way i j es n c → on_its_way i j es n c'.
Proof.
  intros [_ Ht Ha Hc] (args & k & ? & ? & ? & ?). exists args, k. split; [done|].
  split; [by apply Ht|]. split; [by apply Ha|]. by eapply prefix_lookup_Some.
Qed.

Lemma batch_request_some e es n : ∃ args, batch_request (e :: es) n = Ok (Some args).
Proof. cbn. rewrite getLogTerm_term_at. cbn. eauto. Qed.

(** One batch is turned into a thread and a request. *)
Lemma send_one i n p e es l c :
  c_servers c !! i = Some n → c_batch c !! i = Some (Building p (e :: es) l) →
  ∃ c', steps cstep c c' ∧ extends c c' ∧ c_batch c' !! i = Some (Sending l) ∧
    on_its_way i p (e :: es) n c'.
Proof.
  intros Hi Hb. destruct (batch_request_some e es n) as [args Ha].
  eexists. split; [by eapply steps_one, lstep_cstep, cs_batch_build|].
  split; [|split; [upd_simpl; apply lookup_insert_eq|]].
  - constructor; upd_simpl; [done| | |by eexists]; intros ? ?; apply elem_of_app; by left.
  - exists args, (length (c_counters c)). split; [done|]. upd_simpl.
    split; [apply elem_of_app; right; by left|]. split; [apply elem_of_app; right; by left|].
    by rewrite lookup_app_r, Nat.sub_diag by lia.
Qed.

Lemma send_batches i n l c :
  c_servers c !! i = Some n → m_status n = Leader → c_batch c !! i = Some (Sending l) →
  ∃ c', steps cstep c c' ∧ extends c c' ∧
    ∀ j e es, (j, e :: es) ∈ l → on_its_way i j (e :: es) n c'.
Proof.
  intros Hi Hst. revert c Hi. induction l as [|[p es] l IH]; intros c Hi Hb.
  { exists c. split; [constructor|]. split; [reflexivity|]. by intros ? ? ? ?%not_elem_of_nil. }
  pose proof (lstep_cstep _ _ _ (cs_batch_check c i n p es l Hi Hb)) as Hcheck.
  rewrite (bool_decide_eq_true_2 (m_status n = Leader)) in Hcheck by done.
  cbn [negb] in Hcheck. rewrite orb_false_r in Hcheck. destruct es as [|e es].
  - rewrite bool_decide_eq_true_2 in Hcheck by done.
    set (c1 := c <| c_batch := _ |>) in Hcheck.
    destruct (IH c1) as (c' & Hs & Hex & Hway); [done|apply lookup_insert_eq|].
    exists c'. split; [eapply steps_trans; [by apply steps_one|exact Hs]|].
    split; [by destruct Hex|]. intros j e es [Heq|Hin]%elem_of_cons; [done|by apply Hway].
  - rewrite bool_decide_eq_false_2 in Hcheck by done. set (c1 := c <| c_batch := _ |>) in Hcheck.
    destruct (send_one i n p e es l c1) as (c2 & Hs2 & Hex2 & Hb2 & Hway2);
      [done|unfold c1; upd_simpl; apply lookup_insert_eq|].
    destruct (IH c2) as (c3 & Hs3 & Hex3 & Hway3); [by rewrite (ex_servers _ _ Hex2)|done|].
    exists c3. split; [|split].
    + eapply steps_trans; [by apply steps_one|]. by eapply steps_trans.
    + transitivity c2; [|done]. by destruct Hex2.
    + intros j e' es' [Heq|Hin]%elem_of_cons; [|by apply Hway3].
      injection Heq as -> -> ->. by eapply on_its_way_mono.
Qed.

(** ** A leader and a follower in step *)

(** Server [i] leads with its batch sender at the top of its loop; server [j] is not ahead
    of it, has its log, and nothing waits to be sent to [j]. *)
Record in_step (c : cluster) (i j : Z) (n m : node) : Prop := {
  is_leader : c_servers c !! i = Some n ∧ m_status n = Leader;
  is_follower : c_servers c !! j = Some m ∧ j ≠ i;
  is_thread : m_batchSenderThread n = true ∧ m_batchRunning n = true ∧ c_batch c !! i = None;
  is_terms : m_currentTerm m ≤ m_currentTerm n;
  is_log : same_log n m ∧ log_ok n;
  is_buffer : ∃ p, m_pendingEntries n !! Z.to_nat j = Some p ∧ entries p = [];
  is_slots : Forall (λ x, x ≤ getLastLogIndex n) (m_matchIndex n)
}.

(** A leader after [Start] of the entry [e]: what the rest of the round needs. *)
Record started (e : LogEntry) (n n' : node) : Prop := {
  sd_logs : m_logs n' = m_logs n ++ [e];
  sd_snap : m_lastSnapshotIncludeIndex n' = m_lastSnapshotIncludeIndex n ∧
            m_lastSnapshotIncludeTerm n' = m_lastSnapshotIncludeTerm n;
  sd_status : m_status n' = m_status n;
  sd_term : m_currentTerm n' = m_currentTerm n;
  sd_commit : m_commitIndex n' = m_commitIndex n;
  sd_applied : m_lastApplied n' = m_lastApplied n;
  sd_match : m_matchIndex n' = m_matchIndex n;
  sd_me : m_me n' = m_me n;
  sd_size : m_peers_size n' = m_peers_size n;
  sd_vectors : vectors_ok n → vectors_ok n'
}.

Lemma started_last e n n' : started e n n' → getLastLogIndex n' = getLastLogIndex n + 1.
Proof.
  intros S. unfold getLastLogIndex. rewrite (sd_logs _ _ _ S), vsize_app.
  destruct (sd_snap _ _ _ S) as [-> _]. change (vsize [e]) with 1. lia.
Qed.

Lemma started_entry e n n' i :
  started e n n' →
  log_entry n' i = if decide (i = getLastLogIndex n + 1) then Some e else log_entry n i.
Proof.
  intros S. unfold log_entry, getLastLogIndex, vsize. rewrite (sd_logs _ _ _ S).
  destruct (sd_snap _ _ _ S) as [-> _].
  destruct (decide (m_lastSnapshotIncludeIndex n < i)) as [Hi|Hi];
    [|by rewrite decide_False by lia].
  case_decide as He.
  - rewrite lookup_app_r by lia. by replace (_ - _)%nat with 0%nat by lia.
  - destruct (decide (Z.to_nat (i - m_lastSnapshotIncludeIndex n - 1) < length (m_logs n))%nat).
    + by rewrite lookup_app_l.
    + rewrite (lookup_ge_None_2 (m_logs n)) by lia. apply lookup_ge_None_2.
      rewrite length_app. cbn. lia.
Qed.

(** The entry [Start] makes of a command at a leader. *)
Definition new_entry (op : Op) (n : node) : LogEntry :=
  mkLogEntry (encodeOp op) (m_currentTerm n) (getLastLogIndex n + 1).

Lemma Start_started now op n :
  m_status n = Leader →
  ∃ n', Start now op n = (n', getLastLogIndex n + 1, true) ∧ started (new_entry op n) n n' ∧
    m_batchSenderThread n' = m_batchSenderThread n ∧ m_batchRunning n' = m_batchRunning n ∧
    ∀ j p, j ≠ m_me n → 0 ≤ j → m_pendingEntries n !! Z.to_nat j = Some p → entries p = [] →
      ∃ p', m_pendingEntries n' !! Z.to_nat j = Some p' ∧ entries p' = [new_entry op n] ∧
        first_entry_time_ms p' = now.
Proof.
  intros Hst. unfold Start. rewrite bool_decide_eq_true_2 by done. cbn [negb]. cbn zeta.
  eexists. split; [reflexivity|]. split; [|split; [done|split; [done|]]].
  - constructor; try done. intros (? & ? & ? & ? & ? & ?). unfold vectors_ok, addToPendingBatch.
    upd_simpl. rewrite length_imap. by repeat split.
  - intros j p Hj Hj0 Hp He. unfold addToPendingBatch. upd_simpl. rewrite list_lookup_imap.
    change (m_pendingEntries (persist _)) with (m_pendingEntries n). rewrite Hp. cbn [fmap option_fmap option_map].
    change (m_me (persist _)) with (m_me n). replace (Z.of_nat (Z.to_nat j) =? m_me n) with false
      by (symmetry; apply Z.eqb_neq; lia).
    rewrite He. eexists. split; [reflexivity|]. upd_simpl. by rewrite He.
Qed.

(** The collection sends the waiting entry once it is old enough. *)
Lemma collect_started e n n' j p now :
  started e n n' → j ≠ m_me n → 0 ≤ j → m_pendingEntries n' !! Z.to_nat j = Some p →
  entries p = [e] → first_entry_time_ms p = now →
  let t := now + PIPELINE_MAX_DELAY_MS in
  started e n (batch_collect t t n').1 ∧ (j, [e]) ∈ (batch_collect t t n').2.
Proof.
  intros S Hj Hj0 Hp He Ht. cbn zeta. unfold batch_collect.
  pose proof (batch_collect_from_spec 0 (m_me n') (now + PIPELINE_MAX_DELAY_MS)
    (now + PIPELINE_MAX_DELAY_MS) (m_pendingEntries n')) as Hspec.
  destruct (batch_collect_from _ _ _ _ _) as [ps out]. destruct Hspec as (Hlen & _ & Hout).
  cbn [fst snd]. split.
  - destruct S. constructor; try done. intros Hv. destruct (sd_vectors0 Hv) as (? & ? & ? & ? & ? & ?).
    unfold vectors_ok. upd_simpl. rewrite Hlen. by repeat split.
  - apply Hout. exists (Z.to_nat j), p. split; [done|]. split; [lia|]. split; [done|].
    unfold collected. rewrite (sd_me _ _ _ S), He, bool_decide_eq_false_2 by done.
    replace (j =? m_me n) with false by (symmetry; apply Z.eqb_neq; lia). cbn [orb negb].
    unfold should_flush. rewrite He, Ht. change (PIPELINE_BATCH_SIZE <=? vsize [e]) with false.
    unfold PIPELINE_MAX_DELAY_MS. by zbool.
Qed.

(** The request of a batch of one entry. *)
Definition request_of (e : LogEntry) (n : node) : AppendEntriesArgs :=
  mkAppendEntriesArgs (m_currentTerm n) (m_me n) (logindex e - 1) (term_at n (logindex e - 1))
    [e] (m_commitIndex n) (logindex e).

Lemma batch_request_of e n : batch_request [e] n = Ok (Some (request_of e n)).
Proof. cbn. by rewrite getLogTerm_term_at. Qed.

Lemma matchLog_own n i :
  m_lastSnapshotIncludeIndex n ≤ i ≤ getLastLogIndex n → matchLog i (term_at n i) n = Ok true.
Proof.
  intros Hi. rewrite matchLog_spec. unfold term_at.
  destruct (Z.eqb_spec i (m_lastSnapshotIncludeIndex n)); [by rewrite Z.eqb_refl|].
  destruct (log_entry_in n i) as [e ->]; [lia|]. by rewrite Z.eqb_refl.
Qed.

(** The follower accepts the entry that follows its log. *)
Lemma follower_accepts op now n n' m :
  started (new_entry op n) n n' → same_log n m → log_ok n → m_currentTerm m ≤ m_currentTerm n →
  m_commitIndex m ≤ getLastLogIndex m → 
  ∃ m' r, AppendEntries1 now (request_of (new_entry op n) n') m = Ok (m', r) ∧
    aer_success r = true ∧ aer_term r = m_currentTerm n ∧ aer_appstate r = AppNormal.
Proof.
  intros S Hsame Hok Ht Hc. pose proof (same_log_last _ _ Hsame) as Hlast.
  assert (m_lastSnapshotIncludeIndex m ≤ getLastLogIndex m) as Hsnap
    by (unfold getLastLogIndex, vsize; lia).
  assert (term_at n' (getLastLogIndex n) = term_at m (getLastLogIndex n)) as Hterm.
  { unfold term_at. rewrite (started_entry _ _ _ _ S), decide_False by lia.
    destruct (sd_snap _ _ _ S) as [-> ->]. rewrite <- (same_log_entry _ _ _ Hsame).
    by destruct Hsame as (_ & -> & ->). }
  assert (acceptable (request_of (new_entry op n) n') m) as Hacc.
  { unfold request_of, new_entry. cbn [logindex].
    replace (getLastLogIndex n + 1 - 1) with (getLastLogIndex n) by lia.
    constructor; cbn [ae_term ae_prevlogindex ae_prevlogterm ae_entries].
    - by rewrite (sd_term _ _ _ S).
    - lia.
    - rewrite Hterm. apply matchLog_own. lia.
    - intros [|k] e' He'; [|done]. injection He' as <-. cbn. lia.
    - intros e' local He' Hl. apply list_elem_of_singleton in He' as ->.
      apply log_entry_Some in Hl. cbn in Hl. lia. }
  destruct (AppendEntries1_accept_eq now _ m (same_log_ok _ _ Hsame Hok) Hc Hacc) as (-> & _).
  eexists _, _. split; [reflexivity|]. split; [done|]. split; [|done].
  exact (sd_term _ _ _ S).
Qed.

(** With at most three servers, one acknowledgement commits the entry. *)
Lemma leader_commits op r j n n' :
  started (new_entry op n) n n' → vectors_ok n → 0 ≤ j < Z.of_nat (m_peers_size n) →
  (m_peers_size n ≤ 3)%nat → m_status n = Leader → m_commitIndex n ≤ getLastLogIndex n →
  Forall (λ x, x ≤ getLastLogIndex n) (m_matchIndex n) →
  aer_success r = true → aer_term r = m_currentTerm n → aer_appstate r = AppNormal →
  ∃ n2 a, sendAppendEntries j (request_of (new_entry op n) n') (Some r) 1 n' = Ok (n2, a, true) ∧
    m_commitIndex n2 = getLastLogIndex n + 1 ∧ same_log n' n2 ∧
    m_lastApplied n2 = m_lastApplied n ∧ applyChan n2 = applyChan n'.
Proof.
  intros S Hv Hj HN Hst Hc Hslots Hsucc Hterm Happ. pose proof (started_last _ _ _ S) as Hlast.
  assert (majority n' ≤ 2) as Hmaj.
  { unfold majority. rewrite (sd_size _ _ _ S).
    assert (Z.of_nat (m_peers_size n) / 2 < 2) by (apply Z.div_lt_upper_bound; lia). lia. }
  destruct (sendAppendEntries_success_eq j (request_of (new_entry op n) n') r 1 n')
    as (old & pipe & acked & a & _ & _ & Hrun).
  - by apply (sd_vectors _ _ _ S).
  - by rewrite (sd_size _ _ _ S).
  - by rewrite (sd_status _ _ _ S).
  - done.
  - by rewrite (sd_term _ _ _ S).
  - by rewrite Happ.
  - lia.
  - rewrite (sd_commit _ _ _ S). lia.
  - rewrite (sd_match _ _ _ S). eapply Forall_impl; [done|]. cbn. lia.
  - change (getLastLogIndex n + 1 - 1 + 1 ≤ getLastLogIndex n'). lia.
  - cbn zeta in Hrun. eexists _, a. split; [exact Hrun|].
    split; [|split; [by repeat split|split; [exact (sd_applied _ _ _ S)|done]]]. upd_simpl.
    unfold commit_by_count, request_of. cbn [ae_entries ae_prevlogindex last].
    change (logterm (new_entry op n)) with (m_currentTerm n).
    rewrite (sd_term _ _ _ S), (sd_commit _ _ _ S), Z.eqb_refl. zbool.
    change (vsize [_]) with 1. cbn [logindex new_entry]. lia.
Qed.

(** A round of the applier keeps log and commit index. *)
Lemma applier_loop_keeps fuel msgs n msgs' n' :
  applier_loop fuel msgs n = Ok (msgs', n') → same_log n n' ∧ m_commitIndex n' = m_commitIndex n.
Proof.
  revert msgs n. induction fuel as [|fuel IH]; intros msgs n; cbn [applier_loop];
    [by intros [= _ <-]|].
  destruct (_ <? _); [|by intros [= _ <-]]. intros H. inv_ok. by apply IH in H.
Qed.

Lemma applier_round_keeps n n' :
  applierTicker_round n = Ok n' → same_log n n' ∧ m_commitIndex n' = m_commitIndex n.
Proof.
  unfold applierTicker_round. intros H. inv_ok. destruct x as [msgs m]. inv_ok. subst.
  rewrite push_all. by apply applier_loop_keeps in Hx.
Qed.

(** The applier then hands the entry over. *)
Lemma applier_hands_over e n :
  m_lastSnapshotIncludeIndex n ≤ m_lastApplied n < m_commitIndex n →
  m_commitIndex n ≤ getLastLogIndex n → log_entry n (m_commitIndex n) = Some e →
  ∃ n', applierTicker_round n = Ok n' ∧ m_lastApplied n' = m_commitIndex n ∧
    apply_msg (m_commitIndex n) e ∈ applyChan n'.
Proof.
  intros Hs Hl He. destruct (applier_round_spec n) as (ms & -> & Hlen & Hms); [lia|done|].
  eexists. split; [reflexivity|]. upd_simpl. split; [lia|]. apply elem_of_app. right.
  destruct (lookup_lt_is_Some_2 ms (Z.to_nat (m_commitIndex n - m_lastApplied n) - 1)) as [msg Hm];
    [lia|].
  destruct (Hms _ _ Hm) as (e' & He' & ->).
  replace (m_lastApplied n + 1 + Z.of_nat _) with (m_commitIndex n) in He', Hm by lia.
  rewrite He in He'. injection He' as <-. by eapply list_elem_of_lookup_2.
Qed.

(** ** The run *)

(** From [Start] to the request on the network. *)
Lemma entry_sent c i j n m (now : Z) (op : Op) :
  in_step c i j n m → m_me n = i → 0 ≤ j →
  ∃ c' n', steps cstep c c' ∧ c_servers c' !! i = Some n' ∧ c_servers c' !! j = Some m ∧
    started (new_entry op n) n n' ∧ on_its_way i j [new_entry op n] n' c'.
Proof.
  intros [[Hi Hst] [Hj Hne] (Hth & Hrun & Hpc) _ _ (p & Hp & Hemp) _] Hme Hj0.
  destruct (Start_started now op n Hst) as (n1 & Hs & S1 & Hth1 & Hrun1 & Hbuf).
  destruct (Hbuf j p) as (p' & Hp' & He' & Ht'); [congruence|done|done|done|].
  pose proof (lstep_cstep _ _ _ (cs_start c i n now op _ _ _ Hi Hs)) as Hstep1. set (c1 := _ <| h_started := _ |>) in Hstep1.
  assert (c_servers c1 !! i = Some n1) as Hi1 by (apply lookup_insert_eq).
  assert (m_status n1 = Leader) as Hst1 by (by rewrite (sd_status _ _ _ S1)).
  pose proof (lstep_cstep _ _ _ (cs_batch_top c1 i n1 Hi1 Hpc ltac:(congruence) ltac:(congruence) Hst1)) as Hstep2.
  set (c2 := _ <| c_batch := _ |>) in Hstep2.
  destruct (collect_started _ _ _ j p' now S1 ltac:(congruence) Hj0 Hp' He' Ht') as [S2 Hin].
  set (t := now + PIPELINE_MAX_DELAY_MS) in *.
  pose proof (lstep_cstep _ _ _ (cs_batch_collect c2 i n1 t t Hi1 (lookup_insert_eq _ _ _))) as Hstep3.
  set (n2 := (batch_collect t t n1).1) in *. set (c3 := _ <| c_batch := _ |>) in Hstep3.
  destruct (send_batches i n2 (batch_collect t t n1).2 c3) as (c4 & Hs4 & Hex & Hway).
  - apply lookup_insert_eq.
  - by rewrite (sd_status _ _ _ S2).
  - apply lookup_insert_eq.
  - exists c4, n2. split; [|split; [|split; [|split; [done|by apply Hway]]]].
    + eapply steps_trans; [|exact Hs4].
      eapply steps_snoc; [eapply steps_snoc; [by apply steps_one|]|]; eassumption.
    + rewrite (ex_servers _ _ Hex). apply lookup_insert_eq.
    + rewrite (ex_servers _ _ Hex).
      change (<[i := n2]> (<[i := n1]> (c_servers c)) !! j = Some m).
      by rewrite !lookup_insert_ne by done.
Qed.

(** From the reply to the state machine. *)
Lemma reply_applied c i j n n' q r op :
  started (new_entry op n) n n' → vectors_ok n → 0 ≤ j < Z.of_nat (m_peers_size n) →
  (m_peers_size n ≤ 3)%nat → m_status n = Leader → m_lastSnapshotIncludeIndex n = 0 →
  0 ≤ m_lastApplied n ≤ m_commitIndex n → m_commitIndex n ≤ getLastLogIndex n →
  Forall (λ x, x ≤ getLastLogIndex n) (m_matchIndex n) →
  c_servers c !! i = Some n' → mkThread i j (request_of (new_entry op n) n') q ∈ c_threads c →
  (j, request_of (new_entry op n) n', r) ∈ c_append_replies c → c_counters c !! q = Some 1 →
  aer_success r = true → aer_term r = m_currentTerm n → aer_appstate r = AppNormal →
  ∃ c' n2, steps cstep c c' ∧ c_servers c' !! i = Some n2 ∧
    let index := getLastLogIndex n + 1 in
    log_entry n2 index = Some (new_entry op n) ∧ m_commitIndex n2 = index ∧
    m_lastApplied n2 = index ∧ apply_msg index (new_entry op n) ∈ applyChan n2.
Proof.
  intros S Hv Hj HN Hst Hsnap Han Hcn Hslots Hi Hth Hrep Hcnt Hsucc Hrt Happ.
  destruct (leader_commits op r j n n' S Hv) as (n1 & a & Hrun1 & Hc1 & Hlog1 & Ha1 & _);
    try done.
  apply list_elem_of_split in Hth as (l1 & l2 & Hth).
  pose proof (lstep_cstep _ _ _ (cs_append_reply c n' l1 (mkThread i j _ q) l2 (Some r) 1 n1 a true Hth Hi
    Hrep Hcnt Hrun1)) as Hstep1. set (c1 := _ <| c_counters := _ |>) in Hstep1.
  assert (log_entry n1 (getLastLogIndex n + 1) = Some (new_entry op n)) as He1.
  { rewrite (same_log_entry _ _ _ Hlog1), (started_entry _ _ _ _ S). by rewrite decide_True. }
  destruct (applier_hands_over (new_entry op n) n1) as (n2 & Hrun2 & Ha2 & Hch2).
  - destruct Hlog1 as (_ & -> & _). destruct (sd_snap _ _ _ S) as [-> _].
    lia.
  - rewrite (same_log_last _ _ Hlog1), (started_last _ _ _ S). lia.
  - by rewrite Hc1.
  - rewrite Hc1 in Ha2, Hch2. assert (c_servers c1 !! i = Some n1) as Hi1 by apply lookup_insert_eq.
    exists (set_server i n2 c1), n2. split; [|split; [apply lookup_insert_eq|]].
    + eapply steps_snoc; [by apply steps_one|by eapply lstep_cstep, cs_apply].
    + cbn zeta. destruct (applier_round_keeps n1 n2 Hrun2) as [Hl Hcc].
      rewrite Hcc, (same_log_entry _ _ _ Hl). by split_and!.
Qed.

Context `{!BoostArchiveLaws Ar}.

(** C22: progress.  In a reachable cluster of at most three servers, let server [i] lead
    with its batch sender running, and let server [j] not be ahead of it and have its log.
    Whatever else is going on, a command started at [i] can still be sent, accepted,
    acknowledged, committed and handed to the state machine of [i] by steps of the
    cluster: the threads are never in each other's way. *)
Theorem command_can_commit (c : cluster) (i j : Z) (n m : node) (now : Z) (op : Op) :
  (N ≤ 3)%nat → reachable N c → in_step c i j n m →
  ∃ c' n', steps cstep c c' ∧ c_servers c' !! i = Some n' ∧
    let index := getLastLogIndex n + 1 in
    log_entry n' index = Some (mkLogEntry (encodeOp op) (m_currentTerm n) index) ∧
    m_commitIndex n' = index ∧ m_lastApplied n' = index ∧
    mkApplyMsg true index (encodeOp op) false 0 0 "" ∈ applyChan n'.
Proof.
  intros HN Hr Hsync. pose proof Hsync as [[Hi Hst] [Hj Hne] _ Hterms [Hsame Hok] _ Hslots].
  destruct (reachable_binv N c ltac:(lia) Hr) as [Hc [k B]].
  destruct (ci_nodes _ _ Hc _ _ Hi) as [_ Hme Hsize Hv _ _].
  destruct (ci_nodes _ _ Hc _ _ Hj) as [Hjd _ _ _ _ _].
  pose proof (bi_nodes _ _ _ B _ _ Hi) as Bn. pose proof (bi_nodes _ _ _ B _ _ Hj) as Bm.
  destruct (entry_sent c i j n m now op Hsync Hme) as
    (c4 & n4 & Hs4 & Hi4 & Hj4 & S & args & q & Hargs & Hth & Hap & Hcnt); [lia|].
  rewrite batch_request_of in Hargs. injection Hargs as <-.
  destruct (follower_accepts op now n n4 m S Hsame Hok Hterms (nl_committed _ _ _ Bm))
    as (m' & r & Hrun & Hsucc & Hrt & Happ).
  pose proof (lstep_cstep _ _ _ (cs_append c4 j m _ now m' r Hap Hj4 Hrun)) as Hstep5. set (c5 := _ <| _ := _ |>) in Hstep5.
  destruct (reply_applied c5 i j n n4 q r op S Hv) as (c6 & n6 & Hs6 & Hn6); try done.
  - lia.
  - lia.
  - apply (nl_snap _ _ _ Bn).
  - apply (nl_applied _ _ _ Bn).
  - apply (nl_committed _ _ _ Bn).
  - unfold c5. upd_simpl. by rewrite lookup_set_server, decide_False.
  - apply list_elem_of_here.
  - exists c6, n6. split; [|exact Hn6]. eapply steps_trans; [|exact Hs6]. by eapply steps_snoc.
Qed.
End live.

Lemma command_can_commit_witness :
  match elected_cluster with
  | Some c => ∃ c' n', steps (cstep (Ar := bit_archive)) c c' ∧ c_servers c' !! 0 = Some n' ∧
      m_commitIndex n' = 1 ∧
      mkApplyMsg true 1 (encodeOp (demo_op "k" "v" 1)) false 0 0 "" ∈ applyChan n'
  | None => False
  end.
Proof.
  destruct elected_cluster as [c|] eqn:Hc; [|vm_compute in Hc; discriminate Hc].
  destruct (c_servers c !! 0) as [n|] eqn:Hn;
    [|vm_compute in Hc; injection Hc as <-; vm_compute in Hn; discriminate Hn].
  destruct (c_servers c !! 1) as [m|] eqn:Hm;
    [|vm_compute in Hc; injection Hc as <-; vm_compute in Hm; discriminate Hm].
  assert (getLastLogIndex n = 0 ∧ in_step c 0 1 n m) as [Hlast Hsync].
  { vm_compute in Hc. injection Hc as <-. vm_compute in Hn. injection Hn as <-.
    vm_compute in Hm. injection Hm as <-. split; [reflexivity|].
    constructor.
    - split; reflexivity.
    - split; [reflexivity|discriminate].
    - split_and!; reflexivity.
    - by vm_compute.
    - split; [split_and!; reflexivity|]. intros k e He. discriminate He.
    - eexists. split; reflexivity.
    - apply (bool_decide_unpack _). vm_compute. exact I. }
  destruct (command_can_commit (Ar := bit_archive) 3 c 0 1 n m 5 (demo_op "k" "v" 1))
    as (c' & n' & Hs & Hi & _ & Hcm & _ & Hch); [lia|by apply (run_reachable 3 elect_first)|exact Hsync|].
  rewrite Hlast in Hcm, Hch. exists c', n'. split; [exact Hs|]. split; [exact Hi|].
  split; [exact Hcm|exact Hch].
Defined.
