(* ===== verification/ClusterElect.v ===== *)
(** Elections can be won: whatever state the cluster is in, a server whose log is as up to
    date as all others can become leader, in a newer term than any. *)
From S2P Require Import Prelude OpCoder Persister RaftTypes RaftLog RaftElection.
From S2P Require Import RaftReplication RaftPipeline RaftSteps Cluster ClusterLog ClusterRun.
From S2P Require Import RaftBounds ClusterSafe ClusterLive.
Open Scope Z_scope.

#[local] Arguments upd : simpl never.

Section elect.
Context `{Ar : BoostArchive}.
Variable N : nat.

#[export] Instance same_log_preorder : PreOrder same_log.
Proof. unfold same_log. split; [done|]. intros a b c (-> & -> & ->) (-> & -> & ->). done. Qed.

Lemma same_log_up_to_date n n' i t : same_log n n' → UPtodata i t n' = UPtodata i t n.
Proof.
  intros Hs. unfold UPtodata, getLastLogTerm. rewrite (same_log_last _ _ Hs).
  by destruct Hs as (-> & _ & ->).
Qed.

Lemma begin_same_log now n n' args :
  doElection_begin now n = Some (n', args) →
  same_log n n' ∧ m_status n' = Candidate ∧ m_currentTerm n' = m_currentTerm n + 1 ∧
  vectors_ok n' = vectors_ok n ∧ m_peers_size n' = m_peers_size n ∧ m_me n' = m_me n ∧
  args = mkRequestVoteArgs (m_currentTerm n') (m_me n) (getLastLogIndex n) (getLastLogTerm n).
Proof.
  unfold doElection_begin. destruct (bool_decide _); [done|]. cbn zeta. by intros [= <- <-].
Qed.

Lemma begin_some now n :
  m_status n ≠ Leader → ∃ n' args, doElection_begin now n = Some (n', args).
Proof.
  intros Hst. unfold doElection_begin. rewrite bool_decide_eq_false_2 by done. cbn zeta. eauto.
Qed.

Lemma RequestVote1_same_log now args n n' r :
  RequestVote1 now args n = Ok (n', r) → same_log n n'.
Proof.
  destruct (RequestVote1_eq now args n) as [vs ->]. intros [<- _]%Ok_inj2.
  unfold adopt_term. destruct (_ <? _), (grants args n); done.
Qed.

Lemma RequestVote1_grants now args n :
  grants args n = true →
  ∃ n' r, RequestVote1 now args n = Ok (n', r) ∧ rvr_votegranted r = true ∧
    rvr_term r = rv_term args ∧ m_currentTerm n' = rv_term args.
Proof.
  intros Hg. destruct (RequestVote1_eq now args n) as [vs Heq]. rewrite Hg in Heq.
  assert (m_currentTerm n ≤ rv_term args) as Hle.
  { unfold grants in Hg. rewrite !andb_true_iff, negb_true_iff, Z.ltb_ge in Hg. apply Hg. }
  eexists _, _. split; [exact Heq|]. split; [done|]. cbn [rvr_term].
  change (m_currentTerm (adopt_term (rv_term args) n) = rv_term args ∧
          m_currentTerm (adopt_term (rv_term args) n) = rv_term args).
  rewrite adopt_term_max. lia.
Qed.

(** A newer request of a candidate that is up to date is granted. *)
Lemma grants_newer args n :
  m_currentTerm n < rv_term args → UPtodata (rv_lastlogindex args) (rv_lastlogterm args) n = true →
  grants args n = true.
Proof. intros Ht Hu. unfold grants. rewrite Hu. by zbool. Qed.

(** ** Rounds that fail *)

Lemma election_peer_fails j n v :
  vectors_ok n → 0 ≤ v + 1 < 2 ^ 64 → election_peer (λ _, None) j (n, v) = Ok (n, v).
Proof.
  intros Hv Hs. unfold election_peer. destruct (_ =? _); [done|].
  by rewrite sendRequestVote_eq.
Qed.

(** A candidate whose requests all fail goes back to waiting. *)
Lemma round_fails args l v i n c :
  vectors_ok n → 0 ≤ v + 1 < 2 ^ 64 → c_servers c !! i = Some n →
  c_rounds c !! i = Some (mkRound args l v) →
  ∃ c', steps (cstep) c c' ∧ c_servers c' = c_servers c ∧ c_rounds c' !! i = None.
Proof.
  intros Hv Hs. revert c. induction l as [|j l IH]; intros c Hi Hr.
  - eexists. split; [by eapply steps_one, lstep_cstep, cs_end_round|]. split; [done|].
    upd_simpl. apply lookup_delete_eq.
  - pose proof (lstep_cstep _ _ _ (cs_vote_reply c i n _ j l None n v Hi Hr eq_refl I
      (election_peer_fails j n v Hv Hs))) as Hstep. set (c1 := _ <| _ := _ |>) in Hstep.
    assert (c_servers c1 = c_servers c) as Hsame by (by apply insert_id).
    destruct (IH c1) as (c' & Hsteps & Hs' & Hnone).
    + by rewrite Hsame.
    + unfold c1. upd_simpl. apply lookup_insert_eq.
    + exists c'. split; [eapply steps_trans; [by apply steps_one|done]|].
      split; [by rewrite Hs'|done].
Qed.

(** A server that can stand for election. *)
Record eligible (i : Z) (n : node) : Prop := {
  el_vectors : vectors_ok n;
  el_me : m_me n = i;
  el_size : m_peers_size n = N;
  el_status : m_status n ≠ Leader
}.

(** Failed elections raise the term as far as one likes. *)
Lemma raise_term k i n c :
  eligible i n → c_servers c !! i = Some n → c_rounds c !! i = None →
  ∃ c' n', steps (cstep) c c' ∧ c_servers c' = <[i := n']> (c_servers c) ∧
    c_rounds c' !! i = None ∧ eligible i n' ∧ same_log n n' ∧
    m_currentTerm n' = m_currentTerm n + Z.of_nat k.
Proof.
  revert n c. induction k as [|k IH]; intros n c El Hi Hr.
  { exists c, n. split; [constructor|]. rewrite insert_id by done. by rewrite Z.add_0_r. }
  destruct (begin_some 0 n (el_status _ _ El)) as (n1 & args & Hb).
  destruct (begin_same_log _ _ _ _ Hb) as (Hl & Hst & Ht & Hv & Hsz & Hme & _).
  pose proof (lstep_cstep _ _ _ (cs_begin_election c i n n1 args 0 Hi Hr Hb)) as Hstep.
  set (c1 := _ <| _ := _ |>) in Hstep.
  assert (eligible i n1) as El1.
  { destruct El. constructor; [by rewrite Hv|congruence|congruence|by rewrite Hst]. }
  destruct (round_fails args (indices (m_peers_size n)) 1 i n1 c1) as (c2 & Hs2 & Hsv & Hr2);
    [apply El1|lia|apply lookup_insert_eq|unfold c1; upd_simpl; apply lookup_insert_eq|].
  assert (c_servers c2 !! i = Some n1) as Hi2 by (rewrite Hsv; apply lookup_insert_eq).
  destruct (IH n1 c2 El1 Hi2 Hr2) as (c' & n' & Hs' & Hsv' & Hr' & El' & Hl' & Ht').
  exists c', n'. split.
  { eapply steps_trans; [|exact Hs']. eapply steps_trans; [by apply steps_one|exact Hs2]. }
  split; [rewrite Hsv', Hsv; unfold c1; upd_simpl; apply insert_insert_eq|].
  split; [done|]. split; [done|]. split; [by transitivity n1|]. lia.
Qed.

(** ** A round that is won *)

(** What the others keep while they vote in term [T]. *)
Definition voted_on (T : Z) (m m' : node) : Prop :=
  same_log m m' ∧ m_currentTerm m' ≤ Z.max (m_currentTerm m) T.

(** One vote is asked for, given and sent back. *)
Lemma vote_given args j l v i m c :
  c_rounds c !! i = Some (mkRound args (j :: l) v) → j ≠ i → c_servers c !! j = Some m →
  grants args m = true →
  ∃ c' m' r, steps cstep c c' ∧ c_servers c' = <[j := m']> (c_servers c) ∧
    c_rounds c' = c_rounds c ∧ (j, args, r) ∈ c_vote_replies c' ∧ rvr_votegranted r = true ∧
    rvr_term r = rv_term args ∧ voted_on (rv_term args) m m'.
Proof.
  intros Hr Hne Hj Hg. destruct (RequestVote1_grants 0 args m Hg) as (m' & r & Hrun & Hgr & Hrt & Hmt).
  pose proof (lstep_cstep _ _ _ (cs_request_vote c i j l _ Hr eq_refl Hne)) as H1.
  set (c1 := _ <| _ := _ |>) in H1.
  pose proof (lstep_cstep _ _ _ (cs_vote c1 j m args 0 m' r ltac:(by left) Hj Hrun)) as H2.
  set (c2 := _ <| _ := _ |>) in H2. exists c2, m', r. split.
  { eapply steps_snoc; [by apply steps_one|done]. }
  split; [done|]. split; [done|]. split; [by left|]. split; [done|]. split; [done|].
  split; [by eapply RequestVote1_same_log|lia].
Qed.

(** The vote is counted: it makes a leader, or the round goes on. *)
Lemma vote_counted args j l v i m n c :
  vectors_ok n → m_me n = i → m_status n ≠ Leader → rv_term args = m_currentTerm n →
  c_servers c !! i = Some n → c_rounds c !! i = Some (mkRound args (j :: l) v) → j ≠ i →
  c_servers c !! j = Some m → grants args m = true → 0 ≤ v < 2 ^ 62 →
  ∃ c' m', steps cstep c c' ∧ voted_on (m_currentTerm n) m m' ∧
    c_servers c' = <[i := if majority n <=? v + 1 then leader_state n else n]>
                     (<[j := m']> (c_servers c)) ∧
    (v + 1 < majority n → c_rounds c' !! i = Some (mkRound args l (v + 1))).
Proof.
  intros Hv Hme Hst Ht Hi Hr Hne Hm Hg Hlt.
  destruct (vote_given args j l v i m c Hr Hne Hm Hg)
    as (c2 & m' & r & Hs2 & Hsv & Hrd & Hin & Hgd & Hrt & Hvo).
  assert (c_servers c2 !! i = Some n) as Hi2 by (by rewrite Hsv, lookup_insert_ne).
  assert (election_peer (λ _, Some r) j (n, v) =
    Ok (if majority n <=? v + 1 then leader_state n else n,
        if majority n <=? v + 1 then 0 else v + 1)) as Hrun.
  { unfold election_peer. rewrite Hme, (proj2 (Z.eqb_neq j i) Hne), sendRequestVote_eq by (done || lia).
    rewrite Hrt, Ht, Z.ltb_irrefl, Z.eqb_refl, Hgd, bool_decide_eq_false_2 by done.
    cbn [andb]. by destruct (_ <=? _). }
  rewrite <- Hrd in Hr.
  pose proof (lstep_cstep _ _ _ (cs_vote_reply c2 i n _ j l (Some r) _ _ Hi2 Hr eq_refl Hin Hrun)) as Hstep.
  eexists _, m'. split; [eapply steps_snoc; [exact Hs2|exact Hstep]|]. split; [by rewrite <- Ht|].
  unfold set_server. upd_simpl. rewrite Hsv. split; [done|]. intros Hw.
  rewrite lookup_insert_eq. replace (majority n <=? v + 1) with false; [done|].
  symmetry. apply Z.leb_gt. lia.
Qed.

(** Its own place in the list is passed over. *)
Lemma self_passed args l v i n c :
  vectors_ok n → 0 ≤ v < 2 ^ 62 → c_servers c !! i = Some n →
  c_rounds c !! i = Some (mkRound args (i :: l) v) →
  ∃ c', steps cstep c c' ∧ c_servers c' = c_servers c ∧
    c_rounds c' !! i = Some (mkRound args l v).
Proof.
  intros Hv Hlt Hi Hr.
  assert (election_peer (λ _, None) i (n, v) = Ok (n, v)) as Hrun
    by (apply election_peer_fails; [done|lia]).
  pose proof (lstep_cstep _ _ _ (cs_vote_reply c i n _ i l None n v Hi Hr eq_refl I Hrun)) as Hstep.
  eexists. split; [by eapply steps_one|]. unfold set_server. upd_simpl. split; [by apply insert_id|].
  apply lookup_insert_eq.
Qed.

Lemma round_won args l v i n c :
  vectors_ok n → m_me n = i → m_status n ≠ Leader → rv_term args = m_currentTerm n →
  c_servers c !! i = Some n → c_rounds c !! i = Some (mkRound args l v) → NoDup l →
  (∀ j, j ∈ l → j ≠ i → ∃ m, c_servers c !! j = Some m ∧ grants args m = true) →
  0 ≤ v < majority n → majority n < 2 ^ 62 →
  majority n ≤ v + vsize (filter (λ j, j ≠ i) l) →
  ∃ c', steps cstep c c' ∧ c_servers c' !! i = Some (leader_state n) ∧
    ∀ j m, j ≠ i → c_servers c !! j = Some m →
      ∃ m', c_servers c' !! j = Some m' ∧ voted_on (m_currentTerm n) m m'.
Proof.
  intros Hv Hme Hst Ht. revert v c. induction l as [|j l IH]; intros v c Hi Hr Hnd Hgr Hlt Hmaj Hq.
  { change (vsize (filter _ [])) with 0 in Hq. lia. }
  apply NoDup_cons in Hnd as [Hjl Hnd]. destruct (decide (j = i)) as [->|Hne].
  - rewrite filter_cons_False in Hq by (intros Hf; by apply Hf).
    destruct (self_passed args l v i n c) as (c1 & Hs1 & Hsame & Hr1); [done|lia|done..|].
    rewrite <- Hsame in *. destruct (IH v c1) as (c' & Hs & Hl & Ho); try done.
    { intros j Hj. apply Hgr. by right. }
    exists c'. split; [by eapply steps_trans|]. by split.
  - rewrite filter_cons_True in Hq by done. destruct (Hgr j) as (m & Hm & Hg); [by left|done|].
    destruct (vote_counted args j l v i m n c) as (c1 & m' & Hs1 & Hvo & Hsv & Hr1); try done; [lia|].
    assert (∀ k m0, k ≠ i → c_servers c !! k = Some m0 →
      ∃ m1, c_servers c1 !! k = Some m1 ∧ voted_on (m_currentTerm n) m0 m1) as Hothers.
    { intros k m0 Hk Hm0. rewrite Hsv, lookup_insert_ne by done. rewrite lookup_insert.
      case_decide; [subst; exists m'; split; [done|]; congruence|].
      exists m0. split; [done|]. split; [done|lia]. }
    destruct (Z.leb_spec (majority n) (v + 1)) as [Hw|Hw].
    + exists c1. split; [done|]. split; [rewrite Hsv; apply lookup_insert_eq|done].
    + destruct (IH (v + 1) c1) as (c' & Hs & Hl & Ho); [by rewrite Hsv, lookup_insert_eq|by apply Hr1|done| |lia|done| |].
      * intros k Hk Hki. rewrite Hsv, !lookup_insert_ne by (done || (intros ->; done)).
        apply Hgr; [by right|done].
      * revert Hq. unfold vsize. cbn [length]. lia.
      * exists c'. split; [by eapply steps_trans|]. split; [done|].
        intros k m0 Hk Hm0. destruct (Hothers k m0 Hk Hm0) as (m1 & Hm1 & Hl1 & Ht1).
        destruct (Ho k m1 Hk Hm1) as (m2 & Hm2 & Hl2 & Ht2).
        exists m2. split; [done|]. split; [by transitivity m1|lia].
Qed.

Context `{!BoostArchiveLaws Ar}.

(** A server waits for its round of requests to end. *)
Lemma idle i n c :
  Z.of_nat N < 2 ^ 62 → reachable N c → c_servers c !! i = Some n →
  ∃ c', steps cstep c c' ∧ c_servers c' = c_servers c ∧ c_rounds c' !! i = None.
Proof.
  intros HN Hr Hi. destruct (c_rounds c !! i) as [[args l v]|] eqn:Hrd; [|by exists c; split; [constructor|]].
  pose proof (round_votes_bound N c i _ HN Hr Hrd) as Hb. cbn in Hb.
  destruct (reachable_binv N c HN Hr) as [Hc _].
  apply (round_fails args l v i n c); [by apply (ci_nodes _ _ Hc _ _ Hi)|lia|done|done].
Qed.

Lemma filter_others (i : Z) (l : list Z) : i ∉ l → filter (λ j, j ≠ i) l = l.
Proof.
  induction l as [|j l IH]; intros Hi; [done|].
  rewrite filter_cons_True by (intros ->; apply Hi; by left). f_equal. apply IH.
  intros Hin. apply Hi. by right.
Qed.

Lemma others_size i : 0 ≤ i < Z.of_nat N → vsize (filter (λ j, j ≠ i) (indices N)) = Z.of_nat N - 1.
Proof.
  intros Hi. apply indices_in in Hi. pose proof (indices_NoDup N) as Hnd. unfold vsize.
  rewrite <- (length_indices N) at 2. revert Hi Hnd. generalize (indices N). intros l.
  induction l as [|j l IH]; intros Hin Hnd; [by apply not_elem_of_nil in Hin|].
  apply NoDup_cons in Hnd as [Hj Hnd]. destruct (decide (j = i)) as [->|Hne].
  - rewrite filter_cons_False by (intros Hf; by apply Hf). cbn [length].
    rewrite filter_others by done. lia.
  - rewrite filter_cons_True by done. cbn [length].
    apply elem_of_cons in Hin as [->|Hin]; [done|]. specialize (IH Hin Hnd). lia.
Qed.

(** The server ends its round and stands for election, in a term newer than any, until it
    has sent its first request. *)
Lemma stand i n c :
  Z.of_nat N < 2 ^ 62 → reachable N c → c_servers c !! i = Some n → m_status n ≠ Leader →
  ∃ c' n' args, steps cstep c c' ∧ c_servers c' = <[i := n']> (c_servers c) ∧
    c_rounds c' !! i = Some (mkRound args (indices N) 1) ∧ eligible i n' ∧ same_log n n' ∧
    args = mkRequestVoteArgs (m_currentTerm n') i (getLastLogIndex n) (getLastLogTerm n) ∧
    ∀ j m, c_servers c !! j = Some m → m_currentTerm m < m_currentTerm n'.
Proof.
  intros HN Hr Hi Hst. destruct (reachable_binv N c HN Hr) as [Hc [k B]].
  destruct (ci_nodes _ _ Hc _ _ Hi) as [_ Hme Hsize Hv _ _].
  destruct (idle i n c HN Hr Hi) as (c1 & Hs1 & Hsv1 & Hr1).
  destruct (raise_term (Z.to_nat k) i n c1) as (c2 & n2 & Hs2 & Hsv2 & Hr2 & El & Hl2 & Ht2);
    [by constructor|by rewrite Hsv1|done|].
  destruct (begin_some 0 n2 (el_status _ _ El)) as (n3 & args & Hb).
  destruct (begin_same_log _ _ _ _ Hb) as (Hl3 & Hst3 & Ht3 & Hv3 & Hsz3 & Hme3 & Hargs).
  assert (c_servers c2 !! i = Some n2) as Hi2 by (rewrite Hsv2; apply lookup_insert_eq).
  pose proof (lstep_cstep _ _ _ (cs_begin_election c2 i n2 n3 args 0 Hi2 Hr2 Hb)) as Hstep.
  destruct El as [Ev Em Es _]. eexists _, n3, args. split.
  { eapply steps_snoc; [|exact Hstep]. by eapply steps_trans. }
  unfold set_server. upd_simpl. split; [by rewrite Hsv2, Hsv1, insert_insert_eq|].
  split; [rewrite lookup_insert_eq; by rewrite Es|].
  split; [constructor; [by rewrite Hv3|congruence|congruence|by rewrite Hst3]|].
  split; [by transitivity n2|]. split.
  - rewrite Hargs, Em, (same_log_last n n2 Hl2). f_equal. unfold getLastLogTerm.
    by destruct Hl2 as (-> & _ & ->).
  - intros j m Hm. pose proof (nl_term _ _ _ (bi_nodes _ _ _ B _ _ Hm)).
    pose proof (nl_term _ _ _ (bi_nodes _ _ _ B _ _ Hi)). lia.
Qed.

(** C21: elections can be won.  In every reachable cluster of at least two servers, whatever
    rounds of requests, replies and leaders there are, a server that does not lead and whose
    log is at least as up to date as that of every other server can still be elected by steps
    of the cluster; it then leads in a newer term than any server had, no server is in a
    newer one, and no log has changed. *)
Theorem leader_can_be_elected (c : cluster) (i : Z) (n : node) :
  (2 ≤ N)%nat → Z.of_nat N < 2 ^ 62 → reachable N c → c_servers c !! i = Some n →
  m_status n ≠ Leader →
  (∀ j m, c_servers c !! j = Some m → UPtodata (getLastLogIndex n) (getLastLogTerm n) m = true) →
  ∃ c' n', steps cstep c c' ∧ c_servers c' !! i = Some n' ∧ m_status n' = Leader ∧
    ∀ j m, c_servers c !! j = Some m → ∃ m', c_servers c' !! j = Some m' ∧ same_log m m' ∧
      m_currentTerm m < m_currentTerm n' ∧ m_currentTerm m' ≤ m_currentTerm n'.
Proof.
  intros HN2 HN Hr Hi Hst Hup. destruct (reachable_inv N c HN Hr) as [Hc _].
  destruct (ci_nodes _ _ Hc _ _ Hi) as [Hid _ _ _ _ _].
  destruct (stand i n c HN Hr Hi Hst) as (c1 & n1 & args & Hs1 & Hsv & Hr1 & [Ev Em Es Est] & Hl & Hargs & Hnew).
  pose proof (Z.div_lt (Z.of_nat N) 2). pose proof (Z.div_le_lower_bound (Z.of_nat N) 2 1).
  assert (majority n1 = Z.of_nat N / 2 + 1) as Hmaj by (unfold majority; by rewrite Es).
  destruct (round_won args (indices N) 1 i n1 c1) as (c2 & Hs2 & Hi2 & Ho); try done; try lia.
  - by rewrite Hargs.
  - by rewrite Hsv, lookup_insert_eq.
  - apply indices_NoDup.
  - intros j Hj%indices_in Hne. destruct (proj2 (reachable_dom N c j Hr) Hj) as [m Hm].
    exists m. rewrite Hsv, lookup_insert_ne by done. split; [done|]. rewrite Hargs.
    apply grants_newer; [by eapply Hnew|by eapply Hup].
  - rewrite others_size by done. lia.
  - destruct (leader_state_fields n1) as (Hlead & _ & _ & Hlt & _ & Hll & _ & _ & _ & _ & _ & _ & Hls & Hlst & _).
    exists c2, (leader_state n1). split; [by eapply steps_trans|]. split; [done|]. split; [done|].
    rewrite Hlt. intros j m Hm. destruct (decide (j = i)) as [->|Hne].
    + rewrite Hi in Hm. injection Hm as <-. exists (leader_state n1). split; [done|]. split.
      * destruct Hl as (? & ? & ?). split_and!; congruence.
      * split; [by eapply Hnew|by rewrite Hlt].
    + destruct (Ho j m Hne) as (m' & Hm' & Hsl & Ht); [by rewrite Hsv, lookup_insert_ne|].
      exists m'. split; [done|]. split; [done|]. specialize (Hnew j m Hm). lia.
Qed.
End elect.

(** Server 0 leads and has sent a command to server 1, not to server 2: server 1 can still be
    elected. *)
Definition half_sent_run : list action :=
  elect_first ++ [AStart 0 2 (demo_op "k" "a" 1)] ++ batch_round 0 10 ++ [AAppend 0 11].
Lemma leader_can_be_elected_witness :
  match run_from_boot (Ar := bit_archive) 3 half_sent_run with
  | Some c => ∃ n c' n', c_servers c !! 1 = Some n ∧ getLastLogIndex n = 1 ∧
      steps (cstep (Ar := bit_archive)) c c' ∧
      c_servers c' !! 1 = Some n' ∧ m_status n' = Leader ∧ getLastLogIndex n' = 1
  | None => False
  end.
Proof.
  destruct (run_from_boot 3 half_sent_run) as [c|] eqn:Hc; [|vm_compute in Hc; discriminate Hc].
  assert (reachable (Ar := bit_archive) 3 c) as Hr by (by apply (run_reachable 3 half_sent_run)).
  destruct (c_servers c !! 1) as [n|] eqn:Hn;
    [|vm_compute in Hc; injection Hc as <-; vm_compute in Hn; discriminate Hn].
  assert (map_Forall (λ _ m, UPtodata (getLastLogIndex n) (getLastLogTerm n) m = true) (c_servers c) ∧
    m_status n = Follower ∧ getLastLogIndex n = 1) as (Hup & Hst & Hl).
  { vm_compute in Hc. injection Hc as <-. vm_compute in Hn. injection Hn as <-.
    split; [apply (bool_decide_unpack _); vm_compute; exact I|]. by vm_compute. }
  clear Hc. destruct (leader_can_be_elected (Ar := bit_archive) 3 c 1 n)
    as (c' & n' & Hs & Hi & Hld & Hall); [lia|lia|exact Hr|exact Hn|by rewrite Hst|exact Hup|].
  destruct (Hall 1 n Hn) as (m' & Hm' & Hsl & _). rewrite Hi in Hm'. injection Hm' as <-.
  exists n, c', n'. split; [done|]. split; [done|]. split; [done|]. split; [done|].
  split; [done|]. by rewrite (same_log_last n n' Hsl).
Defined.
