(* ===== verification/RaftTidy.v ===== *)
(** Tidy nodes: the log numbered by its positions, the buffers of unsent entries consecutive
    and, at a leader, reaching up to the end of its log.  Every handler keeps a node tidy,
    and on a tidy node none of the assertions fails. *)
From S2P Require Import Prelude OpCoder Persister RaftTypes RaftLog RaftElection.
From S2P Require Import RaftReplication RaftPipeline RaftSteps RaftBounds.
Open Scope Z_scope.

#[local] Arguments upd : simpl never.

(** ** Consecutive entries *)

Definition consecutive (es : list LogEntry) : Prop :=
  ∀ k e e', es !! k = Some e → es !! S k = Some e' → logindex e' = logindex e + 1.

Lemma consecutive_from e es : consecutive (e :: es) → entries_from (logindex e) (e :: es).
Proof.
  intros Hc k. induction k as [|k IH]; intros x Hx.
  - injection Hx as <-. lia.
  - destruct (lookup_lt_is_Some_2 (e :: es) k) as [y Hy]; [apply lookup_lt_Some in Hx; lia|].
    rewrite (Hc k y x Hy Hx), (IH y Hy). lia.
Qed.

Lemma consecutive_snoc es e :
  consecutive es → (∀ x, last es = Some x → logindex e = logindex x + 1) →
  consecutive (es ++ [e]).
Proof.
  intros Hc He k x y Hx Hy. destruct (decide (S k < length es)%nat) as [Hk|Hk].
  - rewrite lookup_app_l in Hx, Hy by lia. by apply (Hc k).
  - pose proof (lookup_lt_Some _ _ _ Hy) as Hlt. rewrite length_app in Hlt. cbn in Hlt.
    rewrite lookup_app_r in Hy by lia. replace (S k - length es)%nat with 0%nat in Hy by lia.
    injection Hy as <-. rewrite lookup_app_l in Hx by lia. apply He.
    rewrite last_lookup. by replace (pred (length es)) with k by lia.
Qed.

(** The last of consecutive entries. *)
Lemma entries_from_last i es e :
  entries_from i es → last es = Some e → logindex e = i + vsize es - 1.
Proof.
  intros Hf Hl. rewrite last_lookup in Hl. rewrite (Hf _ _ Hl).
  apply lookup_lt_Some in Hl. unfold vsize. lia.
Qed.

(** ** Tidy nodes

    [St] are the entries that leaders have created. *)

Section tidy.
Context `{Ar : BoostArchive}.

Record tidy (St : list LogEntry) (n : node) : Prop := {
  td_log : log_ok n;
  td_logs : ∀ e, e ∈ m_logs n → e ∈ St;
  td_buffers : ∀ p e, p ∈ m_pendingEntries n → e ∈ entries p →
    e ∈ St ∧ logindex e ≤ getLastLogIndex n;
  td_cons : ∀ p, p ∈ m_pendingEntries n → consecutive (entries p);
  td_ends : m_status n = Leader → ∀ k p e, m_pendingEntries n !! k = Some p →
    Z.of_nat k ≠ m_me n → last (entries p) = Some e → logindex e = getLastLogIndex n;
  td_match : Forall (λ m, m ≤ getLastLogIndex n) (m_matchIndex n);
  td_next : Forall (λ m, m ≤ getLastLogIndex n + 1) (m_nextIndex n)
}.

Lemma tidy_mono St St' n : (∀ e, e ∈ St → e ∈ St') → tidy St n → tidy St' n.
Proof. intros Hs []. constructor; try done; [auto|]. intros p e Hp He. naive_solver. Qed.

(** Being tidy reads only log, buffers, slots and role. *)
Lemma tidy_frame St n n' :
  m_logs n' = m_logs n → m_lastSnapshotIncludeIndex n' = m_lastSnapshotIncludeIndex n →
  m_pendingEntries n' = m_pendingEntries n → m_me n' = m_me n →
  (m_status n' = Leader → m_status n = Leader) → m_matchIndex n' = m_matchIndex n → m_nextIndex n' = m_nextIndex n → tidy St n → tidy St n'.
Proof.
  intros Hl Hs Hp Hme Hst Hm Hn [].
  assert (getLastLogIndex n' = getLastLogIndex n) as Hlast
    by (unfold getLastLogIndex; by rewrite Hl, Hs).
  constructor; rewrite ?Hl, ?Hp, ?Hme, ?Hm, ?Hn, ?Hlast; try done; [|by eauto].
  unfold log_ok in *. by rewrite Hl, Hs.
Qed.

(** New slots of the peers. *)
Lemma tidy_slots St n mi ni :
  tidy St n → Forall (λ m, m ≤ getLastLogIndex n) mi →
  Forall (λ m, m ≤ getLastLogIndex n + 1) ni →
  tidy St (n <| m_matchIndex := mi |> <| m_nextIndex := ni |>).
Proof. intros [] Hm Hn. by constructor. Qed.

Lemma tidy_adopt St t n : tidy St n → tidy St (adopt_term t n).
Proof. unfold adopt_term. case_match; [|done]. by apply tidy_frame. Qed.

Lemma RequestVote1_tidy St now args n n' r :
  tidy St n → RequestVote1 now args n = Ok (n', r) → tidy St n'.
Proof.
  intros Hn H. destruct (RequestVote1_eq now args n) as [vs Heq]. rewrite Heq in H.
  injection H as <- _. apply (tidy_adopt _ (rv_term args)) in Hn.
  destruct (grants args n); by apply (tidy_frame _ (adopt_term (rv_term args) n)).
Qed.

Lemma doElection_begin_tidy St now n n' args :
  tidy St n → doElection_begin now n = Some (n', args) → tidy St n'.
Proof.
  intros Hn. unfold doElection_begin. destruct (bool_decide _); [done|]. cbn zeta.
  intros H. injection H as <- _. by apply (tidy_frame _ n).
Qed.

Lemma leader_state_tidy St n :
  vectors_ok n → m_lastSnapshotIncludeIndex n = 0 → tidy St n →
  (∀ p, p ∈ m_pendingEntries n → entries p = []) → tidy St (leader_state n).
Proof.
  intros (Hni & Hmi & _) Hs0 [] Hempty. pose proof (last_nonneg n Hs0).
  destruct (leader_state_fields n) as (_ & Hnext & Hmatch & _ & _ & Hl & _ & _ & _ & _ & _ &
    Hp & Hs & _).
  rewrite reset_upto_full in Hnext, Hmatch by done.
  assert (getLastLogIndex (leader_state n) = getLastLogIndex n) as Hlast
    by (unfold getLastLogIndex; by rewrite Hl, Hs).
  constructor; rewrite ?Hl, ?Hp, ?Hnext, ?Hmatch, ?Hlast; try done.
  - unfold log_ok in *. by rewrite Hl, Hs.
  - intros _ k p e Hk _. apply list_elem_of_lookup_2 in Hk. by rewrite (Hempty p Hk).
  - apply Forall_replicate. lia.
  - apply Forall_replicate. lia.
Qed.

Lemma election_peer_tidy St reply i n v n' v' :
  vectors_ok n → m_lastSnapshotIncludeIndex n = 0 → 0 ≤ v + 1 < 2 ^ 64 → tidy St n →
  election_peer (λ _, reply) i (n, v) = Ok (n', v') →
  (m_status n ≠ Leader → m_status n' = Leader →
     ∀ p, p ∈ m_pendingEntries n' → entries p = []) →
  tidy St n' ∧ getLastLogIndex n ≤ getLastLogIndex n'.
Proof.
  intros Hv Hs Hsmall Hn. unfold election_peer.
  destruct (i =? m_me n); [by intros [<- _]%Ok_inj2|].
  rewrite sendRequestVote_eq by done. destruct reply as [r|]; [|by intros [<- _]%Ok_inj2].
  destruct (_ <? _).
  { intros [<- _]%Ok_inj2 _. split; [by apply (tidy_frame _ n)|done]. }
  destruct (_ && _); [|by intros [<- _]%Ok_inj2].
  destruct (_ <=? _); [|by intros [<- _]%Ok_inj2].
  destruct (bool_decide (m_status n = Leader)) eqn:Hst; [done|]. b2p.
  intros [<- _]%Ok_inj2 Hfresh.
  destruct (leader_state_fields n) as (Hlead & _ & _ & _ & _ & Hl & _ & _ & _ & _ & _ & Hp & Hsn & _).
  split; [|unfold getLastLogIndex; by rewrite Hl, Hsn].
  apply leader_state_tidy; [done..|]. rewrite <- Hp. by apply Hfresh.
Qed.

Lemma applier_tidy St n n' : tidy St n → applierTicker_round n = Ok n' → tidy St n'.
Proof.
  intros Hn. unfold applierTicker_round. intros H. inv_ok. destruct x as [msgs m]. inv_ok.
  subst n'. rewrite push_all. assert (tidy St m) as Hm; [|by apply (tidy_frame _ m)].
  revert Hx. generalize (@nil ApplyMsg) as msgs0. generalize (Z.to_nat (m_commitIndex n - m_lastApplied n)) as fuel.
  intros fuel. revert n Hn. induction fuel as [|fuel IH]; intros n Hn msgs0; cbn [applier_loop];
    [by intros [= _ <-]|].
  destruct (_ <? _); [|by intros [= _ <-]]. intros H. inv_ok. eapply IH; [|exact H].
  by apply (tidy_frame _ n).
Qed.

Lemma doHeartBeat_tidy St now n n' out :
  vectors_ok n → m_lastSnapshotIncludeIndex n = 0 → tidy St n →
  doHeartBeat now n = Ok (n', out) →
  tidy St n' ∧ ∀ p args, OutAppend p args ∈ out →
    ae_entries args = [] ∧ 0 ≤ ae_prevlogindex args ≤ getLastLogIndex n.
Proof.
  intros Hv Hs Hn. pose proof (td_next _ _ Hn) as Hnext. rewrite Forall_lookup in Hnext.
  pose proof (last_nonneg n Hs). destruct (decide (m_status n = Leader)) as [Hst|Hst].
  2:{ unfold doHeartBeat. rewrite bool_decide_eq_false_2 by done. intros [= <- <-].
      split; [done|]. by intros ? ? ?%not_elem_of_nil. }
  destruct (doHeartBeat_eq now n Hv Hst) as (v & -> & Hlen & Hvi). intros [<- <-]%Ok_inj2. split.
  - apply (tidy_frame _ (n <| m_matchIndex := m_matchIndex n |> <| m_nextIndex := v |>)); try done.
    apply tidy_slots; [done|by apply td_match in Hn|]. apply Forall_lookup. intros i x Hx.
    specialize (Hvi (Z.of_nat i) ltac:(lia)). rewrite Nat2Z.id, Hx in Hvi.
    destruct (m_nextIndex n !! i) as [y|] eqn:Hy; [|by case_decide].
    specialize (Hnext _ _ Hy). case_decide; injection Hvi as ->; lia.
  - intros p args Hin. apply list_elem_of_fmap in Hin as (j & Heq & _).
    unfold heartbeat_message in Heq. case_match; [discriminate Heq|]. injection Heq as -> ->.
    split; [done|]. cbn [ae_prevlogindex].
    destruct (m_nextIndex n !! Z.to_nat j) as [y|] eqn:Hy; cbn; [apply Hnext in Hy|]; lia.
Qed.

(** *** Appending *)

(** A node whose log grows while it is not the leader. *)
Lemma tidy_grow St n n' :
  log_ok n' → (∀ e, e ∈ m_logs n' → e ∈ St) → getLastLogIndex n ≤ getLastLogIndex n' →
  m_pendingEntries n' = m_pendingEntries n → m_status n' ≠ Leader →
  m_matchIndex n' = m_matchIndex n → m_nextIndex n' = m_nextIndex n → tidy St n → tidy St n'.
Proof.
  intros Hok Hl Hlast Hp Hst Hm Hn [].
  constructor; rewrite ?Hp, ?Hm, ?Hn; try done.
  - intros p e Hin He. destruct (td_buffers0 p e Hin He). split; [done|lia].
  - eapply Forall_impl; [done|]. cbn. lia.
  - eapply Forall_impl; [done|]. cbn. lia.
Qed.

Lemma overlay_elem p es l e : e ∈ overlay p es l → e ∈ es ∨ e ∈ l.
Proof.
  unfold overlay. intros [Hin|[?|Hin]%elem_of_app]%elem_of_app; [right|by left|right];
    apply list_elem_of_lookup in Hin as [k Hk].
  - apply lookup_take_Some in Hk as [Hk _]. by eapply list_elem_of_lookup_2.
  - rewrite lookup_drop in Hk. by eapply list_elem_of_lookup_2.
Qed.

(** Entries that are the same wherever index and term are. *)
Definition one_per_slot (St : list LogEntry) : Prop :=
  ∀ e e', e ∈ St → e' ∈ St → logterm e = logterm e' → logindex e = logindex e' → e = e'.

(** A request built from entries that were created, in order. *)
Record sound_append (St : list LogEntry) (args : AppendEntriesArgs) : Prop := {
  sa_prev : 0 ≤ ae_prevlogindex args;
  sa_from : entries_from (ae_prevlogindex args + 1) (ae_entries args);
  sa_known : ∀ e, e ∈ ae_entries args → e ∈ St
}.

Lemma sound_acceptable St args n :
  one_per_slot St → tidy St n → m_lastSnapshotIncludeIndex n = 0 → sound_append St args →
  m_currentTerm n ≤ ae_term args → ae_prevlogindex args ≤ getLastLogIndex n →
  matchLog (ae_prevlogindex args) (ae_prevlogterm args) n = Ok true → acceptable args n.
Proof.
  intros Hone [] Hs [] Ht Hlast Hm. constructor; try done; [lia|].
  intros e local He Hl Hterm. f_equal. apply Hone; [|by apply sa_known0|done|].
  - unfold log_entry in Hl. case_decide; [|done]. by apply td_logs0, (list_elem_of_lookup_2 _ _ _ Hl).
  - by apply (log_ok_entry n).
Qed.

(** Where the reply to a refused request points. *)
Definition hint_ok (args : AppendEntriesArgs) (r : AppendEntriesReply) : Prop :=
  aer_success r = false → aer_updatenextindex r = -100 ∨
    aer_updatenextindex r ≤ ae_prevlogindex args.

Lemma ae_state_tidy St now args n : tidy St n → tidy St (ae_state now args n).
Proof.
  intros Hn. apply (tidy_adopt _ (ae_term args)) in Hn. by apply (tidy_frame _ (adopt_term (ae_term args) n)).
Qed.

(** A follower that answers with success has everything sent; it commits no more than the
    leader had. *)
Record obeys (args : AppendEntriesArgs) (n n' : node) (r : AppendEntriesReply) : Prop := {
  ob_success : aer_success r = true →
    ae_prevlogindex args + vsize (ae_entries args) ≤ getLastLogIndex n' ∧
    aer_term r = m_currentTerm n';
  ob_commit : m_commitIndex n' = m_commitIndex n ∨ m_commitIndex n' ≤ ae_leadercommit args
}.

Lemma AppendEntries1_tidy St now args n :
  one_per_slot St → tidy St n → m_lastSnapshotIncludeIndex n = 0 →
  m_commitIndex n ≤ getLastLogIndex n → sound_append St args →
  ∃ n' r, AppendEntries1 now args n = Ok (n', r) ∧ tidy St n' ∧ hint_ok args r ∧ obeys args n n' r.
Proof.
  intros Hone Hn Hs Hc Ha. pose proof Ha as [Hprev _ Hes].
  destruct (decide (ae_term args < m_currentTerm n)) as [|Ht].
  { rewrite AppendEntries1_stale by done. eexists _, _. split; [reflexivity|].
    split; [done|]. split; [intros _; by left|]. split; [done|by left]. }
  pose proof (ae_state_same_log now args n) as Hsame.
  destruct (ae_state_fields now args n) as (_ & Hcm & _).
  pose proof (same_log_last _ _ Hsame) as Hlast. pose proof (ae_state_tidy _ now args _ Hn) as Hn0.
  destruct (decide (ae_prevlogindex args ≤ getLastLogIndex n)) as [Hle|Hgt].
  2:{ rewrite AppendEntries1_checked by lia. unfold append_checked. rewrite Hlast. zbool.
      eexists _, _. split; [reflexivity|]. split; [by apply (tidy_frame _ (ae_state now args n))|].
      split; [intros _; right; upd_simpl; lia|]. split; [done|by left]. }
  destruct (matchLog_total n (ae_prevlogindex args) (ae_prevlogterm args)) as [b Hm]. destruct b.
  - assert (acceptable args n) as Hacc by (apply (sound_acceptable St); done || lia).
    destruct (AppendEntries1_accept_eq now args n (td_log _ _ Hn) Hc Hacc) as (-> & Hok & Hlast1).
    eexists _, _. split; [reflexivity|]. split; [|split; [done|split]].
    + apply (tidy_grow _ (ae_state now args n)); try done.
      * intros e [?|?]%overlay_elem; [by apply Hes|by apply (td_logs _ _ Hn)].
      * rewrite Hlast. etransitivity; [|apply Z.eq_le_incl, eq_sym, Hlast1]. lia.
    + intros _. split; [etransitivity; [|apply Z.eq_le_incl, eq_sym, Hlast1]; lia|].
      change (ae_term args = m_currentTerm (ae_state now args n)).
      destruct (ae_state_fields now args n) as (_ & _ & _ & _ & _ & _ & -> & _). lia.
    + change (let c := commit_after args (getLastLogIndex ((ae_state now args n) <| m_logs :=
        overlay (Z.to_nat (ae_prevlogindex args - m_lastSnapshotIncludeIndex n))
          (ae_entries args) (m_logs n) |>)) (m_commitIndex n) in
        c = m_commitIndex n ∨ c ≤ ae_leadercommit args).
      cbn zeta. unfold commit_after. destruct (_ <? _); [right; lia|by left].
  - rewrite AppendEntries1_checked by lia. unfold append_checked.
    rewrite (same_log_match _ _ _ _ Hsame), Hm, Hlast. destruct Hsame as (_ & Hs0 & _).
    rewrite Hs in Hs0. rewrite Hs0. zbool. cbn [mbind outcome_bind].
    destruct (conflict_index_spec (Z.to_nat (ae_prevlogindex args - 0 + 1))
      (ae_prevlogindex args) (ae_prevlogindex args) (ae_state now args n)) as (o & -> & Ho);
      [by rewrite Hs0|done|lia|]. eexists _, _. split; [reflexivity|].
    split; [by apply (tidy_frame _ (ae_state now args n))|]. split; [|split; [done|by left]].
    intros _. right. upd_simpl. destruct o as [h|]; cbn; [|lia]. destruct Ho as [Ho _]. lia.
Qed.

(** *** The leader's own steps *)

(** What a new entry does to one buffer. *)
Lemma addToPendingBatch_slot now e n k p :
  m_pendingEntries (addToPendingBatch now e n) !! k = Some p →
  ∃ q, m_pendingEntries n !! k = Some q ∧
    (Z.of_nat k = m_me n ∧ p = q ∨ Z.of_nat k ≠ m_me n ∧ entries p = entries q ++ [e]).
Proof.
  unfold addToPendingBatch. upd_simpl. rewrite list_lookup_imap.
  destruct (m_pendingEntries n !! k) as [q|]; [|done]. cbn. intros [= <-]. exists q.
  split; [done|]. destruct (Z.eqb_spec (Z.of_nat k) (m_me n)); [by left|right].
  split; [done|]. upd_simpl. by destruct (entries q) eqn:E; rewrite ?E; upd_simpl; rewrite ?E.
Qed.

Lemma last_app_new n e :
  getLastLogIndex (n <| m_logs := m_logs n ++ [e] |>) = getLastLogIndex n + 1.
Proof.
  unfold getLastLogIndex. upd_simpl. rewrite vsize_app. change (vsize [e]) with 1. lia.
Qed.

(** A leader puts an entry at the end of its log and into the buffers. *)
Lemma tidy_new_entry St now e n :
  tidy St n → m_status n = Leader → logindex e = getLastLogIndex n + 1 →
  tidy (e :: St) (addToPendingBatch now e (persist (n <| m_logs := m_logs n ++ [e] |>))).
Proof.
  intros [Hok Hlogs Hbuf Hcons Hends Hmatch Hnext] Hst Hidx.
  set (n1 := persist _). assert (getLastLogIndex n1 = getLastLogIndex n + 1) as Hlast
    by apply (last_app_new n e).
  constructor; change (getLastLogIndex (addToPendingBatch _ _ _)) with (getLastLogIndex n1);
    rewrite ?Hlast.
  - intros k x Hx. change ((m_logs n ++ [e]) !! k = Some x) in Hx.
    change (logindex x = m_lastSnapshotIncludeIndex n + 1 + Z.of_nat k).
    apply lookup_app_Some in Hx as [Hx|[Hk Hx]]; [by apply Hok|].
    destruct (k - length (m_logs n))%nat as [|] eqn:E; [|done]. injection Hx as <-.
    rewrite Hidx. unfold getLastLogIndex, vsize. lia.
  - intros x Hx. change (x ∈ m_logs n ++ [e]) in Hx. set_solver.
  - intros p x [k Hk]%list_elem_of_lookup Hx.
    apply addToPendingBatch_slot in Hk as (q & Hq & Hcase).
    apply list_elem_of_lookup_2 in Hq. assert (x ∈ entries q ∨ x = e) as [Hxq| ->];
      [|destruct (Hbuf q x Hq Hxq); split; [by right|lia]|split; [left|lia]].
    destruct Hcase as [[_ ->]|[_ Heq]]; [by left|]. rewrite Heq in Hx. set_solver.
  - intros p [k Hk]%list_elem_of_lookup.
    apply addToPendingBatch_slot in Hk as (q & Hq & [[_ ->]|[Hne ->]]);
      pose proof (list_elem_of_lookup_2 _ _ _ Hq) as Hin; [by apply Hcons|].
    apply consecutive_snoc; [by apply Hcons|]. intros x Hx. rewrite Hidx.
    by rewrite (Hends Hst k q x Hq Hne Hx).
  - intros _ k p x Hk Hne Hx.
    apply addToPendingBatch_slot in Hk as (q & Hq & [[? _]|[_ Heq]]); [done|].
    rewrite Heq, last_snoc in Hx. injection Hx as <-. exact Hidx.
  - eapply Forall_impl; [exact Hmatch|]. cbn. lia.
  - eapply Forall_impl; [exact Hnext|]. cbn. lia.
Qed.

Lemma Start_tidy St now op n n' i :
  tidy St n → Start now op n = (n', i, true) →
  tidy (mkLogEntry (encodeOp op) (m_currentTerm n) i :: St) n'.
Proof.
  intros Hn. unfold Start. destruct (bool_decide (m_status n = Leader)) eqn:Hst; [|discriminate].
  cbn [negb]. cbn zeta. b2p. intros H. injection H as <- <-. by apply tidy_new_entry.
Qed.

(** What [batchSenderLoop] may hold: created entries in order, all within the log. *)
Definition sound_batch (St : list LogEntry) (last : Z) (es : list LogEntry) : Prop :=
  consecutive es ∧ ∀ e, e ∈ es → e ∈ St ∧ logindex e ≤ last.

Lemma batch_collect_tidy St now1 now2 n :
  tidy St n → tidy St (batch_collect now1 now2 n).1 ∧
  ∀ j es, (j, es) ∈ (batch_collect now1 now2 n).2 → sound_batch St (getLastLogIndex n) es.
Proof.
  intros Hn. pose proof Hn as [Hok Hlogs Hbuf Hcons Hends Hmatch Hnext]. unfold batch_collect.
  pose proof (batch_collect_from_spec 0 (m_me n) now1 now2 (m_pendingEntries n)) as Hspec.
  destruct (batch_collect_from _ _ _ _ _) as [ps out]. destruct Hspec as (Hlen & Hps & Hout).
  assert (∀ k p, ps !! k = Some p → ∃ q, m_pendingEntries n !! k = Some q ∧
    (entries p = [] ∨ p = q)) as Hslot.
  { intros k p Hk. pose proof (lookup_lt_Some _ _ _ Hk) as Hlt. rewrite Hlen in Hlt.
    apply lookup_lt_is_Some_2 in Hlt as [q Hq]. exists q. split; [done|].
    specialize (Hps k q Hq). rewrite Hk in Hps. injection Hps as ->. case_match; [by left|by right]. }
  cbn [fst snd]. split.
  - constructor; upd_simpl; try done.
    + intros p e [k Hk]%list_elem_of_lookup He. apply Hslot in Hk as (q & Hq & [Hnil| ->]).
      * rewrite Hnil in He. by apply not_elem_of_nil in He.
      * by apply (Hbuf q e); [eapply list_elem_of_lookup_2|].
    + intros p [k Hk]%list_elem_of_lookup. apply Hslot in Hk as (q & Hq & [->| ->]); [done|].
      by eapply Hcons, list_elem_of_lookup_2.
    + intros Hst k p e Hk Hne He. apply Hslot in Hk as (q & Hq & [Hnil| ->]);
        [by rewrite Hnil in He|]. by apply (Hends Hst k q e).
  - intros j es (k & p & Hp & -> & -> & _)%Hout. apply list_elem_of_lookup_2 in Hp.
    split; [by apply Hcons|]. intros e He. by apply (Hbuf p).
Qed.

Lemma batch_request_sound St es n args :
  0 ≤ getLastLogIndex n → (∀ e, e ∈ es → 0 < logindex e) → sound_batch St (getLastLogIndex n) es →
  batch_request es n = Ok (Some args) →
  sound_append St args ∧ ae_prevlogindex args + vsize (ae_entries args) ≤ getLastLogIndex n.
Proof.
  intros Hlast Hpos [Hcons Hes]. destruct es as [|e es]; [done|]. cbn [batch_request].
  intros H. inv_ok. subst args. cbn [ae_prevlogindex ae_entries].
  pose proof (consecutive_from e es Hcons) as Hfrom. split.
  - constructor; cbn [ae_prevlogindex ae_entries].
    + pose proof (Hpos e (list_elem_of_here _ _)). lia.
    + by replace (logindex e - 1 + 1) with (logindex e) by lia.
    + intros y Hy. by apply Hes.
  - destruct (last (e :: es)) as [y|] eqn:Hy; [|by apply last_None in Hy].
    pose proof (entries_from_last _ _ _ Hfrom Hy).
    apply last_Some_elem_of, Hes in Hy. lia.
Qed.

(** *** Replies *)

Lemma tryUpdateCommitIndex_tidy St args a n :
  m_commitIndex n ≤ getLastLogIndex n →
  ae_prevlogindex args + vsize (ae_entries args) ≤ getLastLogIndex n → tidy St n →
  ∃ n' a', tryUpdateCommitIndex args a n = Ok (n', a') ∧ tidy St n'.
Proof.
  intros Hc Hlast Hn. unfold tryUpdateCommitIndex. destruct (_ <? _); [by eexists _, _|].
  cbn zeta. assert (∀ c, c ≤ getLastLogIndex n →
    ∃ n' a', (_ ← myAssert (m_commitIndex (n <| m_commitIndex := c |>) <=?
        getLastLogIndex (n <| m_commitIndex := c |>)) "m_commitIndex > lastLogIndex";
      Ok (n <| m_commitIndex := c |>, 0)) = Ok (n', a') ∧ tidy St n') as Hset.
  { intros c Hle. change (getLastLogIndex (n <| m_commitIndex := c |>)) with (getLastLogIndex n).
    upd_simpl. zbool. eexists _, _. split; [reflexivity|]. by apply (tidy_frame _ n). }
  pose proof (Hset (m_commitIndex n) Hc) as Hsame.
  replace (n <| m_commitIndex := m_commitIndex n |>) with n in Hsame by (by destruct n).
  destruct (last (ae_entries args)) as [e|]; [|exact Hsame].
  destruct (_ =? _); [|exact Hsame]. apply Hset. lia.
Qed.

Lemma handleLogMismatch_tidy St p r args n :
  vectors_ok n → 0 ≤ p < Z.of_nat (m_peers_size n) → m_lastSnapshotIncludeIndex n = 0 →
  ae_prevlogindex args + vsize (ae_entries args) ≤ getLastLogIndex n →
  aer_success r = false → hint_ok args r → tidy St n →
  ∃ n', handleLogMismatch p r n = Ok n' ∧ tidy St n'.
Proof.
  intros [Hlen _] Hp Hs Hlast Hr Hhint Hn. unfold handleLogMismatch.
  destruct (Z.eqb_spec (aer_updatenextindex r) (-100)); cbn [negb]; [by eexists|].
  destruct (Hhint Hr) as [?|Hle]; [done|]. cbn zeta. unfold vec_set. rewrite decide_True by lia.
  cbn [mbind outcome_bind]. eexists. split; [reflexivity|].
  pose proof (last_nonneg n Hs). pose proof (vsize_nonneg (ae_entries args)).
  apply (tidy_frame _ (n <| m_matchIndex := m_matchIndex n |>
    <| m_nextIndex := <[Z.to_nat p := if (if aer_updatenextindex r <? 1 then 1
      else aer_updatenextindex r) <=? m_lastSnapshotIncludeIndex n
      then m_lastSnapshotIncludeIndex n + 1 else if aer_updatenextindex r <? 1 then 1
      else aer_updatenextindex r]> (m_nextIndex n) |>)); try done.
  apply tidy_slots; [done|apply Hn|]. apply Forall_insert; [apply Hn|]. rewrite Hs.
  destruct (aer_updatenextindex r <? 1) eqn:E; [cbn; lia|]. b2p.
  destruct (_ <=? 0); lia.
Qed.

Lemma sendAppendEntries_tidy St p args rpc a n :
  vectors_ok n → 0 ≤ p < Z.of_nat (m_peers_size n) → m_lastSnapshotIncludeIndex n = 0 →
  m_commitIndex n ≤ getLastLogIndex n → tidy St n →
  ae_prevlogindex args + vsize (ae_entries args) ≤ getLastLogIndex n →
  (∀ r, rpc = Some r → hint_ok args r) →
  ∃ n' a' b, sendAppendEntries p args rpc a n = Ok (n', a', b) ∧ tidy St n'.
Proof.
  intros Hv Hp Hs Hc Hn Hlast Hhint. unfold sendAppendEntries.
  destruct (callAppendEntriesRpc rpc) as [r|] eqn:Hr; [|by eexists _, _, _].
  assert (rpc = Some r) as Hrpc.
  { unfold callAppendEntriesRpc in Hr. destruct rpc; [|done]. case_match; congruence. }
  specialize (Hhint r Hrpc). clear Hr Hrpc. unfold handleTermMismatch.
  destruct (Z.ltb_spec (m_currentTerm n) (aer_term r)).
  { eexists _, _, _. split; [reflexivity|]. by apply (tidy_frame _ n). }
  destruct (Z.ltb_spec (aer_term r) (m_currentTerm n)); [by eexists _, _, _|].
  destruct (negb (isStillLeader n)); [by eexists _, _, _|].
  replace (aer_term r =? m_currentTerm n) with true by (symmetry; apply Z.eqb_eq; lia).
  cbn [myAssert mbind outcome_bind]. destruct (aer_success r) eqn:Hsucc; cbn [negb].
  - destruct (updatePeerSyncState_spec p args a n Hv Hp Hlast)
      as (old & pipe & acked & Hold & _ & Hrun).
    pose proof (td_match _ _ Hn) as Hm. rewrite Forall_lookup in Hm. apply Hm in Hold.
    cbn zeta in Hrun. rewrite Hrun by lia. cbn [mbind outcome_bind].
    set (m := Z.max old _) in *. set (n1 := _ <| m_total_batches_acked := acked |>).
    assert (tidy St n1) as Hn1.
    { apply (tidy_frame _ (acknowledged p m n)); try done. apply tidy_slots; [done|..];
        apply Forall_insert; try apply Hn; lia. }
    destruct (tryUpdateCommitIndex_tidy St args (a + 1) n1) as (n2 & a2 & -> & Hn2); try done.
    cbn [mbind outcome_bind]. by eexists _, _, _.
  - destruct (handleLogMismatch_tidy St p r args n) as (n1 & -> & Hn1); try done.
    cbn [mbind outcome_bind]. by eexists _, _, _.
Qed.
(** *** Restarting *)

Lemma restarted_tidy St n n' :
  m_lastSnapshotIncludeIndex n = 0 → tidy St n → restarted n n' → tidy St n'.
Proof.
  intros Hs [Hok Hlogs _ _ _ _ _] [].
  assert (m_logs n' = m_logs n) as Hl.
  { apply list_eq. intros k. apply (f_equal (lookup k)) in rs_log.
    rewrite !list_lookup_fmap in rs_log.
    destruct (m_logs n' !! k) as [e'|] eqn:He', (m_logs n !! k) as [e|] eqn:He; try done.
    pose proof (rs_numbered _ _ He'). pose proof (Hok _ _ He). cbn in rs_log.
    injection rs_log as ? ?. destruct e, e'; cbn in *. do 2 f_equal; congruence || lia. }
  assert (0 ≤ getLastLogIndex n') by (apply last_nonneg; congruence).
  constructor; rewrite ?Hl, ?rs_match, ?rs_next; try done.
  - intros p e Hp. rewrite (rs_pending p Hp). by intros ?%not_elem_of_nil.
  - intros p Hp. by rewrite (rs_pending p Hp).
  - by rewrite rs_status.
  - apply Forall_replicate. lia.
  - apply Forall_replicate. lia.
Qed.
End tidy.
