(* ===== verification/RaftCommit.v ===== *)
(** What each handler does to the commit index: only a leader that gets an answer and a
    follower that takes a request move it, and this file says where to. *)
From S2P Require Import Prelude OpCoder Persister RaftTypes RaftLog RaftElection.
From S2P Require Import RaftReplication RaftPipeline RaftSteps RaftBounds ClusterSafe.
Open Scope Z_scope.

#[local] Arguments upd : simpl never.

Section same_commit.
Context `{Ar : BoostArchive}.

Definition same_commit (n n' : node) : Prop := m_commitIndex n' = m_commitIndex n.

#[local] Instance same_commit_preorder : PreOrder same_commit.
Proof. split; [done|]. unfold same_commit. intros a b c. congruence. Qed.

Lemma adopt_commit t n : same_commit n (adopt_term t n).
Proof. unfold adopt_term. by case_match. Qed.

Lemma RequestVote1_commit now args n n' r :
  RequestVote1 now args n = Ok (n', r) → same_commit n n'.
Proof.
  destruct (RequestVote1_eq now args n) as [vs ->]. intros [<- _]%Ok_inj2.
  pose proof (adopt_commit (rv_term args) n). by destruct (grants args n).
Qed.

Lemma doElection_begin_commit now n n' args :
  doElection_begin now n = Some (n', args) → same_commit n n'.
Proof.
  unfold doElection_begin. destruct (bool_decide _); [done|]. cbn zeta. by intros [= <- _].
Qed.

Lemma election_peer_commit reply i n v n' v' :
  vectors_ok n → 0 ≤ v + 1 < 2 ^ 64 →
  election_peer (λ _, reply) i (n, v) = Ok (n', v') → same_commit n n'.
Proof.
  intros Hv Hsmall. unfold election_peer.
  destruct (i =? m_me n); [by intros [<- _]%Ok_inj2|].
  rewrite sendRequestVote_eq by done. destruct reply as [r|]; [|by intros [<- _]%Ok_inj2].
  destruct (_ <? _); [by intros [<- _]%Ok_inj2|].
  destruct (_ && _); [|by intros [<- _]%Ok_inj2].
  destruct (_ <=? _); [|by intros [<- _]%Ok_inj2].
  destruct (bool_decide (m_status n = Leader)); [done|]. intros [<- _]%Ok_inj2.
  by destruct (leader_state_fields n) as (_ & _ & _ & _ & _ & _ & ? & _).
Qed.

Lemma doHeartBeat_commit now n n' out :
  vectors_ok n → doHeartBeat now n = Ok (n', out) →
  same_commit n n' ∧ ∀ p args, OutAppend p args ∈ out → ae_leadercommit args = m_commitIndex n.
Proof.
  intros Hv. destruct (decide (m_status n = Leader)) as [Hst|Hst].
  - destruct (doHeartBeat_eq now n Hv Hst) as (v & -> & _). intros [<- <-]%Ok_inj2.
    split; [done|]. intros p args (j & Hj & _)%list_elem_of_fmap. unfold heartbeat_message in Hj.
    case_match; [discriminate Hj|]. by injection Hj as _ ->.
  - unfold doHeartBeat. rewrite bool_decide_eq_false_2 by done. intros [<- <-]%Ok_inj2.
    split; [done|]. by intros ? ? ?%not_elem_of_nil.
Qed.

Lemma Start_commit now op n n' i b : Start now op n = (n', i, b) → same_commit n n'.
Proof. unfold Start. destruct (negb _); by intros [= <- _ _]. Qed.

Lemma batch_collect_commit now1 now2 n :
  same_commit n (batch_collect now1 now2 n).1 ∧
  ∀ p es, (p, es) ∈ (batch_collect now1 now2 n).2 → p ≠ m_me n.
Proof.
  unfold batch_collect.
  pose proof (batch_collect_from_spec 0 (m_me n) now1 now2 (m_pendingEntries n)) as Hspec.
  destruct (batch_collect_from _ _ _ _ _) as [ps out]. split; [done|].
  destruct Hspec as (_ & _ & Hout). intros p es (k & q & _ & _ & _ & Hc)%Hout.
  unfold collected in Hc. by destruct (Z.eqb_spec p (m_me n)).
Qed.

Lemma batch_request_commit es n args :
  batch_request es n = Ok (Some args) → ae_leadercommit args = m_commitIndex n ∧ es ≠ [].
Proof. unfold batch_request. destruct es; [done|]. intros H. inv_ok. by subst. Qed.

Lemma applier_commit n n' :
  m_lastSnapshotIncludeIndex n ≤ m_lastApplied n → m_commitIndex n ≤ getLastLogIndex n →
  applierTicker_round n = Ok n' → same_commit n n'.
Proof.
  intros Hs Hc. destruct (applier_round_spec n Hs Hc) as (ms & -> & _). intros H. by injection H as <-.
Qed.

Lemma updatePeerSyncState_same_commit p args a n n' a' :
  updatePeerSyncState p args a n = Ok (n', a') →
  same_commit n n' ∧ a' = a + 1 ∧ m_peers_size n' = m_peers_size n ∧
  m_currentTerm n' = m_currentTerm n.
Proof.
  unfold updatePeerSyncState, handlePipelineResponse, slidePipelineWindow. intros H. inv_ok.
  subst. destruct (0 <? _); inv_ok; by subst.
Qed.

(** A successful reply commits only what it acknowledges, and only as the one that completes
    a majority of the counter it shares. *)
Lemma tryUpdateCommitIndex_commit args a n n' a' :
  tryUpdateCommitIndex args a n = Ok (n', a') →
  same_commit n n' ∨
  (Z.of_nat (m_peers_size n) / 2 + 1 ≤ to_size_t a ∧
   (∃ e, e ∈ ae_entries args ∧ logterm e = m_currentTerm n) ∧
   m_commitIndex n' = Z.max (m_commitIndex n) (ae_prevlogindex args + vsize (ae_entries args))).
Proof.
  unfold tryUpdateCommitIndex. destruct (Z.ltb_spec (to_size_t a) (Z.of_nat (m_peers_size n) / 2 + 1)).
  { intros [= <- _]. by left. }
  intros H'. inv_ok. subst. destruct (last (ae_entries args)) as [e|] eqn:He; [|by left].
  destruct (Z.eqb_spec (logterm e) (m_currentTerm n)); [right|by left]. split; [done|].
  split; [|done]. exists e. split; [by apply last_Some_elem_of|done].
Qed.

Lemma sendAppendEntries_commit p args rpc a n n' a' b :
  sendAppendEntries p args rpc a n = Ok (n', a', b) →
  same_commit n n' ∨
  (Z.of_nat (m_peers_size n) / 2 + 1 ≤ to_size_t (a + 1) ∧
   (∃ e, e ∈ ae_entries args ∧ logterm e = m_currentTerm n) ∧
   m_commitIndex n' = Z.max (m_commitIndex n) (ae_prevlogindex args + vsize (ae_entries args)) ∧
   ∃ r, rpc = Some r ∧ aer_success r = true ∧ aer_term r = m_currentTerm n).
Proof.
  unfold sendAppendEntries. destruct (callAppendEntriesRpc rpc) as [r|] eqn:Hrpc; [|by intros [= <- _ _]; left].
  assert (rpc = Some r) as ->.
  { unfold callAppendEntriesRpc in Hrpc. destruct rpc; [|done]. case_match; congruence. }
  assert (same_commit n (handleTermMismatch (aer_term r) n).1 ∧
    ((handleTermMismatch (aer_term r) n).2 = false → (handleTermMismatch (aer_term r) n).1 = n))
    as [Hm Hs] by (unfold handleTermMismatch; by repeat case_match).
  destruct (handleTermMismatch _ n) as [m stop]. cbn [fst snd] in Hm, Hs.
  destruct stop; [by intros [= <- _ _]; left|]. specialize (Hs eq_refl) as ->. destruct (negb (isStillLeader n)); [by intros [= <- _ _]; left|].
  intros H. inv_ok. destruct (aer_success r) eqn:Hsucc; cbn [negb] in H.
  - inv_ok. destruct x0 as [n1 a1]. inv_ok. destruct x0 as [n2 a2]. inv_ok. subst.
    apply updatePeerSyncState_same_commit in Hx0 as (H1 & -> & Hs1 & Ht1).
    apply tryUpdateCommitIndex_commit in Hx1 as [H2|(Hmaj & Hes & H2)]; unfold same_commit in *.
    + left. congruence.
    + right. rewrite Hs1 in Hmaj. rewrite Ht1 in Hes. split; [done|]. split; [done|].
      split; [congruence|]. exists r. split; [done|]. split; [done|].
      destruct (Z.eqb_spec (aer_term r) (m_currentTerm n)); [done|discriminate Hx].
  - inv_ok. subst. left. unfold handleLogMismatch in *. destruct (negb (_ =? _)); inv_ok; by subst.
Qed.
End same_commit.

