(* ===== verification/ClusterClean.v ===== *)
(** Runs in which every new leader has empty buffers, as all would be if the program
    cleared [m_pendingEntries] on a change of role: in those runs the logs are well formed,
    an index and a term determine the entry on every server, and no assertion fails. *)
From S2P Require Import Prelude OpCoder Persister RaftTypes RaftLog RaftElection.
From S2P Require Import RaftReplication RaftPipeline RaftSteps Cluster ClusterLog ClusterRun.
From S2P Require Import RaftBounds ClusterSafe RaftTidy.
Open Scope Z_scope.

#[local] Arguments upd : simpl never.

Section clean.
Context `{Ar : BoostArchive}.
Variable N : nat.

(** Servers that become leader in the step have nothing left to send. *)
Definition fresh_leaders (c c' : cluster) : Prop :=
  ∀ i n n', c_servers c !! i = Some n → c_servers c' !! i = Some n' →
    m_status n ≠ Leader → m_status n' = Leader →
    ∀ p, p ∈ m_pendingEntries n' → entries p = [].

Inductive clean_reachable : cluster → Prop :=
  | cr_start c : initial N c → clean_reachable c
  | cr_step c c' :
      clean_reachable c → cstep c c' → fresh_leaders c c' → clean_reachable c'.

Lemma clean_reachable_reachable c : clean_reachable c → reachable N c.
Proof.
  induction 1 as [c H|c c' _ (c0 & H0 & Hs) Hstep _]; [by exists c; split; [|constructor]|].
  exists c0. split; [done|]. by eapply steps_snoc.
Qed.

(** ** The invariant of clean runs *)

Record clean (c : cluster) : Prop := {
  cl_nodes : ∀ i n, c_servers c !! i = Some n → tidy (h_started c) n;
  cl_appends : ∀ j args, (j, args) ∈ c_appends c → sound_append (h_started c) args;
  cl_threads : ∀ t n, t ∈ c_threads c → c_servers c !! th_from t = Some n →
    ae_prevlogindex (th_args t) + vsize (ae_entries (th_args t)) ≤ getLastLogIndex n;
  cl_batch : ∀ i pc n p es, c_batch c !! i = Some pc → c_servers c !! i = Some n →
    (p, es) ∈ pc_batches pc → sound_batch (h_started c) (getLastLogIndex n) es;
  cl_replies : ∀ j args r, (j, args, r) ∈ c_append_replies c → hint_ok args r
}.

Lemma clean_frame c c' :
  c_servers c' = c_servers c → h_started c' = h_started c →
  (∀ m, m ∈ c_appends c' → m ∈ c_appends c) → (∀ t, t ∈ c_threads c' → t ∈ c_threads c) →
  (∀ i pc, c_batch c' !! i = Some pc → c_batch c !! i = Some pc) →
  c_append_replies c' = c_append_replies c → clean c → clean c'.
Proof.
  intros Hs Hst Ha Ht Hb Hr []. constructor; rewrite ?Hs, ?Hst, ?Hr; eauto.
Qed.

(** One server moves on, its log growing. *)
Lemma clean_server i n n' c :
  clean c → c_servers c !! i = Some n → tidy (h_started c) n' →
  getLastLogIndex n ≤ getLastLogIndex n' → clean (set_server i n' c).
Proof.
  intros [] Hi Hn Hlast. constructor; try done.
  - intros j m. rewrite lookup_set_server. case_decide; [by intros [= <-]|apply cl_nodes0].
  - intros t m Ht. rewrite lookup_set_server. case_decide; [|by apply cl_threads0].
    intros [= <-]. subst. pose proof (cl_threads0 t n Ht Hi). lia.
  - intros j pc m p es Hb. rewrite lookup_set_server. case_decide; [|by eapply cl_batch0].
    intros [= <-] Hin. subst. destruct (cl_batch0 _ _ _ _ _ Hb Hi Hin) as [? Hes].
    split; [done|]. intros e He. destruct (Hes e He). split; [done|lia].
Qed.

(** More entries have been created. *)
Lemma clean_started e c : clean c → clean (c <| h_started := e :: h_started c |>).
Proof.
  intros []. constructor; upd_simpl; try done.
  - intros i n Hi. eapply tidy_mono; [|by eapply cl_nodes0]. set_solver.
  - intros j args Hj. destruct (cl_appends0 j args Hj). constructor; try done. set_solver.
  - intros i pc n p es Hb Hi Hin. destruct (cl_batch0 _ _ _ _ _ Hb Hi Hin) as [? Hes].
    split; [done|]. intros x Hx. destruct (Hes x Hx). set_solver.
Qed.

(** New threads and their requests. *)
Lemma clean_threads ts ks c :
  clean c →
  (∀ t, t ∈ ts → sound_append (h_started c) (th_args t) ∧ ∃ n, c_servers c !! th_from t = Some n ∧
     ae_prevlogindex (th_args t) + vsize (ae_entries (th_args t)) ≤ getLastLogIndex n) →
  clean (c <| c_counters := ks |> <| c_threads := c_threads c ++ ts |>
           <| c_appends := c_appends c ++ sent ts |>).
Proof.
  intros [] Hts. constructor; upd_simpl; try done.
  - intros j args [?|Hin]%elem_of_app; [by eapply cl_appends0|].
    apply list_elem_of_fmap in Hin as (t & Heq & Ht). injection Heq as -> ->. by apply Hts.
  - intros t n [?|Ht]%elem_of_app Hn; [by eapply cl_threads0|].
    destruct (Hts t Ht) as (_ & m & Hm & Hle). rewrite Hn in Hm. by injection Hm as ->.
Qed.

Lemma clean_set_batch i n pc c :
  clean c → c_servers c !! i = Some n →
  (∀ p es, (p, es) ∈ pc_batches pc → sound_batch (h_started c) (getLastLogIndex n) es) →
  clean (c <| c_batch := <[i := pc]> (c_batch c) |>).
Proof.
  intros [] Hi Hpc. constructor; upd_simpl; try done.
  intros j pc' m p es [[<- <-]|[_ Hb]]%lookup_insert_Some Hm Hin; [|by eapply cl_batch0].
  rewrite Hi in Hm. injection Hm as <-. by eapply Hpc.
Qed.

Lemma spawn_elem i k out t :
  t ∈ spawn i k out → th_from t = i ∧ OutAppend (th_to t) (th_args t) ∈ out.
Proof.
  unfold spawn. intros (o & Ho & Hm)%list_elem_of_omap. destruct o; [|discriminate Hm].
  by injection Hm as <-.
Qed.

Context `{!BoostArchiveLaws Ar}.

(** What is known of a server of a reachable cluster. *)
Lemma reachable_node c i n :
  Z.of_nat N < 2 ^ 62 → reachable N c → c_servers c !! i = Some n →
  vectors_ok n ∧ m_lastSnapshotIncludeIndex n = 0 ∧ m_commitIndex n ≤ getLastLogIndex n ∧
  m_peers_size n = N ∧ 0 ≤ getLastLogIndex n.
Proof.
  intros HN Hr Hi. destruct (reachable_binv N c HN Hr) as [Hc [k B]].
  destruct (ci_nodes _ _ Hc _ _ Hi) as [_ _ Hsize Hv _ Hs].
  pose proof (nl_committed _ _ _ (bi_nodes _ _ _ B _ _ Hi)).
  split; [done|]. split; [done|]. split; [done|]. split; [done|]. by apply last_nonneg.
Qed.

Lemma created_once c : Z.of_nat N < 2 ^ 62 → reachable N c → one_per_slot (h_started c).
Proof. intros HN Hr e e'. destruct (reachable_inv N c HN Hr) as [_ L]. apply (li_once _ L). Qed.

Lemma clean_vote_reply i n rd j l o n' v' c h :
  Z.of_nat N < 2 ^ 62 → reachable N c → clean c → c_servers c !! i = Some n →
  c_rounds c !! i = Some rd → rd_left rd = j :: l →
  election_peer (λ _, o) j (n, rd_votes rd) = Ok (n', v') →
  fresh_leaders c (set_server i n' c) →
  clean ((set_server i n' c) <| c_rounds := <[i := mkRound (rd_args rd) l v']> (c_rounds c) |>
           <| h_elected := h |>).
Proof.
  intros HN Hr L Hi Hrd Hleft Hrun Hfresh.
  destruct (reachable_node c i n HN Hr Hi) as (Hv & Hs & _ & _ & _).
  pose proof (round_votes_bound N c i rd HN Hr Hrd).
  destruct (election_peer_tidy (h_started c) o j n (rd_votes rd) n' v') as [Hn' Hlast]; try done.
  - lia.
  - by eapply cl_nodes.
  - apply (Hfresh i n n'); [done|]. rewrite lookup_set_server. by rewrite decide_True.
  - by apply (clean_frame (set_server i n' c)); [..|by apply (clean_server i n n' c)].
Qed.

Lemma clean_append j n args now n' r c :
  Z.of_nat N < 2 ^ 62 → reachable N c → clean c → (j, args) ∈ c_appends c →
  c_servers c !! j = Some n → AppendEntries1 now args n = Ok (n', r) →
  clean ((set_server j n' c) <| c_append_replies := (j, args, r) :: c_append_replies c |>).
Proof.
  intros HN Hr L Hin Hj Hrun. destruct (reachable_node c j n HN Hr Hj) as (Hv & Hs & Hcm & _ & _).
  destruct (AppendEntries1_tidy (h_started c) now args n) as (n1 & r1 & Hrun1 & Hn1 & Hhint & _);
    [by apply created_once|by eapply cl_nodes|done|done|by eapply cl_appends|].
  rewrite Hrun in Hrun1. apply Ok_inj2 in Hrun1 as [-> ->].
  apply AppendEntries1_quiet, quiet_last in Hrun.
  pose proof (clean_server j n n1 c L Hj Hn1 Hrun) as []. constructor; upd_simpl; try done.
  intros j' args' r' [Heq|?]%elem_of_cons; [by injection Heq as -> -> ->|by eapply cl_replies0].
Qed.

(** A reply that a thread goes on with. *)
Lemma reply_sound c t n o a :
  Z.of_nat N < 2 ^ 62 → reachable N c → clean c → t ∈ c_threads c →
  c_servers c !! th_from t = Some n → received (c_append_replies c) (th_to t) (th_args t) o →
  ∃ n' a' b, sendAppendEntries (th_to t) (th_args t) o a n = Ok (n', a', b) ∧
    tidy (h_started c) n'.
Proof.
  intros HN Hr L Ht Hi Hrec. destruct (reachable_node c _ n HN Hr Hi) as (Hv & Hs & Hcm & Hsize & _).
  destruct (reachable_binv N c HN Hr) as [_ [k B]].
  pose proof (bi_threads _ _ _ B) as Hts. rewrite Forall_forall in Hts.
  destruct (Hts t Ht) as [Hp _]. unfold peer in Hp. rewrite <- Hsize in Hp.
  apply sendAppendEntries_tidy; try done; [by eapply cl_nodes|by eapply cl_threads|].
  intros r ->. by eapply cl_replies.
Qed.

Lemma clean_append_reply n l1 t l2 o a n' a' b ks c :
  Z.of_nat N < 2 ^ 62 → reachable N c → clean c →
  c_threads c = l1 ++ t :: l2 → c_servers c !! th_from t = Some n →
  received (c_append_replies c) (th_to t) (th_args t) o →
  sendAppendEntries (th_to t) (th_args t) o a n = Ok (n', a', b) →
  clean ((set_server (th_from t) n' c) <| c_threads := l1 ++ l2 |> <| c_counters := ks |>).
Proof.
  intros HN Hr L Hth Hi Hrec Hrun. destruct (reply_sound c t n o a HN Hr L) as (n1 & a1 & b1 & Hrun1 & Hn1);
    [rewrite Hth; set_solver|done|done|]. rewrite Hrun in Hrun1. injection Hrun1 as <- _ _.
  apply sendAppendEntries_quiet, quiet_last in Hrun.
  apply (clean_frame (set_server (th_from t) n' c)); try done.
  - intros t' Ht'. change (t' ∈ l1 ++ l2) in Ht'. change (t' ∈ c_threads c). rewrite Hth. set_solver.
  - by apply (clean_server _ n).
Qed.

Lemma clean_heartbeat i n now n' out sn c :
  Z.of_nat N < 2 ^ 62 → reachable N c → clean c → c_servers c !! i = Some n →
  doHeartBeat now n = Ok (n', out) →
  let ts := spawn i (length (c_counters c)) out in
  clean ((set_server i n' c) <| c_counters := c_counters c ++ [1] |>
           <| c_threads := c_threads c ++ ts |> <| c_appends := c_appends c ++ sent ts |>
           <| c_snap_threads := sn |>).
Proof.
  intros HN Hr L Hi Hrun ts. destruct (reachable_node c i n HN Hr Hi) as (Hv & Hs & _ & _ & _).
  destruct (doHeartBeat_tidy _ now n n' out Hv Hs (cl_nodes _ L _ _ Hi) Hrun) as [Hn' Hout].
  apply (doHeartBeat_quiet _ _ _ _ Hv), quiet_last in Hrun.
  pose proof (clean_server i n n' c L Hi Hn' Hrun) as L'.
  eapply clean_frame; [..|apply (clean_threads ts (c_counters c ++ [1]) _ L')]; try done.
  intros t (<- & Ht)%spawn_elem. destruct (Hout _ _ Ht) as [Hes Hprev]. split.
  - constructor; [lia| |]; rewrite Hes; [done|]. by intros e ?%not_elem_of_nil.
  - exists n'. rewrite lookup_set_server, decide_True by done. split; [done|].
    rewrite Hes. change (vsize []) with 0. lia.
Qed.

Lemma clean_build i n p es l args c :
  Z.of_nat N < 2 ^ 62 → reachable N c → clean c → c_servers c !! i = Some n →
  c_batch c !! i = Some (Building p es l) → batch_request es n = Ok (Some args) →
  let t := mkThread i p args (length (c_counters c)) in
  clean (c <| c_batch := <[i := Sending l]> (c_batch c) |>
           <| c_counters := c_counters c ++ [1] |> <| c_threads := c_threads c ++ [t] |>
           <| c_appends := c_appends c ++ sent [t] |>).
Proof.
  intros HN Hr L Hi Hb Hreq t. destruct (reachable_node c i n HN Hr Hi) as (_ & _ & _ & _ & Hlast).
  destruct (reachable_binv N c HN Hr) as [_ [k B]].
  pose proof (bi_batch _ _ _ B _ _ Hb) as [[_ [_ Hpos]] _]%Forall_cons_1.
  cbn [snd] in Hpos. rewrite Forall_forall in Hpos.
  destruct (batch_request_sound (h_started c) es n args) as [Hargs Hend]; try done.
  { intros e He. apply Hpos in He as [He _]. lia. }
  { eapply (cl_batch _ L); [done|done|]. by left. }
  assert (clean (c <| c_batch := <[i := Sending l]> (c_batch c) |>)) as L'.
  { eapply clean_set_batch; [done|done|]. intros q fs Hin. eapply (cl_batch _ L); [done|done|].
    by right. }
  eapply clean_frame; [..|apply (clean_threads [t] (c_counters c ++ [1]) _ L')]; try done.
  intros t' ->%list_elem_of_singleton. split; [done|]. by exists n.
Qed.

Lemma clean_collect i n now1 now2 c :
  clean c → c_servers c !! i = Some n →
  clean ((set_server i (batch_collect now1 now2 n).1 c)
           <| c_batch := <[i := Sending (batch_collect now1 now2 n).2]> (c_batch c) |>).
Proof.
  intros L Hi. pose proof (quiet_last _ _ _ (batch_collect_quiet now1 now2 n)) as Hle.
  destruct (batch_collect_tidy (h_started c) now1 now2 n (cl_nodes _ L _ _ Hi)) as [Hn' Hout].
  apply (clean_set_batch i (batch_collect now1 now2 n).1 _ (set_server i _ c)).
  - by apply (clean_server _ n).
  - by rewrite lookup_set_server, decide_True.
  - intros p es Hin. destruct (Hout p es Hin) as [? Hes]. split; [done|].
    intros e He. destruct (Hes e He). split; [done|lia].
Qed.

Lemma clean_restart i n n' c :
  Z.of_nat N < 2 ^ 62 → reachable N c → clean c → c_servers c !! i = Some n → restarted n n' →
  clean ((set_server i n' c)
    <| c_rounds := delete i (c_rounds c) |> <| c_batch := delete i (c_batch c) |>
    <| c_threads := filter (λ t, th_from t ≠ i) (c_threads c) |>
    <| c_snap_threads := filter (λ t, st_from t ≠ i) (c_snap_threads c) |>).
Proof.
  intros HN Hr L Hi Hrs. destruct (reachable_node c i n HN Hr Hi) as (_ & Hs & _).
  apply (clean_frame (set_server i n' c)); try done.
  - intros t Ht. by apply list_elem_of_filter in Ht as [_ ?].
  - intros j pc. upd_simpl. by intros [_ ?]%lookup_delete_Some.
  - apply (clean_server i n); [done|done| |by eapply quiet_last, restarted_quiet].
    eapply restarted_tidy; [done| |done]. by eapply cl_nodes.
Qed.

Lemma clean_start i n now op n' index c :
  clean c → c_servers c !! i = Some n → Start now op n = (n', index, true) →
  clean ((set_server i n' c)
    <| h_started := mkLogEntry (encodeOp op) (m_currentTerm n) index :: h_started c |>).
Proof.
  intros L Hi Hrun. set (e := mkLogEntry (encodeOp op) (m_currentTerm n) index).
  apply (clean_frame (set_server i n' (c <| h_started := e :: h_started c |>))); try done.
  apply (clean_server i n); [by apply clean_started|done| |].
  - eapply Start_tidy; [|done]. by eapply cl_nodes.
  - destruct (Start_accepted _ _ _ _ _ Hrun) as [Hq _]. by eapply quiet_last.
Qed.

(** Every step that makes no leader with entries left over keeps the invariant. *)
Lemma clean_step c c' :
  Z.of_nat N < 2 ^ 62 → reachable N c → clean c → cstep c c' → fresh_leaders c c' → clean c'.
Proof.
  intros HN Hr L Hstep Hfresh. destruct (reachable_binv N c HN Hr) as [Hc _].
  destruct (ci_snaps _ _ Hc) as [Hsnap Hinst].
  assert (∀ i n n', c_servers c !! i = Some n → quiet [] n n' → tidy (h_started c) n' →
    clean (set_server i n' c)) as Hset.
  { intros i n n' Hi Hq Hn'. apply (clean_server i n); [done|done|done|by eapply quiet_last]. }
  destruct Hstep as [ev Hstep]; destruct Hstep.
  - apply (clean_frame (set_server i n' c)); try done. eapply Hset; [done| |].
    + by eapply doElection_begin_result.
    + eapply doElection_begin_tidy; [|done]. by eapply cl_nodes.
  - by apply (clean_frame c).
  - apply (clean_frame (set_server j n' c)); try done. eapply Hset; [done| |].
    + by eapply RequestVote1_quiet.
    + eapply RequestVote1_tidy; [|done]. by eapply cl_nodes.
  - by eapply clean_vote_reply.
  - by apply (clean_frame c).
  - destruct isLeader.
    + by eapply clean_start.
    + apply Start_refused in H0 as ->. eapply (clean_frame (set_server i n c)); try done.
      eapply Hset; [done|reflexivity|by eapply cl_nodes].
  - by eapply clean_heartbeat.
  - by eapply clean_append.
  - by eapply clean_append_reply.
  - eapply clean_set_batch; [done|done|]. by intros p es ?%not_elem_of_nil.
  - eapply Hset; [done|apply batch_thread_quiet|]. apply (tidy_frame _ n); try done.
    by eapply cl_nodes.
  - by eapply clean_collect.
  - eapply clean_set_batch; [done|done|]. intros q fs Hin. apply (cl_batch _ L i _ n q fs H0 H).
    revert Hin. cbn [pc_batches]. case_match; cbn [pc_batches]; set_solver.
  - by eapply clean_build.
  - apply (clean_frame c); try done. intros j pc. upd_simpl. by intros [_ ?]%lookup_delete_Some.
  - eapply Hset; [done|by eapply applierTicker_round_quiet|].
    eapply applier_tidy; [|done]. by eapply cl_nodes.
  - rewrite Hsnap in H. by apply not_elem_of_nil in H.
  - rewrite Hinst in H. by apply not_elem_of_nil in H.
  - rewrite Hsnap in H. by destruct l1.
  - destruct (ci_nodes _ _ Hc _ _ H) as [_ _ _ _ Hd Hs].
    destruct (init_restarted n now Hd Hs) as (m & Hm & Hrs).
    rewrite H0 in Hm. injection Hm as <-. by eapply clean_restart.
Qed.

Lemma initial_clean c : initial N c → clean c.
Proof.
  intros (_ & Hinit & servers & ->). cbn in Hinit. constructor; cbn; try set_solver.
  intros i n Hi. destruct (Hinit i n Hi) as [now Hn]. unfold init in Hn. cbn in Hn.
  injection Hn as <-. constructor; cbn; try done; try (apply Forall_replicate; done).
  - intros p e [-> _]%elem_of_replicate. by intros ?%not_elem_of_nil.
  - by intros p [-> _]%elem_of_replicate.
Qed.

Lemma clean_reachable_clean c : Z.of_nat N < 2 ^ 62 → clean_reachable c → clean c.
Proof.
  intros HN. induction 1 as [c H|c c' Hc IH Hstep Hfresh]; [by apply initial_clean|].
  by eapply clean_step; [|apply clean_reachable_reachable| | |].
Qed.

(** C19: assertions.  In a run where every server that becomes leader has empty buffers,
    no handler that can run next ends the process: neither the assertions of
    [AppendEntries1] and [sendAppendEntries] nor any access outside a vector fails, in
    whatever order messages arrive, are lost or repeated, and wherever servers restart. *)
Theorem clean_runs_never_assert (c : cluster) (A : Type) (asserts : bool) (o : outcome A) :
  Z.of_nat N < 2 ^ 62 → clean_reachable c → handler_run c asserts o → is_ok o = true.
Proof.
  intros HN Hclean Hrun. pose proof (clean_reachable_reachable c Hclean) as Hr.
  pose proof (clean_reachable_clean c HN Hclean) as L.
  destruct (reachable_binv N c HN Hr) as [Hc [k B]]. destruct Hrun.
  - by destruct (RequestVote1_eq now args n) as [vs ->].
  - by eapply (vote_reply_total N).
  - by eapply doHeartBeat_total, reachable_node.
  - destruct (reachable_node c j n HN Hr H0) as (_ & Hs & Hcm & _).
    destruct (AppendEntries1_tidy (h_started c) now args n) as (n1 & r1 & -> & _); try done;
      [by apply created_once|by eapply cl_nodes|by eapply cl_appends].
  - by destruct (reply_sound c t n o a HN Hr L) as (n1 & a1 & b1 & -> & _).
  - apply batch_request_total.
  - by eapply (applier_total N), (bi_nodes _ _ _ B).
  - destruct (ci_snaps _ _ Hc) as [Hs _]. rewrite Hs in H. by apply not_elem_of_nil in H.
  - destruct (ci_nodes _ _ Hc _ _ H) as [_ _ _ _ Hd Hs].
    by destruct (init_restarted n now Hd Hs) as (m & -> & _).
Qed.

(** An entry of a log is numbered by its place and was created. *)
Lemma clean_entry c i n x e :
  clean c → c_servers c !! i = Some n → log_entry n x = Some e → logindex e = x ∧ e ∈ h_started c.
Proof.
  intros L Hi He. destruct (cl_nodes _ L _ _ Hi) as [Hok Hlogs _ _ _ _ _].
  split; [by eapply log_ok_entry|]. unfold log_entry in He. case_decide; [|done].
  by apply Hlogs, (list_elem_of_lookup_2 _ _ _ He).
Qed.

(** The entry at an index, on whichever server, is numbered by that index, was created by
    a leader, and is determined by its term. *)
Definition logs_agree (c : cluster) : Prop :=
  ∀ i n x e, c_servers c !! i = Some n → log_entry n x = Some e →
    logindex e = x ∧ e ∈ h_started c ∧
    ∀ j m e', c_servers c !! j = Some m → log_entry m x = Some e' → logterm e' = logterm e → e' = e.

(** C24: agreement of logs.  In a run where every server that becomes leader has empty
    buffers, every log is numbered by its positions and holds only entries that a leader
    created with that index, and where two servers have entries of one term at one index
    these are the same entry. *)
Theorem clean_logs_agree (c : cluster) :
  Z.of_nat N < 2 ^ 62 → clean_reachable c → logs_agree c.
Proof.
  intros HN Hclean i n x e Hi He. pose proof (clean_reachable_clean c HN Hclean) as L.
  destruct (clean_entry c i n x e L Hi He) as [Hx Hin]. split; [done|]. split; [done|].
  intros j m e' Hj He' Ht. destruct (clean_entry c j m x e' L Hj He') as [Hx' Hin'].
  apply (created_once c HN (clean_reachable_reachable c Hclean)); [done..|congruence].
Qed.
End clean.

(** ** Clean runs that execute *)

Section exec.
Context `{Ar : BoostArchive}.

Definition fresh_leader_b (c : cluster) (s : Z * node) : bool :=
  match c_servers c !! s.1 with
  | Some n => bool_decide (m_status n = Leader) || negb (bool_decide (m_status s.2 = Leader)) ||
      forallb (λ p, bool_decide (entries p = [])) (m_pendingEntries s.2)
  | None => true
  end.

Lemma fresh_leader_b_sound c c' :
  forallb (fresh_leader_b c) (map_to_list (c_servers c')) = true → fresh_leaders c c'.
Proof.
  intros H i n n' Hi Hi' Hst Hst' p Hp. apply elem_of_map_to_list in Hi'.
  rewrite forallb_forall in H. apply list_elem_of_In in Hi'. specialize (H _ Hi').
  unfold fresh_leader_b in H. cbn [fst snd] in H. rewrite Hi in H.
  rewrite bool_decide_eq_false_2, bool_decide_eq_true_2 in H by done. cbn [negb orb] in H.
  rewrite forallb_forall in H. apply list_elem_of_In in Hp. specialize (H _ Hp). by b2p.
Qed.

(** [run], stopping where a leader with entries left over is made. *)
Fixpoint run_clean (l : list action) (c : cluster) : option cluster :=
  match l with
  | [] => Some c
  | a :: l' =>
      c' ← exec a c;
      if forallb (fresh_leader_b c) (map_to_list (c_servers c')) then run_clean l' c' else None
  end.

Lemma run_clean_reachable N l c0 c :
  boot N = Some c0 → run_clean l c0 = Some c → clean_reachable N c.
Proof.
  intros H0%boot_initial. assert (clean_reachable N c0) as Hc by (by constructor). clear H0.
  revert c0 Hc. induction l as [|a l IH]; intros c0 Hc; cbn [run_clean]; [by intros [= <-]|].
  intros (c1 & H1%exec_step & H2)%bind_Some. case_match eqn:Hf; [|done].
  apply (IH c1); [|done]. by eapply cr_step, fresh_leader_b_sound.
Qed.
End exec.

(** Server 0 is elected, takes two commands and sends them; server 2 has taken both. *)
Definition replicated_run : list action := two_commands ++ batch_round 0 10 ++ [AAppend 1 11].
Definition replicated_cluster : option cluster :=
  c ← boot (Ar := bit_archive) 3; run_clean (Ar := bit_archive) replicated_run c.

Lemma replicated_clean c :
  replicated_cluster = Some c → clean_reachable (Ar := bit_archive) 3 c.
Proof. intros (c0 & H0 & H1)%bind_Some. by eapply run_clean_reachable. Qed.

Lemma clean_runs_never_assert_witness :
  match replicated_cluster with
  | Some c => ∃ j args n, c_appends c !! 0%nat = Some (j, args) ∧
      length (ae_entries args) = 2%nat ∧ c_servers c !! j = Some n ∧
      is_ok (AppendEntries1 (Ar := bit_archive) 12 args n) = true
  | None => False
  end.
Proof.
  destruct replicated_cluster as [c|] eqn:Hc; [|vm_compute in Hc; discriminate Hc].
  destruct (c_appends c !! 0%nat) as [[j args]|] eqn:Ha;
    [|vm_compute in Hc; injection Hc as <-; discriminate Ha].
  destruct (c_servers c !! j) as [n|] eqn:Hn.
  2:{ vm_compute in Hc. injection Hc as <-. injection Ha as <- <-. discriminate Hn. }
  exists j, args, n. split; [done|]. split; [|split; [done|]].
  - vm_compute in Hc. injection Hc as <-. injection Ha as <- <-. reflexivity.
  - apply (clean_runs_never_assert (Ar := bit_archive) 3 c _ true); [reflexivity| |].
    + by apply replicated_clean.
    + eapply hr_append; [|exact Hn]. by eapply list_elem_of_lookup_2.
Defined.

Lemma clean_logs_agree_witness :
  match replicated_cluster with
  | Some c => logs_agree c ∧ log_of 2 c = log_of 0 c ∧ length (log_of 2 c) = 2%nat
  | None => False
  end.
Proof.
  destruct replicated_cluster as [c|] eqn:Hc; [|vm_compute in Hc; discriminate Hc].
  split.
  - apply (clean_logs_agree (Ar := bit_archive) 3); [reflexivity|]. by apply replicated_clean.
  - vm_compute in Hc. injection Hc as <-. split; reflexivity.
Defined.

(** The run that loses a committed entry is not clean. *)
Example stale_batch_not_clean :
  (c ← boot (Ar := bit_archive) 3; run_clean (Ar := bit_archive) stale_batch_schedule c) = None.
Proof. vm_compute. reflexivity. Qed.
