(* ===== verification/ClusterTerms.v ===== *)
(** Terms along the logs: no server, buffer or message holds an entry of a term that is yet to
    come for it, and in clean runs the entries that a leader found in its log when it created
    one are of no later term.  So while no index is disputed terms grow along the log. *)
From S2P Require Import Prelude OpCoder Persister RaftTypes RaftLog RaftElection.
From S2P Require Import RaftReplication RaftPipeline RaftSteps Cluster ClusterLog ClusterRun.
From S2P Require Import RaftBounds ClusterSafe RaftTidy RaftCommit ClusterClean.
Open Scope Z_scope.

#[local] Arguments upd : simpl never.

Section terms.
Context `{Ar : BoostArchive}.
Variable N : nat.

Record tinv (c : cluster) : Prop := {
  ti_nodes : ∀ i n k, c_servers c !! i = Some n → has_entry n k → k.1 ≤ m_currentTerm n;
  ti_appends : ∀ j args e, (j, args) ∈ c_appends c → e ∈ ae_entries args →
    logterm e ≤ ae_term args;
  ti_batch : ∀ i pc n e, c_batch c !! i = Some pc → c_servers c !! i = Some n →
    e ∈ pc_entries pc → logterm e ≤ m_currentTerm n
}.

Lemma AppendEntries1_term now args n n' r :
  AppendEntries1 now args n = Ok (n', r) → ae_term args ≤ m_currentTerm n'.
Proof.
  intros H. destruct (decide (ae_term args < m_currentTerm n)).
  - rewrite AppendEntries1_stale in H by done. injection H as <- _. lia.
  - rewrite AppendEntries1_checked in H by lia.
    apply append_checked_result in H as (l & c & -> & _).
    destruct (ae_state_fields now args n) as (_ & _ & _ & _ & _ & _ & Ht & _).
    change (ae_term args ≤ m_currentTerm (ae_state now args n)). lia.
Qed.

Lemma doHeartBeat_term now n n' out p args :
  vectors_ok n → doHeartBeat now n = Ok (n', out) → OutAppend p args ∈ out →
  ae_term args = m_currentTerm n.
Proof.
  intros Hv Hrun Hin. destruct (decide (m_status n = Leader)) as [Hst|Hst].
  - destruct (doHeartBeat_eq now n Hv Hst) as (v & Heq & _). rewrite Heq in Hrun.
    injection Hrun as _ <-. apply list_elem_of_fmap in Hin as (j & Hj & _).
    unfold heartbeat_message in Hj. case_match; [discriminate Hj|]. by injection Hj as _ ->.
  - unfold doHeartBeat in Hrun. rewrite bool_decide_eq_false_2 in Hrun by done.
    injection Hrun as _ <-. by apply not_elem_of_nil in Hin.
Qed.

Lemma batch_request_term es n args :
  batch_request es n = Ok (Some args) → ae_term args = m_currentTerm n.
Proof. unfold batch_request. destruct es; [done|]. intros H. inv_ok. by subst. Qed.

(** One server takes a quiet step that brings in entries of terms that it has reached. *)
Lemma tinv_quiet es i n n' c :
  tinv c → c_servers c !! i = Some n → quiet es n n' →
  (∀ e, e ∈ es → logterm e ≤ m_currentTerm n') → tinv (set_server i n' c).
Proof.
  intros [T1 T2 T3] Hi Hq Hes. pose proof (vote_le_term _ _ (q_vote _ _ _ Hq)) as Hle.
  constructor; [|done|].
  - intros j m k. rewrite lookup_set_server. case_decide; [|by apply T1]. intros [= <-] Hk.
    destruct (q_entries _ _ _ Hq k Hk) as [Hold|(e & -> & He)%list_elem_of_fmap]; [|by apply Hes].
    specialize (T1 i n k Hi Hold). lia.
  - intros j pc m e Hb. rewrite lookup_set_server. case_decide; [|by eapply T3]. intros [= <-] He.
    subst. specialize (T3 j pc n e Hb Hi He). lia.
Qed.

Lemma tinv_frame c c' :
  c_servers c' = c_servers c →
  (∀ j args e, (j, args) ∈ c_appends c' → e ∈ ae_entries args →
     (j, args) ∈ c_appends c ∨ logterm e ≤ ae_term args) →
  (∀ i pc n e, c_batch c' !! i = Some pc → c_servers c !! i = Some n → e ∈ pc_entries pc →
     (∃ pc', c_batch c !! i = Some pc' ∧ e ∈ pc_entries pc') ∨ logterm e ≤ m_currentTerm n) →
  tinv c → tinv c'.
Proof.
  intros Hs Ha Hb [T1 T2 T3]. constructor; rewrite ?Hs; [done| |].
  - intros j args e Hin He. destruct (Ha j args e Hin He); [by eapply T2|done].
  - intros i pc n e Hpc Hi He. destruct (Hb i pc n e Hpc Hi He) as [(pc' & ? & ?)|]; [by eapply T3|done].
Qed.

Context `{!BoostArchiveLaws Ar}.

(** A quiet step of server [Hi], messages and batches being as before or fewer. *)
Ltac calm T Hi Hq :=
  eapply tinv_frame; [..|eapply (tinv_quiet _ _ _ _ _ T Hi Hq); by intros ? ?%not_elem_of_nil];
  [done|by intros; left|];
  first [by intros; left; eexists | by upd_simpl; intros ? ? ? ? [_ ?]%lookup_delete_Some; left; eexists].

Lemma tinv_vote_reply i n rd j l o n' v' c h :
  Z.of_nat N < 2 ^ 62 → cinv N c → tinv c → c_servers c !! i = Some n →
  c_rounds c !! i = Some rd → rd_left rd = j :: l →
  received (c_vote_replies c) j (rd_args rd) o →
  election_peer (λ _, o) j (n, rd_votes rd) = Ok (n', v') →
  tinv ((set_server i n' c) <| c_rounds := <[i := mkRound (rd_args rd) l v']> (c_rounds c) |>
          <| h_elected := h |>).
Proof.
  intros HN Hc T H H0 H1 H2 H3.
  destruct (vote_reply_cases N _ _ _ _ _ _ _ _ _ HN Hc H H0 H1 H2 H3) as [Hq|(-> & _ & _)];
    [calm T H Hq|]. destruct T as [T1 T2 T3].
  destruct (leader_state_fields n) as (_ & _ & _ & Ht & _ & Hl & _ & _ & _ & _ & _ & Hp & _).
  constructor; [|done|]; upd_simpl.
  - intros k m x. rewrite lookup_set_server. case_decide; [|by apply T1]. intros [= <-] Hx.
    rewrite Ht. unfold has_entry in Hx. rewrite Hl, Hp in Hx. by apply (T1 i n).
  - intros k pc m e Hb. rewrite lookup_set_server. case_decide; [|by eapply T3].
    intros [= <-] He. rewrite Ht. subst. by eapply T3.
Qed.

Lemma tinv_heartbeat i now n n' out c ks sn :
  cinv N c → tinv c → c_servers c !! i = Some n → doHeartBeat now n = Ok (n', out) →
  let ts := spawn i (length (c_counters c)) out in
  tinv ((set_server i n' c) <| c_counters := ks |> <| c_threads := c_threads c ++ ts |>
    <| c_appends := c_appends c ++ sent ts |> <| c_snap_threads := sn |>).
Proof.
  intros Hc T H H0 ts. destruct (ci_nodes _ _ Hc _ _ H) as [_ _ _ Hv _ _].
  eapply tinv_frame; [..|eapply (tinv_quiet _ _ _ _ _ T H (doHeartBeat_quiet _ _ _ _ Hv H0));
    by intros ? ?%not_elem_of_nil]; [done| |by intros; left; eexists].
  intros j args e [?|Hs]%elem_of_app He; [by left|]. exfalso.
  apply sent_spawn in Hs. rewrite (heartbeat_entries _ _ _ _ _ _ Hv H0 Hs) in He.
  by apply not_elem_of_nil in He.
Qed.

Lemma tinv_build i n p es l args k c :
  tinv c → c_servers c !! i = Some n → c_batch c !! i = Some (Building p es l) →
  batch_request es n = Ok (Some args) →
  let t := mkThread i p args k in
  tinv (c <| c_batch := <[i := Sending l]> (c_batch c) |>
            <| c_counters := c_counters c ++ [1] |> <| c_threads := c_threads c ++ [t] |>
            <| c_appends := c_appends c ++ sent [t] |>).
Proof.
  intros T Hi Hb Hreq t. apply (tinv_frame c); [done| | |done]; upd_simpl.
  - intros j args' e [?|Hin]%elem_of_app He; [by left|right].
    apply list_elem_of_singleton in Hin. injection Hin as -> ->.
    rewrite (batch_request_entries _ _ _ Hreq) in He. rewrite (batch_request_term _ _ _ Hreq).
    eapply (ti_batch _ T _ _ _ _ Hb Hi), elem_of_app. by left.
  - intros j pc m e [[<- <-]|[_ Hj]]%lookup_insert_Some Hm He; left; [|by eexists].
    eexists. split; [exact Hb|]. apply elem_of_app. by right.
Qed.

Lemma tinv_step c c' :
  Z.of_nat N < 2 ^ 62 → cinv N c → tinv c → cstep c c' → tinv c'.
Proof.
  intros HN Hc T Hstep. destruct (ci_snaps _ _ Hc) as [Hsnap Hinst].
  destruct Hstep as [ev Hstep]; destruct Hstep.
  - destruct (doElection_begin_result _ _ _ _ H1) as [Hq _]. calm T H Hq.
  - apply (tinv_frame c); [done|by intros; left|by intros; left; eexists|done].
  - calm T H0 (RequestVote1_quiet _ _ _ _ _ H1).
  - by eapply tinv_vote_reply.
  - apply (tinv_frame c); [done|by intros; left|by intros; left; eexists|done].
  - destruct isLeader; [|apply Start_refused in H0 as ->; calm T H (reflexivity (R := quiet []) n)].
    destruct (Start_accepted _ _ _ _ _ H0) as (Hq & _). pose proof (vote_le_term _ _ (q_vote _ _ _ Hq)).
    eapply tinv_frame; [..|eapply (tinv_quiet _ _ _ _ _ T H Hq); by intros e ->%list_elem_of_singleton];
      [done|by intros; left|by intros; left; eexists].
  - by eapply tinv_heartbeat.
  - eapply tinv_frame; [..|eapply (tinv_quiet _ _ _ _ _ T H0 (AppendEntries1_quiet _ _ _ _ _ H1))];
      [done|by intros; left|by intros; left; eexists|]. intros e He.
    pose proof (AppendEntries1_term _ _ _ _ _ H1). pose proof (ti_appends _ T _ _ _ H He). lia.
  - calm T H0 (sendAppendEntries_quiet _ _ _ _ _ _ _ _ H3).
  - apply (tinv_frame c); [done|by intros; left| |done]. upd_simpl.
    intros j pc m e [[<- <-]|[_ Hj]]%lookup_insert_Some Hm He; [by apply not_elem_of_nil in He|].
    left. by eexists.
  - calm T H (batch_thread_quiet false n).
  - eapply tinv_frame; [..|eapply (tinv_quiet _ _ _ _ _ T H (batch_collect_quiet now1 now2 n));
      by intros ? ?%not_elem_of_nil]; [done|by intros; left|].
    upd_simpl. intros j pc m e [[<- <-]|[_ Hj]]%lookup_insert_Some; [|by left; eexists].
    rewrite lookup_set_server, decide_True by done.
    intros [= <-] ([p es] & He & Hin)%list_elem_of_bind. right.
    pose proof (vote_le_term _ _ (q_vote _ _ _ (batch_collect_quiet now1 now2 n))).
    pose proof (ti_nodes _ T _ _ _ H (batch_collect_has _ _ _ _ _ _ Hin He)). cbn in *. lia.
  - apply (tinv_frame c); [done|by intros; left| |done]. upd_simpl.
    intros j pc m x [[<- <-]|[_ Hj]]%lookup_insert_Some Hm Hx; left; [|by eexists].
    eexists. split; [exact H0|]. cbn [pc_entries]. rewrite bind_cons. cbn [snd].
    destruct (_ || _); [apply elem_of_app; by right|done].
  - by eapply tinv_build.
  - apply (tinv_frame c); [done|by intros; left| |done]. upd_simpl.
    intros j pc m e [_ Hj]%lookup_delete_Some Hm He. left. by eexists.
  - calm T H (applierTicker_round_quiet _ _ H0).
  - rewrite Hsnap in H. by apply not_elem_of_nil in H.
  - rewrite Hinst in H. by apply not_elem_of_nil in H.
  - rewrite Hsnap in H. by destruct l1.
  - destruct (ci_nodes _ _ Hc _ _ H) as [_ _ _ _ Hd Hs].
    destruct (init_restarted n now Hd Hs) as (m & Hm & Hrs).
    rewrite H0 in Hm. injection Hm as <-. calm T H (restarted_quiet _ _ Hrs).
Qed.

Lemma initial_tinv c : initial N c → tinv c.
Proof.
  intros H. pose proof (initial_linv N c H) as L. destruct H as (_ & _ & servers & ->).
  constructor; cbn; [|by intros ? ? ? ?%not_elem_of_nil|by intros].
  intros i n k Hi Hk. pose proof (li_nodes _ L i n k Hi Hk) as Hkn. by apply not_elem_of_nil in Hkn.
Qed.

Lemma reachable_tinv c : Z.of_nat N < 2 ^ 62 → reachable N c → tinv c.
Proof.
  intros HN (c0 & H0 & Hs). induction Hs as [|c1 c2 Hs IH Hstep]; [by apply initial_tinv|].
  apply (tinv_step c1); [done| |done|exact Hstep].
  apply (reachable_inv N c1 HN). by exists c0.
Qed.

(** ** Entries below an entry *)

(** Below every entry there were, on the leader that created it, entries of no later term. *)
Definition based (c : cluster) : Prop :=
  ∀ e, e ∈ h_started c → 0 < logindex e ∧ ∀ k, 0 < k < logindex e →
    ∃ e', e' ∈ h_started c ∧ logindex e' = k ∧ logterm e' ≤ logterm e.

Lemma based_started c c' : h_started c' = h_started c → based c → based c'.
Proof. unfold based. by intros ->. Qed.

Lemma based_step c c' :
  Z.of_nat N < 2 ^ 62 → clean_reachable N c → based c → cstep c c' → based c'.
Proof.
  intros HN Hr B [ev Hstep]. pose proof (clean_reachable_reachable N c Hr) as Hreach.
  pose proof (clean_reachable_clean N c HN Hr) as L. pose proof (reachable_tinv c HN Hreach) as T.
  destruct Hstep; try (by apply (based_started c)).
  destruct isLeader; [|by apply (based_started c)].
  destruct (Start_accepted _ _ _ _ _ H0) as (_ & _ & -> & _).
  destruct (reachable_node N c i n HN Hreach H) as (_ & Hs & _ & _ & Hpos).
  intros e [->|He]%elem_of_cons; cbn [logindex logterm].
  - split; [lia|]. intros k Hk. destruct (log_entry_in n k) as [e' He']; [lia|].
    destruct (clean_entry c i n k e' L H He') as [Hx Hin]. exists e'.
    split; [by right|]. split; [done|]. apply (ti_nodes _ T i n (entry_key e') H). left.
    exists e'. split; [|done]. unfold log_entry in He'. case_decide; [|done].
    by eapply list_elem_of_lookup_2.
  - destruct (B e He) as [Hpe Hbe]. split; [done|]. intros k (e' & He' & ?)%Hbe.
    exists e'. split; [by right|done].
Qed.

Lemma clean_based c : Z.of_nat N < 2 ^ 62 → clean_reachable N c → based c.
Proof.
  intros HN. induction 1 as [c H|c c' Hr IH Hstep _]; [|by eapply based_step].
  destruct H as (_ & _ & servers & ->). by intros e ?%not_elem_of_nil.
Qed.

(** No two leaders have created entries for one index. *)
Definition undisputed (c : cluster) : Prop :=
  ∀ e e', e ∈ h_started c → e' ∈ h_started c → logindex e = logindex e' → logterm e = logterm e'.

(** Then an index names an entry, and later entries have later terms. *)
Lemma undisputed_slot c e e' :
  Z.of_nat N < 2 ^ 62 → reachable N c → undisputed c →
  e ∈ h_started c → e' ∈ h_started c → logindex e = logindex e' → e = e'.
Proof. intros HN Hr U He He' Hx. apply (created_once N c HN); [done..| |done]. by apply U. Qed.

Lemma undisputed_ordered c e e' :
  Z.of_nat N < 2 ^ 62 → clean_reachable N c → undisputed c →
  e ∈ h_started c → e' ∈ h_started c → logindex e ≤ logindex e' → logterm e ≤ logterm e'.
Proof.
  intros HN Hr U He He' Hx. destruct (clean_based c HN Hr e He) as [Hpos _].
  destruct (decide (logindex e = logindex e')) as [Heq|]; [by rewrite (U e e' He He' Heq)|].
  destruct (clean_based c HN Hr e' He') as [_ Hb]. destruct (Hb (logindex e)) as (x & Hin & Hxi & ?); [lia|].
  by rewrite (U e x He Hin) by done.
Qed.

(** The index and the term of the end of a log are those of a created entry. *)
Lemma last_started c i n :
  Z.of_nat N < 2 ^ 62 → clean_reachable N c → c_servers c !! i = Some n →
  (getLastLogIndex n = 0 ∧ getLastLogTerm n = 0) ∨
  ∃ e, e ∈ h_started c ∧ logterm e = getLastLogTerm n ∧ logindex e = getLastLogIndex n.
Proof.
  intros HN Hr Hi. destruct (reachable_binv N c HN (clean_reachable_reachable N c Hr)) as [_ [k B]].
  pose proof (bi_nodes _ _ _ B _ _ Hi) as Hn. pose proof (nl_snap _ _ _ Hn) as Hs.
  unfold getLastLogTerm. destruct (last (m_logs n)) as [e|] eqn:He.
  - right. exists e. split; [|split; [done|]].
    + eapply (td_logs _ _ (cl_nodes _ (clean_reachable_clean N c HN Hr) _ _ Hi)). by apply last_Some_elem_of.
    + rewrite last_lookup in He.
      rewrite (td_log _ _ (cl_nodes _ (clean_reachable_clean N c HN Hr) _ _ Hi) _ _ He).
      apply lookup_lt_Some in He. unfold getLastLogIndex, vsize. lia.
  - left. apply last_None in He. unfold getLastLogIndex. by rewrite Hs, He, (nl_snapterm _ _ _ Hn).
Qed.
End terms.
