(* ===== verification/ClusterApply.v ===== *)
(** What a server hands to its state machine: between two restarts, the messages for
    indices 1, 2, 3 and so on, whatever else happens in the cluster. *)
From S2P Require Import Prelude OpCoder Persister RaftTypes RaftLog RaftElection.
From S2P Require Import RaftReplication RaftPipeline RaftSteps Cluster ClusterLog ClusterRun.
From S2P Require Import RaftBounds ClusterSafe.
Open Scope Z_scope.

#[local] Arguments upd : simpl never.

(** ** Handlers that leave the queue alone *)

Section same_chan.
Context `{Ar : BoostArchive}.

Definition same_chan (n n' : node) : Prop :=
  applyChan n' = applyChan n ∧ m_lastApplied n' = m_lastApplied n.

#[local] Instance same_chan_preorder : PreOrder same_chan.
Proof. split; [done|]. intros a b c [] []. split; congruence. Qed.

Lemma adopt_chan t n : same_chan n (adopt_term t n).
Proof. unfold adopt_term. by case_match. Qed.

Lemma RequestVote1_chan now args n n' r : RequestVote1 now args n = Ok (n', r) → same_chan n n'.
Proof.
  destruct (RequestVote1_eq now args n) as [vs ->]. intros [<- _]%Ok_inj2.
  pose proof (adopt_chan (rv_term args) n). by destruct (grants args n).
Qed.

Lemma doElection_begin_chan now n n' args : doElection_begin now n = Some (n', args) → same_chan n n'.
Proof.
  unfold doElection_begin. destruct (bool_decide _); [done|]. cbn zeta. by intros [= <- _].
Qed.

Lemma election_peer_chan reply i n v n' v' :
  vectors_ok n → 0 ≤ v + 1 < 2 ^ 64 →
  election_peer (λ _, reply) i (n, v) = Ok (n', v') → same_chan n n'.
Proof.
  intros Hv Hsmall. unfold election_peer.
  destruct (i =? m_me n); [by intros [<- _]%Ok_inj2|].
  rewrite sendRequestVote_eq by done. destruct reply as [r|]; [|by intros [<- _]%Ok_inj2].
  destruct (_ <? _); [by intros [<- _]%Ok_inj2|].
  destruct (_ && _); [|by intros [<- _]%Ok_inj2].
  destruct (_ <=? _); [|by intros [<- _]%Ok_inj2].
  destruct (bool_decide (m_status n = Leader)); [done|]. intros [<- _]%Ok_inj2.
  unfold same_chan. by destruct (leader_state_fields n) as (_ & _ & _ & _ & _ & _ & _ & _ & _ & _ & _ & _ & _ & _ & -> & -> & _).
Qed.

Lemma AppendEntries1_chan now args n n' r : AppendEntries1 now args n = Ok (n', r) → same_chan n n'.
Proof.
  intros H. destruct (decide (ae_term args < m_currentTerm n)).
  { rewrite AppendEntries1_stale in H by done. by apply Ok_inj2 in H as [<- _]. }
  rewrite AppendEntries1_checked in H by lia.
  apply append_checked_result in H as (l & c & -> & _).
  apply (adopt_chan (ae_term args) n).
Qed.

Lemma doHeartBeat_chan now n n' out :
  vectors_ok n → doHeartBeat now n = Ok (n', out) → same_chan n n'.
Proof.
  intros Hv. destruct (decide (m_status n = Leader)) as [Hst|Hst].
  - destruct (doHeartBeat_eq now n Hv Hst) as (v & -> & _). by intros [<- _]%Ok_inj2.
  - unfold doHeartBeat. rewrite bool_decide_eq_false_2 by done. by intros [<- _]%Ok_inj2.
Qed.

Lemma Start_chan now op n n' i b : Start now op n = (n', i, b) → same_chan n n'.
Proof. unfold Start. destruct (negb _); by intros [= <- _ _]. Qed.

Lemma updatePeerSyncState_chan p args a n n' a' :
  updatePeerSyncState p args a n = Ok (n', a') → same_chan n n'.
Proof.
  unfold updatePeerSyncState, handlePipelineResponse, slidePipelineWindow. intros H. inv_ok.
  subst. destruct (0 <? _); inv_ok; by subst.
Qed.

Lemma tryUpdateCommitIndex_chan args a n n' a' :
  tryUpdateCommitIndex args a n = Ok (n', a') → same_chan n n'.
Proof.
  unfold tryUpdateCommitIndex. case_match; [by intros [= <- _]|]. intros H'. inv_ok. subst.
  destruct (last _); [by case_match|done].
Qed.

Lemma sendAppendEntries_chan p args rpc a n n' a' b :
  sendAppendEntries p args rpc a n = Ok (n', a', b) → same_chan n n'.
Proof.
  unfold sendAppendEntries. destruct (callAppendEntriesRpc rpc) as [r|]; [|by intros [= <- _ _]].
  assert (same_chan n (handleTermMismatch (aer_term r) n).1) as Hm
    by (unfold handleTermMismatch; by repeat case_match).
  destruct (handleTermMismatch _ n) as [m stop]. cbn [fst] in Hm.
  destruct stop; [by intros [= <- _ _]|]. destruct (negb _); [by intros [= <- _ _]|].
  intros H. transitivity m; [done|]. inv_ok. destruct (negb _).
  - inv_ok. subst. unfold handleLogMismatch in *. destruct (negb _); inv_ok; by subst.
  - inv_ok. destruct x0 as [n1 a1]. inv_ok. destruct x0 as [n2 a2]. inv_ok. subst.
    transitivity n1; [by eapply updatePeerSyncState_chan|by eapply tryUpdateCommitIndex_chan].
Qed.

Lemma batch_collect_chan now1 now2 n : same_chan n (batch_collect now1 now2 n).1.
Proof. unfold batch_collect. by destruct (batch_collect_from _ _ _ _ _). Qed.
End same_chan.

(** ** The queue of one server through one step *)

Section delivery.
Context `{Ar : BoostArchive} `{!BoostArchiveLaws Ar}.
Variable N : nat.

(** What has been handed over: the indices from 1 up to [m_lastApplied]. *)
Definition in_order (n : node) : Prop :=
  Z.of_nat (length (applyChan n)) = m_lastApplied n ∧
  ∀ k m, applyChan n !! k = Some m → am_index m = Z.of_nat k + 1.

(** Message [k] of a queue is the entry of [n] at index [k + 1]. *)
Definition from_log (n : node) (k : nat) (m : ApplyMsg) : Prop :=
  ∃ e, log_entry n (Z.of_nat k + 1) = Some e ∧ m = apply_msg (Z.of_nat k + 1) e.

(** More has been handed over, out of the log. *)
Record handed (n n' : node) : Prop := {
  hd_order : in_order n → in_order n';
  hd_prefix : applyChan n `prefix_of` applyChan n';
  hd_new : in_order n → ∀ k m, applyChan n' !! k = Some m →
    applyChan n !! k = Some m ∨ from_log n k m
}.

Lemma same_chan_handed n n' : same_chan n n' → handed n n'.
Proof. intros [Hc Ha]. split; unfold in_order; rewrite ?Hc, ?Ha; [done|done|by left]. Qed.

#[export] Instance event_restarted_dec (e : event) (i : Z) : Decision (e = Restarted i).
Proof.
  destruct e as [| |i']; [by right..|]. destruct (decide (i' = i)) as [->|]; [by left|right; congruence].
Defined.

(** A step lets server [i] only hand over more, unless it restarts the server. *)
Definition chan_step (e : event) (i : Z) (n n' : node) : Prop :=
  (e = Restarted i → in_order n' ∧ applyChan n' = []) ∧ (e ≠ Restarted i → handed n n').

Lemma applier_chan n n' :
  m_lastSnapshotIncludeIndex n ≤ m_lastApplied n → m_commitIndex n ≤ getLastLogIndex n →
  applierTicker_round n = Ok n' → handed n n'.
Proof.
  intros Hs Hc. destruct (applier_round_spec n Hs Hc) as (ms & -> & Hlen & Hms).
  intros H. injection H as <-.
  assert (in_order n → ∀ k m, (applyChan n ++ ms) !! k = Some m →
    applyChan n !! k = Some m ∨ from_log n k m) as Hnew.
  { intros [Hl _] k m [Hk|[Hk Hm]]%lookup_app_Some; [by left|]. right.
    destruct (Hms _ _ Hm) as (e & He & ->). exists e.
    by replace (Z.of_nat k + 1)
      with (m_lastApplied n + 1 + Z.of_nat (k - length (applyChan n))) by lia. }
  split; upd_simpl; [|by exists ms|exact Hnew]. intros Hn. pose proof Hn as [Hl Hidx].
  unfold in_order. upd_simpl. split; [rewrite length_app; lia|]. intros k m Hk.
  destruct (Hnew Hn k m Hk) as [?|(e & _ & ->)]; [by apply Hidx|done].
Qed.

Lemma restarted_chan n n' : restarted n n' → in_order n' ∧ applyChan n' = [].
Proof. intros []. unfold in_order. rewrite rs_chan, rs_applied. done. Qed.

(** One step, seen from every server. *)
Lemma lstep_chan c e c' j m m' :
  Z.of_nat N < 2 ^ 62 → reachable N c → lstep c e c' →
  c_servers c !! j = Some m → c_servers c' !! j = Some m' → chan_step e j m m'.
Proof.
  intros HN Hr Hstep Hj. destruct (reachable_binv N c HN Hr) as [Hc [k B]].
  destruct (ci_snaps _ _ Hc) as [Hsnap Hinst].
  assert (∀ i n n' e, c_servers c !! i = Some n → handed n n' → (∀ i', e ≠ Restarted i') →
    c_servers (set_server i n' c) !! j = Some m' → chan_step e j m m') as Hset.
  { intros i n n' e' Hi Hs He. rewrite lookup_set_server. split; [by intros ?%He|]. intros _.
    case_decide; simplify_eq; [done|by apply same_chan_handed]. }
  assert (∀ i n n' e, c_servers c !! i = Some n → same_chan n n' → (∀ i', e ≠ Restarted i') →
    c_servers (set_server i n' c) !! j = Some m' → chan_step e j m m') as Hsame.
  { intros i n n' e' Hi Hs. by apply (Hset i n), same_chan_handed. }
  assert (∀ e, (∀ i', e ≠ Restarted i') → c_servers c !! j = Some m' → chan_step e j m m') as Hnone.
  { intros e' He Hm'. split; [by intros ?%He|]. intros _. simplify_eq. by apply same_chan_handed. }
  destruct Hstep; try (by apply Hnone).
  - apply (Hsame i n); [done|by eapply doElection_begin_chan|done].
  - apply (Hsame j0 n); [done|by eapply RequestVote1_chan|done].
  - apply (Hsame i n); [done| |done]. pose proof (round_votes_bound N c i rd HN Hr H0).
    apply (election_peer_chan o j0 n (rd_votes rd) n' v'); [|lia|done]. by destruct (ci_nodes _ _ Hc _ _ H).
  - apply (Hsame i n); [done|by eapply Start_chan|done].
  - apply (Hsame i n); [done| |done]. eapply doHeartBeat_chan; [|done].
    by destruct (ci_nodes _ _ Hc _ _ H).
  - apply (Hsame j0 n); [done|by eapply AppendEntries1_chan|done].
  - apply (Hsame (th_from t) n); [done|by eapply sendAppendEntries_chan|done].
  - by apply (Hsame i n).
  - apply (Hsame i n); [done|apply batch_collect_chan|done].
  - apply (Hset i n); [done| |done]. pose proof (bi_nodes _ _ _ B _ _ H) as Hn.
    eapply applier_chan; [|apply Hn|done]. rewrite (nl_snap _ _ _ Hn). apply Hn.
  - rewrite Hinst in H. by apply not_elem_of_nil in H.
  - rewrite Hsnap in H. by destruct l1.
  - destruct (ci_nodes _ _ Hc _ _ H) as [_ _ _ _ Hd Hs].
    destruct (init_restarted n now Hd Hs) as (x & Hx & Hrs).
    rewrite H0 in Hx. injection Hx as <-. apply restarted_chan in Hrs.
    change (c_servers (set_server i n' c) !! j = Some m' → chan_step (Restarted i) j m m').
    rewrite lookup_set_server. case_decide; intros Hm'; simplify_eq; [by split|].
    split; [by intros [= ->]|]. intros _. by apply same_chan_handed.
Qed.

Lemma reachable_in_order c i n :
  Z.of_nat N < 2 ^ 62 → reachable N c → c_servers c !! i = Some n → in_order n.
Proof.
  intros HN (c0 & H0 & Hs). revert i n.
  induction Hs as [|c1 c2 Hs IH [e Hstep]]; intros i n Hi.
  - destruct H0 as (_ & Hinit & _). destruct (Hinit i n Hi) as [now Hn]. unfold init in Hn.
    cbn in Hn. by injection Hn as <-.
  - assert (reachable N c1) as Hr by (by exists c0).
    assert (is_Some (c_servers c1 !! i)) as [n1 Hi1]
      by (eapply (cstep_dom c1 c2 i); [by exists e|by eexists]).
    destruct (lstep_chan c1 e c2 i n1 n HN Hr Hstep Hi1 Hi) as [Hre Hno].
    assert (in_order n1) as Hn1 by (by eapply IH).
    destruct (decide (e = Restarted i)); [by apply Hre|by apply Hno].
Qed.
End delivery.
