(* ===== verification/ClusterCommit.v ===== *)
(** What a commit means in clean runs: a committed index is in the logs of a majority, and
    while no two leaders create entries for one index, the servers that hold it hold the same
    entry, later leaders have it and every state machine gets the same commands. *)
From S2P Require Import Prelude OpCoder Persister RaftTypes RaftLog RaftElection.
From S2P Require Import RaftReplication RaftPipeline RaftSteps Cluster ClusterLog ClusterRun.
From S2P Require Import RaftBounds ClusterSafe RaftTidy RaftCommit ClusterClean ClusterTerms ClusterApply.
Open Scope Z_scope.

#[local] Arguments upd : simpl never.

(** ** The invariant *)

Section commit.
Context `{Ar : BoostArchive}.
Variable N : nat.

(** The log of server [j] reaches index [x]. *)
Definition holds (c : cluster) (j x : Z) : Prop :=
  ∃ m, c_servers c !! j = Some m ∧ x ≤ getLastLogIndex m.
(** So does the log of every server that [j] voted for after term [t]. *)
Definition passed_on (c : cluster) (j t x : Z) : Prop :=
  ∀ T i, (T, j, i) ∈ h_ballots c → t < T → holds c i x.

(** A majority of the servers have logs that reach index [x], and while no index is disputed
    vote after term [t] only for servers whose logs do. *)
Definition secured (c : cluster) (t x : Z) : Prop :=
  ∃ Q : list Z, NoDup Q ∧ quorum N ≤ vsize Q ∧
    ∀ j, j ∈ Q → holds c j x ∧ (undisputed c → passed_on c j t x).
(** Some leader of a term up to [T] that created entries has made sure of that. *)
Definition kept (c : cluster) (T x : Z) : Prop :=
  0 < x → ∃ e, e ∈ h_started c ∧ logterm e ≤ T ∧ secured c (logterm e) x.

(** A request for votes tells of the end of the log of the candidate. *)
Definition honest (c : cluster) (args : RequestVoteArgs) : Prop :=
  holds c (rv_candidateid args) (rv_lastlogindex args) ∧
  (rv_lastlogterm args = 0 ∧ rv_lastlogindex args = 0 ∨
   ∃ e, e ∈ h_started c ∧ logterm e = rv_lastlogterm args ∧ logindex e = rv_lastlogindex args).

(** What a reply of server [j] that tells of success says: the log of [j] reaches the end of
    the request, whose entries a leader created, and what [j] voted for later does so too. *)
Definition acknowledged (c : cluster) (j : Z) (args : AppendEntriesArgs)
    (r : AppendEntriesReply) : Prop :=
  let x := ae_prevlogindex args + vsize (ae_entries args) in
  holds c j x ∧ (undisputed c → passed_on c j (aer_term r) x) ∧
  ∀ e, e ∈ ae_entries args → e ∈ h_started c.

(** A thread that sends a batch sends it to another server and has a counter of its own. *)
Definition own_counters (ks : list Z) (ts : list thread) : Prop :=
  (∀ t, t ∈ ts → (th_counter t < length ks)%nat) ∧
  ∀ t ts', ts ≡ₚ t :: ts' → ae_entries (th_args t) ≠ [] →
    th_to t ≠ th_from t ∧ ks !! th_counter t = Some 1 ∧
    ∀ t', t' ∈ ts' → th_counter t' ≠ th_counter t.

Record commit_inv (c : cluster) : Prop := {
  cm_nodes : ∀ i n, c_servers c !! i = Some n →
    kept c (m_currentTerm n) (m_commitIndex n);
  cm_appends : ∀ j args, (j, args) ∈ c_appends c →
    kept c (ae_term args) (ae_leadercommit args);
  cm_replies : ∀ j args r, (j, args, r) ∈ c_append_replies c → aer_success r = true →
    acknowledged c j args r;
  cm_requests : ∀ j args, (j, args) ∈ c_vote_requests c → honest c args;
  cm_rounds : ∀ i rd, c_rounds c !! i = Some rd → honest c (rd_args rd);
  cm_batch : ∀ i pc p es, c_batch c !! i = Some pc → (p, es) ∈ pc_batches pc → p ≠ i;
  cm_threads : own_counters (c_counters c) (c_threads c)
}.

(** *** Logs never get shorter, and votes go to longer logs *)

Record grows (c c' : cluster) : Prop := {
  gr_holds j x : holds c j x → holds c' j x;
  gr_started e : e ∈ h_started c → e ∈ h_started c';
  gr_terms i n n' : c_servers c !! i = Some n → c_servers c' !! i = Some n' →
    m_currentTerm n ≤ m_currentTerm n';
  gr_ballots T j i : undisputed c' → (T, j, i) ∈ h_ballots c' →
    (T, j, i) ∈ h_ballots c ∨ ∀ x, holds c j x → holds c' i x
}.

Lemma undisputed_grows c c' : grows c c' → undisputed c' → undisputed c.
Proof. intros Hg H e e' He He'. apply H; by eapply gr_started. Qed.

Lemma passed_on_mono c c' j t x :
  grows c c' → undisputed c' → holds c j x → passed_on c j t x → passed_on c' j t x.
Proof.
  intros Hg U Hj Hp T i Hb Ht. destruct (gr_ballots _ _ Hg T j i U Hb) as [Hold|Hnew].
  - eapply gr_holds; [done|by eapply Hp].
  - by apply Hnew.
Qed.

Lemma holds_le c j x y : y ≤ x → holds c j x → holds c j y.
Proof. intros Hle (m & Hm & ?). exists m. split; [done|lia]. Qed.

Lemma kept_le c T T' x y : T ≤ T' → y ≤ x → kept c T x → kept c T' y.
Proof.
  intros HT Hle Hx Hy. destruct Hx as (e & He & Ht & Q & Hnd & Hq & HQ); [lia|].
  exists e. split; [done|]. split; [lia|]. exists Q. split; [done|]. split; [done|].
  intros j (Hj & Hp)%HQ. split; [by eapply holds_le|].
  intros U V i Hb HV. eapply holds_le; [done|by eapply (Hp U)].
Qed.

Lemma secured_mono c c' t x : grows c c' → secured c t x → secured c' t x.
Proof.
  intros Hg (Q & Hnd & Hq & HQ). exists Q. split; [done|]. split; [done|].
  intros j (Hj & Hp)%HQ. split; [by eapply gr_holds|]. intros U.
  apply (passed_on_mono c); [done..|]. by eapply Hp, undisputed_grows.
Qed.

Lemma kept_mono c c' T x : grows c c' → kept c T x → kept c' T x.
Proof.
  intros Hg Hx Hpos. destruct (Hx Hpos) as (e & He & Ht & Hs). exists e.
  split; [by eapply gr_started|]. split; [done|]. by eapply secured_mono.
Qed.

Lemma honest_mono c c' args : grows c c' → honest c args → honest c' args.
Proof.
  intros Hg [Hh Ht]. split; [by eapply gr_holds|]. destruct Ht as [?|(e & He & ? & ?)]; [by left|right].
  exists e. split; [by eapply gr_started|done].
Qed.

Lemma own_counters_sub ks ts ts' : ts' ⊆+ ts → own_counters ks ts → own_counters ks ts'.
Proof.
  intros Hsub [Hlt Hown]. split.
  - intros t Ht. apply Hlt. by eapply elem_of_submseteq.
  - intros t l Hl Hes. apply submseteq_Permutation in Hsub as [k Hk].
    destruct (Hown t (l ++ k)) as (? & ? & Hne); [by rewrite Hk, Hl|done|].
    split; [done|]. split; [done|]. intros t' Ht'. apply Hne, elem_of_app. by left.
Qed.

(** A thread ends, having counted. *)
Lemma own_counters_end ks l1 t l2 a :
  own_counters ks (l1 ++ t :: l2) → own_counters (<[th_counter t := a]> ks) (l1 ++ l2).
Proof.
  intros Hown. pose proof Hown as [Hlt Hmine]. apply (own_counters_sub _ _ (l1 ++ l2)) in Hown as [_ Hothers].
  2:{ apply submseteq_app; [done|]. by apply submseteq_cons. }
  split.
  - intros u Hu. rewrite length_insert. apply Hlt. set_solver.
  - intros u l Hl Hes. destruct (Hothers u l Hl Hes) as (? & ? & ?). split; [done|]. split; [|done].
    destruct (Hmine u (t :: l)) as (_ & _ & Hne); [|done|].
    { rewrite <- Permutation_middle, Hl. constructor. }
    rewrite list_lookup_insert_ne; [done|]. apply Hne. by left.
Qed.

(** New threads on a new counter: heartbeats, or one batch. *)
Lemma own_counters_new ks ts us :
  own_counters ks ts → (∀ u, u ∈ us → th_counter u = length ks) →
  ((∀ u, u ∈ us → ae_entries (th_args u) = []) ∨ ∃ u, us = [u] ∧ th_to u ≠ th_from u) →
  own_counters (ks ++ [1]) (ts ++ us).
Proof.
  intros [Hlt Hown] Hnew Hkind. split.
  - intros t [Ht|Ht]%elem_of_app; rewrite length_app; cbn; [specialize (Hlt t Ht)|specialize (Hnew t Ht)]; lia.
  - intros t l Hl Hes. assert (t ∈ ts ++ us) as [Ht|Ht]%elem_of_app by (rewrite Hl; by left).
    + apply elem_of_Permutation in Ht as [ts' Hts].
      assert (l ≡ₚ ts' ++ us) as Hl'.
      { apply (Permutation_cons_inv (a:=t)). by rewrite <- Hl, Hts. }
      destruct (Hown t ts' Hts Hes) as (? & Hk & Hne). split; [done|].
      split; [by apply lookup_app_l_Some|]. intros t' Ht'. rewrite Hl' in Ht'.
      apply elem_of_app in Ht' as [?|Ht']; [by apply Hne|]. rewrite (Hnew t' Ht').
      apply lookup_lt_Some in Hk. lia.
    + destruct Hkind as [Hk|(u & -> & Hne)]; [by rewrite (Hk t Ht) in Hes|].
      apply list_elem_of_singleton in Ht as ->. split; [done|].
      assert (th_counter u = length ks) as Hu by (apply Hnew; by left).
      split; [by rewrite Hu, lookup_app_r, Nat.sub_diag by lia|]. intros t' Ht'.
      assert (l ≡ₚ ts) as Hl'.
      { apply (Permutation_cons_inv (a:=u)). rewrite <- Hl. by rewrite Permutation_app_comm. }
      rewrite Hl' in Ht'. apply Hlt in Ht'. lia.
Qed.

Context `{!BoostArchiveLaws Ar}.

Lemma cstep_holds c c' j x :
  Z.of_nat N < 2 ^ 62 → reachable N c → cstep c c' → holds c j x → holds c' j x.
Proof.
  intros HN Hr Hstep (n & Hi & Hle). destruct (reachable_inv N c HN Hr) as [Hc _].
  assert (is_Some (c_servers c' !! j)) as [n' Hi'] by (by rewrite (cstep_dom _ _ _ Hstep), Hi).
  exists n'. split; [done|]. etransitivity; [exact Hle|].
  destruct (cstep_server N c c' j n n' HN Hc Hstep Hi Hi') as [[es Hq]|[-> _]]; [by eapply quiet_last|].
  destruct (leader_state_fields n) as (_ & _ & _ & _ & _ & Hl & _ & _ & _ & _ & _ & _ & Hs & _).
  unfold getLastLogIndex. by rewrite Hl, Hs.
Qed.

Lemma started_grows c c' e : cstep c c' → e ∈ h_started c → e ∈ h_started c'.
Proof.
  intros [ev Hstep] He. pose proof (lstep_started _ _ _ Hstep) as Hs.
  destruct ev as [| ? ? ? []|]; [by rewrite Hs| |by rewrite Hs..]. destruct Hs as [t ->]. by right.
Qed.

(** A ballot for oneself, or for a server that one's log is no longer than. *)
Lemma vote_for_longer c j n args :
  Z.of_nat N < 2 ^ 62 → clean_reachable N c → undisputed c →
  c_servers c !! j = Some n → honest c args → grants args n = true →
  ∀ x, holds c j x → holds c (rv_candidateid args) x.
Proof.
  intros HN Hr U Hj [Hh Hterm] Hg x (n' & Hn' & Hx). simplify_eq.
  unfold grants in Hg. rewrite !andb_true_iff in Hg. destruct Hg as [[_ Hup%UPtodata_lexicographic] _].
  assert (getLastLogIndex n ≤ rv_lastlogindex args) as Hle; [|eapply holds_le; [|exact Hh]; lia].
  destruct (reachable_binv N c HN (clean_reachable_reachable N c Hr)) as [_ [k B]].
  pose proof (node_le_last_term _ _ _ (bi_nodes _ _ _ B _ _ Hj)) as Hpos.
  destruct (last_started N c j n HN Hr Hj) as [[Hl Ht]|(e & He & Ht & Hl)].
  - destruct Hterm as [[? ?]|(e' & He' & _ & Hx')]; [lia|].
    pose proof (clean_based N c HN Hr e' He') as [? _]. lia.
  - destruct Hterm as [[? ?]|(e' & He' & Ht' & Hx')]; [lia|].
    destruct (decide (getLastLogIndex n ≤ rv_lastlogindex args)); [done|].
    pose proof (undisputed_ordered N c e' e HN Hr U He' He). lia.
Qed.

Lemma cstep_grows c c' :
  Z.of_nat N < 2 ^ 62 → clean_reachable N c → commit_inv c → cstep c c' → grows c c'.
Proof.
  intros HN Hcl I Hstep. pose proof (clean_reachable_reachable N c Hcl) as Hr. constructor.
  - intros j x. by apply cstep_holds.
  - intros e. by apply started_grows.
  - intros i n n' Hi Hi'. destruct (reachable_inv N c HN Hr) as [Hc _].
    destruct (cstep_server N c c' i n n' HN Hc Hstep Hi Hi') as [[es Hq]|[-> _]].
    + apply vote_le_term, (q_vote _ _ _ Hq).
    + by destruct (leader_state_fields n) as (_ & _ & _ & -> & _).
  - intros T j i U. assert (undisputed c) as U0.
    { intros e e' He He'. apply U; by eapply started_grows. }
    pose proof (λ x, cstep_holds c c' i x HN Hr Hstep) as Hkeep.
    destruct (reachable_inv N c HN Hr) as [Hc _]. destruct Hstep as [ev Hstep].
    destruct Hstep; upd_simpl; try (intros Hb; by left).
    + intros [Heq|?]%elem_of_cons; [|by left]. right. injection Heq as _ -> ->.
      destruct (ci_nodes _ _ Hc _ _ H) as [_ Hme _ _ _ _]. rewrite Hme in *. exact Hkeep.
    + destruct (RequestVote1_eq now args n) as [vs Heq]. rewrite H1 in Heq.
      apply Ok_inj2 in Heq as [_ ->]. cbn [rvr_votegranted].
      destruct (grants args n) eqn:Hg; [|by left].
      intros [Heq|?]%elem_of_cons; [|by left]. injection Heq as -> -> ->. right. intros x Hx.
      apply Hkeep. eapply vote_for_longer; [done..|by eapply cm_requests|exact Hg|exact Hx].
Qed.

Lemma acknowledged_mono c c' j args r :
  grows c c' → acknowledged c j args r → acknowledged c' j args r.
Proof.
  intros Hg (Hh & Hp & He). split; [by eapply gr_holds|]. split.
  - intros U. apply (passed_on_mono c); [done..|]. by eapply Hp, undisputed_grows.
  - intros e ?. by eapply gr_started, He.
Qed.

(** The invariant of the next cluster, from what is new in it. *)
Lemma commit_lift c c' :
  grows c c' → commit_inv c →
  (∀ i m', c_servers c' !! i = Some m' →
     (∃ m, c_servers c !! i = Some m ∧ m_commitIndex m' = m_commitIndex m) ∨
     kept c' (m_currentTerm m') (m_commitIndex m')) →
  (∀ j args, (j, args) ∈ c_appends c' →
     (j, args) ∈ c_appends c ∨ kept c (ae_term args) (ae_leadercommit args)) →
  (∀ j args r, (j, args, r) ∈ c_append_replies c' →
     (j, args, r) ∈ c_append_replies c ∨ (aer_success r = true → acknowledged c' j args r)) →
  (∀ j args, (j, args) ∈ c_vote_requests c' → (j, args) ∈ c_vote_requests c ∨ honest c args) →
  (∀ i rd, c_rounds c' !! i = Some rd →
     (∃ rd', c_rounds c !! i = Some rd' ∧ rd_args rd = rd_args rd') ∨ honest c (rd_args rd)) →
  (∀ i pc p es, c_batch c' !! i = Some pc → (p, es) ∈ pc_batches pc →
     (∃ pc', c_batch c !! i = Some pc' ∧ (p, es) ∈ pc_batches pc') ∨ p ≠ i) →
  own_counters (c_counters c') (c_threads c') → commit_inv c'.
Proof.
  intros Hg I Hn Ha Hre Hq Hrd Hb Ht. constructor; [..|exact Ht].
  - intros i m' Hm. destruct (Hn i m' Hm) as [(m & Hi & ->)|?]; [|done].
    eapply kept_le; [by eapply gr_terms|reflexivity|].
    eapply kept_mono; [exact Hg|by eapply cm_nodes].
  - intros j args Hin. eapply kept_mono; [exact Hg|].
    destruct (Ha j args Hin); [by eapply cm_appends|done].
  - intros j args r Hin. destruct (Hre j args r Hin) as [Hold|]; [|done].
    intros Hs. eapply acknowledged_mono; [exact Hg|by apply cm_replies].
  - intros j args Hin. eapply honest_mono; [exact Hg|].
    destruct (Hq j args Hin); [by eapply cm_requests|done].
  - intros i rd Hi. eapply honest_mono; [exact Hg|].
    destruct (Hrd i rd Hi) as [(rd' & Hrd' & ->)|]; [by eapply cm_rounds|done].
  - intros i pc p es Hi Hin. destruct (Hb i pc p es Hi Hin) as [(pc' & Hi' & Hin')|]; [|done].
    by eapply cm_batch.
Qed.

(** A step at one server that leaves its commit index alone, or moves it to a kept one. *)
Lemma server_moved i n n' c c' :
  c_servers c !! i = Some n → c_servers c' = c_servers (set_server i n' c) →
  same_commit n n' ∨ kept c' (m_currentTerm n') (m_commitIndex n') →
  ∀ j m', c_servers c' !! j = Some m' →
    (∃ m, c_servers c !! j = Some m ∧ m_commitIndex m' = m_commitIndex m) ∨
    kept c' (m_currentTerm m') (m_commitIndex m').
Proof.
  intros Hi -> Hs j m'. rewrite lookup_set_server. case_decide; intros Hm; simplify_eq; [|eauto].
  destruct Hs as [Hs|?]; [left; eauto|by right].
Qed.

(** Nobody has voted past its own term. *)
Lemma no_later_vote c j n t x :
  cinv N c → c_servers c !! j = Some n → m_currentTerm n ≤ t → passed_on c j t x.
Proof.
  intros Hc Hj Ht T i Hb HT. destruct (ballot_voter N c T j i Hc Hb) as [_ (m & Hm & ?)].
  simplify_eq. lia.
Qed.

(** The two servers of a batch that was acknowledged. *)
Lemma pair_secured c i j n x :
  cinv N c → Z.of_nat N / 2 + 1 ≤ 2 → i ≠ j → c_servers c !! i = Some n →
  x ≤ getLastLogIndex n → holds c j x →
  (undisputed c → passed_on c j (m_currentTerm n) x) → secured c (m_currentTerm n) x.
Proof.
  intros Hc Hq Hne Hi Hx Hj Hp. exists [i; j]. split; [|split; [exact Hq|]].
  - apply NoDup_cons. split; [by intros ->%list_elem_of_singleton|]. apply NoDup_singleton.
  - intros k Hk. apply elem_of_cons in Hk as [-> | ->%list_elem_of_singleton]; [|done].
    split; [by exists n|]. intros _. by eapply no_later_vote.
Qed.

Lemma commit_append_reply n l1 t l2 o a n' a' b c :
  Z.of_nat N < 2 ^ 62 → reachable N c → clean c → commit_inv c →
  c_threads c = l1 ++ t :: l2 → c_servers c !! th_from t = Some n →
  received (c_append_replies c) (th_to t) (th_args t) o →
  c_counters c !! th_counter t = Some a →
  sendAppendEntries (th_to t) (th_args t) o a n = Ok (n', a', b) →
  m_commitIndex n' = m_commitIndex n ∨ kept c (m_currentTerm n') (m_commitIndex n').
Proof.
  intros HN Hr L I Ht Hi Hrec Ha Hrun.
  pose proof (vote_le_term _ _ (q_vote _ _ _ (sendAppendEntries_quiet _ _ _ _ _ _ _ _ Hrun))) as Hterm.
  apply sendAppendEntries_commit in Hrun
    as [?|(Hmaj & (e & He & Het) & -> & r & -> & Hsucc & Hrt)]; [by left|]. right.
  destruct (cm_threads _ I) as [_ Hown]. rewrite Ht in Hown.
  destruct (Hown t (l1 ++ l2)) as (Hne & Ha1 & _);
    [by rewrite Permutation_middle|by intros Hnil; rewrite Hnil in He; apply not_elem_of_nil in He|].
  rewrite Ha in Ha1. injection Ha1 as ->.
  destruct (reachable_node N c _ n HN Hr Hi) as (_ & _ & _ & Hsize & _). rewrite Hsize in Hmaj.
  change (to_size_t (1 + 1)) with 2 in Hmaj.
  destruct (Z.max_spec (m_commitIndex n) (ae_prevlogindex (th_args t) + vsize (ae_entries (th_args t))))
    as [[_ ->]|[_ ->]]; [|eapply kept_le; [exact Hterm|reflexivity|by eapply cm_nodes]].
  destruct (cm_replies _ I _ _ _ Hrec Hsucc) as (Hh & Hp & Hst).
  intros _. exists e. split; [by apply Hst|]. rewrite Het. split; [done|].
  eapply (pair_secured c (th_from t) (th_to t)); [by apply (reachable_inv N c HN Hr)|done..| |done|].
  - eapply (cl_threads _ L t n); [rewrite Ht; set_solver|done].
  - by rewrite <- Hrt.
Qed.

Lemma commit_append j n args now n' r c c' :
  Z.of_nat N < 2 ^ 62 → reachable N c → clean c → commit_inv c →
  (j, args) ∈ c_appends c → c_servers c !! j = Some n → AppendEntries1 now args n = Ok (n', r) →
  grows c c' → c_servers c' !! j = Some n' → h_ballots c' = h_ballots c →
  (m_commitIndex n' = m_commitIndex n ∨ kept c (m_currentTerm n') (m_commitIndex n')) ∧
  (aer_success r = true → acknowledged c' j args r).
Proof.
  intros HN Hr L I Hin Hj Hrun Hg Hj' Hb. destruct (reachable_node N c j n HN Hr Hj) as (_ & Hs & Hcm & _ & _).
  pose proof (cl_appends _ L _ _ Hin) as Hsound.
  destruct (AppendEntries1_tidy (h_started c) now args n) as (n1 & r1 & Hrun1 & _ & _ & Hob);
    [by apply (created_once N)|by eapply cl_nodes|done..|].
  rewrite Hrun in Hrun1. apply Ok_inj2 in Hrun1 as [<- <-]. destruct Hob as [Hsucc Hcommit]. split.
  - destruct Hcommit as [?|Hle]; [by left|right].
    eapply kept_le; [by eapply AppendEntries1_term|exact Hle|by eapply cm_appends].
  - intros [Hl Ht]%Hsucc. split; [by exists n'|]. split.
    + intros _ T i Hin' HT. rewrite Hb in Hin'. exfalso.
      destruct (reachable_inv N c HN Hr) as [Hc _].
      destruct (ballot_voter N c T j i Hc Hin') as [_ (m & Hm & ?)]. simplify_eq.
      pose proof (vote_le_term _ _ (q_vote _ _ _ (AppendEntries1_quiet _ _ _ _ _ Hrun))). lia.
    + intros e He. by eapply gr_started, sa_known.
Qed.

(** What a step leaves as it was, or takes away. *)
Ltac unchanged I :=
  first [by intros; left; eauto | by intros; left; eexists | exact (cm_threads _ I)
        | by upd_simpl; intros ? ? [_ ?]%lookup_delete_Some; left; eexists
        | by upd_simpl; intros ? ? ? ? [_ ?]%lookup_delete_Some ?; left; eexists].
(** [commit_lift], with the step's server [H]; what is new in the cluster remains. *)
Ltac lift Hg I :=
  eapply commit_lift; [exact Hg|exact I|..]; try (unchanged I).
Ltac moved H := eapply server_moved; [exact H|reflexivity|].

Lemma commit_heartbeat i n now n' out sn c :
  grows c ((set_server i n' c) <| c_counters := c_counters c ++ [1] |>
    <| c_threads := c_threads c ++ spawn i (length (c_counters c)) out |>
    <| c_appends := c_appends c ++ sent (spawn i (length (c_counters c)) out) |>
    <| c_snap_threads := sn |>) →
  commit_inv c → vectors_ok n → c_servers c !! i = Some n → doHeartBeat now n = Ok (n', out) →
  commit_inv ((set_server i n' c) <| c_counters := c_counters c ++ [1] |>
    <| c_threads := c_threads c ++ spawn i (length (c_counters c)) out |>
    <| c_appends := c_appends c ++ sent (spawn i (length (c_counters c)) out) |>
    <| c_snap_threads := sn |>).
Proof.
  intros Hg I Hv Hi Hrun. destruct (doHeartBeat_commit _ _ _ _ Hv Hrun) as [Hs Hout].
  lift Hg I.
  - moved Hi. by left.
  - intros j args [?|Hin%sent_spawn]%elem_of_app; [by left|right]. rewrite (Hout _ _ Hin), (doHeartBeat_term _ _ _ _ _ _ Hv Hrun Hin).
    by eapply cm_nodes.
  - upd_simpl. apply own_counters_new; [by destruct I|..].
    + unfold spawn. intros u (x & _ & Hx)%list_elem_of_omap. destruct x; [|done]. by injection Hx as <-.
    + left. intros u [_ Hu]%spawn_elem. by eapply heartbeat_entries.
Qed.

Lemma commit_build i n p es l args c :
  let t := mkThread i p args (length (c_counters c)) in
  grows c (c <| c_batch := <[i := Sending l]> (c_batch c) |>
             <| c_counters := c_counters c ++ [1] |> <| c_threads := c_threads c ++ [t] |>
             <| c_appends := c_appends c ++ sent [t] |>) →
  commit_inv c → c_servers c !! i = Some n → c_batch c !! i = Some (Building p es l) →
  batch_request es n = Ok (Some args) →
  commit_inv (c <| c_batch := <[i := Sending l]> (c_batch c) |>
             <| c_counters := c_counters c ++ [1] |> <| c_threads := c_threads c ++ [t] |>
             <| c_appends := c_appends c ++ sent [t] |>).
Proof.
  intros t Hg I Hi Hb Hreq. destruct (batch_request_commit _ _ _ Hreq) as [Hlc _].
  lift Hg I.
  - intros j args' [?|Hin%list_elem_of_singleton]%elem_of_app; [by left|right].
    injection Hin as -> ->. rewrite Hlc, (batch_request_term _ _ _ Hreq). exact (cm_nodes _ I _ _ Hi).
  - intros j pc q fs. upd_simpl. intros [[<- <-]|[_ Hj]]%lookup_insert_Some Hin; left; [|by eexists].
    exists (Building p es l). split; [done|]. by right.
  - upd_simpl. apply own_counters_new; [by destruct I|by intros u ->%list_elem_of_singleton|].
    right. exists t. split; [done|]. cbn. eapply (cm_batch _ I i _ p es Hb). by left.
Qed.

(** A candidate tells of its log as it is. *)
Lemma begin_honest i n now n' args c :
  Z.of_nat N < 2 ^ 62 → clean_reachable N c → c_servers c !! i = Some n →
  doElection_begin now n = Some (n', args) → honest c args.
Proof.
  intros HN Hr Hi Hrun. destruct (reachable_inv N c HN (clean_reachable_reachable N c Hr)) as [Hc _].
  destruct (ci_nodes _ _ Hc _ _ Hi) as [_ Hme _ _ _ _].
  destruct (last_started N c i n HN Hr Hi) as [[? ?]|He];
    unfold doElection_begin in Hrun; destruct (bool_decide _); try discriminate Hrun;
    cbn zeta in Hrun; injection Hrun as _ <-; unfold honest;
    cbn [rv_candidateid rv_lastlogindex rv_lastlogterm];
    (split; [exists n; by rewrite <- Hme in Hi|]); [by left|by right].
Qed.

Lemma commit_append_step j n args now n' r c c' :
  Z.of_nat N < 2 ^ 62 → reachable N c → clean c → commit_inv c → grows c c' →
  (j, args) ∈ c_appends c → c_servers c !! j = Some n → AppendEntries1 now args n = Ok (n', r) →
  c' = ((set_server j n' c) <| c_append_replies := (j, args, r) :: c_append_replies c |>) →
  commit_inv c'.
Proof.
  intros HN Hr L I Hg Hin Hj Hrun Hc'.
  destruct (commit_append j n args now n' r c c' HN Hr L I Hin Hj Hrun Hg) as [Hcm Hack];
    [subst; change (c_servers (set_server j n' c) !! j = Some n')|by subst|].
  { by rewrite lookup_set_server, decide_True. }
  subst c'. lift Hg I.
  - moved Hj. destruct Hcm as [?|?]; [by left|right]. by eapply kept_mono.
  - intros j' args' r' [Heq|?]%elem_of_cons; [|by left]. injection Heq as -> -> ->. by right.
Qed.

Lemma commit_collect i n now1 now2 c c' :
  m_me n = i → commit_inv c → grows c c' → c_servers c !! i = Some n →
  c' = ((set_server i (batch_collect now1 now2 n).1 c)
        <| c_batch := <[i := Sending (batch_collect now1 now2 n).2]> (c_batch c) |>) →
  commit_inv c'.
Proof.
  intros Hme I Hg Hi ->. destruct (batch_collect_commit now1 now2 n) as [Hs Hout]. lift Hg I.
  - moved Hi. by left.
  - intros j pc p es. upd_simpl. intros [[<- <-]|[_ Hj]]%lookup_insert_Some Hin; [|by left; eexists].
    right. rewrite <- Hme. by eapply Hout.
Qed.

Lemma commit_restart i n now n' c c' :
  cinv N c → commit_inv c → grows c c' → c_servers c !! i = Some n →
  init (m_peers_size n) (m_me n) (m_persister n) now = Ok n' →
  c' = ((set_server i n' c) <| c_rounds := delete i (c_rounds c) |>
        <| c_batch := delete i (c_batch c) |>
        <| c_threads := filter (λ t, th_from t ≠ i) (c_threads c) |>
        <| c_snap_threads := filter (λ t, st_from t ≠ i) (c_snap_threads c) |>) →
  commit_inv c'.
Proof.
  intros Hc I Hg Hi Hrun ->. destruct (ci_nodes _ _ Hc _ _ Hi) as [_ _ _ _ Hd Hs].
  destruct (init_restarted n now Hd Hs) as (x & Hx & Hrs). rewrite Hrun in Hx. injection Hx as <-.
  lift Hg I.
  - moved Hi. right. rewrite (rs_commit _ _ Hrs). by intros ?%Z.lt_irrefl.
  - upd_simpl. eapply own_counters_sub; [|apply (cm_threads _ I)]. apply sublist_submseteq, sublist_filter.
Qed.

Lemma commit_step c c' :
  Z.of_nat N < 2 ^ 62 → clean_reachable N c → commit_inv c → cstep c c' → commit_inv c'.
Proof.
  intros HN Hcl I Hstep. pose proof (cstep_grows c c' HN Hcl I Hstep) as Hg.
  pose proof (clean_reachable_reachable N c Hcl) as Hr. pose proof (clean_reachable_clean N c HN Hcl) as L.
  destruct (reachable_binv N c HN Hr) as [Hc [k B]]. destruct (ci_snaps _ _ Hc) as [Hsnap Hinst].
  destruct Hstep as [ev Hstep]; destruct Hstep;
    try match goal with H : c_servers c !! _ = Some ?n |- _ =>
      destruct (ci_nodes _ _ Hc _ _ H) as [_ Hme _ Hvec _ _] end.
  - lift Hg I; [moved H; left; by eapply doElection_begin_commit|].
    intros j rd. upd_simpl. intros [[<- <-]|[_ Hj]]%lookup_insert_Some; [right|by left; eexists].
    by eapply begin_honest.
  - lift Hg I. intros k' args [Heq|?]%elem_of_cons; [|by left]. right. injection Heq as -> ->.
    by eapply cm_rounds.
  - lift Hg I. moved H0. left. by eapply RequestVote1_commit.
  - pose proof (round_votes_bound N c i rd HN Hr H0). lift Hg I.
    + moved H. left. apply (election_peer_commit o j n (rd_votes rd) n' v'); [done|lia|exact H3].
    + intros k' rd'. upd_simpl. intros [[<- <-]|[_ Hk]]%lookup_insert_Some; left; by eexists.
  - lift Hg I.
  - lift Hg I. moved H. left. by eapply Start_commit.
  - by eapply commit_heartbeat.
  - by eapply commit_append_step.
  - pose proof (commit_append_reply n l1 t l2 o a n' a' b c HN Hr L I H H0 H1 H2 H3) as Hcm.
    lift Hg I.
    + moved H0. destruct Hcm as [?|?]; [by left|right]. by eapply kept_mono.
    + upd_simpl. apply own_counters_end. rewrite <- H. by destruct I.
  - lift Hg I. intros j pc p es. upd_simpl.
    intros [[<- <-]|[_ Hj]]%lookup_insert_Some Hin; [by apply not_elem_of_nil in Hin|by left; eexists].
  - lift Hg I. moved H. by left.
  - by eapply commit_collect.
  - lift Hg I. intros j pc q fs. upd_simpl.
    intros [[<- <-]|[_ Hj]]%lookup_insert_Some Hin; left; [|by eexists].
    eexists. split; [exact H0|]. revert Hin. case_match; cbn [pc_batches]; set_solver.
  - by eapply commit_build.
  - lift Hg I.
  - pose proof (bi_nodes _ _ _ B _ _ H) as Hn. lift Hg I. moved H. left.
    eapply applier_commit; [|apply Hn|exact H0]. rewrite (nl_snap _ _ _ Hn). apply Hn.
  - rewrite Hsnap in H. by apply not_elem_of_nil in H.
  - rewrite Hinst in H. by apply not_elem_of_nil in H.
  - rewrite Hsnap in H. by destruct l1.
  - by eapply commit_restart.
Qed.

Lemma initial_commit c : initial N c → commit_inv c.
Proof.
  intros (_ & Hinit & servers & ->). cbn in Hinit. constructor; cbn; try set_solver.
  - intros i n Hi. destruct (Hinit i n Hi) as [now Hn]. unfold init in Hn. cbn in Hn.
    injection Hn as <-. by intros ?%Z.lt_irrefl.
  - split; [set_solver|]. intros t ts' Hp. apply Permutation_nil_l in Hp. discriminate Hp.
Qed.

Lemma clean_commit c : Z.of_nat N < 2 ^ 62 → clean_reachable N c → commit_inv c.
Proof.
  intros HN. induction 1 as [c H|c c' Hc IH Hstep _]; [by apply initial_commit|].
  by eapply commit_step.
Qed.

(** *** What state machines got *)

(** Message [k] of a queue is the entry that some leader created for index [k + 1]. *)
Definition delivered (c : cluster) (n : node) : Prop :=
  ∀ k m, applyChan n !! k = Some m →
    ∃ e, e ∈ h_started c ∧ logindex e = Z.of_nat k + 1 ∧ m = apply_msg (Z.of_nat k + 1) e.

Lemma clean_delivered c i n :
  Z.of_nat N < 2 ^ 62 → clean_reachable N c → c_servers c !! i = Some n → delivered c n.
Proof.
  intros HN Hr. revert i n. induction Hr as [c H|c c' Hr IH [ev Hstep] _]; intros i n' Hi'.
  - destruct H as (_ & Hinit & _). destruct (Hinit i n' Hi') as [now Hn]. unfold init in Hn.
    cbn in Hn. by injection Hn as <-.
  - pose proof (clean_reachable_reachable N c Hr) as Hreach.
    pose proof (clean_reachable_clean N c HN Hr) as L.
    assert (is_Some (c_servers c !! i)) as [n Hi].
    { eapply (cstep_dom c c' i); [by exists ev|by eexists]. }
    destruct (lstep_chan N c ev c' i n n' HN Hreach Hstep Hi Hi') as [Hre Hno].
    destruct (decide (ev = Restarted i)) as [->|Hev].
    { destruct (Hre eq_refl) as [_ Hnil]. intros k m. by rewrite Hnil, lookup_nil. }
    destruct (Hno Hev) as [_ _ Hnew]. intros k m Hk.
    destruct (Hnew (reachable_in_order N c i n HN Hreach Hi) k m Hk) as [Hold|(e & He & ->)].
    + destruct (IH i n Hi k m Hold) as (e & He & ? & ->). exists e. split; [|done].
      eapply started_grows; [by exists ev|done].
    + destruct (clean_entry c i n _ e L Hi He) as [? ?]. exists e. split; [|done].
      eapply started_grows; [by exists ev|done].
Qed.

(** ** Runs with a single leader *)

(** At most one election has been won. *)
Definition single_leader (c : cluster) : Prop :=
  ∀ p q, p ∈ h_elected c → q ∈ h_elected c → p = q.

Lemma elected_grows c c' p : cstep c c' → p ∈ h_elected c → p ∈ h_elected c'.
Proof.
  intros [ev Hstep] Hp. destruct Hstep; try done. upd_simpl. case_match; [by right|done].
Qed.

(** The first leader has empty buffers, since no entry exists before there is a leader. *)
Lemma single_leader_fresh c c' :
  Z.of_nat N < 2 ^ 62 → reachable N c → clean c → cstep c c' → single_leader c' →
  fresh_leaders c c'.
Proof.
  intros HN Hr L Hstep Hsingle i n n' Hi Hi' Hst Hst' p Hp.
  destruct (reachable_inv N c HN Hr) as [Hc LI].
  destruct (cstep_server N c c' i n n' HN Hc Hstep Hi Hi') as [[es Hq]|[-> Hnew]].
  { by destruct (q_leader _ _ _ Hq Hst') as [? _]. }
  destruct (leader_state_fields n) as (_ & _ & _ & Ht & _ & _ & _ & _ & _ & _ & _ & Hpend & _).
  rewrite Hpend in Hp. destruct (entries p) as [|e es] eqn:Ee; [done|exfalso].
  destruct (td_buffers _ _ (cl_nodes _ L _ _ Hi) p e Hp) as [He _]; [rewrite Ee; by left|].
  destruct (li_started _ LI e He) as (j & m & Hel & _). apply Hnew.
  assert ((m_currentTerm n, i) ∈ h_elected c') as Hel'.
  { assert (cinv N c') as Hc' by (by eapply cinv_step).
    rewrite <- Ht. by apply (ci_leader _ _ Hc' i). }
  by rewrite (Hsingle _ _ Hel' (elected_grows _ _ _ Hstep Hel)).
Qed.

Lemma single_leader_clean c :
  Z.of_nat N < 2 ^ 62 → reachable N c → single_leader c → clean_reachable N c ∧ undisputed c.
Proof.
  intros HN Hr Hs. split.
  - destruct Hr as (c0 & H0 & Hsteps). induction Hsteps as [|c1 c2 Hsteps IH Hstep]; [by constructor|].
    assert (single_leader c1) as Hs1 by (intros p q Hp Hq; apply Hs; by eapply elected_grows).
    specialize (IH Hs1). eapply cr_step; [exact IH|exact Hstep|].
    apply single_leader_fresh; [done|by exists c0|by apply (clean_reachable_clean N)|done|done].
  - destruct (reachable_inv N c HN Hr) as [_ LI]. intros e e' He He' _.
    destruct (li_started _ LI e He) as (i & n & Hi & _).
    destruct (li_started _ LI e' He') as (j & m & Hj & _). specialize (Hs _ _ Hi Hj). congruence.
Qed.

(** ** The theorems *)

(** A majority of the servers have an entry that satisfies [P] at index [x]. *)
Definition replicated (c : cluster) (x : Z) (P : LogEntry → Prop) : Prop :=
  ∃ Q : list Z, NoDup Q ∧ quorum N ≤ vsize Q ∧
    ∀ j, j ∈ Q → ∃ m e, c_servers c !! j = Some m ∧ log_entry m x = Some e ∧ P e.

Lemma commit_replicated c i n x :
  Z.of_nat N < 2 ^ 62 → clean_reachable N c → c_servers c !! i = Some n →
  0 < x ≤ m_commitIndex n → replicated c x (λ e, e ∈ h_started c ∧ logindex e = x).
Proof.
  intros HN Hr Hi Hx. pose proof (clean_reachable_reachable N c Hr) as Hreach.
  pose proof (clean_reachable_clean N c HN Hr) as L.
  destruct (cm_nodes _ (clean_commit c HN Hr) i n Hi) as (e0 & _ & _ & Q & Hnd & Hq & HQ); [lia|].
  exists Q. split; [done|]. split; [done|]. intros j [(m & Hm & Hl) _]%HQ.
  destruct (reachable_node N c j m HN Hreach Hm) as (_ & Hs & _).
  destruct (log_entry_in m x) as [e He]; [lia|]. exists m, e.
  destruct (clean_entry c j m x e L Hm He). done.
Qed.

Lemma commit_same c x :
  Z.of_nat N < 2 ^ 62 → reachable N c → undisputed c →
  replicated c x (λ e, e ∈ h_started c ∧ logindex e = x) → ∃ e, replicated c x (eq e).
Proof.
  intros HN Hr Hone (Q & Hnd & Hq & HQ). destruct Q as [|j0 Q].
  { change (vsize []) with 0 in Hq. unfold quorum in Hq. pose proof (Z.div_pos (Z.of_nat N) 2). lia. }
  destruct (HQ j0) as (m0 & e0 & _ & _ & Hin0 & Hx0); [by left|]. exists e0, (j0 :: Q).
  split; [done|]. split; [done|]. intros j (m & e & ? & ? & Hin & Hxe)%HQ. exists m, e.
  split; [done|]. split; [done|]. apply (undisputed_slot N c); [done..|congruence].
Qed.

Lemma prefix_comparable {A} (l l' : list A) :
  (∀ k x y, l !! k = Some x → l' !! k = Some y → x = y) → l `prefix_of` l' ∨ l' `prefix_of` l.
Proof.
  revert l'. induction l as [|x l IH]; intros [|y l'] Heq; [left; apply prefix_nil..|right; apply prefix_nil|].
  rewrite (Heq 0%nat x y eq_refl eq_refl). destruct (IH l') as [?|?].
  - intros k. apply (Heq (S k)).
  - left. by apply prefix_cons.
  - right. by apply prefix_cons.
Qed.

Lemma undisputed_agree c i j n m :
  Z.of_nat N < 2 ^ 62 → clean_reachable N c → undisputed c →
  c_servers c !! i = Some n → c_servers c !! j = Some m →
  applyChan n `prefix_of` applyChan m ∨ applyChan m `prefix_of` applyChan n.
Proof.
  intros HN Hr Hone Hi Hj. apply prefix_comparable. intros k x y Hx Hy.
  destruct (clean_delivered c i n HN Hr Hi k x Hx) as (e & He & Hk & ->).
  destruct (clean_delivered c j m HN Hr Hj k y Hy) as (e' & He' & Hk' & ->).
  rewrite (undisputed_slot N c e e'); [done|done|by apply clean_reachable_reachable|done..|congruence].
Qed.

(** C2: commits are durable.  In a run where every server that becomes leader has empty
    buffers, every index that some server regards as committed has an entry, created by a
    leader, in the logs of a majority of the servers, through losses, repetitions, restarts
    and changes of leader; as long as no two leaders have created entries for one index, all
    of that majority hold the same entry. *)
Theorem committed_is_replicated (c : cluster) (i : Z) (n : node) (x : Z) :
  Z.of_nat N < 2 ^ 62 → clean_reachable N c → c_servers c !! i = Some n →
  0 < x ≤ m_commitIndex n →
  replicated c x (λ e, e ∈ h_started c ∧ logindex e = x) ∧
  (undisputed c → ∃ e, replicated c x (eq e)).
Proof.
  intros HN Hr Hi Hx. pose proof (commit_replicated c i n x HN Hr Hi Hx). split; [done|].
  intros U. apply commit_same; [done|by apply clean_reachable_reachable|done..].
Qed.


(** A server that was elected after the term in which an index was secured has it. *)
Lemma elected_holds c i T t x :
  Z.of_nat N < 2 ^ 62 → reachable N c → undisputed c → secured c t x →
  (T, i) ∈ h_elected c → t < T → holds c i x.
Proof.
  intros HN Hr U (Q & Hnd & Hq & HQ) Hel Ht.
  destruct (reachable_inv N c HN Hr) as [Hc _].
  destruct (ci_elected _ _ Hc _ _ Hel) as [(V & [HndV HV] & HqV) _].
  destruct (majorities_meet N V Q) as (v & Hv & Hvq); [done|done| |done|done|].
  { intros v [Hv|Hv]; [by eapply (ballot_voter N c T v i), HV|].
    destruct (HQ v Hv) as [(m & Hm & _) _]. by destruct (ci_nodes _ _ Hc _ _ Hm). }
  destruct (HQ v Hvq) as [_ Hp]. by eapply (Hp U T i); [apply HV|].
Qed.

(** Where a log reaches an index it has an entry there, the one that was created for it. *)
Lemma holds_entry c i x e :
  Z.of_nat N < 2 ^ 62 → clean_reachable N c → undisputed c → holds c i x →
  e ∈ h_started c → logindex e = x →
  ∃ m, c_servers c !! i = Some m ∧ log_entry m x = Some e.
Proof.
  intros HN Hr U (m & Hm & Hl) He Hx. pose proof (clean_reachable_reachable N c Hr) as Hreach.
  destruct (clean_based N c HN Hr e He) as [Hpos _].
  destruct (reachable_node N c i m HN Hreach Hm) as (_ & Hs & _).
  destruct (log_entry_in m x) as [e' He']; [lia|]. exists m. split; [done|]. rewrite He'. f_equal.
  destruct (clean_entry c i m x e' (clean_reachable_clean N c HN Hr) Hm He').
  apply (undisputed_slot N c); [done..|congruence].
Qed.

(** C4: leader completeness as far as it goes.  In a run where every server that becomes
    leader has empty buffers, and as long as no two leaders have created entries for one
    index, a server that wins an election of a later term than that of a server [j], or than
    those of all entries, has at every index that [j] has committed the entry that is there
    on [j]: the rule of [UPtodata] and the order in which the commit index moves keep
    servers without it from being elected. *)
Theorem leader_complete (c : cluster) (i T : Z) (j : Z) (n : node) (x : Z) :
  Z.of_nat N < 2 ^ 62 → clean_reachable N c → undisputed c → (T, i) ∈ h_elected c →
  c_servers c !! j = Some n → 0 < x ≤ m_commitIndex n →
  m_currentTerm n < T ∨ (∀ e, e ∈ h_started c → logterm e < T) →
  ∃ m e, c_servers c !! i = Some m ∧ log_entry m x = Some e ∧ log_entry n x = Some e.
Proof.
  intros HN Hr U Hel Hj [Hpos Hx] HT.
  pose proof (clean_reachable_reachable N c Hr) as Hreach.
  destruct (cm_nodes _ (clean_commit c HN Hr) j n Hj) as (e & He & Ht & Hsec); [lia|].
  destruct (reachable_node N c j n HN Hreach Hj) as (_ & Hs & Hcn & _).
  destruct (log_entry_in n x) as [ex Hex]; [lia|].
  destruct (clean_entry c j n x ex (clean_reachable_clean N c HN Hr) Hj Hex) as [Hix Hin].
  assert (logterm e < T) as HeT by (destruct HT as [?|HT]; [lia|by apply HT]).
  pose proof (elected_holds c i T _ _ HN Hreach U Hsec Hel HeT) as Hh.
  destruct (holds_entry c i x ex HN Hr U) as (m & Hm & Hex'); [by eapply holds_le|done..|].
  by exists m, ex.
Qed.

(** One leader, safe replication.  In every reachable cluster in which at most one
    election has been won, whatever the network and the restarts do, what the state machines
    of any two servers got is a prefix one of the other, and what any server has committed
    is the same entry in the logs of a majority. *)
Theorem single_leader_safe (c : cluster) (i : Z) (n : node) :
  Z.of_nat N < 2 ^ 62 → reachable N c → single_leader c → c_servers c !! i = Some n →
  (∀ j m, c_servers c !! j = Some m →
     applyChan n `prefix_of` applyChan m ∨ applyChan m `prefix_of` applyChan n) ∧
  (∀ x, 0 < x ≤ m_commitIndex n → ∃ e, replicated c x (eq e)).
Proof.
  intros HN Hr Hs Hi. destruct (single_leader_clean c HN Hr Hs) as [Hclean U]. split.
  - intros j m Hj. by apply (undisputed_agree c i j).
  - intros x Hx. apply commit_same; [done..|]. by eapply commit_replicated.
Qed.
End commit.

(** ** Concrete runs *)

(** Server 0 is elected, takes two commands and commits them with server 2, and both apply
    them. *)
Definition committed_run : list action :=
  replicated_run ++
  [AAppendReply 1 (Some 0%nat); AApply 0; AHeartbeat 0 12; AAppend 3 13; AApply 2].
(** Then server 2 is elected in term 2 and commits a third command with server 0; and then
    server 0 is elected again, in term 3. *)
Definition failover_run : list action :=
  committed_run ++
  [ABegin 2 14; AVoteReply 2 None; ARequest 2; AVote 0 15; AVoteReply 2 (Some 0%nat);
   AHeartbeat 2 16; AAppend 4 17; AStart 2 18 (demo_op "k" "c" 3)] ++ batch_round 2 20 ++
  [AAppend 6 21; AAppendReply 5 (Some 0%nat); AApply 2; AHeartbeat 2 22; AAppend 8 23; AApply 0;
   AVoteReply 0 None; AEndRound 0; ABegin 0 24; AVoteReply 0 None; ARequest 0; AVote 0 25;
   AVoteReply 0 (Some 0%nat)].
Definition failover_cluster : option cluster :=
  c ← boot (Ar := bit_archive) 3; run_clean (Ar := bit_archive) failover_run c.

Definition undisputed_b (c : cluster) : bool :=
  forallb (λ e, forallb (λ e', negb (logindex e =? logindex e') || (logterm e =? logterm e'))
    (h_started c)) (h_started c).
Lemma undisputed_b_sound c : undisputed_b c = true → undisputed c.
Proof.
  unfold undisputed_b. rewrite forallb_forall. intros Hl e e' He%list_elem_of_In He'%list_elem_of_In Hx.
  specialize (Hl e He). rewrite forallb_forall in Hl. specialize (Hl e' He').
  apply orb_true_iff in Hl as [Hl|Hl]; b2p; congruence.
Qed.

Lemma failover_clean c : failover_cluster = Some c → clean_reachable (Ar := bit_archive) 3 c.
Proof. intros (c0 & H0 & H1)%bind_Some. by eapply run_clean_reachable. Qed.

Lemma committed_is_replicated_witness :
  match failover_cluster with
  | Some c => ∃ n, c_servers c !! 2 = Some n ∧ m_status n = Leader ∧ m_commitIndex n = 3 ∧
      replicated 3 c 3 (λ e, e ∈ h_started c ∧ logindex e = 3) ∧ ∃ e, replicated 3 c 3 (eq e)
  | None => False
  end.
Proof.
  destruct failover_cluster as [c|] eqn:Hc; [|vm_compute in Hc; discriminate Hc].
  destruct (c_servers c !! 2) as [n|] eqn:Hn.
  2:{ vm_compute in Hc. injection Hc as <-. vm_compute in Hn. discriminate Hn. }
  assert (m_status n = Leader ∧ m_commitIndex n = 3 ∧ undisputed_b c = true) as (Hst & Hcm & U).
  { vm_compute in Hc. injection Hc as <-. vm_compute in Hn. injection Hn as <-. done. }
  pose proof (failover_clean c Hc) as Hclean. clear Hc.
  exists n. split; [done|]. split; [done|]. split; [done|].
  destruct (committed_is_replicated (Ar := bit_archive) 3 c 2 n 3) as [Hall Hsame];
    [reflexivity|exact Hclean|exact Hn|lia|].
  split; [exact Hall|]. by apply Hsame, undisputed_b_sound.
Defined.


Lemma leader_complete_witness :
  match failover_cluster with
  | Some c => ∃ m n e, c_servers c !! 0 = Some m ∧ c_servers c !! 2 = Some n ∧
      m_currentTerm n = 2 ∧ logterm e = 2 ∧ log_entry m 3 = Some e ∧ log_entry n 3 = Some e
  | None => False
  end.
Proof.
  destruct failover_cluster as [c|] eqn:Hc; [|vm_compute in Hc; discriminate Hc].
  destruct (c_servers c !! 0) as [m|] eqn:Hm.
  2:{ vm_compute in Hc. injection Hc as <-. vm_compute in Hm. discriminate Hm. }
  destruct (c_servers c !! 2) as [n|] eqn:Hn.
  2:{ vm_compute in Hc. injection Hc as <-. vm_compute in Hn. discriminate Hn. }
  assert (m_commitIndex n = 3 ∧ m_currentTerm n = 2 ∧ undisputed_b c = true ∧
    head (h_elected c) = Some (3, 0) ∧ logterm <$> log_entry m 3 = Some 2) as (Hcm & Ht & U & Hel & He).
  { vm_compute in Hc. injection Hc as <-. vm_compute in Hn. injection Hn as <-.
    vm_compute in Hm. injection Hm as <-. done. }
  pose proof (failover_clean c Hc) as Hclean. clear Hc.
  assert ((3, 0) ∈ h_elected c) as Hel'.
  { destruct (h_elected c); [discriminate Hel|]. injection Hel as ->. left. }
  destruct (leader_complete (Ar := bit_archive) 3 c 0 3 2 n 3) as (m' & e & Hm' & Hme & Hne);
    [reflexivity|exact Hclean|by apply undisputed_b_sound|exact Hel'|exact Hn|lia|left; lia|].
  rewrite Hm in Hm'. injection Hm' as <-. rewrite Hme in He. injection He as He.
  by exists m, n, e.
Defined.

Lemma single_leader_safe_witness :
  match run_from_boot (Ar := bit_archive) 3 committed_run with
  | Some c => ∃ n m, c_servers c !! 0 = Some n ∧ c_servers c !! 2 = Some m ∧
      length (applyChan m) = 2%nat ∧
      (applyChan n `prefix_of` applyChan m ∨ applyChan m `prefix_of` applyChan n) ∧
      ∃ e, replicated 3 c 2 (eq e)
  | None => False
  end.
Proof.
  destruct (run_from_boot 3 committed_run) as [c|] eqn:Hc; [|vm_compute in Hc; discriminate Hc].
  assert (reachable (Ar := bit_archive) 3 c) as Hr by (by apply (run_reachable 3 committed_run)).
  destruct (c_servers c !! 0) as [n|] eqn:Hn.
  2:{ vm_compute in Hc. injection Hc as <-. vm_compute in Hn. discriminate Hn. }
  destruct (c_servers c !! 2) as [m|] eqn:Hm.
  2:{ vm_compute in Hc. injection Hc as <-. vm_compute in Hm. discriminate Hm. }
  assert (h_elected c = [(1, 0)] ∧ m_commitIndex n = 2 ∧ length (applyChan m) = 2%nat)
    as (He & Hcm & Hl).
  { vm_compute in Hc. injection Hc as <-. vm_compute in Hn. injection Hn as <-.
    vm_compute in Hm. injection Hm as <-. done. }
  exists n, m. split; [done|]. split; [done|]. split; [done|].
  destruct (single_leader_safe (Ar := bit_archive) 3 c 0 n) as [Hpre Hrep];
    [reflexivity|exact Hr| |exact Hn|].
  - intros p q. rewrite He. by intros ->%list_elem_of_singleton ->%list_elem_of_singleton.
  - split; [by apply (Hpre 2)|]. apply Hrep. lia.
Defined.

(** With commands of two leaders for one index even clean runs go wrong: the run in which two
    state machines diverge is one. *)
Example diverging_run_is_clean :
  match c ← boot (Ar := bit_archive) 3; run_clean (Ar := bit_archive) diverging_schedule c with
  | Some c => undisputed_b c = false ∧ applied 0 c !! 1%nat ≠ applied 1 c !! 1%nat
  | None => False
  end.
Proof. vm_compute. split; [done|discriminate]. Qed.
