(* ===== verification/Channels.v ===== *)
(** The glue between components: the [LockQueue] of [src/Raft/raft.h], the RPC entry
    points that the generated services call, and the RPC clients of [KrpcRaftRpcClient].
    The RPC framework itself is not part of the repository: what a call does on the wire
    is an argument. *)
From S2P Require Import Prelude RaftTypes.
Open Scope Z_scope.

(** ** [LockQueue] *)

Section queue.
Context {T : Type}.

(** The elements waiting, oldest first. *)
Definition LockQueue : Type := list T.

Definition push (value : T) (q : LockQueue) : LockQueue := q ++ [value].

(** [timeOutPop]: [None] when the queue is still empty at the deadline; [arrived] are the
    elements pushed while it waits. *)
Definition timeOutPop (arrived : list T) (q : LockQueue) : option T * LockQueue :=
  let q := match q with [] => foldl (λ q v, push v q) [] arrived | _ => q end in
  match q with [] => (None, []) | v :: q => (Some v, q) end.

(** One use of the queue by some thread. *)
Inductive queue_op := QPush (v : T) | QPop (arrived : list T).
Definition queue_step (o : queue_op) (s : LockQueue * list T) : LockQueue * list T :=
  match o with
  | QPush v => (push v s.1, s.2)
  | QPop arrived =>
      let '(r, q) := timeOutPop arrived s.1 in
      (q, s.2 ++ match r with Some v => [v] | None => [] end)
  end.
(** What an operation puts into the queue, which is empty or not when it starts. *)
Definition queue_input (o : queue_op) (q : LockQueue) : list T :=
  match o with
  | QPush v => [v]
  | QPop arrived => match q with [] => arrived | _ => [] end
  end.
Fixpoint queue_run (os : list queue_op) (s : LockQueue * list T) (inputs : list T)
    : LockQueue * list T * list T :=
  match os with
  | [] => (s, inputs)
  | o :: os' => queue_run os' (queue_step o s) (inputs ++ queue_input o s.1)
  end.

Lemma push_foldl (q l : list T) : foldl (λ q v, push v q) q l = q ++ l.
Proof.
  revert q. induction l as [|v l IH]; intros q; cbn; [by rewrite app_nil_r|].
  rewrite IH. unfold push. by rewrite <- app_assoc.
Qed.

Lemma queue_step_conserves o q popped :
  (queue_step o (q, popped)).2 ++ (queue_step o (q, popped)).1 =
  popped ++ q ++ queue_input o q.
Proof.
  destruct o as [v|arrived]; [done|]. cbn [queue_step queue_input fst snd]. unfold timeOutPop.
  destruct q as [|v q]; [rewrite push_foldl; destruct arrived as [|a arrived]|];
    cbn [fst snd app]; rewrite ?app_nil_r, <- ?app_assoc; done.
Qed.

Lemma queue_run_conserves os s inputs :
  let '(q, popped, inputs') := queue_run os s inputs in
  s.2 ++ s.1 = inputs → popped ++ q = inputs'.
Proof.
  revert s inputs. induction os as [|o os IH]; intros [q popped] inputs; [by cbn|].
  cbn [queue_run]. specialize (IH (queue_step o (q, popped)) (inputs ++ queue_input o q)).
  destruct (queue_run _ _ _) as [[q' popped'] inputs']. intros Hs. apply IH.
  rewrite queue_step_conserves. cbn in Hs. by rewrite <- Hs, <- app_assoc.
Qed.

(** The queue is first-in first-out and loses nothing: whatever interleaving of
    pushes and timed pops runs on an empty queue, the values popped followed by those
    still waiting are exactly the values pushed, in the order they were pushed. *)
Theorem LockQueue_fifo (os : list queue_op) :
  let '(q, popped, pushed) := queue_run os ([], []) [] in popped ++ q = pushed.
Proof.
  pose proof (queue_run_conserves os ([], []) []) as H.
  destruct (queue_run _ _ _) as [[q popped] pushed]. by apply H.
Qed.
End queue.
Arguments LockQueue : clear implicits.
Arguments queue_op : clear implicits.

(** ** RPC entry points and clients *)

(** The service methods that the framework calls ignore the controller, call the handler and
    run [done] if there is one; the flag tells that it ran. *)
Definition service_method {A B S} (handler : A → S → outcome (S * B)) (request : A)
    (has_done : bool) (s : S) : outcome (S * B * bool) :=
  '(s, response) ← handler request s;
  Ok (s, response, has_done).

(** The client side of a peer: a call fails or fills in the reply. *)
Record RaftRpcUtil := mkRaftRpcUtil {
  rpc_AppendEntries : AppendEntriesArgs → option AppendEntriesReply;
  rpc_RequestVote : RequestVoteArgs → option RequestVoteReply;
  rpc_PreRequestVote : PreRequestVoteArgs → option PreRequestVoteReply;
  rpc_InstallSnapshot : InstallSnapshotRequest → option InstallSnapshotResponse;
  rpc_ReadIndex : ReadIndexRequest → option ReadIndexResponse
}.
(** What the stubs of the RPC framework do with a call: whether [controller.Failed()], and
    the reply object. *)
Record raftRpc_Stub := mkStub {
  stub_AppendEntries : AppendEntriesArgs → bool * AppendEntriesReply;
  stub_RequestVote : RequestVoteArgs → bool * RequestVoteReply;
  stub_PreRequestVote : PreRequestVoteArgs → bool * PreRequestVoteReply;
  stub_InstallSnapshot : InstallSnapshotRequest → bool * InstallSnapshotResponse;
  stub_ReadIndex : ReadIndexRequest → bool * ReadIndexResponse
}.
(** The body of every method of the client: [false] when the controller failed. *)
Definition client_call {A B} (stub : A → bool * B) (args : A) : option B :=
  let '(failed, reply) := stub args in
  if failed then None else Some reply.
Definition KrpcRaftRpcClient (stub : raftRpc_Stub) : RaftRpcUtil := mkRaftRpcUtil
  (client_call (stub_AppendEntries stub)) (client_call (stub_RequestVote stub))
  (client_call (stub_PreRequestVote stub)) (client_call (stub_InstallSnapshot stub))
  (client_call (stub_ReadIndex stub)).

(** [sendReadIndex]; [m_peers] has a client for every server but this one, whose entry
    is null. *)
Definition sendReadIndex (peers : Z → RaftRpcUtil) (serverId : Z) (request : ReadIndexRequest)
    (n : node) : outcome (option ReadIndexResponse) :=
  if (serverId <? 0) || (Z.of_nat (m_peers_size n) <=? serverId) then Ok None
  else if serverId =? m_me n then Undefined "m_peers[m_me] is null"
  else Ok (rpc_ReadIndex (peers serverId) request).
