(* ===== verification/Hnsw.v ===== *)
(** The label layer of [HierarchicalNSW] in [src/third_party/hnswlib/hnswalg.h], the
    part of the vendored index whose state the recall engine depends on: which internal
    slot holds which label, which slots are marked deleted, and the exceptions.  The
    graph (the links between slots and the greedy search over them) is a parameter. *)
From S2P Require Import Prelude.
From stdpp Require Import sorting.
From Stdlib Require Import Sorted.
Open Scope Z_scope.

Definition HNSW_DIM : Z := 128.

Section index.
Context {F : Type}.

Record slot := mkSlot { ext_label : Z; data : list F; marked : bool }.
#[export] Instance slot_expand : Expand slot := λ s,
  mkSlot (ext_label s) (data s) (marked s).

(** [cur_element_count] is the number of slots. *)
Record HierarchicalNSW := mkHnsw {
  slots : list slot;
  label_lookup_ : gmap Z nat;
  deleted_elements : gset nat;
  num_deleted_ : Z;
  max_elements_ : Z;
  allow_replace_deleted_ : bool;
  ef_ : Z
}.
#[export] Instance hnsw_expand : Expand HierarchicalNSW := λ h,
  mkHnsw (slots h) (label_lookup_ h) (deleted_elements h) (num_deleted_ h)
    (max_elements_ h) (allow_replace_deleted_ h) (ef_ h).
Definition cur_element_count (h : HierarchicalNSW) : Z := vsize (slots h).

Definition new_hnsw (max_elements : Z) (allow_replace_deleted : bool) : HierarchicalNSW :=
  mkHnsw [] ∅ ∅ 0 max_elements allow_replace_deleted 10.

(** What the model does not define: the order of a hash set ([begin()]) and the search. *)
Class HnswLib := {
  set_begin : gset nat → nat;
  searchKnnCloserFirst : HierarchicalNSW → list F → Z → list (F * Z);
  fstdistfunc : list F → list F → F;
  dist_le : F → F → Prop
}.
(** [begin()] of a set that is not empty is one of its elements; a search returns the
    distances and labels of distinct slots that are not marked deleted, at most [k] of
    them, closer first. *)
Class HnswLaws (H : HnswLib) := {
  set_begin_in X : X ≠ ∅ → set_begin X ∈ X;
  search_live h q k :
    ∃ ids, NoDup ids ∧ Z.of_nat (length ids) ≤ Z.max 0 k ∧
      Forall2 (λ id r, ∃ s, slots h !! id = Some s ∧ marked s = false ∧
                 r = (fstdistfunc q (data s), ext_label s))
        ids (searchKnnCloserFirst h q k);
  search_sorted h q k : StronglySorted dist_le (searchKnnCloserFirst h q k).*1
}.

Context `{L : HnswLib}.

(** [memcpy] of [data_size_] bytes from the caller's buffer, which must be that long. *)
Definition copy_data (data_point : list F) : outcome (list F) :=
  if decide (HNSW_DIM ≤ vsize data_point) then Ok (take (Z.to_nat HNSW_DIM) data_point)
  else Undefined "data_point".

Definition get_slot (id : nat) (h : HierarchicalNSW) : outcome slot :=
  match slots h !! id with Some s => Ok s | None => Undefined "internal id" end.
Definition put_slot (id : nat) (s : slot) (h : HierarchicalNSW) : HierarchicalNSW :=
  h <| slots := <[id := s]> (slots h) |>.

(** The vector of a slot; the repair of the links around it is part of the graph. *)
Definition updatePoint (data_point : list F) (id : nat) (h : HierarchicalNSW)
    : outcome HierarchicalNSW :=
  s ← get_slot id h; d ← copy_data data_point; Ok (put_slot id (s <| data := d |>) h).

Definition markDeletedInternal (id : nat) (h : HierarchicalNSW) : outcome HierarchicalNSW :=
  s ← get_slot id h;
  if marked s then Terminate "The requested to delete element is already deleted"
  else
    let h := put_slot id (s <| marked := true |>) h in
    let h := h <| num_deleted_ := num_deleted_ h + 1 |> in
    Ok (if allow_replace_deleted_ h
        then h <| deleted_elements := {[id]} ∪ deleted_elements h |> else h).

Definition unmarkDeletedInternal (id : nat) (h : HierarchicalNSW) : outcome HierarchicalNSW :=
  s ← get_slot id h;
  if marked s then
    let h := put_slot id (s <| marked := false |>) h in
    let h := h <| num_deleted_ := num_deleted_ h - 1 |> in
    Ok (if allow_replace_deleted_ h
        then h <| deleted_elements := deleted_elements h ∖ {[id]} |> else h)
  else Terminate "The requested to undelete element is not deleted".

Definition markDelete (label : Z) (h : HierarchicalNSW) : outcome HierarchicalNSW :=
  match label_lookup_ h !! label with
  | None => Terminate "Label not found"
  | Some id => markDeletedInternal id h
  end.

(** [addPoint(data_point, label, int level)] *)
Definition addPoint_level (data_point : list F) (label : Z) (h : HierarchicalNSW)
    : outcome HierarchicalNSW :=
  match label_lookup_ h !! label with
  | Some id =>
      s ← get_slot id h;
      if allow_replace_deleted_ h && marked s
      then Terminate "Can't use addPoint to update deleted elements"
      else
        h ← (if marked s then unmarkDeletedInternal id h else Ok h);
        updatePoint data_point id h
  | None =>
      if max_elements_ h <=? cur_element_count h
      then Terminate "The number of elements exceeds the specified limit"
      else
        d ← copy_data data_point;
        let h := h <| label_lookup_ := <[label := length (slots h)]> (label_lookup_ h) |> in
        Ok (h <| slots := slots h ++ [mkSlot label d false] |>)
  end.

(** [addPoint(data_point, label, bool replace_deleted)] *)
Definition addPoint (data_point : list F) (label : Z) (replace_deleted : bool)
    (h : HierarchicalNSW) : outcome HierarchicalNSW :=
  if negb (allow_replace_deleted_ h) && replace_deleted
  then Terminate "Replacement of deleted elements is disabled in constructor"
  else if negb replace_deleted then addPoint_level data_point label h
  else if decide (deleted_elements h = ∅) then addPoint_level data_point label h
  else
    let id := set_begin (deleted_elements h) in
    let h := h <| deleted_elements := deleted_elements h ∖ {[id]} |> in
    s ← get_slot id h;
    let label_replaced := ext_label s in
    let h := put_slot id (s <| ext_label := label |>) h in
    let h := h <| label_lookup_ := <[label := id]> (delete label_replaced (label_lookup_ h)) |> in
    h ← unmarkDeletedInternal id h;
    updatePoint data_point id h.

(** [loadIndex] of a file that [saveIndex] wrote, through the constructor that takes a
    location: replacement of deleted elements is off, [ef_] and [max_elements_] are set
    again. *)
Definition reload (h : HierarchicalNSW) : HierarchicalNSW :=
  mkHnsw (slots h)
    (foldl (λ m p, <[ext_label p.2 := p.1]> m) ∅ (imap pair (slots h)))
    ∅ (vsize (filter (λ s, marked s = true) (slots h)))
    (if 0 <? cur_element_count h then max_elements_ h else 0) false 10.
End index.
Arguments slot : clear implicits.
Arguments HierarchicalNSW : clear implicits.
Arguments HnswLib : clear implicits.

(** A complete scan, for the concrete executions of the development: vectors of integers
    under [InnerProductSpace], whose distance is one minus the inner product. *)
Fixpoint inner (a b : list Z) : Z :=
  match a, b with x :: a, y :: b => x * y + inner a b | _, _ => 0 end.
Definition closer (r r' : Z * Z * nat) : Prop := r.1.1 ≤ r'.1.1.
#[export] Instance closer_dec : RelDecision closer.
Proof. intros ??. unfold closer. apply _. Defined.
#[export] Instance closer_total : Total closer.
Proof. intros ??. unfold closer. lia. Qed.
#[export] Instance closer_trans : Transitive closer.
Proof. intros ???. unfold closer. lia. Qed.

Definition scan (q : list Z) (h : HierarchicalNSW Z) : list (Z * Z * nat) :=
  merge_sort closer ((λ p : nat * slot Z, (1 - inner q (data p.2), ext_label p.2, p.1)) <$>
    filter (λ p, marked p.2 = false) (imap pair (slots h))).
#[export] Instance scan_index : HnswLib Z := {|
  set_begin X := default 0%nat (head (elements X));
  searchKnnCloserFirst h q k := fst <$> take (Z.to_nat k) (scan q h);
  fstdistfunc q d := 1 - inner q d;
  dist_le := Z.le
|}.

Lemma scan_elements q h :
  scan q h ≡ₚ (λ p : nat * slot Z, (1 - inner q (data p.2), ext_label p.2, p.1)) <$>
    filter (λ p, marked p.2 = false) (imap pair (slots h)).
Proof. apply merge_sort_Permutation. Qed.

Lemma imap_pair_fst {A} (l : list A) : (imap pair l).*1 = seq 0 (length l).
Proof.
  rewrite fmap_imap. apply list_eq. intros i. rewrite list_lookup_imap.
  destruct (l !! i) as [x|] eqn:Hi; cbn.
  - symmetry. apply lookup_seq. split; [lia|]. by apply lookup_lt_Some in Hi.
  - symmetry. apply lookup_seq_ge. by apply lookup_ge_None in Hi.
Qed.

Lemma scan_NoDup q h : NoDup (snd <$> scan q h).
Proof.
  rewrite scan_elements, <- list_fmap_compose.
  apply (sublist_NoDup _ (imap pair (slots h)).*1).
  - rewrite imap_pair_fst. apply NoDup_seq.
  - rewrite (list_fmap_ext _ fst) by done. apply fmap_sublist, sublist_filter.
Qed.

#[export] Instance scan_laws : HnswLaws scan_index.
Proof.
  split.
  - intros X HX. cbn. destruct (elements X) as [|x l] eqn:E.
    + apply elements_empty_iff in E. set_solver.
    + cbn. apply elem_of_elements. rewrite E. set_solver.
  - intros h q k. exists (snd <$> take (Z.to_nat k) (scan q h)). split_and!.
    + eapply sublist_NoDup; [apply scan_NoDup|].
      apply fmap_sublist, sublist_take.
    + rewrite length_fmap, length_take. lia.
    + cbn [searchKnnCloserFirst scan_index]. apply Forall2_fmap, Forall_Forall2_diag.
      apply Forall_forall. intros [[d lb] id] Hin. apply elem_of_take in Hin as Hin'.
      destruct Hin' as (j & Hj & _). apply list_elem_of_lookup_2 in Hj.
      rewrite scan_elements, list_elem_of_fmap in Hj.
      destruct Hj as ([j' s] & [= -> -> ->] & Hj%list_elem_of_filter).
      destruct Hj as [Hm (i & x & Heq & Hi)%elem_of_lookup_imap_1].
      injection Heq as -> ->. by exists x.
  - intros h q k. cbn. rewrite <- list_fmap_compose.
    assert (StronglySorted closer (take (Z.to_nat k) (scan q h))) as Hs.
    { eapply StronglySorted_app_1_l. rewrite take_drop. apply (StronglySorted_merge_sort closer). }
    induction Hs as [|r l Hs IH Hr]; [constructor|]. cbn. constructor; [done|].
    rewrite Forall_fmap. eapply Forall_impl; [exact Hr|]. by intros [[]].
Qed.
