(* ===== verification/RecallEngine.v ===== *)
(** [RecallEngine] of [src/KvServer/RecallEngine.{h,cpp}]: the vector index a server
    keeps beside its key-value store, on top of the label layer of [Hnsw]. *)
From S2P Require Import Prelude OpCoder Hnsw.
From Stdlib Require Import Sorted.
Open Scope Z_scope.

(** [static_cast<int64_t>] of a [size_t]. *)
Definition to_int64 (z : Z) : Z := (z + 2 ^ 63) mod 2 ^ 64 - 2 ^ 63.

Lemma to_size_t_int64 z : 0 ≤ z < 2 ^ 64 → to_size_t (to_int64 z) = z.
Proof.
  intros Hz. unfold to_size_t, to_int64. rewrite Zminus_mod_idemp_l.
  replace (z + 2 ^ 63 - 2 ^ 63) with z by lia. apply Z.mod_small. lia.
Qed.

(** [std::hash<std::string>] is fixed by the implementation of the library; its results
    are of type [size_t]. *)
Class StdHash := { std_hash : string → Z }.
Class StdHashLaws (H : StdHash) := { std_hash_range s : 0 ≤ std_hash s < 2 ^ 64 }.

Definition HNSW_EF_SEARCH : Z := 50.

Section engine.
Context {F : Type}.

Record RecallEngine := mkRecall {
  m_index : HierarchicalNSW F;
  m_labelToItemId : gmap Z string;
  m_deletedItems : gset string;
  m_activeLabels : gset Z;
  maxElements_ : Z;
  efSearch_ : Z
}.
#[export] Instance RecallEngine_expand : Expand RecallEngine := λ e,
  mkRecall (m_index e) (m_labelToItemId e) (m_deletedItems e) (m_activeLabels e)
    (maxElements_ e) (efSearch_ e).

Context `{H : HnswLib F} `{S : StdHash}.

Definition hashItemId (itemId : string) : Z := to_int64 (std_hash itemId).

(** [RecallEngine(maxElements)] with the other parameters at their defaults. *)
Definition new_engine (maxElements : Z) : RecallEngine :=
  let efSearch := HNSW_EF_SEARCH in
  mkRecall ((new_hnsw maxElements true) <| ef_ := efSearch |>) ∅ ∅ ∅ maxElements efSearch.

Definition maxElements (e : RecallEngine) : Z := maxElements_ e.

Definition setEfSearch (ef : Z) (e : RecallEngine) : RecallEngine :=
  e <| m_index := (m_index e) <| ef_ := ef |> |> <| efSearch_ := ef |>.

(** A label is an [int64_t] that the index takes as a [size_t]. *)
Definition addPoint (itemId : string) (embedding : list F) (e : RecallEngine)
    : outcome RecallEngine :=
  let label := hashItemId itemId in
  if decide (label ∈ m_activeLabels e) then Ok e
  else
    let e := e <| m_deletedItems := m_deletedItems e ∖ {[itemId]} |> in
    let e := e <| m_labelToItemId := <[label := itemId]> (m_labelToItemId e) |> in
    let e := e <| m_activeLabels := {[label]} ∪ m_activeLabels e |> in
    ix ← Hnsw.addPoint embedding (to_size_t label) false (m_index e);
    Ok (e <| m_index := ix |>).

Definition upsertPoint (itemId : string) (embedding : list F) (e : RecallEngine)
    : outcome RecallEngine :=
  let label := hashItemId itemId in
  let existed := bool_decide (label ∈ m_activeLabels e) in
  let e := e <| m_deletedItems := m_deletedItems e ∖ {[itemId]} |> in
  if existed then
    let e := e <| m_labelToItemId := <[label := itemId]> (m_labelToItemId e) |> in
    ix ← Hnsw.addPoint embedding (to_size_t label) true (m_index e);
    Ok (e <| m_index := ix |>)
  else
    let e := e <| m_activeLabels := {[label]} ∪ m_activeLabels e |> in
    let e := e <| m_labelToItemId := <[label := itemId]> (m_labelToItemId e) |> in
    ix ← Hnsw.addPoint embedding (to_size_t label) false (m_index e);
    Ok (e <| m_index := ix |>).

Definition deletePoint (itemId : string) (e : RecallEngine) : outcome RecallEngine :=
  let label := hashItemId itemId in
  if decide (label ∈ m_activeLabels e) then
    ix ← markDelete (to_size_t label) (m_index e);
    let e := e <| m_index := ix |> in
    let e := e <| m_deletedItems := {[itemId]} ∪ m_deletedItems e |> in
    Ok (e <| m_activeLabels := m_activeLabels e ∖ {[label]} |>)
  else Ok e.

(** What a search keeps of the pairs the index returned. *)
Definition keep_result (e : RecallEngine) (p : F * Z) : option (string * F) :=
  match m_labelToItemId e !! to_int64 p.2 with
  | Some itemId => if decide (itemId ∈ m_deletedItems e) then None else Some (itemId, p.1)
  | None => None
  end.
(** The distance function reads [HNSW_DIM] floats of the query. *)
Definition searchTopK (query : list F) (topK : Z) (e : RecallEngine)
    : outcome (list string * list F) :=
  if cur_element_count (m_index e) =? 0 then Ok ([], [])
  else
    q ← copy_data query;
    let knn := searchKnnCloserFirst (m_index e) q (to_size_t topK) in
    let result := omap (keep_result e) knn in
    Ok (result.*1, result.*2).

Definition size (e : RecallEngine) : Z := cur_element_count (m_index e).
Definition deletedCount (e : RecallEngine) : Z := Z.of_nat (base.size (m_deletedItems e)).
Definition getIndexPath (persistDir : string) (me : Z) : string :=
  (persistDir +:+ "/hnsw_index_" +:+ to_string me +:+ ".bin")%string.

(** ** The specification: a map and the items deleted from it *)

Inductive engine_op :=
  | OAdd (i : string) (v : list F)
  | OUpsert (i : string) (v : list F)
  | ODelete (i : string).
Definition op_item (o : engine_op) : string :=
  match o with OAdd i _ | OUpsert i _ | ODelete i => i end.
Definition engine_step (o : engine_op) (e : RecallEngine) : outcome RecallEngine :=
  match o with
  | OAdd i v => addPoint i v e
  | OUpsert i v => upsertPoint i v e
  | ODelete i => deletePoint i e
  end.

Definition spec_state : Type := gmap string (list F) * gset string.
Definition spec_insert (cap : Z) (i : string) (v : list F) (s : spec_state)
    : outcome spec_state :=
  if decide (i ∈ s.2) then Terminate "Can't use addPoint to update deleted elements"
  else if cap <=? Z.of_nat (base.size s.1 + base.size s.2)
  then Terminate "The number of elements exceeds the specified limit"
  else d ← copy_data v; Ok (<[i := d]> s.1, s.2).
Definition spec_step (cap : Z) (o : engine_op) (s : spec_state) : outcome spec_state :=
  match o with
  | OAdd i v => if decide (i ∈ dom s.1) then Ok s else spec_insert cap i v s
  | OUpsert i v =>
      if decide (i ∈ dom s.1) then d ← copy_data v; Ok (<[i := d]> s.1, s.2)
      else spec_insert cap i v s
  | ODelete i => if decide (i ∈ dom s.1) then Ok (delete i s.1, {[i]} ∪ s.2) else Ok s
  end.
(** An update of an item that is in the index, while some other item has been deleted,
    is outside the specification: see [duplicated]. *)
Definition clean (o : engine_op) (s : spec_state) : bool :=
  match o with
  | OUpsert i _ => bool_decide (i ∈ dom s.1 → s.2 = ∅)
  | _ => true
  end.
Fixpoint clean_run (cap : Z) (os : list engine_op) (s : spec_state) : bool :=
  match os with
  | [] => true
  | o :: os' =>
      clean o s && match spec_step cap o s with Ok s' => clean_run cap os' s' | _ => true end
  end.

(** ** The representation *)

Definition hash_inj (X : gset string) : Prop :=
  ∀ i j, i ∈ X → j ∈ X → std_hash i = std_hash j → i = j.

(** The slots hold the items of the map and the deleted ones, each once. *)
Record index_rep (cap : Z) (X : gset string) (ix : HierarchicalNSW F) (s : spec_state) : Prop := {
  r_items : dom s.1 ∪ s.2 ⊆ X;
  r_disjoint : dom s.1 ## s.2;
  r_replace : allow_replace_deleted_ ix = true;
  r_cap : max_elements_ ix = cap;
  r_count : length (slots ix) = (base.size s.1 + base.size s.2)%nat;
  r_deleted_slots id :
    id ∈ deleted_elements ix ↔ ∃ sl, slots ix !! id = Some sl ∧ marked sl = true;
  r_slot id sl : slots ix !! id = Some sl →
    ∃ i, i ∈ X ∧ ext_label sl = std_hash i ∧ label_lookup_ ix !! std_hash i = Some id;
  r_find i : i ∈ X →
    match label_lookup_ ix !! std_hash i with
    | None => i ∉ dom s.1 ∪ s.2
    | Some id => ∃ sl, slots ix !! id = Some sl ∧ ext_label sl = std_hash i ∧
        if marked sl then i ∈ s.2 else s.1 !! i = Some (data sl)
    end
}.
Record represents (cap : Z) (X : gset string) (e : RecallEngine) (s : spec_state) : Prop := {
  r_index : index_rep cap X (m_index e) s;
  r_labels lb i :
    m_labelToItemId e !! lb = Some i ↔ lb = hashItemId i ∧ i ∈ dom s.1 ∪ s.2;
  r_active i : i ∈ X → hashItemId i ∈ m_activeLabels e ↔ i ∈ dom s.1;
  r_deleted : m_deletedItems e = s.2
}.

Context `{HL : !HnswLaws H} `{SL : !StdHashLaws S}.

Lemma label_hash i : to_size_t (hashItemId i) = std_hash i.
Proof. apply to_size_t_int64, std_hash_range. Qed.
Lemma hashItemId_inj X i j :
  hash_inj X → i ∈ X → j ∈ X → hashItemId i = hashItemId j → i = j.
Proof. intros HX Hi Hj E. apply HX; [done..|]. by rewrite <- !label_hash, E. Qed.

Lemma new_engine_represents cap X : represents cap X (new_engine cap) (∅, ∅).
Proof.
  split; [split|..]; cbn; try set_solver.
  intros i _. rewrite lookup_empty. set_solver.
Qed.

Lemma find_live cap X ix s i :
  index_rep cap X ix s → i ∈ dom s.1 →
  ∃ id sl, label_lookup_ ix !! std_hash i = Some id ∧ slots ix !! id = Some sl ∧
    ext_label sl = std_hash i ∧ marked sl = false ∧ s.1 !! i = Some (data sl).
Proof.
  intros R Hi. pose proof (r_items _ _ _ _ R) as HX. pose proof (r_disjoint _ _ _ _ R) as HD.
  pose proof (r_find _ _ _ _ R i ltac:(set_solver)) as Hf.
  destruct (label_lookup_ ix !! std_hash i) as [id|] eqn:E; [|set_solver].
  destruct Hf as (sl & Hsl & Hl & Hm). destruct (marked sl) eqn:Em; [set_solver|].
  by exists id, sl.
Qed.

(** Insertion of an item the index has never held. *)
Lemma index_insert cap X ix s i v :
  hash_inj X → index_rep cap X ix s → i ∈ X → i ∉ dom s.1 →
  match spec_insert cap i v s with
  | Ok s' => ∃ ix', Hnsw.addPoint v (std_hash i) false ix = Ok ix' ∧ index_rep cap X ix' s'
  | Terminate w => Hnsw.addPoint v (std_hash i) false ix = Terminate w
  | Undefined w => Hnsw.addPoint v (std_hash i) false ix = Undefined w
  end.
Proof.
  intros HX R Hi Hm. unfold spec_insert, Hnsw.addPoint, addPoint_level.
  rewrite (r_replace _ _ _ _ R). cbn [negb andb].
  pose proof (r_find _ _ _ _ R i Hi) as Hf. case_decide as HD.
  { destruct (label_lookup_ ix !! std_hash i) as [id|] eqn:E; [|set_solver].
    destruct Hf as (sl & Hsl & _ & Hmk). unfold get_slot. rewrite Hsl. cbn.
    destruct (marked sl); [done|]. apply elem_of_dom_2 in Hmk. set_solver. }
  destruct (label_lookup_ ix !! std_hash i) as [id|] eqn:E.
  { destruct Hf as (sl & Hsl & _ & Hmk). destruct (marked sl); [set_solver|].
    apply elem_of_dom_2 in Hmk. set_solver. }
  rewrite (r_cap _ _ _ _ R). unfold cur_element_count, vsize. rewrite (r_count _ _ _ _ R).
  destruct (cap <=? _); [done|]. unfold copy_data.
  case_decide as Hv; [|done]. cbn [mbind outcome_bind]. eexists; split; [done|].
  apply not_elem_of_dom in Hm as Hm'. split; cbn.
  - pose proof (r_items _ _ _ _ R). rewrite dom_insert. set_solver.
  - pose proof (r_disjoint _ _ _ _ R). rewrite dom_insert. set_solver.
  - by apply R.
  - by apply R.
  - rewrite length_app, (r_count _ _ _ _ R), map_size_insert_None by done. cbn. lia.
  - intros id. rewrite (r_deleted_slots _ _ _ _ R). split.
    + intros (sl & Hsl & ?). exists sl. by rewrite (lookup_app_l_Some _ _ _ _ Hsl).
    + intros (sl & [Hsl|[_ Hsl]]%lookup_app_Some & ?); [by exists sl|].
      by apply list_lookup_singleton_Some in Hsl as [_ <-].
  - intros id sl [Hsl|[Hlen Hsl]]%lookup_app_Some.
    + destruct (r_slot _ _ _ _ R id sl Hsl) as (j & Hj & Hl & Hlk). exists j.
      split_and!; [done..|]. rewrite lookup_insert_ne; [done|]. congruence.
    + apply list_lookup_singleton_Some in Hsl as [Hz <-]. exists i.
      rewrite lookup_insert_eq. split_and!; [done..|]. f_equal.
      pose proof (r_count _ _ _ _ R). lia.
  - intros j Hj. destruct (decide (j = i)) as [->|Hne].
    + rewrite lookup_insert_eq, <- (r_count _ _ _ _ R). eexists.
      split; [by apply list_lookup_middle|].
      split; [done|]. cbn. by rewrite lookup_insert_eq.
    + rewrite lookup_insert_ne by (intros Heq; apply Hne; by apply HX).
      pose proof (r_find _ _ _ _ R j Hj) as Hf'.
      destruct (label_lookup_ ix !! std_hash j) as [id|]; [|rewrite dom_insert; set_solver].
      destruct Hf' as (sl & Hsl & Hl & Hmk). exists sl.
      rewrite (lookup_app_l_Some _ _ _ _ Hsl). split_and!; [done..|].
      destruct (marked sl); [done|]. by rewrite lookup_insert_ne.
Qed.

(** Rewriting the slot of an item that is in the map, keeping its label. *)
(** Two items do not share a slot. *)
Lemma label_other cap X ix s i id sl :
  hash_inj X → index_rep cap X ix s → i ∈ X → slots ix !! id = Some sl →
  ext_label sl = std_hash i →
  ∀ j, j ∈ X → j ≠ i → ∀ id', label_lookup_ ix !! std_hash j = Some id' → id' ≠ id.
Proof.
  intros HX R HiX Hsl Hl j Hj Hne id' Hid' ->. pose proof (r_find _ _ _ _ R j Hj) as Hf.
  rewrite Hid', Hsl in Hf. destruct Hf as (? & [= <-] & Hl' & _). apply Hne, HX; [done..|].
  congruence.
Qed.

Lemma index_put cap X ix ix' s s' i id sl sl' :
  hash_inj X → index_rep cap X ix s → i ∈ dom s.1 →
  label_lookup_ ix !! std_hash i = Some id → slots ix !! id = Some sl →
  ext_label sl' = ext_label sl →
  slots ix' = <[id := sl']> (slots ix) →
  label_lookup_ ix' = label_lookup_ ix →
  allow_replace_deleted_ ix' = true → max_elements_ ix' = cap →
  deleted_elements ix' = (if marked sl' then {[id]} ∪ deleted_elements ix
                          else deleted_elements ix ∖ {[id]}) →
  (if marked sl' then s' = (delete i s.1, {[i]} ∪ s.2)
   else s' = (<[i := data sl']> s.1, s.2)) →
  index_rep cap X ix' s'.
Proof.
  intros HX R Hi Hid Hsl Hl Es El Ea Em Ed Es'.
  pose proof (r_items _ _ _ _ R) as HI. pose proof (r_disjoint _ _ _ _ R) as HD.
  assert (id < length (slots ix))%nat as Hlt by (by eapply lookup_lt_Some).
  assert (HiX : i ∈ X) by set_solver.
  destruct (find_live _ _ _ _ _ R Hi) as (id' & sl0 & E1 & E2 & E3 & E4 & E5).
  rewrite Hid in E1. injection E1 as <-. rewrite Hsl in E2. injection E2 as <-.
  pose proof (label_other cap X ix s i id sl HX R HiX Hsl ltac:(congruence)) as Hother.
  assert (∀ j, j ≠ i → s'.1 !! j = s.1 !! j ∧ (j ∈ s'.2 ↔ j ∈ s.2)) as Hsame.
  { clear - Es'. intros j Hne. destruct (marked sl'); subst s'; cbn.
    - rewrite lookup_delete_ne by done. set_solver.
    - by rewrite lookup_insert_ne. }
  split.
  - destruct (marked sl'); subst s'; cbn; rewrite ?dom_delete, ?dom_insert; set_solver.
  - destruct (marked sl'); subst s'; cbn; rewrite ?dom_delete, ?dom_insert; set_solver.
  - done.
  - done.
  - rewrite Es, length_insert, (r_count _ _ _ _ R). destruct (marked sl'); subst s'; cbn.
    + rewrite map_size_delete_Some by (by rewrite E5).
      rewrite size_union by set_solver. rewrite size_singleton.
      assert (base.size s.1 ≠ 0%nat); [|lia]. intros Hz%map_size_empty_inv.
      rewrite Hz in E5. by rewrite lookup_empty in E5.
    + by rewrite map_size_insert_Some by (by rewrite E5).
  - intros j. rewrite Ed, Es. destruct (decide (j = id)) as [->|Hne].
    + rewrite list_lookup_insert_eq by done. destruct (marked sl') eqn:E; [set_solver|].
      split; [set_solver|]. intros (? & [= <-] & ?). congruence.
    + rewrite list_lookup_insert_ne by done. rewrite <- (r_deleted_slots _ _ _ _ R).
      destruct (marked sl'); set_solver.
  - rewrite Es, El. intros j sl2 Hj. destruct (decide (j = id)) as [->|Hne].
    + rewrite list_lookup_insert_eq in Hj by done. injection Hj as <-. exists i.
      split_and!; [done|congruence|done].
    + rewrite list_lookup_insert_ne in Hj by done. by apply (r_slot _ _ _ _ R).
  - rewrite Es, El. intros j Hj. destruct (decide (j = i)) as [->|Hne].
    + rewrite Hid. exists sl'. rewrite list_lookup_insert_eq by done.
      split_and!; [done|congruence|]. destruct (marked sl'); subst s'; cbn; [set_solver|].
      by rewrite lookup_insert_eq.
    + pose proof (r_find _ _ _ _ R j Hj) as Hf. pose proof (Hother j Hj Hne) as Ho.
      destruct (label_lookup_ ix !! std_hash j) as [id'|].
      * destruct Hf as (slj & Hslj & Hlj & Hm). exists slj.
        rewrite list_lookup_insert_ne by (symmetry; by apply Ho). split_and!; [done..|].
        destruct (Hsame j Hne) as (-> & Hj2). by destruct (marked slj); [apply Hj2|].
      * rewrite not_elem_of_union, !not_elem_of_dom in Hf |- *.
        destruct (Hsame j Hne) as (-> & Hj2). by rewrite Hj2.
Qed.

Lemma index_update cap X ix s i v :
  hash_inj X → index_rep cap X ix s → i ∈ dom s.1 → s.2 = ∅ →
  match copy_data v with
  | Ok d => ∃ ix', Hnsw.addPoint v (std_hash i) true ix = Ok ix' ∧
      index_rep cap X ix' (<[i := d]> s.1, s.2)
  | Terminate w => Hnsw.addPoint v (std_hash i) true ix = Terminate w
  | Undefined w => Hnsw.addPoint v (std_hash i) true ix = Undefined w
  end.
Proof.
  intros HX R Hi HD. destruct (find_live _ _ _ _ _ R Hi) as (id & sl & E1 & E2 & E3 & E4 & E5).
  assert (deleted_elements ix = ∅) as Hdel.
  { apply set_eq. intros j. rewrite (r_deleted_slots _ _ _ _ R). split; [|set_solver].
    intros (sl' & Hsl' & Hm). destruct (r_slot _ _ _ _ R j sl' Hsl') as (k & Hk & Hl & Hlk).
    pose proof (r_find _ _ _ _ R k Hk) as Hf. rewrite Hlk, Hsl' in Hf.
    destruct Hf as (? & [= <-] & _ & Hd). rewrite Hm in Hd. set_solver. }
  unfold Hnsw.addPoint. rewrite (r_replace _ _ _ _ R). cbn [negb andb].
  rewrite decide_True by done. unfold addPoint_level. rewrite E1. unfold get_slot. rewrite E2.
  cbn [mbind outcome_bind]. rewrite E4, andb_false_r. unfold updatePoint, get_slot.
  cbn [mbind outcome_bind]. rewrite E2. cbn [mbind outcome_bind].
  unfold copy_data. case_decide; [|done]. cbn [mbind outcome_bind].
  eexists; split; [done|]. 
  eapply (index_put _ _ ix _ s _ i id sl (sl <| data := take (Z.to_nat HNSW_DIM) v |>));
    try done; cbn; rewrite ?E4; try done.
  - by apply R.
  - by apply R.
  - rewrite Hdel. set_solver.
Qed.

Lemma index_delete cap X ix s i :
  hash_inj X → index_rep cap X ix s → i ∈ dom s.1 →
  ∃ ix', markDelete (std_hash i) ix = Ok ix' ∧
    index_rep cap X ix' (delete i s.1, {[i]} ∪ s.2).
Proof.
  intros HX R Hi. destruct (find_live _ _ _ _ _ R Hi) as (id & sl & E1 & E2 & E3 & E4 & E5).
  unfold markDelete, markDeletedInternal. rewrite E1. unfold get_slot. rewrite E2.
  cbn. rewrite E4, (r_replace _ _ _ _ R). eexists; split; [done|].
  eapply (index_put _ _ ix _ s _ i id sl (sl <| marked := true |>));
    try done; cbn; by apply R.
Qed.

(** What a step of the engine gives, against what the specification says. *)
Definition agrees {A B} (R : A → B → Prop) (o : outcome A) (o' : outcome B) : Prop :=
  match o' with
  | Ok b => ∃ a, o = Ok a ∧ R a b
  | Terminate w => o = Terminate w
  | Undefined w => o = Undefined w
  end.

Lemma dom_spec_insert cap i v s s' :
  spec_insert cap i v s = Ok s' → dom s'.1 = {[i]} ∪ dom s.1 ∧ s'.2 = s.2 ∧ i ∉ s.2.
Proof.
  unfold spec_insert. case_decide; [done|]. case_match; [done|]. intros H'. inv_ok.
  subst s'. cbn. by rewrite dom_insert_L.
Qed.

(** Both insertion paths make the same changes to the maps of the engine. *)
Lemma insert_represents cap X e e1 s i v :
  hash_inj X → represents cap X e s → i ∈ X → i ∉ dom s.1 →
  m_index e1 = m_index e → m_deletedItems e1 = m_deletedItems e ∖ {[i]} →
  m_labelToItemId e1 = <[hashItemId i := i]> (m_labelToItemId e) →
  m_activeLabels e1 = {[hashItemId i]} ∪ m_activeLabels e →
  agrees (represents cap X)
    (ix ← Hnsw.addPoint v (to_size_t (hashItemId i)) false (m_index e1);
     Ok (e1 <| m_index := ix |>) )
    (spec_insert cap i v s).
Proof.
  intros HX R Hi Hm Ei Ed El Ea. rewrite label_hash, Ei.
  pose proof (index_insert cap X (m_index e) s i v HX (r_index _ _ _ _ R) Hi Hm) as HI.
  destruct (spec_insert cap i v s) as [s'| |] eqn:E; cbn; [|by rewrite HI..].
  destruct HI as (ix' & -> & Rix). cbn. eexists; split; [done|].
  apply dom_spec_insert in E as (Edom & Edel & Hid). split; cbn; [done|..].
  - intros lb j. rewrite El, Edom, Edel.
    pose proof (r_items _ _ _ _ (r_index _ _ _ _ R)) as HIX.
    destruct (decide (lb = hashItemId i)) as [->|Hne].
    + rewrite lookup_insert_eq. split; [intros [= <-]; set_solver|].
      intros [Hh Hj]. f_equal. apply (hashItemId_inj X); [done..|set_solver|done].
    + rewrite lookup_insert_ne by done. rewrite (r_labels _ _ _ _ R).
      split; [set_solver|]. intros [-> Hj]. split; [done|].
      assert (j ≠ i) by congruence. set_solver.
  - intros j Hj. rewrite Ea, Edom. pose proof (r_active _ _ _ _ R j Hj) as Hact.
    rewrite !elem_of_union, !elem_of_singleton, Hact.
    assert (hashItemId j = hashItemId i ↔ j = i) as ->; [|done].
    split; [by apply (hashItemId_inj X)|by intros ->].
  - rewrite Ed, Edel, (r_deleted _ _ _ _ R). set_solver.
Qed.

Lemma engine_step_refines cap X o e s :
  hash_inj X → represents cap X e s → op_item o ∈ X → clean o s = true →
  agrees (represents cap X) (engine_step o e) (spec_step cap o s).
Proof.
  intros HX R Hi Hc. destruct o as [i v|i v|i]; cbn in Hi |- *;
    pose proof (r_active _ _ _ _ R i Hi) as Hact.
  - unfold addPoint. destruct (decide (i ∈ dom s.1)) as [Hd|Hd].
    + rewrite decide_True by by apply Hact. by exists e.
    + rewrite decide_False by by rewrite Hact. by apply (insert_represents _ _ e).
  - unfold upsertPoint. destruct (decide (i ∈ dom s.1)) as [Hd|Hd].
    + rewrite bool_decide_true by by apply Hact. cbn [clean] in Hc. b2p.
      rewrite label_hash. cbn [m_index].
      pose proof (index_update cap X (m_index e) s i v HX (r_index _ _ _ _ R) Hd (Hc Hd)) as HU.
      destruct (copy_data v) as [d| |]; cbn; [|by rewrite HU..].
      destruct HU as (ix' & -> & Rix). cbn. eexists; split; [done|].
      assert ({[i]} ∪ dom s.1 = dom s.1) as Hdom by set_solver.
      split; cbn; rewrite ?dom_insert_L, ?Hdom; [done|..].
      * intros lb j. pose proof (r_labels _ _ _ _ R lb j) as Hlb.
        destruct (decide (lb = hashItemId i)) as [->|Hne].
        -- rewrite lookup_insert_eq, <- Hlb.
           assert (m_labelToItemId e !! hashItemId i = Some i) as ->; [|done].
           apply (r_labels _ _ _ _ R). set_solver.
        -- by rewrite lookup_insert_ne.
      * intros j Hj. by rewrite (r_active _ _ _ _ R).
      * rewrite (r_deleted _ _ _ _ R), (Hc Hd). set_solver.
    + rewrite bool_decide_false by by rewrite Hact. by apply (insert_represents _ _ e).
  - unfold deletePoint. destruct (decide (i ∈ dom s.1)) as [Hd|Hd].
    + rewrite decide_True by by apply Hact. rewrite label_hash.
      destruct (index_delete cap X (m_index e) s i HX (r_index _ _ _ _ R) Hd)
        as (ix' & -> & Rix). cbn. eexists; split; [done|]. split; cbn; [done|..].
      * intros lb j. rewrite (r_labels _ _ _ _ R), dom_delete_L.
        destruct (decide (j = i)); set_solver.
      * intros j Hj. rewrite dom_delete_L, elem_of_difference, elem_of_difference.
        rewrite (r_active _ _ _ _ R j Hj), !elem_of_singleton.
        assert (hashItemId j = hashItemId i ↔ j = i) as ->; [|done].
        split; [by apply (hashItemId_inj X)|by intros ->].
      * by rewrite (r_deleted _ _ _ _ R).
    + rewrite decide_False by by rewrite Hact. by exists e.
Qed.

Lemma engine_run_refines cap X os e s :
  hash_inj X → represents cap X e s → (∀ o, o ∈ os → op_item o ∈ X) →
  clean_run cap os s = true →
  agrees (represents cap X) (for_each engine_step os e) (for_each (spec_step cap) os s).
Proof.
  intros HX R Hos Hc. revert e s R Hc.
  induction os as [|o os IH]; intros e s R Hc; cbn [for_each]; [by exists e|].
  cbn in Hc. apply andb_true_iff in Hc as [Hc Hrest].
  pose proof (engine_step_refines cap X o e s HX R (Hos o ltac:(set_solver)) Hc) as Hstep.
  destruct (spec_step cap o s) as [s'| |]; cbn in Hstep |- *; [|by rewrite Hstep..].
  destruct Hstep as (e' & -> & R'). cbn. apply IH; [set_solver|done|done].
Qed.


(** A slot the index returned is kept, with the item it holds. *)
Lemma keep_live cap X e s q id r :
  represents cap X e s →
  (∃ sl, slots (m_index e) !! id = Some sl ∧ marked sl = false ∧
     r = (fstdistfunc q (data sl), ext_label sl)) →
  ∃ i v, keep_result e r = Some (i, r.1) ∧ (i ∉ s.2) ∧ s.1 !! i = Some v ∧
    r.1 = fstdistfunc q v ∧ label_lookup_ (m_index e) !! std_hash i = Some id.
Proof.
  intros R (sl & Hsl & Hm & ->). pose proof (r_index _ _ _ _ R) as Rix.
  destruct (r_slot _ _ _ _ Rix id sl Hsl) as (i & Hi & Hl & Hlk).
  pose proof (r_find _ _ _ _ Rix i Hi) as Hf. rewrite Hlk, Hsl in Hf.
  destruct Hf as (? & [= <-] & _ & Hv). rewrite Hm in Hv.
  pose proof (r_disjoint _ _ _ _ Rix) as HD. apply elem_of_dom_2 in Hv as Hdom.
  assert (i ∉ s.2) as Hns by set_solver.
  exists i, (data sl). split; [|done]. unfold keep_result. cbn [fst snd]. rewrite Hl.
  assert (m_labelToItemId e !! hashItemId i = Some i) as Hlab.
  { apply (r_labels _ _ _ _ R). set_solver. }
  unfold hashItemId in Hlab. rewrite Hlab, decide_False; [done|].
  by rewrite (r_deleted _ _ _ _ R).
Qed.

Lemma keep_all cap X e s q ids knn :
  represents cap X e s →
  Forall2 (λ id r, ∃ sl, slots (m_index e) !! id = Some sl ∧ marked sl = false ∧
             r = (fstdistfunc q (data sl), ext_label sl)) ids knn →
  (omap (keep_result e) knn).*2 = knn.*1 ∧
  (λ i, label_lookup_ (m_index e) !! std_hash i) <$> (omap (keep_result e) knn).*1
    = Some <$> ids ∧
  Forall2 (λ i d, (i ∉ s.2) ∧ ∃ v, s.1 !! i = Some v ∧ d = fstdistfunc q v)
    (omap (keep_result e) knn).*1 (omap (keep_result e) knn).*2.
Proof.
  intros R. induction 1 as [|id r ids knn Hr _ (IH1 & IH2 & IH3)]; [by cbn|].
  destruct (keep_live _ _ _ _ _ _ _ R Hr) as (i & v & Hk & Hi & Hv & Hd & Hlk).
  cbn [omap list_omap]. rewrite Hk. cbn. split_and!.
  - by f_equal.
  - by rewrite Hlk, IH2.
  - constructor; [|done]. split; [done|]. by exists v.
Qed.

Lemma searchTopK_sound (cap : Z) (X : gset string) (e : RecallEngine) (s : spec_state)
    (query : list F) (topK : Z) :
  hash_inj X → represents cap X e s → HNSW_DIM ≤ vsize query → 0 ≤ topK < 2 ^ 64 →
  ∃ items scores, searchTopK query topK e = Ok (items, scores) ∧
    NoDup items ∧ vsize items ≤ topK ∧ StronglySorted dist_le scores ∧
    Forall2 (λ i d, (i ∉ s.2) ∧ ∃ v, s.1 !! i = Some v ∧
               d = fstdistfunc (take (Z.to_nat HNSW_DIM) query) v) items scores.
Proof.
  intros HX R Hq Hk. unfold searchTopK. case_match.
  { exists [], []. split_and!; [done|by apply NoDup_nil|unfold vsize; cbn; lia|constructor|constructor]. }
  unfold copy_data. rewrite decide_True by done. cbn [mbind outcome_bind].
  set (q := take _ query). set (knn := searchKnnCloserFirst _ _ _).
  destruct (search_live (m_index e) q (to_size_t topK)) as (ids & Hnd & Hlen & Hids).
  destruct (keep_all _ _ _ _ _ _ _ R Hids) as (H1 & H2 & H3).
  fold knn in H1, H2, H3.
  eexists _, _. split; [done|]. split_and!.
  - apply (NoDup_fmap_1 (λ i, label_lookup_ (m_index e) !! std_hash i)).
    rewrite H2. by apply (NoDup_fmap_2 Some).
  - apply (f_equal length) in H2. rewrite !length_fmap in H2. unfold vsize.
    rewrite length_fmap, H2. unfold to_size_t in Hlen.
    rewrite Z.mod_small in Hlen; lia.
  - rewrite H1. apply search_sorted.
  - done.
Qed.

(** A search only returns what is in the index: the ids it returns are distinct items of
    the map, none of them deleted, at most [topK] of them, each with the distance between
    the query and the item's vector, closest first. *)
Theorem search_sound (cap : Z) (X : gset string) (e : RecallEngine) (s : spec_state)
    (query : list F) (topK : Z) :
  hash_inj X → represents cap X e s → HNSW_DIM ≤ vsize query → 0 ≤ topK < 2 ^ 64 →
  ∃ items scores, searchTopK query topK e = Ok (items, scores) ∧
    NoDup items ∧ vsize items ≤ topK ∧ StronglySorted dist_le scores ∧
    Forall2 (λ i d, (i ∉ s.2) ∧ ∃ v, s.1 !! i = Some v ∧
               d = fstdistfunc (take (Z.to_nat HNSW_DIM) query) v) items scores.
Proof. apply searchTopK_sound. Qed.

Lemma some_deleted_slot cap X ix s :
  index_rep cap X ix s → s.2 ≠ ∅ →
  ∃ sl, deleted_elements ix ≠ ∅ ∧
    slots ix !! set_begin (deleted_elements ix) = Some sl ∧ marked sl = true.
Proof.
  intros R [j Hj]%set_choose_L. pose proof (r_items _ _ _ _ R) as HX.
  pose proof (r_disjoint _ _ _ _ R) as HD. assert (HjX : j ∈ X) by set_solver.
  pose proof (r_find _ _ _ _ R j HjX) as Hf.
  destruct (label_lookup_ ix !! std_hash j) as [id|]; [|set_solver].
  destruct Hf as (slj & Hslj & _ & Hm). destruct (marked slj) eqn:Em;
    [|apply elem_of_dom_2 in Hm; set_solver].
  assert (deleted_elements ix ≠ ∅) as Hne.
  { assert (id ∈ deleted_elements ix); [|set_solver].
    apply (r_deleted_slots _ _ _ _ R). by exists slj. }
  pose proof (set_begin_in _ Hne) as Hin.
  apply (r_deleted_slots _ _ _ _ R) in Hin as (sl & Hsl & Hms). by exists sl.
Qed.

(** An update of an item that is in the index, made while any other item is deleted,
    does not replace its vector: hnswlib gives the item the slot of a deleted one, and
    the old slot stays live under the same label, so that both vectors answer searches
    for the item from then on. *)
Theorem duplicated (cap : Z) (X : gset string) (e : RecallEngine) (s : spec_state)
    (i : string) (v old : list F) :
  represents cap X e s → s.1 !! i = Some old → s.2 ≠ ∅ → HNSW_DIM ≤ vsize v →
  ∃ e' id id', upsertPoint i v e = Ok e' ∧ id ≠ id' ∧
    slots (m_index e') !! id = Some (mkSlot (std_hash i) old false) ∧
    slots (m_index e') !! id' = Some (mkSlot (std_hash i) (take 128 v) false).
Proof.
  intros R Hi HD Hv. pose proof (r_index _ _ _ _ R) as Rix.
  apply elem_of_dom_2 in Hi as Hd.
  destruct (find_live _ _ _ _ _ Rix Hd) as (id & sl & E1 & E2 & E3 & E4 & E5).
  destruct (some_deleted_slot _ _ _ _ Rix HD) as (sd & Hne & Hsd & Hmd).
  pose proof (r_items _ _ _ _ Rix) as HX.
  pose proof (r_active _ _ _ _ R i ltac:(set_solver)) as Hact.
  unfold upsertPoint. rewrite bool_decide_true by by apply Hact.
  rewrite label_hash. cbn [m_index]. unfold Hnsw.addPoint. cbn.
  rewrite (r_replace _ _ _ _ Rix). cbn. rewrite decide_False by done.
  set (id' := set_begin _) in *. unfold get_slot. cbn. rewrite Hsd. cbn.
  assert (id' < length (slots (m_index e)))%nat as Hlt by (by eapply lookup_lt_Some).
  assert (id ≠ id') as Hid.
  { intros <-. rewrite E2 in Hsd. injection Hsd as ->. congruence. }
  unfold unmarkDeletedInternal, get_slot. cbn. rewrite list_lookup_insert_eq by done. cbn.
  rewrite Hmd. cbn. unfold updatePoint, get_slot. cbn.
  rewrite list_insert_insert_eq, list_lookup_insert_eq by done. cbn.
  unfold copy_data. rewrite decide_True by done. cbn.
  eexists _, id, id'. split; [done|]. split; [done|]. cbn.
  rewrite list_insert_insert_eq, list_lookup_insert_eq, list_lookup_insert_ne by done.
  rewrite E2. split; [|done]. destruct sl as [lb d mk]; cbn in *. congruence.
Qed.
End engine.

(** ** Concrete runs *)

(** A hash for the concrete runs: the first byte. *)
Definition first_byte_hash : StdHash := {|
  std_hash s := match s with EmptyString => 0 | String c _ => Z.of_N (N_of_ascii c) end
|}.
#[export] Instance first_byte_laws : StdHashLaws first_byte_hash.
Proof.
  split. intros [|c s]; cbn [std_hash first_byte_hash]; [lia|].
  pose proof (N_ascii_bounded c). lia.
Qed.

Definition demo_items : gset string := {["a"; "b"]}.
Lemma demo_hash_inj : hash_inj (S:=first_byte_hash) demo_items.
Proof. intros i j. unfold demo_items. set_unfold. intros [->| ->] [->| ->]; done. Qed.
Definition demo_vec (x : Z) : list Z := replicate 128 x.
Definition demo_ops : list (engine_op (F:=Z)) :=
  [OAdd "a" (demo_vec 1); OUpsert "a" (demo_vec 2); OAdd "b" (demo_vec 3); ODelete "a"].
Definition demo_engine : RecallEngine (F:=Z) :=
  default (new_engine 3) (ok_value (for_each (engine_step (S:=first_byte_hash)) demo_ops (new_engine 3))).
Definition demo_spec : spec_state := ({["b" := demo_vec 3]}, {["a"]}).

Lemma demo_represents :
  represents (S:=first_byte_hash) 3 demo_items demo_engine demo_spec.
Proof.
  pose proof (engine_run_refines (S:=first_byte_hash) 3 demo_items demo_ops
    (new_engine 3) (∅, ∅) demo_hash_inj (new_engine_represents _ _)) as H.
  destruct H as (e & He & R).
  - intros o. unfold demo_ops, demo_items. set_solver.
  - by vm_compute.
  - unfold demo_engine. rewrite He. exact R.
Qed.


Lemma search_sound_witness :
  searchTopK (demo_vec 1) 10 demo_engine = Ok (["b"], [-383]) ∧
  ∃ items scores,
    searchTopK (demo_vec 1) 10 demo_engine = Ok (items, scores) ∧
    NoDup items.
Proof.
  split; [by vm_compute|].
  destruct (search_sound (S:=first_byte_hash) 3 demo_items demo_engine demo_spec (demo_vec 1) 10
    demo_hash_inj demo_represents) as (items & scores & H1 & H2 & _); [by vm_compute|lia|].
  exists items, scores. split; [exact H1|exact H2].
Defined.

Lemma duplicated_witness :
  (∃ e' id id', upsertPoint (S:=first_byte_hash) "b" (demo_vec 4) demo_engine = Ok e' ∧
    id ≠ id' ∧
    slots (m_index e') !! id =
      Some (mkSlot (std_hash (StdHash:=first_byte_hash) "b") (demo_vec 3) false) ∧
    slots (m_index e') !! id' =
      Some (mkSlot (std_hash (StdHash:=first_byte_hash) "b") (take 128 (demo_vec 4)) false)) ∧
  (searchTopK (demo_vec 1) 10 <$>
     ok_value (upsertPoint (S:=first_byte_hash) "b" (demo_vec 4) demo_engine))
    = Some (Ok (["b"; "b"], [-511; -383])).
Proof.
  split; [|by vm_compute].
  apply (duplicated (S:=first_byte_hash) 3 demo_items demo_engine demo_spec "b"
    (demo_vec 4) (demo_vec 3) demo_represents); by vm_compute.
Defined.
