(* ===== verification/RecallPersist.v ===== *)
(** The files of the recall engine: [RecallEngine::saveIndex] and [loadIndex]. *)
From S2P Require Import Prelude OpCoder Hnsw RecallEngine.
Open Scope Z_scope.

(** ** Binary streams *)

(** [static_cast<int32_t>] of a [size_t], and the integers read back from bytes. *)
Definition to_int32 (z : Z) : Z := (z + 2 ^ 31) mod 2 ^ 32 - 2 ^ 31.
Definition i32_bytes (z : Z) : bytes := u32_bytes (Z.to_N (z mod 2 ^ 32)).
Definition i64_bytes (z : Z) : bytes :=
  u32_bytes (Z.to_N (z mod 2 ^ 32)) ++ u32_bytes (Z.to_N (z / 2 ^ 32 mod 2 ^ 32)).
Definition i32_of_bytes (b : bytes) : Z :=
  match b with
  | [b0; b1; b2; b3] => to_int32 (Z.of_N (u32_of_bytes b0 b1 b2 b3))
  | _ => 0
  end.
Definition i64_of_bytes (b : bytes) : Z :=
  match b with
  | [b0; b1; b2; b3; b4; b5; b6; b7] =>
      to_int64 (Z.of_N (u32_of_bytes b0 b1 b2 b3) + 2 ^ 32 * Z.of_N (u32_of_bytes b4 b5 b6 b7))
  | _ => 0
  end.

Record ifstream := mkStream { rest : bytes; good : bool }.
(** [read(buf, k)] into a buffer of zeros: a short read fills what it got and makes the
    stream fail; a failed stream reads nothing. *)
Definition read (k : nat) (s : ifstream) : bytes * ifstream :=
  if good s then
    if (k <=? length (rest s))%nat then (take k (rest s), mkStream (drop k (rest s)) true)
    else (rest s ++ replicate (k - length (rest s)) Ascii.zero, mkStream [] false)
  else (replicate k Ascii.zero, s).
Definition read_i32 (s : ifstream) : Z * ifstream :=
  let '(b, s) := read 4 s in (i32_of_bytes b, s).
Definition read_i64 (s : ifstream) : Z * ifstream :=
  let '(b, s) := read 8 s in (i64_of_bytes b, s).
(** A length, then that many characters; [std::string(strLen, 0)] throws when the length
    is negative. *)
Definition read_item (s : ifstream) : outcome (string * ifstream) :=
  let '(strLen, s) := read_i32 s in
  if strLen <? 0 then Terminate "std::length_error"
  else let '(b, s) := read (Z.to_nat strLen) s in Ok (string_of_list_ascii b, s).
Definition write_item (itemId : string) : bytes :=
  let data := list_ascii_of_string itemId in
  let strLen := to_int32 (vsize data) in
  i32_bytes strLen ++ take (Z.to_nat strLen) data.

Lemma to_int32_small z : int32 z → to_int32 z = z.
Proof.
  unfold int32, int32_min, int32_max, to_int32. intros Hz. rewrite Z.mod_small; lia.
Qed.
Lemma to_int32_mod z : int32 z → to_int32 (z mod 2 ^ 32) = z.
Proof.
  intros Hz. unfold to_int32. rewrite Zplus_mod_idemp_l. by apply to_int32_small.
Qed.
Definition int64 (z : Z) : Prop := - 2 ^ 63 ≤ z < 2 ^ 63.
Lemma to_int64_mod z : int64 z → to_int64 (z mod 2 ^ 64) = z.
Proof.
  unfold int64, to_int64. intros Hz. rewrite Zplus_mod_idemp_l, Z.mod_small; lia.
Qed.

Lemma read_app b r : read (length b) (mkStream (b ++ r) true) = (b, mkStream r true).
Proof.
  unfold read. cbn [good rest]. rewrite length_app.
  replace (length b <=? _)%nat with true by (symmetry; apply Nat.leb_le; lia).
  by rewrite take_app_length, drop_app_length.
Qed.
Lemma u32_round_mod z :
  match u32_bytes (Z.to_N (z mod 2 ^ 32)) with
  | [a; b; c; d] => Z.of_N (u32_of_bytes a b c d) = z mod 2 ^ 32
  | _ => False
  end.
Proof.
  pose proof (Z.mod_pos_bound z (2 ^ 32) ltac:(lia)) as Hb.
  pose proof (u32_round (Z.to_N (z mod 2 ^ 32)) ltac:(change (2 ^ 32)%N with 4294967296%N; lia)) as H.
  unfold u32_bytes in *. rewrite H. lia.
Qed.
Lemma read_i32_bytes z r :
  int32 z → read_i32 (mkStream (i32_bytes z ++ r) true) = (z, mkStream r true).
Proof.
  intros Hz. unfold read_i32. change 4%nat with (length (i32_bytes z)). rewrite read_app.
  f_equal. unfold i32_bytes. pose proof (u32_round_mod z) as H. unfold u32_bytes in *.
  cbn [i32_of_bytes]. rewrite H. by apply to_int32_mod.
Qed.
Lemma read_i64_bytes z r :
  int64 z → read_i64 (mkStream (i64_bytes z ++ r) true) = (z, mkStream r true).
Proof.
  intros Hz. unfold read_i64. change 8%nat with (length (i64_bytes z)). rewrite read_app.
  f_equal. unfold i64_bytes. pose proof (u32_round_mod z) as H1.
  pose proof (u32_round_mod (z / 2 ^ 32)) as H2. unfold u32_bytes in *.
  cbn [app i64_of_bytes]. rewrite H1, H2.
  rewrite <- (to_int64_mod z) at 3 by done. f_equal.
  change (2 ^ 64) with (2 ^ 32 * 2 ^ 32). symmetry. by apply Z.rem_mul_r.
Qed.
Lemma read_write_item itemId r :
  Z.of_nat (String.length itemId) < 2 ^ 31 →
  read_item (mkStream (write_item itemId ++ r) true) = Ok (itemId, mkStream r true).
Proof.
  intros Hl. unfold read_item, write_item. rewrite <- app_assoc.
  unfold vsize. rewrite length_list_ascii.
  assert (int32 (Z.of_nat (String.length itemId))) as Hi
    by (unfold int32, int32_min, int32_max; lia).
  rewrite to_int32_small, read_i32_bytes by done.
  replace (_ <? 0) with false by (symmetry; apply Z.ltb_ge; lia).
  rewrite Nat2Z.id, <- length_list_ascii, firstn_all, read_app.
  by rewrite string_of_list_ascii_of_string.
Qed.

(** ** The files *)

Section files.
Context {F : Type} `{H : HnswLib F} `{S : StdHash}.

(** What is under a path: the image hnswlib wrote of an index, or bytes. *)
Inductive file := IndexImage (h : HierarchicalNSW F) | Bytes (b : bytes).
Abbreviation disk := (gmap string file).

(** [labels] and [dels] are the label map and the deleted items in the order the hash
    tables iterate them. *)
Definition label_file (labels : list (Z * string)) (dels : list string) : bytes :=
  i32_bytes (to_int32 (vsize labels)) ++
  concat ((λ kv, i64_bytes kv.1 ++ write_item kv.2) <$> labels) ++
  i32_bytes (to_int32 (vsize dels)) ++ concat (write_item <$> dels).
Definition saveIndex (path : string) (labels : list (Z * string)) (dels : list string)
    (e : RecallEngine (F:=F)) (d : disk) : disk :=
  let d := <[path := IndexImage (m_index e)]> d in
  <[(path +:+ ".labels")%string := Bytes (label_file labels dels)]> d.

Definition load_label (s : ifstream * RecallEngine (F:=F)) : outcome (ifstream * RecallEngine (F:=F)) :=
  let '(lfs, e) := s in
  let '(label, lfs) := read_i64 lfs in
  '(itemId, lfs) ← read_item lfs;
  let e := e <| m_labelToItemId := <[label := itemId]> (m_labelToItemId e) |> in
  Ok (lfs, e <| m_activeLabels := {[label]} ∪ m_activeLabels e |>).
Definition load_deleted (s : ifstream * RecallEngine (F:=F)) : outcome (ifstream * RecallEngine (F:=F)) :=
  let '(lfs, e) := s in
  '(itemId, lfs) ← read_item lfs;
  Ok (lfs, e <| m_deletedItems := {[itemId]} ∪ m_deletedItems e |>).
Definition loadIndex (path : string) (d : disk) (e : RecallEngine (F:=F))
    : outcome (Z * RecallEngine (F:=F)) :=
  match d !! path with
  | None => Ok (-1, e)
  | Some (Bytes _) => Terminate "Index seems to be corrupted or unsupported"
  | Some (IndexImage h) =>
      let e := e <| m_index := reload h |> in
      let e := e <| m_labelToItemId := ∅ |> in
      let e := e <| m_activeLabels := ∅ |> in
      match d !! (path +:+ ".labels")%string with
      | Some (Bytes b) =>
          let '(count, lfs) := read_i32 (mkStream b true) in
          '(lfs, e) ← for_each (λ _, load_label) (seq 0 (Z.to_nat count)) (lfs, e);
          let '(delCount, lfs) := read_i32 lfs in
          '(_, e) ← for_each (λ _, load_deleted) (seq 0 (Z.to_nat delCount)) (lfs, e);
          Ok (count, e)
      | _ => Ok (-1, e)
      end
  end.

Definition item_fits (itemId : string) : Prop := Z.of_nat (String.length itemId) < 2 ^ 31.
(** The sizes that the format's 32-bit lengths can express. *)
Definition fits (labels : list (Z * string)) (dels : list string) : Prop :=
  vsize labels < 2 ^ 31 ∧ vsize dels < 2 ^ 31 ∧
  Forall (λ kv, int64 kv.1 ∧ item_fits kv.2) labels ∧ Forall item_fits dels.

Lemma load_label_written lb it r (e : RecallEngine (F:=F)) :
  int64 lb → item_fits it →
  load_label (mkStream ((i64_bytes lb ++ write_item it) ++ r) true, e) =
  Ok (mkStream r true,
      e <| m_labelToItemId := <[lb := it]> (m_labelToItemId e) |>
        <| m_activeLabels := {[lb]} ∪ m_activeLabels e |>).
Proof.
  intros H1 H2. unfold load_label. rewrite <- (app_assoc (i64_bytes lb)).
  by rewrite read_i64_bytes, read_write_item.
Qed.
Lemma load_deleted_written it r (e : RecallEngine (F:=F)) :
  item_fits it →
  load_deleted (mkStream (write_item it ++ r) true, e) =
  Ok (mkStream r true, e <| m_deletedItems := {[it]} ∪ m_deletedItems e |>).
Proof. intros H1. unfold load_deleted. by rewrite read_write_item. Qed.

Lemma load_labels labels r k (e : RecallEngine (F:=F)) :
  Forall (λ kv, int64 kv.1 ∧ item_fits kv.2) labels →
  for_each (λ _, load_label) (seq k (length labels))
    (mkStream (concat ((λ kv, i64_bytes kv.1 ++ write_item kv.2) <$> labels) ++ r) true, e)
  = Ok (mkStream r true,
        e <| m_labelToItemId := foldl (λ m kv, <[kv.1 := kv.2]> m) (m_labelToItemId e) labels |>
          <| m_activeLabels := foldl (λ X kv, {[kv.1]} ∪ X) (m_activeLabels e) labels |>).
Proof.
  intros Hl. revert k e. induction Hl as [|[lb it] labels [H1 H2] _ IH]; intros k e.
  { by destruct e. }
  cbn [length seq for_each]. rewrite fmap_cons. cbn [concat fst snd] in *.
  rewrite <- (app_assoc (i64_bytes lb ++ _)), load_label_written by done.
  cbn [mbind outcome_bind]. by rewrite IH.
Qed.
Lemma load_dels dels r k (e : RecallEngine (F:=F)) :
  Forall item_fits dels →
  for_each (λ _, load_deleted) (seq k (length dels))
    (mkStream (concat (write_item <$> dels) ++ r) true, e)
  = Ok (mkStream r true,
        e <| m_deletedItems := foldl (λ X it, {[it]} ∪ X) (m_deletedItems e) dels |>).
Proof.
  intros Hl. revert k e. induction Hl as [|it dels H1 _ IH]; intros k e.
  { by destruct e. }
  cbn [length seq for_each]. rewrite fmap_cons. cbn [concat].
  rewrite <- (app_assoc (write_item it)), load_deleted_written by done. cbn [mbind outcome_bind]. by rewrite IH.
Qed.

Lemma foldl_insert (labels : list (Z * string)) (m : gmap Z string) :
  NoDup labels.*1 → foldl (λ m kv, <[kv.1 := kv.2]> m) m labels = list_to_map labels ∪ m.
Proof.
  revert m. induction labels as [|[lb it] labels IH]; intros m Hnd; cbn.
  { by rewrite (left_id_L ∅ (∪)). }
  apply NoDup_cons in Hnd as [Hn Hnd]. rewrite IH by done.
  rewrite <- insert_union_l, insert_union_r; [done|]. by apply not_elem_of_list_to_map.
Qed.
Lemma foldl_union {A} `{Countable K} (f : A → K) (l : list A) (X : gset K) :
  foldl (λ X a, {[f a]} ∪ X) X l = list_to_set (f <$> l) ∪ X.
Proof. revert X. induction l as [|a l IH]; intros X; cbn; [set_solver|]. rewrite IH. set_solver. Qed.

Lemma labels_path path : (path +:+ ".labels")%string ≠ path.
Proof. induction path as [|c path IH]; [done|]. intros [=]. by apply IH. Qed.

End files.

