(* ===== verification/KvTypes.v ===== *)
(** What [KvServer] and [Clerk] share: the messages of [src/Proto/KvServerRPC.proto], the
    results of [kvServer.h], and the interfaces of the components the server is built on. *)
From S2P Require Import Prelude OpCoder Persister RaftTypes RaftLog.
Open Scope Z_scope.

(** [OK], [ErrNoKey] and [ErrWrongLeader] of [kvServer.h]. *)
Definition OK : string := "OK".
Definition ErrNoKey : string := "ErrNoKey".
Definition ErrWrongLeader : string := "ErrWrongLeader".

Record GetArgs := mkGetArgs { g_key : string; g_clientid : string; g_requestid : Z }.
Record GetReply := mkGetReply { gr_err : string; gr_value : string }.
Record PutAppendArgs := mkPutAppendArgs {
  pa_key : string; pa_value : string; pa_op : string; pa_clientid : string; pa_requestid : Z
}.
Record PutAppendReply := mkPutAppendReply { par_err : string }.
#[export] Instance GetReply_eq_dec : EqDecision GetReply.
Proof. solve_decision. Defined.
#[export] Instance PutAppendReply_eq_dec : EqDecision PutAppendReply.
Proof. solve_decision. Defined.

Section messages.
Context {F : Type}.
Record ItemFeature := mkItemFeature {
  item_id : string; embedding : list F; attrs : gmap string string; timestamp : Z
}.
Record PutFeatureArgs := mkPutFeatureArgs {
  feature : ItemFeature; pf_clientid : string; pf_requestid : Z
}.
Record SearchRequest := mkSearchRequest {
  query_vector : list F; top_k : Z; search_type : string
}.
Record SearchResponse := mkSearchResponse {
  item_ids : list string; scores : list F; search_time_us : Z
}.
End messages.
Arguments ItemFeature : clear implicits.
Arguments PutFeatureArgs : clear implicits.
Arguments SearchRequest : clear implicits.
Arguments SearchResponse : clear implicits.

(** ** The key-value store

    [SkipList<std::string, std::string>] comes from a submodule.  [foreach] is the
    sequence of pairs it visits. *)
Class SkipList (T : Type) := {
  new_skiplist : T;
  search_element : string → T → option string;
  insert_element : string → string → T → T;
  element_count : T → Z;
  foreach : T → list (string * string)
}.
(** What the server relies on: a search finds what was last inserted under the key, and
    [foreach] visits each key once. *)
Class SkipListLaws {T} (K : SkipList T) := {
  search_new k : search_element k new_skiplist = None;
  search_insert k v t k' :
    search_element k' (insert_element k v t) = if decide (k = k') then Some v else search_element k' t;
  foreach_search k v t : (k, v) ∈ foreach t ↔ search_element k t = Some v;
  foreach_keys t : NoDup (foreach t).*1
}.
#[export] Instance gmap_skiplist : SkipList (gmap string string) := {|
  new_skiplist := ∅;
  search_element k t := t !! k;
  insert_element k v t := <[k := v]> t;
  element_count t := Z.of_nat (size t);
  foreach t := map_to_list t
|}.
#[export] Instance gmap_skiplist_laws : SkipListLaws gmap_skiplist.
Proof.
  split; cbn; intros.
  - apply lookup_empty.
  - apply lookup_insert.
  - apply elem_of_map_to_list.
  - apply NoDup_fst_map_to_list.
Qed.

(** ** The messages of protobuf as strings *)
Class FeatureCodec (F : Type) := {
  SerializeAsString : ItemFeature F → string;
  ParseFromString : string → option (ItemFeature F)
}.
Class FeatureCodecLaws {F} (C : FeatureCodec F) := {
  parse_serialize f : ParseFromString (SerializeAsString f) = Some f
}.

(** ** The consensus module

    What [KvServer] calls on its [m_raftNode]. *)
Class RaftService (R : Type) := {
  raft_Start : Z → Op → R → R * Z * bool;
  raft_GetState : R → Z * bool;
  raft_GetCommitIndex : R → Z;
  raft_GetLeaderInfo : R → Z * string * Z
}.
#[export] Instance node_service `{Ar : BoostArchive} : RaftService node := {|
  raft_Start := Start;
  raft_GetState := GetState;
  raft_GetCommitIndex := GetCommitIndex;
  raft_GetLeaderInfo := GetLeaderInfo
|}.

(** A codec for the concrete executions of the development. *)
#[export] Instance bit_codec : FeatureCodec Z := {|
  SerializeAsString f :=
    bits_of (encode (item_id f, embedding f, map_to_list (attrs f), timestamp f));
  ParseFromString s :=
    (λ t : string * list Z * list (string * string) * Z,
       let '(i, e, a, ts) := t in mkItemFeature i e (list_to_map a) ts)
      <$> decode (of_bits s)
|}.
#[export] Instance bit_codec_laws : FeatureCodecLaws bit_codec.
Proof.
  split. intros [i e a ts]. cbn [ParseFromString SerializeAsString bit_codec].
  rewrite of_bits_of, countable.decode_encode. cbn. by rewrite list_to_map_to_list.
Qed.
