(* ===== verification/KvServer.v ===== *)
(** [KvServer] of [src/KvServer/KvServer.cpp]: the replicated key-value store, its request
    handlers and the [Apply] callback that consumes the log. *)
From S2P Require Import Prelude OpCoder Persister RaftTypes RaftLog Channels Hnsw RecallEngine KvTypes.
Open Scope Z_scope.

Section server.
Context {F T R : Type}.

Record RequestRecord := mkRequestRecord { lastRequestId : Z; lastValue : string }.

(** The members of the class.  [m_raftNode] is the state of the consensus module.  An
    indeterminate [op.RequestId] (a log command that does not decode) is the value
    [uninit] of the machine the server runs on. *)
Record KvServer := mkKvServer {
  m_raftNode : R;
  m_kvdb : T;
  m_recallEngine : RecallEngine (F:=F);
  m_indexBuilt : bool;
  waitApplyCh : gmap Z (LockQueue Op);
  m_lastRequests : gmap string RequestRecord;
  m_commitIndexCh : gmap Z (LockQueue ApplyMsg);
  m_leaderIp : string;
  m_leaderPort : Z;
  m_leaderId : Z
}.
#[export] Instance KvServer_expand : Expand KvServer := λ s,
  mkKvServer (m_raftNode s) (m_kvdb s) (m_recallEngine s) (m_indexBuilt s) (waitApplyCh s)
    (m_lastRequests s) (m_commitIndexCh s) (m_leaderIp s) (m_leaderPort s) (m_leaderId s).

Context `{H : HnswLib F} `{S : StdHash} `{K : SkipList T} `{C : FeatureCodec F}
  `{RS : RaftService R} (uninit : Z).

Definition new_server (raftNode : R) : KvServer :=
  let currentSize := element_count (T:=T) new_skiplist in
  let initCapacity := Z.max (currentSize * 2) 10000 in
  mkKvServer raftNode new_skiplist (new_engine initCapacity) false ∅ ∅ ∅ "" 0 0.
Definition setRaftNode (raftNode : R) (s : KvServer) : KvServer := s <| m_raftNode := raftNode |>.
(** [KvServer::GetCommitIndex] *)
Definition server_commit_index (s : KvServer) : Z := raft_GetCommitIndex (m_raftNode s).

(** ** The index *)

(** The body of the callback of [buildIndexIfNeeded] and [buildFromSkipList]. *)
Definition index_pair (p : string * string) (e : RecallEngine (F:=F)) : outcome (RecallEngine (F:=F)) :=
  match ParseFromString p.2 with
  | Some feat =>
      if vsize (embedding feat) =? HNSW_DIM
      then RecallEngine.addPoint p.1 (embedding feat) e else Ok e
  | None => Ok e
  end.
Definition buildFromSkipList (kvdb : T) (e : RecallEngine (F:=F)) : outcome (RecallEngine (F:=F)) :=
  for_each index_pair (foreach kvdb) e.

Definition buildIndexIfNeeded (s : KvServer) : outcome KvServer :=
  if m_indexBuilt s then Ok s
  else
    e ← for_each index_pair (foreach (m_kvdb s)) (m_recallEngine s);
    let s := s <| m_recallEngine := e |> in
    Ok (s <| m_indexBuilt := true |>).

(** The index is built by the first search. *)
Definition buildRecallIndex (s : KvServer) : KvServer := s.

Definition applyFeatureToIndex (feat : ItemFeature F) (s : KvServer) : outcome KvServer :=
  if (item_id feat =? "")%string then Ok s
  else if negb (vsize (embedding feat) =? HNSW_DIM) then Ok s
  else
    e ← upsertPoint (item_id feat) (embedding feat) (m_recallEngine s);
    Ok (s <| m_recallEngine := e |>).

Definition deleteFeature (itemId : string) (s : KvServer) : outcome KvServer :=
  if (itemId =? "")%string then Ok s
  else
    e ← deletePoint itemId (m_recallEngine s);
    Ok (s <| m_recallEngine := e |>).

(** ** The store and the requests served *)

(** [*value] and [*exist]. *)
Definition ExecuteGetOpOnKVDB (op : Op) (s : KvServer) : string * bool :=
  match search_element (Key op) (m_kvdb s) with
  | Some out => (out, true)
  | None => (""%string, false)
  end.

Definition ExecutePutAppendOnKVDB (op : Op) (s : KvServer) : KvServer :=
  if (Operation op =? "Put")%string then
    s <| m_kvdb := insert_element (Key op) (Value op) (m_kvdb s) |>
  else if (Operation op =? "Append")%string then
    let newVal := match search_element (Key op) (m_kvdb s) with
                  | Some oldVal => (oldVal +:+ Value op)%string
                  | None => Value op
                  end in
    s <| m_kvdb := insert_element (Key op) newVal (m_kvdb s) |>
  else s.

Definition ifRequestDuplicate (ClientId : string) (RequestId : Z) (s : KvServer) : bool :=
  match m_lastRequests s !! ClientId with
  | None => false
  | Some rec => RequestId <=? lastRequestId rec
  end.

Definition recordRequestResult (op : Op) (value : string) (s : KvServer) : KvServer :=
  s <| m_lastRequests :=
      <[ClientId op := mkRequestRecord (RequestId op) value]> (m_lastRequests s) |>.

(** ** [Apply] *)

Definition Apply_execute (op : Op) (s : KvServer) : outcome KvServer :=
  if (Operation op =? "Get")%string then
    let '(value, found) := ExecuteGetOpOnKVDB op s in
    Ok (recordRequestResult op (if (found : bool) then value else ""%string) s)
  else if (Operation op =? "PutFeature")%string then
    let s := ExecutePutAppendOnKVDB op s in
    let s := recordRequestResult op "" s in
    match ParseFromString (Value op) with
    | Some feat => applyFeatureToIndex feat s
    | None => Ok s
    end
  else if (Operation op =? "DeleteFeature")%string then
    let s := ExecutePutAppendOnKVDB op s in
    let s := recordRequestResult op "" s in
    deleteFeature (Key op) s
  else
    let s := ExecutePutAppendOnKVDB op s in
    Ok (recordRequestResult op "" s).

Definition Apply_notify (op : Op) (msg : ApplyMsg) (s : KvServer) : KvServer :=
  let index := am_index msg in
  let s := s <| waitApplyCh := alter (push op) index (waitApplyCh s) |> in
  s <| m_commitIndexCh := alter (push msg) index (m_commitIndexCh s) |>.

Definition Apply (msg : ApplyMsg) (s : KvServer) : outcome KvServer :=
  let op := decodeOp uninit (am_command msg) in
  s ← (if negb (ifRequestDuplicate (ClientId op) (RequestId op) s)
       then Apply_execute op s else Ok s);
  Ok (Apply_notify op msg s).

(** ** The request handlers *)

(** What the caches of a client's last request hold. *)
Definition cached_value (ClientId : string) (s : KvServer) : string :=
  match m_lastRequests s !! ClientId with Some rec => lastValue rec | None => "" end.

(** The local read that ends [Get]. *)
Definition Get_local (op : Op) (s : KvServer) : KvServer * GetReply :=
  let '(value, found) := ExecuteGetOpOnKVDB op s in
  if found then (recordRequestResult op value s, mkGetReply OK value)
  else (recordRequestResult op "" s, mkGetReply ErrNoKey "").

Definition Get (args : GetArgs) (s : KvServer) : KvServer * GetReply :=
  let op := mkOp "Get" (g_key args) "" (g_clientid args) (g_requestid args) in
  let '(raftState, isLeader) := raft_GetState (m_raftNode s) in
  if negb isLeader then
    if ifRequestDuplicate (ClientId op) (RequestId op) s
    then (s, mkGetReply OK (cached_value (ClientId op) s))
    else
      let currentCommitIndex := raft_GetCommitIndex (m_raftNode s) in
      if 0 <? currentCommitIndex then Get_local op s
      else (s, mkGetReply ErrWrongLeader "")
  else if ifRequestDuplicate (ClientId op) (RequestId op) s
  then (s, mkGetReply OK (cached_value (ClientId op) s))
  else Get_local op s.

(** The part of [PutAppend] and [PutFeature] that registers with the index: the queue of
    the index is created when it is not there. *)
Definition wait_channel (index : Z) (s : KvServer) : KvServer :=
  if decide (is_Some (waitApplyCh s !! index)) then s
  else s <| waitApplyCh := <[index := []]> (waitApplyCh s) |>.
(** The end of both: [timeOutPop] on that queue, then the answer. *)
Definition wait_reply (op : Op) (index : Z) (s : KvServer) : KvServer * string :=
  let '(r, q) := timeOutPop [] (default [] (waitApplyCh s !! index)) in
  let s := s <| waitApplyCh := <[index := q]> (waitApplyCh s) |> in
  match r with
  | None =>
      let dup := ifRequestDuplicate (ClientId op) (RequestId op) s in
      (s, if dup then OK else ErrWrongLeader)
  | Some raftCommitOp =>
      if (ClientId raftCommitOp =? ClientId op)%string &&
         (RequestId raftCommitOp =? RequestId op)
      then (s, OK) else (s, ErrWrongLeader)
  end.

(** [meanwhile] is what the other threads of the server do while the handler waits. *)
Definition PutAppend (now : Z) (meanwhile : KvServer → outcome KvServer) (args : PutAppendArgs)
    (s : KvServer) : outcome (KvServer * PutAppendReply) :=
  let op := mkOp (pa_op args) (pa_key args) (pa_value args) (pa_clientid args)
              (pa_requestid args) in
  let '(raft, index, isLeader) := raft_Start now op (m_raftNode s) in
  let s := s <| m_raftNode := raft |> in
  if negb isLeader then Ok (s, mkPutAppendReply ErrWrongLeader)
  else
    s ← meanwhile (wait_channel index s);
    let '(s, err) := wait_reply op index s in
    Ok (s, mkPutAppendReply err).

Definition PutFeature (now : Z) (meanwhile : KvServer → outcome KvServer)
    (args : PutFeatureArgs F) (s : KvServer) : outcome (KvServer * PutAppendReply) :=
  let feat := feature args in
  let op := mkOp "PutFeature" (item_id feat) (SerializeAsString feat) (pf_clientid args)
              (pf_requestid args) in
  let '(raft, index, isLeader) := raft_Start now op (m_raftNode s) in
  let s := s <| m_raftNode := raft |> in
  if negb isLeader then Ok (s, mkPutAppendReply ErrWrongLeader)
  else
    s ← meanwhile (wait_channel index s);
    let '(s, err) := wait_reply op index s in
    Ok (s, mkPutAppendReply err).

Definition clamp_topK (topK : Z) : Z :=
  let topK := if topK <=? 0 then 10 else topK in
  if 100 <? topK then 100 else topK.

(** [searchTimeUs] is the time [searchTopK] measures. *)
Definition Search (searchTimeUs : Z) (args : SearchRequest F) (s : KvServer)
    : outcome (KvServer * SearchResponse F) :=
  s ← buildIndexIfNeeded s;
  if RecallEngine.size (m_recallEngine s) =? 0 then Ok (s, mkSearchResponse [] [] 0)
  else
    let topK := clamp_topK (top_k args) in
    result ← searchTopK (query_vector args) topK (m_recallEngine s);
    Ok (s, mkSearchResponse result.1 result.2 searchTimeUs).

(** The methods of the service: the handlers, then [done]. *)
Definition Get_method := service_method (λ args s, Ok (Get args s)).
Definition PutAppend_method (now : Z) (meanwhile : KvServer → outcome KvServer) :=
  service_method (PutAppend now meanwhile).
Definition PutFeature_method (now : Z) (meanwhile : KvServer → outcome KvServer) :=
  service_method (PutFeature now meanwhile).
Definition Search_method (searchTimeUs : Z) := service_method (Search searchTimeUs).

(** ** Read index *)

Definition SetLeaderInfo (leaderId : Z) (leaderIp : string) (leaderPort : Z) (s : KvServer)
    : KvServer :=
  let s := s <| m_leaderId := leaderId |> in
  let s := s <| m_leaderIp := leaderIp |> in
  s <| m_leaderPort := leaderPort |>.

Definition WaitForCommitIndex (targetIndex : Z) (meanwhile : KvServer → outcome KvServer)
    (s : KvServer) : outcome (KvServer * bool) :=
  let s := if decide (is_Some (m_commitIndexCh s !! targetIndex)) then s
           else s <| m_commitIndexCh := <[targetIndex := []]> (m_commitIndexCh s) |> in
  s ← meanwhile s;
  let '(r, _) := timeOutPop [] (default [] (m_commitIndexCh s !! targetIndex)) in
  let success := bool_decide (is_Some r) in
  Ok (s <| m_commitIndexCh := delete targetIndex (m_commitIndexCh s) |>, success).

(** [send] is [sendReadIndex] of the consensus module. *)
Definition QueryLeaderForReadIndex
    (send : Z → ReadIndexRequest → outcome (option ReadIndexResponse)) (s : KvServer)
    : outcome (option Z) :=
  let '(leaderId, _, _) := raft_GetLeaderInfo (m_raftNode s) in
  if leaderId <? 0 then Ok None
  else
    response ← send leaderId (mkReadIndexRequest (m_leaderId s));
    Ok (match response with
        | Some r => if rir_isleader r then Some (rir_commitindex r) else None
        | None => None
        end).
End server.
Arguments KvServer : clear implicits.
