(* ===== verification/KvSpec.v ===== *)
(** What the key-value server promises: the log is applied exactly once per request, the
    answers of the handlers, and the reads that break the promise. *)
From S2P Require Import Prelude OpCoder Persister RaftTypes RaftLog Channels Hnsw RecallEngine KvTypes KvServer.
Open Scope Z_scope.

(** ** The specification *)

Section spec.
Context {F : Type} `{C : FeatureCodec F}.

(** A command on the map of keys to values. *)
Definition exec_op (op : Op) (m : gmap string string) : gmap string string :=
  if (Operation op =? "Put")%string then <[Key op := Value op]> m
  else if (Operation op =? "Append")%string
  then <[Key op := (default "" (m !! Key op) +:+ Value op)%string]> m
  else m.

(** Some command of [earlier] is a later or the same request of client [c]. *)
Definition dup_in (earlier : list Op) (c : string) (i : Z) : bool :=
  existsb (λ o, (ClientId o =? c)%string && (i <=? RequestId o)) earlier.
(** The commands of a log that take effect: those that no earlier command makes stale. *)
Fixpoint effective (earlier ops : list Op) : list Op :=
  match ops with
  | [] => []
  | op :: ops' =>
      let rest := effective (earlier ++ [op]) ops' in
      if dup_in earlier (ClientId op) (RequestId op) then rest else op :: rest
  end.

(** What a command means to the vector index. *)
Definition feature_op (op : Op) : option (engine_op (F:=F)) :=
  if (Operation op =? "PutFeature")%string then
    match ParseFromString (Value op) with
    | Some feat =>
        if negb (item_id feat =? "")%string && (vsize (embedding feat) =? HNSW_DIM)
        then Some (OUpsert (item_id feat) (embedding feat)) else None
    | None => None
    end
  else if (Operation op =? "DeleteFeature")%string
  then if (Key op =? "")%string then None else Some (ODelete (Key op))
  else None.
End spec.

Section proofs.
Context {F T R : Type} `{H : HnswLib F} `{S : StdHash} `{K : SkipList T} `{C : FeatureCodec F}
  `{RS : RaftService R} `{KL : !SkipListLaws K} (uninit : Z).
Abbreviation server := (KvServer F T R).

Definition store_is (s : server) (m : gmap string string) : Prop :=
  ∀ k, search_element k (m_kvdb s) = m !! k.

(** ** One command *)

Lemma exec_store op s m :
  store_is s m → store_is (ExecutePutAppendOnKVDB op s) (exec_op op m).
Proof.
  intros Hs k. unfold ExecutePutAppendOnKVDB, exec_op.
  destruct (Operation op =? "Put")%string; [|destruct (Operation op =? "Append")%string];
    cbn; [| |by apply Hs]; rewrite search_insert, lookup_insert, Hs; [done|].
  rewrite Hs. by destruct (m !! Key op).
Qed.
Lemma exec_frame op (s : server) :
  m_recallEngine (ExecutePutAppendOnKVDB op s) = m_recallEngine s ∧
  m_lastRequests (ExecutePutAppendOnKVDB op s) = m_lastRequests s ∧
  waitApplyCh (ExecutePutAppendOnKVDB op s) = waitApplyCh s.
Proof. unfold ExecutePutAppendOnKVDB. by repeat case_match. Qed.

(** What [Apply_execute] does to the components of the server. *)
Record executed (op : Op) (s s' : server) (e : RecallEngine (F:=F)) : Prop := {
  x_engine : m_recallEngine s' = e;
  x_store m : store_is s m → store_is s' (exec_op op m);
  x_last c : lastRequestId <$> m_lastRequests s' !! c =
    if decide (c = ClientId op) then Some (RequestId op) else lastRequestId <$> m_lastRequests s !! c;
  x_wait : waitApplyCh s' = waitApplyCh s
}.

Definition engine_effect (op : Op) (e : RecallEngine (F:=F)) : outcome (RecallEngine (F:=F)) :=
  match feature_op op with Some o => engine_step o e | None => Ok e end.

Lemma record_last op v (s : server) c :
  lastRequestId <$> m_lastRequests (recordRequestResult op v s) !! c =
  if decide (c = ClientId op) then Some (RequestId op) else lastRequestId <$> m_lastRequests s !! c.
Proof.
  unfold recordRequestResult. cbn. case_decide as Hc; subst.
  - by rewrite lookup_insert_eq.
  - by rewrite lookup_insert_ne.
Qed.

(** The state after the store and the record of requests are updated, whatever engine. *)
Lemma executed_record op v (s s' : server) e :
  (∀ m, store_is s m → store_is (ExecutePutAppendOnKVDB op s) (exec_op op m)) →
  s' = (recordRequestResult op v (ExecutePutAppendOnKVDB op s)) <| m_recallEngine := e |> →
  executed op s s' e.
Proof.
  intros Hs ->. destruct (exec_frame op s) as (He & Hl & Hw). split.
  - done.
  - intros m Hm k. by apply Hs.
  - intros c. cbn [m_lastRequests]. rewrite <- Hl. apply record_last.
  - cbn. by rewrite Hw.
Qed.

Lemma executed_plain op v (s : server) :
  executed op s (recordRequestResult op v (ExecutePutAppendOnKVDB op s)) (m_recallEngine s).
Proof.
  destruct (exec_frame op s) as (He & _). eapply executed_record; [apply exec_store|].
  rewrite <- He. by destruct (ExecutePutAppendOnKVDB op s).
Qed.
Lemma executed_engine op v e (s : server) :
  executed op s ((recordRequestResult op v (ExecutePutAppendOnKVDB op s)) <| m_recallEngine := e |>) e.
Proof. eapply executed_record; [apply exec_store|done]. Qed.

Lemma feature_executed op feat (s : server) :
  agrees (executed op s)
    (applyFeatureToIndex feat (recordRequestResult op "" (ExecutePutAppendOnKVDB op s)))
    (match (if negb (item_id feat =? "")%string && (vsize (embedding feat) =? HNSW_DIM)
            then Some (OUpsert (item_id feat) (embedding feat)) else None) with
     | Some o => engine_step o (m_recallEngine s) | None => Ok (m_recallEngine s) end).
Proof.
  destruct (exec_frame op s) as (He & _). unfold applyFeatureToIndex.
  destruct (item_id feat =? "")%string; cbn [negb andb].
  { eexists; split; [done|apply executed_plain]. }
  destruct (vsize _ =? HNSW_DIM); cbn [negb].
  - cbn [engine_step recordRequestResult m_recallEngine upd]. rewrite He.
    destruct (upsertPoint _ _ _); [|done..].
    eexists; split; [done|]. apply (executed_engine op "").
  - eexists; split; [done|apply executed_plain].
Qed.

Lemma Apply_execute_spec op (s : server) :
  agrees (executed op s) (Apply_execute op s) (engine_effect op (m_recallEngine s)).
Proof.
  destruct (exec_frame op s) as (He & _). unfold engine_effect, feature_op, Apply_execute.
  destruct (Operation op =? "Get")%string eqn:EG.
  { apply String.eqb_eq in EG. rewrite EG. cbn [String.eqb Ascii.eqb Bool.eqb].
    destruct (ExecuteGetOpOnKVDB op s) as [v f]. eexists; split; [done|].
    pose proof (executed_plain op (if f then v else "") s) as Hx.
    unfold ExecutePutAppendOnKVDB in Hx. by rewrite EG in Hx. }
  destruct (Operation op =? "PutFeature")%string eqn:EP.
  { destruct (ParseFromString (Value op)) as [feat|]; [apply feature_executed|].
    eexists; split; [done|apply executed_plain]. }
  destruct (Operation op =? "DeleteFeature")%string eqn:ED.
  { unfold deleteFeature. destruct (Key op =? "")%string.
    - eexists; split; [done|apply executed_plain].
    - cbn [engine_step recordRequestResult m_recallEngine upd]. rewrite He.
      destruct (deletePoint _ _); [|done..].
      eexists; split; [done|]. apply (executed_engine op ""). }
  eexists; split; [done|apply executed_plain].
Qed.

(** ** Sequences of commands *)

(** The command of a message. *)
Definition msg_op (msg : ApplyMsg) : Op := decodeOp uninit (am_command msg).

Record applied (earlier : list Op) (m : gmap string string) (s : server)
    (e : RecallEngine (F:=F)) : Prop := {
  a_engine : m_recallEngine s = e;
  a_store : store_is s m;
  a_dup c i : ifRequestDuplicate c i s = dup_in earlier c i
}.

Lemma dup_in_snoc earlier op c i :
  dup_in (earlier ++ [op]) c i =
  dup_in earlier c i || (ClientId op =? c)%string && (i <=? RequestId op).
Proof. unfold dup_in. rewrite existsb_app. cbn. by rewrite orb_false_r. Qed.
Lemma dup_in_mono earlier c i j : i ≤ j → dup_in earlier c j = true → dup_in earlier c i = true.
Proof.
  unfold dup_in. rewrite !existsb_exists. intros Hij (o & Ho & Hc). exists o.
  split; [done|]. b2p. apply andb_true_iff. split; [done|]. apply Z.leb_le. lia.
Qed.

Lemma notify_frame op msg (s : server) e m earlier :
  applied earlier m s e → applied earlier m (Apply_notify op msg s) e.
Proof. by intros [? ? ?]. Qed.

(** The record of requests after a command that takes effect. *)
Lemma executed_dup op (s s' : server) e earlier :
  (∀ c i, ifRequestDuplicate c i s = dup_in earlier c i) →
  dup_in earlier (ClientId op) (RequestId op) = false → executed op s s' e →
  ∀ c i, ifRequestDuplicate c i s' = dup_in (earlier ++ [op]) c i.
Proof.
  intros Hd Hn X c i. rewrite dup_in_snoc, <- Hd. pose proof (x_last _ _ _ _ X c) as Hl.
  unfold ifRequestDuplicate in *. destruct (String.eqb_spec (ClientId op) c) as [<-|Hc].
  - rewrite decide_True in Hl by done. apply fmap_Some in Hl as (rec & -> & Hr). rewrite <- Hr.
    cbn [andb]. destruct (Z.leb_spec i (RequestId op)); [by rewrite orb_true_r|].
    rewrite orb_false_r. specialize (Hd (ClientId op) i).
    destruct (m_lastRequests s !! ClientId op) as [r|] eqn:E; [|done].
    destruct (i <=? lastRequestId r); [|done]. symmetry in Hd.
    apply (dup_in_mono _ _ (RequestId op)) in Hd; [congruence|lia].
  - rewrite decide_False in Hl by congruence. cbn. rewrite orb_false_r.
    destruct (m_lastRequests s' !! c), (m_lastRequests s !! c); cbn in Hl; congruence.
Qed.

Lemma Apply_step msg (s : server) earlier m e :
  applied earlier m s e →
  let op := msg_op msg in
  if dup_in earlier (ClientId op) (RequestId op)
  then ∃ s', Apply uninit msg s = Ok s' ∧ applied (earlier ++ [op]) m s' e
  else agrees (applied (earlier ++ [op]) (exec_op op m)) (Apply uninit msg s)
         (engine_effect op e).
Proof.
  intros [He Hst Hd] op. unfold Apply. fold (msg_op msg). fold op. rewrite Hd.
  destruct (dup_in _ _ _) eqn:E; cbn [negb].
  - eexists; split; [done|]. apply notify_frame. split; [done..|].
    intros c i. rewrite dup_in_snoc, Hd. destruct (String.eqb_spec (ClientId op) c) as [<-|];
      [|by rewrite orb_false_r]. destruct (Z.leb_spec i (RequestId op)); [|by rewrite orb_false_r].
    rewrite (dup_in_mono _ _ i (RequestId op)); [done|lia|done].
  - pose proof (Apply_execute_spec op s) as Hx. rewrite He in Hx.
    destruct (engine_effect op e) as [e'| |]; cbn in Hx |- *; [|by rewrite Hx..].
    destruct Hx as (s1 & -> & X). cbn. eexists; split; [done|]. apply notify_frame. split.
    + by apply X.
    + by apply X.
    + by apply (executed_dup op s s1 e').
Qed.

Lemma Apply_all msgs (s : server) earlier m e :
  applied earlier m s e →
  let es := effective earlier (msg_op <$> msgs) in
  agrees (applied (earlier ++ (msg_op <$> msgs)) (foldl (flip exec_op) m es))
    (for_each (Apply uninit) msgs s) (for_each engine_step (omap feature_op es) e).
Proof.
  revert s earlier m e. induction msgs as [|msg msgs IH]; intros s earlier m e Ha es.
  { cbn. rewrite app_nil_r. by exists s. }
  pose proof (Apply_step msg s earlier m e Ha) as Hstep. cbn in Hstep.
  subst es. cbn [fmap list_fmap effective for_each].
  rewrite (cons_middle (msg_op msg) earlier), (app_assoc earlier).
  destruct (dup_in _ _ _).
  { destruct Hstep as (s' & -> & Ha'). cbn. by apply IH. }
  cbn [foldl omap list_omap]. unfold engine_effect in Hstep.
  destruct (feature_op (msg_op msg)) as [o|]; cbn [for_each].
  - destruct (engine_step o e) as [e'| |]; cbn in Hstep |- *; [|by rewrite Hstep..].
    destruct Hstep as (s' & -> & Ha'). cbn. by apply IH.
  - destruct Hstep as (s' & -> & Ha'). cbn. by apply IH.
Qed.

(** The request a command belongs to. *)
Definition request_key (o : Op) : string * Z := (ClientId o, RequestId o).

Lemma effective_fresh earlier ops o :
  o ∈ effective earlier ops → dup_in earlier (ClientId o) (RequestId o) = false.
Proof.
  revert earlier. induction ops as [|op ops IH]; intros earlier Ho; cbn in Ho; [set_solver|].
  assert (o ∈ effective (earlier ++ [op]) ops → dup_in earlier (ClientId o) (RequestId o) = false)
    as Hrest.
  { intros Hin%IH. rewrite dup_in_snoc in Hin. by apply orb_false_iff in Hin as [? _]. }
  destruct (dup_in earlier (ClientId op) _) eqn:E; [auto|].
  apply elem_of_cons in Ho as [->|Ho]; [done|auto].
Qed.
Lemma effective_NoDup earlier ops : NoDup (request_key <$> effective earlier ops).
Proof.
  revert earlier. induction ops as [|op ops IH]; intros earlier; cbn; [constructor|].
  destruct (dup_in _ _ _); [apply IH|]. cbn. constructor; [|apply IH].
  intros (o & Ho & Hin)%list_elem_of_fmap. apply effective_fresh in Hin.
  rewrite dup_in_snoc in Hin. injection Ho as Hc Hr.
  by rewrite <- Hc, Hr, String.eqb_refl, Z.leb_refl, orb_true_r in Hin.
Qed.

Lemma effective_snoc earlier l op :
  effective earlier (l ++ [op]) =
  effective earlier l ++ (if dup_in (earlier ++ l) (ClientId op) (RequestId op) then [] else [op]).
Proof.
  revert earlier. induction l as [|o l IH]; intros earlier.
  - cbn. rewrite app_nil_r. by case_match.
  - cbn [app effective]. rewrite IH. rewrite <- app_assoc. cbn [app]. by destruct (dup_in earlier _ _).
Qed.

(** The request ids of one client, in the order of a list of commands. *)
Definition client_ids (c : string) (l : list Op) : list Z :=
  RequestId <$> filter (λ op, ClientId op = c) l.

(** The commands of one client that take effect do so in the order of their requests. *)
Lemma effective_ordered c earlier ops :
  Sorted.StronglySorted Z.lt (client_ids c (effective earlier ops)).
Proof.
  unfold client_ids. revert earlier. induction ops as [|op ops IH]; intros earlier; cbn [effective];
    [constructor|].
  destruct (dup_in earlier _ _); [apply IH|]. rewrite filter_cons. case_decide as Hc; [|apply IH].
  rewrite fmap_cons. constructor; [apply IH|]. apply Forall_forall.
  intros z (o & -> & [Ho Hin]%list_elem_of_filter)%list_elem_of_fmap.
  apply effective_fresh in Hin. unfold dup_in in Hin. rewrite existsb_app, orb_false_iff in Hin.
  destruct Hin as [_ Hin]. cbn in Hin. rewrite orb_false_r, andb_false_iff in Hin.
  destruct Hin as [Hin%String.eqb_neq|Hin]; [congruence|]. b2p. lia.
Qed.

(** Whoever makes a request stale, some command that took effect does. *)
Lemma effective_dup ops c i : dup_in (effective [] ops) c i = dup_in ops c i.
Proof.
  induction ops as [|op ops IH] using rev_ind; [done|]. rewrite effective_snoc. cbn [app].
  unfold dup_in in *. rewrite !existsb_app, IH. case_match eqn:E; [|done].
  cbn [existsb]. rewrite !orb_false_r. destruct (existsb _ ops) eqn:E2; [done|].
  symmetry. apply andb_false_iff. destruct (String.eqb_spec (ClientId op) c) as [<-|]; [right|by left].
  rewrite existsb_exists in E. destruct E as (o & Ho & [Hc Hi]%andb_true_iff).
  destruct (Z.leb_spec i (RequestId op)) as [Hle|]; [|done]. exfalso.
  assert (existsb (λ o, (ClientId o =? ClientId op)%string && (i <=? RequestId o)) ops = true); [|congruence].
  apply existsb_exists. exists o. split; [done|]. rewrite Hc. b2p. apply Z.leb_le. lia.
Qed.

(** C8: the log takes effect exactly once per request.  A server that starts empty and
    applies any sequence of log messages, however often the commands are repeated in it,
    ends with the map that results from executing, in log order, only the commands that
    no earlier command of the same client makes stale, and with the vector index that
    results from their feature updates; it fails exactly when one of those updates makes
    the index fail.  No request occurs twice among those commands. *)
Theorem log_applied_once (raft : R) (msgs : list ApplyMsg) :
  let es := effective [] (msg_op <$> msgs) in
  NoDup (request_key <$> es) ∧
  agrees (λ (s : server) e, m_recallEngine s = e ∧ store_is s (foldl (flip exec_op) ∅ es))
    (for_each (Apply uninit) msgs (new_server raft))
    (for_each engine_step (omap feature_op es) (m_recallEngine (new_server (T:=T) raft))).
Proof.
  intros es. split; [apply effective_NoDup|].
  assert (applied [] ∅ (new_server raft) (m_recallEngine (new_server (T:=T) raft))) as H0.
  { split; [done|intros k; cbn; by rewrite search_new, lookup_empty|done]. }
  pose proof (Apply_all msgs (new_server raft) [] ∅ _ H0) as Hall. cbn zeta in Hall. fold es in Hall.
  unfold agrees in *. destruct (for_each engine_step _ _); [|done..].
  destruct Hall as (s & -> & [? ? ?]). by exists s.
Qed.

(** ** Answers *)

Definition at_index (index : Z) (msgs : list ApplyMsg) : list Op :=
  msg_op <$> filter (λ msg, am_index msg = index) msgs.

(** What one [Apply] that returns leaves of the queues and of the record of requests. *)
Lemma Apply_frame msg (s s' : server) :
  Apply uninit msg s = Ok s' →
  waitApplyCh s' = alter (push (msg_op msg)) (am_index msg) (waitApplyCh s) ∧
  ∀ c i, ifRequestDuplicate c i s' = true →
    ifRequestDuplicate c i s = true ∨ dup_in [msg_op msg] c i = true.
Proof.
  unfold Apply. fold (msg_op msg). set (op := msg_op msg). intros HA. inv_ok. subst s'.
  destruct (ifRequestDuplicate (ClientId op) _ s) eqn:E; cbn [negb] in *.
  { inv_ok. subst. split; [done|]. intros c i Hc. by left. }
  pose proof (Apply_execute_spec op s) as HX. rewrite Hx in HX.
  destruct (engine_effect op _) as [e| |]; [|done..]. destruct HX as (? & [= <-] & X).
  split; [cbn; by rewrite (x_wait _ _ _ _ X)|]. intros c i Hc.
  change (ifRequestDuplicate c i x = true) in Hc. unfold ifRequestDuplicate in Hc |- *.
  pose proof (x_last _ _ _ _ X c) as Hl. cbn. case_decide as Hcc.
  - right. apply fmap_Some in Hl as (r & Hr1 & Hr2). rewrite Hr1 in Hc. subst c.
    rewrite String.eqb_refl, orb_false_r. cbn. congruence.
  - left. destruct (m_lastRequests x !! c), (m_lastRequests s !! c); cbn in Hl; congruence.
Qed.

Lemma Applies_frame msgs (s s' : server) index :
  for_each (Apply uninit) msgs s = Ok s' →
  waitApplyCh s' !! index = (λ q, q ++ at_index index msgs) <$> waitApplyCh s !! index ∧
  ∀ c i, ifRequestDuplicate c i s' = true →
    ifRequestDuplicate c i s = true ∨ dup_in (msg_op <$> msgs) c i = true.
Proof.
  revert s. induction msgs as [|msg msgs IH]; intros s HA; cbn in HA; inv_ok.
  { subst. split; [|by left]. unfold at_index. cbn. destruct (waitApplyCh s' !! index); [|done].
    cbn. by rewrite app_nil_r. }
  apply Apply_frame in Hx as [Hw Hd]. destruct (IH _ HA) as [Hw' Hd']. split.
  - rewrite Hw', Hw. unfold at_index. rewrite filter_cons. case_decide as Hi.
    + subst index. rewrite lookup_alter_eq, <- option_fmap_compose.
      apply option_fmap_ext. intros q. cbn. unfold push. by rewrite <- app_assoc.
    + by rewrite lookup_alter_ne.
  - intros c i Hc. unfold dup_in in *. cbn [fmap list_fmap existsb] in *. rewrite orb_true_iff.
    destruct (Hd' c i Hc) as [Hs|?]; [|auto]. destruct (Hd c i Hs) as [?|Ho]; [auto|].
    rewrite orb_false_r in Ho. auto.
Qed.

(** Whether a waiting request gets the answer [OK]: by the first command that was applied
    at its index, or by the record of requests when none was. *)
Definition answered (op : Op) (index : Z) (msgs : list ApplyMsg) (s1 : server) : bool :=
  match at_index index msgs with
  | o :: _ => (ClientId o =? ClientId op)%string && (RequestId o =? RequestId op)
  | [] => ifRequestDuplicate (ClientId op) (RequestId op) s1
  end.

Lemma wait_reply_answers op index msgs (s s1 : server) :
  waitApplyCh s !! index = None →
  for_each (Apply uninit) msgs (wait_channel index s) = Ok s1 →
  ∃ s2, wait_reply op index s1 = (s2, if answered op index msgs s1 then OK else ErrWrongLeader) ∧
    m_kvdb s2 = m_kvdb s1 ∧ m_lastRequests s2 = m_lastRequests s1.
Proof.
  intros Hn HA. unfold wait_channel in HA. rewrite decide_False in HA by (rewrite Hn; by intros [? ?]).
  destruct (Applies_frame _ _ _ index HA) as [Hw _]. cbn in Hw. rewrite lookup_insert_eq in Hw.
  cbn in Hw. unfold wait_reply, answered. rewrite Hw. cbn [default from_option].
  destruct (at_index index msgs) as [|o q]; cbn.
  - eexists; split; [done|done].
  - destruct (_ && _); by eexists.
Qed.

(** C28: what [PutAppend] answers.  A server that is not the leader answers [ErrWrongLeader]
    and changes nothing else.  A leader waits for the index that [Start] returned: it
    answers [OK] exactly when the first command the apply thread delivers at that index is
    this request, or when none arrives before the timeout and the request is already
    recorded.  An [OK] is never given to a request that was neither recorded before nor
    covered by a command applied during the wait. *)
Theorem PutAppend_answers (now : Z) (args : PutAppendArgs) (msgs : list ApplyMsg) (s s1 : server) :
  let op := mkOp (pa_op args) (pa_key args) (pa_value args) (pa_clientid args)
              (pa_requestid args) in
  let '(raft, index, isLeader) := raft_Start now op (m_raftNode s) in
  let s0 := s <| m_raftNode := raft |> in
  if negb isLeader
  then PutAppend now (for_each (Apply uninit) msgs) args s =
         Ok (s0, mkPutAppendReply ErrWrongLeader)
  else
    waitApplyCh s !! index = None →
    for_each (Apply uninit) msgs (wait_channel index s0) = Ok s1 →
    ∃ s2, PutAppend now (for_each (Apply uninit) msgs) args s =
        Ok (s2, mkPutAppendReply (if answered op index msgs s1 then OK else ErrWrongLeader)) ∧
      m_kvdb s2 = m_kvdb s1 ∧ m_lastRequests s2 = m_lastRequests s1 ∧
      (answered op index msgs s1 = true →
       ifRequestDuplicate (pa_clientid args) (pa_requestid args) s = true ∨
       dup_in (msg_op <$> msgs) (pa_clientid args) (pa_requestid args) = true).
Proof.
  intros op. unfold PutAppend. fold op.
  destruct (raft_Start now op (m_raftNode s)) as [[raft index] isLeader].
  set (s0 := s <| m_raftNode := raft |>).
  destruct isLeader; cbn [negb]; [|done]. intros Hn HA.
  destruct (wait_reply_answers op index msgs s0 s1 Hn HA) as (s2 & E & Hk & Hl).
  exists s2. rewrite HA. cbn [mbind outcome_bind]. rewrite E. split_and!; [done..|].
  destruct (Applies_frame _ _ _ index HA) as [_ Hd].
  assert (∀ c i, ifRequestDuplicate c i (wait_channel index s0) = ifRequestDuplicate c i s) as Hw.
  { intros c i. unfold wait_channel. by case_decide. }
  unfold answered. destruct (at_index index msgs) as [|o q] eqn:Eq.
  - intros Hdup. destruct (Hd _ _ Hdup) as [?|?]; [left; by rewrite <- Hw|by right].
  - intros Ho. right. unfold dup_in. apply existsb_exists. exists o. split.
    + assert (o ∈ at_index index msgs) as Hin by (rewrite Eq; set_solver).
      unfold at_index in Hin. apply list_elem_of_fmap in Hin as (msg & -> & Hm).
      apply list_elem_of_filter in Hm as [_ Hm]. apply list_elem_of_In. by apply list_elem_of_fmap_2.
    + b2p. apply andb_true_iff. split; [done|]. apply Z.leb_le. cbn in *. lia.
Qed.

(** Whether the server answers reads from its own store. *)
Definition serves_reads (s : server) : bool :=
  (raft_GetState (m_raftNode s)).2 || (0 <? raft_GetCommitIndex (m_raftNode s)).

Lemma Get_served args (s : server) :
  let op := mkOp "Get" (g_key args) "" (g_clientid args) (g_requestid args) in
  ifRequestDuplicate (g_clientid args) (g_requestid args) s = false →
  serves_reads s = true → Get args s = Get_local op s.
Proof.
  intros op Hd Hs. unfold Get, serves_reads in *. fold op. cbn [ClientId RequestId] in *.
  destruct (raft_GetState (m_raftNode s)) as [term isLeader]. cbn in Hs.
  subst op. cbn [ClientId RequestId]. rewrite Hd.
  destruct isLeader; cbn in *; [done|]. by rewrite Hs.
Qed.

(** Reads are answered from the local store and still enter the record of requests, so
    that a read can make a server drop a write.  Let a [Put] of a client be in the log but
    not yet applied when a later read of that client is served: without the read the
    server stores the value, after it the same message leaves the store as it was. *)
Theorem local_read_drops_write (args : GetArgs) (msg : ApplyMsg) (s : server) :
  let op := msg_op msg in
  Operation op = "Put" → ClientId op = g_clientid args → RequestId op ≤ g_requestid args →
  ifRequestDuplicate (ClientId op) (RequestId op) s = false → serves_reads s = true →
  ∃ s1 s2,
    Apply uninit msg s = Ok s1 ∧ search_element (Key op) (m_kvdb s1) = Some (Value op) ∧
    Apply uninit msg (Get args s).1 = Ok s2 ∧ m_kvdb s2 = m_kvdb s.
Proof.
  intros op Ho Hc Hi Hd Hs.
  assert (ifRequestDuplicate (g_clientid args) (g_requestid args) s = false) as Hg.
  { unfold ifRequestDuplicate in *. rewrite Hc in Hd. destruct (_ !! _); [|done]. b2p.
    apply Z.leb_gt. lia. }
  unfold Apply. fold (msg_op msg). fold op. clearbody op.
  rewrite Hd. cbn [negb]. unfold Apply_execute. rewrite Ho. cbn [String.eqb Ascii.eqb Bool.eqb mbind outcome_bind].
  assert (∀ o v, ClientId o = ClientId op → RequestId op ≤ RequestId o →
    ifRequestDuplicate (ClientId op) (RequestId op) (recordRequestResult o v s) = true) as Hrec.
  { intros o v Hoc Hoi. unfold ifRequestDuplicate, recordRequestResult. cbn.
    rewrite Hoc, lookup_insert_eq. by apply Z.leb_le. }
  assert (∃ v, (Get args s).1 = recordRequestResult
    (mkOp "Get" (g_key args) "" (g_clientid args) (g_requestid args)) v s) as (v & ->).
  { rewrite Get_served by done. unfold Get_local.
    destruct (ExecuteGetOpOnKVDB _ s) as [v [|]]; by eexists. }
  rewrite Hrec by (cbn; congruence || lia). cbn [negb mbind outcome_bind].
  eexists _, _. split; [done|]. split; [|done].
  unfold ExecutePutAppendOnKVDB. rewrite Ho. cbn - [decide]. rewrite search_insert.
  by rewrite decide_True.
Qed.

(** ** Searches *)

(** The insertions that the first search makes. *)
Definition pair_op (p : string * string) : option (engine_op (F:=F)) :=
  match ParseFromString p.2 with
  | Some feat => if vsize (embedding feat) =? HNSW_DIM then Some (OAdd p.1 (embedding feat)) else None
  | None => None
  end.
Definition build_ops (s : server) : list (engine_op (F:=F)) :=
  if m_indexBuilt s then [] else omap pair_op (foreach (m_kvdb s)).

Lemma index_pair_op p e :
  index_pair p e = match pair_op p with Some o => engine_step o e | None => Ok e end.
Proof. unfold index_pair, pair_op. by repeat case_match. Qed.
Lemma index_pairs l e :
  for_each index_pair l e = for_each engine_step (omap pair_op l) e.
Proof.
  revert e. induction l as [|p l IH]; intros e; [done|]. cbn [for_each omap list_omap].
  rewrite index_pair_op. destruct (pair_op p) as [o|]; [|apply IH]. cbn [for_each].
  destruct (engine_step o e); cbn; [apply IH|done..].
Qed.
Lemma build_clean cap l s : clean_run cap (omap pair_op l) s = true.
Proof.
  revert s. induction l as [|p l IH]; intros s; [done|]. cbn [omap list_omap].
  destruct (pair_op p) as [o|] eqn:E; [|apply IH]. cbn [clean_run].
  assert (clean o s = true) as ->.
  { unfold pair_op in E. repeat case_match; naive_solver. }
  cbn [andb]. destruct (spec_step _ _ _); [apply IH|done..].
Qed.

Context `{HL : !HnswLaws H} `{SL : !StdHashLaws S}.

End proofs.

(** ** Concrete runs *)

#[local] Existing Instance first_byte_hash.
#[local] Existing Instance bit_archive.
Definition demo_server : KvServer Z (gmap string string) node := new_server log_demo.
Definition put_op (k v : string) (i : Z) : Op := mkOp "Put" k v "c" i.
Definition append_op (k v : string) (i : Z) : Op := mkOp "Append" k v "c" i.
Definition feature_cmd (i : string) (x : Z) (r : Z) : Op :=
  mkOp "PutFeature" i (SerializeAsString (mkItemFeature i (demo_vec x) ∅ 0)) "c" r.
Definition log_msg (i : Z) (op : Op) : ApplyMsg := mkApplyMsg true i (encodeOp op) false 0 0 "".
Definition demo_msgs : list ApplyMsg :=
  [log_msg 1 (put_op "x" "1" 1); log_msg 2 (append_op "x" "2" 2); log_msg 3 (append_op "x" "2" 2);
   log_msg 4 (feature_cmd "b" 3 3); log_msg 5 (put_op "x" "0" 1)].

Lemma log_applied_once_witness :
  agrees (λ (s : KvServer Z (gmap string string) node) e, m_recallEngine s = e ∧
            store_is s (foldl (flip exec_op) ∅ (effective [] (msg_op 0 <$> demo_msgs))))
    (for_each (Apply 0) demo_msgs (new_server log_demo))
    (for_each engine_step (omap feature_op (effective [] (msg_op 0 <$> demo_msgs)))
       (m_recallEngine demo_server)) ∧
  foldl (flip exec_op) ∅ (effective [] (msg_op 0 <$> demo_msgs)) = {["x" := "12"]} ∧
  length (effective [] (msg_op 0 <$> demo_msgs)) = 3%nat.
Proof.
  split; [exact (proj2 (log_applied_once 0 log_demo demo_msgs))|split; by vm_compute].
Defined.

Definition demo_put : PutAppendArgs := mkPutAppendArgs "x" "1" "Put" "c" 1.
Definition demo_waited : KvServer Z (gmap string string) node :=
  let '(raft, index, _) := raft_Start 0 (put_op "x" "1" 1) log_demo in
  default demo_server (ok_value (for_each (Apply 0) [log_msg 4 (put_op "x" "1" 1)]
    (wait_channel index (demo_server <| m_raftNode := raft |>)))).
Lemma PutAppend_answers_witness :
  ∃ s2, PutAppend 0 (for_each (Apply 0) [log_msg 4 (put_op "x" "1" 1)]) demo_put demo_server =
      Ok (s2, mkPutAppendReply OK) ∧ m_kvdb s2 = m_kvdb demo_waited.
Proof.
  pose proof (PutAppend_answers 0 0 demo_put [log_msg 4 (put_op "x" "1" 1)] demo_server
    demo_waited) as Hp.
  destruct Hp as (s2 & E & Hk & _); [by vm_compute|by vm_compute|].
  exists s2. split; [exact E|exact Hk].
Defined.

Definition demo_get : GetArgs := mkGetArgs "x" "c" 2.
Lemma local_read_drops_write_witness :
  ∃ s1 s2, Apply 0 (log_msg 4 (put_op "x" "1" 1)) demo_server = Ok s1 ∧
    search_element "x" (m_kvdb s1) = Some "1" ∧
    Apply 0 (log_msg 4 (put_op "x" "1" 1)) (Get demo_get demo_server).1 = Ok s2 ∧
    m_kvdb s2 = ∅.
Proof.
  apply (local_read_drops_write 0 demo_get (log_msg 4 (put_op "x" "1" 1)) demo_server);
    by vm_compute.
Defined.

Definition demo_search_server : KvServer Z (gmap string string) node :=
  demo_server <| m_recallEngine := demo_engine |>.
