(* ===== verification/ServerMain.v ===== *)
(** The server process of [src/ServerMain.cpp]: a Raft node, a [KvServer] and the thread that
    moves messages from one to the other. *)
From S2P Require Import Prelude OpCoder Persister RaftTypes RaftLog RaftElection RaftReplication Channels Hnsw RecallEngine KvTypes KvServer KvSpec.
Open Scope Z_scope.

Definition kTotalServers : nat := 3.
Definition kPeerPorts : list Z := [8001; 8002; 8003].

Section main.
Context {F T : Type} `{H : HnswLib F} `{S : StdHash} `{K : SkipList T} `{C : FeatureCodec F}
  `{Ar : BoostArchive} (uninit : Z).
Abbreviation server := (KvServer F T node).

(** The server's number, from the environment variable [RAFT_ME]. *)
Definition server_id (env : option string) : outcome Z :=
  match env with Some s => atoi s | None => Ok 0 end.
(** The addresses of the clients that the node gets: null at its own number. *)
Definition make_peers (me : Z) : list (option (string * Z)) :=
  (λ i, if i =? me then None
        else (λ port, ("127.0.0.1"%string, port mod 2 ^ 16)) <$> kPeerPorts !! Z.to_nat i)
    <$> indices kTotalServers.

(** [main] up to [provider.Run()]: the [KvServer] is made before the node ([nullptr]) and
    gets the node once it is initialised from the files of [Persister(me)]. *)
Definition main (env : option string) (disk : Z → store) (now : Z) : outcome server :=
  me ← server_id env;
  let persister := disk me in
  let peers := make_peers me in
  raftNode ← init (length peers) me persister now;
  Ok (setRaftNode raftNode (new_server raftNode)).

(** One round of the apply thread. *)
Definition apply_thread (s : server) : outcome server :=
  let '(r, q) := timeOutPop [] (applyChan (m_raftNode s)) in
  let s := s <| m_raftNode := (m_raftNode s) <| applyChan := q |> |> in
  match r with Some msg => Apply uninit msg s | None => Ok s end.
Definition apply_rounds (k : nat) (s : server) : outcome server :=
  for_each (λ _, apply_thread) (seq 0 k) s.

(** The other methods that the process serves: those of the Raft node. *)
Definition AppendEntries_method (now : Z) := service_method (AppendEntries1 now).
Definition RequestVote_method (now : Z) := service_method (RequestVote1 now).
Definition InstallSnapshot_method :=
  service_method (λ request n, Ok (InstallSnapshot1 request n)).
Definition PreRequestVote_method :=
  service_method (λ request n, Ok (n, PreRequestVote1 request n)).
Definition ReadIndex_method :=
  service_method (λ request n, Ok (n, ReadIndex1 request n)).

(** [QueryLeaderForReadIndex] as the process wires it: [sendReadIndex] of its own node. *)
Definition query_leader (peers : Z → RaftRpcUtil) (s : server) : outcome (option Z) :=
  QueryLeaderForReadIndex
    (λ leaderId request, sendReadIndex peers leaderId request (m_raftNode s)) s.

(** A follower cannot use the read index: [QueryLeaderForReadIndex] asks its own node who
    leads, which only a leader answers, and a leader then calls the null client of its own
    slot.  No server ever obtains an index from it. *)
Theorem read_index_unusable (peers : Z → RaftRpcUtil) (s : server) :
  let n := m_raftNode s in
  0 ≤ m_me n < Z.of_nat (m_peers_size n) →
  query_leader peers s =
    if bool_decide (m_status n = Leader) then Undefined "m_peers[m_me] is null" else Ok None.
Proof.
  intros n Hme. unfold query_leader, QueryLeaderForReadIndex. cbn. fold n. case_bool_decide; [|done].
  unfold sendReadIndex. by zbool.
Qed.

(** ** The apply thread hands every message over, in order *)

(** [Apply] does not use the node: it commutes with any change of it. *)
Definition map_ok {A B} (f : A → B) (o : outcome A) : outcome B := a ← o; Ok (f a).
Lemma Apply_node r msg (s : server) :
  Apply uninit msg (s <| m_raftNode := r |>) =
  map_ok (λ s', s' <| m_raftNode := r |>) (Apply uninit msg s).
Proof.
  unfold Apply. set (op := decodeOp uninit (am_command msg)).
  change (ifRequestDuplicate (ClientId op) (RequestId op) (s <| m_raftNode := r |>))
    with (ifRequestDuplicate (ClientId op) (RequestId op) s).
  destruct (negb _); [|done].
  assert (ExecutePutAppendOnKVDB op (s <| m_raftNode := r |>)
    = (ExecutePutAppendOnKVDB op s) <| m_raftNode := r |>) as Hx.
  { unfold ExecutePutAppendOnKVDB. cbn [m_kvdb upd]. by repeat case_match. }
  unfold Apply_execute. rewrite Hx.
  destruct (Operation op =? "Get")%string.
  { unfold ExecuteGetOpOnKVDB. cbn [m_kvdb upd]. by destruct (search_element _ _). }
  destruct (Operation op =? "PutFeature")%string.
  { destruct (ParseFromString _) as [feat|]; [|done]. unfold applyFeatureToIndex.
    destruct (_ =? _)%string; [done|]. destruct (negb _); [done|].
    cbn [m_recallEngine recordRequestResult upd].
    by destruct (upsertPoint _ _ _). }
  destruct (Operation op =? "DeleteFeature")%string; [|done].
  unfold deleteFeature. destruct (_ =? _)%string; [done|].
  cbn [m_recallEngine recordRequestResult upd]. by destruct (deletePoint _ _).
Qed.

Lemma Applies_node r msgs (s : server) :
  for_each (Apply uninit) msgs (s <| m_raftNode := r |>) =
  map_ok (λ s', s' <| m_raftNode := r |>) (for_each (Apply uninit) msgs s).
Proof.
  revert s. induction msgs as [|msg msgs IH]; intros s; [done|]. cbn [for_each].
  rewrite Apply_node. destruct (Apply uninit msg s) as [s'| |]; [|done..].
  cbn [map_ok mbind outcome_bind]. apply IH.
Qed.

Lemma apply_thread_pop msg q (s : server) :
  applyChan (m_raftNode s) = msg :: q →
  apply_thread s = Apply uninit msg (s <| m_raftNode := (m_raftNode s) <| applyChan := q |> |>).
Proof. intros Hm. unfold apply_thread. by rewrite Hm. Qed.
Lemma apply_rounds_drain msgs j (s : server) :
  applyChan (m_raftNode s) = msgs →
  for_each (λ _, apply_thread) (seq j (length msgs)) s =
  for_each (Apply uninit) msgs (s <| m_raftNode := (m_raftNode s) <| applyChan := [] |> |>).
Proof.
  revert j s. induction msgs as [|msg msgs IH]; intros j s Hm; cbn [length seq for_each].
  { destruct s as [r]; cbn in *. destruct r; cbn in *. by rewrite Hm. }
  rewrite (apply_thread_pop _ _ _ Hm), !Apply_node. destruct (Apply uninit msg s) as [s'| |] eqn:E; [|done..].
  cbn [map_ok mbind outcome_bind]. by rewrite IH.
Qed.

Lemma delivered_ops n ms :
  m_lastSnapshotIncludeIndex n = 0 → m_lastApplied n = 0 →
  0 ≤ m_commitIndex n ≤ getLastLogIndex n →
  length ms = Z.to_nat (m_commitIndex n - m_lastApplied n) →
  (∀ k m, ms !! k = Some m → ∃ e,
     log_entry n (m_lastApplied n + 1 + Z.of_nat k) = Some e ∧
     m = apply_msg (m_lastApplied n + 1 + Z.of_nat k) e) →
  msg_op uninit <$> ms =
  (λ e, decodeOp uninit (command e)) <$> take (Z.to_nat (m_commitIndex n)) (m_logs n).
Proof.
  intros Hs Ha Hc Hlen Hms. rewrite Ha, Z.sub_0_r in Hlen. apply list_eq. intros k.
  rewrite !list_lookup_fmap. destruct (ms !! k) as [m|] eqn:Em.
  - destruct (Hms k m Em) as (e & He & ->). apply lookup_lt_Some in Em.
    rewrite lookup_take_lt by lia. unfold log_entry, getSlicesIndexFromLogIndex in He.
    rewrite Ha, Hs in He. case_decide; [|done].
    replace (Z.to_nat _) with k in He by lia. by rewrite He.
  - apply lookup_ge_None in Em. rewrite lookup_take_ge by lia. done.
Qed.

(** C14: what the process serves is the committed log.  A server that starts with an empty
    store on a node with a log of its own, after one round of the applier and enough
    rounds of the apply thread to empty the queue, holds exactly the map (and the vector
    index) of the committed prefix of the log, each request taken once; nothing is left
    in the queue.  It fails only where an update of the vector index fails. *)
Theorem committed_prefix_served `{KL : !SkipListLaws K} (n : node) :
  m_lastSnapshotIncludeIndex n = 0 → m_lastApplied n = 0 → applyChan n = [] →
  0 ≤ m_commitIndex n ≤ getLastLogIndex n →
  let ops := (λ e, decodeOp uninit (command e)) <$> take (Z.to_nat (m_commitIndex n)) (m_logs n) in
  let es := effective [] ops in
  ∃ n', applierTicker_round n = Ok n' ∧ length (applyChan n') = Z.to_nat (m_commitIndex n) ∧
    agrees (λ (s : server) e, m_recallEngine s = e ∧ applyChan (m_raftNode s) = [] ∧
              store_is s (foldl (flip exec_op) ∅ es))
      (apply_rounds (length (applyChan n')) (new_server n'))
      (for_each engine_step (omap feature_op es) (m_recallEngine (new_server (F:=F) (T:=T) n))).
Proof.
  intros Hs Ha Hch Hc ops es.
  destruct (applier_round_spec n ltac:(lia) ltac:(lia)) as (ms & E & Hlen & Hms).
  assert (∃ n', applierTicker_round n = Ok n' ∧ applyChan n' = ms) as (n' & En & Hn').
  { rewrite E. eexists; split; [done|]. cbn. by rewrite Hch. }
  exists n'. split; [done|]. rewrite Hn'. split; [rewrite Hlen, Ha; f_equal; lia|].
  unfold apply_rounds. rewrite (apply_rounds_drain ms) by done.
  assert (applied [] ∅ (new_server (F:=F) (T:=T) n) (m_recallEngine (new_server (F:=F) (T:=T) n)))
    as H0.
  { split; [done|intros k; cbn; by rewrite search_new, lookup_empty|done]. }
  pose proof (Apply_all uninit ms _ [] ∅ _ H0) as Hall. cbn zeta in Hall.
  rewrite (delivered_ops n ms) in Hall by done. fold ops es in Hall.
  change (new_server n') with ((new_server (F:=F) (T:=T) n) <| m_raftNode := n' |>).
  rewrite !Applies_node.
  unfold agrees in *. destruct (for_each engine_step _ _); [|by rewrite Hall..].
  destruct Hall as (s & -> & [Ae As Ad]). cbn. eexists; split; [done|]. cbn. by split_and!.
Qed.
End main.

#[local] Existing Instance first_byte_hash.
#[local] Existing Instance bit_archive.
(** A node with two commands in its log, the second repeated. *)
Definition demo_log_node : node :=
  log_demo <| m_logs := [mkLogEntry (encodeOp (put_op "x" "1" 1)) 1 1;
                         mkLogEntry (encodeOp (append_op "x" "2" 2)) 1 2;
                         mkLogEntry (encodeOp (append_op "x" "2" 2)) 1 3] |>
    <| m_commitIndex := 3 |>.
Lemma committed_prefix_served_witness :
  ∃ n', applierTicker_round demo_log_node = Ok n' ∧ length (applyChan n') = 3%nat ∧
    (m_kvdb <$> ok_value (apply_rounds (F:=Z) (T:=gmap string string) 0 3 (new_server n')))
      = Some {["x" := "12"]}.
Proof.
  destruct (committed_prefix_served (F:=Z) (T:=gmap string string) 0 demo_log_node)
    as (n' & E & Hl & _); [by vm_compute..|split; by vm_compute|].
  exists n'. split; [exact E|]. split; [exact Hl|].
  vm_compute in E. injection E as <-. by vm_compute.
Defined.

(** Peers that no call reaches. *)
Definition down_peers (i : Z) : RaftRpcUtil := KrpcRaftRpcClient (mkStub
  (λ _, (true, fresh_AppendEntriesReply)) (λ _, (true, mkRequestVoteReply 0 false 0))
  (λ _, (true, mkPreRequestVoteReply 0 false)) (λ _, (true, mkInstallSnapshotResponse 0))
  (λ _, (true, mkReadIndexResponse 0 0 false))).
Lemma read_index_unusable_witness :
  query_leader down_peers
    (new_server (F:=Z) (T:=gmap string string) log_demo) = Undefined "m_peers[m_me] is null".
Proof.
  exact (read_index_unusable down_peers (new_server (F:=Z) (T:=gmap string string) log_demo)
    (conj (Z.le_refl 0) eq_refl)).
Defined.
