(* ===== verification/KvCluster.v ===== *)
(** The whole service: the cluster of Raft nodes with the [KvServer] of every process, the
    requests of clients that wait in [PutAppend] and [PutFeature], reads, searches, and
    the restarts of processes. *)
From S2P Require Import Prelude OpCoder Persister RaftTypes RaftLog RaftElection.
From S2P Require Import RaftReplication RaftPipeline RaftSteps Cluster ClusterLog ClusterRun.
From S2P Require Import RaftBounds ClusterSafe ClusterApply Channels Hnsw RecallEngine.
From S2P Require Import KvTypes KvServer KvSpec ServerMain.
Open Scope Z_scope.

#[local] Arguments upd : simpl never.

(** ** Histories *)

(** What a server has taken in, oldest first: a command of the log ([true]) or a read
    that it answered from its own store ([false]). *)
Abbreviation history := (list (bool * Op)).

Section histories.
Definition ops (h : history) : list Op := h.*2.
Definition logged (h : history) : list Op := ops (filter (λ b, b.1 = true) h).

(** The map that a history stands for: its commands that no earlier command or read of the
    same client makes stale, executed in order. *)
Definition replay (h : history) : gmap string string :=
  foldl (flip exec_op) ∅ (effective [] (ops h)).

Lemma ops_snoc h b op : ops (h ++ [(b, op)]) = ops h ++ [op].
Proof. unfold ops. by rewrite fmap_app. Qed.
Lemma logged_read h op : logged (h ++ [(false, op)]) = logged h.
Proof. unfold logged. by rewrite filter_app, filter_cons_False, filter_nil, app_nil_r. Qed.
Lemma logged_command h op : logged (h ++ [(true, op)]) = logged h ++ [op].
Proof. unfold logged. rewrite filter_app, filter_cons_True, filter_nil by done. apply ops_snoc. Qed.
Lemma logged_ops h op : op ∈ logged h → op ∈ ops h.
Proof.
  unfold logged, ops. intros (x & -> & [_ Hx]%list_elem_of_filter)%list_elem_of_fmap.
  by apply list_elem_of_fmap_2.
Qed.

Lemma replay_snoc h b op :
  replay (h ++ [(b, op)]) =
  if dup_in (ops h) (ClientId op) (RequestId op) then replay h else exec_op op (replay h).
Proof.
  unfold replay. rewrite ops_snoc, effective_snoc. cbn [app].
  case_match; [by rewrite app_nil_r|]. by rewrite foldl_snoc.
Qed.
End histories.

(** ** The system *)

Section system.
Context {F T : Type} `{H : HnswLib F} `{SH : StdHash} `{K : SkipList T} `{C : FeatureCodec F}
  `{Ar : BoostArchive} (uninit : Z).
Abbreviation server := (KvServer F T node).

(** A process: its [KvServer], how many messages its apply thread has taken out of the queue
    (the queue of [Cluster] keeps those that were taken), and its history. *)
Record process := mkProcess { p_server : server; p_taken : nat; p_history : history }.
(** A handler of [PutAppend] or [PutFeature] that waits for an index. *)
Record waiting := mkWaiting { w_server : Z; w_op : Op; w_index : Z }.
(** [y_accepted] is a history: the requests that some leader took into its log. *)
Record system := mkSystem {
  y_cluster : cluster; y_procs : gmap Z process; y_waiting : list waiting;
  y_accepted : list (Z * Op)
}.
#[export] Instance system_expand : Expand system := λ y,
  mkSystem (y_cluster y) (y_procs y) (y_waiting y) (y_accepted y).

(** The members of the process when its Raft node is in state [n]. *)
Definition view (n : node) (p : process) : server :=
  (p_server p) <| m_raftNode := n <| applyChan := drop (p_taken p) (applyChan n) |> |>.
(** A process that [main] has just started on node [n]. *)
Definition fresh_process (n : node) : process := mkProcess (setRaftNode n (new_server n)) 0 [].

Definition set_proc (i : Z) (p : process) (y : system) : system :=
  y <| y_procs := <[i := p]> (y_procs y) |>.

Definition read_op (args : GetArgs) : Op :=
  mkOp "Get" (g_key args) "" (g_clientid args) (g_requestid args).

(** What of a step the clients see, and what the state machine of a server takes in. *)
Inductive sys_event :=
  | SysInternal
  | SysSubmit (i : Z) (op : Op)
  | SysRefuse (i : Z) (op : Op)
  | SysAnswer (op : Op) (err : string)
  | SysTake (i : Z) (op : Op)
  | SysRead (i : Z) (args : GetArgs) (reply : GetReply).

Inductive sys_lstep (y : system) : sys_event → system → Prop :=
  (** A step of the Raft nodes alone. *)
  | ys_raft c' :
      lstep (y_cluster y) Internal c' → sys_lstep y SysInternal (y <| y_cluster := c' |>)
  (** [PutAppend] or [PutFeature] up to the wait. *)
  | ys_submit i p n' op index c' :
      y_procs y !! i = Some p → lstep (y_cluster y) (Command i op index true) c' →
      c_servers c' !! i = Some n' →
      sys_lstep y (SysSubmit i op)
        ((set_proc i (mkProcess (wait_channel index (view n' p)) (p_taken p) (p_history p)) y)
          <| y_cluster := c' |> <| y_waiting := mkWaiting i op index :: y_waiting y |>
          <| y_accepted := (i, op) :: y_accepted y |>)
  (** The same at a server that does not lead: it answers [ErrWrongLeader]. *)
  | ys_refuse i op index c' :
      lstep (y_cluster y) (Command i op index false) c' →
      sys_lstep y (SysRefuse i op) (y <| y_cluster := c' |>)
  (** The end of the wait, by a command or by the timeout. *)
  | ys_answer l1 w l2 p n s' err :
      y_waiting y = l1 ++ w :: l2 → y_procs y !! w_server w = Some p →
      c_servers (y_cluster y) !! w_server w = Some n →
      wait_reply (w_op w) (w_index w) (view n p) = (s', err) →
      sys_lstep y (SysAnswer (w_op w) err)
        ((set_proc (w_server w) (mkProcess s' (p_taken p) (p_history p)) y)
          <| y_waiting := l1 ++ l2 |>)
  (** The apply thread takes one message and calls [Apply]. *)
  | ys_apply i p n msg s' :
      y_procs y !! i = Some p → c_servers (y_cluster y) !! i = Some n →
      applyChan n !! p_taken p = Some msg → apply_thread uninit (view n p) = Ok s' →
      sys_lstep y (SysTake i (msg_op uninit msg)) (set_proc i
        (mkProcess s' (p_taken p + 1) (p_history p ++ [(true, msg_op uninit msg)])) y)
  (** [Get]. *)
  | ys_get i p n args s' reply :
      y_procs y !! i = Some p → c_servers (y_cluster y) !! i = Some n →
      Get args (view n p) = (s', reply) →
      sys_lstep y (SysRead i args reply) (set_proc i
        (mkProcess s' (p_taken p)
           (if (gr_err reply =? ErrWrongLeader)%string then p_history p
            else p_history p ++ [(false, read_op args)])) y)
  (** [Search]. *)
  | ys_search i p n us args s' reply :
      y_procs y !! i = Some p → c_servers (y_cluster y) !! i = Some n →
      Search us args (view n p) = Ok (s', reply) →
      sys_lstep y SysInternal (set_proc i (mkProcess s' (p_taken p) (p_history p)) y)
  (** The process is killed and started again; whoever waited in it gets no answer. *)
  | ys_restart i n' c' :
      lstep (y_cluster y) (Restarted i) c' → c_servers c' !! i = Some n' →
      sys_lstep y SysInternal ((set_proc i (fresh_process n') y)
        <| y_cluster := c' |> <| y_waiting := filter (λ w, w_server w ≠ i) (y_waiting y) |>).
Definition sys_step (y y' : system) : Prop := ∃ e, sys_lstep y e y'.

Definition sys_initial (N : nat) (y : system) : Prop :=
  initial N (y_cluster y) ∧ y_procs y = fresh_process <$> c_servers (y_cluster y) ∧
  y_waiting y = [] ∧ y_accepted y = [].
Definition sys_reachable (N : nat) (y : system) : Prop :=
  ∃ y0, sys_initial N y0 ∧ steps sys_step y0 y.
End system.

(** ** The start of the service *)

Section start.
Context {F T : Type} `{H : HnswLib F} `{SH : StdHash} `{K : SkipList T} `{C : FeatureCodec F}
  `{Ar : BoostArchive}.
Abbreviation server := (KvServer F T node).
Abbreviation system := (system (F:=F) (T:=T)).

(** The system of the processes [ss], which have just started. *)
Definition service_of (ss : gmap Z server) : system :=
  mkSystem (mkCluster (m_raftNode <$> ss) ∅ ∅ [] [] [] [] [] [] [] [] [] [] [] [])
    ((λ s, mkProcess s 0 []) <$> ss) [] [].

Lemma main_result env disk now me :
  server_id env = Ok me → disk me = mkStore "" "" →
  ∃ n, init kTotalServers me (mkStore "" "") now = Ok n ∧
    main (F:=F) (T:=T) env disk now = Ok (setRaftNode n (new_server n)).
Proof.
  intros He Hd. destruct (init kTotalServers me (mkStore "" "") now) as [n| |] eqn:E; [|done..].
  exists n. split; [done|]. unfold main. rewrite He. cbn [mbind outcome_bind]. rewrite Hd.
  change (length (make_peers me)) with kTotalServers. by rewrite E.
Qed.

(** C23: where the runs of the service begin.  Three processes started on empty disks, each
    with its own number in [RAFT_ME] (or, for number 0, without it), all start, and make the
    initial state of the service: every node has a client for the two others and no other. *)
Theorem mains_make_the_service (envs : Z → option string) (clock : Z → Z) :
  (∀ i, 0 ≤ i < 3 → server_id (envs i) = Ok i) →
  ∃ ss : gmap Z server,
    (∀ i, 0 ≤ i < 3 → ∃ s, ss !! i = Some s ∧
       main (envs i) (λ _, mkStore "" "") (clock i) = Ok s ∧ m_me (m_raftNode s) = i) ∧
    (∀ i j, 0 ≤ i < 3 → make_peers i !! j = Some None ↔ Z.of_nat j = i) ∧
    sys_initial 3 (service_of ss).
Proof.
  intros He. assert (∀ i, 0 ≤ i < 3 → ∃ n, init 3 i (mkStore "" "") (clock i) = Ok n ∧
    main (F:=F) (T:=T) (envs i) (λ _, mkStore "" "") (clock i) = Ok (setRaftNode n (new_server n)))
    as Hmain by (intros i Hi; apply main_result; [by apply He|done]).
  destruct (Hmain 0) as (n0 & I0 & M0); [lia|]. destruct (Hmain 1) as (n1 & I1 & M1); [lia|].
  destruct (Hmain 2) as (n2 & I2 & M2); [lia|].
  assert (∀ i, 0 ≤ i < 3 → i = 0 ∨ i = 1 ∨ i = 2) as Hcases by lia.
  exists {[0 := setRaftNode n0 (new_server n0); 1 := setRaftNode n1 (new_server n1);
           2 := setRaftNode n2 (new_server n2)]}.
  split_and!.
  - intros i [->|[->| ->]]%Hcases; (eexists; split; [by simplify_map_eq|]).
    + split; [exact M0|]. by apply init_blank in I0 as (? & _).
    + split; [exact M1|]. by apply init_blank in I1 as (? & _).
    + split; [exact M2|]. by apply init_blank in I2 as (? & _).
  - intros i j [->|[->| ->]]%Hcases; destruct j as [|[|[|j]]]; cbn; (split; [try done|lia || done]);
      intros Hj; discriminate Hj || (injection Hj as Hj; done).
  - split_and!; [split_and!| |done|done]; cbn [service_of y_cluster y_procs c_servers].
    + intros i. rewrite lookup_fmap, fmap_is_Some. split.
      * intros [s Hs]. rewrite !lookup_insert_Some, lookup_singleton_Some in Hs. lia.
      * intros [->|[->| ->]]%Hcases; by simplify_map_eq.
    + intros i n. rewrite lookup_fmap. intros (s & Hs & ->)%fmap_Some. exists (clock i).
      rewrite !lookup_insert_Some, lookup_singleton_Some in Hs.
      by destruct Hs as [[<- <-]|[_ [[<- <-]|[_ [<- <-]]]]].
    + by eexists.
    + apply map_eq. intros i. rewrite !lookup_fmap.
      destruct (_ !! i) as [s|] eqn:Hs; [|done]. cbn [fmap option_fmap option_map].
      rewrite !lookup_insert_Some, lookup_singleton_Some in Hs.
      by destruct Hs as [[<- <-]|[_ [[<- <-]|[_ [<- <-]]]]].
Qed.
End start.

(** ** Every process follows its history *)

Section invariant.
Context {F T : Type} `{H : HnswLib F} `{SH : StdHash} `{K : SkipList T} `{C : FeatureCodec F}
  `{Ar : BoostArchive} `{KL : !SkipListLaws K} `{AL : !BoostArchiveLaws Ar} (uninit : Z).
Abbreviation server := (KvServer F T node).
Abbreviation process := (process (F:=F) (T:=T)).
Abbreviation system := (system (F:=F) (T:=T)).

(** The server has the map and the record of requests of history [h]. *)
Definition follows (h : history) (s : server) : Prop :=
  applied (ops h) (replay h) s (m_recallEngine s).
(** Only commands of [l] wait in the queues of the handlers. *)
Definition queued_from (l : list Op) (s : server) : Prop :=
  ∀ index q op, waitApplyCh s !! index = Some q → op ∈ q → op ∈ l.

Record proc_inv (n : node) (p : process) : Prop := {
  pi_state : follows (p_history p) (p_server p);
  pi_logged : logged (p_history p) = msg_op uninit <$> take (p_taken p) (applyChan n);
  pi_taken : (p_taken p ≤ length (applyChan n))%nat;
  pi_queues : queued_from (logged (p_history p)) (p_server p);
  pi_reads op : (false, op) ∈ p_history p → ∃ args, op = read_op args
}.

Lemma follows_same h (s s' : server) :
  m_kvdb s' = m_kvdb s → m_lastRequests s' = m_lastRequests s → follows h s → follows h s'.
Proof.
  intros Hk Hl [_ Hs Hd]. split; [done|unfold store_is; by rewrite Hk|].
  unfold ifRequestDuplicate. by rewrite Hl.
Qed.

(** A request that is recorded and leaves the store alone. *)
Lemma follows_dup h b op (s : server) :
  dup_in (ops h) (ClientId op) (RequestId op) = true → follows h s → follows (h ++ [(b, op)]) s.
Proof.
  intros Hop [_ Hs Hd]. unfold follows. rewrite ops_snoc, replay_snoc, Hop. split; [done..|].
  intros c i. rewrite dup_in_snoc, Hd. destruct (String.eqb_spec (ClientId op) c) as [<-|];
    [|by rewrite orb_false_r]. destruct (Z.leb_spec i (RequestId op)); [|by rewrite orb_false_r].
  by rewrite (dup_in_mono _ _ i (RequestId op)).
Qed.

Lemma Apply_follows h msg (s s' : server) :
  follows h s → Apply uninit msg s = Ok s' → follows (h ++ [(true, msg_op uninit msg)]) s'.
Proof.
  intros Hf HA. pose proof (Apply_step uninit msg s _ _ _ Hf) as Hstep. cbn zeta in Hstep.
  unfold follows. rewrite ops_snoc, replay_snoc. destruct (dup_in _ _ _).
  - destruct Hstep as (s1 & E & [_ ? ?]). rewrite HA in E. by injection E as ->.
  - unfold agrees in Hstep. destruct (engine_effect _ _) as [e| |]; [|congruence..].
    destruct Hstep as (s1 & E & [_ ? ?]). rewrite HA in E. by injection E as ->.
Qed.

Lemma Apply_queues l msg (s s' : server) :
  queued_from l s → Apply uninit msg s = Ok s' → queued_from (l ++ [msg_op uninit msg]) s'.
Proof.
  intros Hq [Hw _]%Apply_frame index q op. rewrite Hw, elem_of_app.
  destruct (decide (am_index msg = index)) as [<-|].
  - rewrite lookup_alter_eq. intros (q0 & Hq0 & ->)%fmap_Some. unfold push.
    rewrite elem_of_app. intros [?|?]; [left; by eapply Hq|by right].
  - rewrite lookup_alter_ne by done. intros Hi Hin. left. by eapply Hq.
Qed.

Lemma Get_local_follows h args (s : server) :
  dup_in (ops h) (g_clientid args) (g_requestid args) = false → follows h s →
  follows (h ++ [(false, read_op args)]) (Get_local (read_op args) s).1 ∧
  waitApplyCh (Get_local (read_op args) s).1 = waitApplyCh s ∧
  (Get_local (read_op args) s).2 = match replay h !! g_key args with
                                   | Some v => mkGetReply OK v
                                   | None => mkGetReply ErrNoKey ""
                                   end.
Proof.
  intros Hnew [_ Hs Hd]. unfold Get_local, ExecuteGetOpOnKVDB.
  change (Key (read_op args)) with (g_key args). rewrite (Hs (g_key args)).
  assert (∀ v, follows (h ++ [(false, read_op args)]) (recordRequestResult (read_op args) v s)) as Hrec.
  { intros v. pose proof (executed_plain (read_op args) v s) as X.
    change (ExecutePutAppendOnKVDB (read_op args) s) with s in X.
    unfold follows. rewrite ops_snoc, replay_snoc.
    change (dup_in (ops h) (ClientId (read_op args)) (RequestId (read_op args)))
      with (dup_in (ops h) (g_clientid args) (g_requestid args)). rewrite Hnew.
    split; [done|exact Hs|]. by eapply (executed_dup (read_op args) s). }
  destruct (replay h !! g_key args); (split; [apply Hrec|done]).
Qed.

(** A read: refused, or answered for the second time, or answered from the history. *)
Lemma Get_result h args (s s' : server) reply :
  follows h s → Get args s = (s', reply) →
  (s' = s ∧ reply = mkGetReply ErrWrongLeader "") ∨
  (dup_in (ops h) (g_clientid args) (g_requestid args) = true ∧ s' = s ∧ gr_err reply = OK) ∨
  (dup_in (ops h) (g_clientid args) (g_requestid args) = false ∧
   (s', reply) = Get_local (read_op args) s).
Proof.
  intros [_ _ Hd] HG. rewrite <- (Hd (g_clientid args)). unfold Get in HG. fold (read_op args) in HG.
  change (ClientId (read_op args)) with (g_clientid args) in HG.
  change (RequestId (read_op args)) with (g_requestid args) in HG.
  destruct (raft_GetState (m_raftNode s)) as [t isLeader].
  destruct (ifRequestDuplicate _ _ s) eqn:E.
  - right. left. by destruct isLeader; injection HG as <- <-.
  - destruct isLeader; cbn [negb] in HG; [by right; right|].
    destruct (0 <? _); [by right; right|]. left. by injection HG as <- <-.
Qed.

Lemma Get_follows h args (s s' : server) reply :
  follows h s → Get args s = (s', reply) →
  follows (if (gr_err reply =? ErrWrongLeader)%string then h else h ++ [(false, read_op args)]) s' ∧
  waitApplyCh s' = waitApplyCh s.
Proof.
  intros Hf HG. destruct (Get_result _ _ _ _ _ Hf HG) as [[-> ->]|[(Hd & -> & ->)|(Hd & Heq)]].
  - done.
  - split; [|done]. by apply follows_dup.
  - destruct (Get_local_follows h args s Hd Hf) as (Hf' & Hw & Hr). rewrite <- Heq in Hf', Hw, Hr.
    cbn [fst snd] in Hf', Hw, Hr. split; [|done]. rewrite Hr. by destruct (replay h !! g_key args).
Qed.

Lemma Search_frame us args (s s' : server) reply :
  Search us args s = Ok (s', reply) →
  m_kvdb s' = m_kvdb s ∧ m_lastRequests s' = m_lastRequests s ∧ waitApplyCh s' = waitApplyCh s.
Proof.
  unfold Search, buildIndexIfNeeded. intros HS. inv_ok.
  assert (m_kvdb x = m_kvdb s ∧ m_lastRequests x = m_lastRequests s ∧
    waitApplyCh x = waitApplyCh s) as Hx'.
  { destruct (m_indexBuilt s); inv_ok; by subst. }
  destruct (_ =? 0); inv_ok; simplify_eq; done.
Qed.

Lemma wait_channel_queues l index (s : server) :
  queued_from l s → queued_from l (wait_channel index s).
Proof.
  intros Hq. unfold wait_channel. case_decide; [done|]. intros i q op. upd_simpl.
  intros [[<- <-]|[_ Hi]]%lookup_insert_Some Hin; [by apply not_elem_of_nil in Hin|by eapply Hq].
Qed.

(** The end of a wait: who is answered [OK], and what it leaves. *)
Lemma wait_reply_result l op index (s s' : server) err :
  queued_from l s → wait_reply op index s = (s', err) →
  queued_from l s' ∧ m_kvdb s' = m_kvdb s ∧ m_lastRequests s' = m_lastRequests s ∧
  (err = OK → dup_in l (ClientId op) (RequestId op) = true ∨
              ifRequestDuplicate (ClientId op) (RequestId op) s = true).
Proof.
  intros Hq. unfold wait_reply. destruct (timeOutPop [] _) as [r q] eqn:Ep.
  assert (∀ o, r = Some o ∨ o ∈ q → o ∈ l) as Hin.
  { intros o Ho. destruct (waitApplyCh s !! index) as [q0|] eqn:E0; cbn in Ep.
    - apply (Hq index q0); [done|]. unfold timeOutPop in Ep. destruct q0; injection Ep as <- <-; set_solver.
    - injection Ep as <- <-. set_solver. }
  set (s1 := s <| waitApplyCh := <[index := q]> (waitApplyCh s) |>).
  assert (queued_from l s1) as Hq1.
  { intros i q' op'. unfold s1. upd_simpl. intros [[<- <-]|[_ Hi]]%lookup_insert_Some Ho;
      [by apply Hin; right|by eapply Hq]. }
  destruct r as [o|].
  - destruct (_ && _) eqn:E; intros [= <- <-]; (split; [done|]); (split; [done|]); (split; [done|]);
      [|discriminate]. intros _. left. apply andb_true_iff in E as [Ec Ei].
    unfold dup_in. apply existsb_exists. exists o. split; [apply list_elem_of_In, Hin; by left|].
    rewrite Ec. apply Z.leb_le. apply Z.eqb_eq in Ei. lia.
  - intros [= <- <-]. split; [done|]. split; [done|]. split; [done|].
    change (ifRequestDuplicate (ClientId op) (RequestId op) s1)
      with (ifRequestDuplicate (ClientId op) (RequestId op) s).
    destruct (ifRequestDuplicate _ _ s); [by right|discriminate].
Qed.
(** *** The operations of a process *)

Lemma proc_fresh n n' : applyChan n' = [] → proc_inv n' (fresh_process n).
Proof.
  intros Hc. split; cbn.
  - split; [done| |done]. intros k. unfold setRaftNode, new_server. upd_simpl. cbn [m_kvdb].
    rewrite search_new. symmetry. apply lookup_empty.
  - by rewrite Hc.
  - lia.
  - by intros index q op.
  - by intros op ?%not_elem_of_nil.
Qed.

Lemma proc_handed n n' p : applyChan n `prefix_of` applyChan n' → proc_inv n p → proc_inv n' p.
Proof.
  intros [l Hl] []. split; [done| |rewrite Hl, length_app; lia|done|done].
  by rewrite Hl, take_app_le.
Qed.

(** The server moves on without new history. *)
Lemma proc_server n p s' :
  m_kvdb s' = m_kvdb (p_server p) → m_lastRequests s' = m_lastRequests (p_server p) →
  queued_from (logged (p_history p)) s' → proc_inv n p →
  proc_inv n (mkProcess s' (p_taken p) (p_history p)).
Proof. intros Hk Hl Hq []. split; [by eapply follows_same|done..]. Qed.

Lemma proc_apply n p msg s' :
  proc_inv n p → applyChan n !! p_taken p = Some msg → apply_thread uninit (view n p) = Ok s' →
  proc_inv n (mkProcess s' (p_taken p + 1) (p_history p ++ [(true, msg_op uninit msg)])).
Proof.
  intros [Hst Hl Ht Hq Hr] Hmsg HA. pose proof (lookup_lt_Some _ _ _ Hmsg) as Hlt.
  assert (drop (p_taken p) (applyChan n) = msg :: drop (S (p_taken p)) (applyChan n)) as Hdrop
    by (by apply drop_S).
  rewrite (apply_thread_pop uninit msg (drop (S (p_taken p)) (applyChan n))) in HA by exact Hdrop.
  split; cbn [p_server p_taken p_history].
  - eapply Apply_follows; [|exact HA]. by apply (follows_same _ (p_server p)).
  - rewrite logged_command, Hl, Nat.add_1_r. erewrite take_S_r by exact Hmsg. by rewrite fmap_app.
  - lia.
  - rewrite logged_command. eapply Apply_queues; [|exact HA]. exact Hq.
  - intros op [?|Heq%list_elem_of_singleton]%elem_of_app; [by apply Hr|discriminate Heq].
Qed.

Lemma proc_get n p args s' reply :
  proc_inv n p → Get args (view n p) = (s', reply) →
  proc_inv n (mkProcess s' (p_taken p)
    (if (gr_err reply =? ErrWrongLeader)%string then p_history p
     else p_history p ++ [(false, read_op args)])).
Proof.
  intros [Hst Hl Ht Hq Hr] HG.
  destruct (Get_follows (p_history p) args (view n p) s' reply) as [Hst' Hw];
    [by apply (follows_same _ (p_server p))|done|].
  assert (queued_from (logged (p_history p)) s') as Hq' by (intros i q op; rewrite Hw; apply Hq).
  split; cbn [p_server p_taken p_history]; [done| |done| |]; case_match; rewrite ?logged_read; try done.
  intros op [?|Heq%list_elem_of_singleton]%elem_of_app; [by apply Hr|]. exists args. by injection Heq.
Qed.

(** ** The system *)

Variable N : nat.

Record sys_inv (y : system) : Prop := {
  si_reachable : reachable N (y_cluster y);
  si_procs i : is_Some (y_procs y !! i) ↔ is_Some (c_servers (y_cluster y) !! i);
  si_inv i n p : c_servers (y_cluster y) !! i = Some n → y_procs y !! i = Some p → proc_inv n p;
  si_accepted e : e ∈ h_started (y_cluster y) → command e ∈ encodeOp <$> (y_accepted y).*2
}.

Lemma sys_inv_proc i n p y :
  sys_inv y → c_servers (y_cluster y) !! i = Some n → proc_inv n p → sys_inv (set_proc i p y).
Proof.
  intros [HR HP HI HA] Hi Hp. split; [done| | |done].
  - intros j. change (is_Some (<[i := p]> (y_procs y) !! j) ↔ is_Some (c_servers (y_cluster y) !! j)).
    rewrite lookup_insert. case_decide; [subst; by split; eauto|apply HP].
  - intros j m q Hm. unfold set_proc. upd_simpl.
    intros [[<- <-]|[_ Hq]]%lookup_insert_Some; [|by eapply HI].
    change (c_servers (y_cluster y) !! i = Some m) in Hm. rewrite Hi in Hm. by injection Hm as <-.
Qed.

Lemma sys_inv_waiting l y : sys_inv y → sys_inv (y <| y_waiting := l |>).
Proof. by intros []. Qed.

(** The requests accepted up to and including a step. *)
Definition accepted_by (e : event) (l : list (Z * Op)) : list (Z * Op) :=
  match e with Command i op _ true => (i, op) :: l | _ => l end.

Lemma accepted_step e c c' l :
  lstep c e c' → (∀ x, x ∈ h_started c → command x ∈ encodeOp <$> l.*2) →
  ∀ x, x ∈ h_started c' → command x ∈ encodeOp <$> (accepted_by e l).*2.
Proof.
  intros Hs%lstep_started Hl x Hx. destruct e as [|i op index [|]|i]; cbn [accepted_by];
    try (apply Hl; congruence).
  destruct Hs as [t Hs]. rewrite Hs in Hx. cbn [fmap list_fmap snd].
  apply elem_of_cons in Hx as [->|Hx]; [by left|right; by apply Hl].
Qed.

(** A step of the Raft nodes that restarts none. *)
Lemma sys_inv_raft e c' y :
  Z.of_nat N < 2 ^ 62 → sys_inv y → lstep (y_cluster y) e c' → (∀ i, e ≠ Restarted i) →
  sys_inv (y <| y_cluster := c' |> <| y_accepted := accepted_by e (y_accepted y) |>).
Proof.
  intros HN [HR HP HI HA] Hstep He. pose proof (lstep_cstep _ _ _ Hstep) as Hc. split; upd_simpl.
  - destruct HR as (c0 & H0 & Hs). exists c0. split; [done|]. by eapply steps_snoc.
  - intros i. by rewrite (cstep_dom _ _ i Hc).
  - intros i n' p Hn' Hp. assert (is_Some (c_servers (y_cluster y) !! i)) as [n Hn]
      by (apply HP; by eexists).
    eapply proc_handed; [|by eapply HI].
    destruct (lstep_chan N _ _ _ i n n' HN HR Hstep Hn Hn') as [_ Hh].
    by apply Hh.
  - by eapply accepted_step.
Qed.

Lemma sys_inv_restart i n' c' y :
  Z.of_nat N < 2 ^ 62 → sys_inv y → lstep (y_cluster y) (Restarted i) c' →
  c_servers c' !! i = Some n' →
  sys_inv ((set_proc i (fresh_process n') y) <| y_cluster := c' |>).
Proof.
  intros HN [HR HP HI HA] Hstep Hi. pose proof (lstep_cstep _ _ _ Hstep) as Hc.
  split; unfold set_proc; upd_simpl.
  - destruct HR as (c0 & H0 & Hs). exists c0. split; [done|]. by eapply steps_snoc.
  - intros j. rewrite lookup_insert. case_decide; [subst; rewrite Hi; by split; eauto|].
    by rewrite (cstep_dom _ _ j Hc).
  - intros j m p Hm Hp. assert (is_Some (c_servers (y_cluster y) !! j)) as [n Hn]
      by (apply (cstep_dom _ _ j Hc); by eexists).
    destruct (lstep_chan N _ _ _ j n m HN HR Hstep Hn Hm) as [Hre Hno].
    apply lookup_insert_Some in Hp as [[<- <-]|[Hne Hp]].
    + apply proc_fresh. by apply Hre.
    + eapply proc_handed; [|by eapply HI]. apply Hno. congruence.
  - by eapply (accepted_step (Restarted i)).
Qed.

Lemma sys_inv_frame y y' :
  y_cluster y' = y_cluster y → y_procs y' = y_procs y → y_accepted y' = y_accepted y →
  sys_inv y → sys_inv y'.
Proof. intros Hc Hp Ha []. by split; rewrite ?Hc, ?Hp, ?Ha. Qed.

(** A leader takes a request and its handler begins to wait. *)
Lemma sys_inv_submit i p n' op index c' l y :
  Z.of_nat N < 2 ^ 62 → sys_inv y → y_procs y !! i = Some p →
  lstep (y_cluster y) (Command i op index true) c' → c_servers c' !! i = Some n' →
  sys_inv ((set_proc i (mkProcess (wait_channel index (view n' p)) (p_taken p) (p_history p)) y)
    <| y_cluster := c' |> <| y_waiting := l |> <| y_accepted := (i, op) :: y_accepted y |>).
Proof.
  intros HN Hy Hp Hstep Hi.
  pose proof (sys_inv_raft (Command i op index true) c' y HN Hy Hstep ltac:(done)) as Hy1.
  pose proof (si_inv _ Hy1 i n' p Hi Hp) as Hproc.
  eapply sys_inv_frame; [..|eapply (sys_inv_proc i n' _ _ Hy1 Hi)]; [done..|].
  apply proc_server; [| | |done].
  - unfold wait_channel. by case_decide.
  - unfold wait_channel. by case_decide.
  - apply wait_channel_queues, (pi_queues _ _ Hproc).
Qed.

Lemma sys_inv_step y y' :
  Z.of_nat N < 2 ^ 62 → sys_inv y → sys_step uninit y y' → sys_inv y'.
Proof.
  intros HN Hy Hstep. pose proof (si_inv _ Hy) as HI. destruct Hstep as [ev Hstep]. destruct Hstep.
  - by apply (sys_inv_raft Internal) in H0.
  - by apply (sys_inv_submit i p n' op index c').
  - by apply (sys_inv_raft (Command i op index false)) in H0.
  - apply sys_inv_waiting. eapply sys_inv_proc; [done|done|]. specialize (HI _ _ _ H2 H1).
    destruct (wait_reply_result (logged (p_history p)) (w_op w) (w_index w) (view n p) s' err)
      as (Hq & Hk & Hl & _); [apply (pi_queues _ _ HI)|done|]. by apply proc_server.
  - eapply sys_inv_proc; [done|done|]. eapply proc_apply; [by eapply HI|done|done].
  - eapply sys_inv_proc; [done|done|]. eapply proc_get; [by eapply HI|done].
  - eapply sys_inv_proc; [done|done|]. specialize (HI _ _ _ H1 H0).
    destruct (Search_frame _ _ _ _ _ H2) as (Hk & Hl & Hw). apply proc_server; [done|done| |done].
    intros index q op. rewrite Hw. apply (pi_queues _ _ HI).
  - apply (sys_inv_waiting _ _ (sys_inv_restart i n' c' y HN Hy H0 H1)).
Qed.

Lemma sys_initial_inv y : sys_initial N y → sys_inv y.
Proof.
  intros (Hi & Hp & _ & Ha). pose proof Hi as (_ & Hinit & servers & Hc). split.
  - exists (y_cluster y). split; [done|constructor].
  - intros i. by rewrite Hp, lookup_fmap, fmap_is_Some.
  - intros i n p Hn. rewrite Hp, lookup_fmap, Hn. intros [= <-].
    destruct (Hinit i n Hn) as [now Hnow]. apply proc_fresh. unfold init in Hnow. cbn in Hnow.
    by injection Hnow as <-.
  - rewrite Hc. by intros e ?%not_elem_of_nil.
Qed.

Lemma sys_reachable_inv y : Z.of_nat N < 2 ^ 62 → sys_reachable uninit N y → sys_inv y.
Proof.
  intros HN (y0 & H0 & Hs). apply (steps_invariant (sys_step uninit) sys_inv y0 y);
    [by apply sys_initial_inv| |done]. intros a b Ha. by apply sys_inv_step.
Qed.

(** The commands of a history are requests that a leader accepted. *)
Lemma logged_accepted y i n p op :
  Z.of_nat N < 2 ^ 62 → sys_inv y → c_servers (y_cluster y) !! i = Some n →
  y_procs y !! i = Some p → op ∈ logged (p_history p) →
  ∃ j op', (j, op') ∈ y_accepted y ∧ op = decodeOp uninit (encodeOp op') ∧ (op_ok op' → op = op').
Proof.
  intros HN [HR _ HI HA] Hn Hp Hop. destruct (HI i n p Hn Hp) as [_ Hl _ _ _].
  rewrite Hl in Hop. apply list_elem_of_fmap in Hop as (msg & -> & Hmsg).
  destruct (reachable_inv N _ HN HR) as [_ L].
  apply list_elem_of_lookup in Hmsg as [k Hk]. apply lookup_take_Some in Hk as [Hk _].
  apply list_elem_of_lookup_2 in Hk. destruct (li_chan _ L i n msg Hn Hk) as [t Ht].
  apply known_submitted in Ht as (e & j & He & _ & Hcmd & _); [|done].
  apply HA, list_elem_of_fmap in He as (op' & Henc & Hin).
  apply list_elem_of_fmap in Hin as ([j' x] & -> & Hin). cbn [snd] in Henc.
  exists j', x. split; [done|]. unfold msg_op. rewrite <- Hcmd, Henc. split; [done|].
  intros Hok. by apply decode_encode.
Qed.

(** What a process has to do with the Raft node it runs on and with the clients' requests. *)
Record replica (y : system) (n : node) (p : process) : Prop := {
  rp_store : store_is (p_server p) (replay (p_history p));
  rp_once : NoDup (request_key <$> effective [] (ops (p_history p)));
  rp_ordered c : Sorted.StronglySorted Z.lt (client_ids c (effective [] (ops (p_history p))));
  rp_logged : logged (p_history p) = msg_op uninit <$> take (p_taken p) (applyChan n);
  rp_order k msg : applyChan n !! k = Some msg → am_index msg = Z.of_nat k + 1;
  rp_valid op : op ∈ logged (p_history p) →
    ∃ i op', (i, op') ∈ y_accepted y ∧ op = decodeOp uninit (encodeOp op') ∧ (op_ok op' → op = op')
}.


(** An acknowledged write is in the history.  When [PutAppend] or [PutFeature] answers
    [OK], the server has taken that request, or a later one of the same client, from its log
    or answered it as a read. *)
Theorem acknowledged_is_applied (y : system) (w : waiting) (n : node) (p : process) (s' : server) :
  Z.of_nat N < 2 ^ 62 → sys_reachable uninit N y → w ∈ y_waiting y →
  c_servers (y_cluster y) !! w_server w = Some n → y_procs y !! w_server w = Some p →
  wait_reply (w_op w) (w_index w) (view n p) = (s', OK) →
  dup_in (ops (p_history p)) (ClientId (w_op w)) (RequestId (w_op w)) = true.
Proof.
  intros HN Hy _ Hn Hp Hw. destruct (si_inv _ (sys_reachable_inv y HN Hy) _ n p Hn Hp) as [Hst _ _ Hq _].
  destruct (wait_reply_result (logged (p_history p)) (w_op w) (w_index w) (view n p) s' OK)
    as (_ & _ & _ & Hok); [apply Hq|done|].
  destruct (Hok eq_refl) as [Hl|Hd].
  - revert Hl. unfold dup_in. rewrite !existsb_exists. intros (o & Ho & Hm). exists o.
    split; [|done]. apply list_elem_of_In. by apply logged_ops, list_elem_of_In.
  - by rewrite <- (a_dup _ _ _ _ Hst).
Qed.

End invariant.

(** ** Executions *)

Inductive sys_action :=
  | YRaft (a : action)
  | YSubmit (i now : Z) (op : Op)
  | YAnswer (k : nat)
  | YApply (i : Z)
  | YGet (i : Z) (args : GetArgs)
  | YRestart (i now : Z).

Section exec.
Context {F T : Type} `{H : HnswLib F} `{SH : StdHash} `{K : SkipList T} `{C : FeatureCodec F}
  `{Ar : BoostArchive} (uninit : Z).
Abbreviation system := (system (F:=F) (T:=T)).

(** A step and its event. *)
Definition sys_exec (a : sys_action) (y : system) : option (sys_event * system) :=
  match a with
  | YRaft a =>
      c' ← (if internal a then exec a (y_cluster y) else None);
      Some (SysInternal, y <| y_cluster := c' |>)
  | YSubmit i now op =>
      n ← c_servers (y_cluster y) !! i;
      p ← y_procs y !! i;
      c' ← exec (AStart i now op) (y_cluster y);
      n' ← c_servers c' !! i;
      let '(_, index, isLeader) := Start now op n in
      if (isLeader : bool) then
        Some (SysSubmit i op, (set_proc i (mkProcess (wait_channel index (view n' p)) (p_taken p) (p_history p)) y)
          <| y_cluster := c' |> <| y_waiting := mkWaiting i op index :: y_waiting y |>
          <| y_accepted := (i, op) :: y_accepted y |>)
      else Some (SysRefuse i op, y <| y_cluster := c' |>)
  | YAnswer k =>
      w ← y_waiting y !! k;
      p ← y_procs y !! w_server w;
      n ← c_servers (y_cluster y) !! w_server w;
      let '(s', err) := wait_reply (w_op w) (w_index w) (view n p) in
      Some (SysAnswer (w_op w) err, (set_proc (w_server w) (mkProcess s' (p_taken p) (p_history p)) y)
        <| y_waiting := take k (y_waiting y) ++ drop (S k) (y_waiting y) |>)
  | YApply i =>
      p ← y_procs y !! i;
      n ← c_servers (y_cluster y) !! i;
      msg ← applyChan n !! p_taken p;
      s' ← ok_value (apply_thread uninit (view n p));
      Some (SysTake i (msg_op uninit msg), set_proc i
        (mkProcess s' (p_taken p + 1) (p_history p ++ [(true, msg_op uninit msg)])) y)
  | YGet i args =>
      p ← y_procs y !! i;
      n ← c_servers (y_cluster y) !! i;
      let '(s', reply) := Get args (view n p) in
      Some (SysRead i args reply, set_proc i (mkProcess s' (p_taken p)
        (if (gr_err reply =? ErrWrongLeader)%string then p_history p
         else p_history p ++ [(false, read_op args)])) y)
  | YRestart i now =>
      c' ← exec (ARestart i now) (y_cluster y);
      n' ← c_servers c' !! i;
      Some (SysInternal, (set_proc i (fresh_process n') y)
        <| y_cluster := c' |> <| y_waiting := filter (λ w, w_server w ≠ i) (y_waiting y) |>)
  end.

Fixpoint sys_run (l : list sys_action) (y : system) : option system :=
  match l with [] => Some y | a :: l' => '(_, y') ← sys_exec a y; sys_run l' y' end.

Lemma sys_exec_step a y e y' : sys_exec a y = Some (e, y') → sys_lstep uninit y e y'.
Proof.
  destruct a; cbn [sys_exec]; intros He;
    repeat match goal with
    | He : (_ ≫= _) = Some _ |- _ =>
        apply bind_Some in He; let x := fresh "x" in let Hx := fresh "Hx" in
        destruct He as (x & Hx & He)
    end.
  - destruct (internal a) eqn:Ha; [|discriminate Hx]. injection He as <- <-.
    by eapply ys_raft, exec_internal.
  - destruct (exec_start _ _ _ _ _ Hx1) as (n & n' & index & b & Hn & Hs & Hn' & Hstep).
    rewrite Hx in Hn. injection Hn as <-. rewrite Hs in He. rewrite Hx2 in Hn'. injection Hn' as <-.
    destruct b; injection He as <- <-; [by eapply ys_submit|by eapply ys_refuse].
  - destruct (wait_reply _ _ _) as [s' err] eqn:Hw. injection He as <- <-.
    eapply ys_answer; [|done|done|done]. symmetry. by apply take_drop_middle.
  - apply ok_value_Some in Hx2. injection He as <- <-. by eapply ys_apply.
  - destruct (Get args _) as [s' reply] eqn:Hg. injection He as <- <-. by eapply ys_get.
  - injection He as <- <-. eapply ys_restart; [by eapply exec_restart|done].
Qed.

Definition sys_boot (N : nat) : option system :=
  c ← boot N; Some (mkSystem c (fresh_process <$> c_servers c) [] []).

Lemma sys_run_reachable N l y : (y0 ← sys_boot N; sys_run l y0) = Some y → sys_reachable uninit N y.
Proof.
  intros (y0 & (c & Hc & H0)%bind_Some & Hr)%bind_Some. injection H0 as <-.
  exists (mkSystem c (fresh_process <$> c_servers c) [] []).
  split; [split_and!; [by eapply boot_initial|done..]|].
  clear Hc. revert Hr. generalize (mkSystem c (fresh_process (F:=F) (T:=T) <$> c_servers c) [] []).
  induction l as [|a l IH]; intros z; cbn [sys_run]; [intros [= ->]; constructor|].
  intros ([ev z'] & Hz & Hr)%bind_Some. eapply steps_trans; [|by apply IH].
  apply steps_one. exists ev. by apply (sys_exec_step a).
Qed.
End exec.

#[local] Existing Instance first_byte_hash.
#[local] Existing Instance bit_archive.

Abbreviation service_process := (process (F:=Z) (T:=gmap string string)).
Definition service_put : Op := mkOp "Put" "x" "1" "c" 1.
Definition service_get : GetArgs := mkGetArgs "x" "c" 2.
(** Server 0 is elected, takes a request, replicates it to server 1, commits and applies it,
    and answers a read while the writer still waits. *)
Definition service_schedule : list sys_action :=
  (YRaft <$> elect_first) ++ [YSubmit 0 2 service_put] ++
  (YRaft <$> batch_round 0 10 ++ [AAppend 0 11; AAppendReply 0 (Some 0%nat); AApply 0]) ++
  [YApply 0; YGet 0 service_get].
Definition service_run : option (system (F:=Z) (T:=gmap string string)) :=
  y ← sys_boot 3; sys_run 0 service_schedule y.

Lemma service_reachable y : service_run = Some y → sys_reachable 0 3 y.
Proof. apply sys_run_reachable. Qed.

(** Server 0 in that run. *)
Definition service_server : option (node * service_process) :=
  y ← service_run; n ← c_servers (y_cluster y) !! 0; p ← y_procs y !! 0; Some (n, p).

Example service_history :
  (λ x, (p_history x.2, p_taken x.2, length (applyChan x.1))) <$> service_server =
  Some ([(true, service_put); (false, read_op service_get)], 1%nat, 1%nat).
Proof. vm_compute. reflexivity. Qed.
(** The waiting writer is answered [OK], and a read of another client sees the value. *)
Example service_answers :
  (λ x, ((wait_reply service_put 1 (view x.1 x.2)).2,
         gr_value (Get (mkGetArgs "x" "d" 7) (view x.1 x.2)).2)) <$> service_server = Some (OK, "1").
Proof. vm_compute. reflexivity. Qed.
Example service_waiting : y_waiting <$> service_run = Some [mkWaiting 0 service_put 1].
Proof. vm_compute. reflexivity. Qed.

(** The parts of [service_server], with the state they come from. *)
Lemma service_parts :
  ∃ y n p, service_run = Some y ∧ c_servers (y_cluster y) !! 0 = Some n ∧
    y_procs y !! 0 = Some p ∧ service_server = Some (n, p).
Proof.
  destruct service_server as [[n p]|] eqn:Hs;
    [|pose proof service_history as Hh; rewrite Hs in Hh; discriminate Hh].
  unfold service_server in Hs. apply bind_Some in Hs as (y & Hy & (n' & Hn & (p' & Hp & Hs)%bind_Some)%bind_Some).
  injection Hs as <- <-. exists y, n', p'. split; [exact Hy|]. split; [exact Hn|].
  split; [exact Hp|reflexivity].
Qed.


Lemma acknowledged_is_applied_witness :
  ∃ y n (p : service_process), service_run = Some y ∧ y_procs y !! 0 = Some p ∧
    y_waiting y = [mkWaiting 0 service_put 1] ∧ (wait_reply service_put 1 (view n p)).2 = OK ∧
    dup_in (ops (p_history p)) "c" 1 = true.
Proof.
  destruct service_parts as (y & n & p & Hy & Hn & Hp & Hs).
  pose proof service_waiting as Hw. rewrite Hy in Hw. injection Hw as Hw.
  pose proof service_answers as Ha. rewrite Hs in Ha. injection Ha as Ha _.
  exists y, n, p. split; [exact Hy|]. split; [exact Hp|]. split; [exact Hw|]. split; [exact Ha|].
  apply (acknowledged_is_applied 0 3 y (mkWaiting 0 service_put 1) n p
    (wait_reply service_put 1 (view n p)).1);
    [reflexivity|apply (service_reachable y Hy)|rewrite Hw; apply list_elem_of_here|exact Hn|exact Hp|].
  cbn [w_op w_index fst snd] in Ha |- *. rewrite <- Ha. apply surjective_pairing.
Defined.


(** The environments of three processes; the first takes the default. *)
Definition demo_envs (i : Z) : option string :=
  if i =? 1 then Some "1"%string else if i =? 2 then Some "2"%string else None.
Lemma mains_make_the_service_witness :
  make_peers 1 = [Some ("127.0.0.1"%string, 8001); None; Some ("127.0.0.1"%string, 8003)] ∧
  ∃ ss : gmap Z (KvServer Z (gmap string string) node),
    (∃ s, ss !! 2 = Some s ∧ m_me (m_raftNode s) = 2) ∧ sys_initial 3 (service_of ss).
Proof.
  split; [by vm_compute|].
  destruct (mains_make_the_service (F:=Z) (T:=gmap string string) demo_envs (λ i, i + 7))
    as (ss & Hss & _ & Hinit).
  - intros i Hi. assert (i = 0 ∨ i = 1 ∨ i = 2) as [->|[->| ->]] by lia; by vm_compute.
  - exists ss. split; [|exact Hinit]. destruct (Hss 2) as (s & Hs & _ & Hme); [lia|].
    by exists s.
Defined.
