(* ===== verification/Clerk.v ===== *)
(** The client library, [Clerk] of [src/Clerk/clerk.cpp].  What the network answers is a
    script: the outcome of each attempt in turn, [None] where [controller.Failed()]. *)
From S2P Require Import Prelude OpCoder KvTypes.
Open Scope Z_scope.

(** [connected] tells whether [stub_] and [channel_] are set. *)
Record Clerk := mkClerk {
  RequestId_ : Z;
  ClientId_ : Z;
  connected : bool;
  c_leaderIp : string;
  c_leaderPort : Z
}.
#[export] Instance Clerk_expand : Expand Clerk := λ c,
  mkClerk (RequestId_ c) (ClientId_ c) (connected c) (c_leaderIp c) (c_leaderPort c).

Definition InitStub (c : Clerk) : Clerk := c <| connected := true |>.
(** [rand] is the number drawn for the client id. *)
Definition Init (rand : Z) : Clerk := mkClerk 0 rand false "" 0.
Definition Close (c : Clerk) : Clerk := c <| connected := false |>.

Definition kMaxRetry : Z := 100.
Definition ensure_stub (c : Clerk) : Clerk := if connected c then c else InitStub c.
(** Dropping the connection and the leader's address. *)
Definition drop_connection (c : Clerk) : Clerk :=
  c <| connected := false |> <| c_leaderIp := "" |> <| c_leaderPort := 0 |>.

Section loop.
Context {A B V : Type}.

(** The [while (true)] of [Put], [Get] and [PutFeature].  [finish] is what the method does
    with a response: its result, or [None] for [ErrWrongLeader].  The loop ends with
    [Some] result, or with [None] when the script ends before the loop does; [sent] are
    the requests sent so far. *)
Fixpoint call_loop (request : A) (finish : B → option V) (gave_up : V)
    (script : list (option B)) (retry_count : Z) (sent : list A) (c : Clerk)
    : option V * list A * Clerk :=
  match script with
  | [] => (None, sent, c)
  | r :: script' =>
      let c := ensure_stub c in
      let sent := sent ++ [request] in
      match r with
      | None =>
          let c := drop_connection c in
          let retry_count := retry_count + 1 in
          if kMaxRetry <? retry_count then (Some gave_up, sent, c)
          else call_loop request finish gave_up script' retry_count sent c
      | Some response =>
          match finish response with
          | Some v => (Some v, sent, c)
          | None => call_loop request finish gave_up script' 0 sent (drop_connection c)
          end
      end
  end.
End loop.

(** The answers to a write: every error but [ErrWrongLeader] ends the call. *)
Definition write_finish (response : PutAppendReply) : option unit :=
  let err := par_err response in
  if (err =? "OK")%string then Some tt
  else if (err =? "ErrWrongLeader")%string then None
  else Some tt.
Definition read_finish (response : GetReply) : option string :=
  let err := gr_err response in
  if (err =? "OK")%string then Some (gr_value response)
  else if (err =? "ErrNoKey")%string then Some ""%string
  else if (err =? "ErrWrongLeader")%string then None
  else Some ""%string.

(** Every call takes a number of its own for its request. *)
Definition next_request (c : Clerk) : Clerk := c <| RequestId_ := RequestId_ c + 1 |>.
Definition put_request (key value : string) (c : Clerk) : PutAppendArgs :=
  mkPutAppendArgs key value "Put" (to_string (ClientId_ c)) (RequestId_ c).
Definition get_request (key : string) (c : Clerk) : GetArgs :=
  mkGetArgs key (to_string (ClientId_ c)) (RequestId_ c).
Definition feature_request {F} (feature : ItemFeature F) (c : Clerk) : PutFeatureArgs F :=
  mkPutFeatureArgs feature (to_string (ClientId_ c)) (RequestId_ c).

Definition Put (key value : string) (script : list (option PutAppendReply)) (c : Clerk)
    : option unit * list PutAppendArgs * Clerk :=
  let c := next_request c in
  call_loop (put_request key value c) write_finish tt script 0 [] c.

Definition Get (key : string) (script : list (option GetReply)) (c : Clerk)
    : option string * list GetArgs * Clerk :=
  let c := next_request c in
  call_loop (get_request key c) read_finish ""%string script 0 [] c.

Definition PutFeature {F} (feature : ItemFeature F) (script : list (option PutAppendReply))
    (c : Clerk) : option unit * list (PutFeatureArgs F) * Clerk :=
  let c := next_request c in
  call_loop (feature_request feature c) write_finish tt script 0 [] c.

(** One attempt; the result stays empty when it fails. *)
Definition Search {F} (query_vector : list F) (topK : Z) (r : option (SearchResponse F))
    (c : Clerk) : SearchRequest F * SearchResponse F * Clerk :=
  let request := mkSearchRequest query_vector topK "inner_product" in
  let c := ensure_stub c in
  (request, default (mkSearchResponse [] [] 0) r, c).

(** ** When a call returns *)

Section returns.
Context {A B V : Type} (finish : B → option V) (gave_up : V).

(** The failures since the last response. *)
Definition failures (l : list (option B)) : nat :=
  foldl (λ n r, match r with None => S n | Some _ => 0%nat end) 0%nat l.
(** The result of a call that stops at the end of these attempts. *)
Definition stops (l : list (option B)) : option V :=
  match last l with
  | Some (Some response) => finish response
  | Some None => if (100 <? failures l)%nat then Some gave_up else None
  | None => None
  end.

Lemma failures_snoc l r :
  failures (l ++ [r]) = match r with None => S (failures l) | Some _ => 0%nat end.
Proof. unfold failures. by rewrite foldl_snoc. Qed.

(** What is known when a loop that had seen the attempts [pre] ends with [res]. *)
Definition loop_post (request : A) (script pre : list (option B)) (sent : list A)
    (res : option V) (sent' : list A) : Prop :=
  ∃ n, sent' = sent ++ replicate n request ∧ (n ≤ length script)%nat ∧
    (∀ j, (0 < j < n)%nat → stops (pre ++ take j script) = None) ∧
    match res with
    | Some v => (0 < n)%nat ∧ stops (pre ++ take n script) = Some v
    | None => n = length script ∧ ((0 < n)%nat → stops (pre ++ script) = None)
    end.

Lemma post_stop request r script pre sent v :
  stops (pre ++ [r]) = Some v →
  loop_post request (r :: script) pre sent (Some v) (sent ++ [request]).
Proof. intros Hv. exists 1%nat. split_and!; [done|cbn; lia|lia|lia|done]. Qed.
Lemma post_go request r script pre sent res sent' :
  stops (pre ++ [r]) = None →
  loop_post request script (pre ++ [r]) (sent ++ [request]) res sent' →
  loop_post request (r :: script) pre sent res sent'.
Proof.
  assert (∀ j, pre ++ take (S j) (r :: script) = (pre ++ [r]) ++ take j script) as Ht
    by (intros; by rewrite <- app_assoc).
  intros Hs (n & -> & Hn & Hj & Hres). exists (S n).
  rewrite <- app_assoc. split; [done|]. split; [cbn; lia|]. split.
  - intros [|[|j]] Hlt; [lia|by rewrite Ht, take_0, app_nil_r|]. rewrite Ht. apply Hj. lia.
  - destruct res as [v|]; [rewrite Ht; split; [lia|apply Hres]|].
    destruct Hres as [-> Hres]. split; [done|]. intros _.
    replace (pre ++ r :: script) with ((pre ++ [r]) ++ script) by by rewrite <- app_assoc.
    destruct script; [by rewrite app_nil_r|apply Hres; cbn; lia].
Qed.

Lemma call_loop_spec (request : A) script pre sent c res sent' c' :
  call_loop request finish gave_up script (Z.of_nat (failures pre)) sent c = (res, sent', c') →
  loop_post request script pre sent res sent'.
Proof.
  revert pre sent c. induction script as [|r script IH]; intros pre sent c Hl; cbn in Hl.
  { injection Hl as <- <- <-. exists 0%nat. rewrite app_nil_r. repeat split; cbn; lia. }
  assert (stops (pre ++ [r]) = match r with
    | Some response => finish response
    | None => if (100 <? S (failures pre))%nat then Some gave_up else None end) as Hst.
  { unfold stops. rewrite last_snoc, failures_snoc. by destruct r. }
  assert (Hf := failures_snoc pre r).
  destruct r as [response|].
  - destruct (finish response) as [v|].
    + injection Hl as <- <- <-. by apply post_stop.
    + apply post_go; [done|]. eapply IH. rewrite Hf. exact Hl.
  - unfold kMaxRetry in Hl. destruct (Z.ltb_spec 100 (Z.of_nat (failures pre) + 1)) as [Hk|Hk].
    + rewrite (proj2 (Nat.ltb_lt _ _)) in Hst by lia.
      injection Hl as <- <- <-. by apply post_stop.
    + rewrite (proj2 (Nat.ltb_ge _ _)) in Hst by lia. apply post_go; [done|].
      eapply IH. rewrite Hf.
      replace (Z.of_nat (S (failures pre))) with (Z.of_nat (failures pre) + 1) by lia. exact Hl.
Qed.

(** C37: a call of the clerk sends the same request once per attempt and returns at the
    first attempt that ends it: a response other than [ErrWrongLeader], whose result it
    returns, or the 101st network failure in a row, where it gives up; a response resets
    the count of failures.  While neither happens it keeps retrying, with no bound on the
    number of [ErrWrongLeader] answers. *)
Theorem call_returns (request : A) (script : list (option B)) (c c' : Clerk)
    (res : option V) (sent : list A) :
  call_loop request finish gave_up script 0 [] c = (res, sent, c') →
  ∃ n, sent = replicate n request ∧ (n ≤ length script)%nat ∧
    (∀ j, (0 < j < n)%nat → stops (take j script) = None) ∧
    match res with
    | Some v => (0 < n)%nat ∧ stops (take n script) = Some v
    | None => n = length script ∧ ((0 < n)%nat → stops script = None)
    end.
Proof. apply (call_loop_spec request script []). Qed.
End returns.

(** ** The requests of a client *)

Section calls.
Context {F : Type}.

Inductive call :=
  | CallPut (key value : string) (script : list (option PutAppendReply))
  | CallGet (key : string) (script : list (option GetReply))
  | CallPutFeature (f : ItemFeature F) (script : list (option PutAppendReply)).

(** The client and request ids of the requests that a call sends. *)
Definition do_call (k : call) (c : Clerk) : list (string * Z) * Clerk :=
  match k with
  | CallPut key value script =>
      let '(_, sent, c) := Put key value script c in
      ((λ a, (pa_clientid a, pa_requestid a)) <$> sent, c)
  | CallGet key script =>
      let '(_, sent, c) := Get key script c in
      ((λ a, (g_clientid a, g_requestid a)) <$> sent, c)
  | CallPutFeature f script =>
      let '(_, sent, c) := PutFeature f script c in
      ((λ a, (pf_clientid a, pf_requestid a)) <$> sent, c)
  end.
Fixpoint do_calls (ks : list call) (c : Clerk) : list (list (string * Z)) * Clerk :=
  match ks with
  | [] => ([], c)
  | k :: ks' =>
      let '(keys, c) := do_call k c in
      let '(rest, c) := do_calls ks' c in (keys :: rest, c)
  end.

Lemma ensure_stub_ids c :
  RequestId_ (ensure_stub c) = RequestId_ c ∧ ClientId_ (ensure_stub c) = ClientId_ c.
Proof. unfold ensure_stub. by case_match. Qed.
Lemma call_loop_ids {A B V} request (finish : B → option V) g script k sent c :
  let c' := (call_loop (A:=A) request finish g script k sent c).2 in
  RequestId_ c' = RequestId_ c ∧ ClientId_ c' = ClientId_ c.
Proof.
  revert k sent c. induction script as [|r script IH]; intros k sent c; [done|].
  destruct (ensure_stub_ids c) as [H1 H2]. cbn [call_loop].
  destruct r as [response|].
  - destruct (finish response); [done|]. destruct (IH 0 (sent ++ [request])
      (drop_connection (ensure_stub c))) as [-> ->]. done.
  - destruct (kMaxRetry <? _); [done|]. destruct (IH (k + 1) (sent ++ [request])
      (drop_connection (ensure_stub c))) as [-> ->]. done.
Qed.

Lemma do_call_keys k c :
  (∃ n, (do_call k c).1 = replicate n (to_string (ClientId_ c), RequestId_ c + 1)) ∧
  RequestId_ (do_call k c).2 = RequestId_ c + 1 ∧ ClientId_ (do_call k c).2 = ClientId_ c.
Proof.
  assert (∀ A B V (request : A) (f : A → string * Z) (finish : B → option V) g script,
    let c1 := c <| RequestId_ := RequestId_ c + 1 |> in
    let '(res, sent, c2) := call_loop request finish g script 0 [] c1 in
    (∃ n, f <$> sent = replicate n (f request)) ∧
    RequestId_ c2 = RequestId_ c + 1 ∧ ClientId_ c2 = ClientId_ c) as Hgen.
  { intros A B V request f finish g script c1.
    pose proof (call_loop_ids request finish g script 0 [] c1) as Hids.
    destruct (call_loop request finish g script 0 [] c1) as [[res sent] c2] eqn:E.
    apply (call_loop_spec finish g request script []) in E as (n & -> & _).
    split; [|exact Hids]. exists n. cbn. by rewrite fmap_replicate. }
  destruct k as [key value script|key script|f script]; cbn [do_call];
    unfold Put, Get, PutFeature, put_request, get_request, feature_request, next_request.
  - specialize (Hgen _ _ _ (mkPutAppendArgs key value "Put" (to_string (ClientId_ c))
      (RequestId_ c + 1)) (λ a, (pa_clientid a, pa_requestid a)) write_finish tt script).
    cbn in Hgen |- *. by destruct (call_loop _ _ _ _ _ _ _) as [[? ?] ?].
  - specialize (Hgen _ _ _ (mkGetArgs key (to_string (ClientId_ c)) (RequestId_ c + 1))
      (λ a, (g_clientid a, g_requestid a)) read_finish ""%string script).
    cbn in Hgen |- *. by destruct (call_loop _ _ _ _ _ _ _) as [[? ?] ?].
  - specialize (Hgen _ _ _ (mkPutFeatureArgs f (to_string (ClientId_ c)) (RequestId_ c + 1))
      (λ a, (pf_clientid a, pf_requestid a)) write_finish tt script).
    cbn in Hgen |- *. by destruct (call_loop _ _ _ _ _ _ _) as [[? ?] ?].
Qed.

(** The requests of a client are numbered by its calls.  Whatever the network answers,
    all the attempts of one call carry the same client and request id, the ids of a
    sequence of calls follow each other without gap, so that two calls never share an id:
    what the servers use to recognise a repeated request. *)
Theorem requests_numbered (ks : list call) (c : Clerk) :
  let '(keys, c') := do_calls ks c in
  length keys = length ks ∧ RequestId_ c' = RequestId_ c + Z.of_nat (length ks) ∧
  ∀ j l, keys !! j = Some l →
    ∃ n, l = replicate n (to_string (ClientId_ c), RequestId_ c + 1 + Z.of_nat j).
Proof.
  revert c. induction ks as [|k ks IH]; intros c; cbn [do_calls].
  { split_and!; [done|cbn; lia|]. intros j l. by rewrite lookup_nil. }
  destruct (do_call_keys k c) as ((n & Hk) & Hr & Hc).
  destruct (do_call k c) as [l1 c1]. cbn in Hk, Hr, Hc. specialize (IH c1).
  destruct (do_calls ks c1) as [keys c2]. destruct IH as (Hl & Hr2 & Hkeys).
  rewrite Hr in Hr2, Hkeys. rewrite Hc in Hkeys. split_and!; [cbn; lia|cbn; lia|].
  intros [|j] l Hj; cbn in Hj.
  - injection Hj as <-. exists n. rewrite Z.add_0_r. exact Hk.
  - destruct (Hkeys j l Hj) as (m & ->). exists m. do 2 f_equal. lia.
Qed.
End calls.

(** ** A concrete call *)

Definition demo_script : list (option PutAppendReply) :=
  [None; Some (mkPutAppendReply ErrWrongLeader); Some (mkPutAppendReply OK); None].
Definition demo_request : PutAppendArgs := mkPutAppendArgs "k" "v" "Put" "7" 1.
Lemma call_returns_witness :
  ∃ n, (call_loop demo_request write_finish tt demo_script 0 [] (Init 7)).1.2
         = replicate n demo_request ∧
    stops write_finish tt (take n demo_script) = Some tt ∧ n = 3%nat.
Proof.
  destruct (call_returns write_finish tt demo_request demo_script (Init 7) ((Init 7) <| connected := true |>)
    (Some tt) (replicate 3 demo_request)) as (n & E & _ & _ & _ & Hs).
  - by vm_compute.
  - exists n. split; [exact E|]. split; [exact Hs|].
    apply (f_equal length) in E. rewrite !length_replicate in E. done.
Defined.
