(* ===== verification/KvClients.v ===== *)
(** The service with its clients: the clerks of [Clerk] make the requests of [KvCluster] and
    hear its answers.  The network may lose requests and answers, hold them back for any time
    and deliver them any number of times to any server. *)
From S2P Require Import Prelude OpCoder Persister RaftTypes RaftLog RaftElection.
From S2P Require Import RaftReplication RaftPipeline RaftSteps Cluster ClusterLog ClusterRun.
From S2P Require Import RaftBounds ClusterSafe ClusterApply Channels Hnsw RecallEngine.
From S2P Require Import KvTypes KvServer KvSpec ServerMain KvCluster Clerk.
Open Scope Z_scope.

#[local] Arguments upd : simpl never.

(** ** Calls and their requests *)

Section calls.
Context {F : Type} `{C : FeatureCodec F}.
Abbreviation call := (call (F:=F)).

(** The command that the server makes of a write request. *)
Definition put_command (args : PutAppendArgs) : Op :=
  mkOp (pa_op args) (pa_key args) (pa_value args) (pa_clientid args) (pa_requestid args).
Definition feature_command (args : PutFeatureArgs F) : Op :=
  mkOp "PutFeature" (item_id (feature args)) (SerializeAsString (feature args))
    (pf_clientid args) (pf_requestid args).

(** The request of the call [k] made on the clerk [c]: a write or a read. *)
Definition call_request (k : call) (c : Clerk) : Op + GetArgs :=
  let c := next_request c in
  match k with
  | CallPut key value _ => inl (put_command (put_request key value c))
  | CallGet key _ => inr (get_request key c)
  | CallPutFeature f _ => inl (feature_command (feature_request f c))
  end.
Definition request_op (r : Op + GetArgs) : Op :=
  match r with inl op => op | inr args => read_op args end.
Definition call_op (k : call) (c : Clerk) : Op := request_op (call_request k c).

(** A call in progress carries what its attempts met so far; [None] is a failed RPC. *)
Definition unheard (k : call) : Prop :=
  match k with CallPut _ _ l | CallPutFeature _ l => l = [] | CallGet _ l => l = [] end.
Definition hear_write (r : option PutAppendReply) (k : call) : call :=
  match k with
  | CallPut key value l => CallPut key value (l ++ [r])
  | CallPutFeature f l => CallPutFeature f (l ++ [r])
  | CallGet _ _ => k
  end.
Definition hear_read (r : option GetReply) (k : call) : call :=
  match k with CallGet key l => CallGet key (l ++ [r]) | _ => k end.

(** What the call has returned, if it has. *)
Definition returned (k : call) (c : Clerk) : option (unit + string) :=
  match k with
  | CallPut key value l => inl <$> (Clerk.Put key value l c).1.1
  | CallGet key l => inr <$> (Clerk.Get key l c).1.1
  | CallPutFeature f l => inl <$> (Clerk.PutFeature f l c).1.1
  end.

Lemma hear_write_request r k c : call_request (hear_write r k) c = call_request k c.
Proof. by destruct k. Qed.
Lemma hear_read_request r k c : call_request (hear_read r k) c = call_request k c.
Proof. by destruct k. Qed.

Lemma call_op_key k c :
  ClientId (call_op k c) = to_string (ClientId_ c) ∧ RequestId (call_op k c) = RequestId_ c + 1.
Proof. by destruct k. Qed.
End calls.

(** ** The world *)

Section world.
Context {F T : Type} `{H : HnswLib F} `{SH : StdHash} `{K : SkipList T} `{C : FeatureCodec F}
  `{Ar : BoostArchive} (uninit : Z).
Abbreviation call := (call (F:=F)).
Abbreviation system := (system (F:=F) (T:=T)).

(** A clerk between two calls, or during the call [k] that was made on [c]. *)
Inductive client :=
  | Idle (c : Clerk)
  | Calling (k : call) (c : Clerk).

(** Beside the service and the clerks: the requests sent, the answers given, and, as a history,
    what took effect at which server: the commands and reads that the server took in and that
    were no repetitions there. *)
Record world := mkWorld {
  x_system : system;
  x_clients : gmap nat client;
  x_writes : list Op;
  x_reads : list GetArgs;
  x_write_answers : list (Op * string);
  x_read_answers : list (GetArgs * GetReply);
  x_effects : list (Z * Op)
}.
#[export] Instance world_expand : Expand world := λ w,
  mkWorld (x_system w) (x_clients w) (x_writes w) (x_reads w) (x_write_answers w)
    (x_read_answers w) (x_effects w).

Definition set_client (a : nat) (s : client) (w : world) : world :=
  w <| x_clients := <[a := s]> (x_clients w) |>.
(** A call that has heard something goes on or has returned. *)
Definition after_hearing (k : call) (c : Clerk) : client :=
  match returned k c with Some _ => Idle (do_call k c).2 | None => Calling k c end.

Definition send_request (r : Op + GetArgs) (w : world) : world :=
  match r with
  | inl op => w <| x_writes := op :: x_writes w |>
  | inr args => w <| x_reads := args :: x_reads w |>
  end.

(** The requests that a step of the service needs. *)
Definition asked_for (w : world) (e : sys_event) : Prop :=
  match e with
  | SysSubmit _ op | SysRefuse _ op => op ∈ x_writes w
  | SysRead _ args _ => args ∈ x_reads w
  | _ => True
  end.
(** What a server takes in at a step. *)
Definition taken_in (e : sys_event) : option (Z * Op) :=
  match e with
  | SysTake i op => Some (i, op)
  | SysRead i args reply =>
      if (gr_err reply =? ErrWrongLeader)%string then None else Some (i, read_op args)
  | _ => None
  end.
Definition took_effect (e : sys_event) (y : system) : list (Z * Op) :=
  match taken_in e with
  | Some (i, op) =>
      match y_procs y !! i with
      | Some p => if dup_in (ops (p_history p)) (ClientId op) (RequestId op) then [] else [(i, op)]
      | None => []
      end
  | None => []
  end.
Definition write_answer (e : sys_event) : list (Op * string) :=
  match e with
  | SysRefuse _ op => [(op, ErrWrongLeader)]
  | SysAnswer op err => [(op, err)]
  | _ => []
  end.
Definition read_answer (e : sys_event) : list (GetArgs * GetReply) :=
  match e with SysRead _ args reply => [(args, reply)] | _ => [] end.
Definition observe (e : sys_event) (y' : system) (w : world) : world :=
  w <| x_system := y' |>
    <| x_write_answers := write_answer e ++ x_write_answers w |>
    <| x_read_answers := read_answer e ++ x_read_answers w |>
    <| x_effects := took_effect e (x_system w) ++ x_effects w |>.

Inductive world_step (w : world) : world → Prop :=
  (** A client makes a call; its request can be encoded. *)
  | xs_call a k c :
      x_clients w !! a = Some (Idle c) → unheard k →
      (∀ op, call_request k c = inl op → op_ok op) →
      world_step w (set_client a (Calling k c) w)
  (** An attempt sends the request. *)
  | xs_send a k c :
      x_clients w !! a = Some (Calling k c) →
      world_step w (send_request (call_request k c) w)
  (** The attempt ends, with an answer to that request or with a failure. *)
  | xs_hear_write a k c op r :
      x_clients w !! a = Some (Calling k c) → call_request k c = inl op →
      (∀ reply, r = Some reply → (op, par_err reply) ∈ x_write_answers w) →
      world_step w (set_client a (after_hearing (hear_write r k) c) w)
  | xs_hear_read a k c args r :
      x_clients w !! a = Some (Calling k c) → call_request k c = inr args →
      (∀ reply, r = Some reply → (args, reply) ∈ x_read_answers w) →
      world_step w (set_client a (after_hearing (hear_read r k) c) w)
  (** The service moves. *)
  | xs_system e y' :
      sys_lstep uninit (x_system w) e y' → asked_for w e → world_step w (observe e y' w).

(** Clerks with different client ids that have made no call. *)
Definition world_initial (N : nat) (w : world) : Prop :=
  sys_initial N (x_system w) ∧
  (∀ a s, x_clients w !! a = Some s → ∃ rand, s = Idle (Init rand)) ∧
  (∀ a b c d, x_clients w !! a = Some (Idle c) → x_clients w !! b = Some (Idle d) →
     to_string (ClientId_ c) = to_string (ClientId_ d) → a = b) ∧
  x_writes w = [] ∧ x_reads w = [] ∧ x_write_answers w = [] ∧ x_read_answers w = [] ∧
  x_effects w = [].
Definition world_reachable (N : nat) (w : world) : Prop :=
  ∃ w0, world_initial N w0 ∧ steps world_step w0 w.
End world.

(** ** The invariant *)

Section invariant.
Context {F T : Type} `{H : HnswLib F} `{SH : StdHash} `{K : SkipList T} `{C : FeatureCodec F}
  `{Ar : BoostArchive} `{KL : !SkipListLaws K} `{AL : !BoostArchiveLaws Ar} (uninit : Z).
Abbreviation call := (call (F:=F)).
Abbreviation system := (system (F:=F) (T:=T)).
Abbreviation client := (client (F:=F)).
Abbreviation world := (world (F:=F) (T:=T)).

(** The id of a client and the number of its last call. *)
Definition client_id (s : client) : string :=
  match s with Idle c | Calling _ c => to_string (ClientId_ c) end.
Definition last_call (s : client) : Z :=
  match s with Idle c => RequestId_ c | Calling _ c => RequestId_ c + 1 end.

(** A command stands for a request that was sent. *)
Definition asked (w : world) (op : Op) : Prop :=
  op ∈ x_writes w ∨ ∃ args, args ∈ x_reads w ∧ op = read_op args.

(** The request of a call of [s]; if it is the last one and still goes on, its own. *)
Definition request_of (s : client) (op : Op) : Prop :=
  ClientId op = client_id s ∧ RequestId op ≤ last_call s ∧
  match s with
  | Idle _ => True
  | Calling k c => RequestId op = last_call s → op = call_op k c
  end.

Variable N : nat.

Record world_inv (w : world) : Prop := {
  wi_system : sys_inv uninit N (x_system w);
  wi_ids a b s t : x_clients w !! a = Some s → x_clients w !! b = Some t →
    client_id s = client_id t → a = b;
  wi_asked op : asked w op → ∃ a s, x_clients w !! a = Some s ∧ request_of s op;
  wi_once op op' : asked w op → asked w op' → request_key op = request_key op' → op = op';
  wi_ok op : op ∈ x_writes w → op_ok op;
  wi_ok_calls a k c op : x_clients w !! a = Some (Calling k c) → call_request k c = inl op → op_ok op;
  wi_accepted i op : (i, op) ∈ y_accepted (x_system w) → op ∈ x_writes w;
  wi_reads i p op : y_procs (x_system w) !! i = Some p → (false, op) ∈ p_history p → asked w op;
  wi_effects i p op : y_procs (x_system w) !! i = Some p →
    op ∈ effective [] (ops (p_history p)) → (i, op) ∈ x_effects w;
  wi_effects_asked i op : (i, op) ∈ x_effects w → asked w op;
  wi_answers op : (op, OK) ∈ x_write_answers w →
    ∃ i o, (i, o) ∈ x_effects w ∧ ClientId o = ClientId op ∧ RequestId op ≤ RequestId o
}.

(** *** What a step of the service does to histories *)

Lemma sys_lstep_history y e y' i p' :
  sys_lstep uninit y e y' → y_procs y' !! i = Some p' →
  p_history p' = [] ∨
  ∃ p, y_procs y !! i = Some p ∧
    ((p_history p' = p_history p ∧ ∀ op, taken_in e ≠ Some (i, op)) ∨
     (∃ b op, taken_in e = Some (i, op) ∧ p_history p' = p_history p ++ [(b, op)] ∧
        (b = false → ∃ args reply, e = SysRead i args reply ∧ op = read_op args))).
Proof.
  assert (∀ y1 j (q : process (F:=F) (T:=T)), y_procs (set_proc j q y1) !! i = Some p' →
    (j = i ∧ p' = q) ∨ (j ≠ i ∧ y_procs y1 !! i = Some p')) as Hset.
  { intros y1 j q Hq. change (<[j := q]> (y_procs y1) !! i = Some p') in Hq.
    apply lookup_insert_Some in Hq as [[-> ->]|]; auto. }
  destruct 1; intros Hp'; upd_simpl_in Hp'.
  - right. exists p'. split; [done|]. by left.
  - destruct (Hset _ _ _ Hp') as [[<- ->]|[_ Hq]]; right; eexists; (split; [done|]); by left.
  - right. exists p'. split; [done|]. by left.
  - destruct (Hset _ _ _ Hp') as [[<- ->]|[_ Hq]]; right; eexists; (split; [done|]); by left.
  - destruct (Hset _ _ _ Hp') as [[<- ->]|[Hne Hq]]; right; eexists; (split; [done|]); [right|left].
    + by eexists true, _.
    + split; [done|]. intros op [= ? _]. done.
  - destruct (Hset _ _ _ Hp') as [[<- ->]|[Hne Hq]]; right; eexists; (split; [done|]); cbn [p_history taken_in].
    + destruct (gr_err reply =? ErrWrongLeader)%string; [by left|right]. exists false, (read_op args).
      split; [done|]. split; [done|]. intros _. by exists args, reply.
    + left. split; [done|]. intros op. by case_match; [|intros [= ? _]].
  - destruct (Hset _ _ _ Hp') as [[<- ->]|[_ Hq]]; right; eexists; (split; [done|]); by left.
  - destruct (Hset _ _ _ Hp') as [[<- ->]|[_ Hq]]; [by left|]. right. eexists. split; [done|]. by left.
Qed.

Lemma sys_lstep_accepted y e y' :
  sys_lstep uninit y e y' →
  y_accepted y' = match e with SysSubmit i op => (i, op) :: y_accepted y | _ => y_accepted y end.
Proof. by destruct 1. Qed.

(** An answer [OK] is given only to requests that the history of some server covers. *)
Lemma answered_ok y e y' op :
  Z.of_nat N < 2 ^ 62 → sys_inv uninit N y → sys_lstep uninit y e y' → (op, OK) ∈ write_answer e →
  ∃ i p o, y_procs y !! i = Some p ∧ o ∈ effective [] (ops (p_history p)) ∧
    ClientId o = ClientId op ∧ RequestId op ≤ RequestId o.
Proof.
  intros HN Hy Hstep Hin. destruct Hstep; try (by apply not_elem_of_nil in Hin);
    apply list_elem_of_singleton in Hin; [discriminate Hin|].
  injection Hin as -> <-. pose proof (si_inv _ _ _ Hy _ n p H2 H1) as [Hst _ _ Hq _].
  destruct (wait_reply_result (logged (p_history p)) (w_op w) (w_index w) (view n p) s' OK)
    as (_ & _ & _ & Hok); [apply Hq|done|].
  assert (dup_in (effective [] (ops (p_history p))) (ClientId (w_op w)) (RequestId (w_op w)) = true) as Hd.
  { rewrite effective_dup. destruct (Hok eq_refl) as [Hl|Hd]; [|by rewrite <- (a_dup _ _ _ _ Hst)].
    revert Hl. unfold dup_in. rewrite !existsb_exists. intros (o & Ho & Hm). exists o.
    split; [|done]. apply list_elem_of_In. by apply logged_ops, list_elem_of_In. }
  unfold dup_in in Hd. apply existsb_exists in Hd as (o & Ho & [Hc Hi]%andb_true_iff).
  exists (w_server w), p, o. split; [done|]. split; [by apply list_elem_of_In|].
  split; [by apply String.eqb_eq in Hc|]. by b2p.
Qed.

(** A command that a server takes from its log is a request that a leader accepted. *)
Lemma taken_accepted y y' i op :
  Z.of_nat N < 2 ^ 62 → sys_inv uninit N y → sys_lstep uninit y (SysTake i op) y' →
  ∃ j op', (j, op') ∈ y_accepted y ∧ (op_ok op' → op = op').
Proof.
  intros HN Hy Hstep. assert (sys_inv uninit N y') as Hy'.
  { eapply sys_inv_step; [exact HN|exact Hy|by exists (SysTake i op)]. }
  inversion Hstep as [| | | |i' p n msg s' Hp Hn Hm Ha Hi Hz| | |]. subst.
  destruct (logged_accepted uninit N _ i n (mkProcess s' (p_taken p + 1)
    (p_history p ++ [(true, msg_op uninit msg)])) (msg_op uninit msg) HN Hy') as (j & op' & ? & _ & ?).
  - exact Hn.
  - unfold set_proc. upd_simpl. apply lookup_insert_eq.
  - cbn [p_history]. rewrite logged_command. set_solver.
  - by exists j, op'.
Qed.

(** *** Clients move *)

Lemma world_inv_client a s s' w :
  world_inv w → x_clients w !! a = Some s → client_id s' = client_id s →
  (∀ op, request_of s op → request_of s' op) →
  (∀ k c op, s' = Calling k c → call_request k c = inl op → op_ok op) →
  world_inv (set_client a s' w).
Proof.
  intros [] Ha Hid Hreq Hok.
  assert (∀ b t, x_clients (set_client a s' w) !! b = Some t →
    ∃ t0, x_clients w !! b = Some t0 ∧ client_id t = client_id t0) as Hback.
  { intros b t Hb. change (<[a := s']> (x_clients w) !! b = Some t) in Hb.
    apply lookup_insert_Some in Hb as [[<- <-]|[_ Hb]]; eauto. }
  constructor; try done.
  - intros b b' t t' (t0 & Ht0 & Hi0)%Hback (t1 & Ht1 & Hi1)%Hback Heq.
    eapply wi_ids0; [done..|congruence].
  - intros op (b & t & Hb & Hop)%wi_asked0. destruct (decide (b = a)) as [->|Hne].
    + rewrite Ha in Hb. injection Hb as <-. exists a, s'. split; [apply lookup_insert_eq|by apply Hreq].
    + exists b, t. split; [|done]. change (<[a := s']> (x_clients w) !! b = Some t).
      by rewrite lookup_insert_ne.
  - intros b k c op Hb. change (<[a := s']> (x_clients w) !! b = Some (Calling k c)) in Hb.
    apply lookup_insert_Some in Hb as [[_ Hs]|[_ Hb]]; [by apply Hok|by eapply wi_ok_calls0].
Qed.

(** A call that has heard something keeps its request and its number. *)
Lemma after_hearing_client k k' c op :
  call_request k' c = call_request k c → request_of (Calling k c) op →
  client_id (after_hearing k' c) = client_id (Calling k c) ∧ request_of (after_hearing k' c) op.
Proof.
  intros Hk Hop. destruct (do_call_keys k' c) as (_ & Hr & Hc). unfold after_hearing.
  destruct (returned k' c); unfold request_of in *; cbn [client_id last_call] in *; rewrite ?Hr, ?Hc.
  - split; [done|]. by destruct Hop as (? & ? & _).
  - split; [done|]. unfold call_op in *. by rewrite Hk.
Qed.

Lemma world_inv_hear a k k' c w :
  world_inv w → x_clients w !! a = Some (Calling k c) → call_request k' c = call_request k c →
  world_inv (set_client a (after_hearing k' c) w).
Proof.
  intros Hw Ha Hk. eapply world_inv_client; [done|done| | |].
  - destruct (do_call_keys k' c) as (_ & Hr & Hc). unfold after_hearing.
    destruct (returned k' c); cbn [client_id]; by rewrite ?Hc.
  - intros op Hop. by apply (after_hearing_client k).
  - unfold after_hearing. intros k1 c1 op Hs Hop. destruct (returned k' c); [discriminate Hs|].
    injection Hs as <- <-. rewrite Hk in Hop. by eapply (wi_ok_calls _ Hw).
Qed.

Lemma world_inv_send a k c w :
  world_inv w → x_clients w !! a = Some (Calling k c) →
  world_inv (send_request (call_request k c) w).
Proof.
  intros Hw Ha. pose proof Hw as [].
  assert (∀ op, asked (send_request (call_request k c) w) op ↔ op = call_op k c ∨ asked w op) as Hasked.
  { intros op. unfold asked, call_op. destruct (call_request k c); cbn; set_solver. }
  assert (request_of (Calling k c) (call_op k c)) as Hnew.
  { destruct (call_op_key k c). split; [done|]. cbn. split; [lia|done]. }
  assert (∀ op, asked w op → request_key op = request_key (call_op k c) → op = call_op k c) as Hsame.
  { intros op (b & t & Hb & Hc & Hi & Hlast)%wi_asked0 Hkey. injection Hkey as Hk1 Hk2.
    destruct (call_op_key k c) as [H1 H2]. assert (b = a) as ->.
    { eapply wi_ids0; [done..|]. cbn. congruence. }
    rewrite Ha in Hb. injection Hb as <-. apply Hlast. cbn. congruence. }
  assert (x_system (send_request (call_request k c) w) = x_system w ∧
    x_clients (send_request (call_request k c) w) = x_clients w ∧
    x_effects (send_request (call_request k c) w) = x_effects w ∧
    x_write_answers (send_request (call_request k c) w) = x_write_answers w ∧
    (∀ op, op ∈ x_writes w → op ∈ x_writes (send_request (call_request k c) w))) as (E1 & E2 & E3 & E4 & E5).
  { destruct (call_request k c); cbn; split_and!; try done. intros op Ho. upd_simpl. by right. }
  constructor; rewrite ?E1, ?E2, ?E3, ?E4; try done.
  - intros op [->|Hop]%Hasked; [by exists a, (Calling k c)|by apply wi_asked0].
  - intros op op' [->|Hop]%Hasked [->|Hop']%Hasked Hkey; [done| | |by apply wi_once0].
    + symmetry. by apply Hsame.
    + by apply Hsame.
  - intros op. destruct (call_request k c) as [op'|args] eqn:E; cbn; [|apply wi_ok0].
    upd_simpl. intros [->|Hop]%elem_of_cons; [by eapply wi_ok_calls0|by apply wi_ok0].
  - intros i op Hop. by eapply E5, wi_accepted0.
  - intros i p op Hp Hop. apply Hasked. right. by eapply wi_reads0.
  - intros i op Hop. apply Hasked. right. by eapply wi_effects_asked0.
Qed.

(** *** The service moves *)

Lemma world_inv_observe e y' w :
  Z.of_nat N < 2 ^ 62 → world_inv w → sys_lstep uninit (x_system w) e y' → asked_for w e →
  world_inv (observe e y' w).
Proof.
  intros HN Hw Hstep Hask. pose proof Hw as [].
  assert (∀ i op, taken_in e = Some (i, op) → asked w op) as Htaken.
  { intros i op Ht. destruct e as [| | | |j o|j args reply]; try discriminate Ht.
    - injection Ht as -> ->. left.
      destruct (taken_accepted _ _ _ _ HN wi_system0 Hstep) as (j & op' & Hacc%wi_accepted0 & Heq).
      by rewrite (Heq (wi_ok0 _ Hacc)).
    - cbn in Ht. case_match; [discriminate Ht|]. injection Ht as _ <-. right. by exists args. }
  constructor; unfold observe; upd_simpl; try done.
  - eapply sys_inv_step; [exact HN|exact wi_system0|by exists e].
  - intros i op. rewrite (sys_lstep_accepted _ _ _ Hstep). destruct e; try apply wi_accepted0.
    intros [[= _ ->]|Hin]%elem_of_cons; [exact Hask|by eapply wi_accepted0].
  - intros i p' op Hp' Hin. change (asked w op).
    destruct (sys_lstep_history _ _ _ _ _ Hstep Hp') as [Hnil|(p & Hp & [[Hh _]|(b & o & Ht & Hh & _)])];
      [rewrite Hnil in Hin; by apply not_elem_of_nil in Hin|rewrite Hh in Hin; by eapply wi_reads0|].
    rewrite Hh in Hin. apply elem_of_app in Hin as [?|Hin]; [by eapply wi_reads0|].
    apply list_elem_of_singleton in Hin. injection Hin as _ ->. by eapply Htaken.
  - intros i p' op Hp' Hin. apply elem_of_app.
    destruct (sys_lstep_history _ _ _ _ _ Hstep Hp') as [Hnil|(p & Hp & [[Hh _]|(b & o & Ht & Hh & _)])];
      [rewrite Hnil in Hin; by apply not_elem_of_nil in Hin|rewrite Hh in Hin; right; by eapply wi_effects0|].
    rewrite Hh, ops_snoc, effective_snoc in Hin. cbn [app] in Hin.
    apply elem_of_app in Hin as [?|Hin]; [right; by eapply wi_effects0|left].
    unfold took_effect. rewrite Ht, Hp. destruct (dup_in _ _ _); [by apply not_elem_of_nil in Hin|].
    apply list_elem_of_singleton in Hin as ->. by left.
  - intros i op [Hin|Hin]%elem_of_app; [|by apply (wi_effects_asked0 i)]. unfold took_effect in Hin.
    destruct (taken_in e) as [[j o]|] eqn:Ht; [|by apply not_elem_of_nil in Hin].
    destruct (y_procs _ !! j); [|by apply not_elem_of_nil in Hin].
    destruct (dup_in _ _ _); [by apply not_elem_of_nil in Hin|].
    apply list_elem_of_singleton in Hin. injection Hin as -> ->. by apply (Htaken j).
  - intros op [Hin|Hin]%elem_of_app.
    + destruct (answered_ok _ _ _ _ HN wi_system0 Hstep Hin) as (i & p & o & Hp & Ho & Hc & Hi).
      exists i, o. split; [|done]. apply elem_of_app. right. by eapply wi_effects0.
    + destruct (wi_answers0 op Hin) as (i & o & ? & ?). exists i, o. split; [|done].
      apply elem_of_app. by right.
Qed.

Lemma world_inv_step w w' :
  Z.of_nat N < 2 ^ 62 → world_inv w → world_step uninit w w' → world_inv w'.
Proof.
  intros HN Hw Hstep. destruct Hstep as [a k c Ha _ Hok|a k c Ha|a k c op r Ha _ _|a k c args r Ha _ _|e y'].
  - eapply world_inv_client; [done|done|done| |by intros k1 c1 op [= <- <-]; apply Hok].
    intros op (Hc & Hi & _). cbn in *. split; [done|]. cbn. split; [lia|]. lia.
  - by eapply world_inv_send.
  - eapply world_inv_hear; [done|done|apply hear_write_request].
  - eapply world_inv_hear; [done|done|apply hear_read_request].
  - by apply world_inv_observe.
Qed.

Lemma world_initial_inv w : world_initial N w → world_inv w.
Proof.
  intros (Hs & Hidle & Hids & Ew & Er & Ea & _ & Ee). pose proof Hs as (_ & Hp & _ & Hacc).
  assert (∀ op, ¬ asked w op) as Hno.
  { intros op [Hin|(args & Hin & _)]; [rewrite Ew in Hin|rewrite Er in Hin]; by apply not_elem_of_nil in Hin. }
  constructor.
  - by apply sys_initial_inv.
  - intros a b s t Has Hbt. destruct (Hidle a s Has) as [r ->]. destruct (Hidle b t Hbt) as [r' ->].
    by apply Hids.
  - by intros op ?%Hno.
  - by intros op op' ?%Hno.
  - rewrite Ew. by intros op ?%not_elem_of_nil.
  - intros a k c op Ha. by destruct (Hidle a _ Ha).
  - rewrite Hacc. by intros i op ?%not_elem_of_nil.
  - intros i p op. rewrite Hp, lookup_fmap. intros (n & _ & ->)%fmap_Some. by intros ?%not_elem_of_nil.
  - intros i p op. rewrite Hp, lookup_fmap. intros (n & _ & ->)%fmap_Some. by intros ?%not_elem_of_nil.
  - rewrite Ee. by intros i op ?%not_elem_of_nil.
  - rewrite Ea. by intros op ?%not_elem_of_nil.
Qed.

Lemma world_reachable_inv w : Z.of_nat N < 2 ^ 62 → world_reachable uninit N w → world_inv w.
Proof.
  intros HN (w0 & H0 & Hs). apply (steps_invariant (world_step uninit) world_inv w0 w);
    [by apply world_initial_inv| |done]. intros x y Hx. by apply world_inv_step.
Qed.

(** The write of a call in progress that was answered [OK] took effect. *)
Lemma answered_effect (w : world) (a : nat) (k : call) (c : Clerk) (op : Op) :
  Z.of_nat N < 2 ^ 62 → world_reachable uninit N w →
  x_clients w !! a = Some (Calling k c) → call_request k c = inl op →
  (op, OK) ∈ x_write_answers w → ∃ i, (i, op) ∈ x_effects w.
Proof.
  intros HN Hw Ha Hk Hans. pose proof (world_reachable_inv w HN Hw) as W.
  destruct (wi_answers _ W op Hans) as (i & o & Ho & Hc & Hle). exists i.
  destruct (wi_asked _ W o) as (b & t & Hb & Hid & Hlast & Heq); [by eapply wi_effects_asked|].
  assert (call_op k c = op) as Hop by (unfold call_op; by rewrite Hk).
  destruct (call_op_key k c) as [H1 H2]. rewrite Hop in H1, H2.
  assert (b = a) as -> by (eapply (wi_ids _ W); [done..|]; cbn; congruence).
  rewrite Ha in Hb. injection Hb as <-. cbn in Hlast, Heq.
  rewrite <- Hop, <- Heq; [done|lia].
Qed.

(** ** The theorems *)


(** What took effect at a server of the requests of its clients. *)
Record effects_ordered (w : world) (h : history) : Prop := {
  eo_order c : Sorted.StronglySorted Z.lt (client_ids c (effective [] (ops h)));
  eo_request op : op ∈ effective [] (ops h) →
    ∃ a s, x_clients w !! a = Some s ∧ request_of s op;
  eo_same op o j q : op ∈ effective [] (ops h) → y_procs (x_system w) !! j = Some q →
    o ∈ effective [] (ops (p_history q)) → request_key o = request_key op → o = op
}.

End invariant.

(** ** Executions *)

#[export] Instance GetArgs_eq_dec : EqDecision GetArgs.
Proof. solve_decision. Defined.

Inductive world_action {F : Type} :=
  | WCall (a : nat) (k : call (F:=F))
  | WSend (a : nat)
  | WHear (a : nat) (answer : option nat)
  | WService (s : sys_action).

Section exec.
Context {F T : Type} `{H : HnswLib F} `{SH : StdHash} `{K : SkipList T} `{C : FeatureCodec F}
  `{Ar : BoostArchive} (uninit : Z).
Abbreviation world := (world (F:=F) (T:=T)).

#[local] Instance asked_for_dec (w : world) (e : sys_event) : Decision (asked_for w e).
Proof. destruct e; cbn; apply _. Defined.
#[local] Instance unheard_dec (k : call (F:=F)) : Decision (unheard k).
Proof. destruct k as [? ? []|? []|? []]; cbn; solve [by left|by right]. Defined.

(** The answer number [j] of a list, if it is for [x]. *)
Definition answer_for {A B} `{EqDecision A} (l : list (A * B)) (x : A) (j : nat) : option B :=
  '(y, b) ← l !! j; guard_opt (bool_decide (y = x)) b.
(** What an attempt meets: the failure, or that answer. *)
Definition heard {A B} `{EqDecision A} (l : list (A * B)) (x : A) (j : option nat) : option (option B) :=
  match j with None => Some None | Some j => Some <$> answer_for l x j end.

Definition world_exec (t : world_action (F:=F)) (w : world) : option world :=
  match t with
  | WCall a k =>
      match x_clients w !! a with
      | Some (Idle c) =>
          guard_opt (bool_decide (unheard k) &&
            match call_request k c with inl op => bool_decide (op_ok op) | inr _ => true end)
            (set_client a (Calling k c) w)
      | _ => None
      end
  | WSend a =>
      match x_clients w !! a with
      | Some (Calling k c) => Some (send_request (call_request k c) w)
      | _ => None
      end
  | WHear a j =>
      match x_clients w !! a with
      | Some (Calling k c) =>
          match call_request k c with
          | inl op => r ← heard (x_write_answers w) op j;
              Some (set_client a (after_hearing (hear_write (mkPutAppendReply <$> r) k) c) w)
          | inr args => r ← heard (x_read_answers w) args j;
              Some (set_client a (after_hearing (hear_read r k) c) w)
          end
      | _ => None
      end
  | WService s =>
      '(e, y') ← sys_exec uninit s (x_system w);
      guard_opt (bool_decide (asked_for w e)) (observe e y' w)
  end.
Fixpoint world_run (l : list (world_action (F:=F))) (w : world) : option world :=
  match l with [] => Some w | t :: l' => w' ← world_exec t w; world_run l' w' end.

Lemma heard_answer {A B} `{EqDecision A} (l : list (A * B)) x j r b :
  heard l x j = Some r → r = Some b → (x, b) ∈ l.
Proof.
  unfold heard, answer_for, guard_opt. destruct j as [j|]; [|by intros [= <-]].
  intros (b' & ([y b''] & Hj & Hg)%bind_Some & ->)%fmap_Some [= <-].
  case_match; [|done]. injection Hg as <-. b2p. subst. by eapply list_elem_of_lookup_2.
Qed.

Lemma world_exec_step t w w' : world_exec t w = Some w' → world_step uninit w w'.
Proof.
  destruct t as [a k|a|a j|s]; cbn [world_exec].
  - destruct (x_clients w !! a) as [[c|]|] eqn:Ha; [|done..]. unfold guard_opt.
    case_match eqn:E; [|done]. intros [= <-]. apply andb_true_iff in E as [E1 E2].
    apply xs_call; [done|by b2p|]. intros op Hop. rewrite Hop in E2. by b2p.
  - destruct (x_clients w !! a) as [[|k c]|] eqn:Ha; [done| |done]. intros [= <-]. by eapply xs_send.
  - destruct (x_clients w !! a) as [[|k c]|] eqn:Ha; [done| |done].
    destruct (call_request k c) as [op|args] eqn:Hk; intros (r & Hr & [= <-])%bind_Some.
    + eapply xs_hear_write; [done|done|]. intros reply (err & -> & ->)%fmap_Some. by eapply heard_answer.
    + eapply xs_hear_read; [done|done|]. intros reply ->. by eapply heard_answer.
  - intros ([e y'] & Hs%sys_exec_step & Hg)%bind_Some. unfold guard_opt in Hg. case_match; [|done].
    injection Hg as <-. b2p. by apply xs_system.
Qed.

(** The service of [N] servers and clerks with the given random numbers. *)
Definition world_boot (N : nat) (rands : list Z) : option world :=
  y ← sys_boot N;
  guard_opt (bool_decide (NoDup (to_string <$> rands)))
    (mkWorld y (map_seq 0 ((λ r, Idle (Init r)) <$> rands)) [] [] [] [] []).

Lemma world_boot_initial N rands w0 : world_boot N rands = Some w0 → world_initial N w0.
Proof.
  intros (y0 & (c & Hc & [= <-])%bind_Some & Hg)%bind_Some.
  unfold guard_opt in Hg. case_match eqn:Hnd; [|done]. injection Hg as <-. b2p.
  split; [split_and!; [by eapply boot_initial|done..]|]. split_and!; try done; cbn.
  - intros a s. rewrite lookup_map_seq_0, list_lookup_fmap. intros (r & _ & ->)%fmap_Some. by exists r.
  - intros a b c1 d. rewrite !lookup_map_seq_0, !list_lookup_fmap.
    intros (r & Hr1 & [= ->])%fmap_Some (r' & Hr2 & [= ->])%fmap_Some Heq.
    apply (NoDup_lookup (to_string <$> rands) a b (to_string r)); [done|by rewrite list_lookup_fmap, Hr1|].
    rewrite list_lookup_fmap, Hr2. cbn. f_equal. symmetry. exact Heq.
Qed.

Lemma world_run_steps l w w' : world_run l w = Some w' → steps (world_step uninit) w w'.
Proof.
  revert w. induction l as [|t l IH]; intros w; cbn [world_run]; [intros [= ->]; constructor|].
  intros (w1 & Hw & Hr)%bind_Some. eapply steps_trans; [|by apply IH].
  apply steps_one. by eapply world_exec_step.
Qed.

Lemma world_run_reachable N rands l w :
  (w0 ← world_boot N rands; world_run l w0) = Some w → world_reachable uninit N w.
Proof.
  intros (w0 & Hb & Hr)%bind_Some. exists w0.
  split; [by eapply world_boot_initial|by eapply world_run_steps].
Qed.
End exec.

#[local] Existing Instance first_byte_hash.
#[local] Existing Instance bit_archive.

(** A clerk puts a value: a follower refuses its first attempt, the leader takes the second
    and the third, whose answers are late, and answers [OK] once the command is applied. *)
Definition clerk_call : call (F:=Z) := CallPut "x" "1" [].
Definition clerk_op : Op := mkOp "Put" "x" "1" (to_string 7) 1.
Definition clerk_schedule : list (world_action (F:=Z)) :=
  (WService ∘ YRaft <$> elect_first) ++
  [WCall 0 clerk_call; WSend 0; WService (YSubmit 1 2 clerk_op); WHear 0 (Some 0%nat);
   WSend 0; WService (YSubmit 0 3 clerk_op); WHear 0 None; WSend 0; WService (YSubmit 0 4 clerk_op)] ++
  (WService ∘ YRaft <$> batch_round 0 10 ++ [AAppend 0 11; AAppendReply 0 (Some 0%nat); AApply 0]) ++
  [WService (YApply 0); WService (YApply 0); WService (YAnswer 0)].
Definition clerk_run : option (world (F:=Z) (T:=gmap string string)) :=
  w ← world_boot 3 [7; 8]; world_run 0 clerk_schedule w.

Example clerk_answers : x_write_answers <$> clerk_run = Some [(clerk_op, OK); (clerk_op, ErrWrongLeader)].
Proof. vm_compute. reflexivity. Qed.
(** The leader has taken the command twice, and it took effect once. *)
Example clerk_effects : x_effects <$> clerk_run = Some [(0, clerk_op)].
Proof. vm_compute. reflexivity. Qed.
Example clerk_history :
  (w ← clerk_run; p_history <$> y_procs (x_system w) !! 0) = Some [(true, clerk_op); (true, clerk_op)].
Proof. vm_compute. reflexivity. Qed.
Example clerk_calling :
  (w ← clerk_run; x_clients w !! 0%nat) =
  Some (Calling (CallPut "x" "1" [Some (mkPutAppendReply ErrWrongLeader); None]) (Init 7)).
Proof. vm_compute. reflexivity. Qed.
(** When the clerk hears the answer, its call returns. *)
Example clerk_returns :
  (w ← clerk_run; w' ← world_exec 0 (WHear 0 (Some 0%nat)) w; x_clients w' !! 0%nat) =
  Some (Idle (mkClerk 1 7 true "" 0)).
Proof. vm_compute. reflexivity. Qed.

Lemma clerk_reachable w : clerk_run = Some w → world_reachable 0 3 w.
Proof. apply world_run_reachable. Qed.

#[local] Opaque clerk_run.

(** A fact about the run, for the world that it ends in. *)
Lemma clerk_fact {A} (f : world (F:=Z) (T:=gmap string string) → A) (x : A) w :
  f <$> clerk_run = Some x → clerk_run = Some w → f w = x.
Proof. intros Hf Hw. rewrite Hw in Hf. by injection Hf. Qed.

Lemma clerk_world : ∃ w, clerk_run = Some w.
Proof.
  destruct clerk_run as [w|] eqn:Hw; [by exists w|].
  pose proof clerk_effects as He. rewrite Hw in He. discriminate He.
Qed.


