(* ===== verification/KvDurable.v ===== *)
(** What an acknowledgement is worth: while no two leaders create entries for one index, a
    write that was answered [OK] stays in the logs of a majority of the servers, the leaders
    elected later have it, and every server that gets as far executes it. *)
From S2P Require Import Prelude OpCoder Persister RaftTypes RaftLog RaftElection.
From S2P Require Import RaftReplication RaftPipeline RaftSteps Cluster ClusterLog ClusterRun.
From S2P Require Import RaftBounds ClusterSafe RaftTidy ClusterClean ClusterTerms ClusterApply ClusterCommit.
From S2P Require Import Channels Hnsw RecallEngine KvTypes KvServer KvSpec ServerMain KvCluster.
From S2P Require Import Clerk KvClients.
Open Scope Z_scope.

#[local] Arguments upd : simpl never.

(** ** Worlds whose leaders start with empty buffers *)

Section durable.
Context {F T : Type} `{H : HnswLib F} `{SH : StdHash} `{K : SkipList T} `{C : FeatureCodec F}
  `{Ar : BoostArchive} `{KL : !SkipListLaws K} `{AL : !BoostArchiveLaws Ar} (uninit : Z).
Abbreviation call := (call (F:=F)).
Abbreviation system := (system (F:=F) (T:=T)).
Abbreviation world := (world (F:=F) (T:=T)).
Variable N : nat.

Definition nodes_of (w : world) : cluster := y_cluster (x_system w).

Definition clean_world_step (w w' : world) : Prop :=
  world_step uninit w w' ∧ fresh_leaders (nodes_of w) (nodes_of w').
Definition clean_world (w : world) : Prop :=
  ∃ w0, world_initial N w0 ∧ steps clean_world_step w0 w.

(** Client steps leave the nodes alone, a step of the service is at most one of theirs. *)
Lemma sys_lstep_cluster y e y' :
  sys_lstep uninit y e y' → y_cluster y' = y_cluster y ∨ cstep (y_cluster y) (y_cluster y').
Proof. destruct 1; try (by left); right; by eexists. Qed.

Lemma world_step_cluster w w' :
  world_step uninit w w' → nodes_of w' = nodes_of w ∨ cstep (nodes_of w) (nodes_of w').
Proof.
  destruct 1 as [| a k c _| | |e y' Hstep _]; [by left| |by left..|].
  - left. by destruct (call_request k c).
  - by apply sys_lstep_cluster in Hstep.
Qed.

Lemma clean_world_reachable w : clean_world w → world_reachable uninit N w.
Proof.
  intros (w0 & H0 & Hs). exists w0. split; [done|].
  induction Hs as [|w1 w2 _ IH [Hstep _]]; [constructor|by eapply steps_snoc].
Qed.

Lemma clean_world_snoc w w' : clean_world w → clean_world_step w w' → clean_world w'.
Proof. intros (w0 & H0 & Hs) Hstep. exists w0. split; [done|]. by eapply steps_snoc. Qed.

Lemma clean_world_cluster w : clean_world w → clean_reachable N (nodes_of w).
Proof.
  intros (w0 & ((Hc & _) & _) & Hs). induction Hs as [|w1 w2 _ IH [Hstep Hfresh]]; [by constructor|].
  destruct (world_step_cluster _ _ Hstep) as [->|Hstep']; [done|by eapply cr_step].
Qed.

Lemma clean_step_grows w w' :
  Z.of_nat N < 2 ^ 62 → clean_world w → clean_world_step w w' →
  nodes_of w' = nodes_of w ∨ grows (nodes_of w) (nodes_of w').
Proof.
  intros HN Hw [Hstep _]. pose proof (clean_world_cluster w Hw) as Hc.
  destruct (world_step_cluster _ _ Hstep) as [|Hstep']; [by left|right].
  apply (cstep_grows N); [done|done|by apply clean_commit|done].
Qed.

(** ** Entries that were secured *)

(** Entry [e] was secured in the term of entry [e0]. *)
Record held (c : cluster) (e e0 : LogEntry) : Prop := {
  hl_entry : e ∈ h_started c;
  hl_term : e0 ∈ h_started c;
  hl_secured : secured N c (logterm e0) (logindex e)
}.
(** The command [op] is that of a secured entry. *)
Definition stored (c : cluster) (op : Op) : Prop :=
  ∃ e e0, held c e e0 ∧ decodeOp uninit (command e) = op.

Lemma held_mono c c' e e0 : grows c c' → held c e e0 → held c' e e0.
Proof. intros Hg []. split; [by eapply gr_started..|by eapply secured_mono]. Qed.

Lemma held_step w w' e e0 :
  Z.of_nat N < 2 ^ 62 → clean_world w → clean_world_step w w' →
  held (nodes_of w) e e0 → held (nodes_of w') e e0.
Proof.
  intros HN Hw Hstep. destruct (clean_step_grows w w' HN Hw Hstep) as [->|Hg]; [done|by apply held_mono].
Qed.

Lemma held_steps w w' e e0 :
  Z.of_nat N < 2 ^ 62 → clean_world w → steps clean_world_step w w' →
  held (nodes_of w) e e0 → held (nodes_of w') e e0 ∧ clean_world w'.
Proof.
  intros HN Hw Hs He. induction Hs as [|w1 w2 _ [IH Hw1] Hstep]; [done|].
  split; [by eapply held_step|by eapply clean_world_snoc].
Qed.

(** What a server hands to its state machine has been secured. *)
Lemma delivered_stored c i n k msg :
  Z.of_nat N < 2 ^ 62 → clean_reachable N c → c_servers c !! i = Some n →
  applyChan n !! k = Some msg → stored c (msg_op uninit msg).
Proof.
  intros HN Hr Hi Hk. pose proof (clean_reachable_reachable N c Hr) as Hreach.
  destruct (clean_delivered N c i n HN Hr Hi k msg Hk) as (e & He & Hx & ->).
  destruct (reachable_in_order N c i n HN Hreach Hi) as [Hlen _]. apply lookup_lt_Some in Hk.
  destruct (reachable_binv N c HN Hreach) as [_ [b B]].
  pose proof (nl_applied _ _ _ (bi_nodes _ _ _ B _ _ Hi)).
  assert (kept N c (m_currentTerm n) (logindex e)) as Hkept.
  { eapply kept_le; [reflexivity| |by eapply (cm_nodes _ _ (clean_commit N c HN Hr))]. lia. }
  destruct Hkept as (e0 & He0 & _ & Hs); [lia|]. by exists e, e0.
Qed.

(** Every write that took effect is stored. *)
Definition effects_stored (w : world) : Prop :=
  ∀ i op, (i, op) ∈ x_effects w → Operation op ≠ "Get" → stored (nodes_of w) op.

Lemma new_effect_stored e y y' w i op :
  Z.of_nat N < 2 ^ 62 → clean_reachable N (y_cluster y) → x_system w = y →
  sys_lstep uninit y e y' → (i, op) ∈ took_effect e y → Operation op ≠ "Get" →
  stored (y_cluster y) op.
Proof.
  intros HN Hr Hy Hstep Hin Hget. unfold took_effect in Hin.
  destruct (taken_in e) as [[j o]|] eqn:Ht; [|by apply not_elem_of_nil in Hin].
  destruct (y_procs y !! j); [|by apply not_elem_of_nil in Hin].
  destruct (dup_in _ _ _); [by apply not_elem_of_nil in Hin|].
  apply list_elem_of_singleton in Hin. injection Hin as <- <-.
  destruct Hstep; cbn [taken_in] in Ht; try discriminate Ht.
  - injection Ht as <- <-. by eapply delivered_stored.
  - case_match; [discriminate Ht|]. injection Ht as <- <-. by destruct Hget.
Qed.

Lemma effects_stored_step w w' :
  Z.of_nat N < 2 ^ 62 → clean_world w → clean_world_step w w' →
  effects_stored w → effects_stored w'.
Proof.
  intros HN Hw Hstep Hst i op Hin Hget.
  assert ((i, op) ∈ x_effects w ∨ stored (nodes_of w) op) as Hcases.
  { destruct Hstep as [Hstep _]. revert Hin.
    destruct Hstep as [| a k c _| | |e y' Hsys _]; [by left| |by left..|].
    - left. by destruct (call_request k c).
    - unfold observe. upd_simpl. intros [Hin|?]%elem_of_app; [right|by left].
      by eapply new_effect_stored; [|apply clean_world_cluster| | | |]. }
  assert (stored (nodes_of w) op) as (e & e0 & He & Hop) by (destruct Hcases; [by eapply Hst|done]).
  exists e, e0. split; [by eapply held_step|done].
Qed.

Lemma clean_world_effects w : Z.of_nat N < 2 ^ 62 → clean_world w → effects_stored w.
Proof.
  intros HN (w0 & H0 & Hs).
  assert (clean_world w ∧ effects_stored w) as [_ ?]; [|done].
  induction Hs as [|w1 w2 _ [Hw IH] Hstep].
  - split; [by exists w0; split; [|constructor]|]. destruct H0 as (_ & _ & _ & _ & _ & _ & _ & Hnil).
    intros i op. rewrite Hnil. by intros ?%not_elem_of_nil.
  - split; [by eapply clean_world_snoc|by eapply effects_stored_step].
Qed.

(** ** What stays *)

Lemma held_replicated c e e0 :
  Z.of_nat N < 2 ^ 62 → clean_reachable N c → undisputed c → held c e e0 →
  replicated N c (logindex e) (eq e).
Proof.
  intros HN Hr U [He _ (Q & Hnd & Hq & HQ)]. exists Q. split; [done|]. split; [done|].
  intros j [Hj _]%HQ. destruct (holds_entry N c j (logindex e) e HN Hr U Hj He eq_refl) as (m & ? & ?).
  by exists m, e.
Qed.

(** A server that has taken the message of the entry has taken its command. *)
Lemma held_taken w i p e :
  Z.of_nat N < 2 ^ 62 → clean_world w → undisputed (nodes_of w) → e ∈ h_started (nodes_of w) →
  y_procs (x_system w) !! i = Some p → logindex e ≤ Z.of_nat (p_taken p) →
  decodeOp uninit (command e) ∈ logged (p_history p).
Proof.
  intros HN Hw U He Hp Hle. pose proof (clean_world_cluster w Hw) as Hr.
  pose proof (wi_system _ _ _ (world_reachable_inv uninit N w HN (clean_world_reachable w Hw))) as HY.
  assert (is_Some (c_servers (nodes_of w) !! i)) as [n Hn] by (apply (si_procs _ _ _ HY); by exists p).
  destruct (si_inv _ _ _ HY i n p Hn Hp) as [_ Hl Ht _ _]. rewrite Hl.
  destruct (clean_based N _ HN Hr e He) as [Hpos _].
  destruct (lookup_lt_is_Some_2 (applyChan n) (Z.to_nat (logindex e - 1))) as [msg Hmsg]; [lia|].
  destruct (clean_delivered N _ i n HN Hr Hn _ _ Hmsg) as (e' & He' & Hx & Hm).
  assert (e' = e) as -> by (apply (undisputed_slot N (nodes_of w)); try done;
    [by apply clean_reachable_reachable|lia]).
  change (decodeOp uninit (command e)) with (msg_op uninit (apply_msg (logindex e) e)).
  apply list_elem_of_fmap_2. apply list_elem_of_lookup. exists (Z.to_nat (logindex e - 1)).
  rewrite lookup_take_lt by lia. rewrite Hmsg, Hm. do 2 f_equal. lia.
Qed.

(** The request of a call that writes is no read. *)
Lemma write_request_operation (k : call) c op : call_request k c = inl op → Operation op ≠ "Get".
Proof. destruct k; by intros [= <-]. Qed.

End durable.

(** ** A run with a change of leader *)

Section exec.
Context {F T : Type} `{H : HnswLib F} `{SH : StdHash} `{K : SkipList T} `{C : FeatureCodec F}
  `{Ar : BoostArchive} (uninit : Z).
Abbreviation world := (world (F:=F) (T:=T)).

(** [world_run], stopping where a leader with entries left over is made. *)
Fixpoint world_run_clean (l : list (world_action (F:=F))) (w : world) : option world :=
  match l with
  | [] => Some w
  | t :: l' =>
      w' ← world_exec uninit t w;
      if forallb (fresh_leader_b (nodes_of w)) (map_to_list (c_servers (nodes_of w')))
      then world_run_clean l' w' else None
  end.

Lemma world_run_clean_steps l w w' :
  world_run_clean l w = Some w' → steps (clean_world_step uninit) w w'.
Proof.
  revert w. induction l as [|t l IH]; intros w; cbn [world_run_clean]; [intros [= ->]; constructor|].
  intros (w1 & Hw%world_exec_step & Hr)%bind_Some. case_match eqn:Hf; [|done].
  eapply steps_trans; [|by apply IH]. apply steps_one. split; [done|by apply fresh_leader_b_sound].
Qed.

Lemma world_run_clean_world N rands l w :
  (w0 ← world_boot N rands; world_run_clean l w0) = Some w → clean_world uninit N w.
Proof.
  intros (w0 & Hb & Hr)%bind_Some. exists w0. split; [by eapply world_boot_initial|].
  by eapply world_run_clean_steps.
Qed.
End exec.

#[local] Existing Instance first_byte_hash.
#[local] Existing Instance bit_archive.

(** Once the clerk's write is acknowledged, the leader is killed and started again, and server 1
    wins the election of term 2 with the vote of server 2. *)
Definition takeover_schedule : list (world_action (F:=Z)) :=
  WService (YRestart 0 20) :: (WService ∘ YRaft <$>
    [ABegin 1 21; AVoteReply 1 None; AVoteReply 1 None; ARequest 1; AVote 0 22; AVoteReply 1 (Some 0%nat)]).
Definition acknowledged_run : option (world (F:=Z) (T:=gmap string string)) :=
  w ← world_boot 3 [7; 8]; world_run_clean 0 clerk_schedule w.
Definition takeover_run : option (world (F:=Z) (T:=gmap string string)) :=
  w ← acknowledged_run; world_run_clean 0 takeover_schedule w.

Example acknowledged_answers :
  x_write_answers <$> acknowledged_run = Some [(clerk_op, OK); (clerk_op, ErrWrongLeader)].
Proof. vm_compute. reflexivity. Qed.
Example acknowledged_terms :
  (λ w, logterm <$> h_started (nodes_of w)) <$> acknowledged_run = Some [1; 1].
Proof. vm_compute. reflexivity. Qed.
Example acknowledged_calling :
  (w ← acknowledged_run; x_clients w !! 0%nat) =
  Some (Calling (CallPut "x" "1" [Some (mkPutAppendReply ErrWrongLeader); None]) (Init 7)).
Proof. vm_compute. reflexivity. Qed.
Example takeover_elected :
  (λ w, h_elected (nodes_of w)) <$> takeover_run = Some [(2, 1); (1, 0)].
Proof. vm_compute. reflexivity. Qed.
Example takeover_undisputed : (λ w, undisputed_b (nodes_of w)) <$> takeover_run = Some true.
Proof. vm_compute. reflexivity. Qed.

Lemma takeover_clean w' :
  takeover_run = Some w' →
  ∃ w, acknowledged_run = Some w ∧ clean_world 0 3 w ∧ steps (clean_world_step 0) w w'.
Proof.
  intros (w & Hw & Hr)%bind_Some. exists w. split; [exact Hw|].
  split; [by eapply world_run_clean_world|by eapply world_run_clean_steps].
Qed.

#[local] Opaque acknowledged_run takeover_run.

