(* ===== verification/ClientMain.v ===== *)
(** The client program of [src/ClientMain.cpp] (with [random_key] and [random_value] of
    [src/Clerk/clerk.h]): its options, its three modes and the figures it computes.  The
    random generator, the clock and the answers of the network are arguments; printing is
    left out. *)
From stdpp Require Import sorting list_numbers.
From S2P Require Import Prelude OpCoder KvTypes Clerk.
Open Scope Z_scope.

(** ** Options *)

(** The global variables of the program. *)
Record options := mkOptions {
  benchMode : bool; totalOps : Z; threads : Z; writeRatio : Z; keySpace : Z; valueSize : Z;
  searchBenchMode : bool; searchTopK : Z; warmupItems : Z; warmupThreads : Z
}.
#[export] Instance options_expand : Expand options := λ o,
  mkOptions (benchMode o) (totalOps o) (threads o) (writeRatio o) (keySpace o) (valueSize o)
    (searchBenchMode o) (searchTopK o) (warmupItems o) (warmupThreads o).
Definition default_options : options := mkOptions false 200 4 50 1000 128 false 10 100 4.

(** The first loop of [main] stops at the first mode it finds. *)
Fixpoint scan_mode (args : list string) (o : options) : options :=
  match args with
  | [] => o
  | arg :: args' =>
      if (arg =? "--bench")%string then o <| benchMode := true |>
      else if (arg =? "--search-bench")%string
      then o <| searchBenchMode := true |> <| benchMode := true |>
      else scan_mode args' o
  end.

(** The options that take a value. *)
Definition value_option (arg : string) : option (Z → options → options) :=
  if (arg =? "--ops")%string then Some (λ z o, o <| totalOps := z |>)
  else if (arg =? "--threads")%string then Some (λ z o, o <| threads := z |>)
  else if (arg =? "--write-ratio")%string then Some (λ z o, o <| writeRatio := z |>)
  else if (arg =? "--key-space")%string then Some (λ z o, o <| keySpace := z |>)
  else if (arg =? "--value-size")%string then Some (λ z o, o <| valueSize := z |>)
  else if (arg =? "--search-topk")%string then Some (λ z o, o <| searchTopK := z |>)
  else if (arg =? "--warmup-items")%string then Some (λ z o, o <| warmupItems := z |>)
  else None.

(** The second loop: options count only after ["--"]. *)
Fixpoint parse_args (startParsing : bool) (args : list string) (o : options)
    : outcome options :=
  match args with
  | [] => Ok o
  | arg :: args' =>
      if (arg =? "--")%string then parse_args true args' o
      else if negb startParsing then parse_args startParsing args' o
      else if (arg =? "--bench")%string
      then parse_args startParsing args' (o <| benchMode := true |>)
      else if (arg =? "--search-bench")%string
      then parse_args startParsing args' (o <| searchBenchMode := true |> <| benchMode := true |>)
      else match value_option arg, args' with
           | Some set, v :: args'' => z ← atoi v; parse_args startParsing args'' (set z o)
           | _, _ => parse_args startParsing args' o
           end
  end.

(** ** Random keys and values *)

(** A random engine of the standard library and its distributions over [a..b] and over
    [0, 1). *)
Class Rng (F G : Type) := {
  uniform_int : Z → Z → G → Z * G;
  uniform_real : G → F * G
}.
Class RngLaws {F G} (R : Rng F G) := {
  uniform_int_range a b g : a ≤ b → a ≤ (uniform_int a b g).1 ≤ b
}.

(** [uniform_int_distribution] requires [a <= b]. *)
Definition int_dist (a b : Z) : outcome unit :=
  if a <=? b then Ok tt else Undefined "uniform_int_distribution".
(** [reserve] and the vector constructor throw on a negative size, converted to
    [size_t]. *)
Definition reserve (n : Z) : outcome unit :=
  if n <? 0 then Terminate "std::length_error" else Ok tt.

Definition charset : list ascii := list_ascii_of_string
  "0123456789ABCDEFGHIJKLMNOPQRSTUVWXYZabcdefghijklmnopqrstuvwxyz".

Section client.
Context {F G : Type} `{R : Rng F G}.

Definition random_key (keySpace : Z) (g : G) : outcome (string * G) :=
  _ ← int_dist 0 (keySpace - 1);
  let '(id, g) := uniform_int 0 (keySpace - 1) g in
  Ok (("key" ++ to_string id)%string, g).

Fixpoint value_loop (n : nat) (g : G) : outcome (list ascii * G) :=
  match n with
  | O => Ok ([], g)
  | S n' =>
      let '(i, g) := uniform_int 0 61 g in
      c ← vec_at "charset" charset i;
      '(v, g) ← value_loop n' g;
      Ok (c :: v, g)
  end.
Definition random_value (valueSize : Z) (g : G) : outcome (string * G) :=
  _ ← reserve valueSize;
  '(v, g) ← value_loop (Z.to_nat valueSize) g;
  Ok (string_of_list_ascii v, g).

(** ** The threads *)

Inductive bench_op := BPut (key value : string) | BGet (key : string).

(** The call of the clerk, given what the network will answer. *)
Definition op_call (puts : list (option PutAppendReply)) (gets : list (option GetReply))
    (o : bench_op) : call (F:=F) :=
  match o with
  | BPut k v => CallPut k v puts
  | BGet k => CallGet k gets
  end.

Fixpoint kv_ops (n : nat) (writeRatio keySpace valueSize : Z) (g : G)
    : outcome (list bench_op * G) :=
  match n with
  | O => Ok ([], g)
  | S n' =>
      '(key, g) ← random_key keySpace g;
      let '(d, g) := uniform_int 0 99 g in
      '(o, g) ← (if d <? writeRatio
                 then '(val, g) ← random_value valueSize g; Ok (BPut key val, g)
                 else Ok (BGet key, g));
      '(os, g) ← kv_ops n' writeRatio keySpace valueSize g;
      Ok (o :: os, g)
  end.
Definition kv_worker (opsPerThread writeRatio keySpace valueSize : Z) (g : G)
    : outcome (list bench_op) :=
  _ ← reserve opsPerThread;
  '(os, _) ← kv_ops (Z.to_nat opsPerThread) writeRatio keySpace valueSize g;
  Ok (BPut "__bench_warmup__" "1" :: os).

Fixpoint real_vector (n : nat) (g : G) : list F * G :=
  match n with
  | O => ([], g)
  | S n' => let '(x, g) := uniform_real g in let '(v, g) := real_vector n' g in (x :: v, g)
  end.

(** The queries of one thread of the search benchmark, and its calls of [Search]; its
    [keyDist] is constructed but never drawn from. *)
Fixpoint search_queries (n : nat) (g : G) : list (list F) :=
  match n with
  | O => []
  | S n' => let '(q, g) := real_vector 128 g in q :: search_queries n' g
  end.
Definition search_worker (opsPerThread topK warmupItems : Z) (g : G)
    : outcome (list (list F * Z)) :=
  _ ← reserve opsPerThread;
  _ ← int_dist 0 (warmupItems - 1);
  Ok ((λ query, (query, topK)) <$> search_queries (Z.to_nat opsPerThread) g).

(** [for (int i = startId; i < endId; ++i)] *)
Definition range (startId endId : Z) : list Z := seqZ startId (endId - startId).

(** The item numbers of warm-up thread [t]. *)
Definition warmup_ids (numItems numThreads t : Z) : list Z :=
  let itemsPerThread := Z.quot numItems numThreads in
  let startId := t * itemsPerThread in
  let endId := if t =? numThreads - 1 then numItems else startId + itemsPerThread in
  range startId endId.
Fixpoint warmup_items (ids : list Z) (clock : Z → Z) (g : G) : list (ItemFeature F) :=
  match ids with
  | [] => []
  | i :: ids' =>
      let '(v, g) := real_vector 128 g in
      mkItemFeature ("item_" ++ to_string i)%string v ∅ (clock i) :: warmup_items ids' clock g
  end.
Definition warmup_features (numItems numThreads : Z) (clock : Z → Z) (gens : Z → G)
    : outcome (list (list (ItemFeature F))) :=
  if numThreads =? 0 then Undefined "division by zero" else
  Ok ((λ t, warmup_items (warmup_ids numItems numThreads t) clock (gens t)) <$>
      range 0 numThreads).

(** ** The figures *)

(** [x / 2 ^ b] rounded to the nearest integer, ties to even. *)
Definition round_even (x b : Z) : Z :=
  let q := x / 2 ^ b in
  let r := x mod 2 ^ b in
  if 2 * r <? 2 ^ b then q
  else if 2 ^ b <? 2 * r then q + 1 else if Z.even q then q else q + 1.
(** [(size_t)(n * d)] for the [double] [d = m / 2 ^ 53]: the product is rounded to 53 bits
    and then truncated. *)
Definition size_times (m n : Z) : Z :=
  let x := n * m in
  let b := Z.log2 x - 52 in
  (if b <=? 0 then x else round_even x b * 2 ^ b) / 2 ^ 53.
(** The [double]s written 0.50, 0.95 and 0.99. *)
Definition d50 : Z := 4503599627370496.
Definition d95 : Z := 8556839292003942.
Definition d99 : Z := 8917127262193582.

(** What the threads did, the sorted latencies and the values read from them. *)
Record report (W : Type) := mkReport {
  rp_workers : list W; rp_total : Z; rp_all : list Z; rp_values : list Z
}.

(** [latency t j] is what the clock measures for operation [j] of thread [t]. *)
Definition latencies (opsPerThread : Z) (latency : Z → Z → Z) (ts : list Z) : list Z :=
  merge_sort Z.le (ts ≫= λ t, latency t <$> range 0 opsPerThread).
Definition read_values (idx : list Z) (all : list Z) : outcome (list Z) :=
  mapM (vec_at "allLatencies" all) idx.

(** The shape the two benchmarks share: [worker] is one thread, [idx] the positions read
    from the sorted latencies of that number. *)
Definition run_benchmark {W} (worker : Z → Z → outcome W) (idx : Z → list Z)
    (ops threads : Z) (latency : Z → Z → Z) : outcome (report W) :=
  _ ← reserve threads;
  if threads =? 0 then Undefined "division by zero" else
  let opsPerThread := Z.quot ops threads in
  workers ← mapM (worker opsPerThread) (range 0 threads);
  let all := latencies opsPerThread latency (range 0 threads) in
  values ← read_values (idx (vsize all)) all;
  Ok (mkReport W workers (vsize all) all values).

Definition run_kv_benchmark (o : options) (gens : Z → G) (latency : Z → Z → Z)
    : outcome (report (list bench_op)) :=
  run_benchmark
    (λ opsPerThread i, kv_worker opsPerThread (writeRatio o) (keySpace o) (valueSize o) (gens i))
    (λ n, [size_times d95 n; size_times d99 n])
    (totalOps o) (threads o) latency.
Definition run_search_benchmark (o : options) (gens : Z → G) (latency : Z → Z → Z)
    : outcome (report (list (list F * Z))) :=
  run_benchmark
    (λ opsPerThread i, search_worker opsPerThread (searchTopK o) (warmupItems o) (gens i))
    (λ n, [size_times d50 n; size_times d95 n; size_times d99 n; 0; n - 1])
    (totalOps o) (threads o) latency.

(** ** [main] *)

Inductive client_result :=
  | RanDemo (v1 v2 : option string) (c : Clerk)
  | RanSearch (warmup : list (list (ItemFeature F))) (r : report (list (list F * Z)))
  | RanKv (r : report (list bench_op)).

(** The four calls made without a benchmark mode. *)
Definition demo (rand : Z) (p1 p2 : list (option PutAppendReply))
    (g1 g2 : list (option GetReply)) : client_result :=
  let c := Init rand in
  let '(_, _, c) := Put "foo" "hello" p1 c in
  let '(_, _, c) := Put "bar" "world" p2 c in
  let '(v1, _, c) := Get "foo" g1 c in
  let '(v2, _, c) := Get "bar" g2 c in
  RanDemo v1 v2 c.

(** [args] are the arguments after the program's name. *)
Definition main (args : list string) (rand : Z) (p1 p2 : list (option PutAppendReply))
    (g1 g2 : list (option GetReply)) (clock : Z → Z) (gens : Z → G) (latency : Z → Z → Z)
    : outcome client_result :=
  o ← parse_args false args (scan_mode args default_options);
  if negb (benchMode o) then Ok (demo rand p1 p2 g1 g2)
  else if searchBenchMode o then
    w ← warmup_features (warmupItems o) (warmupThreads o) clock gens;
    r ← run_search_benchmark o gens latency;
    Ok (RanSearch w r)
  else r ← run_kv_benchmark o gens latency; Ok (RanKv r).
End client.

(** ** Percentile positions are in bounds *)

Lemma round_even_le x b : 0 < b → 0 ≤ x → 0 ≤ round_even x b ∧ 2 * (round_even x b * 2 ^ b) ≤ 2 * x + 2 ^ b.
Proof.
  intros Hb Hx. unfold round_even. pose proof (Z.pow_pos_nonneg 2 b ltac:(lia) ltac:(lia)) as Hp.
  pose proof (Z.div_mod x (2 ^ b) ltac:(lia)). pose proof (Z.mod_pos_bound x (2 ^ b) Hp).
  pose proof (Z.div_pos x (2 ^ b) Hx Hp). set (q := x / 2 ^ b) in *. set (r := x mod 2 ^ b) in *.
  destruct (Z.ltb_spec (2 * r) (2 ^ b)); [split; [done|nia]|].
  destruct (Z.ltb_spec (2 ^ b) (2 * r)); [split; [lia|nia]|].
  destruct (Z.even q); split; lia || nia.
Qed.

(** The rounded product of a size by a number below 1 is a valid position. *)
Lemma size_times_bound m n : 0 < m < 2 ^ 53 - 1 → 0 < n → 0 ≤ size_times m n < n.
Proof.
  intros Hm Hn. unfold size_times. cbn zeta. set (x := n * m). assert (0 < x) as Hx by nia.
  set (b := Z.log2 x - 52). set (R := if b <=? 0 then x else _).
  assert (0 ≤ R ∧ 2 ^ 53 * R ≤ (2 ^ 53 + 1) * x) as [HR1 HR2].
  { unfold R. destruct (Z.leb_spec b 0) as [|Hb]; [lia|].
    destruct (round_even_le x b Hb ltac:(lia)) as [Hr1 Hr2].
    pose proof (Z.pow_pos_nonneg 2 b ltac:(lia) ltac:(lia)). split; [nia|].
    assert (2 ^ 52 * 2 ^ b ≤ x) as Hlog.
    { rewrite <- Z.pow_add_r by lia. replace (52 + b) with (Z.log2 x) by lia.
      by apply Z.log2_spec. }
    lia. }
  split; [by apply Z.div_pos|]. apply Z.div_lt_upper_bound; [done|]. unfold x in *. nia.
Qed.

Lemma size_times_zero m : size_times m 0 = 0.
Proof. reflexivity. Qed.

(** ** The sorted latencies *)

Lemma length_range a b : length (range a b) = Z.to_nat (b - a).
Proof. unfold range. by rewrite length_seqZ. Qed.

Lemma vsize_range a b : a ≤ b → vsize (range a b) = b - a.
Proof. intros. unfold vsize. rewrite length_range. lia. Qed.

Lemma length_bind_const {A B} (f : A → list B) k l :
  (∀ a, length (f a) = k) → length (l ≫= f) = (length l * k)%nat.
Proof.
  intros Hf. induction l as [|a l IH]; [done|]. rewrite bind_cons, length_app, Hf, IH. done.
Qed.

Lemma latencies_size ops threads latency :
  0 ≤ ops → 0 ≤ threads → vsize (latencies ops latency (range 0 threads)) = threads * ops.
Proof.
  intros. unfold latencies, vsize. rewrite merge_sort_Permutation.
  rewrite (length_bind_const _ (Z.to_nat ops)).
  - rewrite length_range. lia.
  - intros t. rewrite length_fmap, length_range. lia.
Qed.

Lemma bind_empty {A B} (f : A → list B) l : (∀ a, f a = []) → l ≫= f = [].
Proof. intros Hf. induction l as [|a l IH]; [done|]. by rewrite bind_cons, Hf, IH. Qed.

(** Reading positions that are in bounds gives elements. *)
Lemma read_values_ok idx all :
  Forall (λ i, 0 ≤ i < vsize all) idx →
  ∃ vs, read_values idx all = Ok vs ∧ Forall2 (λ i v, all !! Z.to_nat i = Some v) idx vs.
Proof.
  unfold read_values. induction 1 as [|i idx Hi _ (vs & IH & Hvs)]; [by exists []|].
  destruct (vec_at_in_range "allLatencies" all i Hi) as (v & Hv & Hat).
  exists (v :: vs). cbn [mapM]. rewrite Hat. cbn [mbind outcome_bind]. rewrite IH. cbn.
  split; [done|]. by constructor.
Qed.

Lemma read_values_empty i idx : ∃ w, read_values (i :: idx) [] = Undefined w.
Proof. unfold read_values. cbn. unfold vec_at. case_decide; cbn; eauto. Qed.

(** ** What a benchmark run computes *)

Section benchmark.
Context {W : Type} (worker : Z → Z → outcome W) (idx : Z → list Z).
(** The positions are in bounds of a non-empty list. *)
Hypothesis idx_ok : ∀ n, 0 < n → Forall (λ i, 0 ≤ i < n) (idx n).
Hypothesis idx_some : idx 0 ≠ [].

Lemma workers_ok (P : W → Prop) ops l :
  (∀ i, ∃ w, worker ops i = Ok w ∧ P w) →
  ∃ ws, mapM (worker ops) l = Ok ws ∧ length ws = length l ∧ Forall P ws.
Proof.
  intros Hw. induction l as [|i l (ws & IH & Hlen & HP)]; [by exists []|].
  destruct (Hw i) as (w & Hi & Hp). exists (w :: ws). cbn [mapM]. rewrite Hi. cbn [mbind outcome_bind].
  rewrite IH. cbn. split; [done|]. split; [by rewrite Hlen|by constructor].
Qed.

(** With at least one operation per thread the run returns: the figures are read from the
    sorted latencies of all operations. *)
Lemma run_benchmark_returns (P : W → Prop) ops threads latency :
  0 < threads ≤ ops → (∀ i, ∃ w, worker (Z.quot ops threads) i = Ok w ∧ P w) →
  let q := Z.quot ops threads in
  ∃ r, run_benchmark worker idx ops threads latency = Ok r ∧
    vsize (rp_workers _ r) = threads ∧ Forall P (rp_workers _ r) ∧
    rp_total _ r = threads * q ∧ ops - threads < rp_total _ r ≤ ops ∧
    StronglySorted Z.le (rp_all _ r) ∧
    rp_all _ r ≡ₚ (range 0 threads ≫= λ t, latency t <$> range 0 q) ∧
    Forall2 (λ i v, rp_all _ r !! Z.to_nat i = Some v) (idx (rp_total _ r)) (rp_values _ r).
Proof.
  intros Ht Hw. cbn zeta. set (q := Z.quot ops threads) in *.
  pose proof (Z.quot_rem' ops threads). pose proof (Z.rem_bound_pos ops threads ltac:(lia) ltac:(lia)).
  assert (0 < q) as Hq by (unfold q; nia).
  pose proof (latencies_size q threads latency ltac:(lia) ltac:(lia)) as Hsize.
  destruct (workers_ok P q (range 0 threads) Hw) as (ws & Hws & Hlen & HP).
  destruct (read_values_ok (idx (threads * q)) (latencies q latency (range 0 threads)))
    as (vs & Hvs & Hall); [rewrite Hsize; apply idx_ok; nia|].
  unfold run_benchmark, reserve. zbool. cbn [mbind outcome_bind]. fold q.
  rewrite Hws. cbn [mbind outcome_bind]. rewrite Hsize, Hvs. cbn [mbind outcome_bind].
  eexists. split; [reflexivity|]. cbn [rp_workers rp_total rp_all rp_values].
  split; [unfold vsize; rewrite Hlen, length_range; lia|]. split; [done|]. split; [done|].
  split; [unfold q in *; lia|]. split; [apply StronglySorted_merge_sort; apply _|].
  split; [apply merge_sort_Permutation|done].
Qed.

(** With more threads than operations it reads an empty vector. *)
Lemma run_benchmark_empty (P : W → Prop) ops threads latency :
  0 ≤ ops < threads → (∀ i, ∃ w, worker 0 i = Ok w ∧ P w) →
  ∃ what, run_benchmark worker idx ops threads latency = Undefined what.
Proof.
  intros Ht Hw. destruct (workers_ok P 0 (range 0 threads) Hw) as (ws & Hws & _).
  pose proof (latencies_size 0 threads latency ltac:(lia) ltac:(lia)) as Hsize.
  rewrite Z.mul_0_r in Hsize. unfold run_benchmark, reserve. zbool. cbn [mbind outcome_bind].
  rewrite Z.quot_small by lia. rewrite Hws. cbn [mbind outcome_bind]. rewrite Hsize.
  destruct (latencies 0 latency (range 0 threads)); [|unfold vsize in Hsize; cbn in Hsize; lia].
  destruct (idx 0) as [|i l] eqn:E; [done|].
  destruct (read_values_empty i l) as [what ->]. by exists what.
Qed.
End benchmark.

(** ** The load *)

Section load.
Context {F G : Type} `{R : Rng F G} `{!RngLaws R}.

Definition key_in (keySpace : Z) (k : string) : Prop :=
  ∃ id, 0 ≤ id < keySpace ∧ k = ("key" ++ to_string id)%string.
Definition value_of_size (valueSize : Z) (v : string) : Prop :=
  ∃ l, v = string_of_list_ascii l ∧ vsize l = valueSize ∧ Forall (.∈ charset) l.
Definition op_in (keySpace valueSize : Z) (o : bench_op) : Prop :=
  match o with
  | BPut k v => key_in keySpace k ∧ value_of_size valueSize v
  | BGet k => key_in keySpace k
  end.

Lemma random_key_ok keySpace g :
  1 ≤ keySpace → ∃ k g', random_key keySpace g = Ok (k, g') ∧ key_in keySpace k.
Proof.
  intros Hk. unfold random_key, int_dist. zbool. cbn [mbind outcome_bind].
  pose proof (uniform_int_range 0 (keySpace - 1) g ltac:(lia)) as Hr.
  destruct (uniform_int 0 (keySpace - 1) g) as [id g']. eexists _, _. split; [done|].
  exists id. cbn [fst] in Hr. split; [lia|done].
Qed.

Lemma value_loop_ok n g :
  ∃ v g', value_loop n g = Ok (v, g') ∧ length v = n ∧ Forall (.∈ charset) v.
Proof.
  revert g. induction n as [|n IH]; intros g; [by exists [], g|]. cbn [value_loop].
  pose proof (uniform_int_range 0 61 g ltac:(lia)) as Hr.
  destruct (uniform_int 0 61 g) as [i g1]. cbn [fst] in Hr.
  destruct (vec_at_in_range "charset" charset i) as (c & Hc & ->);
    [change (vsize charset) with 62; lia|].
  cbn [mbind outcome_bind]. destruct (IH g1) as (v & g2 & -> & Hl & Hv).
  exists (c :: v), g2. split; [done|]. split; [cbn; by rewrite Hl|].
  constructor; [by eapply list_elem_of_lookup_2|done].
Qed.

Lemma random_value_ok valueSize g :
  0 ≤ valueSize → ∃ v g', random_value valueSize g = Ok (v, g') ∧ value_of_size valueSize v.
Proof.
  intros Hs. unfold random_value, reserve. zbool. cbn [mbind outcome_bind].
  destruct (value_loop_ok (Z.to_nat valueSize) g) as (v & g' & -> & Hl & Hv).
  eexists _, _. split; [done|]. exists v. split; [done|]. unfold vsize. split; [lia|done].
Qed.

Lemma kv_ops_ok n wr ks vs g :
  1 ≤ ks → 0 ≤ vs →
  ∃ os g', kv_ops n wr ks vs g = Ok (os, g') ∧ length os = n ∧ Forall (op_in ks vs) os.
Proof.
  intros Hk Hv. revert g. induction n as [|n IH]; intros g; [by exists [], g|]. cbn [kv_ops].
  destruct (random_key_ok ks g Hk) as (k & g1 & -> & Hkey). cbn [mbind outcome_bind].
  destruct (uniform_int 0 99 g1) as [d g2]. destruct (d <? wr).
  - destruct (random_value_ok vs g2 Hv) as (v & g3 & -> & Hval). cbn [mbind outcome_bind].
    destruct (IH g3) as (os & g4 & -> & Hl & Hos). eexists _, _. split; [done|].
    split; [cbn; by rewrite Hl|]. by constructor.
  - cbn [mbind outcome_bind]. destruct (IH g2) as (os & g4 & -> & Hl & Hos). eexists _, _. split; [done|].
    split; [cbn; by rewrite Hl|]. by constructor.
Qed.

(** The load of one thread: a warm-up write, then its share of the operations. *)
Definition thread_load (ops keySpace valueSize : Z) (os : list bench_op) : Prop :=
  ∃ os', os = BPut "__bench_warmup__" "1" :: os' ∧ vsize os' = ops ∧
    Forall (op_in keySpace valueSize) os'.

Lemma kv_worker_ok ops wr ks vs g :
  0 ≤ ops → 1 ≤ ks → 0 ≤ vs → ∃ os, kv_worker ops wr ks vs g = Ok os ∧ thread_load ops ks vs os.
Proof.
  intros Ho Hk Hv. unfold kv_worker, reserve. zbool. cbn [mbind outcome_bind].
  destruct (kv_ops_ok (Z.to_nat ops) wr ks vs g Hk Hv) as (os & g' & -> & Hl & Hos).
  eexists. split; [done|]. exists os. split; [done|]. unfold vsize. split; [lia|done].
Qed.


(** ** The warm-up *)

Lemma range_split a b c : a ≤ b ≤ c → range a c = range a b ++ range b c.
Proof.
  intros. unfold range. replace (c - a) with ((b - a) + (c - b)) by lia.
  rewrite seqZ_app by lia. do 2 f_equal. lia.
Qed.
Lemma range_empty a b : b ≤ a → range a b = [].
Proof. intros. unfold range. apply seqZ_nil. lia. Qed.
Lemma range_snoc a b : a ≤ b → range a (b + 1) = range a b ++ [b].
Proof.
  intros. rewrite (range_split a b) by lia. f_equal. unfold range.
  replace (b + 1 - b) with 1 by lia. reflexivity.
Qed.

(** The threads but the last take blocks of the same size. *)
Lemma warmup_blocks numItems numThreads k :
  0 ≤ Z.quot numItems numThreads → 0 ≤ k < numThreads →
  range 0 k ≫= warmup_ids numItems numThreads = range 0 (k * Z.quot numItems numThreads).
Proof.
  intros Hq. set (q := Z.quot numItems numThreads) in *. intros [Hk0 Hk]. revert Hk.
  pattern k. apply natlike_ind; [by rewrite !range_empty|clear k Hk0|done].
  intros k Hk0 IH Hk. replace (Z.succ k) with (k + 1) by lia.
  rewrite range_snoc, bind_app, IH by lia. cbn. rewrite app_nil_r.
  unfold warmup_ids. fold q. zbool. rewrite (range_split 0 (k * q) ((k + 1) * q)) by nia.
  do 2 f_equal. lia.
Qed.

(** The warm-up inserts every item exactly once: the blocks of its threads, one after
    the other, are the items from 0 up, the remainder of the division going to the last
    thread; a negative number of items inserts nothing. *)
Theorem warmup_covers (numItems numThreads : Z) :
  0 < numThreads →
  range 0 numThreads ≫= warmup_ids numItems numThreads = range 0 numItems.
Proof.
  intros Ht. pose proof (Z.quot_rem' numItems numThreads) as Hqr.
  set (q := Z.quot numItems numThreads) in *.
  destruct (Z.le_gt_cases 0 numItems) as [Hpos|Hneg].
  - pose proof (Z.rem_bound_pos numItems numThreads Hpos Ht).
    assert (0 ≤ q) as Hq by (apply Z.quot_pos; lia).
    assert (range 0 numThreads = range 0 (numThreads - 1) ++ [numThreads - 1]) as ->.
    { rewrite <- range_snoc by lia. f_equal. lia. }
    rewrite bind_app, warmup_blocks by (fold q; lia). fold q. cbn.
    rewrite app_nil_r. unfold warmup_ids. fold q. zbool.
    symmetry. apply range_split. split; [apply Z.mul_nonneg_nonneg; lia|lia].
  - pose proof (Z.rem_bound_pos_neg numItems numThreads Ht ltac:(lia)).
    assert (q ≤ 0) as Hq by nia. rewrite (range_empty 0 numItems) by lia.
    apply bind_empty. intros t. unfold warmup_ids. fold q. apply range_empty.
    case_match eqn:E; b2p; nia.
Qed.
End load.

(** ** Concrete runs *)

(** A generator that counts. *)
Definition counting_rng : Rng Z Z := {|
  uniform_int a b g := (a + g mod Z.max 1 (b - a + 1), g + 1);
  uniform_real g := (g, g + 1)
|}.
#[export] Instance counting_rng_laws : RngLaws counting_rng.
Proof.
  constructor. intros a b g Hab. cbn.
  pose proof (Z.mod_pos_bound g (Z.max 1 (b - a + 1))). lia.
Qed.


Lemma warmup_covers_witness :
  (range 0 4 ≫= warmup_ids 10 4) = [0; 1; 2; 3; 4; 5; 6; 7; 8; 9] ∧
  warmup_ids 10 4 3 = [6; 7; 8; 9].
Proof. split; [rewrite (warmup_covers 10 4) by lia; reflexivity|reflexivity]. Defined.

(** What the command line decides: options count only after ["--"], a mode also before. *)
Example options_before_separator :
  parse_args false ["--ops"; "7"] default_options = Ok default_options ∧
  benchMode (scan_mode ["--ops"; "7"; "--bench"] default_options) = true ∧
  parse_args false ["--"; "--threads"; "x"] default_options
    = Ok (default_options <| threads := 0 |>).
Proof. split_and!; reflexivity. Qed.
